(* ===== verification/_CoqProject ===== *)
-Q . S2P
Prelude.v
StorageTypes.v
SkipList.v
MemTable.v
Crc32.v
Os.v
Wal.v
Recovery.v
SSTable.v
Compaction.v
Engine.v
Lifecycle.v
Background.v
Concurrent.v
Compacting.v
Validation.v
Flags.v
Bench.v
Store.v
Config.v
RaftNode.v
Timers.v
Election.v
Replication.v
Cluster.v
ClusterInv.v
ClusterMono.v
ClusterSteps.v
ClusterRepl.v
ClusterSafety.v
Delivery.v
Validity.v
Progress.v
ElectionProgress.v
Snapshot.v
StateMachine.v
System.v
Rpc.v
Client.v
Service.v
Main.v
