(* ===== verification/Prelude.v ===== *)
(** * GRANITE: a verification development

    GRANITE is a replicated key-value store in Go: a storage engine (write-ahead
    log, skip-list MemTable, SSTables with background compaction,
    [internal/storage]), a Raft node that replicates a log of commands
    ([internal/raft]), and a gRPC layer that serves clients and peers
    ([internal/rpc]), put together by [cmd/server/main.go]. A client's write is
    proposed to the leader's log, replicated to the peers by AppendEntries,
    committed by a quorum, sent as an apply message over a channel to the state
    machine of each node, and written to that node's engine; reads are answered from
    the local engine.

    This library models these parts as executable definitions and proves what makes
    them correct, and the places where the code does less than it means to.

    ** Files, in dependency order

    - [Prelude]: bytes, machine integers, little-endian encodings, slices with Go's
      panics, byte-string order, errors and outcomes, stable sorting.
    - [StorageTypes]: operation tags and table entries, with the reference sorted
      list of entries ([entries_lookup], [entries_insert]).
    - [SkipList]: memtable.go's skip list as nodes in a store linked by forward
      pointers; [put], [get], [iterate] with their loops.
    - [MemTable]: memtable.go's MemTable over the skip list, with its size
      accounting.
    - [Crc32]: [crc32.ChecksumIEEE], bit by bit.
    - [Os]: the operating system as the program uses it. A [world] has files, a
      clock, a random source and a schedule of I/O failures; [IO] is the monad of
      computations that may fail or panic.
    - [Wal], [Recovery], [SSTable], [Compaction]: wal.go, recovery.go, sstable.go
      and compaction.go, byte for byte.
    - [Engine]: engine.go. Its abstract view is the finite map [history_map] of the
      records logged so far; [engine_rep] is the refinement relation.
    - [Lifecycle]: an engine from [Open] to [Close] and [Open] again. [Background]:
      the compactor's ticker and result channel and the engine's goroutine that
      applies the results, interleaved with writes. [Concurrent]: clients whose
      writes interleave with flushes under way, a write being split where
      [maybeFlushLocked] releases the mutex. [Compacting]: both together, flushes
      under way while the compactor ticks and its results are applied. [Validation]:
      main.go's [runStorageTest], the program's own storage check.
    - [Flags]: the part of Go's [flag] package that the two programs use, and their
      flags. [Bench]: cmd/benchmark, with the percentiles of its latencies computed
      in [float64].
    - [Store]: what the engine promises to its clients, as the classes [KVStore] and
      [KVStoreLaws], with the engine as their instance; the laws cover writes, reads
      and opening the store again after a crash.
    - [Config]: config.go. [RaftNode]: node.go (state, persistence, proposals,
      timers). [Timers]: node.go's event loop. [Election]: election.go.
      [Replication]: replication.go.
    - [Cluster]: nodes, running elections and messages as a step relation, one rule
      per critical section of the source; messages may be lost, delayed, duplicated
      and reordered, and nodes may crash and restart at any step. [ClusterInv]
      states the inductive invariant, [ClusterMono], [ClusterSteps] and
      [ClusterRepl] prove that every rule keeps it, [ClusterSafety] draws the
      conclusions and has an executable scheduler whose run is the witness.
    - [Delivery]: what each step of the cluster sends to the apply channels.
      [Validity]: where the entries of logs and messages come from. [Progress] and
      [ElectionProgress]: runs of the cluster in which messages between a node and
      enough peers are not lost.
    - [Snapshot]: snapshot.go. [StateMachine]: state_machine.go and the apply
      channel, the applier with its context, [Start] and [Stop]. [System]: the
      cluster, the apply channels, the state machines and the stores of all nodes as
      one step relation, over any store that satisfies [KVStoreLaws]. [Rpc]:
      server.go and client.go, the node behind the class [RaftProposer]. [Client]:
      clients that send requests to the handlers of any node of the system.
      [Service]: the generated stubs and service description of raft_grpc.pb.go, the
      interceptor, [Start] and [Stop] of the server, and [replicateToPeer] with its
      call through the pool. [Main]: main.go, from the arguments to a running
      process, and the shutdown of the process.

    ** How state and effects are modelled

    A [uint64], [uint32] or [uint16] is a [Z] with the wrap-around written out at
    each conversion and addition that can reach it; a Go [int] is a [Z]. A byte
    slice is [list byte]; where the program distinguishes nil, it is an [option]. A
    function that panics returns [None] or [Panic]. Methods under a mutex are
    functions on the component's state; code that runs between two critical sections
    (a flush while the lock is released, an RPC in flight) is split there
    ([flush_begin]/[flush_end], [replicate_request]/[append_reply],
    [startElection]/[vote_reply]/[count_vote]). Log lines are left out.

    ** What the theorems show

    - Raft ([ClusterSafety]): election safety, log matching, leader completeness,
      state-machine safety across time, durability across restarts and absence of
      panics, for every reachable state of every consistent deployment. The
      hypotheses are those of [deployment] (distinct names, valid configurations
      that agree on the cluster's size); [step] keeps terms and log lengths in the
      range of their encodings. [raft_nodes_wellformed] is the invariant of a single
      node, and [raft_validity] says that every entry of a log was proposed to a
      leader. [Election] and [Replication] give the exact behaviour of the handlers
      on every branch the cluster proof uses.
    - Progress ([Progress], [ElectionProgress], [Timers]): a node with an up-to-date
      log can win an election, exchanges with a peer end with the peer's log brought
      up to date, a quorum of peers lets the leader commit its whole log, and
      heartbeats come more often than elections time out.
    - The whole system ([System]): the stores of nodes that have caught up with what
      was delivered to them agree, and hold every write that was ever committed,
      across crashes and restarts of nodes.
    - Clients ([Client], [Service]): through the handlers of the server the cluster
      is a sequential map that executes each accepted request at most once, replicas
      differ only by being behind, and reads return only what was put; a remote call
      runs the handler of its name at most once and returns only what that gives,
      and the replication goroutine makes steps of the cluster relation.
    - Storage: the skip list refines a sorted list for every random source, the
      MemTable a finite map, the log reader returns exactly the whole records of a
      torn log, a table reads back what was written and its writer is atomic under
      failures, compaction keeps the newest version, and the engine's [Put],
      [Delete], [Get], [Open] and compaction cycle refine the map, also when clients
      write while flushes are under way and compactions run, under conditions that
      each statement lists (in particular flushes end in order, merged tables share
      no key with newer ones, and the list of tables is in the order of their names
      when a result is applied). The program's storage check passes on an empty
      directory, also after a restart or a kill.
    - Programs: settings written on the command line are read back, the last one of
      each flag or its default ([Flags]); the benchmark ends with every key on disk
      and percentiles in order ([Bench]).
    - State machine and RPC: commands round trip through both encoders, committed
      entries reach the store in log order, replay after a restart converges, and
      what a client's [Put] success means. A clean restart of a node keeps its Raft
      state and its store ([Main]).
    - Defects: theorems that exhibit where the code does not do what it means to
      (recovery that panics on the longest keys, reads past a table's data,
      compacted files that sort as newest, the flush window, flushes that end out of
      order, a compaction that reorders the tables after a flush that overlapped
      another, acknowledged writes lost behind a torn record, a state file replaced
      by a torn one, the lost election timer, reordered apply messages, snapshots
      and positions, truncated key lengths).

    ** Fuel

    Loops that are not structural take fuel that is proved to suffice: the number of
    nodes for a walk of the skip list, the length of the input for the log and table
    readers (each record consumes bytes), the length of the file for [load_entries].
    The delivery and commit loops count their iterations. The bound of 700000 keys
    in [Validation] keeps the run below the 64 MiB at which the MemTable is flushed
    (at most 86 bytes per key); that of 690000 operations in [Bench] does the same
    (at most 96 bytes per operation).

    ** What is not modelled

    Logging other than the interceptor's, usage texts, signals, the gRPC library and
    the protobuf codec (parameters of [Rpc] and [Service], with what they promise as
    the classes [CodecLaws] and [GrpcLib] and the predicate [delivers]; [graceful]
    in [Main] for the server's stop), the generated accessors of raft.pb.go, which
    the program does not call, the times at which tickers fire and contexts end (the
    cluster and the background goroutines may take any step at any time), and the
    throughput figures of the benchmark. The Raft proof assumes that writes of the
    state file succeed; [raft_torn_state_forgets_vote] shows what happens when one
    does not. The runs of [System] and [Client] are those in which no apply channel
    overflows, the store takes every write, no compaction runs in the background and
    processes crash when their stores are durable. The engine's refinement theorems
    assume no I/O failure, and except in [Concurrent], [Compacting] and [Background]
    one client at a time; failures are covered for the log append, the table writer
    and recovery. [Concurrent] takes the write of one table as one step, which other
    clients cannot tell from the outside because it works on a file of its own, and
    [Compacting] a merge likewise. A failed [os.RemoveAll] removes nothing in
    [Bench]. The shutdown of [Main] interleaves the applier's last iterations before
    [Close], not inside it. Wake-ups of the event loop come at given times in
    [Timers]. Slices handed to [MemTable.Put] are kept, not copied; callers in the
    program do not change them afterwards. *)

From Stdlib Require Export ZArith Lia.
From Stdlib Require Export Strings.Byte Strings.String.
From stdpp Require Export base tactics list gmap strings pretty sorting.

#[global] Open Scope Z_scope.

(** ** Bytes and byte slices *)

#[global] Instance byte_eq_decision : EqDecision byte := Byte.byte_eq_dec.

#[global] Program Instance byte_countable : Countable byte :=
  inj_countable' Byte.to_N (λ n, default x00 (Byte.of_N n)) _.
Next Obligation. intros b; cbn; by rewrite Byte.of_to_N. Qed.

Abbreviation bytes := (list byte).

(** A Go [[]byte] that the program compares with [nil]: [None] is the nil
    slice, [Some b] a non-nil slice (possibly of length 0). *)
Abbreviation slice := (option bytes).

Definition slice_bytes (s : slice) : bytes := default [] s.
Arguments slice_bytes : simpl never.

(** A Go string literal as its bytes. *)
Definition str (s : string) : bytes := list_byte_of_string s.

(** [len(x)] as a Go [int]. *)
Definition len {A} (l : list A) : Z := Z.of_nat (length l).

(** ** Machine integers *)

Definition u8 (z : Z) : Z := z mod 2 ^ 8.
Definition u16 (z : Z) : Z := z mod 2 ^ 16.
Definition u32 (z : Z) : Z := z mod 2 ^ 32.
Definition u64 (z : Z) : Z := z mod 2 ^ 64.

(** Conversion of a [uint64] to [int64] (two's complement). *)
Definition int64_of_u64 (z : Z) : Z := if z <? 2 ^ 63 then z else z - 2 ^ 64.

Definition byte_to_Z (b : byte) : Z := Z.of_N (Byte.to_N b).
Definition byte_of_Z (z : Z) : byte := default x00 (Byte.of_N (Z.to_N (z mod 2 ^ 8))).

(** [encoding/binary.LittleEndian.PutUintN] and [UintN] for [n] bytes. *)
Fixpoint le_put (n : nat) (v : Z) : bytes :=
  match n with
  | O => []
  | S n => byte_of_Z v :: le_put n (Z.shiftr v 8)
  end.

Fixpoint le_get (b : bytes) : Z :=
  match b with
  | [] => 0
  | x :: b => Z.lor (byte_to_Z x) (Z.shiftl (le_get b) 8)
  end.

Arguments le_put : simpl never.
Arguments le_get : simpl never.
Arguments len : simpl never.

(** ** Slicing: [b[lo:hi]], [None] where Go panics *)

Definition subslice {A} (b : list A) (lo hi : Z) : option (list A) :=
  if (0 <=? lo) && (lo <=? hi) && (hi <=? len b)
  then Some (take (Z.to_nat (hi - lo)) (drop (Z.to_nat lo) b))
  else None.

(** [io.ReadFull] of [n] bytes from a reader that has [data] left: the bytes
    read and the rest, or [None] for [io.EOF] and [io.ErrUnexpectedEOF]. *)
Definition ReadFull (n : Z) (data : bytes) : option (bytes * bytes) :=
  if n <=? len data
  then Some (take (Z.to_nat n) data, drop (Z.to_nat n) data)
  else None.

(** [file.ReadAt] into a slice of length [n] at offset [off]. *)
Definition ReadAt (file : bytes) (n off : Z) : option bytes :=
  if (0 <=? off) && ((n =? 0) || (off + n <=? len file))
  then Some (take (Z.to_nat n) (drop (Z.to_nat off) file))
  else None.

(** ** [bytes.Compare]: the lexicographic order on unsigned bytes *)

Fixpoint bytes_compare (a b : bytes) : comparison :=
  match a, b with
  | [], [] => Eq
  | [], _ :: _ => Lt
  | _ :: _, [] => Gt
  | x :: a, y :: b =>
      match N.compare (Byte.to_N x) (Byte.to_N y) with
      | Eq => bytes_compare a b
      | c => c
      end
  end.

Definition bytes_ltb (a b : bytes) : bool :=
  match bytes_compare a b with Lt => true | _ => false end.
Definition bytes_leb (a b : bytes) : bool :=
  match bytes_compare a b with Gt => false | _ => true end.
Definition bytes_eqb (a b : bytes) : bool := bool_decide (a = b).

Definition bytes_lt (a b : bytes) : Prop := bytes_compare a b = Lt.

(** ** Errors and results *)

Inductive error :=
| ErrNotFound
| ErrNotExist
| Errorf (msg : string)
| Wrapf (msg : string) (cause : error).

(** The result of a Go function that may return an error or panic. *)
Inductive outcome (A : Type) :=
| Ok (a : A)
| Err (e : error)
| Panic.
Arguments Ok {_} _.
Arguments Err {_} _.
Arguments Panic {_}.

#[global] Instance outcome_ret : MRet outcome := @Ok.
#[global] Instance outcome_bind : MBind outcome := λ A B f m,
  match m with Ok a => f a | Err e => Err e | Panic => Panic end.

(** A slice expression whose failure is a run-time panic. *)
Definition or_panic {A} (o : option A) : outcome A :=
  match o with Some a => Ok a | None => Panic end.

(** ** [sort.SliceStable], [sort.Slice] and [sort.Strings]

    [less] is the comparison the program passes. The insertion keeps equal
    elements in order, as a stable sort does. *)
Fixpoint sort_insert {A} (less : A → A → bool) (x : A) (l : list A) : list A :=
  match l with
  | [] => [x]
  | y :: l' => if less y x then y :: sort_insert less x l' else x :: y :: l'
  end.

Definition stable_sort {A} (less : A → A → bool) (l : list A) : list A :=
  foldr (sort_insert less) [] l.

(** * Automation *)

Create HintDb granite.

(** A closed decidable goal by evaluating its decision procedure, which keeps
    the normal forms of maps out of the proof. *)
Ltac by_decide := refine (bool_decide_unpack _ _); vm_compute; exact I.

Ltac case_cmp a b :=
  let E := fresh "Ecmp" in destruct (bytes_compare a b) eqn:E.

Ltac outcome_inv :=
  repeat match goal with
  | H : mbind _ ?m = Ok _ |- _ =>
      let E := fresh "Eb" in destruct m eqn:E; cbn in H; try discriminate H
  | H : or_panic ?o = Ok _ |- _ =>
      let E := fresh "Ep" in destruct o eqn:E; cbn in H; try discriminate H
  | H : Ok _ = Ok _ |- _ => injection H as H
  end.

(** * Lemmas on bytes and integers *)

Lemma byte_to_Z_range b : 0 <= byte_to_Z b < 256.
Proof. unfold byte_to_Z. pose proof (Byte.to_N_bounded b). lia. Qed.

Lemma byte_to_of_Z z : byte_to_Z (byte_of_Z z) = z mod 256.
Proof.
  unfold byte_to_Z, byte_of_Z. change (2 ^ 8) with 256.
  pose proof (Z.mod_pos_bound z 256 ltac:(lia)).
  destruct (Byte.of_N (Z.to_N (z mod 256))) as [b|] eqn:E; cbn.
  - apply Byte.to_of_N in E. lia.
  - apply Byte.of_N_None_iff in E. lia.
Qed.

Lemma byte_to_Z_inj a b : byte_to_Z a = byte_to_Z b → a = b.
Proof.
  unfold byte_to_Z. intros H%N2Z.inj.
  pose proof (Byte.of_to_N a) as Ha. rewrite H, Byte.of_to_N in Ha. congruence.
Qed.

Lemma byte_of_to_Z b : byte_of_Z (byte_to_Z b) = b.
Proof.
  apply byte_to_Z_inj. rewrite byte_to_of_Z.
  pose proof (byte_to_Z_range b). by apply Z.mod_small.
Qed.

Lemma lor_shiftl_8 a x : 0 <= a < 256 → Z.lor a (Z.shiftl x 8) = a + 256 * x.
Proof.
  intros Ha. rewrite <- Z.add_nocarry_lor.
  - rewrite Z.shiftl_mul_pow2 by lia. lia.
  - apply Z.bits_inj'. intros n Hn. rewrite Z.land_spec, Z.bits_0.
    destruct (Z.lt_ge_cases n 8) as [Hlt|Hge].
    + rewrite Z.shiftl_spec_low by lia. apply andb_false_r.
    + rewrite <- (Z.mod_small a (2 ^ 8)) by lia.
      rewrite Z.mod_pow2_bits_high by lia. done.
Qed.

Lemma le_get_cons b bs : le_get (b :: bs) = byte_to_Z b + 256 * le_get bs.
Proof. apply (lor_shiftl_8 (byte_to_Z b) (le_get bs)), byte_to_Z_range. Qed.

Lemma length_le_put n v : length (le_put n v) = n.
Proof. revert v; induction n as [|n IH]; intros; [done|]. apply (f_equal S), IH. Qed.

Lemma le_get_put n v : le_get (le_put n v) = v mod 2 ^ (8 * Z.of_nat n).
Proof.
  revert v; induction n as [|n IH]; intros v.
  - change (le_get (le_put 0 v)) with 0. by rewrite Z.mod_1_r.
  - change (le_put (S n) v) with (byte_of_Z v :: le_put n (Z.shiftr v 8)). rewrite le_get_cons, IH, byte_to_of_Z, Z.shiftr_div_pow2 by lia.
    change (2 ^ 8) with 256.
    replace (8 * Z.of_nat (S n)) with (8 + 8 * Z.of_nat n) by lia.
    rewrite Z.pow_add_r by lia. change (2 ^ 8) with 256.
    rewrite Z.rem_mul_r by lia. done.
Qed.

Lemma le_get_put_small n v :
  0 <= v < 2 ^ (8 * Z.of_nat n) → le_get (le_put n v) = v.
Proof. intros. rewrite le_get_put. by apply Z.mod_small. Qed.

Lemma le_get_put_u16 z : le_get (le_put 2 (u16 z)) = u16 z.
Proof. apply le_get_put_small. by apply (Z.mod_pos_bound _ (2 ^ 16)). Qed.
Lemma le_get_put_u32 z : le_get (le_put 4 (u32 z)) = u32 z.
Proof. apply le_get_put_small. by apply (Z.mod_pos_bound _ (2 ^ 32)). Qed.
Lemma le_get_put_u64 z : le_get (le_put 8 (u64 z)) = u64 z.
Proof. apply le_get_put_small. by apply (Z.mod_pos_bound _ (2 ^ 64)). Qed.

Lemma u16_small z : 0 <= z < 2 ^ 16 → u16 z = z.
Proof. apply Z.mod_small. Qed.
Lemma u32_small z : 0 <= z < 2 ^ 32 → u32 z = z.
Proof. apply Z.mod_small. Qed.
Lemma u64_small z : 0 <= z < 2 ^ 64 → u64 z = z.
Proof. apply Z.mod_small. Qed.

Lemma le_get_range b : 0 <= le_get b < 2 ^ (8 * len b).
Proof.
  unfold len. induction b as [|x b IH]; [done|].
  rewrite le_get_cons. cbn [length].
  replace (8 * Z.of_nat (S (length b))) with (8 + 8 * Z.of_nat (length b)) by lia.
  rewrite Z.pow_add_r by lia. pose proof (byte_to_Z_range x).
  change (2 ^ 8) with 256. lia.
Qed.

Lemma le_put_get b : le_put (length b) (le_get b) = b.
Proof.
  induction b as [|x b IH]; [done|].
  change (le_put (length (x :: b)) ?v) with (byte_of_Z v :: le_put (length b) (Z.shiftr v 8)).
  rewrite le_get_cons.
  pose proof (byte_to_Z_range x) as Hx. f_equal.
  - apply byte_to_Z_inj. rewrite byte_to_of_Z.
    rewrite Z.mul_comm, Z.mod_add by lia. by apply Z.mod_small.
  - rewrite Z.shiftr_div_pow2 by lia. change (2 ^ 8) with 256.
    rewrite Z.mul_comm, Z.div_add, Z.div_small by lia. done.
Qed.

Lemma len_nil {A} : len (@nil A) = 0.
Proof. done. Qed.
Lemma len_cons {A} (x : A) l : len (x :: l) = 1 + len l.
Proof. unfold len; cbn [length]; lia. Qed.
Lemma len_app {A} (l k : list A) : len (l ++ k) = len l + len k.
Proof. unfold len. rewrite length_app. lia. Qed.
Lemma len_nonneg {A} (l : list A) : 0 <= len l.
Proof. unfold len; lia. Qed.
Lemma len_le_put n v : len (le_put n v) = Z.of_nat n.
Proof. unfold len. by rewrite length_le_put. Qed.
Lemma len_map {A B} (f : A → B) l : len (map f l) = len l.
Proof. unfold len. by rewrite length_map. Qed.

Lemma take_len {A} (l k : list A) : take (Z.to_nat (len l)) (l ++ k) = l.
Proof. unfold len. rewrite Nat2Z.id. apply take_app_length. Qed.
Lemma drop_len {A} (l k : list A) : drop (Z.to_nat (len l)) (l ++ k) = k.
Proof. unfold len. rewrite Nat2Z.id. apply drop_app_length. Qed.

Create Rewrite HintDb len.
#[export] Hint Rewrite @len_nil @len_cons @len_app @len_le_put @len_map
  @length_app @length_le_put : len.
Ltac len_norm := autorewrite with len in *.

(** Reading back exactly what was written. *)
Lemma ReadFull_app (a b : bytes) n : n = len a → ReadFull n (a ++ b) = Some (a, b).
Proof.
  intros ->. unfold ReadFull. rewrite len_app.
  pose proof (len_nonneg b).
  replace (len a <=? len a + len b) with true by (symmetry; apply Z.leb_le; lia).
  by rewrite take_len, drop_len.
Qed.

Lemma ReadFull_short (a : bytes) n : len a < n → ReadFull n a = None.
Proof. intros. unfold ReadFull. by rewrite (proj2 (Z.leb_gt _ _)). Qed.

Lemma ReadAt_app (a b c : bytes) n off :
  off = len a → n = len b → ReadAt (a ++ b ++ c) n off = Some b.
Proof.
  intros -> ->. unfold ReadAt. rewrite !len_app.
  pose proof (len_nonneg a); pose proof (len_nonneg b); pose proof (len_nonneg c).
  rewrite (proj2 (Z.leb_le 0 (len a))) by lia.
  rewrite (proj2 (Z.leb_le (len a + len b) _)) by lia.
  rewrite orb_true_r; cbn. by rewrite drop_len, take_len.
Qed.

Lemma subslice_app {A} (a b c : list A) lo hi :
  lo = len a → hi = len a + len b → subslice (a ++ b ++ c) lo hi = Some b.
Proof.
  intros -> ->. unfold subslice. rewrite !len_app.
  pose proof (len_nonneg a); pose proof (len_nonneg b); pose proof (len_nonneg c).
  rewrite (proj2 (Z.leb_le 0 (len a))) by lia.
  rewrite (proj2 (Z.leb_le (len a) (len a + len b))) by lia.
  rewrite (proj2 (Z.leb_le (len a + len b) _)) by lia; cbn.
  rewrite drop_len. replace (len a + len b - len a) with (len b) by lia.
  by rewrite take_len.
Qed.

(** * The order of [bytes.Compare] *)

Lemma bytes_compare_refl a : bytes_compare a a = Eq.
Proof. induction a as [|x a IH]; cbn; [done|]. by rewrite N.compare_refl. Qed.

Lemma bytes_compare_eq a b : bytes_compare a b = Eq ↔ a = b.
Proof.
  split; [|intros ->; apply bytes_compare_refl].
  revert b; induction a as [|x a IH]; intros [|y b]; cbn; try done.
  destruct (N.compare_spec (Byte.to_N x) (Byte.to_N y)) as [E| |]; try done.
  intros H. f_equal; [|by apply IH].
  apply byte_to_Z_inj. unfold byte_to_Z. by rewrite E.
Qed.

Lemma bytes_compare_antisym a b : bytes_compare b a = CompOpp (bytes_compare a b).
Proof.
  revert b; induction a as [|x a IH]; intros [|y b]; cbn; try done.
  rewrite (N.compare_antisym (Byte.to_N x)).
  destruct (N.compare (Byte.to_N x) (Byte.to_N y)); cbn; auto.
Qed.

Lemma bytes_lt_trans a b c : bytes_lt a b → bytes_lt b c → bytes_lt a c.
Proof.
  unfold bytes_lt. revert b c.
  induction a as [|x a IH]; intros [|y b] [|z c]; cbn; try done.
  destruct (N.compare_spec (Byte.to_N x) (Byte.to_N y)) as [E1|E1|E1];
  destruct (N.compare_spec (Byte.to_N y) (Byte.to_N z)) as [E2|E2|E2];
  destruct (N.compare_spec (Byte.to_N x) (Byte.to_N z)) as [E3|E3|E3];
    try done; try lia. apply IH.
Qed.

Lemma bytes_lt_irrefl a : ¬ bytes_lt a a.
Proof. unfold bytes_lt. by rewrite bytes_compare_refl. Qed.

#[global] Instance bytes_lt_strict : StrictOrder bytes_lt.
Proof. split; [exact bytes_lt_irrefl | exact bytes_lt_trans]. Qed.

Lemma bytes_compare_gt a b : bytes_compare a b = Gt ↔ bytes_lt b a.
Proof. unfold bytes_lt. rewrite (bytes_compare_antisym a b). by destruct (bytes_compare a b). Qed.

Lemma bytes_lt_total a b : bytes_lt a b ∨ a = b ∨ bytes_lt b a.
Proof.
  destruct (bytes_compare a b) eqn:E.
  - right; left. by apply bytes_compare_eq.
  - by left.
  - right; right. by apply bytes_compare_gt.
Qed.

Lemma bytes_ltb_lt a b : bytes_ltb a b = true ↔ bytes_lt a b.
Proof. unfold bytes_ltb, bytes_lt. by destruct (bytes_compare a b). Qed.

Lemma bytes_ltb_ge a b : bytes_ltb a b = false ↔ ¬ bytes_lt a b.
Proof. rewrite <- bytes_ltb_lt. by destruct (bytes_ltb a b). Qed.

Lemma bytes_leb_le a b : bytes_leb a b = true ↔ ¬ bytes_lt b a.
Proof.
  unfold bytes_leb. rewrite <- bytes_compare_gt. by destruct (bytes_compare a b).
Qed.

Lemma bytes_lt_ne a b : bytes_lt a b → a ≠ b.
Proof. intros H ->. by apply bytes_lt_irrefl in H. Qed.

Lemma bytes_lt_asym a b : bytes_lt a b → ¬ bytes_lt b a.
Proof. intros H1 H2. exact (bytes_lt_irrefl a (bytes_lt_trans _ _ _ H1 H2)). Qed.

#[global] Instance bytes_lt_dec : RelDecision bytes_lt.
Proof. intros a b. unfold bytes_lt. apply _. Defined.

#[export] Hint Resolve bytes_lt_trans bytes_lt_ne bytes_lt_asym : granite.

(** * Sorting *)

Section Sort.
Context {A : Type} (less : A → A → bool).
#[local] Abbreviation le x y := (less y x = false).
Context (less_trans : ∀ x y z, le x y → le y z → le x z).
Context (less_asym : ∀ x y, less x y = true → le x y).

Lemma sort_insert_perm x l : sort_insert less x l ≡ₚ x :: l.
Proof.
  induction l as [|y l IH]; cbn; [done|]. destruct (less y x); [|done].
  rewrite IH. apply Permutation_swap.
Qed.

Lemma stable_sort_perm l : stable_sort less l ≡ₚ l.
Proof. induction l as [|x l IH]; cbn; [done|]. by rewrite sort_insert_perm, IH. Qed.

Lemma sort_insert_sorted x l :
  StronglySorted (λ x y, le x y) l → StronglySorted (λ x y, le x y) (sort_insert less x l).
Proof using less_trans less_asym.
  induction 1 as [|y l Hs IH Hf]; cbn; [repeat constructor|].
  destruct (less y x) eqn:E.
  - constructor; [done|]. rewrite sort_insert_perm. constructor; auto.
  - constructor; [by constructor|]. constructor; [done|].
    eapply Forall_impl; [exact Hf|]. cbn. eauto.
Qed.

Lemma stable_sort_sorted l : StronglySorted (λ x y, le x y) (stable_sort less l).
Proof using less_trans less_asym.
  induction l as [|x l IH]; cbn; [constructor|]. by apply sort_insert_sorted.
Qed.
End Sort.
