(* ===== verification/StorageTypes.v ===== *)
(** Data types shared by the storage components ([internal/storage]):
    operation tags and the entries a MemTable hands to the SSTable writer. *)

From S2P Require Import Prelude.

(** [type OpType byte] of wal.go, with its two constants. Records read back
    from disk may carry any byte. *)
Abbreviation OpType := byte.
Definition OpPut : OpType := x01.
Definition OpDelete : OpType := x02.

(** [type MemTableEntry struct] of memtable.go. *)
Record MemTableEntry := mkEntry {
  e_Key : bytes;
  e_Value : slice;
  e_Op : OpType;
}.

#[global] Instance MemTableEntry_eq_dec : EqDecision MemTableEntry.
Proof. solve_decision. Defined.

(** What a key is bound to in a table: a value slice and its operation. *)
Abbreviation version := (slice * OpType)%type.

Definition entry_version (e : MemTableEntry) : version := (e_Value e, e_Op e).

(** The reference lookup in a list of entries: the first entry with the key. *)
Fixpoint entries_lookup (k : bytes) (l : list MemTableEntry) : option version :=
  match l with
  | [] => None
  | e :: l => if decide (e_Key e = k) then Some (entry_version e) else entries_lookup k l
  end.

(** Entries in strictly increasing key order, as MemTables list them and
    SSTables store them. *)
Definition entries_sorted (l : list MemTableEntry) : Prop :=
  StronglySorted bytes_lt (e_Key <$> l).

(** The reference insertion into a sorted list of entries. *)
Fixpoint entries_insert (e : MemTableEntry) (l : list MemTableEntry) : list MemTableEntry :=
  match l with
  | [] => [e]
  | x :: l' =>
      match bytes_compare (e_Key x) (e_Key e) with
      | Lt => x :: entries_insert e l'
      | Eq => e :: l'
      | Gt => e :: x :: l'
      end
  end.

(** The finite map a list of entries denotes. *)
Fixpoint entries_map (l : list MemTableEntry) : gmap bytes version :=
  match l with
  | [] => ∅
  | e :: l => <[e_Key e := entry_version e]> (entries_map l)
  end.

Lemma entries_map_lookup l k : entries_map l !! k = entries_lookup k l.
Proof.
  induction l as [|e l IH]; cbn; [apply lookup_empty|].
  rewrite lookup_insert. by repeat case_decide.
Qed.

Lemma entries_sorted_cons e l :
  entries_sorted (e :: l) ↔
  entries_sorted l ∧ (∀ x, x ∈ l → bytes_lt (e_Key e) (e_Key x)).
Proof.
  unfold entries_sorted; cbn. split.
  - intros [Hs Hf]%StronglySorted_inv. split; [done|].
    intros x Hx. rewrite Forall_forall in Hf. apply Hf, list_elem_of_fmap. eauto.
  - intros [Hs Hf]. constructor; [done|]. apply Forall_forall.
    intros k (x & -> & Hx)%list_elem_of_fmap. auto.
Qed.

Lemma entries_lookup_None k l :
  entries_lookup k l = None ↔ ∀ e, e ∈ l → e_Key e ≠ k.
Proof.
  induction l as [|x l IH]; cbn.
  - split; [|done]. intros _ e H. by apply not_elem_of_nil in H.
  - case_decide as D; split.
    + done.
    + intros H. destruct (H x); [left|done].
    + rewrite IH. intros H e [->|He]%elem_of_cons; auto.
    + intros H. apply IH. intros e He. apply H. by right.
Qed.

Lemma entries_lookup_Some_elem k l v :
  entries_lookup k l = Some v → ∃ e, e ∈ l ∧ e_Key e = k ∧ entry_version e = v.
Proof.
  induction l as [|x l IH]; cbn; [done|]. case_decide as D.
  - intros [= <-]. exists x. repeat split; auto. left.
  - intros (e & ? & ? & ?)%IH. exists e. repeat split; auto. by right.
Qed.

Lemma entries_lookup_elem l e :
  entries_sorted l → e ∈ l → entries_lookup (e_Key e) l = Some (entry_version e).
Proof.
  induction l as [|x l IH]; intros Hs He; [by apply not_elem_of_nil in He|].
  apply entries_sorted_cons in Hs as [Hs Hlt]. cbn.
  apply elem_of_cons in He as [->|He].
  - by rewrite decide_True.
  - rewrite decide_False; [by apply IH|].
    apply bytes_lt_ne. auto.
Qed.

(** A sorted table has nothing below its first key. *)
Lemma entries_lookup_below k e l :
  entries_sorted (e :: l) → bytes_lt k (e_Key e) → entries_lookup k (e :: l) = None.
Proof.
  intros [Hs Hlt]%entries_sorted_cons Hk. apply entries_lookup_None.
  intros x Hx <-. apply elem_of_cons in Hx as [->|Hx]; [by apply bytes_lt_irrefl in Hk|].
  apply (bytes_lt_irrefl (e_Key x)). eauto with granite.
Qed.

Lemma entries_insert_lookup e l k :
  entries_sorted l →
  entries_lookup k (entries_insert e l) =
    if decide (k = e_Key e) then Some (entry_version e) else entries_lookup k l.
Proof.
  induction l as [|x l IH]; cbn; intros Hs.
  { repeat case_decide; congruence. }
  apply entries_sorted_cons in Hs as [Hs Hlt].
  destruct (bytes_compare (e_Key x) (e_Key e)) eqn:E; cbn.
  - apply bytes_compare_eq in E. rewrite E. repeat case_decide; congruence.
  - rewrite IH by done. apply bytes_lt_ne in E. repeat case_decide; congruence.
  - repeat case_decide; congruence.
Qed.

Lemma entries_insert_elem e l x :
  x ∈ entries_insert e l → x = e ∨ x ∈ l.
Proof.
  induction l as [|y l IH]; cbn; [intros ->%list_elem_of_singleton; auto|].
  destruct (bytes_compare (e_Key y) (e_Key e)); rewrite !elem_of_cons; tauto.
Qed.

Lemma entries_insert_sorted e l :
  entries_sorted l → entries_sorted (entries_insert e l).
Proof.
  induction l as [|x l IH]; cbn; intros Hs.
  { apply entries_sorted_cons. split; [constructor|]. intros ? H. by apply not_elem_of_nil in H. }
  apply entries_sorted_cons in Hs as [Hs Hlt].
  destruct (bytes_compare (e_Key x) (e_Key e)) eqn:E; apply entries_sorted_cons.
  - apply bytes_compare_eq in E. rewrite <- E. by split.
  - split; [by apply IH|]. intros y [->|Hy]%entries_insert_elem; auto.
  - apply bytes_compare_gt in E. split; [by apply entries_sorted_cons|].
    intros y [->|Hy]%elem_of_cons; eauto with granite.
Qed.

Lemma entries_insert_map e l :
  entries_sorted l →
  entries_map (entries_insert e l) = <[e_Key e := entry_version e]> (entries_map l).
Proof.
  intros Hs. apply map_eq. intros k.
  rewrite entries_map_lookup, entries_insert_lookup, lookup_insert, entries_map_lookup by done.
  repeat case_decide; congruence.
Qed.

Lemma entries_insert_app e l h :
  (∀ x, x ∈ l → bytes_lt (e_Key x) (e_Key e)) →
  entries_insert e (l ++ h) = l ++ entries_insert e h.
Proof.
  induction l as [|x l IH]; intros H; cbn; [done|].
  rewrite (H x) by left. f_equal. apply IH. intros; apply H; by right.
Qed.
