(* ===== verification/SkipList.v ===== *)
(** The skip list of [internal/storage/memtable.go] as it is written: nodes
    in a store, linked by forward pointers at up to 16 levels, mutated in
    place by [put]. The theorems show that, whatever levels the random source
    chooses, the list implements a sorted list of entries: [get] is lookup,
    [put] is insertion or in-place update, [iterate] lists the entries in
    strict key order, and no run-time panic or endless walk is possible. *)

From S2P Require Import Prelude StorageTypes.

(** ** Data *)

Definition maxSkipListLevel : nat := 16.

(** A [*skipListNode] is an address in the store; [None] is the nil pointer. *)
Abbreviation addr := nat.

Record skipListNode := mkNode {
  n_key : bytes;
  n_value : slice;
  n_op : OpType;
  n_forward : list (option addr);
}.

(** Nodes are never freed, so the store only grows; the head is address 0. *)
Record skipList := mkSkipList {
  sl_nodes : list skipListNode;
  sl_level : nat;
  sl_length : nat;
}.

Definition sl_head : addr := 0%nat.

(** ** Operations *)

Definition newSkipList : skipList :=
  mkSkipList [mkNode [] None x00 (replicate maxSkipListLevel None)] 1 0.

(** Each boolean of [rng] is the outcome of one [rand.Float64() < 0.5]; an
    exhausted source answers false. *)
Fixpoint randomLevel_loop (level : nat) (rng : list bool) : nat * list bool :=
  if (level <? maxSkipListLevel)%nat then
    match rng with
    | true :: rng => randomLevel_loop (S level) rng
    | false :: rng => (level, rng)
    | [] => (level, [])
    end
  else (level, rng).

Definition randomLevel (rng : list bool) : nat * list bool := randomLevel_loop 1 rng.

(** [a.forward[i]]: [None] where Go panics (bad index or nil node). *)
Definition forward_at (nodes : list skipListNode) (a : addr) (i : nat) : option (option addr) :=
  n ← nodes !! a; n_forward n !! i.

(** [a.forward[i] = t]. *)
Definition set_forward (nodes : list skipListNode) (a : addr) (i : nat) (t : option addr)
    : option (list skipListNode) :=
  n ← nodes !! a;
  _ ← n_forward n !! i;
  Some (<[a := mkNode (n_key n) (n_value n) (n_op n) (<[i := t]> (n_forward n))]> nodes).

(** The inner loop
    [for current.forward[i] != nil && bytes.Compare(current.forward[i].key, key) < 0]. *)
Fixpoint advance (fuel : nat) (nodes : list skipListNode) (key : bytes) (i : nat) (current : addr)
    : option addr :=
  match fuel with
  | O => None
  | S fuel =>
      next ← forward_at nodes current i;
      match next with
      | None => Some current
      | Some a =>
          n ← nodes !! a;
          if bytes_ltb (n_key n) key then advance fuel nodes key i a else Some current
      end
  end.

(** The outer loop of [put] over levels [i-1 .. 0], recording [update]. *)
Fixpoint descend (nodes : list skipListNode) (key : bytes) (i : nat) (current : addr)
    (update : list (option addr)) : option (addr * list (option addr)) :=
  match i with
  | O => Some (current, update)
  | S i =>
      current ← advance (length nodes) nodes key i current;
      descend nodes key i current (<[i := Some current]> update)
  end.

(** The outer loop of [get], which records nothing. *)
Fixpoint descend_get (nodes : list skipListNode) (key : bytes) (i : nat) (current : addr)
    : option addr :=
  match i with
  | O => Some current
  | S i =>
      current ← advance (length nodes) nodes key i current;
      descend_get nodes key i current
  end.

(** [for i := sl.level; i < newLevel; i++ { update[i] = sl.head }] *)
Fixpoint raise_update (i todo : nat) (update : list (option addr)) : list (option addr) :=
  match todo with
  | O => update
  | S todo => raise_update (S i) todo (<[i := Some sl_head]> update)
  end.

(** [for i := 0; i < newLevel; i++] linking the new node at each level. *)
Fixpoint link (nodes : list skipListNode) (newNode : addr) (update : list (option addr))
    (i todo : nat) : option (list skipListNode) :=
  match todo with
  | O => Some nodes
  | S todo =>
      u ← mjoin (update !! i);
      f ← forward_at nodes u i;
      nodes ← set_forward nodes newNode i f;
      nodes ← set_forward nodes u i (Some newNode);
      link nodes newNode update (S i) todo
  end.

Definition put (sl : skipList) (key : bytes) (value : slice) (op : OpType) (rng : list bool)
    : option (skipList * list bool) :=
  let update := replicate maxSkipListLevel None in
  '(current, update) ← descend (sl_nodes sl) key (sl_level sl) sl_head update;
  existing ← forward_at (sl_nodes sl) current 0;
  let insert_new :=
    let '(newLevel, rng) := randomLevel rng in
    let update :=
      if (sl_level sl <? newLevel)%nat
      then raise_update (sl_level sl) (newLevel - sl_level sl) update else update in
    let level := if (sl_level sl <? newLevel)%nat then newLevel else sl_level sl in
    let newNode := length (sl_nodes sl) in
    let nodes := sl_nodes sl ++ [mkNode key value op (replicate newLevel None)] in
    nodes ← link nodes newNode update 0 newLevel;
    Some (mkSkipList nodes level (S (sl_length sl)), rng) in
  match existing with
  | Some a =>
      n ← sl_nodes sl !! a;
      if bytes_eqb (n_key n) key
      then Some (mkSkipList (<[a := mkNode (n_key n) value op (n_forward n)]> (sl_nodes sl))
                   (sl_level sl) (sl_length sl), rng)
      else insert_new
  | None => insert_new
  end.

(** [get] returns the node found, or the nil pointer ([Some None]). *)
Definition get (sl : skipList) (key : bytes) : option (option skipListNode) :=
  current ← descend_get (sl_nodes sl) key (sl_level sl) sl_head;
  candidate ← forward_at (sl_nodes sl) current 0;
  match candidate with
  | Some a =>
      n ← sl_nodes sl !! a;
      Some (if bytes_eqb (n_key n) key then Some n else None)
  | None => Some None
  end.

Definition node_entry (n : skipListNode) : MemTableEntry := mkEntry (n_key n) (n_value n) (n_op n).

Fixpoint iterate_loop (fuel : nat) (nodes : list skipListNode) (current : option addr)
    : option (list MemTableEntry) :=
  match current with
  | None => Some []
  | Some a =>
      match fuel with
      | O => None
      | S fuel =>
          n ← nodes !! a;
          next ← forward_at nodes a 0;
          rest ← iterate_loop fuel nodes next;
          Some (node_entry n :: rest)
      end
  end.

Definition iterate (sl : skipList) : option (list MemTableEntry) :=
  first ← forward_at (sl_nodes sl) sl_head 0;
  iterate_loop (length (sl_nodes sl)) (sl_nodes sl) first.

(** ** Representation invariant *)

Definition ht (nodes : list skipListNode) (a : addr) : nat :=
  from_option (λ n, length (n_forward n)) 0%nat (nodes !! a).

Definition key_of (nodes : list skipListNode) (a : addr) : bytes :=
  from_option n_key [] (nodes !! a).

Definition entry_of (nodes : list skipListNode) (a : addr) : MemTableEntry :=
  from_option node_entry (mkEntry [] None x00) (nodes !! a).

(** The nodes of [l] that are linked at level [i], in order. *)
Definition tall (nodes : list skipListNode) (i : nat) (l : list addr) : list addr :=
  filter (λ a, i < ht nodes a)%nat l.

(** [path] lists the data nodes in level-0 order. *)
Record sl_inv (sl : skipList) (path : list addr) : Prop := {
  inv_nodup : NoDup (sl_head :: path);
  inv_dom : ∀ a, a ∈ sl_head :: path ↔ (a < length (sl_nodes sl))%nat;
  inv_head_ht : ht (sl_nodes sl) sl_head = maxSkipListLevel;
  inv_ht : ∀ a, a ∈ path → (1 ≤ ht (sl_nodes sl) a ≤ sl_level sl)%nat;
  inv_level : (1 ≤ sl_level sl ≤ maxSkipListLevel)%nat;
  inv_length : sl_length sl = length path;
  inv_sorted : entries_sorted (entry_of (sl_nodes sl) <$> path);
  inv_forward : ∀ l a r i,
    sl_head :: path = l ++ a :: r → (i < ht (sl_nodes sl) a)%nat →
    forward_at (sl_nodes sl) a i = Some (head (tall (sl_nodes sl) i r));
}.

(** The skip list represents this list of entries. *)
Definition sl_rep (sl : skipList) (es : list MemTableEntry) : Prop :=
  ∃ path, sl_inv sl path ∧ es = entry_of (sl_nodes sl) <$> path.

(** ** Runs of puts from the empty list *)

Inductive sl_reachable : skipList → list MemTableEntry → Prop :=
| sl_reach_new : sl_reachable newSkipList []
| sl_reach_put sl log key value op rng sl' rng' :
    sl_reachable sl log → put sl key value op rng = Some (sl', rng') →
    sl_reachable sl' (log ++ [mkEntry key value op]).

(** The sorted list a history of puts leaves. *)
Definition replay_puts (log : list MemTableEntry) : list MemTableEntry :=
  fold_left (λ es e, entries_insert e es) log [].

(** Two stores that differ only in forward pointers. *)
Definition same_shape (nodes nodes' : list skipListNode) : Prop :=
  length nodes' = length nodes ∧
  ∀ a, entry_of nodes' a = entry_of nodes a ∧ ht nodes' a = ht nodes a.

(** * Lemmas on the level lists *)

Lemma tall_app nodes i l r : tall nodes i (l ++ r) = tall nodes i l ++ tall nodes i r.
Proof. apply filter_app. Qed.

Lemma tall_cons_True nodes i a l :
  (i < ht nodes a)%nat → tall nodes i (a :: l) = a :: tall nodes i l.
Proof. intros. unfold tall. by rewrite filter_cons_True. Qed.

Lemma tall_cons_False nodes i a l :
  ¬ (i < ht nodes a)%nat → tall nodes i (a :: l) = tall nodes i l.
Proof. intros. unfold tall. by rewrite filter_cons_False. Qed.

Lemma tall_nil nodes i : tall nodes i [] = [].
Proof. done. Qed.

Lemma elem_of_tall nodes i a l : a ∈ tall nodes i l ↔ (i < ht nodes a)%nat ∧ a ∈ l.
Proof. unfold tall. by rewrite list_elem_of_filter. Qed.

Lemma tall_ext nodes nodes' i l :
  (∀ a, a ∈ l → ht nodes' a = ht nodes a) → tall nodes' i l = tall nodes i l.
Proof.
  induction l as [|a l IH]; intros H; [done|].
  assert (Ha : ht nodes' a = ht nodes a) by (apply H; left).
  assert (IH' : tall nodes' i l = tall nodes i l) by (apply IH; intros; apply H; by right).
  destruct (decide (i < ht nodes a)%nat).
  - rewrite !tall_cons_True by lia. by rewrite IH'.
  - rewrite !tall_cons_False by lia. done.
Qed.

(** The first tall node of [l] splits it. *)
Lemma tall_split nodes i l b t :
  tall nodes i l = b :: t →
  ∃ m l', l = m ++ b :: l' ∧ tall nodes i m = [] ∧ tall nodes i l' = t ∧ (i < ht nodes b)%nat.
Proof.
  induction l as [|a l IH]; [done|].
  destruct (decide (i < ht nodes a)%nat) as [H|H].
  - rewrite tall_cons_True by done. intros [= -> <-]. exists [], l. done.
  - rewrite tall_cons_False by done. intros (m & l' & -> & Hm & Ht & Hb)%IH.
    exists (a :: m), l'. rewrite tall_cons_False by done. done.
Qed.

(** The last tall node of [l] splits it. *)
Lemma tall_last nodes i l p :
  last (tall nodes i l) = Some p →
  ∃ l1 l2, l = l1 ++ p :: l2 ∧ tall nodes i l2 = [] ∧ (i < ht nodes p)%nat.
Proof.
  induction l as [|a l IH] using rev_ind; [done|].
  rewrite tall_app. destruct (decide (i < ht nodes a)%nat) as [H|H].
  - rewrite tall_cons_True, tall_nil, last_snoc by done. intros [= ->].
    exists l, []. done.
  - rewrite tall_cons_False, tall_nil, app_nil_r by done. intros (l1 & l2 & -> & Ht & Hp)%IH.
    exists l1, (l2 ++ [a]). rewrite tall_app, Ht, tall_cons_False, <- app_assoc by done. done.
Qed.

Lemma randomLevel_loop_bounds level rng :
  (1 ≤ level ≤ maxSkipListLevel)%nat →
  (1 ≤ fst (randomLevel_loop level rng) ≤ maxSkipListLevel)%nat.
Proof.
  revert level; induction rng as [|b rng IH]; intros level H; cbn [randomLevel_loop];
    destruct (Nat.ltb_spec level maxSkipListLevel); cbn [fst]; try lia.
  destruct b; cbn [fst]; [apply IH|]; lia.
Qed.

Lemma randomLevel_bounds rng :
  (1 ≤ fst (randomLevel rng) ≤ maxSkipListLevel)%nat.
Proof. apply randomLevel_loop_bounds. unfold maxSkipListLevel. lia. Qed.

(** * The search *)

(** A sorted path splits at any key. *)
Lemma path_split nodes key path :
  entries_sorted (entry_of nodes <$> path) →
  ∃ lo hi, path = lo ++ hi
    ∧ (∀ a, a ∈ lo → bytes_lt (e_Key (entry_of nodes a)) key)
    ∧ (∀ a, a ∈ hi → ¬ bytes_lt (e_Key (entry_of nodes a)) key).
Proof.
  induction path as [|a path IH]; intros Hs.
  { exists [], []. repeat split; intros ? H; by apply not_elem_of_nil in H. }
  cbn in Hs. apply entries_sorted_cons in Hs as [Hs Hlt].
  destruct (decide (bytes_lt (e_Key (entry_of nodes a)) key)) as [Ha|Ha].
  - destruct (IH Hs) as (lo & hi & -> & Hlo & Hhi). exists (a :: lo), hi.
    split; [done|]. split; [|done]. intros b [->|Hb]%elem_of_cons; auto.
  - exists [], (a :: path). repeat split.
    + intros ? H; by apply not_elem_of_nil in H.
    + intros b [->|Hb]%elem_of_cons Hlt'; [done|]. apply Ha.
      eapply bytes_lt_trans; [|exact Hlt']. apply Hlt, list_elem_of_fmap_2. done.
Qed.

Lemma sl_path_length sl path :
  sl_inv sl path → (length (sl_head :: path) ≤ length (sl_nodes sl))%nat.
Proof.
  intros Hinv. rewrite <- (length_seq (length (sl_nodes sl)) 0).
  apply submseteq_length, NoDup_submseteq; [apply (inv_nodup _ _ Hinv)|].
  intros a Ha%(inv_dom _ _ Hinv). apply elem_of_seq. lia.
Qed.

Section Search.
Context (sl : skipList) (path lo hi : list addr) (key : bytes).
#[local] Abbreviation nodes := (sl_nodes sl).
Context (Hinv : sl_inv sl path).
Context (Hsplit : path = lo ++ hi).
Context (Hlo : ∀ a, a ∈ lo → bytes_lt (e_Key (entry_of nodes a)) key).
Context (Hhi : ∀ a, a ∈ hi → ¬ bytes_lt (e_Key (entry_of nodes a)) key).

Lemma path_lookup a : a ∈ sl_head :: path → ∃ n, nodes !! a = Some n.
Proof. intros Ha%(inv_dom _ _ Hinv). by apply lookup_lt_is_Some_2. Qed.

Lemma path_key a n : nodes !! a = Some n → e_Key (entry_of nodes a) = n_key n.
Proof. intros H. unfold entry_of. by rewrite H. Qed.

(** One level of the walk stops at the last tall node below the key. *)
Lemma advance_spec i l2 : ∀ l1 current fuel,
  sl_head :: lo = l1 ++ current :: l2 → (i < ht nodes current)%nat →
  (length l2 < fuel)%nat →
  advance fuel nodes key i current = Some (default current (last (tall nodes i l2))).
Proof using Hinv Hsplit Hlo Hhi.
  induction l2 as [l2 IH] using (induction_ltof1 _ length). unfold ltof in IH.
  intros l1 current [|fuel] Hl Hi Hfuel; [lia|]. cbn [advance].
  assert (Hpath : sl_head :: path = l1 ++ current :: (l2 ++ hi)).
  { rewrite Hsplit, app_comm_cons, Hl. by rewrite <- app_assoc. }
  rewrite (inv_forward _ _ Hinv _ _ _ _ Hpath Hi). cbn.
  rewrite tall_app.
  destruct (tall (sl_nodes sl) i l2) as [|b t] eqn:Et; cbn.
  - destruct (tall (sl_nodes sl) i hi) as [|c t] eqn:Ec; cbn; [done|].
    assert (Hc : c ∈ hi).
    { assert (c ∈ tall (sl_nodes sl) i hi) as []%elem_of_tall by (rewrite Ec; left). done. }
    destruct (path_lookup c) as [n Hn].
    { rewrite Hsplit. right. apply elem_of_app. by right. }
    rewrite Hn; cbn. apply Hhi in Hc.
    rewrite (path_key _ _ Hn) in Hc. by rewrite (proj2 (bytes_ltb_ge _ _) Hc).
  - destruct (tall_split _ _ _ _ _ Et) as (m & l' & -> & Hm & Ht & Hb).
    assert (Hbl : b ∈ lo).
    { assert (Hin : b ∈ (l1 ++ [current]) ++ m ++ b :: l').
      { rewrite !elem_of_app. right; right. left. }
      rewrite <- app_assoc in Hin; cbn in Hin. rewrite <- Hl in Hin.
      apply elem_of_cons in Hin as [->|]; [|done]. exfalso.
      pose proof (inv_nodup _ _ Hinv) as Hnd. rewrite Hpath in Hnd.
      destruct l1 as [|x l1]; cbn in Hl; injection Hl as Hx Hl.
      - subst current. rewrite <- app_assoc in Hnd. cbn in Hnd.
        apply NoDup_cons in Hnd as [Hnd _]. apply Hnd.
        rewrite !elem_of_app. right. left.
      - subst x. cbn in Hnd. apply NoDup_cons in Hnd as [Hnd _]. apply Hnd.
        rewrite !elem_of_app, elem_of_cons, !elem_of_app, elem_of_cons. tauto. }
    destruct (path_lookup b) as [n Hn].
    { rewrite Hsplit. right. apply elem_of_app. by left. }
    rewrite Hn; cbn.
    apply Hlo in Hbl. rewrite (path_key _ _ Hn) in Hbl.
    rewrite (proj2 (bytes_ltb_lt _ _) Hbl).
    rewrite (IH l' ltac:(rewrite length_app; cbn; lia) (l1 ++ current :: m) b).
    + rewrite Ht. destruct t as [|c t]; [done|].
      change (b :: c :: t) with ([b] ++ c :: t). rewrite last_app_cons.
      destruct (last (c :: t)) eqn:E; [done|]. by apply last_None in E.
    + rewrite Hl. by rewrite <- app_assoc.
    + done.
    + rewrite length_app in Hfuel; cbn in Hfuel. lia.
Qed.

(** The last node of the level-[i] list that is below the key. *)
#[local] Abbreviation pred i := (last (tall nodes i (sl_head :: lo))).

Lemma pred_Some i : (i < maxSkipListLevel)%nat → is_Some (pred i).
Proof using Hinv.
  intros Hi. rewrite tall_cons_True by (by rewrite (inv_head_ht _ _ Hinv)).
  apply last_is_Some. done.
Qed.

Lemma pred_elem i p : pred i = Some p → p ∈ sl_head :: lo ∧ (i < ht nodes p)%nat.
Proof.
  intros (l1 & l2 & -> & _ & Hp)%tall_last. split; [|done].
  apply elem_of_app. right. left.
Qed.

Lemma advance_pred i current :
  current ∈ sl_head :: lo → (i < ht nodes current)%nat →
  advance (length nodes) nodes key i current = pred i.
Proof using Hinv Hsplit Hlo Hhi.
  intros (l1 & l2 & Hl)%list_elem_of_split Hi.
  assert (Hfuel : (length l2 < length nodes)%nat).
  { pose proof (sl_path_length _ _ Hinv) as Hlen. apply (f_equal length) in Hl.
    rewrite Hsplit in Hlen. cbn in Hlen, Hl. rewrite length_app in *. cbn in Hl. lia. }
  rewrite (advance_spec i l2 l1) by done.
  rewrite Hl, tall_app, (tall_cons_True _ _ _ _ Hi), last_app_cons.
  destruct (tall nodes i l2) as [|b t]; [done|].
  change (current :: b :: t) with ([current] ++ b :: t). rewrite last_app_cons.
  destruct (last (b :: t)) eqn:E; [done|]. by apply last_None in E.
Qed.

Lemma descend_spec i : ∀ current update,
  (i ≤ maxSkipListLevel)%nat → (i ≤ length update)%nat →
  current ∈ sl_head :: lo → (i ≤ ht nodes current)%nat →
  ∃ current' update',
    descend nodes key i current update = Some (current', update')
    ∧ (i ≠ 0%nat → pred 0 = Some current')
    ∧ (i = 0%nat → current' = current)
    ∧ length update' = length update
    ∧ (∀ j, (j < i)%nat → update' !! j = Some (pred j))
    ∧ (∀ j, (i ≤ j)%nat → update' !! j = update !! j).
Proof using Hinv Hsplit Hlo Hhi.
  induction i as [|i IH]; intros current update Hi Hu Hc Hh.
  { exists current, update. repeat split; try done. intros; lia. }
  cbn [descend]. rewrite advance_pred by (done || lia).
  destruct (pred_Some i ltac:(lia)) as [p Hp]. rewrite Hp; cbn [mbind option_bind].
  destruct (pred_elem _ _ Hp) as [Hpin Hpht].
  destruct (IH p (<[i := Some p]> update)) as (c' & u' & -> & H0 & Hc0 & Hlen & Hlt & Hge);
    [lia | rewrite length_insert; lia | done | lia |].
  rewrite length_insert in Hlen. exists c', u'. split; [done|].
  assert (Hui : u' !! i = Some (Some p)).
  { rewrite Hge by lia. apply list_lookup_insert_eq. lia. }
  repeat split; [|done|done|..].
  - intros _. destruct i; [rewrite Hp, Hc0 by done; done|]. by apply H0.
  - intros j Hj. destruct (decide (j = i)) as [->|]; [congruence|]. apply Hlt. lia.
  - intros j Hj. rewrite Hge by lia. apply list_lookup_insert_ne. lia.
Qed.

Lemma descend_get_fst i : ∀ current update,
  descend_get nodes key i current = fst <$> descend nodes key i current update.
Proof.
  induction i as [|i IH]; intros; cbn; [done|].
  destruct (advance (length nodes) nodes key i current); cbn; [apply IH|done].
Qed.

(** What follows the predecessor at its level is the first tall node that
    is not below the key. *)
Lemma forward_pred i p :
  pred i = Some p → forward_at nodes p i = Some (head (tall nodes i hi)).
Proof using Hinv Hsplit.
  intros (l1 & l2 & Hl & Ht & Hp)%tall_last.
  rewrite (inv_forward _ _ Hinv l1 p (l2 ++ hi)); [|..|done].
  - by rewrite tall_app, Ht.
  - by rewrite Hsplit, app_comm_cons, Hl, <- app_assoc.
Qed.

Lemma tall_0_hi : tall nodes 0 hi = hi.
Proof using Hinv Hsplit.
  assert (H : ∀ a, a ∈ hi → (0 < ht nodes a)%nat).
  { intros a Ha. destruct (inv_ht _ _ Hinv a); [|lia].
    rewrite Hsplit. apply elem_of_app. by right. }
  revert H. generalize hi as l. induction l as [|a l IH]; intros H; [done|].
  rewrite tall_cons_True by (apply H; left). f_equal. apply IH. intros; apply H; by right.
Qed.

Lemma sl_search_spec :
  ∃ current update,
    descend nodes key (sl_level sl) sl_head (replicate maxSkipListLevel None)
      = Some (current, update)
    ∧ forward_at nodes current 0 = Some (head hi)
    ∧ length update = maxSkipListLevel
    ∧ (∀ j, (j < sl_level sl)%nat → update !! j = Some (pred j)).
Proof using Hinv Hsplit Hlo Hhi.
  pose proof (inv_level _ _ Hinv) as Hlev.
  destruct (descend_spec (sl_level sl) sl_head (replicate maxSkipListLevel None))
    as (c & u & E & H0 & _ & Hlen & Hj & _).
  - lia.
  - rewrite length_replicate. lia.
  - left.
  - rewrite (inv_head_ht _ _ Hinv). lia.
  - exists c, u. rewrite length_replicate in Hlen.
    rewrite (forward_pred 0 c), tall_0_hi by (apply H0; lia). done.
Qed.

(** The reference lookup only depends on the first node not below the key. *)
Lemma lookup_hi :
  entries_lookup key (entry_of nodes <$> path) =
    match head hi with
    | Some a => if decide (e_Key (entry_of nodes a) = key)
                then Some (entry_version (entry_of nodes a)) else None
    | None => None
    end.
Proof using Hinv Hsplit Hlo Hhi.
  pose proof (inv_sorted _ _ Hinv) as Hs. rewrite Hsplit in Hs |- *. clear Hsplit Hinv.
  induction lo as [|a l IH]; cbn in *.
  - destruct hi as [|b r]; cbn; [done|]. case_decide; [done|].
    cbn in Hs. apply entries_sorted_cons in Hs as [_ Hlt].
    apply entries_lookup_None. intros e He Ek.
    destruct (bytes_lt_total (e_Key (entry_of nodes b)) key) as [Hb|[Hb|Hb]].
    + by apply (Hhi b); [left|].
    + done.
    + apply Hlt in He. rewrite Ek in He. eapply bytes_lt_asym; eauto.
  - rewrite decide_False by (apply bytes_lt_ne, Hlo; left).
    apply IH; [intros; apply Hlo; by right|].
    by apply entries_sorted_cons in Hs as [? _].
Qed.
End Search.

Lemma get_spec sl path key :
  sl_inv sl path →
  ∃ r, get sl key = Some r
    ∧ (λ n, (n_value n, n_op n)) <$> r = entries_lookup key (entry_of (sl_nodes sl) <$> path)
    ∧ (∀ n, r = Some n → n_key n = key).
Proof.
  intros Hinv.
  destruct (path_split (sl_nodes sl) key path (inv_sorted _ _ Hinv)) as (lo & hi & Hp & Hlo & Hhi).
  destruct (sl_search_spec sl path lo hi key Hinv Hp Hlo Hhi) as (c & u & Ed & Ef & _ & _).
  unfold get. rewrite (descend_get_fst sl key _ _ (replicate maxSkipListLevel None)), Ed; cbn.
  rewrite Ef; cbn. rewrite (lookup_hi sl path lo hi key Hinv Hp Hlo Hhi).
  destruct hi as [|a hi]; cbn; [by exists None|].
  destruct (path_lookup sl path Hinv a) as [n Hn].
  { rewrite Hp. right. apply elem_of_app. right. left. }
  rewrite Hn; cbn. rewrite (path_key _ _ _ Hn).
  unfold bytes_eqb. case_bool_decide as Ek.
  - exists (Some n). rewrite decide_True by done. unfold entry_of. rewrite Hn.
    repeat split; [done..|]. by intros ? [= <-].
  - exists None. by rewrite decide_False by done.
Qed.

(** * Insertion *)

Lemma same_shape_trans n1 n2 n3 : same_shape n1 n2 → same_shape n2 n3 → same_shape n1 n3.
Proof.
  intros [L1 H1] [L2 H2]. split; [congruence|]. intros a.
  destruct (H1 a), (H2 a). split; congruence.
Qed.

Lemma forward_at_ht nodes a i : is_Some (forward_at nodes a i) ↔ (i < ht nodes a)%nat.
Proof.
  unfold forward_at, ht. destruct (nodes !! a); cbn.
  - apply lookup_lt_is_Some.
  - split; [by intros []|lia].
Qed.

Lemma set_forward_spec nodes a i t :
  (i < ht nodes a)%nat →
  ∃ nodes', set_forward nodes a i t = Some nodes'
    ∧ same_shape nodes nodes'
    ∧ (∀ b j, forward_at nodes' b j =
         if decide (b = a ∧ j = i) then Some t else forward_at nodes b j).
Proof.
  intros Hi. unfold set_forward, ht in *.
  destruct (nodes !! a) as [n|] eqn:Ha; cbn in *; [|lia].
  pose proof Hi as Hi'. apply lookup_lt_is_Some in Hi' as [x Hx]. rewrite Hx; cbn.
  eexists; split; [done|]. pose proof (lookup_lt_Some _ _ _ Ha) as Hlt.
  repeat split.
  - by rewrite length_insert.
  - unfold entry_of. destruct (decide (a0 = a)) as [->|].
    + rewrite list_lookup_insert_eq, Ha by done. done.
    + by rewrite list_lookup_insert_ne by done.
  - unfold ht. destruct (decide (a0 = a)) as [->|].
    + rewrite list_lookup_insert_eq, Ha by done. cbn. by rewrite length_insert.
    + by rewrite list_lookup_insert_ne by done.
  - intros b j. unfold forward_at. destruct (decide (b = a)) as [->|].
    + rewrite list_lookup_insert_eq, Ha by done; cbn.
      destruct (decide (j = i)) as [->|].
      * rewrite decide_True by done. by apply list_lookup_insert_eq.
      * rewrite decide_False by naive_solver. by apply list_lookup_insert_ne.
    + rewrite list_lookup_insert_ne, decide_False by naive_solver. done.
Qed.

(** The linking loop: level by level, the new node takes over what followed
    the predecessor, and the predecessor points to the new node. *)
Lemma link_spec (P : nat → addr) N update todo : ∀ nodes i,
  (∀ j, (i ≤ j < i + todo)%nat →
     mjoin (update !! j) = Some (P j) ∧ P j ≠ N
     ∧ (j < ht nodes (P j))%nat ∧ (j < ht nodes N)%nat) →
  ∃ nodes', link nodes N update i todo = Some nodes'
    ∧ same_shape nodes nodes'
    ∧ (∀ a j, forward_at nodes' a j =
         if decide (i ≤ j < i + todo)%nat then
           if decide (a = N) then forward_at nodes (P j) j
           else if decide (a = P j) then Some (Some N) else forward_at nodes a j
         else forward_at nodes a j).
Proof.
  induction todo as [|todo IH]; intros nodes i H; cbn [link].
  { exists nodes. repeat split; try done. intros. by rewrite decide_False by lia. }
  destruct (H i ltac:(lia)) as (-> & HPN & HhP & HhN); cbn [mbind option_bind].
  pose proof (proj2 (forward_at_ht _ _ _) HhP) as [f Hf]. rewrite Hf; cbn [mbind option_bind].
  destruct (set_forward_spec nodes N i f HhN) as (n1 & -> & Hs1 & Hf1); cbn [mbind option_bind].
  destruct (set_forward_spec n1 (P i) i (Some N)) as (n2 & -> & Hs2 & Hf2); cbn [mbind option_bind].
  { by rewrite (proj2 (proj2 Hs1 _)). }
  pose proof (same_shape_trans _ _ _ Hs1 Hs2) as Hs.
  destruct (IH n2 (S i)) as (n3 & -> & Hs3 & Hf3).
  { intros j Hj. destruct (H j ltac:(lia)) as (? & ? & ? & ?).
    rewrite !(proj2 (proj2 Hs _)). done. }
  exists n3. split; [done|]. split; [by apply same_shape_trans with n2|].
  intros a j. rewrite Hf3, !Hf2, !Hf1. clear Hf1 Hf2 Hf3.
  destruct (decide (j = i)) as [->|Hj].
  - rewrite (decide_False (P := (S i ≤ i < S i + todo)%nat)) by lia.
    rewrite (decide_True (P := (i ≤ i < i + S todo)%nat)) by lia.
    repeat case_decide; naive_solver.
  - destruct (decide (i ≤ j < i + S todo)%nat).
    + rewrite (decide_True (P := (S i ≤ j < S i + todo)%nat)) by lia.
      repeat case_decide; naive_solver.
    + rewrite (decide_False (P := (S i ≤ j < S i + todo)%nat)) by lia.
      repeat case_decide; naive_solver.
Qed.

Lemma raise_update_lookup todo : ∀ i update j,
  raise_update i todo update !! j =
    if decide (i ≤ j < i + todo ∧ j < length update)%nat
    then Some (Some sl_head) else update !! j.
Proof.
  induction todo as [|todo IH]; intros i update j; cbn [raise_update].
  { by rewrite decide_False by lia. }
  rewrite IH, length_insert.
  destruct (decide (j = i)) as [->|Hj].
  - rewrite decide_False by lia. destruct (decide (i < length update)%nat) as [H|H].
    + rewrite decide_True by lia. by apply list_lookup_insert_eq.
    + rewrite decide_False by lia. rewrite list_insert_ge by lia. done.
  - rewrite list_lookup_insert_ne by done.
    destruct (decide (S i ≤ j < S i + todo ∧ j < length update)%nat).
    + by rewrite decide_True by lia.
    + by rewrite decide_False by lia.
Qed.

(** The store after allocating a node at the end. *)
Lemma alloc_lookup nodes n a :
  entry_of (nodes ++ [n]) a =
    (if decide (a = length nodes) then node_entry n else entry_of nodes a)
  ∧ ht (nodes ++ [n]) a =
    (if decide (a = length nodes) then length (n_forward n) else ht nodes a)
  ∧ ∀ j, forward_at (nodes ++ [n]) a j =
    (if decide (a = length nodes) then n_forward n !! j else forward_at nodes a j).
Proof.
  unfold entry_of, ht, forward_at. case_decide as D.
  - subst. rewrite list_lookup_middle by done. done.
  - destruct (decide (a < length nodes)%nat).
    + by rewrite lookup_app_l by done.
    + rewrite !lookup_ge_None_2 by (rewrite ?length_app; cbn; lia). done.
Qed.

Section Insert.
Context (sl : skipList) (path lo hi : list addr) (key : bytes).
#[local] Abbreviation nodes := (sl_nodes sl).
#[local] Abbreviation N := (length (sl_nodes sl)).
Context (Hinv : sl_inv sl path).
Context (Hsplit : path = lo ++ hi).

Lemma path_lt a : a ∈ sl_head :: path → (a < N)%nat.
Proof using Hinv. apply (inv_dom _ _ Hinv). Qed.

Lemma pred_high j :
  (sl_level sl ≤ j < maxSkipListLevel)%nat →
  last (tall nodes j (sl_head :: lo)) = Some sl_head.
Proof using Hinv Hsplit.
  intros Hj. rewrite tall_cons_True by (rewrite (inv_head_ht _ _ Hinv); lia).
  replace (tall nodes j lo) with (@nil addr); [done|]. symmetry.
  apply elem_of_nil_inv. intros a [Ha Hin]%elem_of_tall.
  destruct (inv_ht _ _ Hinv a); [rewrite Hsplit; apply elem_of_app; by left|]. lia.
Qed.

Lemma new_not_in_path : N ∉ sl_head :: lo ++ hi.
Proof using Hinv Hsplit. rewrite <- Hsplit. intros H%path_lt. lia. Qed.

Lemma new_fresh a : a ∈ sl_head :: lo ∨ a ∈ hi → a ≠ N.
Proof using Hinv Hsplit.
  intros Ha ->. apply new_not_in_path. rewrite elem_of_cons, elem_of_app.
  rewrite elem_of_cons in Ha. tauto.
Qed.

Context (nodes' : list skipListNode) (newLevel : nat).
Context (Hht : ∀ a, ht nodes' a = if decide (a = N) then newLevel else ht nodes a).

Lemma tall_old j l : (∀ a, a ∈ l → a ∈ sl_head :: lo ∨ a ∈ hi) → tall nodes' j l = tall nodes j l.
Proof using Hht Hinv Hsplit.
  intros Hl. apply tall_ext. intros a Ha. rewrite Hht, decide_False; [done|].
  apply new_fresh. auto.
Qed.

(** What follows a node of [0 :: lo] in the extended path at level [i]. *)
Lemma insert_follow l a k i :
  sl_head :: lo = l ++ a :: k → (i < ht nodes a)%nat →
  head (tall nodes' i (k ++ N :: hi)) =
    if decide (i < newLevel ∧ last (tall nodes i (sl_head :: lo)) = Some a)%nat
    then Some N else head (tall nodes i (k ++ hi)).
Proof using Hht Hinv Hsplit.
  intros Hl Hi.
  rewrite !tall_app, (tall_old i k) by
    (intros b Hb; left; rewrite Hl, elem_of_app, elem_of_cons; tauto).
  assert (Hlast : last (tall nodes i (sl_head :: lo)) = last (a :: tall nodes i k)).
  { rewrite Hl, tall_app, (tall_cons_True _ _ _ _ Hi). by rewrite last_app_cons. }
  rewrite Hlast. destruct (tall nodes i k) as [|b t] eqn:Et.
  - cbn [app last]. destruct (decide (i < newLevel)%nat) as [Hin|Hin].
    + rewrite decide_True by done.
      rewrite tall_cons_True by (by rewrite Hht, decide_True). done.
    + rewrite decide_False by tauto.
      rewrite tall_cons_False by (by rewrite Hht, decide_True).
      rewrite tall_old by (intros; tauto). done.
  - rewrite decide_False; [done|]. intros [_ Hla].
    change (a :: b :: t) with ([a] ++ b :: t) in Hla. rewrite last_app_cons in Hla.
    apply last_Some_elem_of in Hla. rewrite <- Et in Hla.
    apply elem_of_tall in Hla as [_ Hak].
    pose proof (inv_nodup _ _ Hinv) as Hnd.
    rewrite Hsplit, app_comm_cons, Hl, NoDup_app in Hnd. destruct Hnd as [Hnd _].
    rewrite NoDup_app, NoDup_cons in Hnd. tauto.
Qed.

(** A store that has the new node linked in at its levels satisfies the
    invariant for the extended path. *)
Lemma insert_inv level' :
  (1 ≤ newLevel ≤ level')%nat → (sl_level sl ≤ level' ≤ maxSkipListLevel)%nat →
  length nodes' = S N →
  entries_sorted (entry_of nodes' <$> lo ++ N :: hi) →
  (∀ a j, (j < ht nodes' a)%nat → forward_at nodes' a j =
     if decide (a = N) then Some (head (tall nodes j hi))
     else if decide (j < newLevel ∧ last (tall nodes j (sl_head :: lo)) = Some a)%nat
     then Some (Some N) else forward_at nodes a j) →
  sl_inv (mkSkipList nodes' level' (S (sl_length sl))) (lo ++ N :: hi).
Proof using Hht Hinv Hsplit.
  intros Hnl Hlev Hlen Hsorted Hfwd.
  pose proof (inv_nodup _ _ Hinv) as Hnd. rewrite Hsplit in Hnd.
  assert (Hperm : sl_head :: lo ++ N :: hi ≡ₚ N :: sl_head :: lo ++ hi)
    by (symmetry; apply (Permutation_middle (sl_head :: lo) hi N)).
  split; cbn [sl_nodes sl_level sl_length]; [| | | | | |done|].
  - rewrite Hperm. apply NoDup_cons. split; [apply new_not_in_path|done].
  - intros a. rewrite Hperm, elem_of_cons, <- Hsplit, (inv_dom _ _ Hinv), Hlen. lia.
  - rewrite Hht, decide_False by (apply new_fresh; left; left). apply (inv_head_ht _ _ Hinv).
  - intros a Ha. rewrite Hht. case_decide; [lia|].
    destruct (inv_ht _ _ Hinv a); [|lia]. rewrite Hsplit.
    rewrite elem_of_app in *. rewrite elem_of_cons in Ha. tauto.
  - pose proof (inv_level _ _ Hinv). lia.
  - rewrite (inv_length _ _ Hinv), Hsplit, !length_app. cbn. lia.
  - intros l a r i Hl Hi. rewrite Hfwd by done. rewrite Hht in Hi.
    change (sl_head :: lo ++ N :: hi) with ((sl_head :: lo) ++ N :: hi) in Hl.
    apply app_eq_inv in Hl as [([|a' k] & Hl & Hk)|([|a' k] & Hl & Hk)];
      cbn in Hk; injection Hk as Hx Hk; [subst a r|subst a r|subst a r|subst a'].
    + rewrite decide_True by done. by rewrite tall_old by (intros; tauto).
    + assert (a' ≠ N) by (apply new_fresh; left; rewrite Hl, elem_of_app, elem_of_cons; tauto).
      rewrite decide_False in Hi by done. rewrite (decide_False (P := a' = N)) by done.
      rewrite (insert_follow l a' k i) by done. case_decide; [done|].
      apply (inv_forward _ _ Hinv l a' (k ++ hi)); [|done].
      by rewrite Hsplit, app_comm_cons, Hl, <- app_assoc.
    + rewrite decide_True by done. by rewrite tall_old by (intros; tauto).
    + assert (Ha : a ∈ hi) by (rewrite Hk, elem_of_app, elem_of_cons; tauto).
      assert (a ≠ N) by (apply new_fresh; tauto).
      rewrite decide_False in Hi by done. 
      rewrite (decide_False (P := a = N)) by done. rewrite decide_False.
      * rewrite (inv_forward _ _ Hinv (sl_head :: lo ++ k) a r);
          [|by rewrite Hsplit, Hk, <- app_comm_cons, <- app_assoc | done].
        rewrite tall_old; [done|]. intros b Hb. right. rewrite Hk, elem_of_app, elem_of_cons. tauto.
      * intros [_ [Hal _]%pred_elem].
        rewrite app_comm_cons, NoDup_app in Hnd. destruct Hnd as (_ & Hnd & _).
        by apply (Hnd a).
Qed.
End Insert.

(** ** In-place update of an existing node *)

Lemma update_node_shape nodes a n value op :
  nodes !! a = Some n →
  let nodes' := <[a := mkNode (n_key n) value op (n_forward n)]> nodes in
  length nodes' = length nodes
  ∧ (∀ b, ht nodes' b = ht nodes b)
  ∧ (∀ b i, forward_at nodes' b i = forward_at nodes b i)
  ∧ (∀ b, entry_of nodes' b =
       if decide (b = a) then mkEntry (n_key n) value op else entry_of nodes b).
Proof.
  intros Ha. pose proof (lookup_lt_Some _ _ _ Ha) as Hlt. cbn.
  split; [apply length_insert|]. unfold ht, forward_at, entry_of.
  repeat split; intros b; [|intros i|]; destruct (decide (b = a)) as [->|];
    rewrite ?(list_lookup_insert_eq nodes) by done; rewrite ?list_lookup_insert_ne by done;
    rewrite ?Ha; done.
Qed.

Lemma update_inv sl path a n value op :
  sl_inv sl path → sl_nodes sl !! a = Some n →
  sl_inv (mkSkipList (<[a := mkNode (n_key n) value op (n_forward n)]> (sl_nodes sl))
            (sl_level sl) (sl_length sl)) path.
Proof.
  intros Hinv Ha.
  destruct (update_node_shape _ _ _ value op Ha) as (Hlen & Hht & Hfwd & Hent).
  assert (Htall : ∀ i l, tall (<[a := mkNode (n_key n) value op (n_forward n)]> (sl_nodes sl)) i l
                         = tall (sl_nodes sl) i l) by (intros; apply tall_ext; auto).
  destruct Hinv; split; cbn [sl_nodes sl_level sl_length]; try done.
  - intros b. by rewrite Hlen.
  - by rewrite Hht.
  - intros b Hb. rewrite Hht. auto.
  - unfold entries_sorted in *. rewrite <- list_fmap_compose in *.
    erewrite list_fmap_ext; [exact inv_sorted0|]. intros i b _; cbn.
    rewrite Hent. case_decide; [|done]. subst b. unfold entry_of. by rewrite Ha.
  - intros l b r i Hl Hi. rewrite Hht in Hi. rewrite Hfwd, Htall. eauto.
Qed.

(** ** The specification of [put] *)

Section Put.
Context (sl : skipList) (path lo hi : list addr) (key : bytes).
Context (value : slice) (op : OpType).
#[local] Abbreviation nodes := (sl_nodes sl).
#[local] Abbreviation e := (mkEntry key value op).
Context (Hinv : sl_inv sl path).
Context (Hsplit : path = lo ++ hi).
Context (Hlo : ∀ a, a ∈ lo → bytes_lt (e_Key (entry_of nodes a)) key).
Context (Hhi : ∀ a, a ∈ hi → ¬ bytes_lt (e_Key (entry_of nodes a)) key).

Lemma insert_at_split :
  entries_insert e (entry_of nodes <$> path)
  = (entry_of nodes <$> lo) ++ entries_insert e (entry_of nodes <$> hi).
Proof using Hsplit Hlo.
  rewrite Hsplit, fmap_app. apply entries_insert_app.
  intros x (a & -> & Ha)%list_elem_of_fmap. auto.
Qed.

Lemma entries_insert_front (es : list MemTableEntry) :
  (∀ x, x ∈ es → ¬ bytes_lt (e_Key x) key) →
  (∀ x, head es = Some x → e_Key x ≠ key) →
  entries_insert e es = e :: es.
Proof.
  intros Hge Hne. destruct es as [|x es]; [done|]; cbn.
  destruct (bytes_compare (e_Key x) key) eqn:E; [..|done].
  - apply bytes_compare_eq in E. by destruct (Hne x).
  - by destruct (Hge x); [left|].
Qed.

(** The key is present: its node is updated in place. *)
Lemma put_existing a hi' n :
  hi = a :: hi' → nodes !! a = Some n → n_key n = key →
  let nodes' := <[a := mkNode (n_key n) value op (n_forward n)]> nodes in
  entry_of nodes' <$> path = entries_insert e (entry_of nodes <$> path).
Proof using Hinv Hsplit Hlo.
  intros Hh Ha Hk nodes'.
  destruct (update_node_shape _ _ _ value op Ha) as (_ & _ & _ & Hent).
  rewrite insert_at_split, Hsplit, Hh, fmap_app. cbn.
  pose proof (inv_nodup _ _ Hinv) as Hnd. rewrite Hsplit, Hh, app_comm_cons in Hnd.
  apply NoDup_app in Hnd as (_ & Hdisj & [Hnh _]%NoDup_cons).
  f_equal.
  - apply list_fmap_ext. intros i b Hb. rewrite Hent, decide_False; [done|].
    intros ->. apply (Hdisj a); [right; by eapply list_elem_of_lookup_2|left].
  - rewrite Hent, decide_True, Hk by done.
    assert (Ek : e_Key (entry_of nodes a) = key) by (unfold entry_of; by rewrite Ha).
    rewrite Ek, bytes_compare_refl. f_equal.
    apply list_fmap_ext. intros i b Hb. rewrite Hent, decide_False; [done|].
    intros ->. apply Hnh. by eapply list_elem_of_lookup_2.
Qed.

#[local] Abbreviation pred j := (last (tall nodes j (sl_head :: lo))).
#[local] Abbreviation N := (length nodes).

(** After the raise step every level below [newLevel] has its predecessor. *)
Lemma update_preds newLevel update j :
  (newLevel ≤ maxSkipListLevel)%nat → length update = maxSkipListLevel →
  (∀ j, (j < sl_level sl)%nat → update !! j = Some (pred j)) →
  (j < newLevel)%nat →
  (if (sl_level sl <? newLevel)%nat
   then raise_update (sl_level sl) (newLevel - sl_level sl) update else update) !! j
  = Some (pred j).
Proof using Hinv Hsplit.
  intros Hnl Hlen Hu Hj. destruct (Nat.ltb_spec (sl_level sl) newLevel); [|apply Hu; lia].
  rewrite raise_update_lookup, Hlen. case_decide; [|apply Hu; lia].
  by rewrite (pred_high sl path lo hi Hinv Hsplit j) by lia.
Qed.

Lemma link_new newLevel update :
  (1 ≤ newLevel ≤ maxSkipListLevel)%nat →
  (∀ j, (j < newLevel)%nat → update !! j = Some (pred j)) →
  ∃ nodes',
    link (nodes ++ [mkNode key value op (replicate newLevel None)]) N update 0 newLevel
      = Some nodes'
    ∧ length nodes' = S N
    ∧ (∀ a, ht nodes' a = if decide (a = N) then newLevel else ht nodes a)
    ∧ (∀ a, entry_of nodes' a = if decide (a = N) then e else entry_of nodes a)
    ∧ (∀ a j, (j < ht nodes' a)%nat → forward_at nodes' a j =
         if decide (a = N) then Some (head (tall nodes j hi))
         else if decide (j < newLevel ∧ pred j = Some a)%nat
         then Some (Some N) else forward_at nodes a j).
Proof using Hinv Hsplit.
  intros Hnl Hu.
  assert (HP : ∀ j, (j < newLevel)%nat → ∃ p, pred j = Some p ∧ p ≠ N ∧ (j < ht nodes p)%nat).
  { intros j Hj. destruct (pred_Some sl path lo Hinv j) as [p Hp]; [lia|].
    exists p. destruct (pred_elem _ _ _ _ Hp) as [Hin ?]. repeat split; try done.
    by apply (new_fresh sl path lo hi Hinv Hsplit); left. }
  pose proof (alloc_lookup nodes (mkNode key value op (replicate newLevel None))) as Hal.
  destruct (link_spec (λ j, default sl_head (pred j)) N update newLevel
    (nodes ++ [mkNode key value op (replicate newLevel None)]) 0)
    as (nodes' & -> & [Hlen Hsh] & Hf).
  { intros j Hj. destruct (HP j ltac:(lia)) as (p & Hp & HpN & Hht).
    rewrite Hu, Hp by lia. cbn. repeat split; try done.
    - rewrite (proj1 (proj2 (Hal p))), decide_False by done. done.
    - rewrite (proj1 (proj2 (Hal N))), decide_True by done. cbn. rewrite length_replicate. lia. }
  exists nodes'. split; [done|].
  assert (Hht' : ∀ a, ht nodes' a = if decide (a = N) then newLevel else ht nodes a).
  { intros a. rewrite (proj2 (Hsh a)), (proj1 (proj2 (Hal a))). cbn. by rewrite length_replicate. }
  split; [rewrite Hlen, length_app; cbn; lia|]. split; [done|].
  split; [intros a; rewrite (proj1 (Hsh a)); apply Hal|].
  intros a j Hj. rewrite Hht' in Hj. rewrite Hf, !(proj2 (proj2 (Hal _))).
  destruct (decide (j < newLevel)%nat) as [Hjn|Hjn].
  - rewrite (decide_True (P := (0 ≤ j < 0 + newLevel)%nat)) by lia.
    destruct (HP j Hjn) as (p & Hp & HpN & _). rewrite Hp; cbn.
    rewrite (decide_False (P := p = N)) by done.
    destruct (decide (a = N)); [by apply (forward_pred sl path lo hi Hinv Hsplit)|].
    repeat case_decide; naive_solver.
  - rewrite (decide_False (P := (0 ≤ j < 0 + newLevel)%nat)) by lia.
    case_decide; [lia|]. by rewrite decide_False by naive_solver.
Qed.

(** The key is absent: a node is allocated and linked at its levels. *)
Lemma put_new newLevel update :
  (1 ≤ newLevel ≤ maxSkipListLevel)%nat →
  (∀ j, (j < newLevel)%nat → update !! j = Some (pred j)) →
  (∀ a, head hi = Some a → e_Key (entry_of nodes a) ≠ key) →
  ∃ nodes',
    link (nodes ++ [mkNode key value op (replicate newLevel None)]) N update 0 newLevel
      = Some nodes'
    ∧ sl_inv (mkSkipList nodes' (if (sl_level sl <? newLevel)%nat then newLevel else sl_level sl)
                (S (sl_length sl))) (lo ++ N :: hi)
    ∧ entry_of nodes' <$> (lo ++ N :: hi) = entries_insert e (entry_of nodes <$> path).
Proof using Hinv Hsplit Hlo Hhi.
  intros Hnl Hu Hne.
  destruct (link_new newLevel update Hnl Hu) as (nodes' & E & Hlen & Hht & Hent & Hf).
  assert (Hes : entry_of nodes' <$> (lo ++ N :: hi) = entries_insert e (entry_of nodes <$> path)).
  { rewrite insert_at_split, entries_insert_front.
    - rewrite fmap_app; cbn. rewrite (Hent N), decide_True by done.
      pose proof (new_fresh sl path lo hi Hinv Hsplit) as Hfresh.
      f_equal; [|f_equal]; apply list_fmap_ext; intros i b Hb%list_elem_of_lookup_2;
        rewrite Hent, decide_False; try done; apply Hfresh; [left; by right|by right].
    - intros x (a & -> & Ha)%list_elem_of_fmap. auto.
    - intros x Hx. destruct hi as [|a h]; cbn in Hx; [done|]. injection Hx as <-. auto. }
  exists nodes'. split; [done|]. split; [|done].
  pose proof (inv_level _ _ Hinv).
  apply (insert_inv sl path lo hi Hinv Hsplit nodes' newLevel Hht); try done.
  - destruct (Nat.ltb_spec (sl_level sl) newLevel); lia.
  - destruct (Nat.ltb_spec (sl_level sl) newLevel); lia.
  - rewrite Hes. apply entries_insert_sorted, (inv_sorted _ _ Hinv).
Qed.
End Put.

Lemma put_spec sl path key value op rng :
  sl_inv sl path →
  ∃ sl' rng' path', put sl key value op rng = Some (sl', rng')
    ∧ sl_inv sl' path'
    ∧ entry_of (sl_nodes sl') <$> path' =
        entries_insert (mkEntry key value op) (entry_of (sl_nodes sl) <$> path).
Proof.
  intros Hinv.
  destruct (path_split (sl_nodes sl) key path (inv_sorted _ _ Hinv)) as (lo & hi & Hp & Hlo & Hhi).
  destruct (sl_search_spec sl path lo hi key Hinv Hp Hlo Hhi) as (c & u & Ed & Ef & Hlen & Hu).
  unfold put. rewrite Ed; cbn [mbind option_bind]. rewrite Ef; cbn [mbind option_bind].
  pose proof (randomLevel_bounds rng) as Hlev. destruct (randomLevel rng) as [newLevel rng'].
  cbn [fst] in Hlev.
  assert (Hnew : (∀ a, head hi = Some a → e_Key (entry_of (sl_nodes sl) a) ≠ key) →
    ∃ sl' rng'0 path',
      (nodes ← link (sl_nodes sl ++ [mkNode key value op (replicate newLevel None)])
                 (length (sl_nodes sl))
                 (if (sl_level sl <? newLevel)%nat
                  then raise_update (sl_level sl) (newLevel - sl_level sl) u else u) 0 newLevel;
       Some (mkSkipList nodes (if (sl_level sl <? newLevel)%nat then newLevel else sl_level sl)
               (S (sl_length sl)), rng')) = Some (sl', rng'0)
      ∧ sl_inv sl' path'
      ∧ entry_of (sl_nodes sl') <$> path' =
          entries_insert (mkEntry key value op) (entry_of (sl_nodes sl) <$> path)).
  { intros Hne.
    destruct (put_new sl path lo hi key value op Hinv Hp Hlo Hhi newLevel _ Hlev
      (λ j, update_preds sl path lo hi Hinv Hp newLevel u j (proj2 Hlev) Hlen Hu) Hne)
      as (nodes' & E & Hi & He).
    rewrite E. cbn [mbind option_bind]. do 3 eexists. split; [reflexivity|]. by split. }
  destruct hi as [|a hi]; cbn [head]; [by apply Hnew|].
  destruct (path_lookup sl path Hinv a) as [n Hn].
  { rewrite Hp. right. apply elem_of_app. right. left. }
  rewrite Hn; cbn [mbind option_bind]. unfold bytes_eqb. case_bool_decide as Ek.
  - do 3 eexists. split; [done|]. split; [by apply update_inv|].
    by apply (put_existing sl path lo (a :: hi) key value op Hinv Hp Hlo a hi n).
  - apply Hnew. intros b [= <-]. by rewrite (path_key _ _ _ Hn).
Qed.

(** * Iteration *)

Lemma iterate_loop_spec sl path l r : ∀ fuel,
  sl_inv sl path → path = l ++ r → (length r ≤ fuel)%nat →
  iterate_loop fuel (sl_nodes sl) (head r) = Some (entry_of (sl_nodes sl) <$> r).
Proof.
  revert l. induction r as [|a r IH]; intros l fuel Hinv Hp Hfuel; [by destruct fuel|].
  destruct fuel as [|fuel]; cbn in Hfuel; [lia|]. cbn [head iterate_loop].
  assert (Ha : a ∈ path) by (rewrite Hp, elem_of_app, elem_of_cons; tauto).
  destruct (path_lookup sl path Hinv a) as [n Hn]; [by right|].
  rewrite Hn; cbn [mbind option_bind].
  rewrite (inv_forward _ _ Hinv (sl_head :: l) a r);
    [|by rewrite Hp | by destruct (inv_ht _ _ Hinv a Ha)].
  rewrite (tall_0_hi sl path (l ++ [a]) r Hinv) by (by rewrite <- app_assoc).
  cbn [mbind option_bind].
  rewrite (IH (l ++ [a])) by (rewrite <- ?app_assoc; done || lia).
  cbn. unfold entry_of at 2. by rewrite Hn.
Qed.

Lemma iterate_spec sl path :
  sl_inv sl path → iterate sl = Some (entry_of (sl_nodes sl) <$> path).
Proof.
  intros Hinv. unfold iterate.
  rewrite (inv_forward _ _ Hinv [] sl_head path);
    [|done | rewrite (inv_head_ht _ _ Hinv); unfold maxSkipListLevel; lia].
  rewrite (tall_0_hi sl path [] path Hinv) by done. cbn [mbind option_bind].
  apply (iterate_loop_spec sl path []); [done..|].
  pose proof (sl_path_length _ _ Hinv) as H. cbn in H. lia.
Qed.

(** * The skip list implements a sorted list of entries *)

Lemma newSkipList_inv : sl_inv newSkipList [].
Proof.
  split; [| |done| |unfold maxSkipListLevel; cbn [sl_level newSkipList]; lia|done|constructor|].
  - apply NoDup_singleton.
  - intros a. rewrite list_elem_of_singleton. cbn. unfold sl_head. lia.
  - intros a H. by apply not_elem_of_nil in H.
  - intros [|x l] a r i Hl Hi; cbn in Hl; [|by destruct l].
    injection Hl as <- <-. by apply (lookup_replicate_2 maxSkipListLevel None i).
Qed.

Lemma rep_new : sl_rep newSkipList [].
Proof. exists []. split; [apply newSkipList_inv|done]. Qed.

Lemma rep_sorted sl es : sl_rep sl es → entries_sorted es.
Proof. intros (path & Hinv & ->). apply (inv_sorted _ _ Hinv). Qed.

Lemma rep_length sl es : sl_rep sl es → sl_length sl = length es.
Proof. intros (path & Hinv & ->). rewrite length_fmap. apply (inv_length _ _ Hinv). Qed.

Lemma rep_put sl es key value op rng :
  sl_rep sl es →
  ∃ sl' rng', put sl key value op rng = Some (sl', rng')
    ∧ sl_rep sl' (entries_insert (mkEntry key value op) es).
Proof.
  intros (path & Hinv & ->).
  destruct (put_spec sl path key value op rng Hinv) as (sl' & rng' & path' & E & Hi & He).
  exists sl', rng'. split; [done|]. exists path'. done.
Qed.

Lemma rep_get sl es key :
  sl_rep sl es →
  ∃ r, get sl key = Some r
    ∧ (λ n, (n_value n, n_op n)) <$> r = entries_lookup key es
    ∧ (∀ n, r = Some n → n_key n = key).
Proof. intros (path & Hinv & ->). by apply get_spec. Qed.

Lemma rep_iterate sl es : sl_rep sl es → iterate sl = Some es.
Proof. intros (path & Hinv & ->). by apply iterate_spec. Qed.

Lemma reachable_rep sl log : sl_reachable sl log → sl_rep sl (replay_puts log).
Proof.
  induction 1 as [|sl log key value op rng sl' rng' _ IH E]; [apply rep_new|].
  unfold replay_puts. rewrite fold_left_app; cbn.
  destruct (rep_put _ _ key value op rng IH) as (sl2 & rng2 & E2 & H2).
  rewrite E in E2. by injection E2 as -> ->.
Qed.

(** * Properties *)

(** C20: whatever levels the random source draws, a skip list built by any run
    of [put]s is the sorted list of the last version of each key: [iterate]
    lists exactly that list in strict key order, [length] counts it, [get]
    finds exactly its entries, and neither [get] nor a further [put] panics or
    walks forever. *)
Theorem skiplist_refines_sorted_list sl log :
  sl_reachable sl log →
  entries_sorted (replay_puts log)
  ∧ iterate sl = Some (replay_puts log)
  ∧ sl_length sl = length (replay_puts log)
  ∧ (∀ key, ∃ r, get sl key = Some r
       ∧ (λ n, (n_value n, n_op n)) <$> r = entries_lookup key (replay_puts log))
  ∧ (∀ key value op rng, is_Some (put sl key value op rng)).
Proof.
  intros Hrep%reachable_rep. split_and!.
  - by eapply rep_sorted.
  - by apply rep_iterate.
  - by apply rep_length.
  - intros key. destruct (rep_get _ _ key Hrep) as (r & E & Hr & _). eauto.
  - intros key value op rng.
    destruct (rep_put _ _ key value op rng Hrep) as (sl' & rng' & E & _). rewrite E. eauto.
Qed.

Definition witness_puts : list MemTableEntry :=
  [mkEntry (str "b") (Some (str "1")) OpPut; mkEntry (str "a") (Some (str "2")) OpPut;
   mkEntry (str "b") None OpDelete].

(** The theorem at three puts, the middle one linked at three levels. *)
Lemma skiplist_refines_sorted_list_witness :
  ∃ sl, sl_reachable sl witness_puts
    ∧ iterate sl = Some [mkEntry (str "a") (Some (str "2")) OpPut; mkEntry (str "b") None OpDelete].
Proof.
  assert (H : ∃ sl, sl_reachable sl witness_puts).
  { eexists. unfold witness_puts.
    change (sl_reachable ?s [?a; ?b; ?c]) with (sl_reachable s ((([] ++ [a]) ++ [b]) ++ [c])).
    eapply (sl_reach_put _ _ _ _ _ []);
      [eapply (sl_reach_put _ _ _ _ _ [true; true; false]);
        [eapply (sl_reach_put _ _ _ _ _ [false]); [constructor|vm_compute; reflexivity]
        |vm_compute; reflexivity]
      |vm_compute; reflexivity]. }
  destruct H as [sl H]. exists sl. split; [exact H|].
  exact (proj1 (proj2 (skiplist_refines_sorted_list sl witness_puts H))).
Defined.
