(* ===== verification/MemTable.v ===== *)
(** The MemTable of [internal/storage/memtable.go]: the skip list with its
    size accounting. The mutex makes every operation atomic, so each is one
    function on the state. [None] stands for a run-time panic, which the
    theorems exclude. *)

From S2P Require Import Prelude StorageTypes SkipList.

(** ** Data and operations *)

Record MemTable := mkMemTable {
  m_sl : skipList;
  m_sizeBytes : Z;
}.

Definition NewMemTable : MemTable := mkMemTable newSkipList 0.

(** [int64(len(existing.key) + len(existing.value))] when the key exists. *)
Definition existing_size (existing : option skipListNode) : Z :=
  match existing with
  | Some n => len (n_key n) + len (slice_bytes (n_value n))
  | None => 0
  end.

Definition Put (m : MemTable) (key : bytes) (value : slice) (rng : list bool)
    : option (MemTable * list bool) :=
  existing ← SkipList.get (m_sl m) key;
  let size := m_sizeBytes m - existing_size existing in
  '(sl, rng) ← SkipList.put (m_sl m) key value OpPut rng;
  Some (mkMemTable sl (size + (len key + len (slice_bytes value) + 64)), rng).

Definition Delete (m : MemTable) (key : bytes) (rng : list bool)
    : option (MemTable * list bool) :=
  existing ← SkipList.get (m_sl m) key;
  let size := m_sizeBytes m - existing_size existing in
  '(sl, rng) ← SkipList.put (m_sl m) key None OpDelete rng;
  Some (mkMemTable sl (size + (len key + 64)), rng).

(** [Get] returns [(value, found)]. *)
Definition Get (m : MemTable) (key : bytes) : option (slice * bool) :=
  node ← SkipList.get (m_sl m) key;
  Some match node with
       | None => (None, false)
       | Some n => if decide (n_op n = OpDelete) then (None, true) else (n_value n, true)
       end.

Definition Size (m : MemTable) : Z := m_sizeBytes m.

Definition Entries (m : MemTable) : option (list MemTableEntry) := iterate (m_sl m).

Definition Len (m : MemTable) : nat := sl_length (m_sl m).

(** ** Specification *)

(** One write of the history, as the MemTable receives it. *)
Inductive write :=
| WPut (key : bytes) (value : slice)
| WDelete (key : bytes).

Definition write_entry (w : write) : MemTableEntry :=
  match w with
  | WPut k v => mkEntry k v OpPut
  | WDelete k => mkEntry k None OpDelete
  end.

(** The map a history of writes leaves: the last write of each key. *)
Definition apply_write (m : gmap bytes version) (w : write) : gmap bytes version :=
  <[e_Key (write_entry w) := entry_version (write_entry w)]> m.

Definition writes_map (ws : list write) : gmap bytes version := foldl apply_write ∅ ws.

(** Payload bytes of an entry. *)
Definition entry_size (e : MemTableEntry) : Z := len (e_Key e) + len (slice_bytes (e_Value e)).

Definition entries_size (es : list MemTableEntry) : Z := foldr (λ e s, entry_size e + s) 0 es.

Definition mem_write (m : MemTable) (w : write) (rng : list bool) : option (MemTable * list bool) :=
  match w with
  | WPut k v => Put m k v rng
  | WDelete k => Delete m k rng
  end.

(** What [MemTable.Get] answers for a version. *)
Definition version_get (v : option version) : slice * bool :=
  match v with
  | None => (None, false)
  | Some (value, op) => if decide (op = OpDelete) then (None, true) else (value, true)
  end.

Definition version_size (k : bytes) (v : option version) : Z :=
  match v with Some (value, _) => len k + len (slice_bytes value) | None => 0 end.

(** The table [m] holds entries [es] after [n] writes. *)
Record mem_rep (m : MemTable) (es : list MemTableEntry) (n : Z) : Prop := {
  rep_sl : sl_rep (m_sl m) es;
  rep_size : m_sizeBytes m = entries_size es + 64 * n;
}.

(** Histories of writes from an empty table. *)
Inductive mem_reachable : MemTable → list write → Prop :=
| mem_reach_new : mem_reachable NewMemTable []
| mem_reach_write m ws w rng m' rng' :
    mem_reachable m ws → mem_write m w rng = Some (m', rng') → mem_reachable m' (ws ++ [w]).

(** * Lemmas *)

Lemma entries_insert_size e es :
  entries_sorted es →
  entries_size (entries_insert e es) =
    entries_size es + entry_size e - version_size (e_Key e) (entries_lookup (e_Key e) es).
Proof.
  induction es as [|x es IH]; intros Hs; [cbn; lia|].
  pose proof Hs as [Hs' Hlt]%entries_sorted_cons. cbn [entries_insert].
  destruct (bytes_compare (e_Key x) (e_Key e)) eqn:E.
  - apply bytes_compare_eq in E. cbn. rewrite decide_True by done. cbn.
    unfold entry_size. rewrite E. lia.
  - cbn [entries_size foldr entries_lookup] in *. rewrite decide_False by (by apply bytes_lt_ne).
    unfold entries_size in IH. rewrite IH by done. lia.
  - rewrite (entries_lookup_below (e_Key e) x es Hs) by (by apply bytes_compare_gt).
    cbn. lia.
Qed.

Lemma existing_version_size key r v :
  (λ n, (n_value n, n_op n)) <$> r = v → (∀ n, r = Some n → n_key n = key) →
  existing_size r = version_size key v.
Proof. intros <- H. destruct r as [n|]; cbn; [by rewrite (H n)|done]. Qed.

Lemma slice_len_nil : len (slice_bytes None) = 0.
Proof. done. Qed.

Lemma mem_rep_new : mem_rep NewMemTable [] 0.
Proof. split; [apply rep_new|done]. Qed.

Lemma mem_rep_write m es n w rng :
  mem_rep m es n →
  ∃ m' rng', mem_write m w rng = Some (m', rng')
    ∧ mem_rep m' (entries_insert (write_entry w) es) (n + 1).
Proof.
  intros [Hsl Hsize].
  set (k := e_Key (write_entry w)).
  destruct (rep_get _ _ k Hsl) as (r & Eg & Hr & Hk).
  pose proof (existing_version_size _ _ _ Hr Hk) as Hex.
  pose proof (entries_insert_size (write_entry w) es (rep_sorted _ _ Hsl)) as Hins.
  destruct (rep_put _ _ k (e_Value (write_entry w)) (e_Op (write_entry w)) rng Hsl)
    as (sl' & rng' & Ep & Hp).
  destruct w as [k' v|k']; cbn in *; unfold Put, Delete; subst k;
    rewrite Eg; cbn; rewrite Ep; cbn; (do 2 eexists; split; [done|]);
    (split; cbn; [done|]); unfold entry_size in Hins; cbn [e_Key e_Value] in Hins;
    rewrite ?slice_len_nil in Hins; lia.
Qed.

Lemma mem_rep_get m es n key :
  mem_rep m es n → Get m key = Some (version_get (entries_lookup key es)).
Proof.
  intros [Hsl _]. destruct (rep_get _ _ key Hsl) as (r & Eg & <- & _).
  unfold Get. rewrite Eg; cbn. f_equal. by destruct r.
Qed.

Lemma mem_rep_entries m es n : mem_rep m es n → Entries m = Some es.
Proof. intros [Hsl _]. by apply rep_iterate. Qed.

Lemma mem_rep_sorted m es n : mem_rep m es n → entries_sorted es.
Proof. intros [Hsl _]. by eapply rep_sorted. Qed.

Lemma mem_rep_len m es n : mem_rep m es n → Len m = length es.
Proof. intros [Hsl _]. by apply rep_length. Qed.

Lemma writes_map_snoc ws w : writes_map (ws ++ [w]) = apply_write (writes_map ws) w.
Proof. unfold writes_map. by rewrite foldl_app. Qed.

Lemma reachable_mem_rep m ws :
  mem_reachable m ws →
  ∃ es, mem_rep m es (len ws) ∧ entries_map es = writes_map ws.
Proof.
  induction 1 as [|m ws w rng m' rng' _ (es & Hrep & Hmap) E].
  { exists []. split; [apply mem_rep_new|done]. }
  destruct (mem_rep_write m es _ w rng Hrep) as (m2 & rng2 & E2 & H2).
  rewrite E in E2. injection E2 as <- <-. eexists. split.
  - rewrite len_app. exact H2.
  - rewrite entries_insert_map, Hmap by (by eapply mem_rep_sorted).
    by rewrite writes_map_snoc.
Qed.

(** * Properties *)

(** C26: after any history of writes, the MemTable answers [Get] with the last
    write of the key (a tombstone is found with a nil value), lists one entry
    per key in strict key order, and no operation panics. *)
Theorem memtable_refines_map m ws :
  mem_reachable m ws →
  (∀ key, Get m key = Some (version_get (writes_map ws !! key)))
  ∧ (∃ es, Entries m = Some es ∧ entries_sorted es ∧ entries_map es = writes_map ws
       ∧ Len m = length es)
  ∧ (∀ w rng, is_Some (mem_write m w rng)).
Proof.
  intros (es & Hrep & Hmap)%reachable_mem_rep. split_and!.
  - intros key. by rewrite (mem_rep_get m es (len ws)), <- Hmap, entries_map_lookup.
  - exists es. split_and!; [by eapply mem_rep_entries|by eapply mem_rep_sorted|done|].
    by eapply mem_rep_len.
  - intros w rng. destruct (mem_rep_write m es _ w rng Hrep) as (m' & rng' & E & _).
    rewrite E. eauto.
Qed.

Definition witness_writes : list write :=
  [WPut (str "k") (Some (str "v1")); WPut (str "j") (Some (str "x")); WDelete (str "k")].

Lemma memtable_refines_map_witness :
  ∃ m, mem_reachable m witness_writes ∧ Get m (str "k") = Some (None, true)
    ∧ Get m (str "j") = Some (Some (str "x"), true).
Proof.
  assert (H : ∃ m, mem_reachable m witness_writes).
  { eexists. unfold witness_writes.
    change (mem_reachable ?s [?a; ?b; ?c]) with (mem_reachable s ((([] ++ [a]) ++ [b]) ++ [c])).
    eapply (mem_reach_write _ _ _ []);
      [eapply (mem_reach_write _ _ _ [true; false]);
        [eapply (mem_reach_write _ _ _ [false]); [constructor|vm_compute; reflexivity]
        |vm_compute; reflexivity]
      |vm_compute; reflexivity]. }
  destruct H as [m H]. exists m. pose proof (memtable_refines_map m _ H) as (Hget & _).
  split; [exact H|]. split; rewrite Hget; vm_compute; reflexivity.
Defined.

(** The size the engine compares with the flush threshold is the payload
    of the entries plus 64 bytes for every write ever made: an overwrite gives
    back the old payload but not its 64 bytes, so rewriting one key fills the
    table. *)
Theorem memtable_size_accounting m ws :
  mem_reachable m ws →
  ∃ es, Entries m = Some es ∧ Size m = entries_size es + 64 * len ws.
Proof.
  intros (es & Hrep & _)%reachable_mem_rep. exists es.
  split; [by eapply mem_rep_entries|]. apply (rep_size _ _ _ Hrep).
Qed.

(** Two writes of one key: one entry, and 128 bytes of overhead. *)
Lemma memtable_size_accounting_witness :
  ∃ m, mem_reachable m [WPut (str "k") (Some (str "v")); WPut (str "k") (Some (str "v"))]
    ∧ Size m = 2 + 64 * 2.
Proof.
  assert (H : ∃ m, mem_reachable m [WPut (str "k") (Some (str "v")); WPut (str "k") (Some (str "v"))]
    ∧ Entries m = Some [mkEntry (str "k") (Some (str "v")) OpPut]).
  { eexists. change (mem_reachable ?s [?a; ?b]) with (mem_reachable s (([] ++ [a]) ++ [b])). split.
    - eapply (mem_reach_write _ _ _ []);
        [eapply (mem_reach_write _ _ _ [false]); [constructor|vm_compute; reflexivity]
        |vm_compute; reflexivity].
    - vm_compute; reflexivity. }
  destruct H as [m [H He]]. exists m. split; [exact H|].
  destruct (memtable_size_accounting m _ H) as (es & Hes & ->).
  rewrite He in Hes. injection Hes as <-. vm_compute; reflexivity.
Defined.
