(* ===== verification/Crc32.v ===== *)
(** [hash/crc32.ChecksumIEEE], the checksum of WAL records: the reflected
    CRC-32 with polynomial 0xEDB88320, computed bit by bit. *)

From S2P Require Import Prelude.

Definition crc32_poly : Z := 0xEDB88320.
Definition crc32_mask : Z := 0xFFFFFFFF.

Definition crc32_shift (crc : Z) : Z :=
  if Z.testbit crc 0 then Z.lxor (Z.shiftr crc 1) crc32_poly else Z.shiftr crc 1.

Definition crc32_byte (crc : Z) (b : byte) : Z :=
  Nat.iter 8 crc32_shift (Z.lxor crc (byte_to_Z b)).

Definition ChecksumIEEE (data : bytes) : Z :=
  Z.lxor (foldl crc32_byte crc32_mask data) crc32_mask.

Lemma lxor_bound n a b :
  0 <= n → 0 <= a < 2 ^ n → 0 <= b < 2 ^ n → 0 <= Z.lxor a b < 2 ^ n.
Proof.
  intros Hn Ha Hb. replace (Z.lxor a b) with (Z.lxor a b mod 2 ^ n).
  - apply Z.mod_pos_bound. lia.
  - apply Z.bits_inj'. intros i Hi. destruct (Z.lt_ge_cases i n).
    + by rewrite Z.mod_pow2_bits_low by lia.
    + rewrite Z.mod_pow2_bits_high by lia. rewrite Z.lxor_spec.
      rewrite <- (Z.mod_small a (2 ^ n)), <- (Z.mod_small b (2 ^ n)) by lia.
      by rewrite !Z.mod_pow2_bits_high by lia.
Qed.

Lemma crc32_shift_bound crc : 0 <= crc < 2 ^ 32 → 0 <= crc32_shift crc < 2 ^ 32.
Proof.
  intros H. assert (H1 : 0 <= Z.shiftr crc 1 < 2 ^ 32).
  { rewrite Z.shiftr_div_pow2 by lia. change (2 ^ 1) with 2.
    pose proof (Z.div_pos crc 2). pose proof (Z.div_le_upper_bound crc 2 crc). lia. }
  unfold crc32_shift. destruct (Z.testbit crc 0); [|done].
  apply lxor_bound; [lia|done|]. unfold crc32_poly. lia.
Qed.

Lemma crc32_byte_bound crc b : 0 <= crc < 2 ^ 32 → 0 <= crc32_byte crc b < 2 ^ 32.
Proof.
  intros H. unfold crc32_byte. generalize 8%nat as k. induction k as [|k IH]; cbn [Nat.iter].
  - apply lxor_bound; [lia|done|]. pose proof (byte_to_Z_range b). lia.
  - by apply crc32_shift_bound.
Qed.

(** The checksum fits the four bytes the WAL gives it. *)
Lemma ChecksumIEEE_bound data : 0 <= ChecksumIEEE data < 2 ^ 32.
Proof.
  unfold ChecksumIEEE. apply lxor_bound; [lia| |unfold crc32_mask; lia].
  assert (H : 0 <= crc32_mask < 2 ^ 32) by (unfold crc32_mask; lia).
  revert H. generalize crc32_mask as c. induction data as [|b data IH]; intros c H; cbn; [done|].
  by apply IH, crc32_byte_bound.
Qed.

(** The published check value of CRC-32/ISO-HDLC. *)
Example crc32_check_value : ChecksumIEEE (str "123456789") = 0xCBF43926.
Proof. vm_compute. reflexivity. Qed.
