(* ===== verification/Os.v ===== *)
(** The operating system as the program uses it ([os], [io], [time] and
    [math/rand]): files by path, a clock, a random source, and a schedule of
    I/O failures. Every fallible call draws one element of the schedule:
    [None] lets it succeed, [Some n] makes it fail, a write after [n] bytes.
    An exhausted schedule means no more failures. *)

From S2P Require Import Prelude.

Record world := mkWorld {
  w_files : gmap bytes bytes;
  w_clock : list Z;
  w_rng : list bool;
  w_faults : list (option nat);
}.

(** Computations that may return an error or panic, with effects on the world. *)
Definition IO (A : Type) : Type := world → outcome A * world.

#[global] Instance io_ret : MRet IO := λ A a w, (Ok a, w).
#[global] Instance io_bind : MBind IO := λ A B f m w,
  match m w with
  | (Ok a, w) => f a w
  | (Err e, w) => (Err e, w)
  | (Panic, w) => (Panic, w)
  end.

Definition io_fail {A} (e : error) : IO A := λ w, (Err e, w).
Definition io_lift {A} (o : outcome A) : IO A := λ w, (o, w).

(** [if err != nil { return fmt.Errorf("msg: %w", err) }] *)
Definition io_wrap {A} (msg : string) (m : IO A) : IO A := λ w,
  match m w with
  | (Err e, w) => (Err (Wrapf msg e), w)
  | r => r
  end.

(** Calls whose error is inspected ([Some e]) rather than returned. *)
Definition io_try {A} (m : IO A) : IO (error + A) := λ w,
  match m w with
  | (Ok a, w) => (Ok (inr a), w)
  | (Err e, w) => (Ok (inl e), w)
  | (Panic, w) => (Panic, w)
  end.

Definition set_files (fs : gmap bytes bytes) (w : world) : world :=
  mkWorld fs (w_clock w) (w_rng w) (w_faults w).
Definition set_rng (rng : list bool) (w : world) : world :=
  mkWorld (w_files w) (w_clock w) rng (w_faults w).

(** One draw of the failure schedule. *)
Definition draw : IO (option nat) := λ w,
  match w_faults w with
  | [] => (Ok None, w)
  | f :: fs => (Ok f, mkWorld (w_files w) (w_clock w) (w_rng w) fs)
  end.

Definition time_Now : IO Z := λ w,
  match w_clock w with
  | [] => (Ok 0, w)
  | t :: ts => (Ok t, mkWorld (w_files w) ts (w_rng w) (w_faults w))
  end.

Definition os_fail (msg : string) : error := Errorf msg.

(** [os.Open] and reading the whole file. *)
Definition os_Open (path : bytes) : IO bytes := λ w,
  match draw w with
  | (Ok (Some _), w) => (Err (os_fail "open"), w)
  | (_, w) => match w_files w !! path with
              | Some data => (Ok data, w)
              | None => (Err ErrNotExist, w)
              end
  end.

(** [os.Create]: an empty file at the path. *)
Definition os_Create (path : bytes) : IO unit := λ w,
  match draw w with
  | (Ok (Some _), w) => (Err (os_fail "create"), w)
  | (_, w) => (Ok tt, set_files (<[path := []]> (w_files w)) w)
  end.

(** [os.OpenFile(path, O_CREATE|O_WRONLY|O_APPEND, 0644)] *)
Definition os_OpenAppend (path : bytes) : IO unit := λ w,
  match draw w with
  | (Ok (Some _), w) => (Err (os_fail "open"), w)
  | (_, w) => (Ok tt, set_files (<[path := default [] (w_files w !! path)]> (w_files w)) w)
  end.

(** [file.Write] at the end of the file at [path]; a failing write leaves a
    prefix of the data. *)
Definition file_Write (path data : bytes) : IO unit := λ w,
  let append d w := set_files (<[path := default [] (w_files w !! path) ++ d]> (w_files w)) w in
  match draw w with
  | (Ok (Some n), w) => (Err (os_fail "write"), append (take n data) w)
  | (_, w) => (Ok tt, append data w)
  end.

Definition file_Sync : IO unit := λ w,
  match draw w with
  | (Ok (Some _), w) => (Err (os_fail "sync"), w)
  | (_, w) => (Ok tt, w)
  end.

Definition file_Close : IO unit := λ w,
  match draw w with
  | (Ok (Some _), w) => (Err (os_fail "close"), w)
  | (_, w) => (Ok tt, w)
  end.

Definition os_Rename (old new : bytes) : IO unit := λ w,
  match draw w with
  | (Ok (Some _), w) => (Err (os_fail "rename"), w)
  | (_, w) => match w_files w !! old with
              | Some data => (Ok tt, set_files (<[new := data]> (delete old (w_files w))) w)
              | None => (Err ErrNotExist, w)
              end
  end.

Definition os_Remove (path : bytes) : IO unit := λ w,
  match draw w with
  | (Ok (Some _), w) => (Err (os_fail "remove"), w)
  | (_, w) => match w_files w !! path with
              | Some _ => (Ok tt, set_files (delete path (w_files w)) w)
              | None => (Err ErrNotExist, w)
              end
  end.

(** [os.Truncate(path, size)], which pads with zeros when it extends. *)
Definition os_Truncate (path : bytes) (size : Z) : IO unit := λ w,
  match draw w with
  | (Ok (Some _), w) => (Err (os_fail "truncate"), w)
  | (_, w) =>
      match w_files w !! path with
      | Some data =>
          if size <? 0 then (Err (os_fail "truncate"), w) else
          (Ok tt, set_files (<[path := take (Z.to_nat size) data ++
                                replicate (Z.to_nat (size - len data)) x00]> (w_files w)) w)
      | None => (Err ErrNotExist, w)
      end
  end.

Definition os_Stat (path : bytes) : IO unit := λ w,
  match draw w with
  | (Ok (Some _), w) => (Err (os_fail "stat"), w)
  | (_, w) => match w_files w !! path with
              | Some _ => (Ok tt, w)
              | None => (Err ErrNotExist, w)
              end
  end.

Definition os_MkdirAll (dir : bytes) : IO unit := λ w,
  match draw w with
  | (Ok (Some _), w) => (Err (os_fail "mkdir"), w)
  | (_, w) => (Ok tt, w)
  end.

(** [filepath.Join] of a clean directory and a file name. *)
Definition path_Join (dir name : bytes) : bytes := dir ++ str "/" ++ name.

(** The name of [path] when it lies directly in [dir]. *)
Definition name_in_dir (dir path : bytes) : option bytes :=
  let pre := dir ++ str "/" in
  if decide (take (length pre) path = pre) then
    let name := drop (length pre) path in
    if decide (x2f ∈ name) then None else Some name
  else None.

(** [os.ReadDir]: the names in the directory. *)
Definition os_ReadDir (dir : bytes) : IO (list bytes) := λ w,
  match draw w with
  | (Ok (Some _), w) => (Err (os_fail "readdir"), w)
  | (_, w) => (Ok (omap (name_in_dir dir) (elements (dom (w_files w)))), w)
  end.

(** [filepath.Ext(name) == ext] for an extension [ext] that starts with a dot. *)
Definition has_ext (ext name : bytes) : bool :=
  bool_decide (drop (length name - length ext) name = ext).

(** * A run without failures *)

Definition no_faults (w : world) : Prop := w_faults w = [].

Lemma draw_ok w : no_faults w → draw w = (Ok None, w).
Proof. unfold no_faults, draw. by intros ->. Qed.

Lemma no_faults_set_files fs w : no_faults (set_files fs w) ↔ no_faults w.
Proof. done. Qed.

Section NoFaults.
Context (w : world) (Hw : no_faults w).

Lemma os_Open_ok path :
  os_Open path w = match w_files w !! path with
                   | Some data => (Ok data, w) | None => (Err ErrNotExist, w) end.
Proof using Hw. unfold os_Open. by rewrite draw_ok. Qed.

Lemma os_Create_ok path :
  os_Create path w = (Ok tt, set_files (<[path := []]> (w_files w)) w).
Proof using Hw. unfold os_Create. by rewrite draw_ok. Qed.

Lemma os_OpenAppend_ok path :
  os_OpenAppend path w =
    (Ok tt, set_files (<[path := default [] (w_files w !! path)]> (w_files w)) w).
Proof using Hw. unfold os_OpenAppend. by rewrite draw_ok. Qed.

Lemma file_Write_ok path data :
  file_Write path data w =
    (Ok tt, set_files (<[path := default [] (w_files w !! path) ++ data]> (w_files w)) w).
Proof using Hw. unfold file_Write. by rewrite draw_ok. Qed.

Lemma file_Close_ok : file_Close w = (Ok tt, w).
Proof. unfold file_Close. by rewrite draw_ok. Qed.

Lemma file_Sync_ok : file_Sync w = (Ok tt, w).
Proof using Hw. unfold file_Sync. by rewrite draw_ok. Qed.

Lemma os_Rename_ok old new data :
  w_files w !! old = Some data →
  os_Rename old new w = (Ok tt, set_files (<[new := data]> (delete old (w_files w))) w).
Proof using Hw. intros H. unfold os_Rename. by rewrite draw_ok, H. Qed.

Lemma os_Remove_ok path :
  is_Some (w_files w !! path) →
  os_Remove path w = (Ok tt, set_files (delete path (w_files w)) w).
Proof using Hw. intros [d H]. unfold os_Remove. by rewrite draw_ok, H. Qed.

Lemma os_Stat_ok path :
  os_Stat path w = match w_files w !! path with
                   | Some _ => (Ok tt, w) | None => (Err ErrNotExist, w) end.
Proof using Hw. unfold os_Stat. by rewrite draw_ok. Qed.

Lemma os_Truncate_ok path data size :
  w_files w !! path = Some data → 0 <= size <= len data →
  os_Truncate path size w =
    (Ok tt, set_files (<[path := take (Z.to_nat size) data]> (w_files w)) w).
Proof using Hw.
  intros H Hs. unfold os_Truncate. rewrite draw_ok, H by done.
  rewrite (proj2 (Z.ltb_ge _ _)) by lia.
  replace (Z.to_nat (size - len data)) with 0%nat by lia. cbn [replicate].
  by rewrite app_nil_r.
Qed.

Lemma os_MkdirAll_ok dir : os_MkdirAll dir w = (Ok tt, w).
Proof using Hw. unfold os_MkdirAll. by rewrite draw_ok. Qed.

Lemma os_ReadDir_ok dir :
  os_ReadDir dir w = (Ok (omap (name_in_dir dir) (elements (dom (w_files w)))), w).
Proof using Hw. unfold os_ReadDir. by rewrite draw_ok. Qed.
End NoFaults.

(** Calls that change no file and draw no failure are computed away. *)
Create Rewrite HintDb os_ok.
#[export] Hint Rewrite os_Open_ok os_Stat_ok os_MkdirAll_ok os_ReadDir_ok file_Sync_ok file_Close_ok using done : os_ok.
