(* ===== verification/Wal.v ===== *)
(** The write-ahead log of [internal/storage/wal.go]: the record format
    [CRC32:4][Op:1][KeyLen:2][ValueLen:4][Key][Value], [Append] with its
    write and sync, and the recovery reader [ReadWALRecords]. *)

From S2P Require Import Prelude StorageTypes Crc32 Os.

Definition walHeaderSize : Z := 11.

Record WAL := mkWAL { wal_path : bytes }.

(** [OpenWAL] *)
Definition OpenWAL (path : bytes) : IO WAL :=
  _ ← io_wrap "wal: failed to open file" (os_OpenAppend path);
  mret (mkWAL path).

(** The body of a record: everything after the checksum. *)
Definition wal_body (op : OpType) (key value : bytes) : bytes :=
  [op] ++ le_put 2 (u16 (len key)) ++ le_put 4 (u32 (len value)) ++ key ++ value.

Definition wal_record (op : OpType) (key value : bytes) : bytes :=
  let body := wal_body op key value in
  le_put 4 (ChecksumIEEE body) ++ body.

(** [(w *WAL) Append] *)
Definition Append (w : WAL) (op : OpType) (key : bytes) (value : slice) : IO unit :=
  if 65535 <? len key then io_fail (Errorf "wal: key too large") else
  let record := wal_record op key (slice_bytes value) in
  _ ← io_wrap "wal: failed to write record" (file_Write (wal_path w) record);
  io_wrap "wal: failed to sync to disk" file_Sync.

(** [(w *WAL) Close] *)
Definition wal_Close (w : WAL) : IO unit :=
  _ ← io_wrap "wal: final sync failed" file_Sync;
  io_wrap "wal: failed to close file" file_Close.

Record WALRecord := mkRecord {
  r_Op : OpType;
  r_Key : bytes;
  r_Value : slice;
}.

#[global] Instance WALRecord_eq_dec : EqDecision WALRecord.
Proof. solve_decision. Defined.

(** One iteration of the read loop on the unread bytes: [Ok None] ends the
    loop, [Ok (Some (r, rest))] yields a record, [Panic] is a slice index out
    of range. [keyLen] is a [uint16], so [7+keyLen] wraps at 65536. *)
Definition read_record (data : bytes) : outcome (option (WALRecord * bytes)) :=
  match ReadFull walHeaderSize data with
  | None => Ok None
  | Some (header, rest) =>
      let storedChecksum := le_get (take 4 header) in
      let op := default x00 (header !! 4%nat) in
      let keyLen := le_get (take 2 (drop 5 header)) in
      let valueLen := le_get (take 4 (drop 7 header)) in
      match ReadFull (keyLen + valueLen) rest with
      | None => Ok None
      | Some (payload, rest) =>
          let body := [op] ++ le_put 2 keyLen ++ le_put 4 valueLen ++ payload in
          if decide (ChecksumIEEE body = storedChecksum) then
            key ← or_panic (subslice body 7 (u16 (7 + keyLen)));
            if 0 <? valueLen then
              value ← or_panic (subslice body (u16 (7 + keyLen)) (len body));
              Ok (Some (mkRecord op key (Some value), rest))
            else Ok (Some (mkRecord op key None, rest))
          else Ok None
      end
  end.

(** The loop; every record takes at least 11 bytes, so [length data] fuel
    is enough. *)
Fixpoint read_records (fuel : nat) (data : bytes) : outcome (list WALRecord) :=
  match fuel with
  | O => Ok []
  | S fuel =>
      r ← read_record data;
      match r with
      | None => Ok []
      | Some (rec, rest) =>
          recs ← read_records fuel rest;
          Ok (rec :: recs)
      end
  end.

Definition wal_parse (data : bytes) : outcome (list WALRecord) :=
  read_records (length data) data.

(** [ReadWALRecords] *)
Definition ReadWALRecords (path : bytes) : IO (list WALRecord) :=
  r ← io_try (os_Open path);
  match r with
  | inl ErrNotExist => mret []
  | inl e => io_fail (Wrapf "wal: failed to open for recovery" e)
  | inr data => io_lift (wal_parse data)
  end.

(** ** Specification *)

(** What one successful [Append] puts on disk, and what reading it yields:
    an empty value comes back as the nil slice. *)
Definition encode_record (r : WALRecord) : bytes :=
  wal_record (r_Op r) (r_Key r) (slice_bytes (r_Value r)).

Definition encode_records (rs : list WALRecord) : bytes := concat (encode_record <$> rs).

Definition read_back (r : WALRecord) : WALRecord :=
  mkRecord (r_Op r) (r_Key r)
    (match slice_bytes (r_Value r) with [] => None | v => Some v end).

(** Records the reader can decode: keys up to 65528 bytes. *)
Definition record_ok (r : WALRecord) : Prop :=
  len (r_Key r) <= 65528 ∧ len (slice_bytes (r_Value r)) < 2 ^ 32.

(** The number of whole records in the first [n] bytes of the log. *)
Fixpoint whole_records (n : nat) (rs : list WALRecord) : nat :=
  match rs with
  | [] => 0
  | r :: rs =>
      let k := length (encode_record r) in
      if decide (k ≤ n)%nat then S (whole_records (n - k) rs) else 0
  end.

Arguments wal_record : simpl never.
Arguments encode_record : simpl never.
Arguments read_record : simpl never.

(** * Lemmas *)

Lemma len_wal_body op key value : len (wal_body op key value) = 7 + len key + len value.
Proof. unfold wal_body. len_norm. lia. Qed.

Lemma len_wal_record op key value : len (wal_record op key value) = 11 + len key + len value.
Proof. unfold wal_record. rewrite len_app, len_le_put, len_wal_body. lia. Qed.

(** The header of a record, split into its fields. *)
Lemma wal_record_split op key value :
  len key <= 65535 → len value < 2 ^ 32 →
  wal_record op key value =
    (le_put 4 (ChecksumIEEE (wal_body op key value)) ++ [op]
       ++ le_put 2 (len key) ++ le_put 4 (len value)) ++ key ++ value.
Proof.
  intros Hk Hv. pose proof (len_nonneg key). pose proof (len_nonneg value).
  unfold wal_record, wal_body, u16, u32 at 2. rewrite !Z.mod_small by lia.
  by rewrite <- !app_assoc.
Qed.

Lemma header_fields c op k v :
  let header := le_put 4 c ++ [op] ++ le_put 2 k ++ le_put 4 v in
  length header = 11%nat ∧ take 4 header = le_put 4 c ∧ header !! 4%nat = Some op
  ∧ take 2 (drop 5 header) = le_put 2 k ∧ take 4 (drop 7 header) = le_put 4 v.
Proof. repeat split; reflexivity. Qed.

(** Reading a complete record. *)
Lemma read_record_complete op key value rest :
  len key <= 65535 → len value < 2 ^ 32 →
  read_record (wal_record op key value ++ rest) =
    key' ← or_panic (subslice (wal_body op key value) 7 (u16 (7 + len key)));
    if 0 <? len value then
      value' ← or_panic (subslice (wal_body op key value) (u16 (7 + len key))
                           (len (wal_body op key value)));
      Ok (Some (mkRecord op key' (Some value'), rest))
    else Ok (Some (mkRecord op key' None, rest)).
Proof.
  intros Hk Hv. pose proof (len_nonneg key). pose proof (len_nonneg value).
  rewrite wal_record_split, <- app_assoc by done.
  destruct (header_fields (ChecksumIEEE (wal_body op key value)) op (len key) (len value))
    as (Hlen & Hc & Hop & Hkl & Hvl).
  unfold read_record. rewrite ReadFull_app by (unfold len at 1; by rewrite Hlen). rewrite Hc, Hop, Hkl, Hvl.
  rewrite !le_get_put_small by (cbn; lia || apply ChecksumIEEE_bound).
  rewrite ReadFull_app by (rewrite len_app; lia). cbn [default].
  assert (Eb : [op] ++ le_put 2 (len key) ++ le_put 4 (len value) ++ key ++ value
               = wal_body op key value).
  { unfold wal_body, u16, u32. rewrite !Z.mod_small by lia. done. }
  change (id op) with op.
  rewrite Eb, decide_True by done. done.
Qed.

Lemma wal_body_split op key value :
  wal_body op key value =
    ([op] ++ le_put 2 (u16 (len key)) ++ le_put 4 (u32 (len value))) ++ key ++ value.
Proof. unfold wal_body. by rewrite <- !app_assoc. Qed.

Lemma wal_body_key op key value :
  len key <= 65528 → subslice (wal_body op key value) 7 (u16 (7 + len key)) = Some key.
Proof.
  intros Hk. pose proof (len_nonneg key). unfold u16. rewrite Z.mod_small by lia.
  rewrite wal_body_split. apply subslice_app; [done|]. len_norm. lia.
Qed.

Lemma wal_body_value op key value :
  len key <= 65528 →
  subslice (wal_body op key value) (u16 (7 + len key)) (len (wal_body op key value)) = Some value.
Proof.
  intros Hk. pose proof (len_nonneg key). unfold u16 at 1. rewrite Z.mod_small by lia.
  rewrite len_wal_body, wal_body_split, app_assoc, <- (app_nil_r (_ ++ value)), <- app_assoc.
  apply subslice_app; len_norm; lia.
Qed.

Lemma read_record_ok r rest :
  record_ok r → read_record (encode_record r ++ rest) = Ok (Some (read_back r, rest)).
Proof.
  intros [Hk Hv]. unfold encode_record. rewrite read_record_complete by lia.
  rewrite wal_body_key by done. cbn [or_panic mbind outcome_bind].
  unfold read_back. destruct (slice_bytes (r_Value r)) as [|b v] eqn:E; [done|].
  rewrite (proj2 (Z.ltb_lt _ _)) by (rewrite len_cons; pose proof (len_nonneg v); lia).
  rewrite wal_body_value by done. done.
Qed.

(** A key of 65529 to 65535 bytes, which [Append] accepts: [7+keyLen] wraps
    below 7 and the slice expression panics. *)
Lemma read_record_panics r rest :
  65529 <= len (r_Key r) <= 65535 → len (slice_bytes (r_Value r)) < 2 ^ 32 →
  read_record (encode_record r ++ rest) = Panic.
Proof.
  intros Hk Hv. unfold encode_record. rewrite read_record_complete by lia.
  assert (E : u16 (7 + len (r_Key r)) = len (r_Key r) - 65529).
  { unfold u16. symmetry. apply Z.mod_unique with 1; lia. }
  assert (Es : ∀ b : bytes, subslice b 7 (len (r_Key r) - 65529) = None).
  { intros b. unfold subslice. rewrite (proj2 (Z.leb_gt 7 _)) by lia. done. }
  by rewrite E, Es.
Qed.

(** A record cut short by a crash ends the log. *)
Lemma read_record_torn op key value n :
  len key <= 65535 → len value < 2 ^ 32 → (n < length (wal_record op key value))%nat →
  read_record (take n (wal_record op key value)) = Ok None.
Proof.
  intros Hk Hv Hn. pose proof (len_wal_record op key value) as Hlen. unfold len in Hlen.
  pose proof (len_nonneg key). pose proof (len_nonneg value).
  unfold read_record. destruct (decide (n < 11)%nat) as [H11|H11].
  { rewrite ReadFull_short; [done|]. unfold len. rewrite length_take. unfold walHeaderSize. lia. }
  rewrite wal_record_split by done.
  destruct (header_fields (ChecksumIEEE (wal_body op key value)) op (len key) (len value))
    as (Hhl & Hc & Hop & Hkl & Hvl).
  rewrite take_app_ge by (rewrite Hhl; lia).
  rewrite ReadFull_app by (unfold len at 1; by rewrite Hhl). rewrite Hkl, Hvl, !le_get_put_small by (cbn; lia).
  rewrite ReadFull_short; [done|].
  rewrite Hhl. unfold len in *. rewrite length_take, length_app. lia.
Qed.

Lemma read_record_nil : read_record [] = Ok None.
Proof. done. Qed.

Lemma encode_record_pos r : (11 ≤ length (encode_record r))%nat.
Proof.
  unfold encode_record. pose proof (len_wal_record (r_Op r) (r_Key r) (slice_bytes (r_Value r))) as H.
  unfold len in H. lia.
Qed.

(** The loop reads every complete record and stops at the first bytes that
    are not one. *)
Lemma read_records_ok rs tail : ∀ fuel,
  Forall record_ok rs → read_record tail = Ok None →
  (length (encode_records rs ++ tail) ≤ fuel)%nat →
  read_records fuel (encode_records rs ++ tail) = Ok (read_back <$> rs).
Proof.
  induction rs as [|r rs IH]; intros fuel Hok Htail Hfuel.
  { destruct fuel; [done|]. cbn [encode_records concat fmap list_fmap app read_records].
    by rewrite Htail. }
  inversion Hok as [|? ? Hr Hrs]; subst.
  pose proof (encode_record_pos r).
  unfold encode_records in *. cbn [fmap list_fmap concat] in *.
  rewrite <- app_assoc in *. rewrite length_app in Hfuel.
  destruct fuel as [|fuel]; [lia|]. cbn [read_records].
  rewrite read_record_ok by done. cbn [mbind outcome_bind].
  rewrite IH by (done || lia). done.
Qed.

Lemma wal_parse_ok rs tail :
  Forall record_ok rs → read_record tail = Ok None →
  wal_parse (encode_records rs ++ tail) = Ok (read_back <$> rs).
Proof. intros. by apply read_records_ok. Qed.

Lemma encode_records_app a b : encode_records (a ++ b) = encode_records a ++ encode_records b.
Proof. unfold encode_records. by rewrite fmap_app, concat_app. Qed.

Lemma encode_records_single r : encode_records [r] = encode_record r.
Proof. unfold encode_records. cbn. apply app_nil_r. Qed.

Lemma wal_parse_prefix_panics rs r tail :
  Forall record_ok rs → read_record (encode_record r ++ tail) = Panic →
  wal_parse (encode_records rs ++ encode_record r ++ tail) = Panic.
Proof.
  intros Hok Hp. unfold wal_parse.
  assert (H : ∀ fuel, (length (encode_records rs ++ encode_record r ++ tail) ≤ fuel)%nat →
    read_records fuel (encode_records rs ++ encode_record r ++ tail) = Panic).
  2: { by apply H. }
  induction rs as [|x rs IH]; intros fuel Hfuel; pose proof (encode_record_pos r).
  - rewrite !length_app in Hfuel. destruct fuel as [|fuel]; [lia|].
    change (encode_records [] ++ encode_record r ++ tail) with (encode_record r ++ tail).
    cbn [read_records]. by rewrite Hp.
  - inversion Hok as [|? ? Hx Hxs]; subst. pose proof (encode_record_pos x).
    unfold encode_records in *. cbn [fmap list_fmap concat] in *.
    rewrite <- !app_assoc in *. rewrite length_app in Hfuel.
    destruct fuel as [|fuel]; [lia|]. cbn [read_records].
    rewrite read_record_ok by done. cbn [mbind outcome_bind].
    rewrite IH by (done || lia). done.
Qed.

(** Cutting the log at any byte leaves whole records and a torn one. *)
Lemma take_encode_records n rs :
  Forall record_ok rs →
  ∃ tail, take n (encode_records rs) = encode_records (take (whole_records n rs) rs) ++ tail
    ∧ read_record tail = Ok None.
Proof.
  intros Hok. revert n. induction Hok as [|r rs Hr Hrs IH]; intros n.
  { exists []. split; [by destruct n|done]. }
  cbn [whole_records]. unfold encode_records in *. cbn [fmap list_fmap concat].
  case_decide as D.
  - destruct (IH (n - length (encode_record r))%nat) as (tail & E & Ht).
    exists tail. split; [|done]. cbn [take fmap list_fmap concat].
    rewrite take_app_ge by exact D. rewrite E. apply app_assoc.
  - exists (take n (encode_record r)). rewrite take_app_le by (apply Nat.lt_le_incl, Nat.nle_gt, D). split; [reflexivity|].
    destruct Hr as [Hk Hv]. unfold encode_record in *.
    apply read_record_torn; [clear -Hk; lia|exact Hv|]. apply Nat.nle_gt, D.
Qed.

(** What [Append] leaves in the log file, whatever fails: the old content
    followed by a prefix of the record, the whole record on success. *)
Lemma Append_file w wal op key value old res w' :
  Append wal op key value w = (res, w') → len key <= 65535 →
  w_files w !! wal_path wal = Some old →
  ∃ n, w_files w' = <[wal_path wal := old ++ take n (wal_record op key (slice_bytes value))]> (w_files w)
    ∧ (res = Ok tt → (length (wal_record op key (slice_bytes value)) ≤ n)%nat)
    ∧ res ≠ Panic.
Proof.
  intros E Hk Hold. unfold Append in E. rewrite (proj2 (Z.ltb_ge _ _)) in E by lia.
  set (r := wal_record op key (slice_bytes value)) in *.
  unfold io_wrap, mbind, io_bind, file_Write, file_Sync, draw in E.
  destruct (w_faults w) as [|[n|] fs]; cbn in E; rewrite Hold in E; cbn in E.
  - exists (length r). destruct (w_faults w) as [|[]]; cbn in E; injection E as <- <-;
      cbn; rewrite firstn_all; done.
  - injection E as <- <-. exists n. done.
  - exists (length r). destruct fs as [|[]]; cbn in E; injection E as <- <-;
      cbn; rewrite firstn_all; done.
Qed.

(** * Properties *)

(** C23: cutting the log at any byte (a crash during [Append]) loses exactly the
    records that are not whole, for a log of records whose keys have at most
    65528 bytes and whose values fit 32 bits ([record_ok]; a longer key makes
    the reader panic, [wal_long_key_panics]): the reader returns every whole
    record in order and stops at the torn one without panicking. Each comes back
    with its operation, key and value, an empty value as nil ([read_back]). *)
Theorem wal_crash_prefix rs n :
  Forall record_ok rs →
  wal_parse (take n (encode_records rs)) = Ok (read_back <$> take (whole_records n rs) rs).
Proof.
  intros Hok. destruct (take_encode_records n rs Hok) as (tail & -> & Ht).
  apply wal_parse_ok; [by apply Forall_take|done].
Qed.

Definition witness_log : list WALRecord :=
  [mkRecord OpPut (str "key") (Some (str "value")); mkRecord OpDelete (str "key") None;
   mkRecord OpPut (str "k2") (Some (str "w"))].

Lemma wal_crash_prefix_witness :
  Forall record_ok witness_log
  ∧ wal_parse (take 40 (encode_records witness_log)) = Ok (take 2 witness_log).
Proof.
  assert (H : Forall record_ok witness_log) by (repeat constructor; vm_compute; congruence).
  split; [exact H|]. rewrite (wal_crash_prefix witness_log 40 H). vm_compute. reflexivity.
Defined.

(** Whatever I/O fails, [Append] leaves in the log its old content
    followed by a prefix of the encoded record, and reports success only when
    the whole record is there. No other file changes. *)
Theorem wal_append_prefix wal op key value old w res w' :
  Append wal op key value w = (res, w') → len key <= 65535 →
  w_files w !! wal_path wal = Some old →
  ∃ n, w_files w' = <[wal_path wal := old ++ take n (wal_record op key (slice_bytes value))]> (w_files w)
    ∧ (res = Ok tt → take n (wal_record op key (slice_bytes value)) = wal_record op key (slice_bytes value))
    ∧ res ≠ Panic.
Proof.
  intros E Hk Hold. destruct (Append_file _ _ _ _ _ _ _ _ E Hk Hold) as (n & Hf & Hok & Hp).
  exists n. split; [done|]. split; [|done]. intros H. by apply take_ge, Hok.
Qed.

(** A write that fails after five bytes. *)
Lemma wal_append_prefix_witness :
  let wal := mkWAL (str "d/wal.log") in
  let w := mkWorld {[str "d/wal.log" := []]} [] [] [Some 5%nat] in
  ∃ n, w_files (snd (Append wal OpPut (str "k") (Some (str "v")) w))
       = <[wal_path wal := [] ++ take n (wal_record OpPut (str "k") (str "v"))]> (w_files w).
Proof.
  intros wal w.
  destruct (wal_append_prefix wal OpPut (str "k") (Some (str "v")) [] w
              (fst (Append wal OpPut (str "k") (Some (str "v")) w))
              (snd (Append wal OpPut (str "k") (Some (str "v")) w))) as (n & H & _).
  - vm_compute. reflexivity.
  - vm_compute. congruence.
  - vm_compute. reflexivity.
  - exists n. exact H.
Defined.

(** [Append] accepts keys of 65529 to 65535 bytes, but the reader computes
    the end of the key as [7+keyLen] in [uint16], which wraps: a log that
    holds such a record after any good records makes recovery panic. *)
Theorem wal_long_key_panics rs r tail :
  Forall record_ok rs → 65529 <= len (r_Key r) <= 65535 →
  len (slice_bytes (r_Value r)) < 2 ^ 32 →
  wal_parse (encode_records rs ++ encode_record r ++ tail) = Panic.
Proof. intros Hrs Hk Hv. apply wal_parse_prefix_panics; [done|]. by apply read_record_panics. Qed.

Lemma wal_long_key_panics_witness :
  let r := mkRecord OpPut (replicate (Z.to_nat 65530) x61) (Some []) in
  wal_parse (encode_records witness_log ++ encode_record r ++ []) = Panic.
Proof.
  intros r. apply wal_long_key_panics.
  - repeat constructor; vm_compute; congruence.
  - vm_compute. split; congruence.
  - vm_compute. congruence.
Defined.
