(* ===== verification/Recovery.v ===== *)
(** WAL recovery of [internal/storage/recovery.go]: replay the readable
    records into a fresh MemTable and truncate the log to them. *)

From S2P Require Import Prelude StorageTypes SkipList MemTable Crc32 Os Wal.

(** ** Operations *)

(** The [switch rec.Op] of [Recover]; records with an unknown operation are
    skipped and not counted. *)
Definition replay_record (mem : MemTable) (count : nat) (rng : list bool) (rec : WALRecord)
    : option (MemTable * nat * list bool) :=
  if decide (r_Op rec = OpPut) then
    '(mem, rng) ← MemTable.Put mem (r_Key rec) (r_Value rec) rng;
    Some (mem, S count, rng)
  else if decide (r_Op rec = OpDelete) then
    '(mem, rng) ← MemTable.Delete mem (r_Key rec) rng;
    Some (mem, S count, rng)
  else Some (mem, count, rng).

Fixpoint replay_records (mem : MemTable) (count : nat) (rng : list bool) (recs : list WALRecord)
    : option (MemTable * nat * list bool) :=
  match recs with
  | [] => Some (mem, count, rng)
  | rec :: recs =>
      '(mem, count, rng) ← replay_record mem count rng rec;
      replay_records mem count rng recs
  end.

(** The same loop drawing from the world's random source. *)
Definition replay_io (recs : list WALRecord) : IO (MemTable * nat) := λ w,
  match replay_records NewMemTable 0 (w_rng w) recs with
  | Some (mem, count, rng) => (Ok (mem, count), set_rng rng w)
  | None => (Panic, w)
  end.

(** [int64(walHeaderSize + len(rec.Key) + len(rec.Value))] *)
Definition record_size (rec : WALRecord) : Z :=
  walHeaderSize + len (r_Key rec) + len (slice_bytes (r_Value rec)).

Definition computeValidWALSize (walPath : bytes) (validRecordCount : nat) : IO Z :=
  if decide (validRecordCount = 0%nat) then mret 0 else
  records ← ReadWALRecords walPath;
  mret (foldl (λ s rec, s + record_size rec) 0 (take validRecordCount records)).

Definition truncateWAL (walPath : bytes) (size : Z) : IO unit :=
  io_wrap "recovery: os.Truncate failed" (os_Truncate walPath size).

Definition Recover (walPath : bytes) : IO (MemTable * nat) :=
  records ← io_wrap "recovery: failed to read WAL" (ReadWALRecords walPath);
  '(mem, count) ← replay_io records;
  st ← io_try (os_Stat walPath);
  _ ← match st with
      | inr _ =>
          vb ← io_try (computeValidWALSize walPath (length records));
          match vb with
          | inr validBytes => _ ← io_try (truncateWAL walPath validBytes); mret tt
          | inl _ => mret tt
          end
      | inl _ => mret tt
      end;
  mret (mem, count).

(** ** Specification *)

(** The writes a list of records stands for. *)
Definition record_write (r : WALRecord) : option write :=
  if decide (r_Op r = OpPut) then Some (WPut (r_Key r) (r_Value r))
  else if decide (r_Op r = OpDelete) then Some (WDelete (r_Key r))
  else None.

Definition record_writes (rs : list WALRecord) : list write := omap record_write rs.

(** * Lemmas *)

Lemma replay_record_spec mem es n count rng rec :
  mem_rep mem es n →
  ∃ mem' rng', replay_record mem count rng rec =
      Some (mem', (count + length (record_writes [rec]))%nat, rng')
    ∧ mem_rep mem' (fold_left (λ es w, entries_insert (write_entry w) es) (record_writes [rec]) es)
        (n + len (record_writes [rec])).
Proof.
  intros Hrep. unfold replay_record, record_writes, record_write; cbn.
  case_decide as D1; [|case_decide as D2]; cbn.
  - destruct (mem_rep_write mem es n (WPut (r_Key rec) (r_Value rec)) rng Hrep)
      as (m' & rng' & E & H). cbn in E. rewrite E; cbn. rewrite Nat.add_1_r. eauto.
  - destruct (mem_rep_write mem es n (WDelete (r_Key rec)) rng Hrep)
      as (m' & rng' & E & H). cbn in E. rewrite E; cbn. rewrite Nat.add_1_r. eauto.
  - rewrite Nat.add_0_r. do 2 eexists. split; [done|]. rewrite len_nil, Z.add_0_r. done.
Qed.

Lemma replay_records_spec recs : ∀ mem es n count rng,
  mem_rep mem es n →
  ∃ mem' rng', replay_records mem count rng recs =
      Some (mem', (count + length (record_writes recs))%nat, rng')
    ∧ mem_rep mem' (fold_left (λ es w, entries_insert (write_entry w) es) (record_writes recs) es)
        (n + len (record_writes recs)).
Proof.
  induction recs as [|rec recs IH]; intros mem es n count rng Hrep.
  { exists mem, rng. cbn. rewrite Nat.add_0_r, len_nil, Z.add_0_r. done. }
  destruct (replay_record_spec mem es n count rng rec Hrep) as (m1 & rng1 & E1 & H1).
  destruct (IH _ _ _ (count + length (record_writes [rec]))%nat rng1 H1) as (m2 & rng2 & E2 & H2).
  exists m2, rng2. cbn [replay_records]. rewrite E1. cbn [mbind option_bind]. rewrite E2.
  change (rec :: recs) with ([rec] ++ recs).
  replace (record_writes ([rec] ++ recs)) with (record_writes [rec] ++ record_writes recs)
    by (symmetry; apply omap_app).
  rewrite fold_left_app, length_app, len_app, Z.add_assoc, Nat.add_assoc. done.
Qed.

Lemma writes_entries_map ws : ∀ es,
  entries_sorted es →
  entries_map (fold_left (λ es w, entries_insert (write_entry w) es) ws es)
  = foldl apply_write (entries_map es) ws.
Proof.
  induction ws as [|w ws IH]; intros es Hs; cbn; [done|].
  rewrite IH by (by apply entries_insert_sorted). by rewrite entries_insert_map.
Qed.

Lemma record_size_encode r : record_size (read_back r) = len (encode_record r).
Proof.
  unfold record_size, read_back, encode_record. rewrite len_wal_record. cbn [r_Key r_Value].
  unfold walHeaderSize. destruct (slice_bytes (r_Value r)); cbn [slice_bytes default];
    unfold slice_bytes; cbn; lia.
Qed.

Lemma record_sizes_encode rs : ∀ s,
  foldl (λ s rec, s + record_size rec) s (read_back <$> rs) = s + len (encode_records rs).
Proof.
  induction rs as [|r rs IH]; intros s; [cbn; rewrite len_nil; lia|].
  cbn [fmap list_fmap foldl]. rewrite IH, record_size_encode.
  unfold encode_records. cbn [fmap list_fmap concat]. rewrite len_app. lia.
Qed.

(** Reading the log of a world without failures. *)
Lemma ReadWALRecords_ok w path rs tail :
  no_faults w → w_files w !! path = Some (encode_records rs ++ tail) →
  Forall record_ok rs → read_record tail = Ok None →
  ReadWALRecords path w = (Ok (read_back <$> rs), w).
Proof.
  intros Hw Hf Hok Ht. unfold ReadWALRecords, mbind, io_bind, io_try, io_lift.
  rewrite os_Open_ok, Hf by done. by rewrite wal_parse_ok.
Qed.

Lemma computeValidWALSize_ok w path rs tail :
  no_faults w → w_files w !! path = Some (encode_records rs ++ tail) →
  Forall record_ok rs → read_record tail = Ok None →
  computeValidWALSize path (length (read_back <$> rs)) w = (Ok (len (encode_records rs)), w).
Proof.
  intros Hw Hf Hok Ht. unfold computeValidWALSize. rewrite length_fmap. case_decide as D.
  { apply nil_length_inv in D. by subst. }
  unfold mbind, io_bind. rewrite (ReadWALRecords_ok w path rs tail) by done.
  rewrite <- (length_fmap read_back rs), firstn_all, record_sizes_encode. done.
Qed.

(** Recovery after a crash that left whole records and a torn tail: the
    MemTable holds the replayed writes, and the log is cut back to the whole
    records. *)
Lemma Recover_ok w path rs tail :
  no_faults w → w_files w !! path = Some (encode_records rs ++ tail) →
  Forall record_ok rs → read_record tail = Ok None →
  ∃ mem es rng,
    Recover path w =
      (Ok (mem, length (record_writes (read_back <$> rs))),
       set_files (<[path := encode_records rs]> (w_files w)) (set_rng rng w))
    ∧ mem_rep mem es (len (record_writes (read_back <$> rs)))
    ∧ entries_map es = writes_map (record_writes (read_back <$> rs)).
Proof.
  intros Hw Hf Hok Ht.
  destruct (replay_records_spec (read_back <$> rs) NewMemTable [] 0 0 (w_rng w) mem_rep_new)
    as (mem & rng & Erep & Hrep).
  exists mem, (fold_left (λ es w, entries_insert (write_entry w) es) (record_writes (read_back <$> rs)) []), rng.
  split; [|split; [done|]].
  - unfold Recover, mbind, io_bind, io_wrap. rewrite (ReadWALRecords_ok w path rs tail) by done.
    unfold replay_io. rewrite Erep. unfold io_try.
    rewrite os_Stat_ok by done. cbn [w_files set_rng]. rewrite Hf.
    rewrite (computeValidWALSize_ok (set_rng rng w) path rs tail) by done.
    unfold truncateWAL, io_wrap.
    rewrite (os_Truncate_ok (set_rng rng w) Hw path (encode_records rs ++ tail));
      [|done|rewrite len_app; pose proof (len_nonneg (encode_records rs));
             pose proof (len_nonneg tail); lia].
    by rewrite take_len.
  - rewrite writes_entries_map by constructor. done.
Qed.

(** * Properties *)

(** Recovery from a log cut at any byte: the MemTable holds exactly the
    writes of the whole records, and the torn bytes are cut off the log, so
    later appends follow the last whole record. Other files are untouched. *)
Theorem recover_crash w path rs n :
  no_faults w → Forall record_ok rs →
  w_files w !! path = Some (take n (encode_records rs)) →
  let kept := take (whole_records n rs) rs in
  ∃ mem count w', Recover path w = (Ok (mem, count), w')
    ∧ (∀ key, MemTable.Get mem key =
         Some (version_get (writes_map (record_writes (read_back <$> kept)) !! key)))
    ∧ w_files w' = <[path := encode_records kept]> (w_files w).
Proof.
  intros Hw Hok Hf kept. destruct (take_encode_records n rs Hok) as (tail & E & Ht).
  rewrite E in Hf. fold kept in Hf.
  destruct (Recover_ok w path kept tail Hw Hf) as (mem & es & rng & Er & Hm & Hmap);
    [by apply Forall_take|done|].
  eexists _, _, _. split; [exact Er|]. split; [|done].
  intros key. by rewrite (mem_rep_get _ _ _ key Hm), <- Hmap, entries_map_lookup.
Qed.

(** The log of three records cut in the last one. *)
Lemma recover_crash_witness :
  let w := mkWorld {[str "wal.log" := take 40 (encode_records witness_log)]} [] [] [] in
  ∃ mem count w', Recover (str "wal.log") w = (Ok (mem, count), w')
    ∧ MemTable.Get mem (str "key") = Some (None, true)
    ∧ MemTable.Get mem (str "k2") = Some (None, false)
    ∧ w_files w' = <[str "wal.log" := encode_records (take 2 witness_log)]> (w_files w).
Proof.
  intros w. destruct (recover_crash w (str "wal.log") witness_log 40) as (mem & count & w' & E & Hg & Hf).
  - reflexivity.
  - repeat constructor; vm_compute; congruence.
  - apply lookup_singleton_eq.
  - exists mem, count, w'. split; [exact E|]. rewrite !Hg.
    split_and!; [vm_compute; reflexivity..|]. rewrite Hf. by_decide.
Defined.
