(* ===== verification/SSTable.v ===== *)
(** SSTable files of [internal/storage/sstable.go]: the writer (data records,
    sparse index, footer, temporary file and rename), the reader with its
    binary search over the sparse index and its forward scan, and the
    whole-file reader [readAllSSTableRecords] of compaction.go. *)

From S2P Require Import Prelude StorageTypes Os.

(** ** Data *)

Definition sparseIndexInterval : nat := 16.
Definition footerSize : Z := 16.

Record indexEntry := mkIndex {
  i_key : bytes;
  i_offset : Z;
}.

Record ssRecord := mkSs {
  s_key : bytes;
  s_value : slice;
  s_op : OpType;
}.

Record SSTableReader := mkReader {
  sst_path : bytes;
  sst_index : list indexEntry;
}.

(** ** The writer *)

Definition encode_entry (e : MemTableEntry) : bytes :=
  le_put 2 (u16 (len (e_Key e))) ++ le_put 4 (u32 (len (slice_bytes (e_Value e))))
  ++ [e_Op e] ++ e_Key e ++ slice_bytes (e_Value e).

Definition encode_index_entry (ie : indexEntry) : bytes :=
  le_put 2 (u16 (len (i_key ie))) ++ i_key ie ++ le_put 8 (u64 (i_offset ie)).

Definition encode_footer (indexStartOffset indexSize : Z) : bytes :=
  le_put 8 (u64 indexStartOffset) ++ le_put 8 (u64 indexSize).

(** [for i, entry := range entries]: write each record, remembering every
    16th key with its offset. *)
Fixpoint write_data (tmp : bytes) (i : nat) (currentOffset : Z) (sparseIndex : list indexEntry)
    (entries : list MemTableEntry) : IO (list indexEntry * Z) :=
  match entries with
  | [] => mret (sparseIndex, currentOffset)
  | entry :: entries =>
      let sparseIndex :=
        if decide (i mod sparseIndexInterval = 0)%nat
        then sparseIndex ++ [mkIndex (e_Key entry) currentOffset] else sparseIndex in
      let record := encode_entry entry in
      _ ← io_wrap "sstable: failed to write data record" (file_Write tmp record);
      write_data tmp (S i) (currentOffset + len record) sparseIndex entries
  end.

Fixpoint write_index (tmp : bytes) (currentOffset : Z) (sparseIndex : list indexEntry) : IO Z :=
  match sparseIndex with
  | [] => mret currentOffset
  | ie :: sparseIndex =>
      let buf := encode_index_entry ie in
      _ ← io_wrap "sstable: failed to write index entry" (file_Write tmp buf);
      write_index tmp (currentOffset + len buf) sparseIndex
  end.

(** Everything between [os.Create] and the return. *)
Definition write_body (entries : list MemTableEntry) (tmp path : bytes) : IO unit :=
  '(sparseIndex, currentOffset) ← write_data tmp 0 0 [] entries;
  let indexStartOffset := currentOffset in
  currentOffset ← write_index tmp currentOffset sparseIndex;
  let indexSize := currentOffset - indexStartOffset in
  _ ← io_wrap "sstable: failed to write footer"
        (file_Write tmp (encode_footer indexStartOffset indexSize));
  _ ← io_wrap "sstable: failed to sync" file_Sync;
  io_wrap "sstable: failed to rename temp file" (os_Rename tmp path).

(** [defer func() { if !success { os.Remove(tmpPath) } }()] *)
Definition remove_on_error (tmp : bytes) (m : IO unit) : IO unit := λ w,
  match m w with
  | (Err e, w) => (Err e, snd (os_Remove tmp w))
  | r => r
  end.

Definition tmp_path (path : bytes) : bytes := path ++ str ".tmp".

Definition WriteSSTable (entries : list MemTableEntry) (path : bytes) : IO unit :=
  if decide (length entries = 0%nat)
  then io_fail (Errorf "sstable: cannot write empty SSTable") else
  let tmp := tmp_path path in
  _ ← io_wrap "sstable: failed to create temp file" (os_Create tmp);
  remove_on_error tmp (write_body entries tmp path).

(** ** The reader *)

(** The parsing loop over the unread part of [indexData]. *)
Fixpoint parse_index (fuel : nat) (rest : bytes) : list indexEntry :=
  match fuel with
  | O => []
  | S fuel =>
      match ReadFull 2 rest with
      | None => []
      | Some (h, rest) =>
          let keyLen := le_get h in
          if len rest <? keyLen + 8 then [] else
          let key := take (Z.to_nat keyLen) rest in
          let rest := drop (Z.to_nat keyLen) rest in
          let offset := int64_of_u64 (le_get (take 8 rest)) in
          mkIndex key offset :: parse_index fuel (drop 8 rest)
      end
  end.

Definition parse_sstable (path file : bytes) : outcome SSTableReader :=
  let fileSize := len file in
  if fileSize <? footerSize
  then Err (Errorf "sstable: file too small to be valid") else
  match ReadAt file footerSize (fileSize - footerSize) with
  | None => Err (Errorf "sstable: failed to read footer")
  | Some footer =>
      let indexOffset := int64_of_u64 (le_get (take 8 footer)) in
      let indexSize := int64_of_u64 (le_get (drop 8 footer)) in
      if indexSize <? 0 then Panic else
      match ReadAt file indexSize indexOffset with
      | None => Err (Errorf "sstable: failed to read index")
      | Some indexData => Ok (mkReader path (parse_index (length indexData) indexData))
      end
  end.

Definition OpenSSTableReader (path : bytes) : IO SSTableReader :=
  file ← io_wrap "sstable: failed to open" (os_Open path);
  io_lift (parse_sstable path file).

(** The binary search of [Get]: [for lo <= hi]. *)
Fixpoint search (fuel : nat) (idx : list indexEntry) (key : bytes) (lo hi startOffset : Z)
    : option Z :=
  match fuel with
  | O => None
  | S fuel =>
      if lo <=? hi then
        let mid := Z.quot (lo + hi) 2 in
        ie ← idx !! Z.to_nat mid;
        match bytes_compare (i_key ie) key with
        | Gt => search fuel idx key lo (mid - 1) startOffset
        | _ => search fuel idx key (mid + 1) hi (i_offset ie)
        end
      else Some startOffset
  end.

(** The record loop of [Get] on the unread part of the file. *)
Fixpoint scan (fuel : nat) (data key : bytes) : slice * bool :=
  match fuel with
  | O => (None, false)
  | S fuel =>
      match ReadFull 7 data with
      | None => (None, false)
      | Some (header, data) =>
          let keyLen := le_get (take 2 header) in
          let valueLen := le_get (take 4 (drop 2 header)) in
          let op := default x00 (header !! 6%nat) in
          match ReadFull keyLen data with
          | None => (None, false)
          | Some (recordKey, data) =>
              match bytes_compare recordKey key with
              | Gt => (None, false)
              | cmp =>
                  match ReadFull valueLen data with
                  | None => (None, false)
                  | Some (recordValue, data) =>
                      match cmp with
                      | Eq => if decide (op = OpDelete) then (None, true)
                              else (Some recordValue, true)
                      | _ => scan fuel data key
                      end
                  end
              end
          end
      end
  end.

(** Every record takes at least 7 bytes, so this fuel is enough. *)
Definition scan_all (data key : bytes) : slice * bool := scan (S (length data)) data key.

(** [Get] on the content of the file. *)
Definition sst_lookup (idx : list indexEntry) (file key : bytes) : outcome (slice * bool) :=
  match idx with
  | [] => Ok (None, false)
  | ie :: _ =>
      startOffset ← or_panic (search (S (length idx)) idx key 0 (len idx - 1) (i_offset ie));
      if startOffset <? 0 then Err (Errorf "sstable: seek failed") else
      Ok (scan_all (drop (Z.to_nat startOffset) file) key)
  end.

Definition sst_Get (r : SSTableReader) (key : bytes) : IO (slice * bool) :=
  if decide (sst_index r = []) then mret (None, false) else
  file ← io_wrap "sstable: failed to open for read" (os_Open (sst_path r));
  io_lift (sst_lookup (sst_index r) file key).

(** ** [readAllSSTableRecords] of compaction.go *)

Definition byte_at (b : bytes) (i : nat) : Z := byte_to_Z (default x00 (b !! i)).

Definition bytesToUint16 (b : bytes) : Z :=
  Z.lor (byte_at b 0) (Z.shiftl (byte_at b 1) 8).

Definition bytesToUint32 (b : bytes) : Z :=
  Z.lor (Z.lor (Z.lor (byte_at b 0) (Z.shiftl (byte_at b 1) 8))
    (Z.shiftl (byte_at b 2) 16)) (Z.shiftl (byte_at b 3) 24).

Definition bytesToUint64 (b : bytes) : Z :=
  Z.lor (Z.lor (Z.lor (Z.lor (Z.lor (Z.lor (Z.lor (byte_at b 0) (Z.shiftl (byte_at b 1) 8))
    (Z.shiftl (byte_at b 2) 16)) (Z.shiftl (byte_at b 3) 24)) (Z.shiftl (byte_at b 4) 32))
    (Z.shiftl (byte_at b 5) 40)) (Z.shiftl (byte_at b 6) 48)) (Z.shiftl (byte_at b 7) 56).

Fixpoint read_all_loop (fuel : nat) (file : bytes) (indexOffset pos : Z) : list ssRecord :=
  match fuel with
  | O => []
  | S fuel =>
      if pos <? indexOffset then
        match ReadAt file 7 pos with
        | None => []
        | Some headerBuf =>
            let pos := pos + 7 in
            let keyLen := bytesToUint16 (take 2 headerBuf) in
            let valueLen := bytesToUint32 (take 4 (drop 2 headerBuf)) in
            let op := default x00 (headerBuf !! 6%nat) in
            match ReadAt file keyLen pos with
            | None => []
            | Some key =>
                let pos := pos + keyLen in
                if 0 <? valueLen then
                  match ReadAt file valueLen pos with
                  | None => []
                  | Some value =>
                      mkSs key (Some value) op
                        :: read_all_loop fuel file indexOffset (pos + valueLen)
                  end
                else mkSs key None op :: read_all_loop fuel file indexOffset pos
            end
        end
      else []
  end.

Definition read_all (file : bytes) : outcome (list ssRecord) :=
  let fileSize := len file in
  if fileSize <? footerSize then Err (Errorf "file too small") else
  match ReadAt file footerSize (fileSize - footerSize) with
  | None => Err (Errorf "read footer")
  | Some footer =>
      let indexOffset := int64_of_u64 (bytesToUint64 (take 8 footer)) in
      Ok (read_all_loop (length file) file indexOffset 0)
  end.

Definition readAllSSTableRecords (path : bytes) : IO (list ssRecord) :=
  file ← os_Open path;
  io_lift (read_all file).

(** ** Specification *)

Definition sst_data (es : list MemTableEntry) : bytes := concat (encode_entry <$> es).

(** The sparse index of the entries from position [i], offset [off]. *)
Fixpoint sparse_index (i : nat) (off : Z) (es : list MemTableEntry) : list indexEntry :=
  match es with
  | [] => []
  | e :: es =>
      let rest := sparse_index (S i) (off + len (encode_entry e)) es in
      if decide (i mod sparseIndexInterval = 0)%nat then mkIndex (e_Key e) off :: rest else rest
  end.

Definition index_bytes (idx : list indexEntry) : bytes := concat (encode_index_entry <$> idx).

(** Index and footer: the part of the file after the data records. *)
Definition sst_tail (es : list MemTableEntry) : bytes :=
  let idx := index_bytes (sparse_index 0 0 es) in
  idx ++ encode_footer (len (sst_data es)) (len idx).

Definition sst_file (es : list MemTableEntry) : bytes := sst_data es ++ sst_tail es.

(** Entries whose lengths fit the format. *)
Definition entry_ok (e : MemTableEntry) : Prop :=
  len (e_Key e) < 2 ^ 16 ∧ len (slice_bytes (e_Value e)) < 2 ^ 32.

(** Index entries whose fields fit the format. *)
Definition index_ok (ie : indexEntry) : Prop :=
  len (i_key ie) < 2 ^ 16 ∧ 0 <= i_offset ie < 2 ^ 63.

(** What a reader answers for a stored version: a nil value comes back as an
    empty slice. *)
Definition sst_answer (v : option version) : slice * bool :=
  match v with
  | None => (None, false)
  | Some (value, op) =>
      if decide (op = OpDelete) then (None, true) else (Some (slice_bytes value), true)
  end.

Definition entry_record (e : MemTableEntry) : ssRecord :=
  mkSs (e_Key e)
    (match slice_bytes (e_Value e) with [] => None | v => Some v end) (e_Op e).

(** The bytes after the data records do not decode as a record: the value
    length read from the first index entry exceeds what is left. *)
Definition tail_guarded (es : list MemTableEntry) : Prop :=
  len (sst_tail es) < le_get (take 4 (drop 2 (sst_tail es))).

(** The answer of a table: the reference lookup when some key is not below
    the searched one, else whatever the scan makes of the index. *)
Definition table_answer (es : list MemTableEntry) (key : bytes) : slice * bool :=
  if decide (Exists (λ e, ¬ bytes_lt (e_Key e) key) es)
  then sst_answer (entries_lookup key es) else scan_all (sst_tail es) key.

(** A table with these entries is stored at the path. *)
Record stored (fs : gmap bytes bytes) (path : bytes) (es : list MemTableEntry) : Prop := {
  st_file : fs !! path = Some (sst_file es);
  st_nonempty : es ≠ [];
  st_ok : Forall entry_ok es;
  st_sorted : entries_sorted es;
  st_size : len (sst_file es) < 2 ^ 63;
}.

(** An open reader over a stored table. *)
Definition table_open (fs : gmap bytes bytes) (r : SSTableReader) (es : list MemTableEntry) : Prop :=
  stored fs (sst_path r) es ∧ sst_index r = sparse_index 0 0 es ∧ tail_guarded es.

Arguments encode_entry : simpl never.
Arguments encode_index_entry : simpl never.

(** A step that only touches the temporary file. *)
Record tmp_step (tmp : bytes) (w w' : world) : Prop := {
  ts_others : ∀ p, p ≠ tmp → w_files w' !! p = w_files w !! p;
  ts_tmp : is_Some (w_files w' !! tmp);
  ts_clock : w_clock w' = w_clock w;
  ts_rng : w_rng w' = w_rng w;
  ts_faults : no_faults w → no_faults w';
}.

(** What [WriteSSTable] may do to the directory, whatever fails. *)
Record write_outcome (es : list MemTableEntry) (path : bytes) (w : world)
    (res : outcome unit) (w' : world) : Prop := {
  wo_others : ∀ p, p ≠ path → p ≠ tmp_path path → w_files w' !! p = w_files w !! p;
  wo_path : w_files w' !! path =
    match res with Ok _ => Some (sst_file es) | _ => w_files w !! path end;
  wo_clock : w_clock w' = w_clock w;
  wo_rng : w_rng w' = w_rng w;
  wo_total : res ≠ Panic;
  wo_ok : no_faults w → res = Ok tt ∧ no_faults w' ∧ w_files w' !! tmp_path path = None;
}.

(** * The hand-written decoders agree with [encoding/binary] *)

Lemma le_get_unfold b bs : le_get (b :: bs) = Z.lor (byte_to_Z b) (Z.shiftl (le_get bs) 8).
Proof. done. Qed.

Ltac decode_bytes b H :=
  repeat (destruct b as [|? b]; cbn in H; try (exfalso; lia));
  rewrite ?le_get_unfold; change (le_get []) with 0;
  rewrite ?Z.shiftl_lor, ?Z.shiftl_shiftl, ?Z.shiftl_0_l, ?Z.lor_0_r, ?Z.lor_assoc by lia;
  reflexivity.

Lemma bytesToUint16_le b : length b = 2%nat → bytesToUint16 b = le_get b.
Proof. intros H. decode_bytes b H. Qed.

Lemma bytesToUint32_le b : length b = 4%nat → bytesToUint32 b = le_get b.
Proof. intros H. decode_bytes b H. Qed.

Lemma bytesToUint64_le b : length b = 8%nat → bytesToUint64 b = le_get b.
Proof. intros H. decode_bytes b H. Qed.

(** * The writer *)

Lemma tmp_step_refl tmp w : is_Some (w_files w !! tmp) → tmp_step tmp w w.
Proof. done. Qed.

Lemma tmp_step_trans tmp w1 w2 w3 : tmp_step tmp w1 w2 → tmp_step tmp w2 w3 → tmp_step tmp w1 w3.
Proof.
  intros [] []. split; try congruence; auto.
  intros p Hp. rewrite ts_others1 by done. auto.
Qed.

Lemma file_Write_step tmp d old w res w' :
  file_Write tmp d w = (res, w') → w_files w !! tmp = Some old →
  tmp_step tmp w w'
  ∧ match res with
    | Ok _ => w_files w' !! tmp = Some (old ++ d) | Err _ => True | Panic => False
    end
  ∧ (no_faults w → res = Ok tt).
Proof.
  intros E Hold. unfold file_Write, draw in E.
  assert (Hset : ∀ d fs, (no_faults w → fs = []) →
    tmp_step tmp w (mkWorld (<[tmp := d]> (w_files w)) (w_clock w) (w_rng w) fs)).
  { intros d' fs Hfs. split; try done; cbn.
    - intros p Hp. by rewrite lookup_insert_ne.
    - rewrite lookup_insert_eq. eauto. }
  unfold no_faults in *.
  destruct (w_faults w) as [|[n|] fs] eqn:Ef; cbn in E; rewrite Hold in E; cbn in E;
    unfold set_files in E; cbn in E; injection E as <- <-; cbn;
    rewrite ?lookup_insert_eq; (split; [apply Hset; congruence|split; [done|try done]]).
Qed.

Lemma write_data_step tmp es : ∀ i off idx w res w' old,
  write_data tmp i off idx es w = (res, w') → w_files w !! tmp = Some old →
  tmp_step tmp w w'
  ∧ match res with
    | Ok (idx', off') => idx' = idx ++ sparse_index i off es ∧ off' = off + len (sst_data es)
                         ∧ w_files w' !! tmp = Some (old ++ sst_data es)
    | Err _ => True | Panic => False
    end
  ∧ (no_faults w → ∃ a, res = Ok a).
Proof.
  induction es as [|e es IH]; intros i off idx w res w' old E Hold; cbn [write_data] in E.
  { injection E as <- <-. split; [by apply tmp_step_refl|]. cbn.
    rewrite !app_nil_r, len_nil, Z.add_0_r. eauto. }
  unfold mbind, io_bind, io_wrap in E.
  destruct (file_Write tmp (encode_entry e) w) as [r1 w1] eqn:E1.
  destruct (file_Write_step _ _ _ _ _ _ E1 Hold) as (Hs1 & Hr1 & Hn1).
  destruct r1 as [[]|err|]; [| |done].
  - destruct (IH _ _ _ _ _ _ _ E Hr1) as (Hs & Hr & Hn).
    split; [by eapply tmp_step_trans|]. split; [|intros; by apply Hn, Hs1].
    destruct res as [[idx' off']|?|]; [|done|done]. destruct Hr as (-> & -> & Hf).
    unfold sst_data in *. cbn [fmap list_fmap concat sparse_index].
    rewrite len_app. repeat split; [|lia|by rewrite Hf, <- app_assoc].
    case_decide; [by rewrite <- app_assoc|done].
  - injection E as <- <-. split; [done|]. split; [done|]. intros Hw. by apply Hn1 in Hw.
Qed.

Lemma write_index_step tmp idx : ∀ off w res w' old,
  write_index tmp off idx w = (res, w') → w_files w !! tmp = Some old →
  tmp_step tmp w w'
  ∧ match res with
    | Ok off' => off' = off + len (index_bytes idx)
                 ∧ w_files w' !! tmp = Some (old ++ index_bytes idx)
    | Err _ => True | Panic => False
    end
  ∧ (no_faults w → ∃ a, res = Ok a).
Proof.
  induction idx as [|ie idx IH]; intros off w res w' old E Hold; cbn [write_index] in E.
  { injection E as <- <-. split; [by apply tmp_step_refl|]. cbn.
    rewrite !app_nil_r, len_nil, Z.add_0_r. eauto. }
  unfold mbind, io_bind, io_wrap in E.
  destruct (file_Write tmp (encode_index_entry ie) w) as [r1 w1] eqn:E1.
  destruct (file_Write_step _ _ _ _ _ _ E1 Hold) as (Hs1 & Hr1 & Hn1).
  destruct r1 as [[]|err|]; [| |done].
  - destruct (IH _ _ _ _ _ E Hr1) as (Hs & Hr & Hn).
    split; [by eapply tmp_step_trans|]. split; [|intros; by apply Hn, Hs1].
    destruct res as [off'|?|]; [|done|done]. destruct Hr as (-> & Hf).
    unfold index_bytes in *. cbn [fmap list_fmap concat].
    rewrite len_app. split; [lia|by rewrite Hf, <- app_assoc].
  - injection E as <- <-. split; [done|]. split; [done|]. intros Hw. by apply Hn1 in Hw.
Qed.

Lemma tmp_path_ne path : tmp_path path ≠ path.
Proof.
  unfold tmp_path. intros H%(f_equal length). rewrite length_app in H. cbn in H. lia.
Qed.

Lemma file_Sync_step tmp w res w' :
  file_Sync w = (res, w') → is_Some (w_files w !! tmp) →
  tmp_step tmp w w' ∧ w_files w' = w_files w ∧ res ≠ Panic ∧ (no_faults w → res = Ok tt).
Proof.
  intros E Hs. unfold file_Sync, draw in E. unfold no_faults.
  destruct (w_faults w) as [|[n|] fs] eqn:Ef; cbn in E; injection E as <- <-;
    (split; [split; unfold no_faults; cbn; (done || congruence)|]); done.
Qed.

Lemma os_Rename_step tmp path data w res w' :
  os_Rename tmp path w = (res, w') → w_files w !! tmp = Some data →
  w_clock w' = w_clock w ∧ w_rng w' = w_rng w
  ∧ match res with
    | Ok _ => w_files w' = <[path := data]> (delete tmp (w_files w))
    | Err _ => w_files w' = w_files w
    | Panic => False
    end
  ∧ (no_faults w → res = Ok tt ∧ no_faults w').
Proof.
  intros E Hd. unfold os_Rename, draw in E. unfold no_faults.
  destruct (w_faults w) as [|[n|] fs] eqn:Ef; cbn in E; rewrite ?Hd in E;
    injection E as <- <-; repeat split; done.
Qed.

Lemma os_Remove_step path w res w' :
  os_Remove path w = (res, w') →
  w_clock w' = w_clock w ∧ w_rng w' = w_rng w
  ∧ (∀ p, p ≠ path → w_files w' !! p = w_files w !! p).
Proof.
  intros E. unfold os_Remove, draw in E.
  destruct (w_faults w) as [|[n|] fs]; cbn in E; try (destruct (w_files w !! path));
    injection E as <- <-; repeat split; try done; intros p Hp; cbn; by rewrite lookup_delete_ne.
Qed.

Lemma write_body_step es tmp path w res w' :
  tmp = tmp_path path → w_files w !! tmp = Some [] →
  write_body es tmp path w = (res, w') → write_outcome es path w res w'.
Proof.
  intros -> H0 E. pose proof (tmp_path_ne path) as Hne.
  unfold write_body, mbind, io_bind, io_wrap in E.
  destruct (write_data (tmp_path path) 0 0 [] es w) as [r1 w1] eqn:E1.
  destruct (write_data_step _ _ _ _ _ _ _ _ _ E1 H0) as (S1 & R1 & N1).
  assert (Hfail : ∀ e w2, tmp_step (tmp_path path) w w2 → ¬ no_faults w →
    write_outcome es path w (Err e) w2).
  { intros e w2 [] Hf. split; auto; try done. }
  destruct r1 as [[idx off]|e1|]; [|injection E as <- <-; apply Hfail; [done|];
    intros Hw; by destruct (N1 Hw)|done].
  destruct R1 as (-> & -> & F1). cbn [app] in *.
  set (off := 0 + len (sst_data es)) in *. set (idx := sparse_index 0 0 es) in *.
  destruct (write_index (tmp_path path) off idx w1) as [r2 w2] eqn:E2.
  destruct (write_index_step _ _ _ _ _ _ _ E2 F1) as (S2 & R2 & N2).
  pose proof (tmp_step_trans _ _ _ _ S1 S2) as S12.
  destruct r2 as [off2|e2|]; [|injection E as <- <-; apply Hfail; [done|];
    intros Hw; by destruct (N2 (ts_faults _ _ _ S1 Hw))|done].
  destruct R2 as (-> & F2).
  destruct (file_Write (tmp_path path) _ w2) as [r3 w3] eqn:E3.
  destruct (file_Write_step _ _ _ _ _ _ E3 F2) as (S3 & R3 & N3).
  pose proof (tmp_step_trans _ _ _ _ S12 S3) as S13.
  destruct r3 as [[]|e3|]; [|injection E as <- <-; apply Hfail; [done|];
    intros Hw; by specialize (N3 (ts_faults _ _ _ S12 Hw))|done].
  destruct (file_Sync w3) as [r4 w4] eqn:E4.
  destruct (file_Sync_step (tmp_path path) _ _ _ E4 (ts_tmp _ _ _ S13)) as (S4 & F4 & P4 & N4).
  pose proof (tmp_step_trans _ _ _ _ S13 S4) as S14.
  destruct r4 as [[]|e4|]; [|injection E as <- <-; apply Hfail; [done|];
    intros Hw; by specialize (N4 (ts_faults _ _ _ S13 Hw))|done].
  destruct (os_Rename (tmp_path path) path w4) as [r5 w5] eqn:E5.
  rewrite <- F4 in R3.
  destruct (os_Rename_step _ _ _ _ _ _ E5 R3) as (C5 & G5 & F5 & N5).
  destruct r5 as [[]|e5|]; [|injection E as <- <-; split|done]; try done.
  - injection E as <- <-. split; try done.
    + intros p Hp Ht. rewrite F5, lookup_insert_ne, lookup_delete_ne by done.
      by apply S14.
    + rewrite F5, lookup_insert_eq. f_equal. cbn. unfold sst_file, sst_tail. fold idx.
      rewrite <- app_assoc. do 3 f_equal; subst off; lia.
    + rewrite C5. apply S14.
    + rewrite G5. apply S14.
    + intros Hw. destruct (N5 (ts_faults _ _ _ S14 Hw)). repeat split; try done.
      rewrite F5, lookup_insert_ne, lookup_delete_eq by done. done.
  - intros p Hp Ht. rewrite F5. by apply S14.
  - rewrite F5. apply S14. done.
  - rewrite C5. apply S14.
  - rewrite G5. apply S14.
  - intros Hw. by destruct (N5 (ts_faults _ _ _ S14 Hw)).
Qed.

Lemma os_Create_step tmp w res w' :
  os_Create tmp w = (res, w') →
  match res with
  | Ok _ => tmp_step tmp w w' ∧ w_files w' !! tmp = Some []
  | Err _ => ¬ no_faults w ∧ w_files w' = w_files w ∧ w_clock w' = w_clock w ∧ w_rng w' = w_rng w
  | Panic => False
  end.
Proof.
  intros E. unfold os_Create, draw in E.
  assert (Hset : ∀ fs, (no_faults w → fs = []) →
    tmp_step tmp w (mkWorld (<[tmp := []]> (w_files w)) (w_clock w) (w_rng w) fs)).
  { intros fs Hfs. split; try done; cbn.
    - intros p Hp. by rewrite lookup_insert_ne.
    - rewrite lookup_insert_eq. eauto. }
  unfold no_faults in *.
  destruct (w_faults w) as [|[n|] fs] eqn:Ef; cbn in E; injection E as <- <-;
    unfold set_files; cbn; rewrite ?lookup_insert_eq; try (split; [apply Hset; congruence|done]).
  repeat split; done.
Qed.

Lemma WriteSSTable_outcome es path w res w' :
  es ≠ [] → WriteSSTable es path w = (res, w') → write_outcome es path w res w'.
Proof.
  intros Hes E. unfold WriteSSTable in E.
  rewrite decide_False in E by (by destruct es).
  unfold mbind, io_bind, io_wrap in E.
  destruct (os_Create (tmp_path path) w) as [r1 w1] eqn:E1.
  pose proof (os_Create_step _ _ _ _ E1) as R1.
  destruct r1 as [[]|e1|]; [| |done].
  - destruct R1 as [S1 F1]. unfold remove_on_error in E.
    destruct (write_body es (tmp_path path) path w1) as [r2 w2] eqn:E2.
    pose proof (write_body_step _ _ _ _ _ _ eq_refl F1 E2) as [].
    pose proof (tmp_path_ne path) as Hne. destruct S1.
    assert (H1 : ∀ p, p ≠ tmp_path path → w_files w1 !! p = w_files w !! p) by auto.
    destruct r2 as [[]|e2|]; [| |done].
    + injection E as <- <-. split; try congruence; auto.
      intros p Hp Ht. rewrite wo_others0 by done. auto.
    + destruct (os_Remove (tmp_path path) w2) as [r3 w3] eqn:E3. cbn in E. injection E as <- <-.
      destruct (os_Remove_step _ _ _ _ E3) as (C3 & G3 & F3).
      split; try congruence; try done.
      * intros p Hp Ht. rewrite F3, wo_others0 by done. auto.
      * rewrite F3 by done. rewrite wo_path0. auto.
      * intros Hw. destruct (wo_ok0 (ts_faults0 Hw)) as [? _]. done.
  - destruct R1 as (Hf & HF & HC & HR). injection E as <- <-.
    split; try done; intros; by rewrite HF.
Qed.

(** * The sparse index *)

Lemma int64_small z : 0 <= z < 2 ^ 63 → int64_of_u64 (u64 z) = z.
Proof.
  intros H. unfold int64_of_u64, u64. rewrite Z.mod_small by lia.
  by rewrite (proj2 (Z.ltb_lt _ _)) by lia.
Qed.

Lemma sst_data_app a b : sst_data (a ++ b) = sst_data a ++ sst_data b.
Proof. unfold sst_data. by rewrite fmap_app, concat_app. Qed.

Lemma sst_data_cons e es : sst_data (e :: es) = encode_entry e ++ sst_data es.
Proof. done. Qed.

(** Every index entry points at the record of its key. *)
Lemma sparse_index_elem es ie : ∀ pre,
  ie ∈ sparse_index (length pre) (len (sst_data pre)) es →
  ∃ l e r, es = l ++ e :: r ∧ i_key ie = e_Key e ∧ i_offset ie = len (sst_data (pre ++ l)).
Proof.
  induction es as [|e es IH]; intros pre H; cbn in H; [by apply not_elem_of_nil in H|].
  assert (Hrest : ie ∈ sparse_index (S (length pre)) (len (sst_data pre) + len (encode_entry e)) es →
    ∃ l e' r, e :: es = l ++ e' :: r ∧ i_key ie = e_Key e' ∧ i_offset ie = len (sst_data (pre ++ l))).
  { intros Hin. destruct (IH (pre ++ [e])) as (l & e' & r & -> & Hk & Ho).
    - rewrite length_app, sst_data_app, len_app; cbn. rewrite Nat.add_1_r, app_nil_r. done.
    - exists (e :: l), e', r. rewrite <- app_assoc in Ho. done. }
  case_decide; [|auto]. apply elem_of_cons in H as [->|H]; [|auto].
  exists [], e, es. rewrite app_nil_r. done.
Qed.

Lemma sparse_index_keys_above es k : ∀ i off,
  (∀ e, e ∈ es → bytes_lt k (e_Key e)) →
  ∀ ie, ie ∈ sparse_index i off es → bytes_lt k (i_key ie).
Proof.
  induction es as [|e es IH]; intros i off H ie Hin; cbn in Hin; [by apply not_elem_of_nil in Hin|].
  assert (Hes : ∀ x, x ∈ es → bytes_lt k (e_Key x)) by (intros; apply H; by right).
  case_decide; [apply elem_of_cons in Hin as [->|Hin]; [apply H; left|]|]; eauto.
Qed.

Lemma sparse_index_sorted es : ∀ i off,
  entries_sorted es → StronglySorted bytes_lt (i_key <$> sparse_index i off es).
Proof.
  induction es as [|e es IH]; intros i off Hs; cbn; [constructor|].
  apply entries_sorted_cons in Hs as [Hs Hlt]. case_decide; [|auto].
  constructor; [auto|]. apply Forall_forall.
  intros k (ie & -> & Hin)%list_elem_of_fmap. by eapply sparse_index_keys_above.
Qed.

Lemma sparse_index_head e es off :
  sparse_index 0 off (e :: es) = mkIndex (e_Key e) off :: sparse_index 1 (off + len (encode_entry e)) es.
Proof. done. Qed.

Lemma parse_index_ok idx : ∀ fuel,
  Forall index_ok idx → (length (index_bytes idx) ≤ fuel)%nat →
  parse_index fuel (index_bytes idx) = idx.
Proof.
  induction idx as [|ie idx IH]; intros fuel Hok Hfuel; [by destruct fuel|].
  inversion Hok as [|? ? [Hk Ho] Hoks]; subst.
  change (index_bytes (ie :: idx)) with (encode_index_entry ie ++ index_bytes idx) in *.
  unfold encode_index_entry in *. rewrite <- !app_assoc in *.
  rewrite !length_app, !length_le_put in Hfuel.
  destruct fuel as [|fuel]; [lia|]. cbn [parse_index].
  pose proof (len_nonneg (i_key ie)).
  rewrite ReadFull_app by (by rewrite len_le_put).
  rewrite le_get_put_u16, u16_small by lia.
  rewrite (proj2 (Z.ltb_ge _ _)).
  2: { rewrite !len_app, len_le_put.
       pose proof (len_nonneg (index_bytes idx)). lia. }
  rewrite take_len, drop_len.
  rewrite take_app_length', drop_app_length' by (by rewrite length_le_put).
  rewrite le_get_put_u64, int64_small by done.
  rewrite IH by (done || lia). by destruct ie.
Qed.

(** * Opening a table that was written *)

Lemma sparse_index_ok es :
  Forall entry_ok es → len (sst_data es) < 2 ^ 63 → Forall index_ok (sparse_index 0 0 es).
Proof.
  intros Hok Hlen. apply Forall_forall. intros ie Hin.
  destruct (sparse_index_elem es ie []) as (l & e & r & -> & Hk & Ho); [done|].
  rewrite Forall_app, Forall_cons in Hok. destruct Hok as (_ & [Hke _] & _).
  rewrite sst_data_app, len_app in Hlen. cbn [app] in Ho.
  pose proof (len_nonneg (sst_data l)). pose proof (len_nonneg (sst_data (e :: r))).
  split; [by rewrite Hk|lia].
Qed.

Lemma len_encode_footer a b : len (encode_footer a b) = footerSize.
Proof. unfold encode_footer. by rewrite len_app, !len_le_put. Qed.

Lemma len_sst_file es :
  len (sst_file es) = len (sst_data es) + len (index_bytes (sparse_index 0 0 es)) + 16.
Proof.
  unfold sst_file, sst_tail. rewrite !len_app, len_encode_footer. unfold footerSize. lia.
Qed.

(** Both readers start by decoding the footer. *)
Lemma sst_file_footer es :
  len (sst_file es) < 2 ^ 63 →
  let idx := index_bytes (sparse_index 0 0 es) in
  let footer := encode_footer (len (sst_data es)) (len idx) in
  footerSize <= len (sst_file es)
  ∧ ReadAt (sst_file es) footerSize (len (sst_file es) - footerSize) = Some footer
  ∧ take 8 footer = le_put 8 (u64 (len (sst_data es)))
  ∧ drop 8 footer = le_put 8 (u64 (len idx))
  ∧ 0 <= len (sst_data es) < 2 ^ 63 ∧ 0 <= len idx < 2 ^ 63.
Proof.
  intros Hlt idx footer. rewrite len_sst_file in *. fold idx in Hlt |- *.
  pose proof (len_nonneg (sst_data es)). pose proof (len_nonneg idx). unfold footerSize.
  split; [lia|]. split; [|repeat split; try lia].
  - unfold sst_file, sst_tail. fold idx. fold footer.
    pose proof (ReadAt_app (sst_data es ++ idx) footer [] 16
      (len (sst_data es) + len idx + 16 - 16)) as Hr.
    rewrite app_nil_r, <- app_assoc in Hr. apply Hr; [rewrite len_app; lia|].
    symmetry. apply len_encode_footer.
Qed.

Lemma parse_sstable_ok path es :
  Forall entry_ok es → len (sst_file es) < 2 ^ 63 →
  parse_sstable path (sst_file es) = Ok (mkReader path (sparse_index 0 0 es)).
Proof.
  intros Hok Hlt. destruct (sst_file_footer es Hlt) as (Hsz & Hf & Ht & Hd & Ha & Hb).
  unfold parse_sstable. rewrite (proj2 (Z.ltb_ge _ _)) by done. rewrite Hf, Ht, Hd.
  rewrite !le_get_put_u64, !int64_small by done.
  rewrite (proj2 (Z.ltb_ge _ _)) by lia.
  unfold sst_file at 1, sst_tail. rewrite ReadAt_app by done.
  rewrite parse_index_ok; [done|apply sparse_index_ok; [done|lia]|done].
Qed.

(** * The binary search *)

Lemma sorted_lookup_lt (idx : list indexEntry) j j' a b :
  StronglySorted bytes_lt (i_key <$> idx) →
  idx !! j = Some a → idx !! j' = Some b → (j < j')%nat → bytes_lt (i_key a) (i_key b).
Proof.
  revert j j'. induction idx as [|x idx IH]; intros j j' Hs Ha Hb Hj; [done|].
  cbn in Hs. apply StronglySorted_inv in Hs as [Hs Hf]. destruct j' as [|j']; [lia|].
  destruct j as [|j]; cbn in Ha, Hb; [|by eapply (IH j j'); eauto; lia].
  injection Ha as ->. rewrite Forall_forall in Hf. apply Hf.
  apply list_elem_of_fmap. exists b. split; [done|]. by eapply list_elem_of_lookup_2.
Qed.

(** The loop keeps a block [cur] that starts at or below the key (or is the
    first), with every block above [hi] beyond the key. *)
Lemma search_spec idx key : ∀ fuel lo hi cur ie,
  StronglySorted bytes_lt (i_key <$> idx) →
  idx !! cur = Some ie →
  (cur = 0%nat ∧ lo = 0 ∨ lo = Z.of_nat cur + 1 ∧ ¬ bytes_lt key (i_key ie)) →
  hi < len idx → lo <= hi + 1 → (Z.to_nat (hi + 1 - lo) < fuel)%nat →
  (∀ j x, idx !! j = Some x → hi < Z.of_nat j → bytes_lt key (i_key x)) →
  ∃ j x, search fuel idx key lo hi (i_offset ie) = Some (i_offset x)
    ∧ idx !! j = Some x
    ∧ (j = 0%nat ∨ ¬ bytes_lt key (i_key x))
    ∧ (∀ j' y, idx !! j' = Some y → (j < j')%nat → bytes_lt key (i_key y)).
Proof.
  induction fuel as [|fuel IH]; intros lo hi cur ie Hs Hcur Hlo Hhi Hle Hfuel Habove; [lia|].
  cbn [search]. destruct (Z.leb_spec lo hi) as [Hlh|Hlh].
  - assert (Hmid : lo <= Z.quot (lo + hi) 2 <= hi).
    { rewrite Z.quot_div_nonneg by lia. split.
      - apply Z.div_le_lower_bound; lia.
      - apply Z.div_le_upper_bound; lia. }
    set (mid := Z.quot (lo + hi) 2) in *. clearbody mid.
    assert (Hm : (Z.to_nat mid < length idx)%nat) by (unfold len in Hhi; lia).
    destruct (lookup_lt_is_Some_2 _ _ Hm) as [x Hx]. rewrite Hx; cbn [mbind option_bind].
    assert (Hle_case : ¬ bytes_lt key (i_key x) →
      ∃ j y, search fuel idx key (mid + 1) hi (i_offset x) = Some (i_offset y)
        ∧ idx !! j = Some y ∧ (j = 0%nat ∨ ¬ bytes_lt key (i_key y))
        ∧ (∀ j' z, idx !! j' = Some z → (j < j')%nat → bytes_lt key (i_key z))).
    { intros Hge. apply (IH _ _ (Z.to_nat mid)); try done; try lia. right. split; [lia|done]. }
    destruct (bytes_compare (i_key x) key) eqn:Ec.
    + apply bytes_compare_eq in Ec. apply Hle_case. rewrite Ec. apply bytes_lt_irrefl.
    + apply Hle_case. by apply bytes_lt_asym.
    + apply bytes_compare_gt in Ec. apply (IH _ _ cur); try done; try lia.
      intros j y Hy Hj. destruct (decide (j = Z.to_nat mid)) as [->|Hne]; [congruence|].
      eapply bytes_lt_trans; [exact Ec|]. eapply sorted_lookup_lt; eauto. lia.
  - exists cur, ie. repeat split; [done|tauto|]. intros j' y Hy Hj. apply (Habove j'); [done|lia].
Qed.

(** * The scan *)

Lemma ReadFull_Some n data a b :
  ReadFull n data = Some (a, b) → 0 <= n →
  data = a ++ b ∧ len a = n ∧ (length b ≤ length data)%nat.
Proof.
  unfold ReadFull. destruct (Z.leb_spec n (len data)); [|done].
  intros [= <- <-] Hn. rewrite firstn_skipn. unfold len in *.
  rewrite length_take, length_drop. repeat split; lia.
Qed.

Lemma scan_fuel key : ∀ fuel1 fuel2 data,
  (length data < fuel1)%nat → (length data < fuel2)%nat →
  scan fuel1 data key = scan fuel2 data key.
Proof.
  induction fuel1 as [|f1 IH]; intros [|f2] data H1 H2; try lia. cbn [scan].
  destruct (ReadFull 7 data) as [[h d1]|] eqn:E1; [|done].
  apply ReadFull_Some in E1 as (Ed & Hl & _); [|lia].
  assert (Hd : (length d1 < length data)%nat).
  { rewrite Ed, length_app. unfold len in Hl. lia. }
  set (kl := le_get (take 2 h)). set (vl := le_get (take 4 (drop 2 h))).
  assert (0 <= kl) by apply le_get_range. assert (0 <= vl) by apply le_get_range.
  destruct (ReadFull kl d1) as [[k d2]|] eqn:E2; [|done].
  apply ReadFull_Some in E2 as (_ & _ & Hd2); [|done].
  destruct (bytes_compare k key); try done;
    (destruct (ReadFull vl d2) as [[v d3]|] eqn:E3; [|done]);
    apply ReadFull_Some in E3 as (_ & _ & Hd3); try done.
  apply IH; lia.
Qed.

Lemma encode_entry_split e :
  encode_entry e =
    (le_put 2 (u16 (len (e_Key e))) ++ le_put 4 (u32 (len (slice_bytes (e_Value e)))) ++ [e_Op e])
    ++ e_Key e ++ slice_bytes (e_Value e).
Proof. unfold encode_entry. by rewrite <- !app_assoc. Qed.

Lemma entry_header_fields k v op :
  let header := le_put 2 k ++ le_put 4 v ++ [op] in
  length header = 7%nat ∧ take 2 header = le_put 2 k
  ∧ take 4 (drop 2 header) = le_put 4 v ∧ header !! 6%nat = Some op.
Proof. repeat split; reflexivity. Qed.

(** One step of the scan over a stored record. *)
Lemma scan_record e rest key :
  entry_ok e →
  scan_all (encode_entry e ++ rest) key =
    match bytes_compare (e_Key e) key with
    | Gt => (None, false)
    | Eq => sst_answer (Some (entry_version e))
    | Lt => scan_all rest key
    end.
Proof.
  intros [Hk Hv]. pose proof (len_nonneg (e_Key e)). pose proof (len_nonneg (slice_bytes (e_Value e))).
  unfold scan_all at 1. rewrite encode_entry_split, <- app_assoc.
  destruct (entry_header_fields (u16 (len (e_Key e))) (u32 (len (slice_bytes (e_Value e)))) (e_Op e))
    as (Hl & Hkl & Hvl & Hop).
  set (header := le_put 2 _ ++ _ ++ _) in *. cbn [scan].
  rewrite ReadFull_app by (unfold len; by rewrite Hl).
  rewrite Hkl, Hvl, Hop, le_get_put_u16, le_get_put_u32, u16_small, u32_small by lia.
  rewrite <- app_assoc, ReadFull_app, ReadFull_app by done.
  destruct (bytes_compare (e_Key e) key); [done| |done].
  apply scan_fuel; rewrite ?length_app, ?Hl; lia.
Qed.

Lemma sst_answer_None : sst_answer None = (None, false).
Proof. done. Qed.

(** The scan over sorted records: it answers like the reference lookup as
    long as some key is not below the searched one, and otherwise runs into
    the bytes that follow. *)
Lemma scan_entries es tail key :
  Forall entry_ok es → entries_sorted es →
  scan_all (sst_data es ++ tail) key =
    if decide (Exists (λ e, ¬ bytes_lt (e_Key e) key) es)
    then sst_answer (entries_lookup key es) else scan_all tail key.
Proof.
  induction es as [|e es IH]; intros Hok Hs.
  { rewrite decide_False; [done|]. intros H. by apply Exists_nil in H. }
  inversion Hok as [|? ? He Hes]; subst.
  rewrite sst_data_cons, <- app_assoc, scan_record by done.
  destruct (bytes_compare (e_Key e) key) eqn:Ec.
  - apply bytes_compare_eq in Ec. rewrite decide_True.
    + cbn [entries_lookup]. by rewrite decide_True.
    + apply Exists_cons. left. rewrite Ec. apply bytes_lt_irrefl.
  - assert (Hne : e_Key e ≠ key) by (by apply bytes_lt_ne).
    apply entries_sorted_cons in Hs as [Hs _]. rewrite IH by done.
    cbn [entries_lookup]. rewrite (decide_False (P := e_Key e = key)) by done.
    apply decide_ext. rewrite Exists_cons. unfold bytes_lt. rewrite Ec. tauto.
  - apply bytes_compare_gt in Ec.
    rewrite decide_True, (entries_lookup_below key e es Hs Ec); [done|].
    apply Exists_cons. left. by apply bytes_lt_asym.
Qed.

(** Bytes whose second field, read as a value length, exceeds what is there
    stop the scan. *)
Lemma scan_guarded data key :
  len data < le_get (take 4 (drop 2 data)) → scan_all data key = (None, false).
Proof.
  intros Hg. unfold scan_all. cbn [scan].
  destruct (ReadFull 7 data) as [[h d1]|] eqn:E1; [|done].
  assert (Hh : take 4 (drop 2 h) = take 4 (drop 2 data)).
  { unfold ReadFull in E1. destruct (7 <=? len data); [|done]. injection E1 as <- <-.
    change (Z.to_nat 7) with 7%nat. rewrite !take_drop_commute, take_take. done. }
  apply ReadFull_Some in E1 as (Ed & Hl & Hd1); [|lia].
  rewrite Hh. set (kl := le_get (take 2 h)). assert (0 <= kl) by apply le_get_range.
  destruct (ReadFull kl d1) as [[k d2]|] eqn:E2; [|done].
  apply ReadFull_Some in E2 as (_ & _ & Hd2); [|done].
  rewrite (ReadFull_short d2) by (unfold len in *; lia).
  by destruct (bytes_compare k key).
Qed.

(** * The whole lookup *)

Lemma encode_entry_len e : len (encode_entry e) = 7 + len (e_Key e) + len (slice_bytes (e_Value e)).
Proof. unfold encode_entry. len_norm. lia. Qed.

Lemma sst_data_empty l : len (sst_data l) = 0 → l = [].
Proof.
  destruct l as [|e l]; [done|]. rewrite sst_data_cons, len_app, encode_entry_len.
  pose proof (len_nonneg (e_Key e)). pose proof (len_nonneg (slice_bytes (e_Value e))).
  pose proof (len_nonneg (sst_data l)). lia.
Qed.

Lemma entries_sorted_app l r :
  entries_sorted (l ++ r) →
  entries_sorted r ∧ (∀ x y, x ∈ l → y ∈ r → bytes_lt (e_Key x) (e_Key y)).
Proof.
  induction l as [|e l IH]; cbn.
  { intros Hs. split; [done|]. intros x y Hx. by apply not_elem_of_nil in Hx. }
  intros [Hs Hlt]%entries_sorted_cons. destruct (IH Hs) as [Hr Hlr]. split; [done|].
  intros x y [->|Hx]%elem_of_cons Hy; [|auto]. apply Hlt, elem_of_app. by right.
Qed.

Lemma entries_lookup_app key l r :
  entries_lookup key (l ++ r) =
    match entries_lookup key l with Some v => Some v | None => entries_lookup key r end.
Proof. induction l as [|e l IH]; cbn; [done|]. by case_decide. Qed.

(** Skipping records that are all below the key does not change the answer. *)
Lemma table_answer_skip l r key :
  (∀ x, x ∈ l → bytes_lt (e_Key x) key) →
  (Exists (λ e, ¬ bytes_lt (e_Key e) key) (l ++ r) ↔ Exists (λ e, ¬ bytes_lt (e_Key e) key) r)
  ∧ entries_lookup key (l ++ r) = entries_lookup key r.
Proof.
  intros Hl. split.
  - rewrite Exists_app. split; [|tauto]. intros [H|H]; [|done].
    apply Exists_exists in H as (x & Hx & Hn). by apply Hl in Hx.
  - rewrite entries_lookup_app.
    replace (entries_lookup key l) with (@None version); [done|]. symmetry.
    apply entries_lookup_None. intros x Hx. by apply bytes_lt_ne, Hl.
Qed.

Lemma sst_lookup_spec es key :
  es ≠ [] → Forall entry_ok es → entries_sorted es →
  sst_lookup (sparse_index 0 0 es) (sst_file es) key = Ok (table_answer es key).
Proof.
  intros Hne Hok Hs. destruct es as [|e0 es0]; [done|].
  set (es := e0 :: es0) in *. set (idx := sparse_index 0 0 es) in *.
  assert (Hidx : ∃ t, idx = mkIndex (e_Key e0) 0 :: t) by (eexists; apply sparse_index_head).
  destruct Hidx as [t Hidx]. unfold sst_lookup. rewrite Hidx. rewrite <- Hidx.
  destruct (search_spec idx key (S (length idx)) 0 (len idx - 1) 0 (mkIndex (e_Key e0) 0))
    as (j & x & -> & Hj & Hj0 & _).
  - by apply sparse_index_sorted.
  - by rewrite Hidx.
  - by left.
  - lia.
  - unfold len. lia.
  - unfold len. lia.
  - intros i y Hi Hlt. apply lookup_lt_Some in Hi. unfold len in Hlt. lia.
  - destruct (sparse_index_elem es x []) as (l & e & r & Hes & Hk & Ho);
      [by eapply list_elem_of_lookup_2|]. cbn [app] in Ho.
    assert (Hlow : ∀ y, y ∈ l → bytes_lt (e_Key y) key).
    { destruct Hj0 as [->|Hge].
      - rewrite Hidx in Hj. cbn in Hj. injection Hj as <-. cbn in Ho.
        rewrite (sst_data_empty l) by done. intros y Hy. by apply not_elem_of_nil in Hy.
      - intros y Hy. rewrite Hes in Hs. apply entries_sorted_app in Hs as [_ Hlr].
        assert (Hye : bytes_lt (e_Key y) (e_Key e)) by (apply Hlr; [done|left]).
        rewrite Hk in Hge. destruct (bytes_lt_total (e_Key e) key) as [H|[H|H]];
          [eauto with granite|congruence|done]. }
    cbn [or_panic mbind outcome_bind]. pose proof (len_nonneg (sst_data l)).
    rewrite (proj2 (Z.ltb_ge _ _)) by lia. f_equal. rewrite Ho.
    unfold sst_file, table_answer. rewrite Hes at 1. rewrite sst_data_app, <- app_assoc, drop_len.
    destruct (table_answer_skip l (e :: r) key Hlow) as [Hex Hlk].
    rewrite scan_entries.
    + rewrite <- Hes in Hex, Hlk. rewrite Hlk. apply decide_ext. tauto.
    + rewrite Hes in Hok. by apply Forall_app in Hok as [_ ?].
    + rewrite Hes in Hs. by apply entries_sorted_app in Hs as [? _].
Qed.

(** * Reading all records *)

Lemma read_all_loop_ok file indexOffset es : ∀ pre post fuel,
  Forall entry_ok es → file = pre ++ sst_data es ++ post →
  indexOffset = len pre + len (sst_data es) → (length (sst_data es) ≤ fuel)%nat →
  read_all_loop fuel file indexOffset (len pre) = entry_record <$> es.
Proof.
  induction es as [|e es IH]; intros pre post fuel Hok Hfile Hoff Hfuel.
  { destruct fuel; [done|]. cbn [read_all_loop]. rewrite (proj2 (Z.ltb_ge _ _)); [done|].
    rewrite Hoff. cbn. rewrite len_nil. lia. }
  apply Forall_cons in Hok as [[Hk Hv] Hes].
  pose proof (len_nonneg (e_Key e)) as Hk0. pose proof (len_nonneg (slice_bytes (e_Value e))) as Hv0.
  rewrite sst_data_cons in *. rewrite length_app in Hfuel.
  pose proof (encode_entry_len e) as Hle. rewrite len_app in Hoff.
  destruct fuel as [|fuel]; [unfold len in *; lia|].
  rewrite <- (app_assoc (encode_entry e)) in Hfile.
  assert (Hnext : ∀ fuel', (length (sst_data es) ≤ fuel')%nat →
    read_all_loop fuel' file indexOffset
      (len pre + 7 + len (e_Key e) + len (slice_bytes (e_Value e))) = entry_record <$> es).
  { intros fuel' Hf'. rewrite <- (IH (pre ++ encode_entry e) post fuel'); [|done|..|done].
    - rewrite len_app, Hle. f_equal; lia.
    - by rewrite Hfile, <- app_assoc.
    - rewrite len_app. lia. }
  destruct (entry_header_fields (u16 (len (e_Key e))) (u32 (len (slice_bytes (e_Value e)))) (e_Op e))
    as (Hl & Hkl & Hvl & Hop).
  rewrite encode_entry_split in Hfile.
  set (header := le_put 2 _ ++ _ ++ _) in *.
  rewrite <- (app_assoc header), <- (app_assoc (e_Key e)) in Hfile.
  assert (Hhl : len header = 7) by (unfold len; by rewrite Hl).
  cbn [read_all_loop]. rewrite (proj2 (Z.ltb_lt _ _)) by (pose proof (len_nonneg (sst_data es)); lia).
  rewrite Hfile at 1. rewrite ReadAt_app by done.
  rewrite bytesToUint16_le by (by rewrite Hkl). rewrite bytesToUint32_le by (by rewrite Hvl).
  rewrite Hkl, Hvl, Hop, le_get_put_u16, le_get_put_u32, u16_small, u32_small by lia.
  rewrite Hfile at 1. rewrite (app_assoc pre), ReadAt_app by (rewrite ?len_app; lia || done).
  cbn [fmap list_fmap]. unfold entry_record at 1.
  destruct (Z.ltb_spec 0 (len (slice_bytes (e_Value e)))) as [Hpos|Hpos].
  - rewrite Hfile at 1. rewrite (app_assoc pre), (app_assoc (pre ++ header)).
    rewrite ReadAt_app by (rewrite ?len_app; lia || done).
    rewrite Hnext by (unfold len in *; lia).
    destruct (slice_bytes (e_Value e)) eqn:Ev; [unfold len in Hpos; cbn in Hpos; lia|done].
  - replace (len pre + 7 + len (e_Key e))
      with (len pre + 7 + len (e_Key e) + len (slice_bytes (e_Value e))) by lia.
    rewrite Hnext by (unfold len in *; lia).
    destruct (slice_bytes (e_Value e)) eqn:Ev; [done|].
    unfold len in Hpos; cbn in Hpos; lia.
Qed.

Lemma read_all_ok es :
  Forall entry_ok es → len (sst_file es) < 2 ^ 63 → read_all (sst_file es) = Ok (entry_record <$> es).
Proof.
  intros Hok Hlt. destruct (sst_file_footer es Hlt) as (Hsz & Hf & Ht & _ & Ha & _).
  unfold read_all. rewrite (proj2 (Z.ltb_ge _ _)) by done. rewrite Hf, Ht.
  rewrite bytesToUint64_le by (by rewrite length_le_put).
  rewrite le_get_put_u64, int64_small by done. f_equal.
  apply (read_all_loop_ok _ _ es [] (sst_tail es)); try done.
  unfold sst_file. rewrite length_app. lia.
Qed.

(** ** Stored tables *)

Lemma OpenSSTableReader_stored w path es :
  no_faults w → stored (w_files w) path es →
  OpenSSTableReader path w = (Ok (mkReader path (sparse_index 0 0 es)), w).
Proof.
  intros Hw [Hf _ Hok _ Hlt]. unfold OpenSSTableReader, mbind, io_bind, io_wrap, io_lift.
  rewrite os_Open_ok, Hf by done. by rewrite parse_sstable_ok.
Qed.

Lemma readAll_stored w path es :
  no_faults w → stored (w_files w) path es →
  readAllSSTableRecords path w = (Ok (entry_record <$> es), w).
Proof.
  intros Hw [Hf _ Hok _ Hlt]. unfold readAllSSTableRecords, mbind, io_bind, io_lift.
  rewrite os_Open_ok, Hf by done. by rewrite read_all_ok.
Qed.

Lemma table_answer_lookup es key :
  tail_guarded es ∨ Exists (λ e, ¬ bytes_lt (e_Key e) key) es →
  table_answer es key = sst_answer (entries_lookup key es).
Proof.
  intros H. unfold table_answer. case_decide as D; [done|]. destruct H as [Hg|?]; [|done].
  rewrite scan_guarded by exact Hg. replace (entries_lookup key es) with (@None version); [done|].
  symmetry. apply entries_lookup_None. intros x Hx Hk. apply D, Exists_exists. exists x.
  split; [done|]. rewrite Hk. apply bytes_lt_irrefl.
Qed.

Lemma sst_Get_stored w r es key :
  no_faults w → stored (w_files w) (sst_path r) es → sst_index r = sparse_index 0 0 es →
  sst_Get r key w = (Ok (table_answer es key), w).
Proof.
  intros Hw [Hf Hne Hok Hs _] Hidx. unfold sst_Get. rewrite Hidx.
  rewrite decide_False by (destruct es as [|x es]; [done|]; by rewrite sparse_index_head).
  unfold mbind, io_bind, io_wrap, io_lift. rewrite os_Open_ok, Hf by done.
  by rewrite sst_lookup_spec.
Qed.

Lemma sst_Get_open w r es key :
  no_faults w → table_open (w_files w) r es →
  sst_Get r key w = (Ok (sst_answer (entries_lookup key es)), w).
Proof.
  intros Hw (Hst & Hidx & Hg). rewrite (sst_Get_stored w r es) by done.
  rewrite table_answer_lookup by (by left). done.
Qed.

(** Tables of text keys are guarded: index and footer stay below as many times
    16 MiB as the fourth byte of the first key says. *)
Lemma tail_guarded_text e es b0 b1 b2 b3 k :
  e_Key e = b0 :: b1 :: b2 :: b3 :: k → len (sst_tail (e :: es)) < byte_to_Z b3 * 2 ^ 24 →
  tail_guarded (e :: es).
Proof.
  intros Hk Hlen. unfold tail_guarded. eapply Z.lt_le_trans; [exact Hlen|].
  unfold sst_tail at 1. rewrite sparse_index_head. unfold index_bytes. cbn [fmap list_fmap concat].
  unfold encode_index_entry at 1. cbn [i_key]. rewrite Hk.
  set (u := u16 _). unfold le_put at 1. cbn [app drop take]. rewrite take_0, !le_get_cons.
  pose proof (byte_to_Z_range b0). pose proof (byte_to_Z_range b1). pose proof (byte_to_Z_range b2).
  pose proof (byte_to_Z_range b3). change (le_get []) with 0.
  change (2 ^ 24) with 16777216. lia.
Qed.

(** * Properties *)

(** C22: writing a table is atomic whatever I/O fails: the target path holds
    the complete table when [WriteSSTable] succeeds and its old content when
    it fails, no other file but the temporary one changes, and without
    failures it succeeds and leaves no temporary file. *)
Theorem sstable_write_atomic es path w res w' :
  es ≠ [] → WriteSSTable es path w = (res, w') →
  w_files w' !! path = match res with Ok _ => Some (sst_file es) | _ => w_files w !! path end
  ∧ (∀ p, p ≠ path → p ≠ tmp_path path → w_files w' !! p = w_files w !! p)
  ∧ res ≠ Panic
  ∧ (no_faults w → res = Ok tt ∧ w_files w' !! tmp_path path = None).
Proof.
  intros Hne E. destruct (WriteSSTable_outcome es path w res w' Hne E) as [Ho Hp _ _ Ht Hok].
  split_and!; [done..|]. intros Hw. by destruct (Hok Hw) as (? & _ & ?).
Qed.

Definition witness_table : list MemTableEntry :=
  [mkEntry (str "apple") (Some (str "1")) OpPut; mkEntry (str "banana") None OpDelete;
   mkEntry (str "cherry") (Some (str "3")) OpPut].

(** The write of the second record fails after three bytes. *)
Lemma sstable_write_atomic_witness :
  let w := mkWorld ∅ [] [] [None; None; Some 3%nat] in
  w_files (snd (WriteSSTable witness_table (str "t.sst") w)) !! str "t.sst" = None.
Proof.
  intros w.
  destruct (sstable_write_atomic witness_table (str "t.sst") w
    (fst (WriteSSTable witness_table (str "t.sst") w))
    (snd (WriteSSTable witness_table (str "t.sst") w))) as (H & _).
  - discriminate.
  - vm_compute. reflexivity.
  - rewrite H. vm_compute. reflexivity.
Defined.

(** C21: a table that was written, opened and searched answers like the
    reference lookup in its entries, and the compaction reader gives back
    every entry in order: binary search over the sparse index, the scan and
    the two decoders agree with the writer. The scan is not bounded by the
    data region, so the searched key must not lie above every key of the
    table unless the index bytes cannot pass for a record ([tail_guarded]). *)
Theorem sstable_get_correct w es path key :
  no_faults w → es ≠ [] → Forall entry_ok es → entries_sorted es → len (sst_file es) < 2 ^ 63 →
  tail_guarded es ∨ Exists (λ e, ¬ bytes_lt (e_Key e) key) es →
  ∃ w' r, WriteSSTable es path w = (Ok tt, w')
    ∧ OpenSSTableReader path w' = (Ok r, w')
    ∧ sst_Get r key w' = (Ok (sst_answer (entries_lookup key es)), w')
    ∧ readAllSSTableRecords path w' = (Ok (entry_record <$> es), w').
Proof.
  intros Hw Hne Hok Hs Hlt Hg. destruct (WriteSSTable es path w) as [res w'] eqn:E.
  destruct (WriteSSTable_outcome es path w res w' Hne E) as [_ Hp _ _ _ Hokw].
  destruct (Hokw Hw) as (-> & Hw' & _).
  assert (Hst : stored (w_files w') path es) by done.
  exists w', (mkReader path (sparse_index 0 0 es)). split_and!; [done|..].
  - by apply OpenSSTableReader_stored.
  - rewrite (sst_Get_stored w' _ es) by done. by rewrite table_answer_lookup.
  - by apply readAll_stored.
Qed.

Lemma sstable_get_correct_witness :
  let w := mkWorld ∅ [] [] [] in
  ∃ w' r, WriteSSTable witness_table (str "t.sst") w = (Ok tt, w')
    ∧ sst_Get r (str "banana") w' = (Ok (None, true), w')
    ∧ readAllSSTableRecords (str "t.sst") w' = (Ok (entry_record <$> witness_table), w').
Proof.
  intros w. destruct (sstable_get_correct w witness_table (str "t.sst") (str "banana"))
    as (w' & r & H1 & _ & H2 & H3).
  - reflexivity.
  - discriminate.
  - repeat constructor; vm_compute; congruence.
  - repeat constructor; vm_compute; reflexivity.
  - vm_compute. reflexivity.
  - right. apply Exists_exists. exists (mkEntry (str "cherry") (Some (str "3")) OpPut).
    split; [|vm_compute; congruence]. right. right. left.
  - exists w', r. split_and!; [exact H1| |exact H3]. rewrite H2. vm_compute. reflexivity.
Defined.

(** The scan of [Get] runs past the data region into the index: a table
    with one key reports a key that was never written, with an empty value. *)
Theorem sstable_phantom_key :
  let es := [mkEntry [x00; x00; x00; x00; x01; xff] (Some []) OpPut] in
  let key := [xff; x00; x00; x00; x00; x00] in
  let w := snd (WriteSSTable es (str "t.sst") (mkWorld ∅ [] [] [])) in
  entries_lookup key es = None
  ∧ (r ← OpenSSTableReader (str "t.sst"); sst_Get r key) w = (Ok (Some [], true), w).
Proof. vm_compute. split; reflexivity. Qed.
