(* ===== verification/Compaction.v ===== *)
(** Size-tiered compaction of [internal/storage/compaction.go]: listing the
    table files, merging the two oldest, dropping shadowed versions and
    tombstones, and writing the merged table. *)

From S2P Require Import Prelude StorageTypes Os SSTable.

(** ** Data *)

Record CompactionResult := mkResult {
  NewSSTablePath : bytes;
  RemovedPaths : list bytes;
}.

Record versionedEntry := mkVersioned {
  v_key : bytes;
  v_value : slice;
  v_op : OpType;
  v_fileIdx : Z;
}.

(** ** Merging *)

(** The comparison passed to [sort.SliceStable]: by key, then newest file
    first. *)
Definition versioned_less (a b : versionedEntry) : bool :=
  match bytes_compare (v_key a) (v_key b) with
  | Lt => true
  | Gt => false
  | Eq => v_fileIdx b <? v_fileIdx a
  end.

Definition tag_records (fileIdx : Z) (recs : list ssRecord) : list versionedEntry :=
  map (λ r, mkVersioned (s_key r) (s_value r) (s_op r) fileIdx) recs.

(** The merge loop: keep the first version of each key unless it is a
    tombstone. *)
Fixpoint merge_loop (lastKey : option bytes) (l : list versionedEntry) : list MemTableEntry :=
  match l with
  | [] => []
  | e :: l =>
      if decide (lastKey = Some (v_key e)) then merge_loop lastKey l
      else if decide (v_op e = OpDelete) then merge_loop (Some (v_key e)) l
      else mkEntry (v_key e) (v_value e) (v_op e) :: merge_loop (Some (v_key e)) l
  end.

Definition merge_entries (allEntries : list versionedEntry) : list MemTableEntry :=
  merge_loop None (stable_sort versioned_less allEntries).

(** ** Operations *)

(** Opening every input first. *)
Fixpoint open_readers (paths : list bytes) : IO (list SSTableReader) :=
  match paths with
  | [] => mret []
  | p :: paths =>
      r ← io_wrap "compaction: failed to open" (OpenSSTableReader p);
      rs ← open_readers paths;
      mret (r :: rs)
  end.

(** [for fileIdx, r := range readers] *)
Fixpoint read_inputs (fileIdx : Z) (readers : list SSTableReader) : IO (list versionedEntry) :=
  match readers with
  | [] => mret []
  | r :: readers =>
      entries ← io_wrap "compaction: failed to read" (readAllSSTableRecords (sst_path r));
      rest ← read_inputs (fileIdx + 1) readers;
      mret (tag_records fileIdx entries ++ rest)
  end.

(** [sstable_%d_compacted.sst] *)
Definition compacted_path (dataDir : bytes) (nanos : Z) : bytes :=
  path_Join dataDir (str "sstable_" ++ str (pretty nanos) ++ str "_compacted.sst").

Definition compactFiles (paths : list bytes) (dataDir : bytes) : IO CompactionResult :=
  readers ← open_readers paths;
  allEntries ← read_inputs 0 readers;
  let merged := merge_entries allEntries in
  if decide (length merged = 0%nat) then mret (mkResult [] paths) else
  nanos ← time_Now;
  let newPath := compacted_path dataDir nanos in
  _ ← io_wrap "compaction: failed to write merged sstable" (WriteSSTable merged newPath);
  mret (mkResult newPath paths).

Definition findSSTableFiles (dataDir : bytes) : IO (list bytes) :=
  names ← os_ReadDir dataDir;
  let paths := map (path_Join dataDir) (List.filter (has_ext (str ".sst")) names) in
  mret (stable_sort bytes_ltb paths).

Definition compactionThreshold : nat := 4.

(** One tick of the compactor; [Some] is the result sent to the engine. *)
Definition maybeCompact (dataDir : bytes) : IO (option CompactionResult) :=
  paths ← io_wrap "compactor: failed to list sstables" (findSSTableFiles dataDir);
  if (length paths <? compactionThreshold)%nat then mret None else
  let toCompact := take 2 paths in
  result ← io_wrap "compactor: merge failed" (compactFiles toCompact dataDir);
  mret (Some result).

(** ** Specification *)

(** The newest version of a key in a list of tables, oldest table first. *)
Fixpoint files_lookup (k : bytes) (files : list (list MemTableEntry)) : option version :=
  match files with
  | [] => None
  | f :: files =>
      match files_lookup k files with
      | Some v => Some v
      | None => entries_lookup k f
      end
  end.

(** A version seen as the live value it stands for: tombstones are gone. *)
Definition live (v : option version) : option bytes :=
  match v with
  | Some (value, op) => if decide (op = OpDelete) then None else Some (slice_bytes value)
  | None => None
  end.

(** The records of the inputs as compaction reads them. *)
Fixpoint tag_files (fileIdx : Z) (files : list (list MemTableEntry)) : list versionedEntry :=
  match files with
  | [] => []
  | f :: files => tag_records fileIdx (entry_record <$> f) ++ tag_files (fileIdx + 1) files
  end.

Definition versioned_version (e : versionedEntry) : version := (v_value e, v_op e).

(** Earlier elements of a sorted list are not greater. *)
Definition vsorted (l : list versionedEntry) : Prop :=
  StronglySorted (λ x y, versioned_less y x = false) l.

(** The first entry of a key. *)
Fixpoint first_version (k : bytes) (l : list versionedEntry) : option versionedEntry :=
  match l with
  | [] => None
  | e :: l => if decide (v_key e = k) then Some e else first_version k l
  end.

(** All keys of [l] are at or above the last key seen. *)
Definition from_key (lastKey : option bytes) (l : list versionedEntry) : Prop :=
  ∀ lk, lastKey = Some lk → ∀ x, x ∈ l → ¬ bytes_lt (v_key x) lk.

Definition keep_version (e : option versionedEntry) : option version :=
  match e with
  | Some e => if decide (v_op e = OpDelete) then None else Some (versioned_version e)
  | None => None
  end.

(** Reading back a stored version: the value bytes and the operation. *)
Definition same_content (v : version) (x : MemTableEntry) : Prop :=
  slice_bytes (fst v) = slice_bytes (e_Value x) ∧ snd v = e_Op x.

(** * Lemmas: the comparison is a strict weak order *)

Lemma versioned_less_asym x y : versioned_less x y = true → versioned_less y x = false.
Proof.
  unfold versioned_less. rewrite (bytes_compare_antisym (v_key x) (v_key y)).
  destruct (bytes_compare (v_key x) (v_key y)); cbn; try done. lia.
Qed.

Lemma versioned_less_ge_trans x y z :
  versioned_less y x = false → versioned_less z y = false → versioned_less z x = false.
Proof.
  unfold versioned_less.
  destruct (bytes_compare (v_key y) (v_key x)) eqn:E1; [| done |];
  destruct (bytes_compare (v_key z) (v_key y)) eqn:E2; try done; intros H1 H2.
  - apply bytes_compare_eq in E1, E2. rewrite E2, E1, bytes_compare_refl. lia.
  - apply bytes_compare_eq in E1. rewrite <- E1, E2. done.
  - apply bytes_compare_eq in E2. rewrite E2, E1. done.
  - apply bytes_compare_gt in E1, E2.
    assert (bytes_lt (v_key x) (v_key z)) as H%bytes_compare_gt by eauto with granite.
    by rewrite H.
Qed.

Lemma stable_sort_vsorted l : vsorted (stable_sort versioned_less l).
Proof.
  apply stable_sort_sorted; [exact versioned_less_ge_trans|exact versioned_less_asym].
Qed.

(** ** The merge loop on a sorted list *)

Lemma vsorted_key_le x y : versioned_less y x = false → ¬ bytes_lt (v_key y) (v_key x).
Proof.
  unfold versioned_less, bytes_lt. by destruct (bytes_compare (v_key y) (v_key x)).
Qed.


Lemma vsorted_cons e l :
  vsorted (e :: l) → vsorted l ∧ from_key (Some (v_key e)) l.
Proof.
  intros [Hs Hf]%StronglySorted_inv. split; [done|].
  intros lk [= <-] x Hx. rewrite Forall_forall in Hf. by apply vsorted_key_le, Hf.
Qed.

Lemma from_key_cons lastKey e l :
  from_key lastKey (e :: l) → from_key lastKey l ∧ (lastKey ≠ Some (v_key e) →
    ∀ lk, lastKey = Some lk → bytes_lt lk (v_key e)).
Proof.
  intros H. split.
  - intros lk Hlk x Hx. apply (H lk Hlk). by right.
  - intros Hne lk ->. destruct (bytes_lt_total (v_key e) lk) as [Hlt|[Heq|Hlt]]; [|congruence|done].
    by destruct (H lk eq_refl e); [left|].
Qed.

Lemma first_version_None k l : (∀ x, x ∈ l → v_key x ≠ k) → first_version k l = None.
Proof.
  induction l as [|x l IH]; intros H; cbn; [done|].
  rewrite decide_False by (apply H; left). apply IH. intros; apply H; by right.
Qed.

Lemma first_version_above lk k l :
  from_key (Some lk) l → bytes_lt k lk → first_version k l = None.
Proof.
  intros Hf Hlt. apply first_version_None. intros x Hx <-. by apply (Hf lk eq_refl x).
Qed.

Lemma merge_loop_lookup k l : ∀ lastKey,
  vsorted l → from_key lastKey l →
  entries_lookup k (merge_loop lastKey l) =
    if decide (lastKey = Some k) then None else keep_version (first_version k l).
Proof.
  induction l as [|e l IH]; intros lastKey Hs Hf; [by case_decide|].
  apply vsorted_cons in Hs as [Hs He]. apply from_key_cons in Hf as [Hf Hlt].
  cbn [merge_loop first_version].
  destruct (decide (lastKey = Some (v_key e))) as [D1|D1].
  - rewrite IH by done. repeat case_decide; try congruence.
  - assert (Hrest : entries_lookup k (merge_loop (Some (v_key e)) l) =
      if decide (v_key e = k) then None
      else if decide (lastKey = Some k) then None else keep_version (first_version k l)).
    { rewrite IH by done. repeat case_decide; try congruence.
      rewrite (first_version_above (v_key e) k); [done|done|]. by apply Hlt. }
    destruct (decide (v_op e = OpDelete)) as [D2|D2]; cbn [entries_lookup e_Key].
    + rewrite Hrest. repeat case_decide; try congruence. cbn. by rewrite decide_True.
    + rewrite Hrest. repeat case_decide; try congruence. cbn. by rewrite decide_False.
Qed.

Lemma merge_loop_above lk l :
  vsorted l → from_key (Some lk) l → ∀ e, e ∈ merge_loop (Some lk) l → bytes_lt lk (e_Key e).
Proof.
  revert lk. induction l as [|x l IH]; intros lk Hs Hf e He; cbn in He.
  { by apply not_elem_of_nil in He. }
  apply vsorted_cons in Hs as [Hs Hx]. apply from_key_cons in Hf as [Hf Hlt].
  destruct (decide (Some lk = Some (v_key x))) as [D1|D1]; [by apply IH|].
  assert (Hlx : bytes_lt lk (v_key x)) by (by apply Hlt).
  assert (Hr : e ∈ merge_loop (Some (v_key x)) l → bytes_lt lk (e_Key e)).
  { intros Hin. eapply bytes_lt_trans; [exact Hlx|]. by eapply IH. }
  case_decide; [auto|]. apply elem_of_cons in He as [->|He]; auto.
Qed.

Lemma merge_loop_sorted l : ∀ lastKey, vsorted l → entries_sorted (merge_loop lastKey l).
Proof.
  induction l as [|e l IH]; intros lastKey Hs; cbn; [constructor|].
  apply vsorted_cons in Hs as [Hs He].
  repeat case_decide; auto. apply entries_sorted_cons. split; [auto|].
  intros x Hx. by apply (merge_loop_above (v_key e) l).
Qed.

Lemma merge_loop_elem lastKey l e :
  e ∈ merge_loop lastKey l → ∃ v, v ∈ l ∧ e = mkEntry (v_key v) (v_value v) (v_op v).
Proof.
  revert lastKey. induction l as [|x l IH]; intros lastKey H; cbn in H.
  { by apply not_elem_of_nil in H. }
  repeat case_decide;
    try (destruct (IH _ H) as (v & Hv & ->); exists v; split; [by right|done]).
  apply elem_of_cons in H as [->|H].
  - exists x. split; [left|done].
  - destruct (IH _ H) as (v & Hv & ->). exists v. split; [by right|done].
Qed.

(** ** The first version of a key is the newest *)

Lemma first_version_Some k l e :
  vsorted l → first_version k l = Some e →
  e ∈ l ∧ v_key e = k ∧ (∀ x, x ∈ l → v_key x = k → v_fileIdx x <= v_fileIdx e).
Proof.
  induction l as [|y l IH]; intros Hs H; cbn in H; [done|].
  pose proof Hs as [Hs' Hf]%StronglySorted_inv. case_decide as D.
  - injection H as <-. split; [left|]. split; [done|].
    intros x [->|Hx]%elem_of_cons Hk; [lia|].
    rewrite Forall_forall in Hf. specialize (Hf x Hx). unfold versioned_less in Hf.
    rewrite Hk, D, bytes_compare_refl in Hf. apply Z.ltb_ge in Hf. done.
  - destruct (IH Hs' H) as (Hin & Hk & Hmax). split; [by right|]. split; [done|].
    intros x [->|Hx]%elem_of_cons Hkx; [done|auto].
Qed.

Lemma first_version_None_inv k l x : first_version k l = None → x ∈ l → v_key x ≠ k.
Proof.
  induction l as [|y l IH]; cbn; intros H Hx; [by apply not_elem_of_nil in Hx|].
  case_decide; [done|]. apply elem_of_cons in Hx as [->|Hx]; auto.
Qed.

Lemma elem_of_tag_records i f e :
  e ∈ tag_records i (entry_record <$> f) ↔
  ∃ x, x ∈ f ∧ e = mkVersioned (e_Key x) (s_value (entry_record x)) (e_Op x) i.
Proof.
  unfold tag_records. rewrite list_elem_of_fmap. split.
  - intros (r & -> & (x & -> & Hx)%list_elem_of_fmap). eauto.
  - intros (x & Hx & ->). exists (entry_record x). split; [done|].
    by apply list_elem_of_fmap_2.
Qed.

Lemma tag_files_idx files e : ∀ i, e ∈ tag_files i files → i <= v_fileIdx e.
Proof.
  induction files as [|f files IH]; intros i H; cbn in H; [by apply not_elem_of_nil in H|].
  apply elem_of_app in H as [(x & _ & ->)%elem_of_tag_records|H%IH]; cbn; lia.
Qed.

Lemma files_lookup_None files k : ∀ i,
  (∀ e, e ∈ tag_files i files → v_key e ≠ k) → files_lookup k files = None.
Proof.
  induction files as [|f files IH]; intros i H; cbn in *; [done|].
  rewrite (IH (i + 1)) by (intros e He; apply H, elem_of_app; by right).
  apply entries_lookup_None. intros x Hx Hk.
  apply (H (mkVersioned (e_Key x) (s_value (entry_record x)) (e_Op x) i)); [|done].
  apply elem_of_app. left. apply elem_of_tag_records. eauto.
Qed.

Lemma entry_record_bytes x : slice_bytes (s_value (entry_record x)) = slice_bytes (e_Value x).
Proof. unfold entry_record; cbn. by destruct (slice_bytes (e_Value x)). Qed.

Lemma files_lookup_max files k e : ∀ i,
  Forall entries_sorted files → e ∈ tag_files i files → v_key e = k →
  (∀ x, x ∈ tag_files i files → v_key x = k → v_fileIdx x <= v_fileIdx e) →
  ∃ x, files_lookup k files = Some (entry_version x) ∧ same_content (versioned_version e) x.
Proof.
  induction files as [|f files IH]; intros i Hs He Hk Hmax; cbn in *; [by apply not_elem_of_nil in He|].
  apply Forall_cons in Hs as [Hf Hs].
  apply elem_of_app in He as [(x & Hx & ->)%elem_of_tag_records|He].
  - rewrite (files_lookup_None files k (i + 1)).
    + exists x. cbn in Hk. rewrite <- Hk, entries_lookup_elem by done.
      split; [done|]. split; [apply entry_record_bytes|done].
    + intros y Hy Hyk. pose proof (tag_files_idx _ _ _ Hy).
      assert (Hle := Hmax y ltac:(apply elem_of_app; by right) Hyk). cbn in Hle. lia.
  - destruct (IH (i + 1) Hs He Hk) as (x & -> & Hc).
    { intros y Hy. apply Hmax. apply elem_of_app. by right. }
    eauto.
Qed.

(** What the merge keeps of a key: its newest version, unless a tombstone. *)
Lemma merge_files_lookup files k :
  Forall entries_sorted files →
  live (entries_lookup k (merge_entries (tag_files 0 files))) = live (files_lookup k files)
  ∧ (∀ v, entries_lookup k (merge_entries (tag_files 0 files)) = Some v → snd v ≠ OpDelete).
Proof.
  intros Hs. unfold merge_entries.
  pose proof (stable_sort_vsorted (tag_files 0 files)) as Hv.
  pose proof (stable_sort_perm versioned_less (tag_files 0 files)) as Hp.
  rewrite merge_loop_lookup by (done || intros lk ?; done).
  rewrite decide_False by done.
  destruct (first_version k (stable_sort versioned_less (tag_files 0 files))) as [e|] eqn:E; cbn.
  - apply first_version_Some in E as (Hin & Hk & Hmax); [|done].
    rewrite Hp in Hin.
    destruct (files_lookup_max files k e 0 Hs Hin Hk) as (x & -> & Hb & Ho).
    { intros y Hy. apply Hmax. by rewrite Hp. }
    unfold versioned_version in *; cbn in *. rewrite <- Ho.
    case_decide as D; cbn; [done|]. rewrite decide_False, Hb by done.
    split; [done|]. by intros v [= <-].
  - rewrite (files_lookup_None files k 0); [done|].
    intros e He. eapply first_version_None_inv; [exact E|]. by rewrite Hp.
Qed.

Lemma merge_entries_sorted l : entries_sorted (merge_entries l).
Proof. apply merge_loop_sorted, stable_sort_vsorted. Qed.

Lemma merge_entries_ok files :
  Forall (Forall entry_ok) files → Forall entry_ok (merge_entries (tag_files 0 files)).
Proof.
  intros Hok. apply Forall_forall. intros e (v & Hv & ->)%merge_loop_elem.
  rewrite stable_sort_perm in Hv.
  assert (H : ∀ i, v ∈ tag_files i files → ∃ x, entry_ok x ∧ v_key v = e_Key x
    ∧ slice_bytes (v_value v) = slice_bytes (e_Value x)).
  { clear Hv. induction Hok as [|f files Hf _ IH]; intros i Hv; cbn in Hv.
    - by apply not_elem_of_nil in Hv.
    - apply elem_of_app in Hv as [(x & Hx & ->)%elem_of_tag_records|Hv]; [|eauto].
      rewrite Forall_forall in Hf. exists x. cbn. split; [auto|].
      split; [done|apply entry_record_bytes]. }
  destruct (H 0 Hv) as (x & [Hk Hb] & Ek & Ev). split; cbn; by rewrite ?Ek, ?Ev.
Qed.

(** ** The whole operation in a world without failures *)

Lemma open_readers_stored w paths files :
  no_faults w → Forall2 (stored (w_files w)) paths files →
  open_readers paths w =
    (Ok (zip_with (λ p es, mkReader p (sparse_index 0 0 es)) paths files), w).
Proof.
  intros Hw. induction 1 as [|p es paths files Hp _ IH]; [done|].
  cbn [open_readers]. unfold mbind, io_bind, io_wrap.
  rewrite (OpenSSTableReader_stored w p es) by done.
  unfold mbind, io_bind in IH. rewrite IH. done.
Qed.

Lemma read_inputs_stored w paths files : ∀ i,
  no_faults w → Forall2 (stored (w_files w)) paths files →
  read_inputs i (zip_with (λ p es, mkReader p (sparse_index 0 0 es)) paths files) w =
    (Ok (tag_files i files), w).
Proof.
  intros i Hw H. revert i. induction H as [|p es paths files Hp _ IH]; intros i; [done|].
  cbn [read_inputs zip_with]. unfold mbind, io_bind, io_wrap. cbn [sst_path].
  rewrite (readAll_stored w p es) by done.
  specialize (IH (i + 1)). unfold mbind, io_bind in IH. rewrite IH. done.
Qed.

Lemma compactFiles_ok w paths files dataDir :
  no_faults w → Forall2 (stored (w_files w)) paths files →
  let merged := merge_entries (tag_files 0 files) in
  let newPath := compacted_path dataDir (hd 0 (w_clock w)) in
  ∃ w', compactFiles paths dataDir w =
      (Ok (mkResult (if decide (merged = []) then [] else newPath) paths), w')
    ∧ no_faults w' ∧ (w_rng w' = w_rng w ∧ (merged = [] → w' = w))
    ∧ (∀ p, p ≠ tmp_path newPath → w_files w' !! p =
         if decide (p = newPath ∧ merged ≠ []) then Some (sst_file merged) else w_files w !! p).
Proof.
  intros Hw Hin merged newPath. unfold compactFiles.
  unfold mbind, io_bind at 1. rewrite (open_readers_stored w paths files) by done.
  unfold io_bind at 1. rewrite (read_inputs_stored w paths files 0) by done. fold merged.
  destruct (decide (merged = [])) as [Em|Em].
  - rewrite Em. cbn. exists w. repeat split; try done.
    intros p _. rewrite decide_False by naive_solver. done.
  - rewrite decide_False by (by destruct merged).
    unfold io_bind at 1. destruct (time_Now w) as [t w1] eqn:Et.
    assert (Ht : t = Ok (hd 0 (w_clock w)) ∧ no_faults w1 ∧ w_rng w1 = w_rng w ∧ w_files w1 = w_files w).
    { unfold time_Now in Et. by destruct (w_clock w); injection Et as <- <-. }
    destruct Ht as (-> & Hw1 & Hr1 & Hf1). fold newPath.
    unfold io_bind, io_wrap. destruct (WriteSSTable merged newPath w1) as [res w2] eqn:Ew.
    destruct (WriteSSTable_outcome merged newPath w1 res w2 Em Ew).
    destruct (wo_ok Hw1) as (-> & Hw2 & _). exists w2.
    repeat split; try done; [congruence|]. intros p Hp.
    destruct (decide (p = newPath)) as [->|Hne].
    + rewrite decide_True by done. by rewrite wo_path.
    + rewrite decide_False by naive_solver. rewrite wo_others by done. by rewrite Hf1.
Qed.

(** * Properties *)

(** C25: with no I/O failure, compacting well-formed tables (sorted, lengths that
    fit the format) writes one sorted table that holds, for every key, the
    version of the newest input that has the key, except that deleted keys are
    dropped; the inputs are reported for removal, no other file changes, and
    nothing at all is written when no live key remains. *)
Theorem compaction_keeps_newest w paths files dataDir :
  no_faults w → Forall2 (stored (w_files w)) paths files →
  ∃ result w' merged, compactFiles paths dataDir w = (Ok result, w')
    ∧ RemovedPaths result = paths
    ∧ entries_sorted merged
    ∧ (∀ k, live (entries_lookup k merged) = live (files_lookup k files))
    ∧ (∀ k v, entries_lookup k merged = Some v → snd v ≠ OpDelete)
    ∧ (merged = [] ∧ NewSSTablePath result = [] ∧ w' = w
       ∨ merged ≠ [] ∧ w_files w' !! NewSSTablePath result = Some (sst_file merged)
         ∧ ∀ p, p ≠ NewSSTablePath result → p ≠ tmp_path (NewSSTablePath result) → w_files w' !! p = w_files w !! p).
Proof.
  intros Hw Hst. destruct (compactFiles_ok w paths files dataDir Hw Hst) as (w' & E & _ & [_ Hsame] & Hf).
  assert (Hs : Forall entries_sorted files).
  { clear -Hst. induction Hst as [|p es paths files Hp _ IH]; constructor; [apply Hp|done]. }
  exists (mkResult (if decide (merge_entries (tag_files 0 files) = []) then []
            else compacted_path dataDir (hd 0 (w_clock w))) paths), w', (merge_entries (tag_files 0 files)).
  split_and!; [done|done|apply merge_entries_sorted|..].
  - intros k. apply (merge_files_lookup files k Hs).
  - intros k. apply (merge_files_lookup files k Hs).
  - cbn. destruct (decide (merge_entries (tag_files 0 files) = [])) as [D|D]; [left; auto|right].
    split; [done|]. split; [rewrite Hf, decide_True; [done..|]; apply not_eq_sym, tmp_path_ne|].
    intros p Hp Htmp. by rewrite Hf, decide_False by naive_solver.
Qed.

Definition witness_older : list MemTableEntry :=
  [mkEntry (str "a") (Some (str "1")) OpPut; mkEntry (str "b") (Some (str "2")) OpPut].
Definition witness_newer : list MemTableEntry :=
  [mkEntry (str "a") (Some (str "9")) OpPut; mkEntry (str "b") None OpDelete].

(** Key [a] was rewritten and key [b] deleted in the newer table. *)
Lemma compaction_keeps_newest_witness :
  let w := mkWorld (<[str "1.sst" := sst_file witness_older]>
             {[str "2.sst" := sst_file witness_newer]}) [7] [] [] in
  ∃ result w' merged, compactFiles [str "1.sst"; str "2.sst"] (str "d") w = (Ok result, w')
    ∧ live (entries_lookup (str "a") merged) = Some (str "9")
    ∧ live (entries_lookup (str "b") merged) = None.
Proof.
  intros w. destruct (compaction_keeps_newest w [str "1.sst"; str "2.sst"]
    [witness_older; witness_newer] (str "d")) as (result & w' & merged & E & _ & _ & Hl & _).
  - reflexivity.
  - repeat constructor; vm_compute; congruence.
  - exists result, w', merged. split; [exact E|]. rewrite !Hl. vm_compute. split; reflexivity.
Defined.
