(* ===== verification/Engine.v ===== *)
(** The storage engine of [internal/storage/engine.go]: WAL, MemTable and
    SSTables behind [Open], [Put], [Get], [Delete], the flush, the application
    of compaction results and [Close]. *)

From S2P Require Import Prelude StorageTypes SkipList MemTable Crc32 Os Wal Recovery SSTable Compaction.

(** ** State *)

Definition memTableMaxSize : Z := 64 * 1024 * 1024.

Record Engine := mkEngine {
  en_dataDir : bytes;
  en_wal : WAL;
  en_mem : MemTable;
  en_sstables : list SSTableReader;
}.

Definition set_mem (m : MemTable) (e : Engine) : Engine :=
  mkEngine (en_dataDir e) (en_wal e) m (en_sstables e).
Definition set_sstables (l : list SSTableReader) (e : Engine) : Engine :=
  mkEngine (en_dataDir e) (en_wal e) (en_mem e) l.

(** A MemTable operation that draws from the world's random source; the
    operation cannot fail, [None] is a run-time panic. *)
Definition with_rng {A} (f : list bool → option (A * list bool)) : IO A := λ w,
  match f (w_rng w) with
  | Some (a, rng) => (Ok a, set_rng rng w)
  | None => (Panic, w)
  end.

(** ** Opening *)

Definition wal_file (dataDir : bytes) : bytes := path_Join dataDir (str "wal.log").

(** [for _, p := range sstPaths]: a table that does not open is skipped. *)
Fixpoint open_tables (paths : list bytes) : IO (list SSTableReader) :=
  match paths with
  | [] => mret []
  | p :: paths =>
      r ← io_try (OpenSSTableReader p);
      rs ← open_tables paths;
      mret (match r with inr r => r :: rs | inl _ => rs end)
  end.

Definition Open (dataDir : bytes) : IO Engine :=
  _ ← io_wrap "engine: failed to create data dir" (os_MkdirAll dataDir);
  let walPath := wal_file dataDir in
  '(mem, _) ← io_wrap "engine: recovery failed" (Recover walPath);
  wal ← io_wrap "engine: failed to open WAL" (OpenWAL walPath);
  sstPaths ← io_wrap "engine: failed to list sstables" (findSSTableFiles dataDir);
  sstables ← open_tables (rev sstPaths);
  mret (mkEngine dataDir wal mem sstables).

(** ** Reading *)

Fixpoint get_from_tables (sstables : list SSTableReader) (key : bytes) : IO bytes :=
  match sstables with
  | [] => io_fail ErrNotFound
  | sst :: sstables =>
      r ← io_try (sst_Get sst key);
      match r with
      | inl _ => get_from_tables sstables key
      | inr (val, true) =>
          match val with
          | None => io_fail ErrNotFound
          | Some v => mret v
          end
      | inr (_, false) => get_from_tables sstables key
      end
  end.

Definition Get (e : Engine) (key : bytes) : IO bytes :=
  if decide (length key = 0%nat) then io_fail (Errorf "engine: key cannot be empty") else
  '(val, found) ← io_lift (or_panic (MemTable.Get (en_mem e) key));
  if (found : bool) then
    match val with
    | None => io_fail ErrNotFound
    | Some v => mret v
    end
  else get_from_tables (en_sstables e) key.

(** ** Flushing *)

(** [sstable_%d.sst] *)
Definition sstable_path (dataDir : bytes) (nanos : Z) : bytes :=
  path_Join dataDir (str "sstable_" ++ str (pretty nanos) ++ str ".sst").

(** The part of [maybeFlushLocked] before [e.mu.Unlock()]: the MemTable is
    replaced by an empty one. [None] when the table is not full. *)
Definition flush_begin (e : Engine) : IO (option (Engine * list MemTableEntry * bytes)) :=
  if Size (en_mem e) <? memTableMaxSize then mret None else
  entries ← io_lift (or_panic (Entries (en_mem e)));
  let e := set_mem NewMemTable e in
  nanos ← time_Now;
  mret (Some (e, entries, sstable_path (en_dataDir e) nanos)).

(** The part after [e.mu.Lock()]: the written table becomes the newest. *)
Definition flush_end (e : Engine) (write_result : error + unit) (sstPath : bytes) : IO Engine :=
  match write_result with
  | inl _ => mret e
  | inr _ =>
      r ← io_try (OpenSSTableReader sstPath);
      match r with
      | inl _ => mret e
      | inr reader => mret (set_sstables (reader :: en_sstables e) e)
      end
  end.

(** [maybeFlushLocked] when no other goroutine runs while the lock is
    released. *)
Definition maybeFlushLocked (e : Engine) : IO Engine :=
  b ← flush_begin e;
  match b with
  | None => mret e
  | Some (e, entries, sstPath) =>
      r ← io_try (WriteSSTable entries sstPath);
      flush_end e r sstPath
  end.

(** ** Writing: the new engine and the error returned *)

Definition Put (e : Engine) (key : bytes) (value : slice) : IO (Engine * option error) :=
  if decide (length key = 0%nat)
  then mret (e, Some (Errorf "engine: key cannot be empty")) else
  r ← io_try (Append (en_wal e) OpPut key value);
  match r with
  | inl err => mret (e, Some (Wrapf "engine: WAL append failed" err))
  | inr _ =>
      mem ← with_rng (MemTable.Put (en_mem e) key value);
      e ← maybeFlushLocked (set_mem mem e);
      mret (e, None)
  end.

Definition Delete (e : Engine) (key : bytes) : IO (Engine * option error) :=
  if decide (length key = 0%nat)
  then mret (e, Some (Errorf "engine: key cannot be empty")) else
  r ← io_try (Append (en_wal e) OpDelete key None);
  match r with
  | inl err => mret (e, Some (Wrapf "engine: WAL append failed" err))
  | inr _ =>
      mem ← with_rng (MemTable.Delete (en_mem e) key);
      e ← maybeFlushLocked (set_mem mem e);
      mret (e, None)
  end.

(** ** Compaction results *)

Fixpoint remove_files (paths : list bytes) : IO unit :=
  match paths with
  | [] => mret tt
  | p :: paths => _ ← io_try (os_Remove p); remove_files paths
  end.

(** The comparison passed to [sort.Slice]: newer (greater) paths first. *)
Definition path_newer (a b : SSTableReader) : bool := bytes_ltb (sst_path b) (sst_path a).

Definition applyCompactionResult (e : Engine) (result : CompactionResult) : IO Engine :=
  let kept := List.filter (λ sst, negb (bool_decide (sst_path sst ∈ RemovedPaths result)))
                (en_sstables e) in
  newList ← (if decide (NewSSTablePath result = []) then mret kept else
             r ← io_try (OpenSSTableReader (NewSSTablePath result));
             match r with
             | inl _ => mret kept
             | inr reader => mret (stable_sort path_newer (kept ++ [reader]))
             end);
  _ ← remove_files (RemovedPaths result);
  mret (set_sstables newList e).

(** ** Closing *)

Definition Close (e : Engine) : IO unit :=
  _ ← (if (0 <? Len (en_mem e))%nat then
         entries ← io_lift (or_panic (Entries (en_mem e)));
         nanos ← time_Now;
         _ ← io_try (WriteSSTable entries (sstable_path (en_dataDir e) nanos));
         mret tt
       else mret tt);
  io_wrap "engine: WAL close failed" (wal_Close (en_wal e)).

(** ** Specification *)

(** The records the engine appends. *)
Definition put_record (key : bytes) (v : bytes) : WALRecord := mkRecord OpPut key (Some v).
Definition delete_record (key : bytes) : WALRecord := mkRecord OpDelete key None.

(** Records of engine writes. *)
Definition engine_record (r : WALRecord) : Prop :=
  r_Op r = OpPut ∧ (∃ v, r_Value r = Some v) ∨ r_Op r = OpDelete ∧ r_Value r = None.

(** The key-value map a history of records stands for. *)
Definition apply_record (m : gmap bytes bytes) (r : WALRecord) : gmap bytes bytes :=
  if decide (r_Op r = OpDelete) then delete (r_Key r) m
  else <[r_Key r := slice_bytes (r_Value r)]> m.

Definition history_map (rs : list WALRecord) : gmap bytes bytes := foldl apply_record ∅ rs.

(** The first version found, newest layer first. *)
Fixpoint layered_lookup (k : bytes) (layers : list (list MemTableEntry)) : option version :=
  match layers with
  | [] => None
  | l :: layers =>
      match entries_lookup k l with
      | Some v => Some v
      | None => layered_lookup k layers
      end
  end.

(** MemTable entries as the engine writes them: a live entry has a non-nil
    value, and lengths fit the file formats. *)
Definition mem_entry_ok (x : MemTableEntry) : Prop :=
  (e_Op x = OpDelete ∨ is_Some (e_Value x)) ∧ entry_ok x.

(** The engine [e] in world [w] has logged the records [rs], holds [es] in its
    MemTable and [tables] (newest first) in its SSTables; together they show
    the map of the logged history. *)
Record engine_rep (w : world) (e : Engine) (rs : list WALRecord) (es : list MemTableEntry)
    (tables : list (list MemTableEntry)) : Prop := {
  er_wal_path : wal_path (en_wal e) = wal_file (en_dataDir e);
  er_wal : w_files w !! wal_path (en_wal e) = Some (encode_records rs);
  er_mem : ∃ n, mem_rep (en_mem e) es n;
  er_mem_ok : Forall mem_entry_ok es;
  er_tables : Forall2 (table_open (w_files w)) (en_sstables e) tables;
  er_paths : ∀ r, r ∈ en_sstables e → sst_path r ≠ wal_path (en_wal e);
  er_view : ∀ k, live (layered_lookup k (es :: tables)) = history_map rs !! k;
}.

(** What [Get] answers for a key of the abstract map. *)
Definition get_answer (v : option bytes) : outcome bytes :=
  match v with Some v => Ok v | None => Err ErrNotFound end.

(** The path the next flush would use. *)
Definition next_path (w : world) (e : Engine) : bytes :=
  sstable_path (en_dataDir e) (hd 0 (w_clock w)).

(** A flush of [es] writes a well-formed table under a path not in use. *)
Definition flush_ready (w : world) (e : Engine) (es : list MemTableEntry) : Prop :=
  tail_guarded es ∧ len (sst_file es) < 2 ^ 63
  ∧ ∀ r, r ∈ en_sstables e → sst_path r ≠ next_path w e ∧ sst_path r ≠ tmp_path (next_path w e).

(** The table files of a directory, as [findSSTableFiles] lists them. *)
Definition sst_paths (fs : gmap bytes bytes) (dataDir : bytes) : list bytes :=
  stable_sort bytes_ltb (map (path_Join dataDir)
    (List.filter (has_ext (str ".sst")) (omap (name_in_dir dataDir) (elements (dom fs))))).

(** Newest tables first, as the engine keeps them. *)
Definition newest_first (l : list SSTableReader) : Prop :=
  StronglySorted (λ a b, bytes_lt (sst_path b) (sst_path a)) l.

(** Logging, inserting and flushing: the common part of [Put] and [Delete]. *)
Definition write_tail (e : Engine) (wr : write) : IO (Engine * option error) :=
  mem ← with_rng (mem_write (en_mem e) wr);
  e ← maybeFlushLocked (set_mem mem e);
  mret (e, None).

(** The MemTable after the write is small enough, or its flush is ready. *)
Definition write_ready (w : world) (e : Engine) (es : list MemTableEntry) (wr : write) : Prop :=
  Size (en_mem e) + entry_size (write_entry wr) + 64 < memTableMaxSize
  ∨ flush_ready w e (entries_insert (write_entry wr) es).

(** The engine [Open] makes of an empty directory. *)
Definition fresh_engine (dataDir : bytes) : Engine :=
  mkEngine dataDir (mkWAL (wal_file dataDir)) NewMemTable [].

(** Records whose replay gives back what was written: deletions, and puts of
    a non-empty value. *)
Definition replayable (r : WALRecord) : Prop :=
  record_ok r ∧ (r_Op r = OpDelete ∨ r_Op r = OpPut ∧ slice_bytes (r_Value r) ≠ []).

(** A table file whose keys all occur in the log. *)
Definition logged_table (fs : gmap bytes bytes) (rs : list WALRecord) (path : bytes)
    (es : list MemTableEntry) : Prop :=
  stored fs path es ∧ tail_guarded es ∧ ∀ x, x ∈ es → e_Key x ∈ r_Key <$> rs.

(** One compaction cycle: the merge of [paths], then its result applied. *)
Definition compact_and_apply (paths : list bytes) (e : Engine) : IO Engine :=
  result ← compactFiles paths (en_dataDir e);
  applyCompactionResult e result.

(** The tables [older] are compacted; none of their keys occurs in [newer],
    and the merged table is well-formed under a path not in use. *)
Record compaction_ready (w : world) (e : Engine) (newer older : list SSTableReader)
    (tnew told : list (list MemTableEntry)) : Prop := {
  cr_tables : en_sstables e = newer ++ older;
  cr_newer : length newer = length tnew;
  cr_sorted : newest_first (en_sstables e);
  cr_disjoint : ∀ t x, t ∈ told → x ∈ t → ∀ t' x', t' ∈ tnew → x' ∈ t' → e_Key x' ≠ e_Key x;
  cr_merged : let merged := merge_entries (tag_files 0 (rev told)) in
    merged = [] ∨ tail_guarded merged ∧ len (sst_file merged) < 2 ^ 63;
  cr_fresh : let p := compacted_path (en_dataDir e) (hd 0 (w_clock w)) in
    ∀ r, r ∈ en_sstables e → sst_path r ≠ p ∧ sst_path r ≠ tmp_path p;
}.

(** * Lemmas *)

(** ** Reading *)

Lemma get_from_tables_open w readers tables key :
  no_faults w → Forall2 (table_open (w_files w)) readers tables →
  get_from_tables readers key w = (get_answer (live (layered_lookup key tables)), w).
Proof.
  intros Hw. induction 1 as [|r es readers tables Hr _ IH]; [done|].
  cbn [get_from_tables layered_lookup]. unfold mbind, io_bind, io_try.
  rewrite (sst_Get_open w r es key) by done.
  destruct (entries_lookup key es) as [[v op]|]; cbn; [|exact IH].
  by case_decide.
Qed.

Lemma mem_answer es key :
  Forall mem_entry_ok es →
  match version_get (entries_lookup key es) with
  | (Some v, true) => live (entries_lookup key es) = Some v
  | (None, true) => is_Some (entries_lookup key es) ∧ live (entries_lookup key es) = None
  | (_, false) => entries_lookup key es = None
  end.
Proof.
  intros Hok. destruct (entries_lookup key es) as [[v op]|] eqn:E; cbn; [|done].
  case_decide as D; [by split|]. destruct v as [v|]; [done|]. exfalso.
  apply entries_lookup_Some_elem in E as (x & Hx & _ & [= Ev Eo]).
  rewrite Forall_forall in Hok. destruct (Hok x Hx) as [[Ho|[v Hv]] _]; congruence.
Qed.

Lemma Get_layers w e es n tables key :
  no_faults w → mem_rep (en_mem e) es n → Forall mem_entry_ok es →
  Forall2 (table_open (w_files w)) (en_sstables e) tables → key ≠ [] →
  Get e key w = (get_answer (live (layered_lookup key (es :: tables))), w).
Proof.
  intros Hw Hm Hok Ht Hk. unfold Get. rewrite decide_False by (by destruct key).
  unfold mbind, io_bind, io_lift. rewrite (mem_rep_get _ es n) by done. cbn [or_panic layered_lookup].
  pose proof (mem_answer es key Hok) as Ha.
  destruct (version_get (entries_lookup key es)) as [[v|] []].
  - destruct (entries_lookup key es); [|done]. by rewrite Ha.
  - rewrite Ha. by apply get_from_tables_open.
  - destruct Ha as [[? E] Hl]. rewrite E in Hl |- *. by rewrite Hl.
  - rewrite Ha. by apply get_from_tables_open.
Qed.

Lemma Get_rep w e rs es tables key :
  no_faults w → engine_rep w e rs es tables → key ≠ [] →
  Get e key w = (get_answer (history_map rs !! key), w).
Proof. intros Hw [_ _ [n Hm] Hok Ht _ Hv] Hk. rewrite <- Hv. by eapply Get_layers. Qed.

(** ** Logging and writing *)

Lemma Append_ok w wal op key value old :
  no_faults w → len key <= 65535 → w_files w !! wal_path wal = Some old →
  Append wal op key value w =
    (Ok tt, set_files (<[wal_path wal := old ++ wal_record op key (slice_bytes value)]> (w_files w)) w).
Proof.
  intros Hw Hk Hf. unfold Append. rewrite (proj2 (Z.ltb_ge _ _)) by lia.
  unfold mbind, io_bind, io_wrap. rewrite file_Write_ok, Hf by done. cbn [default].
  by rewrite file_Sync_ok.
Qed.

Lemma path_first_byte dir x y a b : x ≠ y → path_Join dir (x :: a) ≠ path_Join dir (y :: b).
Proof. intros Hxy [=]%app_inv_head%app_inv_head. done. Qed.

Lemma wal_file_not_table dir nanos : wal_file dir ≠ sstable_path dir nanos.
Proof. unfold wal_file, sstable_path, str. cbn. by apply path_first_byte. Qed.

Lemma wal_file_not_tmp dir nanos : wal_file dir ≠ tmp_path (sstable_path dir nanos).
Proof.
  unfold wal_file, sstable_path, tmp_path, path_Join. rewrite <- !app_assoc.
  unfold str; cbn. by apply path_first_byte.
Qed.

Lemma table_open_frame fs fs' readers tables :
  (∀ r, r ∈ readers → fs' !! sst_path r = fs !! sst_path r) →
  Forall2 (table_open fs) readers tables → Forall2 (table_open fs') readers tables.
Proof.
  intros Hfs H. induction H as [|r es readers tables ([Hf ? ? ? ?] & Hi & Hg) _ IH]; constructor.
  - split; [|done]. split; try done. rewrite Hfs; [done|left].
  - apply IH. intros r' Hr'. apply Hfs. by right.
Qed.

Lemma history_map_snoc rs r : history_map (rs ++ [r]) = apply_record (history_map rs) r.
Proof. unfold history_map. by rewrite foldl_app. Qed.

(** The view after a write in front of the tables. *)
Lemma view_insert es tables m r wr :
  entries_sorted es → record_write r = Some wr →
  (∀ k, live (layered_lookup k (es :: tables)) = m !! k) →
  ∀ k, live (layered_lookup k (entries_insert (write_entry wr) es :: tables)) = apply_record m r !! k.
Proof.
  intros Hs Hr Hv k. specialize (Hv k). cbn [layered_lookup] in *.
  rewrite entries_insert_lookup by done. unfold record_write in Hr. unfold apply_record.
  destruct (decide (r_Op r = OpPut)) as [Ep|Ep].
  - injection Hr as <-. rewrite (decide_False (P := r_Op r = OpDelete)) by (by rewrite Ep).
    rewrite lookup_insert. cbn. repeat case_decide; try congruence; done.
  - destruct (decide (r_Op r = OpDelete)) as [Ed|Ed]; [|done]. injection Hr as <-.
    rewrite lookup_delete. cbn. repeat case_decide; try congruence; done.
Qed.

(** Logging the record and inserting the write in the MemTable. *)
Lemma logged_rep w e rs es tables r wr rng :
  engine_rep w e rs es tables → record_write r = Some wr → mem_entry_ok (write_entry wr) →
  let w1 := set_files (<[wal_path (en_wal e) := encode_records rs ++ encode_record r]> (w_files w)) w in
  ∃ m' rng', mem_write (en_mem e) wr rng = Some (m', rng')
    ∧ engine_rep (set_rng rng' w1) (set_mem m' e) (rs ++ [r]) (entries_insert (write_entry wr) es) tables.
Proof.
  intros [Hp Hwal [n Hm] Hok Ht Hne Hv] Hr Hwr w1.
  destruct (mem_rep_write _ _ _ wr rng Hm) as (m' & rng' & E & Hm').
  exists m', rng'. split; [done|]. split; cbn; [done|..].
  - by rewrite lookup_insert_eq, encode_records_app, encode_records_single.
  - eauto.
  - apply Forall_forall. intros x [->|Hx]%entries_insert_elem; [done|].
    rewrite Forall_forall in Hok. auto.
  - eapply table_open_frame; [|exact Ht]. intros x Hx. cbn.
    rewrite lookup_insert_ne; [done|]. intros Heq. by apply (Hne x Hx).
  - exact Hne.
  - rewrite history_map_snoc. apply view_insert; [by eapply mem_rep_sorted|done..].
Qed.

(** ** Flushing *)

Lemma time_Now_ok w :
  time_Now w = (Ok (hd 0 (w_clock w)), mkWorld (w_files w) (tl (w_clock w)) (w_rng w) (w_faults w)).
Proof. unfold time_Now. destruct w as [fs [|t ts] rng fl]; done. Qed.

Lemma flush_rep w e rs es tables :
  no_faults w → engine_rep w e rs es tables → es ≠ [] →
  Size (en_mem e) < memTableMaxSize ∨ flush_ready w e es →
  ∃ e' w' es' tables', maybeFlushLocked e w = (Ok e', w') ∧ no_faults w'
    ∧ engine_rep w' e' rs es' tables' ∧ en_dataDir e' = en_dataDir e.
Proof.
  intros Hw He Hne Hflush. unfold maybeFlushLocked, flush_begin, mbind, io_bind.
  destruct (Z.ltb_spec (Size (en_mem e)) memTableMaxSize) as [Hsz|Hsz].
  { exists e, w, es, tables. done. }
  destruct Hflush as [?|(Hg & Hlt & Hfresh)]; [lia|]. destruct He as [Hp Hwal [n Hm] Hok Ht Hne' Hv].
  unfold io_lift. rewrite (mem_rep_entries _ _ _ Hm). cbn [or_panic].
  rewrite time_Now_ok. cbn [mret io_ret set_mem en_dataDir]. unfold next_path in Hfresh.
  set (p := sstable_path (en_dataDir e) (hd 0 (w_clock w))) in *.
  set (w1 := mkWorld (w_files w) (tl (w_clock w)) (w_rng w) (w_faults w)).
  unfold io_try. destruct (WriteSSTable es p w1) as [res w2] eqn:Ew.
  destruct (WriteSSTable_outcome es p w1 res w2 Hne Ew) as [Ho Hpath _ _ _ Hokw].
  destruct (Hokw Hw) as (-> & Hw2 & _). cbn [flush_end].
  assert (Hst : stored (w_files w2) p es).
  { split; try done; [|by eapply mem_rep_sorted].
    eapply Forall_impl; [exact Hok|]. by intros x [_ ?]. }
  unfold flush_end, mbind, io_bind, io_try.
  rewrite (OpenSSTableReader_stored w2 p es) by done.
  eexists _, w2, [], (es :: tables). split; [reflexivity|]. split; [done|]. split; [|done].
  split; cbn; [done|..|done].
  - rewrite Ho; [done| |]; rewrite Hp; [apply wal_file_not_table|apply wal_file_not_tmp].
  - exists 0. apply mem_rep_new.
  - constructor.
  - constructor; [split; [exact Hst|done]|]. eapply table_open_frame; [|exact Ht].
    intros r Hr. by apply Ho; apply Hfresh.
  - intros r [->|Hr]%elem_of_cons; [|by apply Hne']. cbn. rewrite Hp.
    apply not_eq_sym, wal_file_not_table.
Qed.

Lemma write_size m es n wr rng m' rng' :
  mem_rep m es n → mem_write m wr rng = Some (m', rng') →
  Size m' <= Size m + entry_size (write_entry wr) + 64.
Proof.
  intros Hm E. destruct (mem_rep_write m es n wr rng Hm) as (m2 & rng2 & E2 & [_ Hs2]).
  rewrite E in E2. injection E2 as <- <-. destruct Hm as [Hsl Hs]. unfold Size.
  rewrite Hs2, Hs, entries_insert_size by (by eapply rep_sorted).
  assert (0 <= version_size (e_Key (write_entry wr)) (entries_lookup (e_Key (write_entry wr)) es)).
  { destruct (entries_lookup _ es) as [[v o]|]; cbn; [|done].
    pose proof (len_nonneg (e_Key (write_entry wr))). pose proof (len_nonneg (slice_bytes v)). lia. }
  lia.
Qed.

Lemma entries_insert_ne e es : entries_insert e es ≠ [].
Proof. destruct es as [|x es]; cbn; [done|]. by destruct (bytes_compare _ _). Qed.

Lemma write_rep w e rs es tables r wr :
  no_faults w → engine_rep w e rs es tables →
  record_write r = Some wr → mem_entry_ok (write_entry wr) → len (r_Key r) <= 65535 →
  write_ready w e es wr →
  ∃ e' w' es' tables',
    (_ ← io_try (Append (en_wal e) (r_Op r) (r_Key r) (r_Value r)); write_tail e wr) w
      = (Ok (e', None), w')
    ∧ no_faults w' ∧ engine_rep w' e' (rs ++ [r]) es' tables' ∧ en_dataDir e' = en_dataDir e.
Proof.
  intros Hw He Hr Hok Hk Hready. pose proof He as [_ Hwal [n Hm] _ _ _ _].
  unfold mbind, io_bind at 1, io_try. rewrite (Append_ok w _ _ _ _ (encode_records rs)) by done.
  change (wal_record (r_Op r) (r_Key r) (slice_bytes (r_Value r))) with (encode_record r).
  set (w1 := set_files _ w).
  destruct (logged_rep w e rs es tables r wr (w_rng w1) He Hr Hok) as (m' & rng' & E & He').
  fold w1 in He'. unfold write_tail, mbind, io_bind, with_rng. rewrite E.
  pose proof (write_size _ _ _ _ _ _ _ Hm E) as Hsz.
  destruct (flush_rep (set_rng rng' w1) (set_mem m' e) _ _ _ Hw He')
    as (e2 & w2 & es2 & t2 & E2 & Hw2 & He2 & Hd2).
  - apply entries_insert_ne.
  - destruct Hready as [Hs|Hf]; [left; cbn; lia|right; exact Hf].
  - rewrite E2. cbn. eauto 10.
Qed.

(** ** Recovery *)

(** Replaying the log gives the map of its history. *)
Lemma replayed_history rs k :
  Forall replayable rs →
  live (writes_map (record_writes (read_back <$> rs)) !! k) = history_map rs !! k
  ∧ (∀ v, writes_map (record_writes (read_back <$> rs)) !! k = Some v → mem_entry_ok (mkEntry k (fst v) (snd v)))
  ∧ (k ∈ r_Key <$> rs → is_Some (writes_map (record_writes (read_back <$> rs)) !! k)).
Proof.
  induction rs as [|r rs IH] using rev_ind; intros Hrs.
  { repeat split; try done. intros H. by apply not_elem_of_nil in H. }
  apply Forall_app in Hrs as [Hrs [Hr _]%Forall_cons].
  destruct (IH Hrs) as (Hl & Hok & Hk). clear IH. destruct Hr as [[Hkl Hvl] Hop].
  rewrite !fmap_app, history_map_snoc. cbn [fmap list_fmap].
  assert (Hw : ∃ wr, record_writes ((read_back <$> rs) ++ [read_back r])
      = record_writes (read_back <$> rs) ++ [wr] ∧ record_write (read_back r) = Some wr).
  { unfold record_writes. rewrite omap_app. unfold record_write. cbn.
    destruct Hop as [->|[-> _]]; cbn; eauto. }
  destruct Hw as (wr & -> & Hwr). rewrite writes_map_snoc. unfold apply_write.
  unfold record_write in Hwr. cbn in Hwr. unfold apply_record.
  destruct Hop as [Eo|[Eo Hv]]; rewrite Eo in Hwr |- *; cbn in Hwr; injection Hwr as <-; cbn.
  - rewrite (decide_True (P := OpDelete = OpDelete)) by done.
    rewrite !lookup_insert, lookup_delete. split_and!; repeat case_decide; try done; subst.
    + intros v [= <-]. split; [by left|]. split; cbn; [lia|done].
    + intros [Hin|Hin%list_elem_of_singleton]%elem_of_app; [auto|done].
  - destruct (slice_bytes (r_Value r)) as [|b v] eqn:Ev; [done|].
    rewrite (decide_False (P := OpPut = OpDelete)) by done.
    rewrite !lookup_insert. split_and!; repeat case_decide; try done; subst.
    + intros v' [= <-]. split; [right; eauto|]. split; cbn; [lia|done].
    + intros [Hin|Hin%list_elem_of_singleton]%elem_of_app; [auto|done].
Qed.

Lemma layered_lookup_absent k tables :
  (∀ es x, es ∈ tables → x ∈ es → e_Key x ≠ k) → layered_lookup k tables = None.
Proof.
  induction tables as [|es tables IH]; intros H; cbn; [done|].
  rewrite (proj2 (entries_lookup_None k es)) by (intros x Hx; apply (H es); [left|done]).
  apply IH. intros es' x He. apply H. by right.
Qed.

Lemma sst_paths_not_wal fs dataDir p : p ∈ sst_paths fs dataDir → p ≠ wal_file dataDir.
Proof.
  unfold sst_paths. rewrite stable_sort_perm. intros Hp%list_elem_of_fmap ->.
  destruct Hp as (name & Heq & Hname). unfold wal_file, path_Join in Heq.
  apply app_inv_head, app_inv_head in Heq. subst name.
  apply list_elem_of_In, List.filter_In in Hname as [_ Hext]. done.
Qed.

Lemma open_tables_stored w paths files :
  no_faults w → Forall2 (stored (w_files w)) paths files →
  open_tables paths w = (Ok (zip_with (λ p es, mkReader p (sparse_index 0 0 es)) paths files), w).
Proof.
  intros Hw. induction 1 as [|p es paths files Hp _ IH]; [done|].
  cbn [open_tables]. unfold mbind, io_bind, io_try.
  rewrite (OpenSSTableReader_stored w p es) by done.
  unfold mbind, io_bind in IH. rewrite IH. done.
Qed.

Lemma findSSTableFiles_ok w dataDir :
  no_faults w → findSSTableFiles dataDir w = (Ok (sst_paths (w_files w) dataDir), w).
Proof.
  intros Hw. unfold findSSTableFiles, mbind, io_bind. by rewrite os_ReadDir_ok.
Qed.

Lemma zip_readers_open fs paths files :
  Forall2 (λ p es, stored fs p es ∧ tail_guarded es) paths files →
  let readers := zip_with (λ p es, mkReader p (sparse_index 0 0 es)) paths files in
  Forall2 (table_open fs) readers files ∧ ∀ r, r ∈ readers → sst_path r ∈ paths.
Proof.
  induction 1 as [|p es paths files [Hp Hg] _ [IH1 IH2]]; cbn.
  { split; [constructor|]. intros r H. by apply not_elem_of_nil in H. }
  split; [by constructor|]. intros r [->|Hr]%elem_of_cons; [left|right; auto].
Qed.

(** The view of a MemTable that holds every logged key, over any tables of
    logged keys. *)
Lemma recovered_view rs es files :
  Forall replayable rs → entries_map es = writes_map (record_writes (read_back <$> rs)) →
  (∀ t x, t ∈ files → x ∈ t → e_Key x ∈ r_Key <$> rs) →
  ∀ k, live (layered_lookup k (es :: files)) = history_map rs !! k.
Proof.
  intros Hrs Hmap Hf k. cbn [layered_lookup]. rewrite <- entries_map_lookup, Hmap.
  destruct (replayed_history rs k Hrs) as (<- & _ & Hk).
  destruct (writes_map _ !! k) as [v|] eqn:E; [done|].
  rewrite layered_lookup_absent; [done|]. intros t x Ht Hx <-.
  by destruct (Hk (Hf t x Ht Hx)) as [? ?].
Qed.

Lemma recovered_entries_ok rs es :
  Forall replayable rs → entries_sorted es →
  entries_map es = writes_map (record_writes (read_back <$> rs)) → Forall mem_entry_ok es.
Proof.
  intros Hrs Hs Hmap. apply Forall_forall. intros x Hx.
  destruct (replayed_history rs (e_Key x) Hrs) as (_ & Hok & _).
  apply (Hok (entry_version x)). rewrite <- Hmap, entries_map_lookup. by apply entries_lookup_elem.
Qed.

Lemma sst_paths_same_dom fs fs' dataDir : dom fs' = dom fs → sst_paths fs' dataDir = sst_paths fs dataDir.
Proof. intros H. unfold sst_paths. by rewrite H. Qed.

Lemma elem_of_rev {A} (x : A) l : x ∈ rev l → x ∈ l.
Proof. rewrite !list_elem_of_In. apply in_rev. Qed.

Lemma Open_files w dataDir rs tail files :
  no_faults w → w_files w !! wal_file dataDir = Some (encode_records rs ++ tail) →
  Forall replayable rs → read_record tail = Ok None →
  Forall2 (logged_table (w_files w) rs) (rev (sst_paths (w_files w) dataDir)) files →
  ∃ e w' es, Open dataDir w = (Ok e, w') ∧ no_faults w' ∧ engine_rep w' e rs es files
    ∧ w_files w' = <[wal_file dataDir := encode_records rs]> (w_files w) ∧ en_dataDir e = dataDir.
Proof.
  intros Hw Hf Hrs Ht Hfiles. unfold Open, mbind, io_bind at 1, io_wrap.
  rewrite os_MkdirAll_ok by done.
  destruct (Recover_ok w (wal_file dataDir) rs tail Hw Hf) as (mem & es & rng & E & Hm & Hmap);
    [eapply Forall_impl; [exact Hrs|by intros r [? _]]|done|].
  unfold io_bind at 1. rewrite E.
  set (w1 := set_files _ _). assert (Hw1 : no_faults w1) by exact Hw.
  unfold io_bind at 1, OpenWAL, mbind, io_bind at 1, io_wrap.
  rewrite os_OpenAppend_ok by done.
  assert (Hw1f : w_files w1 !! wal_file dataDir = Some (encode_records rs)) by apply lookup_insert_eq.
  rewrite Hw1f. cbn [default mret io_ret]. rewrite insert_id by done.
  set (w2 := set_files (w_files w1) w1). assert (Hw2 : no_faults w2) by exact Hw.
  unfold io_bind at 1. rewrite findSSTableFiles_ok by done.
  rewrite (sst_paths_same_dom (w_files w)) by (cbn; rewrite dom_insert_lookup_L; done).
  assert (Hst : Forall2 (λ p es, stored (w_files w2) p es ∧ tail_guarded es)
                  (rev (sst_paths (w_files w) dataDir)) files).
  { apply Forall2_same_length_lookup_2; [by eapply Forall2_length|]. intros i p t Hp Hi.
    destruct (Forall2_lookup_lr _ _ _ _ _ _ Hfiles Hp Hi) as ([Hpf ? ? ? ?] & ? & ?).
    split; [|done]. split; try done. cbn. rewrite lookup_insert_ne; [done|]. apply not_eq_sym.
    eapply sst_paths_not_wal, elem_of_rev, list_elem_of_lookup_2, Hp. }
  unfold io_bind. rewrite (open_tables_stored w2 _ files); [|done|].
  2: { eapply Forall2_impl; [exact Hst|]. by intros p t [? _]. }
  destruct (zip_readers_open _ _ _ Hst) as [Hopen Hpaths].
  eexists _, w2, es. split; [reflexivity|]. split; [done|]. split; [|done]. split; cbn; try done.
  - eauto.
  - eapply recovered_entries_ok; [done| |done]. by eapply mem_rep_sorted.
  - intros r Hr. eapply sst_paths_not_wal, elem_of_rev, Hpaths, Hr.
  - apply recovered_view; try done. intros t x Hin Hx.
    apply list_elem_of_lookup in Hin as [i Hi].
    destruct (Forall2_lookup_r _ _ _ _ _ Hfiles Hi) as (p & _ & (_ & _ & Hkeys)). auto.
Qed.

Lemma Open_rep w dataDir rs tail files :
  no_faults w → w_files w !! wal_file dataDir = Some (encode_records rs ++ tail) →
  Forall replayable rs → read_record tail = Ok None →
  Forall2 (logged_table (w_files w) rs) (rev (sst_paths (w_files w) dataDir)) files →
  ∃ e w' es, Open dataDir w = (Ok e, w') ∧ no_faults w' ∧ engine_rep w' e rs es files.
Proof.
  intros Hw Hf Hrs Ht Hfiles.
  destruct (Open_files w dataDir rs tail files Hw Hf Hrs Ht Hfiles) as (e & w' & es & E & Hw' & He & _).
  by exists e, w', es.
Qed.

(** ** Compaction *)

Lemma remove_files_frame paths : ∀ w,
  no_faults w → ∃ w', remove_files paths w = (Ok tt, w') ∧ no_faults w'
    ∧ ∀ p, p ∉ paths → w_files w' !! p = w_files w !! p.
Proof.
  induction paths as [|q paths IH]; intros w Hw; [by exists w|].
  cbn [remove_files]. unfold mbind, io_bind, io_try, os_Remove. rewrite draw_ok by done.
  destruct (w_files w !! q) as [d|] eqn:E.
  - destruct (IH (set_files (delete q (w_files w)) w) Hw) as (w' & E' & Hw' & Hp).
    exists w'. split; [exact E'|]. split; [done|]. intros p [Hne Hin]%not_elem_of_cons.
    rewrite Hp by done. cbn. by rewrite lookup_delete_ne.
  - destruct (IH w Hw) as (w' & E' & Hw' & Hp). exists w'. split; [exact E'|]. split; [done|].
    intros p [Hne Hin]%not_elem_of_cons. auto.
Qed.

(** Sorting one more reader into a list that is sorted only inserts it. *)
Lemma insert_reader kept r :
  newest_first kept →
  ∃ a b, kept = a ++ b ∧ stable_sort path_newer (kept ++ [r]) = a ++ r :: b.
Proof.
  induction 1 as [|x kept Hs (a & b & -> & IH) Hx]; [by exists [], []|].
  change (stable_sort path_newer ((x :: a ++ b) ++ [r]))
    with (sort_insert path_newer x (stable_sort path_newer ((a ++ b) ++ [r]))).
  assert (Hlt : ∀ y, y ∈ a ++ b → path_newer y x = false).
  { intros y Hy. rewrite Forall_forall in Hx. apply bytes_ltb_ge, bytes_lt_asym, Hx, Hy. }
  rewrite IH. destruct a as [|y a]; cbn.
  - destruct (path_newer r x) eqn:E; [|by exists [x], b].
    exists [], (x :: b). split; [done|]. destruct b as [|y b]; [done|]. cbn.
    rewrite Hlt by left. done.
  - exists (x :: y :: a), b. split; [done|]. rewrite Hlt by left. done.
Qed.

Lemma layered_lookup_app k a b :
  layered_lookup k (a ++ b) =
    match layered_lookup k a with Some v => Some v | None => layered_lookup k b end.
Proof. induction a as [|es a IH]; cbn; [done|]. by destruct (entries_lookup k es). Qed.

Lemma files_lookup_rev k files : files_lookup k files = layered_lookup k (rev files).
Proof.
  induction files as [|f files IH]; cbn; [done|]. rewrite layered_lookup_app, IH.
  destruct (layered_lookup k (rev files)); [done|]. cbn. by destruct (entries_lookup k f).
Qed.

Lemma filter_kept (removed : list bytes) newer older :
  (∀ r, r ∈ newer → sst_path r ∉ removed) → (∀ r, r ∈ older → sst_path r ∈ removed) →
  List.filter (λ r, negb (bool_decide (sst_path r ∈ removed))) (newer ++ older) = newer.
Proof.
  intros Hn Ho. rewrite List.filter_app.
  assert (E2 : List.filter (λ r, negb (bool_decide (sst_path r ∈ removed))) older = []).
  { clear Hn. induction older as [|r older IH]; cbn; [done|].
    rewrite bool_decide_true by (apply Ho; left). apply IH. intros x Hx. apply Ho. by right. }
  rewrite E2, app_nil_r. clear E2 Ho. induction newer as [|r newer IH]; cbn; [done|].
  rewrite bool_decide_false by (apply Hn; left). cbn. f_equal. apply IH.
  intros x Hx. apply Hn. by right.
Qed.

(** Tables with disjoint keys show the same map wherever the merged one is. *)
Lemma merged_view a b inputs k :
  Forall entries_sorted inputs →
  (∀ t x, t ∈ inputs → x ∈ t → ∀ t' x', t' ∈ a ++ b → x' ∈ t' → e_Key x' ≠ e_Key x) →
  let merged := merge_entries (tag_files 0 inputs) in
  live (layered_lookup k (a ++ merged :: b)) = live (layered_lookup k ((a ++ b) ++ rev inputs)).
Proof.
  intros Hs Hd merged. destruct (merge_files_lookup inputs k Hs) as [Hm Hdel]. fold merged in Hm, Hdel.
  rewrite files_lookup_rev in Hm. rewrite !layered_lookup_app. cbn [layered_lookup].
  destruct (layered_lookup k (rev inputs)) as [v|] eqn:Ei.
  - assert (Hab : layered_lookup k (a ++ b) = None).
    { apply layered_lookup_absent. intros t' x' Ht' Hx' <-.
      destruct (decide (Exists (λ t, Exists (λ x, e_Key x = e_Key x') t) inputs)) as [He|He].
      - apply Exists_exists in He as (t & Ht & (x & Hx & Hk)%Exists_exists).
        by apply (Hd t x Ht Hx t' x' Ht' Hx').
      - rewrite (layered_lookup_absent _ (rev inputs)) in Ei; [done|].
        intros t x Ht%elem_of_rev Hx Hk. apply He, Exists_exists. exists t. split; [done|].
        apply Exists_exists. eauto. }
    rewrite layered_lookup_app in Hab. destruct (layered_lookup k a); [done|].
    rewrite Hab. by destruct (entries_lookup k merged).
  - cbn in Hm. assert (Hn : entries_lookup k merged = None).
    { destruct (entries_lookup k merged) as [[v o]|] eqn:E; [|done].
      cbn in Hm. specialize (Hdel _ eq_refl). cbn in Hdel. by rewrite decide_False in Hm. }
    rewrite Hn. destruct (layered_lookup k a), (layered_lookup k b); done.
Qed.

Lemma wal_file_not_compacted dir nanos :
  wal_file dir ≠ compacted_path dir nanos ∧ wal_file dir ≠ tmp_path (compacted_path dir nanos).
Proof.
  unfold wal_file, compacted_path, tmp_path, path_Join. rewrite <- !app_assoc.
  unfold str; cbn. split; by apply path_first_byte.
Qed.

Lemma newest_first_paths newer older :
  newest_first (newer ++ older) →
  newest_first newer ∧ (∀ r, r ∈ newer → sst_path r ∉ sst_path <$> older).
Proof.
  unfold newest_first. induction newer as [|x newer IH]; cbn.
  { intros _. split; [constructor|]. intros r H. by apply not_elem_of_nil in H. }
  intros [Hs Hx]%StronglySorted_inv. destruct (IH Hs) as [IH1 IH2].
  rewrite Forall_app in Hx. destruct Hx as [Hx1 Hx2]. split; [by constructor|].
  intros r [->|Hr]%elem_of_cons; [|auto]. intros (y & Hxy & Hy)%list_elem_of_fmap.
  rewrite Forall_forall in Hx2. specialize (Hx2 y Hy). rewrite Hxy in Hx2.
  by apply bytes_lt_irrefl in Hx2.
Qed.

Lemma Forall2_rev_paths fs readers tables :
  Forall2 (table_open fs) readers tables →
  Forall2 (stored fs) (rev (sst_path <$> readers)) (rev tables) ∧ Forall entries_sorted tables
  ∧ Forall (Forall entry_ok) tables.
Proof.
  induction 1 as [|r es readers tables (Hst & _ & _) _ (IH1 & IH2 & IH3)]; cbn; [done|].
  split_and!; [|constructor; [apply Hst|done]..]. apply Forall2_app; [done|].
  constructor; [done|constructor].
Qed.

Lemma Forall_rev_list {A} (P : A → Prop) l : Forall P l → Forall P (rev l).
Proof. rewrite !Forall_forall. intros H x Hx%elem_of_rev. auto. Qed.

(** Applying a result whose merged table is at [np] ([] when it is empty). *)
Lemma apply_compaction_ok w e newer older np merged :
  no_faults w → en_sstables e = newer ++ older → newest_first (en_sstables e) →
  (merged = [] ∨ np ≠ [] ∧ stored (w_files w) np merged) →
  ∃ a b w', newer = a ++ b ∧ no_faults w'
    ∧ applyCompactionResult e (mkResult (if decide (merged = []) then [] else np)
        (rev (sst_path <$> older))) w
      = (Ok (set_sstables (if decide (merged = []) then a ++ b
               else a ++ mkReader np (sparse_index 0 0 merged) :: b) e), w')
    ∧ ∀ p, p ∉ rev (sst_path <$> older) → w_files w' !! p = w_files w !! p.
Proof.
  intros Hw Ht Hs Hm. rewrite Ht in Hs. apply newest_first_paths in Hs as [Hs Hn].
  unfold applyCompactionResult. cbn [NewSSTablePath RemovedPaths]. rewrite Ht, filter_kept.
  2: { intros r Hr Hin%elem_of_rev. by apply (Hn r Hr). }
  2: { intros r Hr. apply list_elem_of_In, in_rev. rewrite rev_involutive.
       by apply list_elem_of_In, list_elem_of_fmap_2. }
  destruct (remove_files_frame (rev (sst_path <$> older)) w Hw) as (w' & Er & Hw' & Hf).
  destruct (decide (merged = [])) as [->|Hne].
  - exists newer, [], w'. rewrite app_nil_r. unfold mbind, io_bind.
    rewrite (decide_True (P := [] = [])) by done. cbn -[remove_files rev]. by rewrite Er.
  - destruct Hm as [?|[Hnp Hst]]; [done|]. rewrite decide_False by done.
    destruct (insert_reader newer (mkReader np (sparse_index 0 0 merged)) Hs) as (a & b & E & Es).
    exists a, b, w'. split; [done|]. split; [done|]. unfold mbind, io_bind, io_try.
    rewrite (OpenSSTableReader_stored w np merged) by done. cbn -[remove_files rev stable_sort]. by rewrite Es, Er.
Qed.

(** The representation after the older tables are replaced. *)
Lemma replaced_rep w w2 e rs es ta tb told a b older np merged :
  engine_rep w e rs es ((ta ++ tb) ++ told) →
  en_sstables e = (a ++ b) ++ older →
  Forall2 (table_open (w_files w)) a ta → Forall2 (table_open (w_files w)) b tb →
  (∀ r, r ∈ a ++ b → w_files w2 !! sst_path r = w_files w !! sst_path r) →
  w_files w2 !! wal_path (en_wal e) = w_files w !! wal_path (en_wal e) →
  np ≠ wal_path (en_wal e) →
  merged = [] ∨ stored (w_files w2) np merged ∧ tail_guarded merged →
  (∀ k, live (layered_lookup k (ta ++ merged :: tb)) = live (layered_lookup k ((ta ++ tb) ++ told))) →
  ∃ tables', engine_rep w2 (set_sstables (if decide (merged = []) then a ++ b
               else a ++ mkReader np (sparse_index 0 0 merged) :: b) e) rs es tables'.
Proof.
  intros [Hp Hwal Hm Hok Ht Hpaths Hv] Hsst Ha Hb Hfr Hfw Hnp Hmg Hview.
  assert (Ha2 : Forall2 (table_open (w_files w2)) a ta).
  { eapply table_open_frame; [|exact Ha]. intros r Hr. apply Hfr, elem_of_app. by left. }
  assert (Hb2 : Forall2 (table_open (w_files w2)) b tb).
  { eapply table_open_frame; [|exact Hb]. intros r Hr. apply Hfr, elem_of_app. by right. }
  assert (Hab : ∀ r, r ∈ a ++ b → sst_path r ≠ wal_path (en_wal e)).
  { intros r Hr. apply Hpaths. rewrite Hsst. apply elem_of_app. by left. }
  exists (if decide (merged = []) then ta ++ tb else ta ++ merged :: tb).
  split; cbn; try done; [by rewrite Hfw|..].
  - case_decide as D; [by apply Forall2_app|]. destruct Hmg as [?|[Hst Hg]]; [done|].
    apply Forall2_app; [done|]. constructor; [|done]. split; [exact Hst|done].
  - case_decide as D; [done|]. intros r [Hr|[->|Hr]%elem_of_cons]%elem_of_app; [|done|];
      apply Hab, elem_of_app; auto.
  - intros k. rewrite <- Hv. cbn. destruct (entries_lookup k es); [done|]. rewrite <- Hview.
    case_decide as D; [|done]. rewrite D, !layered_lookup_app. done.
Qed.

Lemma compaction_rep w e rs es tnew told newer older :
  no_faults w → engine_rep w e rs es (tnew ++ told) →
  compaction_ready w e newer older tnew told →
  ∃ e' w' tables', compact_and_apply (rev (sst_path <$> older)) e w = (Ok e', w')
    ∧ no_faults w' ∧ engine_rep w' e' rs es tables'.
Proof.
  intros Hw [Hp Hwal Hm Hok Ht Hpaths Hv] [Hsst Hlen Hnf Hdis Hmg Hfresh].
  set (np := compacted_path (en_dataDir e) (hd 0 (w_clock w))) in *.
  rewrite Hsst in Ht. apply Forall2_app_inv in Ht as [Htn Hto]; [|done].
  destruct (Forall2_rev_paths _ _ _ Hto) as (Hst & Hsorted & Heok).
  set (merged := merge_entries (tag_files 0 (rev told))) in *.
  unfold compact_and_apply, mbind, io_bind.
  destruct (compactFiles_ok w _ _ (en_dataDir e) Hw Hst) as (w1 & -> & Hw1 & _ & Hf1).
  fold np merged in Hf1 |- *.
  assert (Hm1 : merged = [] ∨ np ≠ [] ∧ stored (w_files w1) np merged).
  { destruct Hmg as [?|[_ Hsz]]; [by left|]. destruct (decide (merged = [])) as [?|Hne]; [by left|].
    right. split; [by unfold np, compacted_path, path_Join; destruct (en_dataDir e)|].
    split; [|done|by apply merge_entries_ok, Forall_rev_list|apply merge_entries_sorted|done].
    rewrite Hf1, decide_True; [done..|]. apply not_eq_sym, tmp_path_ne. }
  destruct (apply_compaction_ok w1 e newer older np merged Hw1 Hsst Hnf Hm1)
    as (a & b & w2 & Hab & Hw2 & -> & Hf2).
  assert (Hframe : ∀ p, p ≠ np → p ≠ tmp_path np → p ∉ rev (sst_path <$> older) →
            w_files w2 !! p = w_files w !! p).
  { intros p Hp1 Hp2 Hp3. rewrite Hf2, Hf1, decide_False by naive_solver. done. }
  pose proof (wal_file_not_compacted (en_dataDir e) (hd 0 (w_clock w))) as [Hwn Hwt].
  fold np in Hwn, Hwt. rewrite <- Hp in Hwn, Hwt.
  assert (Hkept : ∀ r, r ∈ newer → sst_path r ∉ rev (sst_path <$> older)).
  { rewrite Hsst in Hnf. apply newest_first_paths in Hnf as [_ Hn].
    intros r Hr Hin%elem_of_rev. by apply (Hn r Hr). }
  assert (Hwal2 : wal_path (en_wal e) ∉ rev (sst_path <$> older)).
  { intros Hin%elem_of_rev. apply list_elem_of_fmap in Hin as (r & Heq & Hr).
    apply (Hpaths r); [|done]. rewrite Hsst. apply elem_of_app. by right. }
  assert (Hnp2 : np ∉ rev (sst_path <$> older)).
  { intros Hin%elem_of_rev. apply list_elem_of_fmap in Hin as (r & Heq & Hr).
    destruct (Hfresh r) as [Hc _]; [|by apply Hc]. rewrite Hsst. apply elem_of_app. by right. }
  rewrite Hab in Htn, Hsst. apply Forall2_app_inv_l in Htn as (ta & tb & Ha & Hb & ->).
  destruct (replaced_rep w w2 e rs es ta tb told a b older np merged) as [tables' Hrep]; try done.
  - split; try done. rewrite Hsst. apply Forall2_app; [by apply Forall2_app|done].
  - intros r Hr. rewrite <- Hab in Hr. apply Hframe; [..|by apply Hkept];
      apply Hfresh; rewrite Hsst, <- Hab; apply elem_of_app; by left.
  - by apply Hframe.
  - destruct Hm1 as [?|[_ [Hmf ? ? ? ?]]]; [by left|]. destruct Hmg as [?|[? _]]; [by left|].
    right. split; [|done]. split; try done. by rewrite Hf2.
  - intros k. rewrite <- (rev_involutive told) at 1. apply merged_view.
    + by apply Forall_rev_list.
    + intros t x Hti%elem_of_rev Hx t' x'. apply (Hdis t x Hti Hx).
  - eauto 10.
Qed.

(** ** Writing as seen by a client *)

(** [Put] and [Delete] are a log append followed by the common part. *)
Lemma Put_write w e key v old :
  no_faults w → key ≠ [] → len key <= 65535 → w_files w !! wal_path (en_wal e) = Some old →
  Put e key v w = (_ ← io_try (Append (en_wal e) OpPut key v); write_tail e (WPut key v)) w.
Proof.
  intros Hw Hne Hk Hwal. unfold Put. rewrite decide_False by (by destruct key).
  unfold mbind, io_bind, io_try. rewrite (Append_ok w _ _ _ _ _ Hw Hk Hwal). reflexivity.
Qed.

Lemma Delete_write w e key old :
  no_faults w → key ≠ [] → len key <= 65535 → w_files w !! wal_path (en_wal e) = Some old →
  Delete e key w = (_ ← io_try (Append (en_wal e) OpDelete key None); write_tail e (WDelete key)) w.
Proof.
  intros Hw Hne Hk Hwal. unfold Delete. rewrite decide_False by (by destruct key).
  unfold mbind, io_bind, io_try. rewrite (Append_ok w _ _ _ _ _ Hw Hk Hwal). reflexivity.
Qed.

Lemma put_entry_ok key v : len key <= 65535 → len v < 2 ^ 32 → mem_entry_ok (write_entry (WPut key (Some v))).
Proof. intros. split; [right; cbn; eauto|]. split; cbn; [lia|done]. Qed.

Lemma delete_entry_ok key : len key <= 65535 → mem_entry_ok (write_entry (WDelete key)).
Proof. intros. split; [by left|]. split; cbn; [lia|done]. Qed.

Lemma Put_rep w e rs es tables key v :
  no_faults w → engine_rep w e rs es tables →
  key ≠ [] → len key <= 65535 → len v < 2 ^ 32 → write_ready w e es (WPut key (Some v)) →
  ∃ e' w' es' tables', Put e key (Some v) w = (Ok (e', None), w') ∧ no_faults w'
    ∧ engine_rep w' e' (rs ++ [put_record key v]) es' tables'
    ∧ history_map (rs ++ [put_record key v]) = <[key := v]> (history_map rs).
Proof.
  intros Hw He Hne Hk Hv Hready.
  destruct (write_rep w e rs es tables (put_record key v) (WPut key (Some v)) Hw He)
    as (e' & w' & es' & tables' & E & Hw' & He' & _); [done|by apply put_entry_ok|done..|].
  exists e', w', es', tables'. split; [|by rewrite history_map_snoc].
  erewrite Put_write by (done || apply He). exact E.
Qed.

Lemma Delete_rep w e rs es tables key :
  no_faults w → engine_rep w e rs es tables →
  key ≠ [] → len key <= 65535 → write_ready w e es (WDelete key) →
  ∃ e' w' es' tables', Delete e key w = (Ok (e', None), w') ∧ no_faults w'
    ∧ engine_rep w' e' (rs ++ [delete_record key]) es' tables'
    ∧ history_map (rs ++ [delete_record key]) = delete key (history_map rs).
Proof.
  intros Hw He Hne Hk Hready.
  destruct (write_rep w e rs es tables (delete_record key) (WDelete key) Hw He)
    as (e' & w' & es' & tables' & E & Hw' & He' & _); [done|by apply delete_entry_ok|done..|].
  exists e', w', es', tables'. split; [|by rewrite history_map_snoc].
  erewrite Delete_write by (done || apply He). exact E.
Qed.

(** ** A fresh engine *)

Lemma fresh_rep dataDir clock rng :
  engine_rep (mkWorld {[wal_file dataDir := []]} clock rng []) (fresh_engine dataDir) [] [] [].
Proof.
  split; cbn; try done.
  - apply lookup_singleton_eq.
  - exists 0. apply mem_rep_new.
  - intros r H. by apply not_elem_of_nil in H.
Qed.

(** ** Engines for the witnesses *)

(** One key rewritten 2^20 times fills the MemTable. *)
Definition witness_full : MemTable :=
  mkMemTable (from_option fst newSkipList (SkipList.put newSkipList (str "k") (Some (str "v")) OpPut []))
    (2 + 64 * 2 ^ 20).

Lemma witness_full_rep : mem_rep witness_full [mkEntry (str "k") (Some (str "v")) OpPut] (2 ^ 20).
Proof.
  destruct (rep_put newSkipList [] (str "k") (Some (str "v")) OpPut [] rep_new) as (sl & rng & E & H).
  split; [|vm_compute; reflexivity]. unfold witness_full. rewrite E. exact H.
Qed.

(** An engine with a full MemTable over two tables, of which the newer deletes a
    key of the older. *)
Definition layered_log : list WALRecord :=
  [put_record (str "a") (str "x"); put_record (str "b") (str "y"); delete_record (str "a"); put_record (str "k") (str "v")].
Definition layered_tables : list (list MemTableEntry) :=
  [[mkEntry (str "a") None OpDelete; mkEntry (str "b") (Some (str "y")) OpPut]; [mkEntry (str "a") (Some (str "x")) OpPut]].
Definition layered_readers : list SSTableReader :=
  zip_with (λ n es, mkReader (sstable_path (str "d") n) (sparse_index 0 0 es)) [2; 1] layered_tables.
Definition layered_engine : Engine := mkEngine (str "d") (mkWAL (wal_file (str "d"))) witness_full layered_readers.
Definition layered_world : world :=
  mkWorld (<[wal_file (str "d") := encode_records layered_log]>
    (list_to_map (zip_with (λ r es, (sst_path r, sst_file es)) layered_readers layered_tables))) [3] [] [].

Lemma layered_rep :
  engine_rep layered_world layered_engine layered_log [mkEntry (str "k") (Some (str "v")) OpPut] layered_tables.
Proof.
  split.
  - reflexivity.
  - apply lookup_insert_eq.
  - exists (2 ^ 20). exact witness_full_rep.
  - by constructor; [|constructor]; split; [right; eexists|split].
  - repeat (apply List.Forall2_cons || apply List.Forall2_nil);
      (split; [split|split]); try reflexivity; try discriminate;
      try (repeat constructor; vm_compute; reflexivity).
  - intros r Hr. repeat (apply elem_of_cons in Hr as [->|Hr]; [vm_compute; congruence|]).
    by apply not_elem_of_nil in Hr.
  - intros k.
    replace (history_map layered_log) with (<[str "k" := str "v"]> {[str "b" := str "y"]} : gmap bytes bytes)
      by by_decide.
    rewrite lookup_insert, lookup_singleton. cbn -[str]. repeat case_decide; try congruence; try reflexivity; subst;
      match goal with H : str _ = str _ |- _ => vm_compute in H; discriminate H end.
Qed.

(** * Properties *)

(** C6: with no I/O failure, [Get] of an engine whose layers represent the
    logged history ([engine_rep]: the MemTable and the tables, searched newest
    first, show the map of the records, and the tables read back) answers every
    non-empty key from that map: the live value, wherever it is, or
    [ErrNotFound] for a deleted or unknown key. It changes nothing. That the
    engine's operations keep this representation, and when they do not, is
    stated of each of them. *)
Theorem engine_get_correct w e rs es tables key :
  no_faults w → engine_rep w e rs es tables → key ≠ [] →
  Get e key w = (get_answer (history_map rs !! key), w).
Proof. apply Get_rep. Qed.

(** A key of the MemTable, one of a table, and one that the newer table deletes. *)
Lemma engine_get_correct_witness :
  Get layered_engine (str "k") layered_world = (Ok (str "v"), layered_world)
  ∧ Get layered_engine (str "b") layered_world = (Ok (str "y"), layered_world)
  ∧ Get layered_engine (str "a") layered_world = (Err ErrNotFound, layered_world).
Proof.
  assert (H : ∀ key, key ≠ [] → Get layered_engine key layered_world = (get_answer (history_map layered_log !! key), layered_world)).
  { intros key Hk. apply (engine_get_correct layered_world layered_engine layered_log
      [mkEntry (str "k") (Some (str "v")) OpPut] layered_tables key); [reflexivity|exact layered_rep|exact Hk]. }
  split; [|split]; (rewrite H by discriminate; f_equal; vm_compute; reflexivity).
Defined.

(** C5: [Put] refines insertion, with no I/O failure and for a non-empty key of
    at most 65535 bytes and a value below 4 GiB: it logs the record, answers no
    error, and the engine then represents the history extended by the put. The
    MemTable either stays below its limit or is flushed to a new table; in that
    case the table must read back ([flush_ready]: the bytes after its data do
    not pass for a record, and its path is not in use). *)
Theorem engine_put_refines w e rs es tables key v :
  no_faults w → engine_rep w e rs es tables →
  key ≠ [] → len key <= 65535 → len v < 2 ^ 32 → write_ready w e es (WPut key (Some v)) →
  ∃ e' w' es' tables', Put e key (Some v) w = (Ok (e', None), w') ∧ no_faults w'
    ∧ engine_rep w' e' (rs ++ [put_record key v]) es' tables'
    ∧ history_map (rs ++ [put_record key v]) = <[key := v]> (history_map rs).
Proof. apply Put_rep. Qed.

(** The write fills the MemTable, which is flushed to a third table. *)
Lemma engine_put_refines_witness :
  ∃ e' w' es' tables', Put layered_engine (str "a") (Some (str "new")) layered_world = (Ok (e', None), w')
    ∧ length (en_sstables e') = 3%nat
    ∧ engine_rep w' e' (layered_log ++ [put_record (str "a") (str "new")]) es' tables'.
Proof.
  destruct (engine_put_refines layered_world layered_engine layered_log [mkEntry (str "k") (Some (str "v")) OpPut]
    layered_tables (str "a") (str "new")) as (e' & w' & es' & tables' & E & _ & He & _).
  - reflexivity.
  - exact layered_rep.
  - discriminate.
  - vm_compute. congruence.
  - vm_compute. reflexivity.
  - right. split; [vm_compute; reflexivity|]. split; [vm_compute; reflexivity|].
    intros r Hr. repeat (apply elem_of_cons in Hr as [->|Hr]; [vm_compute; split; congruence|]).
    by apply not_elem_of_nil in Hr.
  - exists e', w', es', tables'. split; [exact E|]. split; [|exact He].
    assert (H : match fst (Put layered_engine (str "a") (Some (str "new")) layered_world) with
                | Ok (e, _) => length (en_sstables e) | _ => 0%nat end = 3%nat) by (vm_compute; reflexivity).
    rewrite E in H. exact H.
Defined.

(** [Delete] refines deletion in the same sense. *)
Theorem engine_delete_refines w e rs es tables key :
  no_faults w → engine_rep w e rs es tables →
  key ≠ [] → len key <= 65535 → write_ready w e es (WDelete key) →
  ∃ e' w' es' tables', Delete e key w = (Ok (e', None), w') ∧ no_faults w'
    ∧ engine_rep w' e' (rs ++ [delete_record key]) es' tables'
    ∧ history_map (rs ++ [delete_record key]) = delete key (history_map rs).
Proof. apply Delete_rep. Qed.

Lemma engine_delete_refines_witness :
  let w := mkWorld {[wal_file (str "d") := []]} [] [] [] in
  ∃ e' w' es' tables', Delete (fresh_engine (str "d")) (str "k") w = (Ok (e', None), w')
    ∧ engine_rep w' e' [delete_record (str "k")] es' tables'.
Proof.
  intros w. destruct (engine_delete_refines w (fresh_engine (str "d")) [] [] [] (str "k"))
    as (e' & w' & es' & tables' & E & _ & He & _).
  - reflexivity.
  - apply fresh_rep.
  - discriminate.
  - vm_compute. congruence.
  - left. vm_compute. reflexivity.
  - exists e', w', es', tables'. split; [exact E|exact He].
Defined.

(** Rejected writes change nothing: an empty key and a key over 65535
    bytes are refused before the log or the MemTable is touched. *)
Theorem engine_rejects_bad_keys w e key value :
  key = [] ∨ 65535 < len key →
  (∃ err, Put e key value w = (Ok (e, Some err), w))
  ∧ (∃ err, Delete e key w = (Ok (e, Some err), w)).
Proof.
  intros Hk. unfold Put, Delete. case_decide as D; [eauto|].
  destruct Hk as [->|Hk]; [done|]. unfold Append. rewrite (proj2 (Z.ltb_lt _ _)) by done.
  split; eexists; reflexivity.
Qed.

Lemma engine_rejects_bad_keys_witness :
  let w := mkWorld ∅ [] [] [] in
  let key := replicate (Z.to_nat 65536) x61 in
  ∃ err, Put (fresh_engine (str "d")) key (Some []) w = (Ok (fresh_engine (str "d"), Some err), w).
Proof.
  intros w key. assert (H : 65535 < len key) by (unfold key, len; rewrite length_replicate; lia).
  exact (proj1 (engine_rejects_bad_keys w (fresh_engine (str "d")) key (Some []) (or_intror H))).
Defined.

(** C9: reopening after a crash that tore the last append: with no I/O failure,
    if every put logged so far had a non-empty value and a key the log reader
    can decode (at most 65528 bytes), and every table file on disk is well
    formed, reads back (the bytes after its data do not pass for a record) and
    holds only keys that the log has, [Open] succeeds and the new engine
    represents exactly the whole records of the log, with the torn bytes cut
    off, over the tables already on disk. *)
Theorem engine_recovers w dataDir rs tail files :
  no_faults w → w_files w !! wal_file dataDir = Some (encode_records rs ++ tail) →
  Forall replayable rs → read_record tail = Ok None →
  Forall2 (logged_table (w_files w) rs) (rev (sst_paths (w_files w) dataDir)) files →
  ∃ e w' es, Open dataDir w = (Ok e, w') ∧ no_faults w' ∧ engine_rep w' e rs es files.
Proof. apply Open_rep. Qed.

Definition witness_history : list WALRecord :=
  [put_record (str "k") (str "v1"); delete_record (str "j"); put_record (str "k") (str "v2")].

Definition witness_flushed : list MemTableEntry := [mkEntry (str "k") (Some (str "v1")) OpPut].

(** Three records and four bytes of a fourth; the first had been flushed. *)
Lemma engine_recovers_witness :
  let w := mkWorld (<[wal_file (str "d") := encode_records witness_history ++ [x01; x02; x03; x04]]>
             {[sstable_path (str "d") 1 := sst_file witness_flushed]}) [] [] [] in
  ∃ e w' es, Open (str "d") w = (Ok e, w') ∧ engine_rep w' e witness_history es [witness_flushed].
Proof.
  intros w. destruct (engine_recovers w (str "d") witness_history [x01; x02; x03; x04] [witness_flushed])
    as (e & w' & es & E & _ & He).
  - reflexivity.
  - apply lookup_insert_eq.
  - unfold witness_history; repeat apply List.Forall_cons; try apply List.Forall_nil;
      (split; [split; vm_compute; congruence|]);
      first [left; reflexivity | right; split; [reflexivity|vm_compute; discriminate]].
  - vm_compute. reflexivity.
  - replace (sst_paths (w_files w) (str "d")) with [sstable_path (str "d") 1] by (vm_compute; reflexivity).
    apply List.Forall2_cons; [|apply List.Forall2_nil]. split; [|split].
    + split; [vm_compute; reflexivity|discriminate|repeat constructor; vm_compute; congruence
        |repeat constructor|vm_compute; reflexivity].
    + vm_compute. reflexivity.
    + intros x ->%list_elem_of_singleton. left.
  - exists e, w', es. split; [exact E|exact He].
Defined.

(** A compaction cycle preserves the represented map when the compacted
    tables share no key with the tables that stay: wherever the merged table
    is sorted to, reads see the same values, and the inputs are gone. *)
Theorem engine_compaction_preserves w e rs es tnew told newer older :
  no_faults w → engine_rep w e rs es (tnew ++ told) →
  compaction_ready w e newer older tnew told →
  ∃ e' w' tables', compact_and_apply (rev (sst_path <$> older)) e w = (Ok e', w')
    ∧ no_faults w' ∧ engine_rep w' e' rs es tables'.
Proof. apply compaction_rep. Qed.

(** C37: when a newer table that stays rewrote a key of the compacted tables,
    compaction brings the old value back: the merged file gets the current
    time in its name, so it sorts before the newer table. Here key [k] was
    last written as [new]; one tick of the compactor later [Get] returns
    [old]. *)
Theorem engine_compaction_stale_read :
  let d := str "d" in
  let t k v := [mkEntry (str k) (Some (str v)) OpPut] in
  let p n := sstable_path d n in
  let reader n es := mkReader (p n) (sparse_index 0 0 es) in
  let w := mkWorld (<[p 1 := sst_file (t "k" "old")]> (<[p 2 := sst_file (t "a" "x")]>
             (<[p 3 := sst_file (t "k" "new")]> {[p 4 := sst_file (t "b" "y")]}))) [5] [] [] in
  let e := mkEngine d (mkWAL (wal_file d)) NewMemTable
             [reader 4 (t "b" "y"); reader 3 (t "k" "new"); reader 2 (t "a" "x"); reader 1 (t "k" "old")] in
  fst (Get e (str "k") w) = Ok (str "new")
  ∧ fst ((r ← maybeCompact d;
          match r with
          | Some result => e ← applyCompactionResult e result; Get e (str "k")
          | None => io_fail ErrNotFound
          end) w) = Ok (str "old").
Proof. vm_compute. split; reflexivity. Qed.

Definition witness_tables : list (list MemTableEntry) :=
  [[mkEntry (str "b") (Some (str "y")) OpPut]; [mkEntry (str "a") (Some (str "x")) OpPut]].
Definition witness_readers : list SSTableReader :=
  zip_with (λ n es, mkReader (sstable_path (str "d") n) (sparse_index 0 0 es)) [2; 1] witness_tables.
Definition witness_two : list WALRecord :=
  [put_record (str "a") (str "x"); put_record (str "b") (str "y")].
Definition witness_world (clock : list Z) : world :=
  mkWorld (<[wal_file (str "d") := encode_records witness_two]>
    (list_to_map (zip_with (λ r es, (sst_path r, sst_file es)) witness_readers witness_tables)))
    clock [] [].

Lemma witness_rep clock :
  engine_rep (witness_world clock)
    (mkEngine (str "d") (mkWAL (wal_file (str "d"))) NewMemTable witness_readers)
    witness_two [] witness_tables.
Proof.
  split.
  - reflexivity.
  - apply lookup_insert_eq.
  - exists 0. apply mem_rep_new.
  - apply List.Forall_nil.
  - repeat (apply List.Forall2_cons || apply List.Forall2_nil);
      (split; [split|split]); try reflexivity; try discriminate;
      try (repeat constructor; vm_compute; reflexivity).
  - intros r Hr. repeat (apply elem_of_cons in Hr as [->|Hr]; [vm_compute; congruence|]).
    by apply not_elem_of_nil in Hr.
  - intros k.
    replace (history_map witness_two) with (<[str "b" := str "y"]> {[str "a" := str "x"]} : gmap bytes bytes)
      by by_decide.
    rewrite lookup_insert, lookup_singleton. cbn -[str]. repeat case_decide; try congruence; reflexivity.
Qed.

(** Two flushed tables with different keys. *)
Lemma engine_compaction_preserves_witness :
  let e := mkEngine (str "d") (mkWAL (wal_file (str "d"))) NewMemTable witness_readers in
  ∃ e' w' tables', compact_and_apply [sstable_path (str "d") 1; sstable_path (str "d") 2] e
      (witness_world [3]) = (Ok e', w')
    ∧ engine_rep w' e' witness_two [] tables'.
Proof.
  intros e.
  destruct (engine_compaction_preserves (witness_world [3]) e witness_two [] [] witness_tables
              [] witness_readers) as (e' & w' & tables' & E & _ & He).
  - reflexivity.
  - exact (witness_rep [3]).
  - split.
    + reflexivity.
    + reflexivity.
    + repeat constructor; vm_compute; reflexivity.
    + intros t x _ _ t' x' Ht'. by apply not_elem_of_nil in Ht'.
    + right. split; vm_compute; reflexivity.
    + intros p r Hr. repeat (apply elem_of_cons in Hr as [->|Hr]; [vm_compute; split; congruence|]).
      by apply not_elem_of_nil in Hr.
  - exists e', w', tables'. split; [exact E|exact He].
Defined.

(** A full MemTable is taken out of the engine before the lock is released
    for the table write: a [Get] that runs in that window sees only the older
    tables, so it misses every live key of the flushed MemTable; and when the
    write fails the engine stays in that state. *)
Theorem engine_flush_window w e rs es tables :
  no_faults w → engine_rep w e rs es tables → memTableMaxSize <= Size (en_mem e) →
  ∃ e1 w1 p, flush_begin e w = (Ok (Some (e1, es, p)), w1)
    ∧ (∀ key, key ≠ [] → Get e1 key w1 = (get_answer (live (layered_lookup key tables)), w1))
    ∧ (∀ err, flush_end e1 (inl err) p w1 = (Ok e1, w1)).
Proof.
  intros Hw [Hp Hwal [n Hm] Hok Ht Hpaths Hv] Hsz. unfold flush_begin.
  rewrite (proj2 (Z.ltb_ge _ _)) by done. unfold mbind, io_bind, io_lift.
  rewrite (mem_rep_entries _ _ _ Hm). cbn [or_panic]. rewrite time_Now_ok.
  eexists _, _, _. split; [reflexivity|]. split; [|done]. intros key Hk.
  by apply (Get_layers _ _ [] 0 tables); [|apply mem_rep_new| | |].
Qed.

(** In the window the key is not found. *)
Lemma engine_flush_window_witness :
  let d := str "d" in
  let r := put_record (str "k") (str "v") in
  let e := mkEngine d (mkWAL (wal_file d)) witness_full [] in
  let w := mkWorld {[wal_file d := encode_records [r]]} [1] [] [] in
  fst (Get e (str "k") w) = Ok (str "v")
  ∧ ∃ e1 w1 p, flush_begin e w = (Ok (Some (e1, [mkEntry (str "k") (Some (str "v")) OpPut], p)), w1)
    ∧ Get e1 (str "k") w1 = (Err ErrNotFound, w1).
Proof.
  intros d r e w. split; [vm_compute; reflexivity|].
  destruct (engine_flush_window w e [r] [mkEntry (str "k") (Some (str "v")) OpPut] [])
    as (e1 & w1 & p & E & Hget & _).
  - reflexivity.
  - split.
    + reflexivity.
    + apply lookup_singleton_eq.
    + exists (2 ^ 20). exact witness_full_rep.
    + apply List.Forall_cons; [|apply List.Forall_nil].
      split; [right; eexists; reflexivity|split; vm_compute; reflexivity].
    + apply List.Forall2_nil.
    + intros x Hx. by apply not_elem_of_nil in Hx.
    + intros k. replace (history_map [r]) with ({[str "k" := str "v"]} : gmap bytes bytes)
        by by_decide.
      rewrite lookup_singleton. cbn -[str]. case_decide; reflexivity.
  - vm_compute. congruence.
  - exists e1, w1, p. split; [exact E|]. rewrite Hget by discriminate. reflexivity.
Defined.

(** C40: an append that fails half-way leaves torn bytes in the log, and the
    engine goes on appending after them: the next [Put] is acknowledged, is
    synced and can be read, but recovery stops at the torn bytes and cuts the
    acknowledged record off. *)
Theorem engine_lost_acknowledged_write :
  let d := str "d" in
  let w := mkWorld {[wal_file d := []]} [] [] [Some 5%nat] in
  let k1 := str "k1" in let k2 := str "k2" in let v := Some (str "v") in
  ∃ err e1 w1 e2 w2 e3 w3,
    Put (fresh_engine d) k1 v w = (Ok (e1, Some err), w1)
    ∧ Put e1 k2 v w1 = (Ok (e2, None), w2)
    ∧ fst (Get e2 k2 w2) = Ok (str "v")
    ∧ Open d w2 = (Ok e3, w3)
    ∧ fst (Get e3 k2 w3) = Err ErrNotFound.
Proof.
  do 7 eexists. split; [vm_compute; reflexivity|]. split; [vm_compute; reflexivity|].
  split; [vm_compute; reflexivity|]. split; vm_compute; reflexivity.
Qed.

(** An empty value survives until the next restart only: [Put] of an empty
    value is readable, but the log reader turns it into a nil slice, which
    [Get] reports as not found. *)
Theorem engine_empty_value_lost :
  let d := str "d" in
  let w := mkWorld {[wal_file d := []]} [] [] [] in
  ∃ e1 w1 e2 w2,
    Put (fresh_engine d) (str "k") (Some []) w = (Ok (e1, None), w1)
    ∧ fst (Get e1 (str "k") w1) = Ok []
    ∧ Open d w1 = (Ok e2, w2)
    ∧ fst (Get e2 (str "k") w2) = Err ErrNotFound.
Proof.
  do 4 eexists. split; [vm_compute; reflexivity|].
  split; [vm_compute; reflexivity|]. split; vm_compute; reflexivity.
Qed.
