(* ===== verification/Lifecycle.v ===== *)
(** The life of an engine: opening an empty directory, writes that stay below
    the flush threshold, and [Close] followed by [Open]. *)

From S2P Require Import Prelude StorageTypes SkipList MemTable Crc32 Os Wal Recovery SSTable Compaction Engine.

(** ** Specification *)

(** Every table file of the directory is well formed and holds only keys that
    the log has. *)
Definition tables_logged (fs : gmap bytes bytes) (rs : list WALRecord) (dataDir : bytes) : Prop :=
  ∀ p, p ∈ sst_paths fs dataDir → ∃ t, logged_table fs rs p t.

(** What [Close] needs to write the MemTable as a table that reads back: it is
    empty or fits the format, and its keys are logged. *)
Definition close_ready (rs : list WALRecord) (es : list MemTableEntry) : Prop :=
  es = [] ∨ (tail_guarded es ∧ len (sst_file es) < 2 ^ 63 ∧ ∀ x, x ∈ es → e_Key x ∈ r_Key <$> rs).

(** An engine that was opened on an empty directory and has since made [k]
    writes of entries in [P], each of at most [B] bytes of MemTable, without
    reaching the flush threshold. *)
Record run_state (P : MemTableEntry → Prop) (B : Z) (d : bytes) (w : world) (e : Engine) (rs : list WALRecord)
    (es : list MemTableEntry) (k : Z) : Prop := {
  rs_faults : no_faults w;
  rs_dir : en_dataDir e = d;
  rs_rep : engine_rep w e rs es [];
  rs_entries : Forall P es;
  rs_len : len es <= k;
  rs_size : Size (en_mem e) <= B * k;
  rs_records : Forall replayable rs;
  rs_keys : ∀ x, x ∈ es → e_Key x ∈ r_Key <$> rs;
  rs_tables : sst_paths (w_files w) d = [];
}.

(** * Lemmas *)

(** ** The directory *)

(** The representation depends on the files only. *)
Lemma engine_rep_files w w' e rs es tables :
  w_files w' = w_files w → engine_rep w e rs es tables → engine_rep w' e rs es tables.
Proof. intros Hf [? ? ? ? ? ? ?]. split; try done; by rewrite Hf. Qed.

Lemma sst_paths_elem fs dataDir p :
  p ∈ sst_paths fs dataDir ↔
    p ∈ dom fs ∧ ∃ name, name_in_dir dataDir p = Some name ∧ has_ext (str ".sst") name = true.
Proof.
  assert (Hn : ∀ q name, name_in_dir dataDir q = Some name → q = path_Join dataDir name).
  { intros q name. unfold name_in_dir. case_decide as D; [|done]. case_decide; [done|]. intros [= <-].
    unfold path_Join. rewrite app_assoc, <- D at 1. by rewrite take_drop. }
  unfold sst_paths. rewrite stable_sort_perm, list_elem_of_fmap. split.
  - intros (name & -> & Hin). apply list_elem_of_In, List.filter_In in Hin as [Hin Hext].
    apply list_elem_of_In, list_elem_of_omap in Hin as (q & Hq & Hname).
    apply elem_of_elements in Hq. pose proof (Hn q name Hname) as ->. split; [done|]. by exists name.
  - intros (Hd & name & Hname & Hext). exists name. split; [by apply Hn|].
    apply list_elem_of_In, List.filter_In. split; [|done]. apply list_elem_of_In, list_elem_of_omap.
    exists p. by rewrite elem_of_elements.
Qed.

Lemma tables_logged_files fs rs dataDir :
  tables_logged fs rs dataDir → ∃ files, Forall2 (logged_table fs rs) (rev (sst_paths fs dataDir)) files.
Proof.
  unfold tables_logged. intros H.
  assert (H' : ∀ p, p ∈ rev (sst_paths fs dataDir) → ∃ t, logged_table fs rs p t)
    by (intros p Hp%elem_of_rev; auto).
  clear H. induction (rev (sst_paths fs dataDir)) as [|p ps IH]; [by exists []|].
  destruct (H' p ltac:(left)) as [t Ht]. destruct IH as [files Hf]; [intros q Hq; apply H'; by right|].
  exists (t :: files). by constructor.
Qed.

(** Writing one more logged table. *)
Lemma tables_logged_insert fs fs' rs dataDir np es :
  tables_logged fs rs dataDir → logged_table fs' rs np es →
  (∀ p, p ≠ np → p ∈ dom fs' → fs' !! p = fs !! p) → tables_logged fs' rs dataDir.
Proof.
  intros Hl Hnp Hfr p Hp. destruct (decide (p = np)) as [->|Hne]; [by exists es|].
  apply sst_paths_elem in Hp as [Hd Hname]. pose proof (Hfr p Hne Hd) as E.
  destruct (Hl p) as (t & [Hst ? ? ? ?] & Hg & Hk).
  { apply sst_paths_elem. split; [|done]. apply elem_of_dom. rewrite <- E. by apply elem_of_dom. }
  exists t. split; [|done]. split; try done. by rewrite E.
Qed.

Lemma Open_logged w dataDir rs :
  no_faults w → w_files w !! wal_file dataDir = Some (encode_records rs) →
  Forall replayable rs → tables_logged (w_files w) rs dataDir →
  ∃ e w' es tables, Open dataDir w = (Ok e, w') ∧ no_faults w' ∧ engine_rep w' e rs es tables ∧ w_files w' = w_files w.
Proof.
  intros Hw Hf Hrs Hl. destruct (tables_logged_files _ _ _ Hl) as [files Hfiles].
  destruct (Open_files w dataDir rs [] files) as (e & w' & es & E & Hw' & He & Hf' & _); try done.
  { by rewrite app_nil_r. }
  exists e, w', es, files. by rewrite Hf', insert_id.
Qed.

(** An empty directory. *)
Lemma Open_empty w dataDir :
  no_faults w → w_files w !! wal_file dataDir = None → sst_paths (w_files w) dataDir = [] →
  Open dataDir w = (Ok (fresh_engine dataDir), set_files (<[wal_file dataDir := []]> (w_files w)) w)
  ∧ sst_paths (<[wal_file dataDir := []]> (w_files w)) dataDir = [].
Proof.
  intros Hw Hf Hs.
  assert (Hs' : sst_paths (<[wal_file dataDir := []]> (w_files w)) dataDir = []).
  { destruct (sst_paths (<[wal_file dataDir := []]> (w_files w)) dataDir) as [|p l] eqn:E; [done|].
    assert (Hp : p ∈ sst_paths (<[wal_file dataDir := []]> (w_files w)) dataDir) by (rewrite E; left).
    pose proof (sst_paths_not_wal _ _ _ Hp) as Hne. apply sst_paths_elem in Hp as [Hd Hn].
    rewrite dom_insert in Hd. apply elem_of_union in Hd as [?%elem_of_singleton|Hd]; [done|].
    assert (p ∈ sst_paths (w_files w) dataDir) as Hc by (by apply sst_paths_elem).
    rewrite Hs in Hc. by apply not_elem_of_nil in Hc. }
  split; [|done].
  unfold Open, mbind, io_bind at 1, io_wrap. rewrite os_MkdirAll_ok by done.
  assert (Er : Recover (wal_file dataDir) w = (Ok (NewMemTable, 0%nat), w)).
  { unfold Recover, ReadWALRecords, mbind, io_bind, io_wrap, io_try.
    rewrite os_Open_ok, Hf by done. cbn. rewrite os_Stat_ok by done. cbn [w_files set_rng]. rewrite Hf.
    by destruct w. }
  unfold io_bind at 1. rewrite Er. unfold OpenWAL, mbind, io_bind at 1, io_wrap.
  unfold io_bind at 1. rewrite os_OpenAppend_ok by done. rewrite Hf. cbn [default mret io_ret].
  unfold io_bind at 1. rewrite findSSTableFiles_ok by done. cbn [w_files set_files]. by rewrite Hs'.
Qed.

(** ** Writes below the flush threshold *)

(** A write that leaves the MemTable below its limit changes the log and the
    MemTable only. *)
Lemma write_small w e rs es tables r wr :
  no_faults w → engine_rep w e rs es tables →
  record_write r = Some wr → mem_entry_ok (write_entry wr) → len (r_Key r) <= 65535 →
  Size (en_mem e) + entry_size (write_entry wr) + 64 < memTableMaxSize →
  ∃ m' w', (_ ← io_try (Append (en_wal e) (r_Op r) (r_Key r) (r_Value r)); write_tail e wr) w
      = (Ok (set_mem m' e, None), w')
    ∧ no_faults w' ∧ engine_rep w' (set_mem m' e) (rs ++ [r]) (entries_insert (write_entry wr) es) tables
    ∧ w_files w' = <[wal_path (en_wal e) := encode_records rs ++ encode_record r]> (w_files w)
    ∧ Size m' <= Size (en_mem e) + entry_size (write_entry wr) + 64.
Proof.
  intros Hw He Hr Hok Hk Hsmall. pose proof He as [_ Hwal [n Hm] _ _ _ _].
  unfold mbind, io_bind at 1, io_try. rewrite (Append_ok w _ _ _ _ (encode_records rs)) by done.
  change (wal_record (r_Op r) (r_Key r) (slice_bytes (r_Value r))) with (encode_record r).
  set (w1 := set_files _ w).
  destruct (logged_rep w e rs es tables r wr (w_rng w1) He Hr Hok) as (m' & rng' & E & He').
  fold w1 in He'. unfold write_tail, mbind, io_bind, with_rng. rewrite E.
  pose proof (write_size _ _ _ _ _ _ _ Hm E) as Hsz.
  unfold maybeFlushLocked, flush_begin, mbind, io_bind. cbn [set_mem en_mem].
  rewrite (proj2 (Z.ltb_lt _ _)) by lia. cbn. by eexists m', _.
Qed.

(** ** Closing *)

Lemma path_Join_app dir name ext : path_Join dir (name ++ ext) = path_Join dir name ++ ext.
Proof. unfold path_Join. by rewrite <- !app_assoc. Qed.

Lemma wal_Close_ok w wal : no_faults w → wal_Close wal w = (Ok tt, w).
Proof. intros Hw. unfold wal_Close, mbind, io_bind, io_wrap. by autorewrite with os_ok. Qed.

(** An empty MemTable leaves the directory alone; another is written out. *)
Lemma Close_run w e rs es tables :
  no_faults w → engine_rep w e rs es tables →
  ∃ w', Close e w = (Ok tt, w') ∧ no_faults w'
    ∧ (es = [] ∧ w' = w
       ∨ ∃ nanos w1, es ≠ [] ∧ w_files w1 = w_files w ∧ no_faults w1
           ∧ write_outcome es (sstable_path (en_dataDir e) nanos) w1 (Ok tt) w').
Proof.
  intros Hw [_ _ [n Hm] _ _ _ _]. unfold Close, mbind, io_bind at 1. rewrite (mem_rep_len _ _ _ Hm).
  destruct es as [|x es].
  { cbn. unfold io_wrap. rewrite wal_Close_ok by done. exists w. split_and!; try done. by left. }
  cbn [length Nat.ltb Nat.leb]. unfold io_bind at 1, io_lift. rewrite (mem_rep_entries _ _ _ Hm). cbn [or_panic].
  unfold io_bind at 1. rewrite time_Now_ok. set (p := sstable_path _ _).
  set (w1 := mkWorld (w_files w) (tl (w_clock w)) (w_rng w) (w_faults w)).
  unfold io_bind at 1, io_try. destruct (WriteSSTable (x :: es) p w1) as [res w2] eqn:Ew.
  pose proof (WriteSSTable_outcome (x :: es) p w1 res w2 ltac:(done) Ew) as Hout.
  destruct (wo_ok _ _ _ _ _ Hout Hw) as (-> & Hw2 & _). cbn [mret io_ret].
  unfold io_wrap. rewrite wal_Close_ok by done. exists w2. split_and!; try done. right. by exists (hd 0 (w_clock w)), w1.
Qed.

Lemma Close_ok w e rs es tables :
  no_faults w → engine_rep w e rs es tables → close_ready rs es →
  tables_logged (w_files w) rs (en_dataDir e) →
  ∃ w', Close e w = (Ok tt, w') ∧ no_faults w'
    ∧ w_files w' !! wal_file (en_dataDir e) = Some (encode_records rs)
    ∧ tables_logged (w_files w') rs (en_dataDir e)
    ∧ (∀ x name, x ≠ x73 → w_files w' !! path_Join (en_dataDir e) (x :: name) = w_files w !! path_Join (en_dataDir e) (x :: name)).
Proof.
  intros Hw He Hcr Hl. destruct (Close_run w e rs es tables Hw He) as (w' & Ec & Hw' & Hcase).
  pose proof He as [Hp Hwal [n Hm] Hok _ _ _]. rewrite Hp in Hwal. exists w'. split; [done|]. split; [done|].
  destruct Hcase as [[-> ->]|(nanos & w1 & Hne & Hf & Hw1 & [Ho Hpath _ _ _ Hokw])]; [done|].
  destruct Hcr as [?|(Hg & Hlt & Hk)]; [done|]. rewrite Hf in Ho. destruct (Hokw Hw1) as (_ & _ & Htmp).
  set (p := sstable_path (en_dataDir e) nanos) in *.
  assert (Hfr : ∀ x name, x ≠ x73 → w_files w' !! path_Join (en_dataDir e) (x :: name) = w_files w !! path_Join (en_dataDir e) (x :: name)).
  { intros c name Hc. apply Ho; unfold p, sstable_path, tmp_path, str; [|rewrite <- path_Join_app]; by apply path_first_byte. }
  split; [|split; [|exact Hfr]].
  - rewrite Ho; [done|apply wal_file_not_table|apply wal_file_not_tmp].
  - eapply (tables_logged_insert (w_files w) (w_files w') rs _ p es); [done| |].
    + split; [|done]. split; try done; [|by eapply mem_rep_sorted].
      eapply Forall_impl; [exact Hok|]. by intros y [_ ?].
    + intros q Hq Hd. apply Ho; [done|]. intros ->. apply elem_of_dom in Hd as [d Hd]. congruence.
Qed.

(** ** Runs of small writes *)

Lemma run_write P B d w e rs es k r wr :
  run_state P B d w e rs es k → 0 <= k → record_write r = Some wr → mem_entry_ok (write_entry wr) →
  replayable r → P (write_entry wr) → r_Key r = e_Key (write_entry wr) → len (r_Key r) <= 65535 →
  entry_size (write_entry wr) + 64 <= B → B * (k + 1) < memTableMaxSize →
  ∃ m' w', (_ ← io_try (Append (en_wal e) (r_Op r) (r_Key r) (r_Value r)); write_tail e wr) w
      = (Ok (set_mem m' e, None), w')
    ∧ run_state P B d w' (set_mem m' e) (rs ++ [r]) (entries_insert (write_entry wr) es) (k + 1).
Proof.
  intros [T1 T2 T3 T4 T5 T6 T7 T8 T9] Hk Hr Hok Hrp Hte Hkey Hkl Hes Hb.
  destruct (write_small w e rs es [] r wr T1 T3 Hr Hok Hkl) as (m' & w' & E & Hw' & He' & Hf & Hsz); [lia|].
  exists m', w'. split; [done|]. split; try done.
  - apply Forall_forall. rewrite Forall_forall in T4. intros x [->|Hx]%entries_insert_elem; auto.
  - clear - T5. unfold len in *. assert (length (entries_insert (write_entry wr) es) ≤ S (length es))%nat; [|lia].
    clear. induction es as [|x es IH]; cbn; [lia|]. destruct (bytes_compare _ _); cbn; lia.
  - cbn. lia.
  - apply Forall_app. split; [done|]. by apply Forall_singleton.
  - intros x Hx. rewrite fmap_app. apply elem_of_app. apply entries_insert_elem in Hx as [->|Hx]; [|auto].
    right. rewrite <- Hkey. left.
  - rewrite Hf. rewrite <- T9. apply sst_paths_same_dom, dom_insert_lookup_L. rewrite (er_wal _ _ _ _ _ T3). eauto.
Qed.

Lemma index_bytes_bound K es : ∀ i off,
  Forall (λ x, len (e_Key x) <= K) es → 0 <= K → len (index_bytes (sparse_index i off es)) <= (10 + K) * len es.
Proof.
  induction es as [|x es IH]; intros i off Hes HK; [unfold len; cbn; lia|]. apply Forall_cons in Hes as [Hx Hes].
  specialize (IH (S i) (off + len (encode_entry x)) Hes HK). cbn [sparse_index]. rewrite len_cons.
  case_decide; [|lia]. unfold index_bytes in *. cbn [fmap list_fmap concat]. rewrite len_app.
  unfold encode_index_entry at 1. rewrite !len_app, !len_le_put. cbn [i_key]. lia.
Qed.

Lemma sst_data_bound B es :
  Forall (λ x, entry_size x <= B) es → len (sst_data es) <= (7 + B) * len es.
Proof.
  induction 1 as [|x es Hx _ IH]; [unfold len; cbn; lia|]. rewrite len_cons.
  unfold sst_data in *. cbn [fmap list_fmap concat]. rewrite len_app.
  unfold encode_entry at 1. rewrite !len_app, !len_le_put, len_cons, len_nil. unfold entry_size in Hx. lia.
Qed.

(** Keys with a common fourth byte make a table that reads back. *)
Lemma run_close_ready P B d w e rs es k K V c :
  run_state P B d w e rs es k →
  (∀ x, P x → len (e_Key x) <= K ∧ entry_size x <= V ∧ ∃ b0 b1 b2 n, e_Key x = b0 :: b1 :: b2 :: c :: n) →
  (10 + K) * k + 16 < byte_to_Z c * 2 ^ 24 → (17 + K + V) * k + 16 < 2 ^ 63 →
  close_ready rs es.
Proof.
  intros [_ _ _ T4 T5 _ _ T8 _] HP Hc Hs. destruct es as [|x es]; [by left|]. right.
  destruct (HP x (Forall_inv T4)) as (HK & HV & b0 & b1 & b2 & n & Hn). pose proof (len_nonneg (e_Key x)).
  assert (0 <= V) by (unfold entry_size in HV; pose proof (len_nonneg (slice_bytes (e_Value x))); lia).
  assert (H1 : len (sst_tail (x :: es)) <= (10 + K) * len (x :: es) + 16).
  { unfold sst_tail. rewrite len_app. unfold encode_footer. rewrite len_app, !len_le_put.
    assert (len (index_bytes (sparse_index 0 0 (x :: es))) <= (10 + K) * len (x :: es)); [|lia].
    apply index_bytes_bound; [|lia]. eapply Forall_impl; [exact T4|]. intros y Hy. apply (HP y Hy). }
  assert (H2 : len (sst_data (x :: es)) <= (7 + V) * len (x :: es)).
  { apply sst_data_bound. eapply Forall_impl; [exact T4|]. intros y Hy. apply (HP y Hy). }
  assert ((10 + K) * len (x :: es) <= (10 + K) * k) by (apply Z.mul_le_mono_nonneg_l; lia).
  assert ((7 + V) * len (x :: es) <= (7 + V) * k) by (apply Z.mul_le_mono_nonneg_l; lia).
  split; [|split; [unfold sst_file; rewrite len_app; lia|done]].
  eapply (tail_guarded_text x es); [exact Hn|lia].
Qed.

(** * Properties *)

(** A clean shutdown loses nothing: when every put of the history had a
    non-empty value, the table files hold only logged keys and the MemTable
    fits the table format, [Close] writes the MemTable out and reports no
    error, and [Open] of the directory gives an engine that represents the
    same history, although the log is replayed over tables that already hold
    the same writes. *)
Theorem engine_close_reopen w e rs es tables :
  no_faults w → engine_rep w e rs es tables → Forall replayable rs → close_ready rs es →
  tables_logged (w_files w) rs (en_dataDir e) →
  ∃ w1 e' w2 es' tables', Close e w = (Ok tt, w1) ∧ Open (en_dataDir e) w1 = (Ok e', w2)
    ∧ no_faults w2 ∧ engine_rep w2 e' rs es' tables'.
Proof.
  intros Hw He Hrs Hcr Hl. destruct (Close_ok w e rs es tables Hw He Hcr Hl) as (w1 & Ec & Hw1 & Hf1 & Hl1 & _).
  destruct (Open_logged w1 (en_dataDir e) rs Hw1 Hf1 Hrs Hl1) as (e' & w2 & es' & ts' & Eo & Hw2 & He2 & _).
  by exists w1, e', w2, es', ts'.
Qed.

(** An engine with one unflushed write. *)
Lemma engine_close_reopen_witness :
  let r := put_record (str "apple") (str "v") in
  let w := mkWorld {[wal_file (str "d") := []]} [7] [true; false] [] in
  ∃ e1 w1 w2 e' w3 es' tables', Engine.Put (fresh_engine (str "d")) (str "apple") (Some (str "v")) w = (Ok (e1, None), w1)
    ∧ Close e1 w1 = (Ok tt, w2) ∧ Open (str "d") w2 = (Ok e', w3) ∧ engine_rep w3 e' [r] es' tables'.
Proof.
  intros r w. destruct (write_small w (fresh_engine (str "d")) [] [] [] r (WPut (str "apple") (Some (str "v"))))
    as (m' & w1 & E & Hw1 & He & Hf & _).
  - reflexivity.
  - apply fresh_rep.
  - reflexivity.
  - split; [right; eexists; reflexivity|]. split; vm_compute; reflexivity.
  - vm_compute. congruence.
  - vm_compute. reflexivity.
  - destruct (engine_close_reopen w1 (set_mem m' (fresh_engine (str "d"))) [r]
      [mkEntry (str "apple") (Some (str "v")) OpPut] [])
      as (w2 & e' & w3 & es' & ts' & Ec & Eo & _ & He').
    + exact Hw1.
    + exact He.
    + apply List.Forall_cons; [|apply List.Forall_nil]. split; [split; vm_compute; congruence|].
      right. split; [reflexivity|vm_compute; discriminate].
    + right. split; [vm_compute; reflexivity|]. split; [vm_compute; reflexivity|].
      intros x ->%list_elem_of_singleton. left.
    + intros p Hp. exfalso. rewrite Hf in Hp.
      replace (sst_paths _ _) with (@nil bytes) in Hp by (vm_compute; reflexivity).
      by apply not_elem_of_nil in Hp.
    + exists (set_mem m' (fresh_engine (str "d"))), w1, w2, e', w3, es', ts'.
      split; [exact E|]. split; [exact Ec|]. split; [exact Eo|exact He'].
Defined.
