(* ===== verification/Background.v ===== *)
(** The background half of the storage engine: the compactor goroutine with its
    ticker and its result channel ([Compactor.Start]), and the engine goroutine
    that takes results from the channel ([processCompactionResults]), as steps
    that interleave with client writes. *)

From S2P Require Import Prelude StorageTypes SkipList MemTable Crc32 Os Wal Recovery SSTable Compaction Engine Lifecycle.

(** ** State *)

(** The directory, the content of [resultCh], and the result of a goroutine
    that is blocked on sending it. *)
Record Compactor := mkCompactor {
  cp_dataDir : bytes;
  cp_resultCh : list CompactionResult;
  cp_sending : option CompactionResult;
}.

Definition resultCh_cap : nat := 4.

Definition NewCompactor (dataDir : bytes) : Compactor := mkCompactor dataDir [] None.

(** [c.resultCh <- *result] *)
Definition send_result (c : Compactor) (result : CompactionResult) : Compactor :=
  if (length (cp_resultCh c) <? resultCh_cap)%nat
  then mkCompactor (cp_dataDir c) (cp_resultCh c ++ [result]) None
  else mkCompactor (cp_dataDir c) (cp_resultCh c) (Some result).

(** [<-e.compactor.ResultCh()]: the oldest result; a blocked sender gets the
    free place. *)
Definition receive_result (c : Compactor) : option (CompactionResult * Compactor) :=
  match cp_resultCh c with
  | [] => None
  | r :: rs =>
      Some (r, match cp_sending c with
               | Some s => mkCompactor (cp_dataDir c) (rs ++ [s]) None
               | None => mkCompactor (cp_dataDir c) rs None
               end)
  end.

(** ** Steps *)

(** [case <-ticker.C] in [Start]: a goroutine that is blocked in a send takes no
    tick; an error of [maybeCompact] is only logged. *)
Definition compactor_tick (c : Compactor) : IO Compactor :=
  match cp_sending c with
  | Some _ => mret c
  | None =>
      r ← io_try (maybeCompact (cp_dataDir c));
      mret (match r with
            | inr (Some result) => send_result c result
            | _ => c
            end)
  end.

(** One iteration of [processCompactionResults]; it waits when there is no
    result. *)
Definition process_result (e : Engine) (c : Compactor) : IO (Engine * Compactor) :=
  match receive_result c with
  | None => mret (e, c)
  | Some (result, c) => e ← applyCompactionResult e result; mret (e, c)
  end.

(** The steps of a running engine, in the order of a schedule. *)
Inductive bg_event :=
| BgTick
| BgProcess
| BgPut (key value : bytes)
| BgDelete (key : bytes).

Definition bg_step (ev : bg_event) (e : Engine) (c : Compactor) : IO (Engine * Compactor) :=
  match ev with
  | BgTick => c ← compactor_tick c; mret (e, c)
  | BgProcess => process_result e c
  | BgPut key value => '(e, _) ← Engine.Put e key (Some value); mret (e, c)
  | BgDelete key => '(e, _) ← Engine.Delete e key; mret (e, c)
  end.

Fixpoint bg_run (evs : list bg_event) (e : Engine) (c : Compactor) : IO (Engine * Compactor) :=
  match evs with
  | [] => mret (e, c)
  | ev :: evs => '(e, c) ← bg_step ev e c; bg_run evs e c
  end.

(** ** Specification *)

(** The channel never holds more than its capacity, and a goroutine is blocked
    only when it is full. *)
Definition compactor_ok (c : Compactor) : Prop :=
  (length (cp_resultCh c) ≤ resultCh_cap)%nat
  ∧ (is_Some (cp_sending c) → length (cp_resultCh c) = resultCh_cap).

(** The records a schedule logs. *)
Definition event_record (ev : bg_event) : option WALRecord :=
  match ev with
  | BgPut key value => Some (put_record key value)
  | BgDelete key => Some (delete_record key)
  | _ => None
  end.

Definition event_size (ev : bg_event) : Z :=
  match ev with
  | BgPut key value => len key + len value + 64
  | BgDelete key => len key + 64
  | _ => 0
  end.

Definition events_size (evs : list bg_event) : Z := foldr (λ ev s, event_size ev + s) 0 evs.

(** Writes that the engine accepts. *)
Definition event_ok (ev : bg_event) : Prop :=
  match ev with
  | BgPut key value => key ≠ [] ∧ len key <= 65535 ∧ len value < 2 ^ 32
  | BgDelete key => key ≠ [] ∧ len key <= 65535
  | _ => True
  end.

(** * Lemmas *)

Lemma new_compactor_ok dataDir : compactor_ok (NewCompactor dataDir).
Proof. split; [cbn; lia|]. by intros [? ?]. Qed.

Lemma send_result_ok c result : compactor_ok c → cp_sending c = None → compactor_ok (send_result c result).
Proof.
  intros [Hl _] _. unfold send_result. destruct (Nat.ltb_spec (length (cp_resultCh c)) resultCh_cap) as [H|H]; split; cbn.
  - rewrite length_app. cbn. unfold resultCh_cap in *. lia.
  - by intros [? ?].
  - lia.
  - lia.
Qed.

Lemma receive_result_ok c result c' : compactor_ok c → receive_result c = Some (result, c') → compactor_ok c'.
Proof.
  intros [Hl Hs] E. unfold receive_result in E. destruct (cp_resultCh c) as [|r rs]; [done|]. cbn in Hl.
  destruct (cp_sending c) as [s|]; injection E as _ <-; split; cbn; try (by intros [? ?]).
  - rewrite length_app. cbn. lia.
  - lia.
Qed.

Lemma bg_step_ok ev e c w e' c' w' :
  compactor_ok c → bg_step ev e c w = (Ok (e', c'), w') → compactor_ok c'.
Proof.
  intros Hc E. destruct ev as [| |key v|key]; cbn in E; unfold mbind, io_bind in E.
  - unfold compactor_tick in E. destruct (cp_sending c) as [s|] eqn:Es.
    { by injection E as _ <- _. }
    unfold mbind, io_bind in E. destruct (io_try (maybeCompact (cp_dataDir c)) w) as [[[err|[result|]]|err|] w1]; try done;
      injection E as _ <- _; [done| |done]. by apply send_result_ok.
  - unfold process_result in E. destruct (receive_result c) as [[result c1]|] eqn:Er; [|by injection E as _ <- _].
    unfold mbind, io_bind in E. destruct (applyCompactionResult e result w) as [[e1|err|] w1]; try done.
    injection E as _ <- _. by eapply receive_result_ok.
  - destruct (Engine.Put e key (Some v) w) as [[[e1 err]|err|] w1]; try done. by injection E as _ <- _.
  - destruct (Engine.Delete e key w) as [[[e1 err]|err|] w1]; try done. by injection E as _ <- _.
Qed.

(** ** Below the threshold *)

Lemma tick_idle w c :
  no_faults w → (length (sst_paths (w_files w) (cp_dataDir c)) < compactionThreshold)%nat →
  compactor_tick c w = (Ok c, w).
Proof.
  intros Hw Hlt. unfold compactor_tick. destruct (cp_sending c); [done|].
  unfold mbind, io_bind, io_try, maybeCompact, mbind, io_bind, io_wrap. rewrite findSSTableFiles_ok by done.
  by rewrite (proj2 (Nat.ltb_lt _ _)).
Qed.

Lemma put_size key v : entry_size (write_entry (WPut key (Some v))) = len key + len v.
Proof. done. Qed.
Lemma delete_size key : entry_size (write_entry (WDelete key)) = len key.
Proof. unfold entry_size, slice_bytes. cbn. rewrite len_nil. lia. Qed.

(** A client write that does not reach the flush threshold. *)
Lemma bg_write_small w e c rs es tables ev r :
  no_faults w → engine_rep w e rs es tables → event_ok ev → event_record ev = Some r →
  Size (en_mem e) + event_size ev < memTableMaxSize →
  ∃ e' w' es', bg_step ev e c w = (Ok (e', c), w') ∧ no_faults w' ∧ engine_rep w' e' (rs ++ [r]) es' tables
    ∧ en_dataDir e' = en_dataDir e ∧ dom (w_files w') = dom (w_files w)
    ∧ Size (en_mem e') <= Size (en_mem e) + event_size ev.
Proof.
  intros Hw He Hok Hr Hsz. pose proof (er_wal _ _ _ _ _ He) as Hwal.
  assert (Hd : ∀ d, dom (<[wal_path (en_wal e) := d]> (w_files w)) = dom (w_files w))
    by (intros d; apply dom_insert_lookup_L; by rewrite Hwal).
  destruct ev as [| |key v|key]; try done; injection Hr as <-; cbn [event_size event_ok] in *.
  - destruct Hok as (Hne & Hk & Hv).
    destruct (write_small w e rs es tables (put_record key v) (WPut key (Some v)) Hw He)
      as (m' & w' & E & Hw' & He' & Hf & Hsz'); [done|by apply put_entry_ok|done|rewrite put_size; lia|].
    rewrite put_size in Hsz'.
    exists (set_mem m' e), w', (entries_insert (write_entry (WPut key (Some v))) es).
    split; [|rewrite Hf, Hd; split_and!; try done; cbn; lia].
    cbn. unfold mbind at 1, io_bind at 1. erewrite Put_write by (done || apply He). cbn [put_record r_Op r_Key r_Value] in E. by rewrite E.
  - destruct Hok as (Hne & Hk).
    destruct (write_small w e rs es tables (delete_record key) (WDelete key) Hw He)
      as (m' & w' & E & Hw' & He' & Hf & Hsz'); [done|by apply delete_entry_ok|done|rewrite delete_size; lia|].
    rewrite delete_size in Hsz'.
    exists (set_mem m' e), w', (entries_insert (write_entry (WDelete key)) es).
    split; [|rewrite Hf, Hd; split_and!; try done; cbn; lia].
    cbn. unfold mbind at 1, io_bind at 1. erewrite Delete_write by (done || apply He). cbn [delete_record r_Op r_Key r_Value] in E. by rewrite E.
Qed.

(** ** One cycle *)

(** A tick compacts the two oldest tables of the directory. *)
Lemma tick_compacts w e c newer older :
  no_faults w → cp_dataDir c = en_dataDir e → cp_resultCh c = [] → cp_sending c = None →
  en_sstables e = newer ++ older → length older = 2%nat → (2 ≤ length newer)%nat →
  sst_paths (w_files w) (en_dataDir e) = rev (sst_path <$> en_sstables e) →
  compactor_tick c w =
    match compactFiles (rev (sst_path <$> older)) (en_dataDir e) w with
    | (Ok result, w') => (Ok (mkCompactor (cp_dataDir c) [result] None), w')
    | (Err _, w') => (Ok c, w')
    | (Panic, w') => (Panic, w')
    end.
Proof.
  intros Hw Hc Hch Hsd Hsst Ho Hn Hdir. unfold compactor_tick. rewrite Hsd, Hc.
  unfold mbind, io_bind, io_try, maybeCompact, mbind, io_bind, io_wrap. rewrite findSSTableFiles_ok by done.
  rewrite Hdir, Hsst, fmap_app, rev_app_distr.
  assert (Hl : length (rev (sst_path <$> older)) = 2%nat) by (by rewrite length_rev, length_fmap).
  rewrite (proj2 (Nat.ltb_ge _ _)) by (rewrite length_app, Hl, length_rev, length_fmap; unfold compactionThreshold; lia).
  rewrite take_app_length' by done.
  destruct (compactFiles (rev (sst_path <$> older)) (en_dataDir e) w) as [[result|err|] w1]; cbn; [|done|done].
  unfold send_result. by rewrite Hch, Hc.
Qed.

(** * Properties *)

(** While the directory has fewer than four tables, the background
    goroutines do not interfere: whatever the order of ticks, results and
    client writes, as long as the writes stay below the flush threshold the
    engine represents exactly the history of the writes, and the compactor
    sends nothing. *)
Theorem background_idle_below_threshold evs : ∀ w e c rs es tables,
  no_faults w → engine_rep w e rs es tables → Forall event_ok evs →
  Size (en_mem e) + events_size evs < memTableMaxSize →
  cp_dataDir c = en_dataDir e → cp_resultCh c = [] →
  (length (sst_paths (w_files w) (en_dataDir e)) < compactionThreshold)%nat →
  ∃ e' w' es', bg_run evs e c w = (Ok (e', c), w')
    ∧ no_faults w' ∧ engine_rep w' e' (rs ++ omap event_record evs) es' tables.
Proof.
  induction evs as [|ev evs IH]; intros w e c rs es tables Hw He Hok Hsz Hc Hch Hlt.
  { exists e, w, es. by rewrite app_nil_r. }
  apply Forall_cons in Hok as [Hev Hok]. cbn [events_size foldr] in Hsz. fold (events_size evs) in Hsz.
  assert (Hsz1 : 0 <= events_size evs).
  { clear. induction evs as [|[| |k v|k] evs IH]; cbn [events_size foldr]; try done;
      fold (events_size evs); cbn; pose proof (len_nonneg k); try pose proof (len_nonneg v); lia. }
  cbn [bg_run]. unfold mbind, io_bind.
  destruct (event_record ev) as [r|] eqn:Er.
  - destruct (bg_write_small w e c rs es tables ev r Hw He Hev Er) as (e1 & w1 & es1 & E1 & Hw1 & He1 & Hd1 & Hdom & Hs1); [lia|].
    rewrite E1. cbn [omap list_omap]. rewrite Er, cons_middle, app_assoc. apply IH with es1; try done.
    + lia.
    + by rewrite Hd1.
    + by rewrite Hd1, (sst_paths_same_dom (w_files w)).
  - assert (Es : bg_step ev e c w = (Ok (e, c), w)).
    { destruct ev; try done; cbn; unfold mbind, io_bind.
      - rewrite tick_idle; [done|done|by rewrite Hc].
      - unfold process_result, receive_result. by rewrite Hch. }
    rewrite Es. cbn [omap list_omap]. rewrite Er. apply IH with es; try done.
    destruct ev; try done; cbn in Hsz; lia.
Qed.

Lemma background_idle_below_threshold_witness :
  let w := mkWorld {[wal_file (str "d") := []]} [] [] [] in
  let evs := [BgTick; BgPut (str "k") (str "v1"); BgProcess; BgTick; BgPut (str "k") (str "v2"); BgDelete (str "j"); BgTick] in
  ∃ e' w' es', bg_run evs (fresh_engine (str "d")) (NewCompactor (str "d")) w = (Ok (e', NewCompactor (str "d")), w')
    ∧ engine_rep w' e' [put_record (str "k") (str "v1"); put_record (str "k") (str "v2"); delete_record (str "j")] es' [].
Proof.
  intros w evs.
  destruct (background_idle_below_threshold evs w (fresh_engine (str "d")) (NewCompactor (str "d")) [] [] [])
    as (e' & w' & es' & E & _ & He).
  - reflexivity.
  - apply fresh_rep.
  - unfold evs; repeat apply List.Forall_cons; try apply List.Forall_nil; cbn -[str];
      try exact I; repeat split; vm_compute; congruence.
  - vm_compute. reflexivity.
  - reflexivity.
  - reflexivity.
  - replace (sst_paths (w_files w) _) with (@nil bytes) by (vm_compute; reflexivity). vm_compute. lia.
  - exists e', w', es'. split; [exact E|exact He].
Defined.


(** Four tables with different keys. *)
Definition witness_four : list (list MemTableEntry) :=
  (λ k, [mkEntry (str k) (Some (str "v")) OpPut]) <$> ["d"; "c"; "b"; "a"]%string.
Definition witness_four_readers : list SSTableReader :=
  zip_with (λ n t, mkReader (sstable_path (str "d") n) (sparse_index 0 0 t)) [4; 3; 2; 1] witness_four.
Definition witness_four_log : list WALRecord :=
  (λ k, put_record (str k) (str "v")) <$> ["a"; "b"; "c"; "d"]%string.
Definition witness_four_world : world :=
  mkWorld (<[wal_file (str "d") := encode_records witness_four_log]>
    (list_to_map (zip_with (λ r t, (sst_path r, sst_file t)) witness_four_readers witness_four))) [5] [] [].
Definition witness_four_engine : Engine :=
  mkEngine (str "d") (mkWAL (wal_file (str "d"))) NewMemTable witness_four_readers.

Lemma witness_four_rep : engine_rep witness_four_world witness_four_engine witness_four_log [] witness_four.
Proof.
  split.
  - reflexivity.
  - apply lookup_insert_eq.
  - exists 0. apply mem_rep_new.
  - apply List.Forall_nil.
  - unfold witness_four_engine, witness_four_readers, witness_four. cbn [en_sstables fmap list_fmap zip_with].
    repeat (apply List.Forall2_cons || apply List.Forall2_nil);
      (split; [split|split]); try reflexivity; try discriminate; try (repeat constructor; vm_compute; reflexivity).
  - intros r Hr. unfold witness_four_engine, witness_four_readers, witness_four in Hr.
    cbn [en_sstables fmap list_fmap zip_with] in Hr.
    repeat (apply elem_of_cons in Hr as [->|Hr]; [vm_compute; congruence|]). by apply not_elem_of_nil in Hr.
  - intros k.
    replace (history_map witness_four_log) with
      (<[str "d" := str "v"]> (<[str "c" := str "v"]> (<[str "b" := str "v"]> {[str "a" := str "v"]})) : gmap bytes bytes)
      by by_decide.
    rewrite !lookup_insert, lookup_singleton. cbn -[str]. repeat case_decide; try congruence; reflexivity.
Qed.


(** The result channel is bounded: whatever the schedule of ticks, results
    and writes and whatever I/O fails, it never holds more than four results,
    and the compactor waits in a send only while it is full. *)
Theorem compactor_channel_bounded evs : ∀ e c w e' c' w',
  compactor_ok c → bg_run evs e c w = (Ok (e', c'), w') → compactor_ok c'.
Proof.
  induction evs as [|ev evs IH]; intros e c w e' c' w' Hc E; cbn in E; [by injection E as _ <- _|].
  unfold mbind, io_bind in E. destruct (bg_step ev e c w) as [[[e1 c1]|err|] w1] eqn:Es; try done.
  eapply IH; [|exact E]. by eapply bg_step_ok.
Qed.

Lemma compactor_channel_bounded_witness :
  ∃ e' c' w', bg_run [BgTick; BgTick; BgProcess; BgTick] witness_four_engine (NewCompactor (str "d")) witness_four_world
      = (Ok (e', c'), w') ∧ compactor_ok c'.
Proof.
  assert (Hok : match fst (bg_run [BgTick; BgTick; BgProcess; BgTick] witness_four_engine (NewCompactor (str "d"))
    witness_four_world) with Ok _ => true | _ => false end = true) by (vm_compute; reflexivity).
  destruct (bg_run [BgTick; BgTick; BgProcess; BgTick] witness_four_engine (NewCompactor (str "d")) witness_four_world)
    as [[[e' c']|err|] w'] eqn:E; [|discriminate Hok..].
  exists e', c', w'. split; [reflexivity|].
  exact (compactor_channel_bounded _ _ _ _ _ _ _ (new_compactor_ok (str "d")) E).
Defined.
