(* ===== verification/Concurrent.v ===== *)
(** The engine with concurrent clients. [maybeFlushLocked] releases the
    engine's mutex while the table is written, so that other clients read and
    write, and start flushes of their own, before the flush ends. Here a write
    is split at these points: the part up to [e.mu.Unlock()], the write of the
    table, the part after [e.mu.Lock()]; each part is one step, and steps of
    any number of clients are interleaved. [Compacting.v] adds the compactor. *)

From S2P Require Import Prelude StorageTypes SkipList MemTable Crc32 Os Wal Recovery SSTable Compaction Engine.

(** ** State *)

(** A goroutine inside the window: what it writes, where, and the result of
    the write once there is one. *)
Record flight := mkFlight {
  fl_entries : list MemTableEntry;
  fl_path : bytes;
  fl_result : option (error + unit);
}.

(** The engine and the goroutines inside the window, the latest first. *)
Record conc := mkConc {
  cc_engine : Engine;
  cc_flights : list flight;
}.

(** ** Steps *)

(** [maybeFlushLocked] up to [e.mu.Unlock()]. *)
Definition begin_flush (e : Engine) : IO (Engine * list flight) :=
  b ← flush_begin e;
  mret (match b with
        | None => (e, [])
        | Some (e, entries, sstPath) => (e, [mkFlight entries sstPath None])
        end).

(** [Put] up to the unlock: its own, or that of the flush it starts. *)
Definition put_locked (e : Engine) (key : bytes) (value : slice) : IO (Engine * list flight * option error) :=
  if decide (length key = 0%nat)
  then mret (e, [], Some (Errorf "engine: key cannot be empty")) else
  r ← io_try (Append (en_wal e) OpPut key value);
  match r with
  | inl err => mret (e, [], Some (Wrapf "engine: WAL append failed" err))
  | inr _ =>
      mem ← with_rng (MemTable.Put (en_mem e) key value);
      '(e, fl) ← begin_flush (set_mem mem e);
      mret (e, fl, None)
  end.

Definition delete_locked (e : Engine) (key : bytes) : IO (Engine * list flight * option error) :=
  if decide (length key = 0%nat)
  then mret (e, [], Some (Errorf "engine: key cannot be empty")) else
  r ← io_try (Append (en_wal e) OpDelete key None);
  match r with
  | inl err => mret (e, [], Some (Wrapf "engine: WAL append failed" err))
  | inr _ =>
      mem ← with_rng (MemTable.Delete (en_mem e) key);
      '(e, fl) ← begin_flush (set_mem mem e);
      mret (e, fl, None)
  end.

(** What is left of a write that started the flushes [fl] (at most one), when
    no other client runs. *)
Definition end_flush (e : Engine) (fl : list flight) : IO Engine :=
  match fl with
  | [] => mret e
  | f :: _ => r ← io_try (WriteSSTable (fl_entries f) (fl_path f)); flush_end e r (fl_path f)
  end.

Inductive conc_event :=
| CePut (key : bytes) (value : bytes)
| CeDelete (key : bytes)
| CeTable (k : nat)       (* flight [k] writes its table, without the lock *)
| CeInstall (k : nat).    (* flight [k] gets the lock back and ends *)

Definition conc_exec (c : conc) (ev : conc_event) : IO conc :=
  match ev with
  | CePut key value =>
      '(e, fl, _) ← put_locked (cc_engine c) key (Some value);
      mret (mkConc e (fl ++ cc_flights c))
  | CeDelete key =>
      '(e, fl, _) ← delete_locked (cc_engine c) key;
      mret (mkConc e (fl ++ cc_flights c))
  | CeTable k =>
      match cc_flights c !! k with
      | Some (mkFlight entries p None) =>
          r ← io_try (WriteSSTable entries p);
          mret (mkConc (cc_engine c) (<[k := mkFlight entries p (Some r)]> (cc_flights c)))
      | _ => mret c
      end
  | CeInstall k =>
      match cc_flights c !! k with
      | Some (mkFlight entries p (Some r)) =>
          e ← flush_end (cc_engine c) r p;
          mret (mkConc e (delete k (cc_flights c)))
      | _ => mret c
      end
  end.

Fixpoint conc_run (evs : list conc_event) (c : conc) : IO conc :=
  match evs with
  | [] => mret c
  | ev :: evs => c ← conc_exec c ev; conc_run evs c
  end.

(** ** Specification *)

Definition event_records (ev : conc_event) : list WALRecord :=
  match ev with
  | CePut key value => [put_record key value]
  | CeDelete key => [delete_record key]
  | _ => []
  end.

(** The name of a table file. *)
Definition sst_named (p : bytes) : Prop := ∃ x, p = x ++ str ".sst".

(** The paths of the tables in flight and of the installed ones. *)
Definition conc_paths (c : conc) : list bytes :=
  (fl_path <$> cc_flights c) ++ (sst_path <$> en_sstables (cc_engine c)).

(** A goroutine inside the window has well-formed entries; once it has written
    them the file is there. *)
Record flight_ok (fs : gmap bytes bytes) (f : flight) : Prop := {
  fo_ne : fl_entries f ≠ [];
  fo_sorted : entries_sorted (fl_entries f);
  fo_ok : Forall mem_entry_ok (fl_entries f);
  fo_guarded : tail_guarded (fl_entries f);
  fo_size : len (sst_file (fl_entries f)) < 2 ^ 63;
  fo_result : fl_result f = None ∨ fl_result f = Some (inr tt) ∧ fs !! fl_path f = Some (sst_file (fl_entries f));
}.

(** The MemTable, the tables in flight and the installed tables, newest first,
    together show the map of the logged history. *)
Record conc_rep (w : world) (c : conc) (rs : list WALRecord) (es : list MemTableEntry)
    (tables : list (list MemTableEntry)) : Prop := {
  cp_wal_path : wal_path (en_wal (cc_engine c)) = wal_file (en_dataDir (cc_engine c));
  cp_wal : w_files w !! wal_path (en_wal (cc_engine c)) = Some (encode_records rs);
  cp_mem : ∃ n, mem_rep (en_mem (cc_engine c)) es n;
  cp_mem_ok : Forall mem_entry_ok es;
  cp_flights : Forall (flight_ok (w_files w)) (cc_flights c);
  cp_tables : Forall2 (table_open (w_files w)) (en_sstables (cc_engine c)) tables;
  cp_named : Forall sst_named (conc_paths c);
  cp_nodup : NoDup (conc_paths c);
  cp_view : ∀ k, live (layered_lookup k (es :: (fl_entries <$> cc_flights c) ++ tables)) = history_map rs !! k;
}.

(** A write: lengths fit, and the MemTable stays small or is ready to be
    flushed under a path not in use. *)
Definition conc_write_ready (w : world) (c : conc) (wr : write) : Prop :=
  Size (en_mem (cc_engine c)) + entry_size (write_entry wr) + 64 < memTableMaxSize
  ∨ match Entries (en_mem (cc_engine c)) with
    | Some es => tail_guarded (entries_insert (write_entry wr) es)
        ∧ len (sst_file (entries_insert (write_entry wr) es)) < 2 ^ 63
        ∧ next_path w (cc_engine c) ∉ conc_paths c
    | None => False
    end.

(** Flushes end in the order in which they began. *)
Definition conc_ready (w : world) (c : conc) (ev : conc_event) : Prop :=
  match ev with
  | CePut key value => key ≠ [] ∧ len key <= 65535 ∧ len value < 2 ^ 32 ∧ conc_write_ready w c (WPut key (Some value))
  | CeDelete key => key ≠ [] ∧ len key <= 65535 ∧ conc_write_ready w c (WDelete key)
  | CeTable k => True
  | CeInstall k => S k = length (cc_flights c)
  end.

Fixpoint conc_ready_run (w : world) (c : conc) (evs : list conc_event) : Prop :=
  match evs with
  | [] => True
  | ev :: evs =>
      conc_ready w c ev
      ∧ match conc_exec c ev w with
        | (Ok c', w') => conc_ready_run w' c' evs
        | _ => True
        end
  end.

#[global] Instance tail_guarded_dec es : Decision (tail_guarded es).
Proof. unfold tail_guarded. apply _. Defined.

#[global] Instance conc_write_ready_dec w c wr : Decision (conc_write_ready w c wr).
Proof. unfold conc_write_ready. destruct (Entries _); apply _. Defined.

#[global] Instance conc_ready_dec w c ev : Decision (conc_ready w c ev).
Proof. destruct ev; cbn [conc_ready]; apply _. Defined.

#[global] Instance conc_ready_run_dec w c evs : Decision (conc_ready_run w c evs).
Proof.
  revert w c. induction evs as [|ev evs IH]; intros w c; [apply _|]. cbn [conc_ready_run].
  destruct (conc_exec c ev w) as [[]]; apply _.
Defined.

(** * Lemmas *)

Lemma named_not_tmp p q : sst_named p → p ≠ tmp_path q.
Proof.
  intros [x ->] Heq. unfold tmp_path in Heq. apply (f_equal (@rev byte)) in Heq. rewrite !rev_app_distr in Heq. done.
Qed.

Lemma wal_not_named dir : ¬ sst_named (wal_file dir).
Proof.
  intros [x Heq]. unfold wal_file, path_Join in Heq. apply (f_equal (@rev byte)) in Heq.
  rewrite !rev_app_distr in Heq. done.
Qed.

Lemma wal_not_tmp dir p : wal_file dir ≠ tmp_path p.
Proof.
  intros Heq. unfold wal_file, path_Join, tmp_path in Heq. apply (f_equal (@rev byte)) in Heq.
  rewrite !rev_app_distr in Heq. done.
Qed.

Lemma sstable_path_named dir nanos : sst_named (sstable_path dir nanos).
Proof. unfold sstable_path, path_Join. eexists. by rewrite !app_assoc. Qed.

(** A flight does not depend on files other than its own. *)
Lemma flight_ok_frame fs fs' f :
  fs' !! fl_path f = fs !! fl_path f → flight_ok fs f → flight_ok fs' f.
Proof. intros Hfs [? ? ? ? ? Hr]. split; try done. by rewrite Hfs. Qed.

(** Reads: the tables in flight are not consulted. *)
Lemma conc_Get w c rs es tables key :
  no_faults w → conc_rep w c rs es tables → key ≠ [] →
  Get (cc_engine c) key w = (get_answer (live (layered_lookup key (es :: tables))), w).
Proof.
  intros Hw [_ _ [n Hm] Hok _ Ht _ _ _] Hk. by eapply Get_layers.
Qed.

(** ** Writing *)

(** [maybeFlushLocked] up to the unlock. *)
Lemma begin_flush_rep w c rs es tables :
  conc_rep w c rs es tables → es ≠ [] →
  Size (en_mem (cc_engine c)) < memTableMaxSize
  ∨ tail_guarded es ∧ len (sst_file es) < 2 ^ 63 ∧ next_path w (cc_engine c) ∉ conc_paths c →
  ∃ e' fl w' es', begin_flush (cc_engine c) w = (Ok (e', fl), w') ∧ w_faults w' = w_faults w
    ∧ conc_rep w' (mkConc e' (fl ++ cc_flights c)) rs es' tables.
Proof.
  intros Hc Hne Hflush. unfold begin_flush, flush_begin, mbind, io_bind.
  destruct (Z.ltb_spec (Size (en_mem (cc_engine c))) memTableMaxSize) as [Hsz|Hsz].
  { exists (cc_engine c), [], w, es. by destruct c. }
  destruct Hflush as [?|(Hg & Hlt & Hfresh)]; [lia|]. destruct Hc as [Hp Hwal [n Hm] Hok Hfl Ht Hnm Hnd Hv].
  unfold io_lift. rewrite (mem_rep_entries _ _ _ Hm). cbn [or_panic]. rewrite time_Now_ok.
  eexists _, _, _, []. split; [reflexivity|]. split; [done|]. cbn [set_mem en_dataDir]. fold (next_path w (cc_engine c)).
  split; cbn -[layered_lookup]; try done.
  - exists 0. apply mem_rep_new.
  - constructor; [|done]. split; try done; [by eapply mem_rep_sorted|by left].
  - constructor; [apply sstable_path_named|done].
  - by constructor.
Qed.

(** Logging a record and inserting its write. *)
Lemma conc_logged w c rs es tables r wr rng :
  conc_rep w c rs es tables → record_write r = Some wr → mem_entry_ok (write_entry wr) →
  let e := cc_engine c in
  let w1 := set_files (<[wal_path (en_wal e) := encode_records rs ++ encode_record r]> (w_files w)) w in
  ∃ m' rng', mem_write (en_mem e) wr rng = Some (m', rng')
    ∧ conc_rep (set_rng rng' w1) (mkConc (set_mem m' e) (cc_flights c)) (rs ++ [r]) (entries_insert (write_entry wr) es) tables.
Proof.
  intros [Hp Hwal [n Hm] Hok Hfl Ht Hnm Hnd Hv] Hr Hwr e w1.
  destruct (mem_rep_write _ _ _ wr rng Hm) as (m' & rng' & E & Hm').
  assert (Hkeep : ∀ p, p ∈ conc_paths c → w_files w1 !! p = w_files w !! p).
  { intros p Hin. cbn. apply lookup_insert_ne. intros <-. unfold e in Hin. rewrite Hp in Hin.
    rewrite Forall_forall in Hnm. by destruct (wal_not_named _ (Hnm _ Hin)). }
  exists m', rng'. split; [done|]. split; cbn -[layered_lookup]; try done.
  - by rewrite lookup_insert_eq, encode_records_app, encode_records_single.
  - eauto.
  - apply Forall_forall. intros x [->|Hx]%entries_insert_elem; [done|]. rewrite Forall_forall in Hok. auto.
  - apply Forall_forall. intros f Hf. rewrite Forall_forall in Hfl. eapply flight_ok_frame; [|by apply Hfl].
    apply Hkeep, elem_of_app. left. by apply list_elem_of_fmap_2.
  - eapply table_open_frame; [|exact Ht]. intros x Hx. apply Hkeep, elem_of_app. right. by apply list_elem_of_fmap_2.
  - rewrite history_map_snoc. apply view_insert; [by eapply mem_rep_sorted|done..].
Qed.

(** The part under the lock, common to [Put] and [Delete]. *)
Lemma conc_write_rep w c rs es tables r wr :
  no_faults w → conc_rep w c rs es tables → record_write r = Some wr → mem_entry_ok (write_entry wr) →
  len (r_Key r) <= 65535 → conc_write_ready w c wr →
  ∃ e' fl w' es',
    (_ ← io_try (Append (en_wal (cc_engine c)) (r_Op r) (r_Key r) (r_Value r));
     mem ← with_rng (mem_write (en_mem (cc_engine c)) wr);
     '(e, fl) ← begin_flush (set_mem mem (cc_engine c));
     mret (e, fl, @None error)) w = (Ok (e', fl, None), w')
    ∧ no_faults w' ∧ conc_rep w' (mkConc e' (fl ++ cc_flights c)) (rs ++ [r]) es' tables.
Proof.
  intros Hw Hc Hr Hok Hk Hready. pose proof Hc as [_ Hwal [n Hm] _ _ _ _ _ _].
  unfold mbind, io_bind at 1, io_try. rewrite (Append_ok w _ _ _ _ (encode_records rs)) by done.
  change (wal_record (r_Op r) (r_Key r) (slice_bytes (r_Value r))) with (encode_record r). set (w1 := set_files _ w).
  destruct (conc_logged w c rs es tables r wr (w_rng w1) Hc Hr Hok) as (m' & rng' & E & Hc').
  fold w1 in Hc'. unfold io_bind at 1, with_rng. rewrite E.
  destruct (begin_flush_rep _ _ _ _ _ Hc') as (e' & fl & w' & es' & Eb & Hf & Hrep).
  - apply entries_insert_ne.
  - pose proof (write_size _ _ _ _ _ _ _ Hm E).
    destruct Hready as [Hs|Hs]; [left; cbn; lia|right]. by rewrite (mem_rep_entries _ _ _ Hm) in Hs.
  - cbn [cc_engine] in Eb. unfold io_bind. rewrite Eb. exists e', fl, w', es'. split; [done|]. split; [|done].
    unfold no_faults in *. by rewrite Hf.
Qed.

(** ** Tables *)

(** Writing the table of flight [k] leaves the other files of the engine. *)
Lemma table_write_frame c k f w w' res :
  cc_flights c !! k = Some f → Forall sst_named (conc_paths c) → NoDup (conc_paths c) →
  write_outcome (fl_entries f) (fl_path f) w res w' →
  (∀ j g, cc_flights c !! j = Some g → j ≠ k → w_files w' !! fl_path g = w_files w !! fl_path g)
  ∧ (∀ r, r ∈ en_sstables (cc_engine c) → w_files w' !! sst_path r = w_files w !! sst_path r).
Proof.
  intros Hk Hnm Hnd [Ho _ _ _ _ _].
  assert (Hp : conc_paths c !! k = Some (fl_path f)) by (apply lookup_app_l_Some; by rewrite list_lookup_fmap, Hk).
  assert (Hkeep : ∀ j q, conc_paths c !! j = Some q → j ≠ k → w_files w' !! q = w_files w !! q).
  { intros j q Hq Hj. apply Ho; [|apply named_not_tmp; by eapply Forall_lookup_1].
    intros ->. by destruct (Hj (NoDup_lookup _ _ _ _ Hnd Hq Hp)). }
  split.
  - intros j g Hg Hj. apply (Hkeep j); [|done]. apply lookup_app_l_Some. by rewrite list_lookup_fmap, Hg.
  - intros r Hr. apply list_elem_of_lookup in Hr as [j Hj].
    apply (Hkeep (length (cc_flights c) + j)%nat).
    + unfold conc_paths. rewrite lookup_app_r; rewrite length_fmap; [|lia].
      rewrite Nat.add_comm, Nat.add_sub. by rewrite list_lookup_fmap, Hj.
    + apply lookup_lt_Some in Hk. lia.
Qed.

Lemma conc_table_rep w c rs es tables k :
  no_faults w → conc_rep w c rs es tables →
  ∃ c' w', conc_exec c (CeTable k) w = (Ok c', w') ∧ no_faults w' ∧ conc_rep w' c' rs es tables.
Proof.
  intros Hw Hc. cbn [conc_exec]. destruct (cc_flights c !! k) as [[ents p [r|]]|] eqn:Hk; [by exists c, w| |by exists c, w].
  pose proof Hc as [Hp Hwal Hm Hok Hfl Ht Hnm Hnd Hv]. pose proof (Forall_lookup_1 _ _ _ _ Hfl Hk) as [Hne Hs Ho Hg Hsz _].
  cbn in Hne, Hs, Ho, Hg, Hsz. unfold mbind, io_bind, io_try.
  destruct (WriteSSTable ents p w) as [res w'] eqn:Ew.
  pose proof (WriteSSTable_outcome ents p w res w' Hne Ew) as Hout.
  destruct (table_write_frame c k _ w w' res Hk Hnm Hnd Hout) as [Hf1 Hf2].
  destruct Hout as [Hoth Hpath _ _ _ Hokw]. destruct (Hokw Hw) as (-> & Hw' & _).
  eexists _, w'. split; [done|]. split; [done|].
  assert (Hentries : fl_entries <$> <[k := mkFlight ents p (Some (inr ()))]> (cc_flights c) = fl_entries <$> cc_flights c)
    by (rewrite list_fmap_insert; apply list_insert_id; by rewrite list_lookup_fmap, Hk).
  assert (Hpaths : conc_paths (mkConc (cc_engine c) (<[k := mkFlight ents p (Some (inr ()))]> (cc_flights c))) = conc_paths c).
  { unfold conc_paths. f_equal. cbn. rewrite list_fmap_insert. apply list_insert_id. by rewrite list_lookup_fmap, Hk. }
  split; rewrite ?Hpaths; cbn -[layered_lookup]; try done.
  - rewrite Hoth; [done| |]; rewrite Hp; [|apply wal_not_tmp].
    intros <-. eapply wal_not_named, (Forall_lookup_1 _ _ k _ Hnm). apply lookup_app_l_Some. by rewrite list_lookup_fmap, Hk.
  - apply Forall_lookup_2. intros j g. rewrite list_lookup_insert_Some.
    intros [(<- & <- & _)|[Hj Hgl]]; [by split; [..|right]|].
    eapply flight_ok_frame; [by apply (Hf1 j)|]. by eapply Forall_lookup_1.
  - by eapply table_open_frame.
  - by rewrite Hentries.
Qed.

(** The oldest flight ends: its table comes in front of the installed ones. *)
Lemma conc_install_rep w c rs es tables k :
  no_faults w → conc_rep w c rs es tables → S k = length (cc_flights c) →
  ∃ c' w' front, conc_exec c (CeInstall k) w = (Ok c', w') ∧ no_faults w' ∧ conc_rep w' c' rs es (front ++ tables).
Proof.
  intros Hw Hc Hlen. cbn [conc_exec].
  destruct (cc_flights c !! k) as [[ents p [r|]]|] eqn:Hk; [|by exists c, w, []..].
  assert (Hsplit : cc_flights c = delete k (cc_flights c) ++ [mkFlight ents p (Some r)]).
  { rewrite delete_take_drop, (drop_ge _ (S k)), app_nil_r by lia. by rewrite <- take_S_r, take_ge by (done || lia). }
  destruct Hc as [Hp Hwal Hm Hok Hfl Ht Hnm Hnd Hv]. unfold conc_paths in Hnm, Hnd.
  rewrite Hsplit, fmap_app, <- app_assoc in Hnm, Hnd. rewrite Hsplit in Hfl. rewrite Hsplit in Hv.
  apply Forall_app in Hfl as [Hfl [[Hne Hs Ho Hg Hsz Hr] _]%Forall_cons]. cbn in Hne, Hs, Ho, Hg, Hsz, Hr.
  destruct Hr as [[=]|[[= ->] Hfile]].
  assert (Hst : stored (w_files w) p ents) by (split; try done; eapply Forall_impl; [exact Ho|by intros x [_ ?]]).
  unfold mbind, io_bind, flush_end, mbind, io_bind, io_try. rewrite (OpenSSTableReader_stored w p ents) by done.
  eexists _, w, [ents]. split; [reflexivity|]. split; [done|].
  split; cbn -[layered_lookup]; try done.
  - constructor; [by split|done].
  - intros q. rewrite <- Hv, fmap_app, <- app_assoc. done.
Qed.

(** ** Runs *)

(** Every step keeps the representation and extends the history by its write;
    tables are only added in front. *)
Lemma conc_step_rep w c rs es tables ev :
  no_faults w → conc_rep w c rs es tables → conc_ready w c ev →
  ∃ c' w' es' front, conc_exec c ev w = (Ok c', w') ∧ no_faults w'
    ∧ conc_rep w' c' (rs ++ event_records ev) es' (front ++ tables).
Proof.
  intros Hw Hc Hready. pose proof (cp_wal _ _ _ _ _ Hc) as Hwal.
  destruct ev as [key v|key|k|k]; cbn [event_records conc_ready] in *; rewrite ?app_nil_r.
  - destruct Hready as (Hne & Hk & Hv & Hr).
    destruct (conc_write_rep w c rs es tables (put_record key v) (WPut key (Some v)) Hw Hc)
      as (e' & fl & w' & es' & E & Hw' & Hc'); [done|by apply put_entry_ok|done..|].
    exists (mkConc e' (fl ++ cc_flights c)), w', es', []. split; [|done].
    cbn [conc_exec]. unfold put_locked. rewrite decide_False by (by destruct key).
    cbn [r_Op r_Key r_Value put_record] in E. unfold mbind, io_bind, io_try in *.
    rewrite (Append_ok w _ _ _ _ _ Hw Hk Hwal) in E |- *. unfold with_rng, mem_write in *. by rewrite E.
  - destruct Hready as (Hne & Hk & Hr).
    destruct (conc_write_rep w c rs es tables (delete_record key) (WDelete key) Hw Hc)
      as (e' & fl & w' & es' & E & Hw' & Hc'); [done|by apply delete_entry_ok|done..|].
    exists (mkConc e' (fl ++ cc_flights c)), w', es', []. split; [|done].
    cbn [conc_exec]. unfold delete_locked. rewrite decide_False by (by destruct key).
    cbn [r_Op r_Key r_Value delete_record] in E. unfold mbind, io_bind, io_try in *.
    rewrite (Append_ok w _ _ _ _ _ Hw Hk Hwal) in E |- *. unfold with_rng, mem_write in *. by rewrite E.
  - destruct (conc_table_rep w c rs es tables k Hw Hc) as (c' & w' & ? & ? & ?). by exists c', w', es, [].
  - destruct (conc_install_rep w c rs es tables k Hw Hc Hready) as (c' & w' & front & ? & ? & ?).
    by exists c', w', es, front.
Qed.

Lemma conc_run_rep evs : ∀ w c rs es tables,
  no_faults w → conc_rep w c rs es tables → conc_ready_run w c evs →
  ∃ c' w' es' tables', conc_run evs c w = (Ok c', w') ∧ no_faults w'
    ∧ conc_rep w' c' (rs ++ (evs ≫= event_records)) es' tables'.
Proof.
  induction evs as [|ev evs IH]; intros w c rs es tables Hw Hc Hready.
  { exists c, w, es, tables. cbn. by rewrite app_nil_r. }
  destruct Hready as [Hr1 Hr2].
  destruct (conc_step_rep w c rs es tables ev Hw Hc Hr1) as (c1 & w1 & es1 & t1 & E1 & Hw1 & Hc1).
  rewrite E1 in Hr2. destruct (IH w1 c1 _ _ _ Hw1 Hc1 Hr2) as (c2 & w2 & es2 & t2 & E2 & Hw2 & Hc2).
  exists c2, w2, es2, t2. cbn [conc_run]. unfold mbind, io_bind. rewrite E1. split; [done|]. split; [done|].
  cbn. by rewrite app_assoc.
Qed.

(** With nothing in flight the engine is as [Engine.v] describes it. *)
Lemma conc_rep_landed w c rs es tables :
  conc_rep w c rs es tables → cc_flights c = [] → engine_rep w (cc_engine c) rs es tables.
Proof.
  intros [Hp Hwal Hm Hok Hfl Ht Hnm Hnd Hv] Hz. rewrite Hz in Hv. split; try done.
  intros r Hr Heq. rewrite Hp in Heq. apply (wal_not_named (en_dataDir (cc_engine c))). rewrite <- Heq.
  rewrite Forall_forall in Hnm. apply Hnm, elem_of_app. right. by apply list_elem_of_fmap_2.
Qed.

Lemma conc_rep_start w e rs es tables :
  engine_rep w e rs es tables → Forall sst_named (sst_path <$> en_sstables e) → NoDup (sst_path <$> en_sstables e) →
  conc_rep w (mkConc e []) rs es tables.
Proof. intros [? ? ? ? ? ? ?] ? ?. by split. Qed.

(** Keys that are not in flight are looked up as if nothing were. *)
Lemma layered_lookup_skip k es inflight tables :
  (∀ t x, t ∈ inflight → x ∈ t → e_Key x ≠ k) →
  layered_lookup k (es :: inflight ++ tables) = layered_lookup k (es :: tables).
Proof.
  intros Hno. cbn [layered_lookup]. destruct (entries_lookup k es); [done|].
  by rewrite layered_lookup_app, (layered_lookup_absent k inflight Hno).
Qed.

(** A read of a key that is not in flight is exact. *)
Lemma conc_Get_exact w c rs es tables key :
  no_faults w → conc_rep w c rs es tables → key ≠ [] →
  (∀ f x, f ∈ cc_flights c → x ∈ fl_entries f → e_Key x ≠ key) →
  Get (cc_engine c) key w = (get_answer (history_map rs !! key), w).
Proof.
  intros Hw Hc Hk Hno. rewrite (conc_Get w c rs es tables key Hw Hc Hk).
  rewrite <- (cp_view _ _ _ _ _ Hc key), layered_lookup_skip; [done|].
  intros t x (f & -> & Hf)%list_elem_of_fmap Hx. by eapply Hno.
Qed.

(** The parts one after the other are the operations of [Engine.v]. *)
Lemma begin_end_flush e w :
  maybeFlushLocked e w = ('(e, fl) ← begin_flush e; end_flush e fl) w.
Proof.
  unfold maybeFlushLocked, begin_flush, mbind, io_bind.
  by destruct (flush_begin e w) as [[[[[e1 ents] p]|]| |] w1].
Qed.

Lemma put_parts e key value w :
  Engine.Put e key value w = ('(e, fl, err) ← put_locked e key value; e ← end_flush e fl; mret (e, err)) w.
Proof.
  unfold Engine.Put, put_locked. case_decide; [done|]. unfold mbind, io_bind, io_try.
  destruct (Append _ _ _ _ w) as [[[]|err|] w1]; [|done..].
  destruct (with_rng _ w1) as [[mem|err|] w2]; [|done..].
  rewrite begin_end_flush. unfold mbind, io_bind.
  by destruct (begin_flush _ w2) as [[[e1 fl]|err|] w3].
Qed.

Lemma delete_parts e key w :
  Engine.Delete e key w = ('(e, fl, err) ← delete_locked e key; e ← end_flush e fl; mret (e, err)) w.
Proof.
  unfold Engine.Delete, delete_locked. case_decide; [done|]. unfold mbind, io_bind, io_try.
  destruct (Append _ _ _ _ w) as [[[]|err|] w1]; [|done..].
  destruct (with_rng _ w1) as [[mem|err|] w2]; [|done..].
  rewrite begin_end_flush. unfold mbind, io_bind.
  by destruct (begin_flush _ w2) as [[[e1 fl]|err|] w3].
Qed.

(** * Theorems *)

(** Concurrent flushes keep every write. Start from an engine that
    represents a history; let clients put and delete while any number of
    flushes is under way, each step of a flush at any time, as long as flushes
    end in the order in which they began. Then no step fails, every write is in
    the history, a read of a key that is not in flight is exact at every
    moment, and whenever nothing is in flight the engine represents the whole
    history again. *)
Theorem engine_concurrent_flushes evs w e rs es tables :
  no_faults w → engine_rep w e rs es tables →
  Forall sst_named (sst_path <$> en_sstables e) → NoDup (sst_path <$> en_sstables e) →
  conc_ready_run w (mkConc e []) evs →
  let rs' := rs ++ (evs ≫= event_records) in
  ∃ c' w', conc_run evs (mkConc e []) w = (Ok c', w') ∧ no_faults w'
    ∧ (∀ key, key ≠ [] → (∀ f x, f ∈ cc_flights c' → x ∈ fl_entries f → e_Key x ≠ key) →
         Get (cc_engine c') key w' = (get_answer (history_map rs' !! key), w'))
    ∧ (cc_flights c' = [] → ∃ es' tables', engine_rep w' (cc_engine c') rs' es' tables').
Proof.
  intros Hw He Hnm Hnd Hready rs'.
  destruct (conc_run_rep evs w _ rs es tables Hw (conc_rep_start _ _ _ _ _ He Hnm Hnd) Hready)
    as (c' & w' & es' & tables' & E & Hw' & Hc'). fold rs' in Hc'.
  exists c', w'. split; [done|]. split; [done|]. split.
  - intros key Hk Hno. by eapply conc_Get_exact.
  - intros Hz. exists es', tables'. by apply conc_rep_landed.
Qed.

(** A client rewrites the key of a full MemTable and starts a flush, another
    writes a second key before the table is installed. *)
Definition full_engine : Engine := mkEngine (str "d") (mkWAL (wal_file (str "d"))) witness_full [].
Definition full_world : world :=
  mkWorld {[wal_file (str "d") := encode_records [put_record (str "k") (str "v")]]} [1; 2] [] [].

Lemma full_engine_rep :
  engine_rep full_world full_engine [put_record (str "k") (str "v")] [mkEntry (str "k") (Some (str "v")) OpPut] [].
Proof.
  split.
  - reflexivity.
  - apply lookup_singleton_eq.
  - exists (2 ^ 20). exact witness_full_rep.
  - by constructor; [|constructor]; split; [right; eexists|split].
  - apply List.Forall2_nil.
  - intros x Hx. by apply not_elem_of_nil in Hx.
  - intros k. replace (history_map _) with ({[str "k" := str "v"]} : gmap bytes bytes) by by_decide.
    rewrite lookup_singleton. cbn -[str]. case_decide; reflexivity.
Qed.

(** What the examples need of a run: the number of flights and the answer for
    a key. *)
Definition run_view (evs : list conc_event) (c : conc) (w : world) (key : bytes) : option (nat * outcome bytes) :=
  match conc_run evs c w with
  | (Ok c', w') => Some (length (cc_flights c'), fst (Get (cc_engine c') key w'))
  | _ => None
  end.

Lemma engine_concurrent_flushes_witness :
  let evs := [CePut (str "k") (str "new"); CePut (str "j") (str "x"); CeTable 0; CeInstall 0] in
  ∃ c' w' es' tables', conc_run evs (mkConc full_engine []) full_world = (Ok c', w')
    ∧ engine_rep w' (cc_engine c') ([put_record (str "k") (str "v")] ++ (evs ≫= event_records)) es' tables'
    ∧ Get (cc_engine c') (str "j") w' = (Ok (str "x"), w').
Proof.
  intros evs. destruct (engine_concurrent_flushes evs
    full_world full_engine [put_record (str "k") (str "v")] [mkEntry (str "k") (Some (str "v")) OpPut] [])
    as (c' & w' & E & _ & Hget & Hland).
  - reflexivity.
  - exact full_engine_rep.
  - constructor.
  - constructor.
  - by_decide.
  - assert (Hz : cc_flights c' = []).
    { assert (H : fst <$> run_view evs (mkConc full_engine []) full_world (str "j") = Some 0%nat) by (vm_compute; reflexivity).
      unfold run_view in H. rewrite E in H. cbn in H. injection H as H. apply nil_length_inv, H. }
    destruct (Hland Hz) as (es' & tables' & Hrep). exists c', w', es', tables'. split; [exact E|]. split; [exact Hrep|].
    rewrite Hget; [f_equal; vm_compute; reflexivity|discriminate|]. intros f x Hf. rewrite Hz in Hf.
    destruct (not_elem_of_nil _ Hf).
Defined.

(** The MemTable of a flush that still runs held an older value of the key. *)
Definition stale_log : list WALRecord := [put_record (str "k") (str "old"); put_record (str "k") (str "v")].
Definition stale_conc : conc :=
  mkConc full_engine [mkFlight [mkEntry (str "k") (Some (str "old")) OpPut] (sstable_path (str "d") 1) None].
Definition stale_world : world := mkWorld {[wal_file (str "d") := encode_records stale_log]} [2] [] [].

(** C39: flushes that end out of order lose writes. Two clients flush at the
    same time; the one whose MemTable is newer ends first, then the older one
    puts its table in front of it. Nothing fails and nothing is in flight
    afterwards, but the key has the value of before the newer flush. *)
Theorem engine_concurrent_flushes_stale :
  let evs := [CePut (str "k") (str "new"); CeTable 0; CeInstall 0; CeTable 0; CeInstall 0] in
  conc_rep stale_world stale_conc stale_log [mkEntry (str "k") (Some (str "v")) OpPut] []
  ∧ run_view evs stale_conc stale_world (str "k") = Some (0%nat, Ok (str "old"))
  ∧ history_map (stale_log ++ (evs ≫= event_records)) !! str "k" = Some (str "new").
Proof.
  split; [|split; vm_compute; reflexivity]. split.
  - reflexivity.
  - apply lookup_singleton_eq.
  - exists (2 ^ 20). exact witness_full_rep.
  - by constructor; [|constructor]; split; [right; eexists|split].
  - constructor; [|constructor]. split; [discriminate| | | | |by left].
    + by repeat constructor.
    + by constructor; [|constructor]; split; [right; eexists|split].
    + by_decide.
    + by_decide.
  - constructor.
  - constructor; [apply sstable_path_named|constructor].
  - by_decide.
  - intros k. replace (history_map _) with ({[str "k" := str "v"]} : gmap bytes bytes) by by_decide.
    rewrite lookup_singleton. cbn -[str]. case_decide; reflexivity.
Qed.
