(* ===== verification/Compacting.v ===== *)
(** The engine as it runs: clients whose writes interleave with flushes under
    way, as in [Concurrent.v], together with the compactor's ticks and the
    goroutine that applies its results, as in [Background.v]. *)

From S2P Require Import Prelude StorageTypes SkipList MemTable Crc32 Os Wal Recovery SSTable Compaction Engine Background Concurrent.

(** ** Steps *)

Inductive cm_event :=
| CmClient (ev : conc_event)
| CmTick
| CmProcess.

Definition cm_exec (ev : cm_event) (c : conc) (p : Compactor) : IO (conc * Compactor) :=
  match ev with
  | CmClient ev => c ← conc_exec c ev; mret (c, p)
  | CmTick => p ← compactor_tick p; mret (c, p)
  | CmProcess => '(e, p) ← process_result (cc_engine c) p; mret (mkConc e (cc_flights c), p)
  end.

Fixpoint cm_run (evs : list cm_event) (c : conc) (p : Compactor) : IO (conc * Compactor) :=
  match evs with
  | [] => mret (c, p)
  | ev :: evs => '(c, p) ← cm_exec ev c p; cm_run evs c p
  end.

(** ** Specification *)

Definition cm_records (ev : cm_event) : list WALRecord :=
  match ev with CmClient ev => event_records ev | _ => [] end.

(** What the file at a path reads as. *)
Definition table_records (w : world) (p : bytes) : list ssRecord :=
  match fst (readAllSSTableRecords p w) with Ok recs => recs | _ => [] end.
Definition table_keys (w : world) (p : bytes) : list bytes := s_key <$> table_records w p.

Fixpoint tag_paths (w : world) (fileIdx : Z) (paths : list bytes) : list versionedEntry :=
  match paths with
  | [] => []
  | p :: paths => tag_records fileIdx (table_records w p) ++ tag_paths w (fileIdx + 1) paths
  end.

(** The engine with further tables behind its own. *)
Definition with_tables (g : list SSTableReader) (c : conc) : conc :=
  mkConc (set_sstables (en_sstables (cc_engine c) ++ g) (cc_engine c)) (cc_flights c).

(** Readers of the tables that are written but not yet applied. *)
Definition pending_readers (p : Compactor) : list SSTableReader :=
  (λ res, mkReader (NewSSTablePath res) []) <$> cp_resultCh p.

(** A tick finds fewer than four tables, or no result is pending, the two tables
    it takes are the oldest ones of the engine, and their merge is a well-formed
    table under a path not in use. *)
Definition tick_ready (w : world) (c : conc) (p : Compactor) : Prop :=
  let e := cc_engine c in
  let files := sst_paths (w_files w) (en_dataDir e) in
  let merged := merge_entries (tag_paths w 0 (take 2 files)) in
  (length files < compactionThreshold)%nat
  ∨ (cp_resultCh p = [] ∧ rev (take 2 files) `suffix_of` (sst_path <$> en_sstables e)
     ∧ (merged = [] ∨ tail_guarded merged ∧ len (sst_file merged) < 2 ^ 63)
     ∧ compacted_path (en_dataDir e) (hd 0 (w_clock w)) ∉ conc_paths c).

(** A result is applied while the tables are in the order of their names and
    those it removes share no key with those it keeps; the merged table sorts
    before the latter. *)
Definition process_ready (w : world) (c : conc) (p : Compactor) : Prop :=
  match cp_resultCh p with
  | [] => True
  | res :: _ =>
      let tables := sst_path <$> en_sstables (cc_engine c) in
      StronglySorted (λ a b, bytes_lt b a) tables
      ∧ Forall (λ a, a ∈ RemovedPaths res ∨ Forall (λ b, Forall (λ k, k ∉ table_keys w b) (table_keys w a)) (RemovedPaths res)) tables
  end.

Definition cm_ready (w : world) (ev : cm_event) (c : conc) (p : Compactor) : Prop :=
  match ev with
  | CmClient ev => conc_ready w (with_tables (pending_readers p) c) ev
  | CmTick => tick_ready w c p
  | CmProcess => process_ready w c p
  end.

Fixpoint cm_ready_run (w : world) (evs : list cm_event) (c : conc) (p : Compactor) : Prop :=
  match evs with
  | [] => True
  | ev :: evs =>
      cm_ready w ev c p
      ∧ match cm_exec ev c p w with
        | (Ok (c', p'), w') => cm_ready_run w' evs c' p'
        | _ => True
        end
  end.

#[global] Instance tick_ready_dec w c p : Decision (tick_ready w c p).
Proof. unfold tick_ready. apply _. Defined.

#[global] Instance process_ready_dec w c p : Decision (process_ready w c p).
Proof. unfold process_ready. destruct (cp_resultCh p); apply _. Defined.

#[global] Instance cm_ready_dec w ev c p : Decision (cm_ready w ev c p).
Proof. destruct ev; cbn [cm_ready]; apply _. Defined.

#[global] Instance cm_ready_run_dec w evs c p : Decision (cm_ready_run w evs c p).
Proof.
  revert w c p. induction evs as [|ev evs IH]; intros w c p; [apply _|]. cbn [cm_ready_run].
  destruct (cm_exec ev c p w) as [[[]| |]]; apply _.
Defined.

(** * Lemmas *)

(** ** Tables behind the engine's own *)

(** A client's step only adds tables in front, so it does the same with further
    tables behind. *)
Lemma begin_flush_tables g e w :
  begin_flush (set_sstables (en_sstables e ++ g) e) w =
    match begin_flush e w with
    | (Ok (e', fl), w') => (Ok (set_sstables (en_sstables e ++ g) e', fl), w')
    | r => r
    end
  ∧ ∀ e' fl w', begin_flush e w = (Ok (e', fl), w') → en_sstables e' = en_sstables e ∧ en_dataDir e' = en_dataDir e.
Proof.
  unfold begin_flush, flush_begin, mbind, io_bind. cbn [en_mem set_sstables].
  destruct (Size (en_mem e) <? memTableMaxSize); cbn; [by split; [|intros ? ? ? [= <- _ _]]|].
  unfold io_lift. destruct (Entries (en_mem e)); cbn; [|done].
  destruct (time_Now w) as [[nanos| |] w1]; cbn; [|done..]. by split; [|intros ? ? ? [= <- _ _]].
Qed.

Lemma conc_exec_tables g c ev w cg w' :
  conc_exec (with_tables g c) ev w = (Ok cg, w') →
  ∃ c' front, conc_exec c ev w = (Ok c', w') ∧ cg = with_tables g c'
    ∧ en_sstables (cc_engine c') = front ++ en_sstables (cc_engine c)
    ∧ en_dataDir (cc_engine c') = en_dataDir (cc_engine c).
Proof.
  destruct ev as [key v|key|k|k]; cbn [conc_exec]; unfold mbind, io_bind; cbn [cc_engine cc_flights with_tables].
  - unfold put_locked, mbind, io_bind, io_try, with_rng. cbn [en_wal en_mem set_sstables].
    case_decide; [intros [= <- <-]; by exists c, []; destruct c as [[] ?]|].
    destruct (Append _ _ _ _ w) as [[[]|err|] w1]; [|intros [= <- <-]; by exists c, []; destruct c as [[] ?]|done].
    destruct (MemTable.Put _ _ _ _) as [[m rng]|]; [|done].
    change (set_mem m (set_sstables ?l ?e)) with (set_sstables (en_sstables (set_mem m e) ++ g) (set_mem m e)).
    destruct (begin_flush_tables g (set_mem m (cc_engine c)) (set_rng rng w1)) as [-> Hs].
    destruct (begin_flush _ _) as [[[e1 fl]|err|] w2] eqn:Eb; [|done..]. intros [= <- <-].
    destruct (Hs _ _ _ eq_refl) as [Hs1 Hd1]. eexists _, []. split; [done|]. unfold with_tables. cbn. by rewrite Hs1.
  - unfold delete_locked, mbind, io_bind, io_try, with_rng. cbn [en_wal en_mem set_sstables].
    case_decide; [intros [= <- <-]; by exists c, []; destruct c as [[] ?]|].
    destruct (Append _ _ _ _ w) as [[[]|err|] w1]; [|intros [= <- <-]; by exists c, []; destruct c as [[] ?]|done].
    destruct (MemTable.Delete _ _ _) as [[m rng]|]; [|done].
    change (set_mem m (set_sstables ?l ?e)) with (set_sstables (en_sstables (set_mem m e) ++ g) (set_mem m e)).
    destruct (begin_flush_tables g (set_mem m (cc_engine c)) (set_rng rng w1)) as [-> Hs].
    destruct (begin_flush _ _) as [[[e1 fl]|err|] w2] eqn:Eb; [|done..]. intros [= <- <-].
    destruct (Hs _ _ _ eq_refl) as [Hs1 Hd1]. eexists _, []. split; [done|]. unfold with_tables. cbn. by rewrite Hs1.
  - destruct (cc_flights c !! k) as [[ents p [r|]]|]; try (intros [= <- <-]; by exists c, []).
    destruct (io_try _ w) as [[r| |] w1]; [|done..]. intros [= <- <-]. by eexists _, [].
  - destruct (cc_flights c !! k) as [[ents p [r|]]|]; try (intros [= <- <-]; by exists c, []).
    unfold flush_end. destruct r as [err|[]]; [intros [= <- <-]; by eexists _, []|].
    unfold mbind, io_bind. destruct (io_try _ w) as [[[err|reader]| |] w1]; [..|done|done]; intros [= <- <-].
    + by eexists _, [].
    + by eexists _, [reader].
Qed.

(** ** The invariant *)

(** A merged table as a list of tables: none when nothing is left of the merge. *)
Definition merged_tables (merged : list MemTableEntry) : list (list MemTableEntry) :=
  if decide (merged = []) then [] else [merged].
Definition merged_readers (np : bytes) (merged : list MemTableEntry) : list SSTableReader :=
  if decide (merged = []) then [] else [mkReader np (sparse_index 0 0 merged)].

(** At most one result is pending: the merge of the oldest tables of the engine.
    [g] and [gt] are the reader and the entries of its table. *)
Definition pending_ok (c : conc) (p : Compactor) (tables : list (list MemTableEntry))
    (g : list SSTableReader) (gt : list (list MemTableEntry)) : Prop :=
  match cp_resultCh p with
  | [] => g = [] ∧ gt = []
  | [res] => ∃ newer older tnew told np,
      let merged := merge_entries (tag_files 0 (rev told)) in
      en_sstables (cc_engine c) = newer ++ older ∧ tables = tnew ++ told ∧ length newer = length tnew
      ∧ res = mkResult (if decide (merged = []) then [] else np) (rev (sst_path <$> older)) ∧ np ≠ []
      ∧ g = merged_readers np merged ∧ gt = merged_tables merged
  | _ => False
  end.

(** The table of the pending result is in nobody's way: the engine represents
    the history also with it behind its own tables. *)
Record cm_inv (w : world) (c : conc) (p : Compactor) (rs : list WALRecord) (es : list MemTableEntry)
    (tables : list (list MemTableEntry)) : Prop := {
  ci_sending : cp_sending p = None;
  ci_dir : cp_dataDir p = en_dataDir (cc_engine c);
  ci_rep : ∃ g gt, conc_rep w (with_tables g c) rs es (tables ++ gt) ∧ pending_ok c p tables g gt;
}.

Lemma with_tables_nil c : with_tables [] c = c.
Proof. unfold with_tables. rewrite app_nil_r. by destruct c as [[] ?]. Qed.

Lemma with_tables_paths g c : conc_paths (with_tables g c) = conc_paths c ++ (sst_path <$> g).
Proof. unfold conc_paths, with_tables. cbn. by rewrite fmap_app, app_assoc. Qed.

Lemma merged_tables_lookup k a b merged :
  layered_lookup k (a ++ merged_tables merged ++ b) = layered_lookup k (a ++ merged :: b).
Proof. unfold merged_tables. case_decide as D; [|done]. rewrite D, !layered_lookup_app. done. Qed.

(** Behind the tables it was merged from, the merged table is not seen. *)
Lemma merged_behind k front told :
  Forall entries_sorted told →
  layered_lookup k (front ++ told ++ merged_tables (merge_entries (tag_files 0 (rev told)))) = layered_lookup k (front ++ told).
Proof.
  intros Hs. rewrite <- (app_nil_r (merged_tables _)), app_assoc, merged_tables_lookup, layered_lookup_app.
  destruct (layered_lookup k (front ++ told)) eqn:E; [done|]. cbn.
  rewrite layered_lookup_app in E. destruct (layered_lookup k front); [done|].
  destruct (merge_files_lookup (rev told) k (Forall_rev_list _ _ Hs)) as [Hm Hdel].
  rewrite files_lookup_rev, rev_involutive, E in Hm.
  destruct (entries_lookup k _) as [[v o]|]; [|done]. specialize (Hdel _ eq_refl). cbn in Hm, Hdel.
  by rewrite decide_False in Hm.
Qed.

(** The representation depends on the log and the files of the tables. *)
Lemma conc_rep_frame w w' c rs es tables :
  (∀ q, q ∈ wal_path (en_wal (cc_engine c)) :: conc_paths c → w_files w' !! q = w_files w !! q) →
  conc_rep w c rs es tables → conc_rep w' c rs es tables.
Proof.
  intros Hf [Hp Hwal Hm Hok Hfl Ht Hnm Hnd Hv]. split; try done.
  - rewrite Hf; [done|left].
  - apply Forall_forall. intros f Hin. rewrite Forall_forall in Hfl. eapply flight_ok_frame; [|by apply Hfl].
    apply Hf. right. apply elem_of_app. left. by apply list_elem_of_fmap_2.
  - eapply table_open_frame; [|exact Ht]. intros r Hr. apply Hf. right. apply elem_of_app. right. by apply list_elem_of_fmap_2.
Qed.

(** A table behind the engine's own, which is not seen. *)
Lemma conc_rep_behind w c rs es tables r t :
  conc_rep w c rs es tables → table_open (w_files w) r t → sst_named (sst_path r) → sst_path r ∉ conc_paths c →
  (∀ k front, layered_lookup k (front ++ tables ++ [t]) = layered_lookup k (front ++ tables)) →
  conc_rep w (with_tables [r] c) rs es (tables ++ [t]).
Proof.
  intros [Hp Hwal Hm Hok Hfl Ht Hnm Hnd Hv] Hr Hn Hfresh Hview.
  split; rewrite ?with_tables_paths; cbn -[layered_lookup]; try done.
  - apply Forall2_app; [done|]. by constructor.
  - rewrite Forall_app. by split; [|constructor].
  - apply NoDup_app. split; [done|]. split; [|apply NoDup_singleton]. intros q Hq ->%list_elem_of_singleton. done.
  - intros k. rewrite <- Hv. f_equal. exact (Hview k (es :: (fl_entries <$> cc_flights c))).
Qed.

Lemma conc_rep_forget w c rs es tables g gt p :
  conc_rep w (with_tables g c) rs es (tables ++ gt) → pending_ok c p tables g gt → conc_rep w c rs es tables.
Proof.
  intros Hc Hp. assert (Hl : length g = length gt).
  { unfold pending_ok in Hp. destruct (cp_resultCh p) as [|res [|]]; [by destruct Hp as [-> ->]| |done].
    destruct Hp as (? & ? & ? & ? & ? & ? & ? & ? & ? & ? & -> & ->). unfold merged_readers, merged_tables. by case_decide. }
  pose proof Hc as [H1 H2 H3 H4 H5 Ht Hnm Hnd Hv]. rewrite with_tables_paths in Hnm, Hnd.
  apply Forall_app in Hnm as [Hnm _]. apply NoDup_app in Hnd as [Hnd _].
  apply Forall2_app_inv in Ht as [Ht _]; [|by apply Forall2_length in Ht; cbn in Ht; rewrite !length_app in Ht; lia].
  split; try done. intros k. rewrite <- Hv. f_equal. unfold pending_ok in Hp. cbn [cc_flights with_tables].
  destruct (cp_resultCh p) as [|res [|]]; [destruct Hp as [_ ->]; by rewrite app_nil_r| |done].
  destruct Hp as (newer & older & tnew & told & np & Hs & -> & Hln & _ & _ & _ & ->).
  rewrite Hs in Ht. apply Forall2_app_inv in Ht as [_ Hto]; [|done].
  assert (Hsort : Forall entries_sorted told) by (by apply (Forall2_rev_paths (w_files w) older told)).
  pose proof (merged_behind k (es :: (fl_entries <$> cc_flights c) ++ tnew) told Hsort) as Hb.
  cbn [app] in Hb. repeat rewrite <- app_assoc in Hb. rewrite <- app_assoc. exact (eq_sym Hb).
Qed.

(** ** A client's step *)

Lemma conc_ready_mono w c ev g g' :
  (sst_path <$> g) ⊆ (sst_path <$> g') → conc_ready w (with_tables g' c) ev → conc_ready w (with_tables g c) ev.
Proof.
  intros Hsub. assert (Hw : ∀ wr, conc_write_ready w (with_tables g' c) wr → conc_write_ready w (with_tables g c) wr).
  { intros wr [Hs|Hs]; [by left|right]. cbn [cc_engine with_tables en_mem set_sstables] in *.
    destruct (Entries _); [|done]. destruct Hs as (? & ? & Hf). split_and!; try done.
    rewrite with_tables_paths, elem_of_app in *. naive_solver. }
  destruct ev; cbn; naive_solver.
Qed.

Lemma pending_paths c p tables g gt :
  pending_ok c p tables g gt → (sst_path <$> g) ⊆ (sst_path <$> pending_readers p).
Proof.
  unfold pending_ok, pending_readers. destruct (cp_resultCh p) as [|res [|]]; [by intros [-> _]| |done].
  intros (? & ? & ? & ? & np & _ & _ & _ & -> & _ & -> & _). unfold merged_readers. case_decide; [apply list_subseteq_nil|done].
Qed.

Lemma client_step_inv w c p rs es tables ev :
  no_faults w → cm_inv w c p rs es tables → cm_ready w (CmClient ev) c p →
  ∃ c' w' es' tables', cm_exec (CmClient ev) c p w = (Ok (c', p), w') ∧ no_faults w'
    ∧ cm_inv w' c' p (rs ++ event_records ev) es' tables'.
Proof.
  intros Hw [Hs Hd (g & gt & Hc & Hp)] Hready.
  assert (Hr : conc_ready w (with_tables g c) ev) by (eapply conc_ready_mono; [by eapply pending_paths|exact Hready]).
  destruct (conc_step_rep w _ rs es _ ev Hw Hc Hr) as (cg & w' & es' & ft & E & Hw' & Hc').
  destruct (conc_exec_tables g c ev w cg w' E) as (c' & fr & E' & -> & Hsst & Hdir).
  exists c', w', es', (ft ++ tables). cbn [cm_exec]. unfold mbind, io_bind. rewrite E'. split; [done|]. split; [done|].
  split; [done|congruence|]. exists g, gt. rewrite <- app_assoc. split; [done|].
  assert (Hlf : length fr = length ft).
  { pose proof (Forall2_length _ _ _ (cp_tables _ _ _ _ _ Hc')) as L'. pose proof (Forall2_length _ _ _ (cp_tables _ _ _ _ _ Hc)) as L.
    cbn in L, L'. rewrite Hsst, !length_app in L'. rewrite !length_app in L. lia. }
  unfold pending_ok in *. destruct (cp_resultCh p) as [|res [|]]; [done| |done].
  destruct Hp as (newer & older & tnew & told & np & H1 & -> & H3 & H4 & H5 & H6 & H7).
  exists (fr ++ newer), older, (ft ++ tnew), told, np. rewrite Hsst, H1, !length_app, <- !app_assoc. split_and!; try done. lia.
Qed.

(** ** A tick *)

Lemma tag_paths_stored w paths files : no_faults w → Forall2 (stored (w_files w)) paths files →
  ∀ i, tag_paths w i paths = tag_files i files.
Proof.
  intros Hw. induction 1 as [|q f paths files Hq _ IH]; intros i; [done|]. cbn [tag_paths tag_files].
  rewrite IH. unfold table_records. by rewrite (readAll_stored w q f Hw Hq).
Qed.

Lemma compacted_path_named dir nanos : sst_named (compacted_path dir nanos).
Proof. unfold compacted_path, path_Join. eexists (dir ++ str "/" ++ str "sstable_" ++ str (pretty nanos) ++ str "_compacted"). by rewrite <- !app_assoc. Qed.

(** Merging the oldest tables of the engine leaves its files and stores the
    merged table behind them. *)
Lemma compact_oldest w c rs es tnew told newer older :
  let merged := merge_entries (tag_files 0 (rev told)) in
  let np := compacted_path (en_dataDir (cc_engine c)) (hd 0 (w_clock w)) in
  no_faults w → conc_rep w c rs es (tnew ++ told) → en_sstables (cc_engine c) = newer ++ older →
  Forall2 (table_open (w_files w)) older told → np ∉ conc_paths c →
  (merged = [] ∨ tail_guarded merged ∧ len (sst_file merged) < 2 ^ 63) →
  ∃ w', compactFiles (rev (sst_path <$> older)) (en_dataDir (cc_engine c)) w
      = (Ok (mkResult (if decide (merged = []) then [] else np) (rev (sst_path <$> older))), w')
    ∧ no_faults w' ∧ conc_rep w' (with_tables (merged_readers np merged) c) rs es ((tnew ++ told) ++ merged_tables merged).
Proof.
  intros merged np Hw Hc Hsst Hto Hfresh Hmg. destruct (Forall2_rev_paths _ _ _ Hto) as (Hst & Hsorted & Heok).
  destruct (compactFiles_ok w _ _ (en_dataDir (cc_engine c)) Hw Hst) as (w1 & E & Hw1 & _ & Hf1).
  fold merged np in E, Hf1. exists w1. split; [done|]. split; [done|].
  assert (Hc1 : conc_rep w1 c rs es (tnew ++ told)).
  { eapply conc_rep_frame; [|exact Hc]. intros q Hq.
    assert (Hqn : q ≠ np ∧ q ≠ tmp_path np).
    { apply elem_of_cons in Hq as [->|Hq]; [rewrite (cp_wal_path _ _ _ _ _ Hc); apply wal_file_not_compacted|].
      split; [by intros ->|]. apply named_not_tmp. pose proof (cp_named _ _ _ _ _ Hc) as Hn. rewrite Forall_forall in Hn. auto. }
    rewrite Hf1, decide_False by naive_solver. done. }
  unfold merged_readers, merged_tables. case_decide as D; [by rewrite with_tables_nil, app_nil_r|].
  destruct Hmg as [?|[Hg Hsz]]; [done|]. apply conc_rep_behind; try done.
  - split; [|done]. split; [|done|by apply merge_entries_ok, Forall_rev_list|apply merge_entries_sorted|done].
    cbn [sst_path]. rewrite Hf1, decide_True; [done..|]. apply not_eq_sym, tmp_path_ne.
  - apply compacted_path_named.
  - intros k front. pose proof (merged_behind k (front ++ tnew) told Hsorted) as Hb. fold merged in Hb.
    unfold merged_tables in Hb. rewrite decide_False in Hb by done.
    repeat rewrite <- app_assoc in Hb. repeat rewrite <- app_assoc. exact Hb.
Qed.

Lemma tick_step_inv w c p rs es tables :
  no_faults w → cm_inv w c p rs es tables → tick_ready w c p →
  ∃ p' w', cm_exec CmTick c p w = (Ok (c, p'), w') ∧ no_faults w' ∧ cm_inv w' c p' rs es tables.
Proof.
  intros Hw Hi [Hlt|(Hch & [front Hsuf] & Hmg & Hfresh)].
  { exists p, w. cbn [cm_exec]. unfold mbind, io_bind. rewrite tick_idle; [done|done|]. by rewrite (ci_dir _ _ _ _ _ _ Hi). }
  destruct Hi as [Hs Hd (g & gt & Hc & Hp)]. unfold pending_ok in Hp. rewrite Hch in Hp. destruct Hp as [-> ->].
  rewrite with_tables_nil, app_nil_r in Hc. set (e := cc_engine c) in *.
  apply fmap_app_inv in Hsuf as (newer & older & -> & Hold & Hsst).
  assert (Htake : take 2 (sst_paths (w_files w) (en_dataDir e)) = rev (sst_path <$> older)) by (by rewrite <- Hold, rev_involutive).
  pose proof (cp_tables _ _ _ _ _ Hc) as Ht. fold e in Ht. rewrite Hsst in Ht.
  apply Forall2_app_inv_l in Ht as (tnew & told & Htn & Hto & ->).
  rewrite Htake, (tag_paths_stored w _ (rev told) Hw) in Hmg by (by apply Forall2_rev_paths).
  destruct (compact_oldest w c rs es tnew told newer older Hw Hc Hsst Hto Hfresh Hmg) as (w1 & E1 & Hw1 & Hc1).
  fold e in E1, Hc1.
  destruct (decide (length (sst_paths (w_files w) (en_dataDir e)) < compactionThreshold)%nat) as [Hlt|Hge].
  { exists p, w. cbn [cm_exec]. unfold mbind, io_bind. rewrite tick_idle by (done || by rewrite Hd). split; [done|]. split; [done|].
    split; [done|done|]. exists [], []. rewrite with_tables_nil, app_nil_r. split; [done|]. unfold pending_ok. by rewrite Hch. }
  eexists (mkCompactor (cp_dataDir p) [_] None), w1. split.
  - cbn [cm_exec]. unfold compactor_tick, maybeCompact, mbind, io_bind, io_try, io_wrap. rewrite Hs, Hd, findSSTableFiles_ok by done.
    rewrite (proj2 (Nat.ltb_ge _ _)), Htake by (fold e; lia). fold e. rewrite E1. unfold send_result. by rewrite Hch, Hd.
  - split; [done|]. split; [done|done|]. eexists _, _. split; [exact Hc1|]. unfold pending_ok. cbn [cp_resultCh].
    exists newer, older, tnew, told, (compacted_path (en_dataDir e) (hd 0 (w_clock w))).
    split_and!; try done; [by eapply Forall2_length|]. unfold compacted_path, path_Join. by destruct (en_dataDir e).
Qed.

(** ** A result *)

Lemma table_keys_stored w q t : no_faults w → stored (w_files w) q t → table_keys w q = e_Key <$> t.
Proof.
  intros Hw Hq. unfold table_keys, table_records. rewrite (readAll_stored w q t Hw Hq). cbn.
  rewrite <- list_fmap_compose. done.
Qed.

Lemma newest_first_by_path l : StronglySorted (λ a b, bytes_lt b a) (sst_path <$> l) → newest_first l.
Proof.
  unfold newest_first. induction l as [|r l IH]; [constructor|]. intros [Hs Hf]%StronglySorted_inv.
  constructor; [by apply IH|].
  change (Forall (λ b, bytes_lt b (sst_path r)) (sst_path <$> l)) in Hf. by rewrite Forall_fmap in Hf.
Qed.

(** Tables that share no key with those that a result removes. *)
Lemma ready_disjoint w fs newer older tnew told removed :
  no_faults w → fs = w_files w → Forall2 (table_open fs) newer tnew → Forall2 (table_open fs) older told →
  removed = rev (sst_path <$> older) → (∀ r, r ∈ newer → sst_path r ∉ sst_path <$> older) →
  Forall (λ a, a ∈ removed ∨ Forall (λ b, Forall (λ k, k ∉ table_keys w b) (table_keys w a)) removed)
    (sst_path <$> newer ++ older) →
  ∀ t x, t ∈ told → x ∈ t → ∀ t' x', t' ∈ tnew → x' ∈ t' → e_Key x' ≠ e_Key x.
Proof.
  intros Hw -> Hn Ho -> Hkept Hall t x Ht Hx t' x' Ht' Hx' Heq.
  apply list_elem_of_lookup in Ht as [i Hi], Ht' as [j Hj].
  destruct (Forall2_lookup_r _ _ _ _ _ Ho Hi) as (r & Hr & [Hst _]).
  destruct (Forall2_lookup_r _ _ _ _ _ Hn Hj) as (r' & Hr' & [Hst' _]).
  apply list_elem_of_lookup_2 in Hr, Hr'. rewrite Forall_forall in Hall.
  destruct (Hall (sst_path r')) as [Hin|Hin].
  - apply list_elem_of_fmap_2, elem_of_app. by left.
  - apply (Hkept r' Hr'). by apply elem_of_rev.
  - rewrite Forall_forall in Hin. specialize (Hin (sst_path r)).
    rewrite (table_keys_stored w _ t), (table_keys_stored w _ t') in Hin by done.
    rewrite Forall_forall in Hin. apply (Hin ltac:(apply elem_of_rev; rewrite rev_involutive; by apply list_elem_of_fmap_2) (e_Key x')).
    + by apply list_elem_of_fmap_2.
    + rewrite Heq. by apply list_elem_of_fmap_2.
Qed.

(** The merged table takes the place of the tables it was made from. *)
Lemma replace_rep w w2 c rs es ta tb told a b older np :
  let merged := merge_entries (tag_files 0 (rev told)) in
  conc_rep w (with_tables (merged_readers np merged) c) rs es (((ta ++ tb) ++ told) ++ merged_tables merged) →
  en_sstables (cc_engine c) = (a ++ b) ++ older →
  length a = length ta → length b = length tb → length older = length told →
  (∀ q, q ∉ sst_path <$> older → w_files w2 !! q = w_files w !! q) →
  (∀ t x, t ∈ told → x ∈ t → ∀ t' x', t' ∈ ta ++ tb → x' ∈ t' → e_Key x' ≠ e_Key x) →
  conc_rep w2 (mkConc (set_sstables (a ++ merged_readers np merged ++ b) (cc_engine c)) (cc_flights c)) rs es
    (ta ++ merged_tables merged ++ tb).
Proof.
  intros merged [Hp Hwal Hm Hok Hfl Ht Hnm Hnd Hv] Hsst La Lb Lo Hf Hdis. rewrite with_tables_paths in Hnm, Hnd.
  set (c' := mkConc _ _).
  assert (Hperm : conc_paths c ++ (sst_path <$> merged_readers np merged) ≡ₚ (sst_path <$> older) ++ conc_paths c').
  { unfold c', conc_paths. cbn. rewrite Hsst, !fmap_app, <- !app_assoc. solve_Permutation. }
  rewrite Hperm in Hnm, Hnd. apply Forall_app in Hnm as [Hno Hnm]. apply NoDup_app in Hnd as (_ & Hdj & Hnd).
  assert (Hkeep : ∀ q, q ∈ conc_paths c' → w_files w2 !! q = w_files w !! q) by (intros q Hq; apply Hf; intros Ho; by apply (Hdj q)).
  cbn in Ht. rewrite Hsst, <- (app_assoc (ta ++ tb)) in Ht. rewrite <- (app_assoc (a ++ b)) in Ht.
  apply Forall2_app_inv in Ht as [Hab [Hto Hmt]%Forall2_app_inv]; [|done|by rewrite !length_app, La, Lb].
  apply Forall2_app_inv in Hab as [Ha Hb]; [|done].
  split; try done.
  - rewrite Hf; [done|]. intros Hin. rewrite Forall_forall in Hno. eapply wal_not_named, Hno. by rewrite <- Hp.
  - apply Forall_forall. intros f Hin. rewrite Forall_forall in Hfl. eapply flight_ok_frame; [|by apply Hfl].
    apply Hkeep, elem_of_app. left. by apply list_elem_of_fmap_2.
  - eapply table_open_frame; [|by apply Forall2_app; [exact Ha|apply Forall2_app; [exact Hmt|exact Hb]]].
    intros r Hr. apply Hkeep, elem_of_app. right. by apply list_elem_of_fmap_2.
  - intros k. rewrite <- Hv. cbn [cc_flights with_tables]. destruct (Forall2_rev_paths _ _ _ Hto) as (_ & Hsort & _).
    rewrite !app_comm_cons, !(layered_lookup_app k (es :: _)), <- (app_assoc (ta ++ tb)), merged_behind by done.
    destruct (layered_lookup k (es :: _)); [done|]. rewrite merged_tables_lookup.
    rewrite <- (rev_involutive told) at 1. apply merged_view; [by apply Forall_rev_list|].
    intros t x Hti%elem_of_rev. by apply Hdis.
Qed.

Lemma process_step_inv w c p rs es tables :
  no_faults w → cm_inv w c p rs es tables → process_ready w c p →
  ∃ c' p' w' tables', cm_exec CmProcess c p w = (Ok (c', p'), w') ∧ no_faults w' ∧ cm_inv w' c' p' rs es tables'.
Proof.
  intros Hw Hi Hready. pose proof Hi as [Hs Hd (g & gt & Hc & Hp)]. unfold process_ready in Hready. unfold pending_ok in Hp.
  cbn [cm_exec]. unfold process_result, receive_result, mbind, io_bind.
  destruct (cp_resultCh p) as [|res [|]] eqn:Hch; [by exists c, p, w, tables; destruct c| |done]. rewrite Hs.
  destruct Hp as (newer & older & tnew & told & np & Hsst & -> & Ln & -> & Hnp & -> & ->).
  set (merged := merge_entries (tag_files 0 (rev told))) in *. destruct Hready as [Hsort Hall].
  rewrite Hsst in Hall. apply newest_first_by_path in Hsort. pose proof Hsort as Hsort'. rewrite Hsst in Hsort'.
  apply newest_first_paths in Hsort' as [_ Hkept].
  pose proof (cp_tables _ _ _ _ _ Hc) as Ht. cbn in Ht. rewrite Hsst in Ht.
  assert (Lo : length older = length told).
  { pose proof (Forall2_length _ _ _ Ht) as L. rewrite !length_app in L.
    assert (length (merged_readers np merged) = length (merged_tables merged)) by (unfold merged_readers, merged_tables; by case_decide). lia. }
  apply Forall2_app_inv in Ht as [[Htn Hto]%Forall2_app_inv Hmt]; [|done|by rewrite !length_app, Ln, Lo].
  destruct (apply_compaction_ok w (cc_engine c) newer older np merged Hw Hsst Hsort) as (a & b & w2 & -> & Hw2 & E2 & Hf2).
  { unfold merged_readers, merged_tables in Hmt. case_decide; [by left|right]. split; [done|].
    apply Forall2_cons in Hmt as [[Hst _] _]. exact Hst. }
  pose proof Htn as Hab. apply Forall2_app_inv_l in Hab as (ta & tb & Ha & Hb & ->).
  rewrite E2. eexists _, (mkCompactor (cp_dataDir p) [] None), w2, (ta ++ merged_tables merged ++ tb). split; [reflexivity|].
  split; [done|]. split; [done|done|]. exists [], []. rewrite with_tables_nil, app_nil_r. split; [|by split].
  replace (if decide (merged = []) then a ++ b else _) with (a ++ merged_readers np merged ++ b)
    by (unfold merged_readers; by case_decide).
  eapply (replace_rep w w2); [exact Hc|exact Hsst|by eapply Forall2_length..|exact Lo| |].
  - intros q Hq. apply Hf2. by intros ?%elem_of_rev.
  - eapply (ready_disjoint w _ (a ++ b) older); [done..|exact Htn|exact Hto|reflexivity|exact Hkept|exact Hall].
Qed.

(** ** Runs *)

Lemma cm_step_inv w c p rs es tables ev :
  no_faults w → cm_inv w c p rs es tables → cm_ready w ev c p →
  ∃ c' p' w' es' tables', cm_exec ev c p w = (Ok (c', p'), w') ∧ no_faults w'
    ∧ cm_inv w' c' p' (rs ++ cm_records ev) es' tables'.
Proof.
  intros Hw Hi Hr. destruct ev as [ev| |]; cbn [cm_records]; rewrite ?app_nil_r.
  - destruct (client_step_inv w c p rs es tables ev Hw Hi Hr) as (c' & w' & es' & ts & E). by exists c', p, w', es', ts.
  - destruct (tick_step_inv w c p rs es tables Hw Hi Hr) as (p' & w' & E). by exists c, p', w', es, tables.
  - destruct (process_step_inv w c p rs es tables Hw Hi Hr) as (c' & p' & w' & ts & E). by exists c', p', w', es, ts.
Qed.

Lemma cm_run_inv evs : ∀ w c p rs es tables,
  no_faults w → cm_inv w c p rs es tables → cm_ready_run w evs c p →
  ∃ c' p' w' es' tables', cm_run evs c p w = (Ok (c', p'), w') ∧ no_faults w'
    ∧ cm_inv w' c' p' (rs ++ (evs ≫= cm_records)) es' tables'.
Proof.
  induction evs as [|ev evs IH]; intros w c p rs es tables Hw Hi Hready.
  { exists c, p, w, es, tables. cbn. by rewrite app_nil_r. }
  destruct Hready as [Hr1 Hr2].
  destruct (cm_step_inv w c p rs es tables ev Hw Hi Hr1) as (c1 & p1 & w1 & es1 & t1 & E1 & Hw1 & Hi1).
  rewrite E1 in Hr2. destruct (IH w1 c1 p1 _ _ _ Hw1 Hi1 Hr2) as (c2 & p2 & w2 & es2 & t2 & E2 & Hw2 & Hi2).
  exists c2, p2, w2, es2, t2. cbn [cm_run]. unfold mbind, io_bind. rewrite E1. split; [done|]. split; [done|].
  cbn. by rewrite app_assoc.
Qed.

Lemma cm_inv_conc w c p rs es tables : cm_inv w c p rs es tables → conc_rep w c rs es tables.
Proof. intros [_ _ (g & gt & Hc & Hp)]. by eapply conc_rep_forget. Qed.

Lemma cm_inv_start w e rs es tables :
  engine_rep w e rs es tables → Forall sst_named (sst_path <$> en_sstables e) → NoDup (sst_path <$> en_sstables e) →
  cm_inv w (mkConc e []) (NewCompactor (en_dataDir e)) rs es tables.
Proof.
  intros He Hnm Hnd. split; [done..|]. exists [], []. rewrite with_tables_nil, app_nil_r. split; [|done].
  by apply conc_rep_start.
Qed.

(** * Theorems *)

(** C13: the running engine keeps every write. Start, with no I/O failure, from
    an engine that represents a history and let clients put and delete while any
    number of flushes is under way, the compactor tick and its results be
    applied, all in any order, under the conditions of [cm_ready_run]: keys and
    values fit the log's fields, a MemTable that is flushed and a merge that is
    written make a table that reads back under a path not in use, flushes end in
    the order in which they began, a tick that finds four tables finds no result
    pending and its two oldest files are the oldest of the engine's tables, and
    a result is applied while the engine's list is in the order of the names and
    the tables it removes share no key with the others. Then no step fails,
    every write is in the history, a read of a key that is not in flight is
    exact at every moment, and whenever nothing is in flight the engine
    represents the whole history again. The code does not maintain the order of
    the names by itself: [compaction_resorts_stale] leaves these conditions. *)
Theorem engine_runs_with_compaction evs w e rs es tables :
  no_faults w → engine_rep w e rs es tables →
  Forall sst_named (sst_path <$> en_sstables e) → NoDup (sst_path <$> en_sstables e) →
  cm_ready_run w evs (mkConc e []) (NewCompactor (en_dataDir e)) →
  let rs' := rs ++ (evs ≫= cm_records) in
  ∃ c' p' w', cm_run evs (mkConc e []) (NewCompactor (en_dataDir e)) w = (Ok (c', p'), w') ∧ no_faults w'
    ∧ (∀ key, key ≠ [] → (∀ f x, f ∈ cc_flights c' → x ∈ fl_entries f → e_Key x ≠ key) →
         Get (cc_engine c') key w' = (get_answer (history_map rs' !! key), w'))
    ∧ (cc_flights c' = [] → ∃ es' tables', engine_rep w' (cc_engine c') rs' es' tables').
Proof.
  intros Hw He Hnm Hnd Hready rs'.
  destruct (cm_run_inv evs w _ _ rs es tables Hw (cm_inv_start _ _ _ _ _ He Hnm Hnd) Hready)
    as (c' & p' & w' & es' & tables' & E & Hw' & Hi'). apply cm_inv_conc in Hi'. fold rs' in Hi'.
  exists c', p', w'. split; [done|]. split; [done|]. split.
  - intros key Hk Hno. by eapply conc_Get_exact.
  - intros Hz. exists es', tables'. by apply conc_rep_landed.
Qed.

(** An engine with four tables and a full MemTable: a tick merges the oldest
    tables, a client's write starts a flush, and the result is applied while the
    flush is under way. *)
Definition busy_log : list WALRecord := witness_four_log ++ [put_record (str "k") (str "v")].
Definition busy_engine : Engine := mkEngine (str "d") (mkWAL (wal_file (str "d"))) witness_full witness_four_readers.
Definition busy_world : world :=
  mkWorld (<[wal_file (str "d") := encode_records busy_log]> (w_files witness_four_world)) [5; 6] [] [].

Lemma busy_rep : engine_rep busy_world busy_engine busy_log [mkEntry (str "k") (Some (str "v")) OpPut] witness_four.
Proof.
  pose proof witness_four_rep as [_ _ _ _ Ht Hpaths _]. split.
  - reflexivity.
  - apply lookup_insert_eq.
  - exists (2 ^ 20). exact witness_full_rep.
  - by constructor; [|constructor]; split; [right; eexists|split].
  - eapply table_open_frame; [|exact Ht]. intros r Hr. apply lookup_insert_ne. intros Heq. by apply (Hpaths r Hr).
  - exact Hpaths.
  - intros k.
    replace (history_map busy_log) with
      (<[str "k" := str "v"]> (<[str "d" := str "v"]> (<[str "c" := str "v"]> (<[str "b" := str "v"]> {[str "a" := str "v"]}))) : gmap bytes bytes)
      by by_decide.
    rewrite !lookup_insert, lookup_singleton. cbn -[str]. repeat case_decide; try congruence; reflexivity.
Qed.

Definition busy_events : list cm_event :=
  [CmTick; CmClient (CePut (str "k") (str "new")); CmProcess; CmClient (CePut (str "a") (str "x"));
   CmClient (CeTable 0); CmTick; CmClient (CeInstall 0)].

Lemma engine_runs_with_compaction_witness :
  ∃ c' p' w' es' tables', cm_run busy_events (mkConc busy_engine []) (NewCompactor (str "d")) busy_world = (Ok (c', p'), w')
    ∧ engine_rep w' (cc_engine c') (busy_log ++ (busy_events ≫= cm_records)) es' tables'.
Proof.
  destruct (engine_runs_with_compaction busy_events busy_world busy_engine busy_log [mkEntry (str "k") (Some (str "v")) OpPut]
    witness_four) as (c' & p' & w' & E & _ & _ & Hland).
  - reflexivity.
  - exact busy_rep.
  - unfold busy_engine, witness_four_readers, witness_four. cbn [en_sstables fmap list_fmap zip_with].
    repeat constructor; apply sstable_path_named.
  - by_decide.
  - by_decide.
  - destruct Hland as (es' & tables' & Hrep); [|exists c', p', w', es', tables'; split; [exact E|exact Hrep]].
    assert (H : match fst (cm_run busy_events (mkConc busy_engine []) (NewCompactor (str "d")) busy_world) with
                | Ok (c, _) => length (cc_flights c) | _ => 1%nat end = 0%nat) by (vm_compute; reflexivity).
    change (en_dataDir busy_engine) with (str "d") in E. rewrite E in H. apply nil_length_inv, H.
Defined.

(** Four tables, the oldest with key [k], which the full MemTable rewrote. *)
Definition resort_tables : list (list MemTableEntry) :=
  [[mkEntry (str "d") (Some (str "v")) OpPut]; [mkEntry (str "c") (Some (str "v")) OpPut];
   [mkEntry (str "b") (Some (str "v")) OpPut]; [mkEntry (str "k") (Some (str "old")) OpPut]].
Definition resort_readers : list SSTableReader :=
  zip_with (λ n t, mkReader (sstable_path (str "d") n) (sparse_index 0 0 t)) [4; 3; 2; 1] resort_tables.
Definition resort_log : list WALRecord :=
  [put_record (str "k") (str "old"); put_record (str "b") (str "v"); put_record (str "c") (str "v");
   put_record (str "d") (str "v"); put_record (str "k") (str "v")].
Definition resort_engine : Engine := mkEngine (str "d") (mkWAL (wal_file (str "d"))) witness_full resort_readers.
Definition resort_world : world :=
  mkWorld (<[wal_file (str "d") := encode_records resort_log]>
    (list_to_map (zip_with (λ r t, (sst_path r, sst_file t)) resort_readers resort_tables))) [6; 7; 8] [] [].

Lemma resort_rep : engine_rep resort_world resort_engine resort_log [mkEntry (str "k") (Some (str "v")) OpPut] resort_tables.
Proof.
  split.
  - reflexivity.
  - apply lookup_insert_eq.
  - exists (2 ^ 20). exact witness_full_rep.
  - by constructor; [|constructor]; split; [right; eexists|split].
  - repeat (apply List.Forall2_cons || apply List.Forall2_nil);
      (split; [split|split]); try reflexivity; try discriminate; try (repeat constructor; vm_compute; reflexivity).
  - intros r Hr. repeat (apply elem_of_cons in Hr as [->|Hr]; [vm_compute; congruence|]). by apply not_elem_of_nil in Hr.
  - intros k.
    replace (history_map resort_log) with
      (<[str "k" := str "v"]> (<[str "d" := str "v"]> (<[str "c" := str "v"]> {[str "b" := str "v"]})) : gmap bytes bytes)
      by by_decide.
    rewrite !lookup_insert, lookup_singleton. cbn -[str]. repeat case_decide; try congruence; reflexivity.
Qed.

(** The number of flights after a run and the answer for a key. *)
Definition cm_view (evs : list cm_event) (e : Engine) (w : world) (key : bytes) : option (nat * outcome bytes) :=
  match cm_run evs (mkConc e []) (NewCompactor (en_dataDir e)) w with
  | (Ok (c, _), w') => Some (length (cc_flights c), fst (Get (cc_engine c) key w'))
  | _ => None
  end.

(** A flush is under way while a compaction is applied; then it ends. *)
Definition resort_events : list cm_event :=
  [CmClient (CePut (str "k") (str "new")); CmTick; CmProcess; CmClient (CeTable 0); CmClient (CeInstall 0)].

(** C38: a flush that is under way while a compaction result is applied lets a
    later compaction bring an old value back. The flush gets its file name
    before the merged table gets its, but is put in front of it when it ends, so
    the list of tables is no longer in the order of the names. Up to here every
    read is right and [k] has its last value. The next compaction merges two
    tables that do not hold [k] at all, and applying its result sorts the list
    by name: the older value of [k] comes first. *)
Theorem compaction_resorts_stale :
  engine_rep resort_world resort_engine resort_log [mkEntry (str "k") (Some (str "v")) OpPut] resort_tables
  ∧ cm_ready_run resort_world resort_events (mkConc resort_engine []) (NewCompactor (str "d"))
  ∧ cm_view resort_events resort_engine resort_world (str "k") = Some (0%nat, Ok (str "new"))
  ∧ cm_view (resort_events ++ [CmTick; CmProcess]) resort_engine resort_world (str "k") = Some (0%nat, Ok (str "old"))
  ∧ history_map (resort_log ++ (resort_events ≫= cm_records)) !! str "k" = Some (str "new").
Proof.
  split; [exact resort_rep|]. split; [by_decide|]. split; [vm_compute; reflexivity|]. split; vm_compute; reflexivity.
Qed.
