(* ===== verification/Validation.v ===== *)
(** The storage validation mode of [cmd/server/main.go]: [runStorageTest]
    writes numbered keys, reads them back, deletes three of them and closes
    the engine; run again with [-verify-only] it checks what survived the
    restart. What it prints is its report; the signal handler is not
    modelled. *)

From S2P Require Import Prelude StorageTypes SkipList MemTable Crc32 Os Wal Recovery SSTable Compaction Engine Lifecycle.

(** ** The program *)

(** [main] runs the validation unless it is given a node name and neither of
    the two flags. *)
Definition validation_mode (nodeID : bytes) (phase1 verifyOnly : bool) : bool :=
  bool_decide (nodeID = []) || phase1 || verifyOnly.

(** [fmt.Sprintf("%04d", i)] of a loop index. *)
Definition Sprintf_04d (i : nat) : bytes :=
  let d := str (pretty (N.of_nat i)) in replicate (4 - length d) x30 ++ d.

Definition test_key (i : nat) : bytes := str "key_" ++ Sprintf_04d i.
Definition test_value (i : nat) : bytes := str "value_" ++ Sprintf_04d i.

(** [for i := 0; i < numKeys; i++]: [None] when a failed put ends the process. *)
Fixpoint write_keys (i n : nat) (e : Engine) : IO (option Engine) :=
  match n with
  | O => mret (Some e)
  | S n =>
      '(e, err) ← Engine.Put e (test_key i) (Some (test_value i));
      match err with
      | Some _ => mret None
      | None => write_keys (S i) n e
      end
  end.

Definition delete_names : list bytes := [str "key_0000"; str "key_0001"; str "key_0002"].

Definition deletedKeys (verifyOnly : bool) : gmap bytes bool :=
  list_to_map ((λ k, (k, verifyOnly)) <$> delete_names).

(** The verification loop: missing keys and wrong values. *)
Fixpoint verify_keys (deleted : gmap bytes bool) (e : Engine) (i n : nat) (missing wrong : Z) : IO (Z * Z) :=
  match n with
  | O => mret (missing, wrong)
  | S n =>
      if default false (deleted !! test_key i) then verify_keys deleted e (S i) n missing wrong else
      r ← io_try (Engine.Get e (test_key i));
      match r with
      | inl _ => verify_keys deleted e (S i) n (missing + 1) wrong
      | inr val =>
          if decide (val = test_value i) then verify_keys deleted e (S i) n missing wrong
          else verify_keys deleted e (S i) n missing (wrong + 1)
      end
  end.

(** A failed delete is only logged. *)
Fixpoint delete_keys (e : Engine) (ks : list bytes) : IO Engine :=
  match ks with
  | [] => mret e
  | k :: ks => '(e, _) ← Engine.Delete e k; delete_keys e ks
  end.

Inductive delete_check := ReturnsErrNotFound | StillExists | UnexpectedError.

Fixpoint check_deleted (e : Engine) (ks : list bytes) : IO (list delete_check) :=
  match ks with
  | [] => mret []
  | k :: ks =>
      r ← io_try (Engine.Get e k);
      cs ← check_deleted e ks;
      mret (match r with
            | inl ErrNotFound => ReturnsErrNotFound
            | inr _ => StillExists
            | inl _ => UnexpectedError
            end :: cs)
  end.

Record report := mkReport {
  rp_missing : Z;
  rp_wrong : Z;
  rp_checks : list delete_check;
}.

(** [missingCount == 0 && wrongCount == 0]: the report says PASS. *)
Definition report_pass (r : report) : bool := (rp_missing r =? 0) && (rp_wrong r =? 0).

(** [None] is [os.Exit(1)]. *)
Definition runStorageTest (dataDir : bytes) (verifyOnly : bool) (numKeys : Z) : IO (option report) :=
  let n := Z.to_nat numKeys in
  r ← io_try (Open dataDir);
  match r with
  | inl _ => mret None
  | inr e =>
      we ← (if verifyOnly then mret (Some e) else write_keys 0 n e);
      match we with
      | None => mret None
      | Some e =>
          '(missing, wrong) ← verify_keys (deletedKeys verifyOnly) e 0 n 0 0;
          '(e, checks) ← (if verifyOnly then mret (e, []) else
            e ← delete_keys e delete_names;
            cs ← check_deleted e delete_names;
            mret (e, cs));
          _ ← io_try (Close e);
          mret (Some (mkReport missing wrong checks))
      end
  end.

(** ** Specification *)

(** The records of the run: the first [n] keys put, then the deletes. *)
Definition test_puts (n : nat) : list WALRecord :=
  (λ i, put_record (test_key i) (test_value i)) <$> seq 0 n.
Definition test_deletes : list WALRecord := delete_record <$> delete_names.

(** A record or entry of the run: its key starts with [key_], and key and value
    are short. *)
Definition test_name (k : bytes) : Prop := ∃ d, k = str "key_" ++ d ∧ len d <= 6.
Definition test_entry (x : MemTableEntry) : Prop := test_name (e_Key x) ∧ len (slice_bytes (e_Value x)) <= 12.

(** The engine after [k] writes of the run. *)
Abbreviation test_state := (run_state test_entry 86).

(** A directory in which the program has not run. *)
Definition empty_dir (w : world) (d : bytes) : Prop :=
  no_faults w ∧ w_files w !! wal_file d = None ∧ sst_paths (w_files w) d = [].

(** * Lemmas *)

(** ** Names *)

Lemma length_str s : length (str s) = String.length s.
Proof. unfold str, list_byte_of_string. rewrite length_map. induction s as [|c s IH]; cbn; [done|]. by rewrite IH. Qed.

Lemma pretty_go_length k : ∀ x s,
  (x < 10 ^ N.of_nat k)%N → (String.length (pretty_N_go x s) ≤ k + String.length s)%nat.
Proof.
  induction k as [|k IH]; intros x s Hx.
  { replace x with 0%N by (cbn in Hx; lia). by rewrite pretty_N_go_0. }
  destruct (decide (x = 0%N)) as [->|Hne]; [rewrite pretty_N_go_0; lia|].
  rewrite pretty_N_go_step by lia. etrans; [apply IH|cbn; lia].
  apply N.Div0.div_lt_upper_bound. by rewrite <- N.pow_succ_r', <- Nat2N.inj_succ.
Qed.

Lemma Sprintf_04d_length i : Z.of_nat i < 10 ^ 6 → (4 ≤ length (Sprintf_04d i) ≤ 6)%nat.
Proof.
  intros Hi. unfold Sprintf_04d. rewrite length_app, length_replicate, length_str.
  assert (String.length (pretty (N.of_nat i)) ≤ 6)%nat; [|lia].
  unfold pretty, pretty_N. case_decide; [cbn; lia|].
  etrans; [apply (pretty_go_length 6)|done].
  change (10 ^ N.of_nat 6)%N with 1000000%N. lia.
Qed.

Lemma test_key_name i : Z.of_nat i < 10 ^ 6 → test_name (test_key i).
Proof.
  intros Hi. exists (Sprintf_04d i). split; [done|]. pose proof (Sprintf_04d_length i Hi). unfold len. lia.
Qed.

Lemma test_value_len i : Z.of_nat i < 10 ^ 6 → len (test_value i) <= 12 ∧ test_value i ≠ [].
Proof.
  intros Hi. pose proof (Sprintf_04d_length i Hi). unfold test_value, len. rewrite length_app. cbn. split; [lia|done].
Qed.

Lemma test_name_len k : test_name k → k ≠ [] ∧ len k <= 10.
Proof. intros (d & -> & Hd). split; [done|]. rewrite len_app. unfold len at 1. cbn. lia. Qed.

Lemma delete_names_ok k : k ∈ delete_names → test_name k.
Proof.
  intros [->|[->|[->|[]%not_elem_of_nil]%elem_of_cons]%elem_of_cons]%elem_of_cons;
    [exists (str "0000")|exists (str "0001")|exists (str "0002")]; split; done.
Qed.

(** Keys that are equal have equal values. *)
Lemma test_key_value i j : test_key i = test_key j → test_value i = test_value j.
Proof. intros H%app_inv_head. unfold test_value. by rewrite H. Qed.

(** ** The history of the run *)

Lemma test_puts_S n : test_puts (S n) = test_puts n ++ [put_record (test_key n) (test_value n)].
Proof. unfold test_puts. by rewrite seq_S, fmap_app. Qed.

Lemma test_puts_lookup n j :
  (j < n)%nat → history_map (test_puts n) !! test_key j = Some (test_value j).
Proof.
  induction n as [|n IH]; intros Hj; [lia|]. rewrite test_puts_S, history_map_snoc.
  change (apply_record ?m (put_record ?k ?v)) with (<[k := v]> m). rewrite lookup_insert.
  case_decide as D; [by f_equal; apply test_key_value|]. apply IH.
  destruct (decide (j = n)) as [->|]; [done|lia].
Qed.

Lemma deletes_lookup ks : ∀ rs k,
  history_map (rs ++ (delete_record <$> ks)) !! k = if decide (k ∈ ks) then None else history_map rs !! k.
Proof.
  induction ks as [|q ks IH]; intros rs k.
  { rewrite app_nil_r, decide_False; [done|]. apply not_elem_of_nil. }
  rewrite fmap_cons, cons_middle, app_assoc, IH, history_map_snoc.
  change (apply_record ?m (delete_record q)) with (delete q m). rewrite lookup_delete.
  destruct (decide (k ∈ ks)); [rewrite decide_True; [done|by right]|].
  destruct (decide (q = k)) as [->|]; [rewrite decide_True; [done|left]|].
  rewrite decide_False; [done|]. by apply not_elem_of_cons.
Qed.

(** ** Writes *)

Lemma test_entry_size x : test_entry x → entry_size x + 64 <= 86.
Proof. intros [[_ ?]%test_name_len ?]. unfold entry_size. lia. Qed.

Lemma test_put d w e rs es k i :
  test_state d w e rs es k → 0 <= k → Z.of_nat i < 10 ^ 6 → 86 * (k + 1) < memTableMaxSize →
  ∃ e' w' es', Engine.Put e (test_key i) (Some (test_value i)) w = (Ok (e', None), w')
    ∧ test_state d w' e' (rs ++ [put_record (test_key i) (test_value i)]) es' (k + 1).
Proof.
  intros T Hk Hi Hb. destruct (test_name_len _ (test_key_name i Hi)) as [Hne Hkl].
  destruct (test_value_len i Hi) as [Hvl Hvne]. pose proof (rs_rep _ _ _ _ _ _ _ _ T) as Hrep.
  destruct (run_write test_entry 86 d w e rs es k (put_record (test_key i) (test_value i))
    (WPut (test_key i) (Some (test_value i))) T Hk) as (m' & w' & E & T'); try done.
  - apply put_entry_ok; lia.
  - split; [|by right]. split; [cbn [put_record r_Key]; lia|]. change (len (test_value i) < 2 ^ 32). lia.
  - split; [by apply test_key_name|done].
  - cbn [put_record r_Key]. lia.
  - apply test_entry_size. split; [by apply test_key_name|done].
  - eexists _, w', _. split; [|exact T']. erewrite Put_write; [exact E|apply T|done|lia|apply Hrep].
Qed.

Lemma test_delete d w e rs es k q :
  test_state d w e rs es k → 0 <= k → test_name q → 86 * (k + 1) < memTableMaxSize →
  ∃ e' w' es', Engine.Delete e q w = (Ok (e', None), w')
    ∧ test_state d w' e' (rs ++ [delete_record q]) es' (k + 1).
Proof.
  intros T Hk Hq Hb. destruct (test_name_len _ Hq) as [Hne Hkl]. pose proof (rs_rep _ _ _ _ _ _ _ _ T) as Hrep.
  destruct (run_write test_entry 86 d w e rs es k (delete_record q) (WDelete q) T Hk) as (m' & w' & E & T'); try done.
  - apply delete_entry_ok; lia.
  - split; [split; cbn; [lia|done]|by left].
  - cbn [delete_record r_Key]. lia.
  - apply test_entry_size. by split.
  - eexists _, w', _. split; [|exact T']. erewrite Delete_write; [exact E|apply T|done|lia|apply Hrep].
Qed.

Lemma write_keys_ok n : ∀ d w e rs es k i,
  test_state d w e rs es k → 0 <= k → Z.of_nat (i + n) <= 10 ^ 6 → 86 * (k + Z.of_nat n) < memTableMaxSize →
  ∃ e' w' es', write_keys i n e w = (Ok (Some e'), w')
    ∧ test_state d w' e' (rs ++ ((λ i, put_record (test_key i) (test_value i)) <$> seq i n)) es' (k + Z.of_nat n).
Proof.
  induction n as [|n IH]; intros d w e rs es k i T Hk Hi Hb.
  { eexists e, w, es. split; [done|]. cbn. by rewrite app_nil_r, Z.add_0_r. }
  destruct (test_put d w e rs es k i T Hk ltac:(lia) ltac:(lia)) as (e1 & w1 & es1 & E1 & T1).
  destruct (IH d w1 e1 _ es1 (k + 1) (S i) T1 ltac:(lia) ltac:(lia) ltac:(lia)) as (e2 & w2 & es2 & E2 & T2).
  exists e2, w2, es2. cbn [write_keys]. unfold mbind, io_bind. rewrite E1. split; [exact E2|].
  rewrite <- app_assoc in T2. by replace (k + Z.of_nat (S n)) with (k + 1 + Z.of_nat n) by lia.
Qed.

Lemma delete_keys_ok ks : ∀ d w e rs es k,
  test_state d w e rs es k → 0 <= k → (∀ q, q ∈ ks → test_name q) → 86 * (k + len ks) < memTableMaxSize →
  ∃ e' w' es', delete_keys e ks w = (Ok e', w')
    ∧ test_state d w' e' (rs ++ (delete_record <$> ks)) es' (k + len ks).
Proof.
  induction ks as [|q ks IH]; intros d w e rs es k T Hk Hks Hb.
  { eexists e, w, es. split; [done|]. cbn. by rewrite app_nil_r, Z.add_0_r. }
  rewrite len_cons in *. pose proof (len_nonneg ks).
  destruct (test_delete d w e rs es k q T Hk (Hks q ltac:(left)) ltac:(lia)) as (e1 & w1 & es1 & E1 & T1).
  destruct (IH d w1 e1 _ es1 (k + 1) T1 ltac:(lia)) as (e2 & w2 & es2 & E2 & T2); [|lia|].
  { intros x Hx. apply Hks. by right. }
  exists e2, w2, es2. cbn [delete_keys]. unfold mbind, io_bind. rewrite E1. split; [exact E2|].
  rewrite <- app_assoc in T2. by rewrite Z.add_assoc.
Qed.

(** ** The table [Close] writes *)

Lemma test_close_ready d w e rs es k :
  test_state d w e rs es k → k <= 800000 → close_ready rs es.
Proof.
  intros T Hk. eapply (run_close_ready test_entry 86 d w e rs es k 10 22 x5f); [exact T| |change (byte_to_Z x5f) with 95; lia|lia].
  intros x [(n & Hn & ?) ?]. rewrite Hn. split; [rewrite len_app; unfold len at 1; cbn; lia|].
  split; [unfold entry_size; rewrite Hn, len_app; unfold len at 1; cbn; lia|by eexists _, _, _, n].
Qed.

(** ** Reads *)

Lemma verify_keys_ok deleted w e rs es tables n : ∀ i missing wrong,
  no_faults w → engine_rep w e rs es tables → Z.of_nat (i + n) <= 10 ^ 6 →
  (∀ j, (i ≤ j < i + n)%nat → deleted !! test_key j = Some true ∨ history_map rs !! test_key j = Some (test_value j)) →
  verify_keys deleted e i n missing wrong w = (Ok (missing, wrong), w).
Proof.
  induction n as [|n IH]; intros i missing wrong Hw He Hi Hj; [done|]. cbn [verify_keys].
  assert (IH' : verify_keys deleted e (S i) n missing wrong w = (Ok (missing, wrong), w)).
  { apply IH; [done|done|lia|]. intros j Hj'. apply Hj. lia. }
  destruct (deleted !! test_key i) as [[]|] eqn:Ed; [exact IH'| |]; cbn [default id from_option];
    (destruct (Hj i) as [E|E]; [lia|congruence|]); unfold mbind, io_bind, io_try;
    (rewrite (Get_rep w e rs es tables) by done); rewrite E; cbn [get_answer]; by rewrite decide_True.
Qed.

Lemma check_deleted_ok w e rs es tables ks :
  no_faults w → engine_rep w e rs es tables → (∀ k, k ∈ ks → k ≠ [] ∧ history_map rs !! k = None) →
  check_deleted e ks w = (Ok ((λ _, ReturnsErrNotFound) <$> ks), w).
Proof.
  intros Hw He. induction ks as [|k ks IH]; intros Hks; [done|]. cbn [check_deleted].
  destruct (Hks k ltac:(left)) as [Hne Hk]. unfold mbind, io_bind, io_try.
  rewrite (Get_rep w e rs es tables) by done. rewrite Hk. cbn [get_answer].
  unfold mbind, io_bind, io_try in IH. rewrite IH; [done|]. intros q Hq. apply Hks. by right.
Qed.

Lemma deletedKeys_lookup b k : k ∈ delete_names → deletedKeys b !! k = Some b.
Proof.
  intros [->|[->|[->|[]%not_elem_of_nil]%elem_of_cons]%elem_of_cons]%elem_of_cons; destruct b; vm_compute; reflexivity.
Qed.

(** ** Runs *)

Lemma empty_dir_state w d :
  empty_dir w d → ∃ w1, Open d w = (Ok (fresh_engine d), w1) ∧ test_state d w1 (fresh_engine d) [] [] 0.
Proof.
  intros (Hw & Hf & Hs). destruct (Open_empty w d Hw Hf Hs) as [E Hs1].
  eexists. split; [exact E|]. split; try done; [|intros x H; by apply not_elem_of_nil in H].
  split; cbn; try done.
  - by rewrite lookup_insert_eq.
  - exists 0. apply mem_rep_new.
  - intros r H. by apply not_elem_of_nil in H.
Qed.

(** The write run: what it reports and leaves behind. *)
Lemma write_run w d numKeys :
  empty_dir w d → numKeys <= 700000 →
  ∃ w', runStorageTest d false numKeys w =
      (Ok (Some (mkReport 0 0 [ReturnsErrNotFound; ReturnsErrNotFound; ReturnsErrNotFound])), w')
    ∧ no_faults w' ∧ w_files w' !! wal_file d = Some (encode_records (test_puts (Z.to_nat numKeys) ++ test_deletes))
    ∧ tables_logged (w_files w') (test_puts (Z.to_nat numKeys) ++ test_deletes) d
    ∧ Forall replayable (test_puts (Z.to_nat numKeys) ++ test_deletes).
Proof.
  intros Hd Hn. set (n := Z.to_nat numKeys). assert (Hn' : Z.of_nat n <= 700000) by lia.
  destruct (empty_dir_state w d Hd) as (w1 & Eo & T1).
  destruct (write_keys_ok n d w1 _ [] [] 0 0 T1) as (e2 & w2 & es2 & Ew & T2); [lia..| |].
  { change memTableMaxSize with 67108864. lia. }
  change ([] ++ _) with (test_puts n) in T2. pose proof T2 as [Hw2 _ He2 _ _ _ _ _ _].
  destruct (delete_keys_ok delete_names d w2 e2 _ es2 (0 + Z.of_nat n) T2) as (e3 & w3 & es3 & Ed & T3); [lia| | |].
  { apply delete_names_ok. } { change memTableMaxSize with 67108864. change (len delete_names) with 3. lia. }
  change (test_puts n ++ _) with (test_puts n ++ test_deletes) in T3. change (len delete_names) with 3 in T3.
  pose proof T3 as [Hw3 Hd3 He3 _ _ _ Hr3 _ Hs3].
  destruct (Close_ok w3 e3 _ es3 [] Hw3 He3) as (w4 & Ec & Hw4 & Hf4 & Hl4 & _).
  { eapply test_close_ready; [exact T3|lia]. }
  { intros p. rewrite Hd3, Hs3. intros H. by apply not_elem_of_nil in H. }
  rewrite Hd3 in Hf4, Hl4. exists w4. split; [|done].
  unfold runStorageTest. unfold mbind, io_bind, io_try. rewrite Eo. fold n. rewrite Ew.
  rewrite (verify_keys_ok _ w2 e2 (test_puts n) es2 []); [|done|done|lia|].
  2: { intros j Hj. right. apply test_puts_lookup. lia. }
  rewrite Ed, (check_deleted_ok w3 e3 _ es3 [] delete_names Hw3 He3).
  2: { intros k Hk. split; [by apply (test_name_len k), delete_names_ok|].
       unfold test_deletes. by rewrite deletes_lookup, decide_True. }
  unfold mret, io_ret. cbn -[Close]. by rewrite Ec.
Qed.

(** The verification run over a log that has the puts and some of the deletes. *)
Lemma verify_run w d numKeys ks :
  numKeys <= 700000 → no_faults w →
  let rs := test_puts (Z.to_nat numKeys) ++ (delete_record <$> ks) in
  (∀ k, k ∈ ks → k ∈ delete_names) → Forall replayable rs →
  w_files w !! wal_file d = Some (encode_records rs) → tables_logged (w_files w) rs d →
  ∃ w', runStorageTest d true numKeys w = (Ok (Some (mkReport 0 0 [])), w').
Proof.
  intros Hn Hw rs Hks Hrs Hf Hl. set (n := Z.to_nat numKeys) in *.
  destruct (Open_logged w d rs Hw Hf Hrs Hl) as (e & w1 & es & ts & Eo & Hw1 & He & _).
  destruct (Close_run w1 e rs es ts Hw1 He) as (w2 & Ec & _). exists w2.
  unfold runStorageTest. unfold mbind, io_bind, io_try. rewrite Eo. fold n. cbn [mret io_ret].
  rewrite (verify_keys_ok _ w1 e rs es ts); [|done|done|lia|].
  2: { intros j Hj. destruct (decide (test_key j ∈ delete_names)) as [Hd|Hd]; [left; by apply deletedKeys_lookup|].
       right. unfold rs. rewrite deletes_lookup, decide_False by auto. apply test_puts_lookup. lia. }
  by rewrite Ec.
Qed.

(** * Properties *)

(** C19: the validation passes: in an empty directory and without I/O failures,
    the write run for up to 700000 keys (the default is 10000) reports no missing key
    and no wrong value, sees the three deleted keys as not found, and closes
    the engine; a verify-only run of the same size after the restart then
    reports no missing key and no wrong value either. *)
Theorem validation_passes_across_restart w d numKeys :
  empty_dir w d → numKeys <= 700000 →
  ∃ r w' r' w'', runStorageTest d false numKeys w = (Ok (Some r), w') ∧ report_pass r = true
    ∧ rp_checks r = [ReturnsErrNotFound; ReturnsErrNotFound; ReturnsErrNotFound]
    ∧ runStorageTest d true numKeys w' = (Ok (Some r'), w'') ∧ report_pass r' = true.
Proof.
  intros Hd Hn. destruct (write_run w d numKeys Hd Hn) as (w1 & E1 & Hw1 & Hf1 & Hl1 & Hr1).
  destruct (verify_run w1 d numKeys delete_names Hn Hw1) as (w2 & E2); try done.
  eexists _, w1, _, w2. by split_and!; [exact E1|..|exact E2|].
Qed.

Lemma validation_passes_across_restart_witness :
  ∃ r w' r' w'', runStorageTest (str "./data") false 10000 (mkWorld ∅ [] [] []) = (Ok (Some r), w')
    ∧ runStorageTest (str "./data") true 10000 w' = (Ok (Some r'), w'') ∧ report_pass r' = true.
Proof.
  destruct (validation_passes_across_restart (mkWorld ∅ [] [] []) (str "./data") 10000)
    as (r & w' & r' & w'' & E1 & _ & _ & E2 & Hp).
  - split; [reflexivity|]. split; [reflexivity|]. vm_compute. reflexivity.
  - lia.
  - exists r, w', r', w''. split; [exact E1|]. split; [exact E2|exact Hp].
Defined.

(** The validation also passes when the write run is killed: a process that
    dies after its last put, before deleting or closing anything, leaves a
    directory in which a verify-only run finds every key with its value. *)
Theorem validation_survives_kill w d numKeys e w1 :
  empty_dir w d → numKeys <= 700000 → Open d w = (Ok e, w1) →
  ∃ e2 w2 r w3, write_keys 0 (Z.to_nat numKeys) e w1 = (Ok (Some e2), w2)
    ∧ runStorageTest d true numKeys w2 = (Ok (Some r), w3) ∧ report_pass r = true.
Proof.
  intros Hd Hn Eo. destruct (empty_dir_state w d Hd) as (w1' & Eo' & T1).
  rewrite Eo in Eo'. injection Eo' as -> ->. set (n := Z.to_nat numKeys).
  destruct (write_keys_ok n d w1' _ [] [] 0 0 T1) as (e2 & w2 & es2 & Ew & T2); [lia..| |].
  { change memTableMaxSize with 67108864. lia. }
  change ([] ++ _) with (test_puts n) in T2. destruct T2 as [Hw2 Hd2 He2 _ _ _ Hr2 _ Hs2].
  destruct (verify_run w2 d numKeys [] Hn Hw2) as (w3 & E3).
  - intros k Hk. by apply not_elem_of_nil in Hk.
  - by rewrite app_nil_r.
  - rewrite app_nil_r, <- Hd2, <- (er_wal_path _ _ _ _ _ He2). apply He2.
  - intros p. rewrite Hs2. intros H. by apply not_elem_of_nil in H.
  - by eexists e2, w2, _, w3.
Qed.

Lemma validation_survives_kill_witness :
  let w := mkWorld ∅ [] [] [] in
  ∃ e w1 e2 w2 r w3, Open (str "./data") w = (Ok e, w1) ∧ write_keys 0 (Z.to_nat 10000) e w1 = (Ok (Some e2), w2)
    ∧ runStorageTest (str "./data") true 10000 w2 = (Ok (Some r), w3) ∧ report_pass r = true.
Proof.
  intros w. assert (Hd : empty_dir w (str "./data")).
  { split; [reflexivity|]. split; [reflexivity|]. vm_compute. reflexivity. }
  destruct (empty_dir_state w (str "./data") Hd) as (w1 & Eo & _).
  destruct (validation_survives_kill w (str "./data") 10000 _ w1 Hd ltac:(lia) Eo)
    as (e2 & w2 & r & w3 & E2 & E3 & Hp).
  eexists _, w1, e2, w2, r, w3. split; [exact Eo|]. split; [exact E2|]. split; [exact E3|exact Hp].
Defined.
