(* ===== verification/Flags.v ===== *)
(** The command lines of [cmd/server] and [cmd/benchmark]: the part of Go's
    [flag] package the programs use ([flag.Bool], [flag.Int], [flag.String] and
    [flag.Parse] on the arguments after the program's name), with
    [strconv.ParseBool] and [strconv.ParseInt] of base 0 behind the values, and
    the flags each program defines. *)

From S2P Require Import Prelude.

(** ** Values *)

Inductive flag_kind := KBool | KInt | KString.
Inductive flag_value := VBool (b : bool) | VInt (z : Z) | VString (s : bytes).

#[global] Instance flag_kind_eq_dec : EqDecision flag_kind.
Proof. solve_decision. Defined.
#[global] Instance flag_value_eq_dec : EqDecision flag_value.
Proof. solve_decision. Defined.

(** [strconv.ParseBool] *)
Definition ParseBool (s : bytes) : option bool :=
  if decide (s ∈ [str "1"; str "t"; str "T"; str "true"; str "TRUE"; str "True"]) then Some true
  else if decide (s ∈ [str "0"; str "f"; str "F"; str "false"; str "FALSE"; str "False"]) then Some false
  else None.

(** [lower(c)], [c | ('x' - 'X')] *)
Definition lower (c : byte) : Z := Z.lor (byte_to_Z c) 32.

(** The digit a byte stands for in [strconv.ParseUint], at most 35. *)
Definition digit_of (c : byte) : option Z :=
  if (48 <=? byte_to_Z c) && (byte_to_Z c <=? 57) then Some (byte_to_Z c - 48)
  else if (97 <=? lower c) && (lower c <=? 122) then Some (lower c - 97 + 10)
  else None.

(** The loop of [ParseUint] for base 0: underscores are skipped and noted; a
    value of 2^64 or more is out of range. *)
Fixpoint uint_loop (base acc : Z) (underscores : bool) (s : bytes) : option (Z * bool) :=
  match s with
  | [] => Some (acc, underscores)
  | c :: s =>
      if decide (c = x5f) then uint_loop base acc true s else
      d ← digit_of c;
      if base <=? d then None
      else if 2 ^ 64 <=? acc * base + d then None
      else uint_loop base (acc * base + d) underscores s
  end.

(** The base and the digits of a number that is not empty. *)
Definition split_base (s : bytes) : Z * bytes :=
  match s with
  | x30 :: c :: d :: s' =>
      if lower c =? 98 then (2, d :: s')
      else if lower c =? 111 then (8, d :: s')
      else if lower c =? 120 then (16, d :: s')
      else (8, c :: d :: s')
  | x30 :: s' => (8, s')
  | _ => (10, s)
  end.

(** [underscoreOK] after the sign: each underscore is between digits; the base
    prefix counts as a digit. [saw] is what came before. *)
Inductive saw_kind := SawStart | SawDigit | SawUnderscore | SawOther.

Fixpoint underscore_loop (hex : bool) (saw : saw_kind) (s : bytes) : bool :=
  match s with
  | [] => match saw with SawUnderscore => false | _ => true end
  | c :: s =>
      if ((48 <=? byte_to_Z c) && (byte_to_Z c <=? 57)) || (hex && (97 <=? lower c) && (lower c <=? 102))
      then underscore_loop hex SawDigit s
      else if decide (c = x5f) then
        match saw with SawDigit => underscore_loop hex SawUnderscore s | _ => false end
      else match saw with SawUnderscore => false | _ => underscore_loop hex SawOther s end
  end.

Definition underscoreOK (s : bytes) : bool :=
  match s with
  | x30 :: c :: s' =>
      if (lower c =? 98) || (lower c =? 111) || (lower c =? 120)
      then underscore_loop (lower c =? 120) SawDigit s'
      else underscore_loop false SawStart s
  | _ => underscore_loop false SawStart s
  end.

Definition ParseUint (s : bytes) : option Z :=
  if decide (s = []) then None else
  let '(base, digits) := split_base s in
  '(n, underscores) ← uint_loop base 0 false digits;
  if (underscores : bool) && negb (underscoreOK s) then None else Some n.

(** [strconv.ParseInt(s, 0, 64)], [None] for a syntax or a range error. *)
Definition ParseInt (s : bytes) : option Z :=
  let '(neg, digits) := match s with
                        | x2b :: s' => (false, s')
                        | x2d :: s' => (true, s')
                        | _ => (false, s)
                        end in
  n ← ParseUint digits;
  if (neg : bool) then (if 2 ^ 63 <? n then None else Some (- n))
  else (if 2 ^ 63 <=? n then None else Some n).

(** [flag.Value.Set] *)
Definition flag_Set (k : flag_kind) (v : bytes) : option flag_value :=
  match k with
  | KBool => VBool <$> ParseBool v
  | KInt => VInt <$> ParseInt v
  | KString => Some (VString v)
  end.

(** ** Arguments *)

(** [name[0:i]] and [name[i+1:]] at the first [=] after the first byte. *)
Fixpoint cut_eq (s : bytes) : bytes * option bytes :=
  match s with
  | [] => ([], None)
  | c :: s => if decide (c = x3d) then ([], Some s) else let '(name, v) := cut_eq s in (c :: name, v)
  end.

Inductive arg_kind :=
| NotFlag
| Terminator
| BadSyntax
| IsFlag (name : bytes) (value : option bytes).

(** The start of [parseOne]: what an argument is. *)
Definition classify_name (name : bytes) : arg_kind :=
  match name with
  | [] => BadSyntax
  | c :: name =>
      if decide (c = x2d ∨ c = x3d) then BadSyntax
      else let '(name, v) := cut_eq name in IsFlag (c :: name) v
  end.

Definition classify (s : bytes) : arg_kind :=
  match s with
  | x2d :: x2d :: [] => Terminator
  | x2d :: x2d :: name => classify_name name
  | x2d :: c :: name => classify_name (c :: name)
  | _ => NotFlag
  end.

Abbreviation flag_values := (gmap bytes flag_value).

(** [flag.Parse]: the values and the arguments left, or the status with which
    the program exits: 0 after [-help], 2 after an error. *)
Fixpoint flag_Parse (formal : gmap bytes flag_kind) (vals : flag_values) (args : list bytes)
    : Z + (flag_values * list bytes) :=
  match args with
  | [] => inr (vals, [])
  | s :: rest =>
      match classify s with
      | NotFlag => inr (vals, s :: rest)
      | Terminator => inr (vals, rest)
      | BadSyntax => inl 2
      | IsFlag name value =>
          match formal !! name with
          | None => inl (if decide (name = str "help" ∨ name = str "h") then 0 else 2)
          | Some KBool =>
              match flag_Set KBool (default (str "true") value) with
              | None => inl 2
              | Some v => flag_Parse formal (<[name := v]> vals) rest
              end
          | Some k =>
              match value, rest with
              | Some v, _ =>
                  match flag_Set k v with
                  | None => inl 2
                  | Some v => flag_Parse formal (<[name := v]> vals) rest
                  end
              | None, [] => inl 2
              | None, v :: rest =>
                  match flag_Set k v with
                  | None => inl 2
                  | Some v => flag_Parse formal (<[name := v]> vals) rest
                  end
              end
          end
      end
  end.

Definition flag_bool (vals : flag_values) (name : bytes) : bool :=
  match vals !! name with Some (VBool b) => b | _ => false end.
Definition flag_int (vals : flag_values) (name : bytes) : Z :=
  match vals !! name with Some (VInt z) => z | _ => 0 end.
Definition flag_string (vals : flag_values) (name : bytes) : bytes :=
  match vals !! name with Some (VString s) => s | _ => [] end.

(** ** The flags of the server *)

Record server_flags := mkFlags {
  sf_phase1 : bool;
  sf_verifyOnly : bool;
  sf_numKeys : Z;
  sf_nodeID : bytes;
  sf_addr : bytes;
  sf_peers : bytes;
  sf_dataDir : bytes;
}.

Definition server_formal : gmap bytes flag_kind :=
  list_to_map [(str "phase1", KBool); (str "verify-only", KBool); (str "keys", KInt);
               (str "id", KString); (str "addr", KString); (str "peers", KString); (str "data", KString)].

Definition server_defaults : flag_values :=
  list_to_map [(str "phase1", VBool false); (str "verify-only", VBool false); (str "keys", VInt 10000);
               (str "id", VString []); (str "addr", VString []); (str "peers", VString []);
               (str "data", VString (str "./data"))].

Definition server_flags_of (vals : flag_values) : server_flags :=
  mkFlags (flag_bool vals (str "phase1")) (flag_bool vals (str "verify-only")) (flag_int vals (str "keys"))
    (flag_string vals (str "id")) (flag_string vals (str "addr")) (flag_string vals (str "peers"))
    (flag_string vals (str "data")).

(** The flags of a command line; arguments that are left are not looked at. *)
Definition server_Parse (args : list bytes) : Z + server_flags :=
  match flag_Parse server_formal server_defaults args with
  | inl status => inl status
  | inr (vals, _) => inr (server_flags_of vals)
  end.

(** ** The flags of the benchmark *)

Definition bench_Parse (args : list bytes) : Z + (Z * bytes) :=
  match flag_Parse (list_to_map [(str "ops", KInt); (str "data", KString)])
          (list_to_map [(str "ops", VInt 5000); (str "data", VString (str "./data/bench"))]) args with
  | inl status => inl status
  | inr (vals, _) => inr (flag_int vals (str "ops"), flag_string vals (str "data"))
  end.

(** ** Specification *)

(** The ways to write a flag: one dash or two, the value after [=] or as the
    next argument. A boolean flag takes its value after [=] only; without one it
    is true. *)
Record style := mkStyle { st_double : bool; st_separate : bool; st_bare : bool }.

Definition dashes (st : style) : bytes := if st_double st then str "--" else str "-".

Definition flag_args (st : style) (name value : bytes) : list bytes :=
  if st_separate st then [dashes st ++ name; value] else [dashes st ++ name ++ str "=" ++ value].

Definition bool_args (st : style) (name : bytes) (b : bool) : list bytes :=
  if b && st_bare st then [dashes st ++ name]
  else [dashes st ++ name ++ str "=" ++ (if b then str "true" else str "false")].

(** One flag of the server with the value it is given. *)
Inductive setting :=
| SPhase1 (b : bool)
| SVerifyOnly (b : bool)
| SKeys (z : Z)
| SId (s : bytes)
| SAddr (s : bytes)
| SPeers (s : bytes)
| SData (s : bytes).

Definition setting_args (st : style) (x : setting) : list bytes :=
  match x with
  | SPhase1 b => bool_args st (str "phase1") b
  | SVerifyOnly b => bool_args st (str "verify-only") b
  | SKeys z => flag_args st (str "keys") (str (pretty z))
  | SId s => flag_args st (str "id") s
  | SAddr s => flag_args st (str "addr") s
  | SPeers s => flag_args st (str "peers") s
  | SData s => flag_args st (str "data") s
  end.

Definition print_settings (xs : list (style * setting)) : list bytes :=
  concat ((λ p, setting_args (fst p) (snd p)) <$> xs).

(** The flags after a setting, and before any. *)
Definition set_flag (f : server_flags) (x : setting) : server_flags :=
  let '(mkFlags p v k i a q d) := f in
  match x with
  | SPhase1 b => mkFlags b v k i a q d
  | SVerifyOnly b => mkFlags p b k i a q d
  | SKeys z => mkFlags p v z i a q d
  | SId s => mkFlags p v k s a q d
  | SAddr s => mkFlags p v k i s q d
  | SPeers s => mkFlags p v k i a s d
  | SData s => mkFlags p v k i a q s
  end.

Definition default_flags : server_flags := mkFlags false false 10000 [] [] [] (str "./data").

(** A number fits an [int]. *)
Definition setting_ok (x : setting) : Prop :=
  match x with SKeys z => - 2 ^ 63 <= z < 2 ^ 63 | _ => True end.

(** A name that can be written on a command line. *)
Definition flag_name_ok (name : bytes) : Prop :=
  match name with
  | [] => False
  | c :: name => c ≠ x2d ∧ c ≠ x3d ∧ x3d ∉ name
  end.

#[global] Instance flag_name_ok_dec name : Decision (flag_name_ok name).
Proof. destruct name; apply _. Defined.

(** * Lemmas *)

(** ** Decimal numbers *)

Definition pretty_byte (d : N) : byte := Ascii.byte_of_ascii (pretty_N_char d).

Lemma pretty_byte_spec d : (d < 10)%N →
  digit_of (pretty_byte d) = Some (Z.of_N d) ∧ pretty_byte d ≠ x5f ∧ pretty_byte d ≠ x2b ∧ pretty_byte d ≠ x2d
  ∧ (pretty_byte d = x30 → d = 0%N).
Proof.
  intros Hd.
  assert (d = 0 ∨ d = 1 ∨ d = 2 ∨ d = 3 ∨ d = 4 ∨ d = 5 ∨ d = 6 ∨ d = 7 ∨ d = 8 ∨ d = 9)%N as Hcases by lia.
  by repeat (destruct Hcases as [->|Hcases]); [..|subst d].
Qed.

(** The digits of a number, in front of the text [s]. *)
Lemma pretty_go_value x : ∀ s,
  (Z.of_N x < 2 ^ 64) → uint_loop 10 0 false (str (pretty_N_go x s)) = uint_loop 10 (Z.of_N x) false (str s).
Proof.
  induction (N.lt_wf_0 x) as [x _ IH]; intros s Hx.
  destruct (decide (x = 0%N)) as [->|Hne]; [by rewrite pretty_N_go_0|].
  rewrite pretty_N_go_step by lia. assert (Hlt : (x `mod` 10 < 10)%N) by (by apply N.mod_lt).
  pose proof (N.div_mod x 10 ltac:(done)) as Hdm.
  assert (Hle : (x `div` 10 ≤ x)%N) by (apply N.Div0.div_le_upper_bound; lia).
  rewrite IH; [|apply N.div_lt; lia|]. 2: lia.
  destruct (pretty_byte_spec _ Hlt) as (Hd & Hu & _).
  change (str (String (pretty_N_char (x `mod` 10)) s)) with (pretty_byte (x `mod` 10) :: str s).
  cbn [uint_loop]. rewrite decide_False by done. rewrite Hd. cbn [mbind option_bind].
  replace (Z.of_N (x `div` 10) * 10 + Z.of_N (x `mod` 10)) with (Z.of_N x) by lia.
  rewrite !(proj2 (Z.leb_gt _ _)) by lia. done.
Qed.

(** A positive number starts with a digit other than zero. *)
Lemma pretty_go_head x s : (0 < x)%N →
  ∃ d s', (0 < d < 10)%N ∧ pretty_N_go x s = String (pretty_N_char d) s'.
Proof.
  revert s. induction (N.lt_wf_0 x) as [x _ IH]; intros s Hx.
  rewrite pretty_N_go_step by done. destruct (decide (x `div` 10 = 0)%N) as [Hz|Hnz].
  - rewrite Hz, pretty_N_go_0. exists (x `mod` 10)%N, s. split; [|done].
    pose proof (N.div_mod x 10 ltac:(done)) as Hdm. rewrite Hz in Hdm. pose proof (N.mod_lt x 10 ltac:(done)).
    destruct (x `mod` 10)%N; [|done]. by rewrite Hdm in Hx.
  - apply IH; [apply N.div_lt; lia|by apply N.neq_0_lt_0].
Qed.

Lemma ParseUint_pretty x : (Z.of_N x < 2 ^ 64) → ParseUint (str (pretty x)) = Some (Z.of_N x).
Proof.
  intros Hx. unfold pretty, pretty_N. case_decide as Hz; [by subst|].
  destruct (pretty_go_head x "" ltac:(lia)) as (d & s' & Hd & Hs).
  pose proof (pretty_go_value x "" Hx) as Hv. rewrite Hs in *.
  change (str (String (pretty_N_char d) s')) with (pretty_byte d :: str s') in *.
  destruct (pretty_byte_spec d ltac:(lia)) as (_ & _ & _ & _ & H0).
  unfold ParseUint. rewrite decide_False by done.
  assert (Hb : split_base (pretty_byte d :: str s') = (10, pretty_byte d :: str s')).
  { unfold split_base. destruct (pretty_byte d) eqn:E; try done. specialize (H0 eq_refl). lia. }
  by rewrite Hb, Hv.
Qed.

Lemma ParseInt_pretty z : - 2 ^ 63 <= z < 2 ^ 63 → ParseInt (str (pretty z)) = Some z.
Proof.
  intros Hz. unfold ParseInt. destruct z as [|p|p]; [done| |].
  - change (str (pretty (Z.pos p))) with (str (pretty p)).
    assert (E : ∀ r, match str (pretty p) with x2b :: s' => (false, s') | x2d :: s' => (true, s')
      | _ => (false, str (pretty p)) end = r → r = (false, str (pretty p))).
    { intros r <-. unfold pretty, pretty_positive, pretty, pretty_N. rewrite decide_False by done.
      destruct (pretty_go_head (N.pos p) "" ltac:(lia)) as (d & s' & Hd & ->).
      change (str (String (pretty_N_char d) s')) with (pretty_byte d :: str s').
      destruct (pretty_byte_spec d ltac:(lia)) as (_ & _ & H1 & H2 & _). by destruct (pretty_byte d). }
    rewrite (E _ eq_refl). change (str (pretty p)) with (str (pretty (N.pos p))).
    rewrite ParseUint_pretty by lia. cbn [mbind option_bind].
    by rewrite (proj2 (Z.leb_gt _ _)) by lia.
  - change (str (pretty (Z.neg p))) with (x2d :: str (pretty (N.pos p))). cbv beta iota.
    rewrite ParseUint_pretty by lia. cbn [mbind option_bind].
    by rewrite (proj2 (Z.ltb_ge _ _)) by lia.
Qed.

(** ** Arguments *)

Lemma cut_eq_app name value : x3d ∉ name → cut_eq (name ++ x3d :: value) = (name, Some value).
Proof.
  induction name as [|c name IH]; intros Hn; cbn; [done|].
  apply not_elem_of_cons in Hn as [Hc Hn]. by rewrite decide_False, IH by done.
Qed.

Lemma cut_eq_none name : x3d ∉ name → cut_eq name = (name, None).
Proof.
  induction name as [|c name IH]; intros Hn; cbn; [done|].
  apply not_elem_of_cons in Hn as [Hc Hn]. by rewrite decide_False, IH by done.
Qed.

Lemma classify_dashes (double : bool) c name :
  c ≠ x2d → classify ((if double then str "--" else str "-") ++ c :: name) = classify_name (c :: name).
Proof. intros Hc. destruct double; [done|]. cbn. by destruct c. Qed.

(** One flag in any style: the rest is parsed with its value set. *)
Lemma Parse_flag formal vals st name value k v rest :
  flag_name_ok name → formal !! name = Some k → flag_Set k value = Some v → k ≠ KBool →
  flag_Parse formal vals (flag_args st name value ++ rest) = flag_Parse formal (<[name := v]> vals) rest.
Proof.
  destruct name as [|c name]; [done|]. intros (Hc & Hc' & Hn) Hk Hset Hb. unfold flag_args, dashes.
  destruct (st_separate st); cbn [app flag_Parse]; rewrite <- ?app_comm_cons, classify_dashes by done;
    cbn [classify_name]; (rewrite decide_False by (by intros [?|?])).
  - rewrite cut_eq_none by done. rewrite Hk. destruct k; [done|by rewrite Hset..].
  - change (str "=" ++ value) with (x3d :: value). rewrite cut_eq_app by done. rewrite Hk.
    destruct k; [done|by rewrite Hset..].
Qed.

Lemma Parse_bool formal vals st name b rest :
  flag_name_ok name → formal !! name = Some KBool →
  flag_Parse formal vals (bool_args st name b ++ rest) = flag_Parse formal (<[name := VBool b]> vals) rest.
Proof.
  destruct name as [|c name]; [done|]. intros (Hc & Hc' & Hn) Hk. unfold bool_args, dashes.
  destruct (b && st_bare st) eqn:Eb; cbn [app flag_Parse]; rewrite <- ?app_comm_cons, classify_dashes by done;
    cbn [classify_name]; (rewrite decide_False by (by intros [?|?])).
  - apply andb_true_iff in Eb as [-> _]. by rewrite cut_eq_none, Hk by done.
  - change (str "=" ++ ?v) with (x3d :: v). rewrite cut_eq_app, Hk by done. by destruct b.
Qed.

Lemma flag_Set_int z : - 2 ^ 63 <= z < 2 ^ 63 → flag_Set KInt (str (pretty z)) = Some (VInt z).
Proof. intros Hz. cbn [flag_Set]. by rewrite ParseInt_pretty. Qed.

(** An argument that is no flag ends the flags, and what follows is ignored. *)
Lemma Parse_positional formal vals s rest : classify s = NotFlag → flag_Parse formal vals (s :: rest) = inr (vals, s :: rest).
Proof. intros Hs. cbn. by rewrite Hs. Qed.

(** ** The server's flags *)

(** The name of the flag and its value in the package's map. *)
Definition setting_entry (x : setting) : bytes * flag_value :=
  match x with
  | SPhase1 b => (str "phase1", VBool b)
  | SVerifyOnly b => (str "verify-only", VBool b)
  | SKeys z => (str "keys", VInt z)
  | SId s => (str "id", VString s)
  | SAddr s => (str "addr", VString s)
  | SPeers s => (str "peers", VString s)
  | SData s => (str "data", VString s)
  end.
Definition set_value (vals : flag_values) (x : setting) : flag_values :=
  <[fst (setting_entry x) := snd (setting_entry x)]> vals.

(** Setting a value changes the one flag. *)
Lemma server_flags_insert vals x : server_flags_of (set_value vals x) = set_flag (server_flags_of vals) x.
Proof.
  unfold set_value, server_flags_of, flag_bool, flag_int, flag_string. rewrite !lookup_insert.
  destruct x; cbn [setting_entry fst snd set_flag];
    repeat match goal with |- context [decide (?a = ?b)] =>
      first [rewrite (decide_True (P := a = b)) by reflexivity
            |rewrite (decide_False (P := a = b)) by (vm_compute; discriminate)] end; reflexivity.
Qed.

Lemma Parse_setting vals st x rest :
  setting_ok x →
  flag_Parse server_formal vals (setting_args st x ++ rest) = flag_Parse server_formal (set_value vals x) rest.
Proof.
  intros Hx. unfold set_value. destruct x; cbn [setting_args setting_entry fst snd];
    try (apply Parse_bool; [by_decide|vm_compute; reflexivity]);
    (eapply Parse_flag; [by_decide|vm_compute; reflexivity|by first [reflexivity|apply flag_Set_int]|discriminate]).
Qed.

Lemma Parse_settings xs : ∀ vals rest,
  Forall (λ p, setting_ok (snd p)) xs →
  ∃ vals', server_flags_of vals' = foldl set_flag (server_flags_of vals) (snd <$> xs)
    ∧ flag_Parse server_formal vals (print_settings xs ++ rest) = flag_Parse server_formal vals' rest.
Proof.
  induction xs as [|[st x] xs IH]; intros vals rest Hxs; [by exists vals|]. apply Forall_cons in Hxs as [Hx Hxs].
  unfold print_settings in *. cbn [fmap list_fmap concat fst snd]. rewrite <- app_assoc.
  rewrite Parse_setting by done. destruct (IH (set_value vals x) rest Hxs) as (vals' & H' & ->).
  exists vals'. split; [|done]. cbn. by rewrite H', server_flags_insert.
Qed.

(** * Theorems *)

(** C32: the server's command line is read as it is meant. Write any settings of
    the seven flags, in any order, each with one dash or two and its value after
    [=] or as the next argument (a boolean flag with its value after [=], or
    bare for true), any number of times, [keys] within the range of an [int].
    [flag.Parse] then gives every flag the last value written for it and the
    default of its definition if there is none, also when arguments follow that
    are no flags. *)
Theorem server_flags_roundtrip xs rest :
  Forall (λ p, setting_ok (snd p)) xs → (∀ s, hd_error rest = Some s → classify s = NotFlag) →
  server_Parse (print_settings xs ++ rest) = inr (foldl set_flag default_flags (snd <$> xs)).
Proof.
  intros Hxs Hrest. unfold server_Parse.
  destruct (Parse_settings xs server_defaults rest Hxs) as (vals & Hvals & ->).
  change default_flags with (server_flags_of server_defaults). rewrite <- Hvals.
  destruct rest as [|s rest]; [done|]. by rewrite Parse_positional by (by apply Hrest).
Qed.

Lemma server_flags_roundtrip_witness :
  server_Parse [str "-keys=7"; str "--phase1"; str "--verify-only=false"; str "-keys"; str "-5"; str "-id=n1";
    str "--peers"; str "n2=a:2"; str "serve"; str "-keys=1"]
    = inr (mkFlags true false (-5) (str "n1") [] (str "n2=a:2") (str "./data")).
Proof.
  apply (server_flags_roundtrip
    [(mkStyle false false true, SKeys 7); (mkStyle true false true, SPhase1 true); (mkStyle true false true, SVerifyOnly false);
     (mkStyle false true true, SKeys (-5)); (mkStyle false false true, SId (str "n1"));
     (mkStyle true true true, SPeers (str "n2=a:2"))] [str "serve"; str "-keys=1"]).
  - repeat apply List.Forall_cons; try apply List.Forall_nil; cbn; (exact I || lia).
  - intros s [= <-]. reflexivity.
Defined.
