(* ===== verification/Bench.v ===== *)
(** [cmd/benchmark]: the program writes and reads back numbered keys and prints
    percentiles of the latencies. The throughput figures it also prints are not
    modelled. *)

From S2P Require Import Prelude StorageTypes SkipList MemTable Crc32 Os Wal Recovery SSTable Compaction Engine Lifecycle Validation Flags.

(** ** Files and numbers *)

(** The path is the directory or lies below it. *)
Definition under (dir path : bytes) : bool :=
  bool_decide (path = dir) || bool_decide (take (length (dir ++ str "/")) path = dir ++ str "/").

(** [os.RemoveAll]; when it fails it has removed nothing. *)
Definition os_RemoveAll (dir : bytes) : IO unit := λ w,
  match draw w with
  | (Ok (Some _), w) => (Err (os_fail "removeall"), w)
  | (_, w) => (Ok tt, set_files (filter (λ f, under dir (fst f) = false) (w_files w)) w)
  end.

(** [fmt.Sprintf("%06d", i)] of a loop index. *)
Definition Sprintf_06d (i : nat) : bytes :=
  let d := str (pretty (N.of_nat i)) in replicate (6 - length d) x30 ++ d.

Definition bench_key (i : nat) : bytes := str "bench_key_" ++ Sprintf_06d i.
Definition bench_val (i : nat) : bytes := str "bench_val_" ++ Sprintf_06d i.

(** The [float64] nearest to a natural number, ties to even: 53 bits are kept. *)
Definition round53 (z : Z) : Z :=
  let k := Z.log2 z - 52 in
  if k <=? 0 then z else
  let q := Z.shiftr z k in
  let r := z - Z.shiftl q k in
  if (2 ^ (k - 1) <? r) || ((r =? 2 ^ (k - 1)) && Z.odd q) then Z.shiftl (q + 1) k else Z.shiftl q k.

(** The constants 0.50, 0.95 and 0.99 as [float64], times 2^53. *)
Definition q50 : Z := 4503599627370496.
Definition q95 : Z := 8556839292003942.
Definition q99 : Z := 8917127262193582.

(** [int(float64(n) * q)] for [n >= 0]. *)
Definition percentile_index (n q : Z) : Z := Z.shiftr (round53 (round53 n * q)) 53.

(** ** The program *)

(** The write loop: the engine and the latencies; a failed put is logged. *)
Fixpoint bench_writes (i n : nat) (e : Engine) : IO (Engine * list Z) :=
  match n with
  | O => mret (e, [])
  | S n =>
      opStart ← time_Now;
      '(e, _) ← Engine.Put e (bench_key i) (Some (bench_val i));
      now ← time_Now;
      '(e, lats) ← bench_writes (S i) n e;
      mret (e, now - opStart :: lats)
  end.

(** The read loop; what [Get] returns is not looked at. *)
Fixpoint bench_reads (i n : nat) (e : Engine) : IO (list Z) :=
  match n with
  | O => mret []
  | S n =>
      opStart ← time_Now;
      _ ← io_try (Engine.Get e (bench_key i));
      now ← time_Now;
      lats ← bench_reads (S i) n e;
      mret (now - opStart :: lats)
  end.

(** Latencies are numbers, so a sort that is not stable gives the same list. *)
Definition sortLatencies (lats : list Z) : list Z := stable_sort Z.ltb lats.

(** The three figures of a phase, [None] when an index is out of range. *)
Definition percentiles (n : Z) (lats : list Z) : option (Z * Z * Z) :=
  let sorted := sortLatencies lats in
  p50 ← sorted !! Z.to_nat (percentile_index n q50);
  p95 ← sorted !! Z.to_nat (percentile_index n q95);
  p99 ← sorted !! Z.to_nat (percentile_index n q99);
  Some (p50, p95, p99).

Record bench_report := mkBench {
  br_writeTime : Z;
  br_write : Z * Z * Z;
  br_readTime : Z;
  br_read : Z * Z * Z;
}.

(** The body after the engine is open: the engine at its end and the report,
    [None] where the program panics: on a slice of negative length or an index
    out of range. *)
Definition bench_body (numOps : Z) (e : Engine) : IO (Engine * option bench_report) :=
  if numOps <? 0 then mret (e, None) else
  let n := Z.to_nat numOps in
  startWrite ← time_Now;
  '(e, wl) ← bench_writes 0 n e;
  endWrite ← time_Now;
  match percentiles numOps wl with
  | None => mret (e, None)
  | Some pw =>
      startRead ← time_Now;
      rl ← bench_reads 0 n e;
      endRead ← time_Now;
      mret (e, (λ pr, mkBench (endWrite - startWrite) pw (endRead - startRead) pr) <$> percentiles numOps rl)
  end.

(** [None] is [os.Exit(1)]; the engine is closed also when the body panics. *)
Definition benchmark (dataDir : bytes) (numOps : Z) : IO (option bench_report) :=
  _ ← io_try (os_RemoveAll dataDir);
  r ← io_try (Open dataDir);
  match r with
  | inl _ => mret None
  | inr e =>
      '(e, rep) ← bench_body numOps e;
      _ ← io_try (Close e);
      match rep with
      | None => io_lift Panic
      | Some rep => mret (Some rep)
      end
  end.

(** [main]: the exit status or the report; [None] is an exit with status 1. *)
Definition bench_main (args : list bytes) : IO (Z + option bench_report) :=
  match bench_Parse args with
  | inl status => mret (inl status)
  | inr (numOps, dataDir) => rep ← benchmark dataDir numOps; mret (inr rep)
  end.

(** ** Specification *)

Definition bench_puts (n : nat) : list WALRecord := (λ i, put_record (bench_key i) (bench_val i)) <$> seq 0 n.

(** The percentiles of a phase are measured latencies, in order. *)
Definition ordered_percentiles (p : Z * Z * Z) : Prop := p.1.1 <= p.1.2 <= p.2.

(** * Lemmas *)

(** ** Rounding *)

Lemma round53_error z : 0 <= z → z * (2 ^ 53 - 1) <= round53 z * 2 ^ 53 <= z * (2 ^ 53 + 1).
Proof.
  intros Hz. unfold round53. set (k := Z.log2 z - 52).
  destruct (Z.leb_spec k 0) as [Hk|Hk]; [lia|].
  assert (0 < z) by (destruct (Z.eq_dec z 0) as [->|]; [unfold k in Hk; cbn in Hk; lia|lia]).
  destruct (Z.log2_spec z) as [Hlog _]; [done|].
  rewrite Z.shiftr_div_pow2, !Z.shiftl_mul_pow2 by lia. set (q := z / 2 ^ k).
  assert (Hp : 2 ^ k = 2 * 2 ^ (k - 1)) by (rewrite <- Z.pow_succ_r by lia; f_equal; lia).
  assert (Hh : 0 < 2 ^ (k - 1)) by (apply Z.pow_pos_nonneg; lia).
  assert (Hlow : 2 ^ (k - 1) * 2 ^ 53 <= z).
  { rewrite <- Z.pow_add_r by lia. replace (k - 1 + 53) with (Z.log2 z) by (unfold k; lia). done. }
  pose proof (Z.div_mod z (2 ^ k) ltac:(lia)) as Hdm. pose proof (Z.mod_pos_bound z (2 ^ k) ltac:(lia)) as Hm.
  fold q in Hdm. set (h := 2 ^ (k - 1)) in *. set (r := z mod 2 ^ k) in *.
  replace (z - q * 2 ^ k) with r by lia. replace ((q + 1) * 2 ^ k) with (z - r + 2 * h) by lia.
  replace (q * 2 ^ k) with (z - r) by lia. rewrite Hp in Hm. clearbody r h q. clear Hlog Hp Hdm Hk.
  destruct (Z.ltb_spec h r); cbn [orb]; [lia|].
  destruct (Z.eqb_spec r h); cbn [andb]; [destruct (Z.odd _)|]; lia.
Qed.

Lemma round53_small z : 0 <= z < 2 ^ 53 → round53 z = z.
Proof.
  intros Hz. unfold round53. destruct (Z.leb_spec (Z.log2 z - 52) 0) as [|Hk]; [done|].
  destruct (Z.log2_spec z) as [Hl _]; [destruct (Z.eq_dec z 0) as [->|]; [cbn in Hk; lia|lia]|].
  assert (2 ^ 53 <= 2 ^ Z.log2 z) by (apply Z.pow_le_mono_r; lia). lia.
Qed.

(** The indices of the percentiles are in range and in order. *)
Lemma percentile_bounds n : 1 <= n < 2 ^ 53 →
  0 <= percentile_index n q50 ∧ percentile_index n q50 <= percentile_index n q95
  ∧ percentile_index n q95 <= percentile_index n q99 ∧ percentile_index n q99 < n.
Proof.
  intros Hn. unfold percentile_index. rewrite (round53_small n) by lia.
  pose proof (round53_error (n * q50) ltac:(unfold q50; lia)) as H50.
  pose proof (round53_error (n * q95) ltac:(unfold q95; lia)) as H95.
  pose proof (round53_error (n * q99) ltac:(unfold q99; lia)) as H99.
  rewrite !Z.shiftr_div_pow2 by lia.
  generalize dependent (round53 (n * q50)). generalize dependent (round53 (n * q95)).
  generalize dependent (round53 (n * q99)). intros r99 H99 r95 H95 r50 H50. unfold q50, q95, q99 in *.
  change (2 ^ 53) with 9007199254740992 in *.
  split_and!; [apply Z.div_pos; lia|apply Z.div_le_mono; lia|apply Z.div_le_mono; lia|].
  apply Z.div_lt_upper_bound; lia.
Qed.

(** ** The engine *)

Lemma time_Now_rep w :
  ∃ t w', time_Now w = (Ok t, w') ∧ w_files w' = w_files w ∧ (no_faults w → no_faults w').
Proof. rewrite time_Now_ok. by eexists _, _. Qed.

Lemma Sprintf_06d_length i : Z.of_nat i < 10 ^ 6 → (length (Sprintf_06d i) ≤ 6)%nat.
Proof.
  intros Hi. unfold Sprintf_06d. rewrite length_app, length_replicate, length_str.
  assert (String.length (pretty (N.of_nat i)) ≤ 6)%nat; [|lia].
  unfold pretty, pretty_N. case_decide; [cbn; lia|].
  etrans; [apply (pretty_go_length 6)|done]. change (10 ^ N.of_nat 6)%N with 1000000%N. lia.
Qed.

Lemma bench_lengths i : Z.of_nat i < 10 ^ 6 → bench_key i ≠ [] ∧ len (bench_key i) <= 16 ∧ len (bench_val i) <= 16.
Proof.
  intros Hi. pose proof (Sprintf_06d_length i Hi). unfold bench_key, bench_val, len. rewrite !length_app.
  split; [done|]. cbn. lia.
Qed.

Lemma bench_puts_S n : bench_puts (S n) = bench_puts n ++ [put_record (bench_key n) (bench_val n)].
Proof. unfold bench_puts. by rewrite seq_S, fmap_app. Qed.

Lemma bench_puts_lookup n j : (j < n)%nat → history_map (bench_puts n) !! bench_key j = Some (bench_val j).
Proof.
  induction n as [|n IH]; intros Hj; [lia|]. rewrite bench_puts_S, history_map_snoc.
  change (apply_record ?m (put_record ?k ?v)) with (<[k := v]> m). rewrite lookup_insert.
  case_decide as D; [by apply app_inv_head in D; unfold bench_val; rewrite D|]. apply IH.
  destruct (decide (j = n)) as [->|]; [done|lia].
Qed.

(** The entries of the run. *)
Definition bench_entry (x : MemTableEntry) : Prop :=
  ∃ n, len n <= 6 ∧ e_Key x = str "bench_key_" ++ n ∧ len (slice_bytes (e_Value x)) <= 16.

Abbreviation bench_state := (run_state bench_entry 96).

(** The state depends on the files only. *)
Lemma bench_state_files d w w' e rs es k :
  no_faults w' → w_files w' = w_files w → bench_state d w e rs es k → bench_state d w' e rs es k.
Proof. intros Hw Hf [? ? ? ? ? ? ? ? ?]. split; try done; [by eapply engine_rep_files|by rewrite Hf]. Qed.

(** One write of the loop. *)
Lemma bench_put d w e rs es k i :
  bench_state d w e rs es k → 0 <= k → Z.of_nat i < 10 ^ 6 → 96 * (k + 1) < memTableMaxSize →
  ∃ e' w' es', Engine.Put e (bench_key i) (Some (bench_val i)) w = (Ok (e', None), w')
    ∧ bench_state d w' e' (rs ++ [put_record (bench_key i) (bench_val i)]) es' (k + 1).
Proof.
  intros T Hk Hi Hb. destruct (bench_lengths i Hi) as (Hne & Hkl & Hvl). pose proof (rs_rep _ _ _ _ _ _ _ _ T) as Hrep.
  assert (Hes : entry_size (write_entry (WPut (bench_key i) (Some (bench_val i)))) + 64 <= 96)
    by (change (len (bench_key i) + len (bench_val i) + 64 <= 96); lia).
  destruct (run_write bench_entry 96 d w e rs es k (put_record (bench_key i) (bench_val i))
    (WPut (bench_key i) (Some (bench_val i))) T Hk) as (m' & w' & E & T'); try done.
  - apply put_entry_ok; lia.
  - split; [split; [cbn [put_record r_Key]; lia|change (len (bench_val i) < 2 ^ 32); lia]|right]. split; [done|].
    cbn. by unfold bench_val.
  - exists (Sprintf_06d i). pose proof (Sprintf_06d_length i Hi). split; [unfold len; lia|done].
  - cbn [put_record r_Key]. lia.
  - eexists _, w', _. split; [|exact T']. erewrite Put_write; [exact E|apply T|done|lia|apply Hrep].
Qed.

Lemma bench_writes_ok n : ∀ i d w e rs es k,
  bench_state d w e rs es k → 0 <= k → Z.of_nat (i + n) <= 10 ^ 6 → 96 * (k + Z.of_nat n) < memTableMaxSize →
  ∃ e' w' es' lats, bench_writes i n e w = (Ok (e', lats), w')
    ∧ bench_state d w' e' (rs ++ ((λ i, put_record (bench_key i) (bench_val i)) <$> seq i n)) es' (k + Z.of_nat n)
    ∧ length lats = n.
Proof.
  induction n as [|n IH]; intros i d w e rs es k T Hk Hi Hb.
  { eexists e, w, es, []. split; [done|]. cbn. by rewrite app_nil_r, Z.add_0_r. }
  destruct (time_Now_rep w) as (t1 & w1 & E1 & Hf1 & Hw1). specialize (Hw1 (rs_faults _ _ _ _ _ _ _ _ T)).
  destruct (bench_put d w1 e rs es k i (bench_state_files _ _ _ _ _ _ _ Hw1 Hf1 T) Hk ltac:(lia) ltac:(lia))
    as (e2 & w2 & es2 & E2 & T2).
  destruct (time_Now_rep w2) as (t3 & w3 & E3 & Hf3 & Hw3). specialize (Hw3 (rs_faults _ _ _ _ _ _ _ _ T2)).
  destruct (IH (S i) d w3 e2 _ es2 (k + 1) (bench_state_files _ _ _ _ _ _ _ Hw3 Hf3 T2))
    as (e' & w' & es' & lats & E4 & T' & Hl); [lia..|].
  exists e', w', es', (t3 - t1 :: lats). cbn [bench_writes]. unfold mbind, io_bind. rewrite E1, E2, E3, E4.
  rewrite <- app_assoc in T'. split; [done|].
  replace (k + Z.of_nat (S n)) with (k + 1 + Z.of_nat n) by lia. split; [exact T'|]. cbn. by rewrite Hl.
Qed.

Lemma bench_reads_ok n : ∀ i w e rs es,
  no_faults w → engine_rep w e rs es [] → Z.of_nat (i + n) <= 10 ^ 6 →
  ∃ w' lats, bench_reads i n e w = (Ok lats, w') ∧ no_faults w' ∧ w_files w' = w_files w ∧ length lats = n.
Proof.
  induction n as [|n IH]; intros i w e rs es Hw He Hi; [by eexists w, []|].
  destruct (time_Now_rep w) as (t1 & w1 & E1 & Hf1 & Hw1). specialize (Hw1 Hw).
  pose proof (engine_rep_files w w1 _ _ _ _ Hf1 He) as He1.
  pose proof (Get_rep w1 e rs es [] (bench_key i) Hw1 He1 ltac:(by apply bench_lengths; lia)) as E2.
  destruct (time_Now_rep w1) as (t3 & w3 & E3 & Hf3 & Hw3). specialize (Hw3 Hw1).
  destruct (IH (S i) w3 e rs es Hw3 (engine_rep_files w1 w3 _ _ _ _ Hf3 He1) ltac:(lia))
    as (w' & lats & E4 & Hw' & Hf' & Hl).
  exists w', (t3 - t1 :: lats). cbn [bench_reads]. unfold mbind, io_bind, io_try. rewrite E1, E2.
  destruct (history_map rs !! bench_key i); cbn [get_answer]; rewrite E3, E4;
    (split; [done|split; [done|split; [congruence|cbn; by rewrite Hl]]]).
Qed.

(** ** Percentiles *)

Lemma sortLatencies_ok lats :
  StronglySorted Z.le (sortLatencies lats) ∧ sortLatencies lats ≡ₚ lats.
Proof.
  split; [|apply stable_sort_perm]. unfold sortLatencies.
  assert (H : StronglySorted (λ x y, Z.ltb y x = false) (stable_sort Z.ltb lats)).
  { apply stable_sort_sorted; intros; lia. }
  induction H as [|x l _ IH Hf]; constructor; [done|]. eapply Forall_impl; [exact Hf|]. cbn. intros. lia.
Qed.

Lemma sorted_lookup_le (l : list Z) i j a b :
  StronglySorted Z.le l → (i ≤ j)%nat → l !! i = Some a → l !! j = Some b → a <= b.
Proof.
  intros Hs. revert i j. induction Hs as [|x l _ IH Hf]; intros i j Hij Ha Hb; [done|].
  destruct i as [|i], j as [|j]; cbn in Ha, Hb; try lia; [simplify_eq; lia| |by apply (IH i j); [lia|..]].
  injection Ha as ->. rewrite Forall_forall in Hf. apply Hf. by eapply list_elem_of_lookup_2.
Qed.

Lemma percentiles_ok n lats :
  1 <= n < 2 ^ 53 → len lats = n →
  ∃ p, percentiles n lats = Some p ∧ ordered_percentiles p ∧ p.1.1 ∈ lats ∧ p.1.2 ∈ lats ∧ p.2 ∈ lats.
Proof.
  intros Hn Hl. destruct (percentile_bounds n Hn) as (H0 & H1 & H2 & H3).
  destruct (sortLatencies_ok lats) as [Hs Hp]. pose proof (Permutation_length Hp) as Hlen.
  unfold percentiles. set (l := sortLatencies lats) in *. unfold len in Hl.
  destruct (lookup_lt_is_Some_2 l (Z.to_nat (percentile_index n q50))) as [a Ha]; [lia|].
  destruct (lookup_lt_is_Some_2 l (Z.to_nat (percentile_index n q95))) as [b Hb]; [lia|].
  destruct (lookup_lt_is_Some_2 l (Z.to_nat (percentile_index n q99))) as [c Hc]; [lia|].
  rewrite Ha, Hb, Hc. exists (a, b, c). split; [done|]. split.
  - split; [eapply (sorted_lookup_le l); [exact Hs| |exact Ha|exact Hb]|eapply (sorted_lookup_le l); [exact Hs| |exact Hb|exact Hc]]; lia.
  - rewrite <- Hp. split_and!; by eapply list_elem_of_lookup_2.
Qed.

(** ** The directory *)

Lemma under_join dir name : under dir (path_Join dir name) = true.
Proof.
  unfold under, path_Join. rewrite app_assoc, take_app_length.
  rewrite (bool_decide_eq_true_2 (_ = _ ++ _)) by done. by rewrite orb_true_r.
Qed.

Lemma RemoveAll_empty w dir :
  no_faults w → ∃ w1, os_RemoveAll dir w = (Ok tt, w1) ∧ empty_dir w1 dir.
Proof.
  intros Hw. unfold os_RemoveAll. rewrite draw_ok by done. eexists. split; [done|].
  assert (Hgone : ∀ p, under dir p = true → filter (λ f : bytes * bytes, under dir (fst f) = false) (w_files w) !! p = None).
  { intros p Hp. apply map_lookup_filter_None. right. intros x _ Hf. cbn in Hf. congruence. }
  split; [done|]. split; [apply Hgone, under_join|]. cbn [w_files set_files].
  destruct (sst_paths _ dir) as [|p l] eqn:E; [done|]. exfalso.
  assert (Hp : p ∈ sst_paths (filter (λ f : bytes * bytes, under dir (fst f) = false) (w_files w)) dir) by (rewrite E; left).
  apply sst_paths_elem in Hp as [Hd (name & Hname & _)]. apply elem_of_dom in Hd as [x Hx].
  rewrite Hgone in Hx; [done|]. unfold name_in_dir in Hname. case_decide as D; [|done].
  unfold under. rewrite (bool_decide_eq_true_2 _ D). apply orb_true_r.
Qed.

(** The program starts with an empty engine. *)
Lemma bench_start w d :
  no_faults w → ∃ w1 w2, os_RemoveAll d w = (Ok tt, w1) ∧ Open d w1 = (Ok (fresh_engine d), w2)
    ∧ bench_state d w2 (fresh_engine d) [] [] 0.
Proof.
  intros Hw. destruct (RemoveAll_empty w d Hw) as (w1 & E1 & Hd).
  destruct (empty_dir_state w1 d Hd) as (w2 & E2 & [? ? ? _ ? ? ? ? ?]). exists w1, w2. split; [done|]. by split.
Qed.

Lemma bench_close_ready d w e rs es k : bench_state d w e rs es k → k <= 690000 → close_ready rs es.
Proof.
  intros T Hk. eapply (run_close_ready bench_entry 96 d w e rs es k 16 32 x63); [exact T| |change (byte_to_Z x63) with 99; lia|lia].
  intros x (n & Hn & Hkey & Hv). unfold entry_size. rewrite Hkey, len_app. unfold len at 1 3. cbn [length str list_byte_of_string].
  split; [cbn; lia|]. split; [cbn; lia|]. by eexists _, _, _, (str "h_key_" ++ n).
Qed.

(** The writes of the program, then the close. *)
Lemma bench_closes d w e n es k :
  bench_state d w e (bench_puts n) es k → k <= 690000 →
  ∃ w', Close e w = (Ok tt, w') ∧ no_faults w'
    ∧ w_files w' !! wal_file d = Some (encode_records (bench_puts n)) ∧ tables_logged (w_files w') (bench_puts n) d.
Proof.
  intros T Hk. pose proof T as [Hw Hd He _ _ _ _ _ Ht].
  destruct (Close_ok w e _ es [] Hw He (bench_close_ready _ _ _ _ _ _ T Hk)) as (w' & Ec & Hw' & Hf & Hl & _).
  { intros p. rewrite Hd, Ht. intros H. by apply not_elem_of_nil in H. }
  rewrite Hd in Hf, Hl. by exists w'.
Qed.

(** With no operations to do there is no latency to report: the program panics. *)
Lemma benchmark_no_ops_panics d numOps w : no_faults w → numOps <= 0 → fst (benchmark d numOps w) = Panic.
Proof.
  intros Hw Hn. destruct (bench_start w d Hw) as (w1 & w2 & E1 & E2 & [Hw2 _ He2 _ _ _ _ _ _]).
  unfold benchmark, bench_body, mbind, io_bind, io_try. rewrite E1, E2.
  destruct (Z.ltb_spec numOps 0) as [Hlt|Hge].
  - destruct (Close_run w2 _ _ _ _ Hw2 He2) as (w3 & E3 & _). cbn [mret io_ret]. by rewrite E3.
  - replace numOps with 0 by lia. destruct (time_Now_rep w2) as (t3 & w3 & E3 & Hf3 & Hw3). specialize (Hw3 Hw2).
    destruct (time_Now_rep w3) as (t4 & w4 & E4 & Hf4 & Hw4). specialize (Hw4 Hw3). rewrite E3.
    change (Z.to_nat 0) with 0%nat. cbn [bench_writes mret io_ret]. rewrite E4.
    change (percentiles 0 []) with (@None (Z * Z * Z)). cbn [mret io_ret].
    destruct (Close_run w4 _ _ _ _ Hw4 (engine_rep_files w2 w4 _ _ _ _ ltac:(congruence) He2)) as (w5 & E5 & _).
    by rewrite E5.
Qed.

(** * Theorems *)

(** C33: the benchmark ends and its writes are on disk: for 1 to 690000
    operations (the bound keeps the MemTable below its flush threshold) and
    without I/O failures, whatever was in the directory before, no index of the
    latencies is out of range, although they are computed in floating point, and
    the reported percentiles of both phases are in order. The log the run leaves
    behind holds exactly the puts of all keys, in order, and the directory opens
    to an engine that answers every key with its value. *)
Theorem benchmark_completes d numOps w :
  no_faults w → 1 <= numOps <= 690000 →
  ∃ rep w', benchmark d numOps w = (Ok (Some rep), w')
    ∧ ordered_percentiles (br_write rep) ∧ ordered_percentiles (br_read rep)
    ∧ w_files w' !! wal_file d = Some (encode_records (bench_puts (Z.to_nat numOps)))
    ∧ ∃ e w'', Open d w' = (Ok e, w'') ∧ ∀ j, Z.of_nat j < numOps → Get e (bench_key j) w'' = (Ok (bench_val j), w'').
Proof.
  intros Hw Hn. destruct (bench_start w d Hw) as (w1 & w2 & E1 & E2 & T2).
  destruct (time_Now_rep w2) as (t3 & w3 & E3 & Hf3 & Hw3). specialize (Hw3 (rs_faults _ _ _ _ _ _ _ _ T2)).
  destruct (bench_writes_ok (Z.to_nat numOps) 0 d w3 _ [] [] 0 (bench_state_files _ _ _ _ _ _ _ Hw3 Hf3 T2))
    as (e4 & w4 & es4 & wl & E4 & T4 & Hl4); [done|lia|change memTableMaxSize with 67108864; lia|].
  change ([] ++ _) with (bench_puts (Z.to_nat numOps)) in T4. pose proof T4 as [Hw4 _ _ _ _ _ Hrs _ _].
  destruct (percentiles_ok numOps wl) as (pw & Epw & Hpw & _); [lia|unfold len; lia|].
  destruct (time_Now_rep w4) as (t5 & w5 & E5 & Hf5 & Hw5). specialize (Hw5 Hw4).
  destruct (time_Now_rep w5) as (t6 & w6 & E6 & Hf6 & Hw6). specialize (Hw6 Hw5).
  assert (T6 : bench_state d w6 e4 (bench_puts (Z.to_nat numOps)) es4 (0 + Z.of_nat (Z.to_nat numOps))).
  { eapply bench_state_files; [done| |exact T4]. congruence. }
  destruct (bench_reads_ok (Z.to_nat numOps) 0 w6 e4 _ es4 Hw6 (rs_rep _ _ _ _ _ _ _ _ T6))
    as (w7 & rl & E7 & Hw7 & Hf7 & Hl7); [lia|].
  destruct (percentiles_ok numOps rl) as (pr & Epr & Hpr & _); [lia|unfold len; lia|].
  destruct (time_Now_rep w7) as (t8 & w8 & E8 & Hf8 & Hw8). specialize (Hw8 Hw7).
  assert (T8 : bench_state d w8 e4 (bench_puts (Z.to_nat numOps)) es4 (0 + Z.of_nat (Z.to_nat numOps))).
  { eapply bench_state_files; [done| |exact T6]. congruence. }
  destruct (bench_closes d w8 e4 _ es4 _ T8 ltac:(lia)) as (w9 & E9 & Hw9 & Hlog & Htab).
  exists (mkBench (t5 - t3) pw (t8 - t6) pr), w9. split; [|split; [done|split; [done|split; [exact Hlog|]]]].
  - unfold benchmark, bench_body, mbind, io_bind, io_try. rewrite E1, E2, (proj2 (Z.ltb_ge numOps 0)) by lia.
    rewrite E3, E4, E5, Epw, E6, E7, E8, Epr. cbn [mret io_ret fmap option_fmap option_map]. by rewrite E9.
  - destruct (Open_logged w9 d _ Hw9 Hlog Hrs Htab) as (e & w'' & es & ts & Eo & Hwo & He & _).
    exists e, w''. split; [done|]. intros j Hj.
    rewrite (Get_rep w'' e _ es ts (bench_key j) Hwo He) by (apply bench_lengths; lia). by rewrite bench_puts_lookup by lia.
Qed.

Lemma benchmark_completes_witness :
  ∃ rep w' e w'', benchmark (str "d") 20 (mkWorld {[str "d/wal.log" := str "junk"]} [] [] []) = (Ok (Some rep), w')
    ∧ ordered_percentiles (br_write rep) ∧ Open (str "d") w' = (Ok e, w'')
    ∧ Get e (str "bench_key_000019") w'' = (Ok (str "bench_val_000019"), w'').
Proof.
  destruct (benchmark_completes (str "d") 20 (mkWorld {[str "d/wal.log" := str "junk"]} [] [] []))
    as (rep & w' & E & Hp & _ & _ & e & w'' & Eo & Hget).
  - reflexivity.
  - lia.
  - exists rep, w', e, w''. split; [exact E|]. split; [exact Hp|]. split; [exact Eo|]. exact (Hget 19%nat ltac:(lia)).
Defined.
