(* ===== verification/Store.v ===== *)
(** What the storage engine promises to its clients, the state machine of
    [internal/raft] and the gRPC server of [internal/rpc]: the three operations
    they call as a class, the laws of a key-value store as a class over it, and
    the engine of [Engine.v] as an instance of both. *)

From S2P Require Import Prelude StorageTypes SkipList MemTable Crc32 Os Wal Recovery SSTable Compaction Engine.

(** ** The interface *)

Class KVStore (E : Type) := {
  kv_Put : E → bytes → slice → IO (E * option error);
  kv_Delete : E → bytes → IO (E * option error);
  kv_Get : E → bytes → IO bytes;
  kv_Reopen : E → IO E;   (* open the store again after a crash *)
}.

(** [kv_rep w e m]: in world [w] the store [e] holds the map [m].
    [kv_ready w e wr]: the store takes the write [wr] without its limits being
    reached. [kv_durable w e m]: what is on disk suffices to bring [m] back. The
    laws: a ready write changes the map and reports no error, a write of an
    empty key changes nothing and reports an error, a read answers from the map
    and changes nothing, opening a durable store again gives the same map. *)
Class KVStoreLaws (E : Type) `{KVStore E} := {
  kv_rep : world → E → gmap bytes bytes → Prop;
  kv_ready : world → E → write → Prop;
  kv_durable : world → E → gmap bytes bytes → Prop;
  kv_put_ok w e m key v :
    kv_rep w e m → key ≠ [] → len key <= 65535 → len v < 2 ^ 32 →
    kv_ready w e (WPut key (Some v)) →
    ∃ e' w', kv_Put e key (Some v) w = (Ok (e', None), w') ∧ kv_rep w' e' (<[key := v]> m);
  kv_delete_ok w e m key :
    kv_rep w e m → key ≠ [] → len key <= 65535 → kv_ready w e (WDelete key) →
    ∃ e' w', kv_Delete e key w = (Ok (e', None), w') ∧ kv_rep w' e' (delete key m);
  kv_put_empty w e value : ∃ err, kv_Put e [] value w = (Ok (e, Some err), w);
  kv_delete_empty w e : ∃ err, kv_Delete e [] w = (Ok (e, Some err), w);
  kv_get_ok w e m key :
    kv_rep w e m → key ≠ [] → kv_Get e key w = (get_answer (m !! key), w);
  kv_reopen_ok w e m :
    kv_rep w e m → kv_durable w e m →
    ∃ e' w', kv_Reopen e w = (Ok e', w') ∧ kv_rep w' e' m;
}.

(** ** The engine as a store *)

#[global] Instance engine_store : KVStore Engine.Engine := {
  kv_Put := Engine.Put;
  kv_Delete := Engine.Delete;
  kv_Get := Engine.Get;
  kv_Reopen := λ e, Engine.Open (en_dataDir e);
}.

Definition engine_kv_rep (w : world) (e : Engine.Engine) (m : gmap bytes bytes) : Prop :=
  no_faults w ∧ ∃ rs es tables, engine_rep w e rs es tables ∧ history_map rs = m.

(** The MemTable has room for the write, or its flush is ready. *)
Definition engine_kv_ready (w : world) (e : Engine.Engine) (wr : write) : Prop :=
  ∀ es, Entries (en_mem e) = Some es → write_ready w e es wr.

(** Every logged write can be replayed, and the table files hold only keys that
    the log has. *)
Definition engine_kv_durable (w : world) (e : Engine.Engine) (m : gmap bytes bytes) : Prop :=
  ∃ rs files, w_files w !! wal_file (en_dataDir e) = Some (encode_records rs) ∧ history_map rs = m
    ∧ Forall replayable rs
    ∧ Forall2 (logged_table (w_files w) rs) (rev (sst_paths (w_files w) (en_dataDir e))) files.

#[global] Program Instance engine_laws : KVStoreLaws Engine.Engine := {
  kv_rep := engine_kv_rep;
  kv_ready := engine_kv_ready;
  kv_durable := engine_kv_durable;
}.
Next Obligation.
  intros w e m key v (Hw & rs & es & ts & He & Hm) Hne Hk Hv Hr.
  pose proof He as [_ _ [n Hmem] _ _ _ _].
  destruct (Put_rep w e rs es ts key v Hw He Hne Hk Hv (Hr _ (mem_rep_entries _ _ _ Hmem)))
    as (e' & w' & es' & ts' & E & Hw' & He' & Hh).
  exists e', w'. split; [exact E|]. split; [done|]. eexists _, es', ts'. split; [done|]. by rewrite Hh, Hm.
Qed.
Next Obligation.
  intros w e m key (Hw & rs & es & ts & He & Hm) Hne Hk Hr.
  pose proof He as [_ _ [n Hmem] _ _ _ _].
  destruct (Delete_rep w e rs es ts key Hw He Hne Hk (Hr _ (mem_rep_entries _ _ _ Hmem)))
    as (e' & w' & es' & ts' & E & Hw' & He' & Hh).
  exists e', w'. split; [exact E|]. split; [done|]. eexists _, es', ts'. split; [done|]. by rewrite Hh, Hm.
Qed.
Next Obligation. intros. by eexists. Qed.
Next Obligation. intros. by eexists. Qed.
Next Obligation.
  intros w e m key (Hw & rs & es & ts & He & <-) Hne. by apply (Get_rep w e rs es ts).
Qed.

Next Obligation.
  intros w e m (Hw & _) (rs & files & Hf & Hm & Hrs & Ht).
  destruct (Open_rep w (en_dataDir e) rs [] files Hw) as (e' & w' & es & E & Hw' & He');
    [by rewrite app_nil_r|done|done|done|].
  exists e', w'. split; [exact E|]. split; [done|]. by eexists _, _, _.
Qed.

(** The engine of an empty directory holds the empty map. *)
Lemma fresh_engine_rep dataDir clock rng :
  kv_rep (mkWorld {[wal_file dataDir := []]} clock rng []) (fresh_engine dataDir) ∅.
Proof. split; [done|]. eexists _, _, _. split; [apply fresh_rep|done]. Qed.

(** A MemTable far from its limit is ready for any small write. *)
Lemma engine_small_ready w e wr :
  Size (en_mem e) + entry_size (write_entry wr) + 64 < memTableMaxSize →
  kv_ready (E := Engine.Engine) w e wr.
Proof. intros H es _. by left. Qed.

(** ** What an engine holds is unique *)

(** Tables that read as the same records show the same values. *)
Lemma same_records_lookup k t : ∀ t',
  entry_record <$> t = entry_record <$> t' →
  live (entries_lookup k t) = live (entries_lookup k t') ∧ (entries_lookup k t = None ↔ entries_lookup k t' = None).
Proof.
  induction t as [|x t IH]; intros [|x' t'] Heq; try done. apply (inj2 cons) in Heq as [Hx Ht]. destruct (IH t' Ht) as [IH1 IH2].
  unfold entry_record in Hx. injection Hx as Hkey Hval Hop. cbn. rewrite Hkey. case_decide; [|done]. split; [|done].
  cbn. rewrite Hop. case_decide; [done|]. f_equal.
  destruct (slice_bytes (e_Value x)), (slice_bytes (e_Value x')); congruence.
Qed.

Lemma same_tables_lookup w readers ts ts' k :
  no_faults w → Forall2 (table_open (w_files w)) readers ts → Forall2 (table_open (w_files w)) readers ts' →
  live (layered_lookup k ts) = live (layered_lookup k ts').
Proof.
  intros Hw Ht. revert ts'. induction Ht as [|r t readers ts [Hr _] _ IH]; intros ts' Ht'.
  { by apply Forall2_nil_inv_l in Ht' as ->. }
  apply Forall2_cons_inv_l in Ht' as (t' & ts2 & [Hr' _] & Ht2 & ->). cbn.
  pose proof (readAll_stored w _ _ Hw Hr) as E. rewrite (readAll_stored w _ _ Hw Hr') in E. injection E as E.
  destruct (same_records_lookup k t t' (eq_sym E)) as [H1 H2].
  destruct (entries_lookup k t), (entries_lookup k t'); [done| | |by apply IH]; naive_solver.
Qed.

Lemma engine_kv_rep_unique w e m m' : engine_kv_rep w e m → engine_kv_rep w e m' → m = m'.
Proof.
  intros (Hw & rs & es & ts & [_ _ [n Hm] _ Ht _ Hv] & <-) (_ & rs' & es' & ts' & [_ _ [n' Hm'] _ Ht' _ Hv'] & <-).
  apply map_eq. intros k. rewrite <- Hv, <- Hv'.
  assert (es = es') as <- by (apply mem_rep_entries in Hm, Hm'; congruence).
  cbn. destruct (entries_lookup k es); [done|]. by eapply same_tables_lookup.
Qed.
