(* ===== verification/Config.v ===== *)
(** The node configuration of [internal/config/config.go]: defaults,
    validation and the quorum size. Durations are nanoseconds. *)

From S2P Require Import Prelude.

Record Config := mkConfig {
  NodeID : bytes;
  ListenAddr : bytes;
  Peers : list bytes;
  DataDir : bytes;
  MemTableMaxBytes : Z;
  HeartbeatInterval : Z;
  ElectionTimeoutMin : Z;
  ElectionTimeoutMax : Z;
}.

Definition Millisecond : Z := 1000000.

Definition DefaultConfig : Config :=
  mkConfig [] [] [] [] (64 * 1024 * 1024) (50 * Millisecond) (150 * Millisecond) (300 * Millisecond).

(** [errorf] makes a [configError], which prints with the package's prefix. *)
Definition errorf (msg : string) : error := Errorf ("config: " +:+ msg).

(** [None] is the nil error. *)
Definition Validate (c : Config) : option error :=
  if decide (NodeID c = []) then Some (errorf "NodeID must not be empty") else
  if decide (ListenAddr c = []) then Some (errorf "ListenAddr must not be empty") else
  if decide (DataDir c = []) then Some (errorf "DataDir must not be empty") else
  if decide (length (Peers c) = 0%nat)
  then Some (errorf "Peers must contain at least one peer address") else
  if HeartbeatInterval c <=? 0 then Some (errorf "HeartbeatInterval must be positive") else
  if (ElectionTimeoutMin c <=? 0) || (ElectionTimeoutMax c <=? 0)
  then Some (errorf "ElectionTimeout values must be positive") else
  if ElectionTimeoutMax c <=? ElectionTimeoutMin c
  then Some (errorf "ElectionTimeoutMin must be less than ElectionTimeoutMax") else
  if ElectionTimeoutMin c <? HeartbeatInterval c * 3
  then Some (errorf "ElectionTimeoutMin should be at least 3x HeartbeatInterval to avoid false timeouts")
  else None.

Definition ClusterSize (c : Config) : Z := 1 + len (Peers c).

Definition Quorum (c : Config) : Z := Z.quot (ClusterSize c) 2 + 1.

(** * Lemmas *)

Lemma Validate_ok c :
  Validate c = None →
  NodeID c ≠ [] ∧ DataDir c ≠ [] ∧ Peers c ≠ [] ∧ 0 < HeartbeatInterval c
  ∧ 3 * HeartbeatInterval c <= ElectionTimeoutMin c < ElectionTimeoutMax c.
Proof.
  unfold Validate. repeat case_decide; try done.
  destruct (Z.leb_spec (HeartbeatInterval c) 0); [done|].
  destruct (Z.leb_spec (ElectionTimeoutMin c) 0); [done|].
  destruct (Z.leb_spec (ElectionTimeoutMax c) 0); [done|]. cbn.
  destruct (Z.leb_spec (ElectionTimeoutMax c) (ElectionTimeoutMin c)); [done|].
  destruct (Z.ltb_spec (ElectionTimeoutMin c) (HeartbeatInterval c * 3)); [done|].
  intros _. split_and!; try done; try lia. by intros E; rewrite E in *.
Qed.

Lemma Quorum_majority c : ClusterSize c < 2 * Quorum c.
Proof.
  unfold Quorum, ClusterSize. pose proof (len_nonneg (Peers c)).
  rewrite Z.quot_div_nonneg by lia. pose proof (Z.div_mod (1 + len (Peers c)) 2 ltac:(lia)).
  pose proof (Z.mod_pos_bound (1 + len (Peers c)) 2 ltac:(lia)). lia.
Qed.

Lemma Quorum_reachable c : 1 <= Quorum c <= ClusterSize c.
Proof.
  unfold Quorum, ClusterSize. pose proof (len_nonneg (Peers c)).
  rewrite Z.quot_div_nonneg by lia. pose proof (Z.div_mod (1 + len (Peers c)) 2 ltac:(lia)).
  pose proof (Z.mod_pos_bound (1 + len (Peers c)) 2 ltac:(lia)). lia.
Qed.

(** Two lists of distinct members of a cluster, each of quorum size, meet. *)
Lemma quorums_meet {A} `{!EqDecision A} c (all q1 q2 : list A) :
  len all = ClusterSize c → NoDup q1 → NoDup q2 → q1 ⊆ all → q2 ⊆ all →
  Quorum c <= len q1 → Quorum c <= len q2 → ∃ x, x ∈ q1 ∧ x ∈ q2.
Proof.
  intros Hall Hn1 Hn2 Hs1 Hs2 Hq1 Hq2. pose proof (Quorum_majority c) as Hm.
  destruct (decide (Exists (λ x, x ∈ q2) q1)) as [He|He].
  { apply Exists_exists in He as (x & ? & ?). eauto. }
  exfalso. assert (Hnd : NoDup (q1 ++ q2)).
  { apply NoDup_app. split_and!; [done| |done]. intros x Hx1 Hx2. apply He, Exists_exists. eauto. }
  assert (Hsub : q1 ++ q2 ⊆ all) by (intros x [?|?]%elem_of_app; auto).
  assert (Hle : (length (q1 ++ q2) ≤ length all)%nat).
  { apply submseteq_length, NoDup_submseteq; [done|]. intros x Hx. by apply Hsub. }
  rewrite length_app in Hle. unfold len in *. lia.
Qed.

(** * Properties *)

(** A configuration that passes validation has a timer draw that cannot
    panic (the election range is not empty), an election timeout of at least
    three heartbeats, and a quorum that is a majority of the cluster and not
    more than the cluster. *)
Theorem validated_config_sound c :
  Validate c = None →
  0 < HeartbeatInterval c
  ∧ 3 * HeartbeatInterval c <= ElectionTimeoutMin c < ElectionTimeoutMax c
  ∧ ClusterSize c < 2 * Quorum c ∧ Quorum c <= ClusterSize c ∧ 2 <= ClusterSize c.
Proof.
  intros (_ & _ & Hp & Hh & Ht)%Validate_ok. split_and!; try lia.
  - apply Quorum_majority.
  - apply Quorum_reachable.
  - unfold ClusterSize. destruct (Peers c) as [|p l]; [done|]. rewrite len_cons.
    pose proof (len_nonneg l). lia.
Qed.

Lemma validated_config_sound_witness :
  let c := mkConfig (str "n1") (str ":5001") [str "n2"; str "n3"] (str "d") (MemTableMaxBytes DefaultConfig)
    (HeartbeatInterval DefaultConfig) (ElectionTimeoutMin DefaultConfig) (ElectionTimeoutMax DefaultConfig) in
  Validate c = None ∧ 3 < 2 * Quorum c.
Proof.
  intros c. assert (H : Validate c = None) by (vm_compute; reflexivity). split; [exact H|].
  exact (proj1 (proj2 (proj2 (validated_config_sound c H)))).
Defined.
