(* ===== verification/RaftNode.v ===== *)
(** The Raft node of [internal/raft/node.go]: the messages of
    [proto/raft.proto], the node's state, its persistent part on disk
    ([persistStateLocked], [loadState]), construction, proposals and timers.
    Terms and indices are [uint64] values, kept as [Z] with the wrap-around of
    additions written out. Operations that index the log return [option]:
    [None] is a run-time panic. *)

From S2P Require Import Prelude Os Config.

(** ** Messages *)

Record LogEntry := mkLog {
  le_Index : Z;
  le_Term : Z;
  le_Data : bytes;
}.

Record RequestVoteRequest := mkVoteReq {
  rv_Term : Z;
  rv_CandidateId : bytes;
  rv_LastLogIndex : Z;
  rv_LastLogTerm : Z;
}.

Record RequestVoteResponse := mkVoteResp {
  rvr_Term : Z;
  rvr_VoteGranted : bool;
}.

Record AppendEntriesRequest := mkAppendReq {
  ae_Term : Z;
  ae_LeaderId : bytes;
  ae_PrevLogIndex : Z;
  ae_PrevLogTerm : Z;
  ae_Entries : list LogEntry;
  ae_LeaderCommit : Z;
}.

Record AppendEntriesResponse := mkAppendResp {
  aer_Term : Z;
  aer_Success : bool;
  aer_MatchIndex : Z;
}.

#[global] Instance LogEntry_eq_dec : EqDecision LogEntry.
Proof. solve_decision. Defined.

(** ** The node *)

Inductive Role := Follower | Candidate | Leader.

#[global] Instance Role_eq_dec : EqDecision Role.
Proof. solve_decision. Defined.

(** [type ApplyMsg struct]: a command or a snapshot. *)
Record ApplyMsg := mkApply {
  am_CommandValid : bool;
  am_Command : bytes;
  am_CommandIndex : Z;
  am_SnapshotValid : bool;
  am_Snapshot : bytes;
  am_SnapshotIndex : Z;
  am_SnapshotTerm : Z;
}.

Definition command_msg (cmd : bytes) (index : Z) : ApplyMsg := mkApply true cmd index false [] 0 0.
Definition snapshot_msg (data : bytes) (index term : Z) : ApplyMsg :=
  mkApply false [] 0 true data index term.

(** A buffered channel and the goroutines blocked on sending to it. *)
Record chan (A : Type) := mkChan {
  ch_cap : nat;
  ch_buf : list A;
  ch_blocked : list A;
}.
Arguments mkChan {_} _ _ _.
Arguments ch_cap {_} _.
Arguments ch_buf {_} _.
Arguments ch_blocked {_} _.

(** [select { case ch <- m: default: go func() { ch <- m }() }] *)
Definition chan_send_or_spawn {A} (ch : chan A) (m : A) : chan A :=
  if (length (ch_buf ch) <? ch_cap ch)%nat
  then mkChan (ch_cap ch) (ch_buf ch ++ [m]) (ch_blocked ch)
  else mkChan (ch_cap ch) (ch_buf ch) (ch_blocked ch ++ [m]).

(** The files of a node's data directory. *)
Record disk := mkDisk {
  d_state : option bytes;
  d_snapshot : option bytes;
}.

Record Node := mkNd {
  nd_id : bytes;
  nd_currentTerm : Z;
  nd_votedFor : bytes;
  nd_log : list LogEntry;
  nd_commitIndex : Z;
  nd_lastApplied : Z;
  nd_role : Role;
  nd_nextIndex : gmap bytes Z;
  nd_matchIndex : gmap bytes Z;
  nd_electionTimer : bool;      (* an election timeout is pending *)
  nd_lastHeartbeat : Z;
  nd_cfg : Config;
  nd_peers : list bytes;        (* peerPool.PeerIDs() *)
  nd_applyCh : chan ApplyMsg;
  nd_disk : disk;
}.

Definition set_term (t : Z) (n : Node) : Node :=
  mkNd (nd_id n) t (nd_votedFor n) (nd_log n) (nd_commitIndex n) (nd_lastApplied n) (nd_role n)
    (nd_nextIndex n) (nd_matchIndex n) (nd_electionTimer n) (nd_lastHeartbeat n) (nd_cfg n)
    (nd_peers n) (nd_applyCh n) (nd_disk n).
Definition set_votedFor (v : bytes) (n : Node) : Node :=
  mkNd (nd_id n) (nd_currentTerm n) v (nd_log n) (nd_commitIndex n) (nd_lastApplied n) (nd_role n)
    (nd_nextIndex n) (nd_matchIndex n) (nd_electionTimer n) (nd_lastHeartbeat n) (nd_cfg n)
    (nd_peers n) (nd_applyCh n) (nd_disk n).
Definition set_log (l : list LogEntry) (n : Node) : Node :=
  mkNd (nd_id n) (nd_currentTerm n) (nd_votedFor n) l (nd_commitIndex n) (nd_lastApplied n) (nd_role n)
    (nd_nextIndex n) (nd_matchIndex n) (nd_electionTimer n) (nd_lastHeartbeat n) (nd_cfg n)
    (nd_peers n) (nd_applyCh n) (nd_disk n).
Definition set_commitIndex (c : Z) (n : Node) : Node :=
  mkNd (nd_id n) (nd_currentTerm n) (nd_votedFor n) (nd_log n) c (nd_lastApplied n) (nd_role n)
    (nd_nextIndex n) (nd_matchIndex n) (nd_electionTimer n) (nd_lastHeartbeat n) (nd_cfg n)
    (nd_peers n) (nd_applyCh n) (nd_disk n).
Definition set_applied (a : Z) (ch : chan ApplyMsg) (n : Node) : Node :=
  mkNd (nd_id n) (nd_currentTerm n) (nd_votedFor n) (nd_log n) (nd_commitIndex n) a (nd_role n)
    (nd_nextIndex n) (nd_matchIndex n) (nd_electionTimer n) (nd_lastHeartbeat n) (nd_cfg n)
    (nd_peers n) ch (nd_disk n).
Definition set_role (r : Role) (n : Node) : Node :=
  mkNd (nd_id n) (nd_currentTerm n) (nd_votedFor n) (nd_log n) (nd_commitIndex n) (nd_lastApplied n) r
    (nd_nextIndex n) (nd_matchIndex n) (nd_electionTimer n) (nd_lastHeartbeat n) (nd_cfg n)
    (nd_peers n) (nd_applyCh n) (nd_disk n).
Definition set_indices (next match_ : gmap bytes Z) (n : Node) : Node :=
  mkNd (nd_id n) (nd_currentTerm n) (nd_votedFor n) (nd_log n) (nd_commitIndex n) (nd_lastApplied n) (nd_role n)
    next match_ (nd_electionTimer n) (nd_lastHeartbeat n) (nd_cfg n)
    (nd_peers n) (nd_applyCh n) (nd_disk n).
Definition set_timer (b : bool) (n : Node) : Node :=
  mkNd (nd_id n) (nd_currentTerm n) (nd_votedFor n) (nd_log n) (nd_commitIndex n) (nd_lastApplied n) (nd_role n)
    (nd_nextIndex n) (nd_matchIndex n) b (nd_lastHeartbeat n) (nd_cfg n)
    (nd_peers n) (nd_applyCh n) (nd_disk n).
Definition set_heartbeat (t : Z) (n : Node) : Node :=
  mkNd (nd_id n) (nd_currentTerm n) (nd_votedFor n) (nd_log n) (nd_commitIndex n) (nd_lastApplied n) (nd_role n)
    (nd_nextIndex n) (nd_matchIndex n) (nd_electionTimer n) t (nd_cfg n)
    (nd_peers n) (nd_applyCh n) (nd_disk n).
Definition set_disk (d : disk) (n : Node) : Node :=
  mkNd (nd_id n) (nd_currentTerm n) (nd_votedFor n) (nd_log n) (nd_commitIndex n) (nd_lastApplied n) (nd_role n)
    (nd_nextIndex n) (nd_matchIndex n) (nd_electionTimer n) (nd_lastHeartbeat n) (nd_cfg n)
    (nd_peers n) (nd_applyCh n) d.

(** Goroutines a handler starts. *)
Inductive goroutine :=
| GoStartElection (term lastLogIndex lastLogTerm : Z)
| GoSendHeartbeats (term : Z)
| GoReplicateToPeers (term : Z).

(** ** Access to the log *)

(** [n.log[i]] for a [uint64] index. *)
Definition log_at (l : list LogEntry) (i : Z) : option LogEntry := l !! Z.to_nat i.

Definition last_entry (l : list LogEntry) : option LogEntry := last l.

Definition lastLogIndexLocked (n : Node) : option Z := le_Index <$> last_entry (nd_log n).
Definition lastLogTermLocked (n : Node) : option Z := le_Term <$> last_entry (nd_log n).

(** ** Persistence *)

(** The writes [persistStateLocked] makes, in order. *)
Definition entry_chunks (e : LogEntry) : list bytes :=
  [le_put 8 (u64 (le_Index e)); le_put 8 (u64 (le_Term e)); le_put 4 (u32 (len (le_Data e)))]
  ++ (if 0 <? len (le_Data e) then [le_Data e] else []).

Definition state_chunks (n : Node) : list bytes :=
  [le_put 8 (u64 (nd_currentTerm n)); le_put 2 (u16 (len (nd_votedFor n)))]
  ++ (if 0 <? len (nd_votedFor n) then [nd_votedFor n] else [])
  ++ [le_put 4 (u32 (len (nd_log n)))]
  ++ concat (entry_chunks <$> nd_log n).

Definition encode_state (n : Node) : bytes := concat (state_chunks n).

Definition stateFilePath (n : Node) : bytes := path_Join (DataDir (nd_cfg n)) (str "raft_state.bin").

Fixpoint write_chunks (path : bytes) (chunks : list bytes) : IO unit :=
  match chunks with
  | [] => mret tt
  | c :: chunks => _ ← io_try (file_Write path c); write_chunks path chunks
  end.

(** [persistStateLocked] on the file system; every error is ignored except a
    failed [os.Create]. *)
Definition persistState_io (n : Node) : IO unit :=
  _ ← io_try (os_MkdirAll (DataDir (nd_cfg n)));
  let tmp := stateFilePath n ++ str ".tmp" in
  r ← io_try (os_Create tmp);
  match r with
  | inl _ => mret tt
  | inr _ =>
      _ ← write_chunks tmp (state_chunks n);
      _ ← io_try file_Sync;
      _ ← io_try file_Close;
      _ ← io_try (os_Rename tmp (stateFilePath n));
      mret tt
  end.

(** Its effect on the node's disk when no I/O fails. *)
Definition persistStateLocked (n : Node) : Node :=
  set_disk (mkDisk (Some (encode_state n)) (d_snapshot (nd_disk n))) n.

(** The loop of [loadState] over [logCount] entries: the log read so far, and
    whether a read failed. Every entry takes at least 20 bytes, so the length
    of the file is enough fuel. *)
Fixpoint load_entries (fuel : nat) (count : Z) (rest : bytes) (log : list LogEntry)
    : list LogEntry * option error :=
  if count <=? 0 then (log, None) else
  match fuel with
  | O => (log, Some (Errorf "EOF"))
  | S fuel =>
      match ReadFull 8 rest with
      | None => (log, Some (Errorf "EOF"))
      | Some (idx, rest) =>
      match ReadFull 8 rest with
      | None => (log, Some (Errorf "EOF"))
      | Some (term, rest) =>
      match ReadFull 4 rest with
      | None => (log, Some (Errorf "EOF"))
      | Some (dl, rest) =>
          let dataLen := le_get dl in
          if 0 <? dataLen then
            match ReadFull dataLen rest with
            | None => (log, Some (Errorf "EOF"))
            | Some (data, rest) =>
                load_entries fuel (count - 1) rest (log ++ [mkLog (le_get idx) (le_get term) data])
            end
          else load_entries fuel (count - 1) rest (log ++ [mkLog (le_get idx) (le_get term) []])
      end end end
  end.

(** [loadState] on the content of the state file: the fields already read are
    kept when a later read fails. *)
Definition load_bytes (file : bytes) (n : Node) : Node * option error :=
  match ReadFull 8 file with
  | None => (n, Some (Errorf "EOF"))
  | Some (t, rest) =>
      let n := set_term (le_get t) n in
      match ReadFull 2 rest with
      | None => (n, Some (Errorf "EOF"))
      | Some (vl, rest) =>
          let votedLen := le_get vl in
          match (if 0 <? votedLen
                 then '(v, rest) ← ReadFull votedLen rest; Some (set_votedFor v n, rest)
                 else Some (n, rest)) with
          | None => (n, Some (Errorf "EOF"))
          | Some (n, rest) =>
              match ReadFull 4 rest with
              | None => (n, Some (Errorf "EOF"))
              | Some (lc, rest) =>
                  let logCount := le_get lc in
                  if 0 <? logCount then
                    let '(log, err) := load_entries (length file) logCount rest [] in
                    (set_log log n, err)
                  else (n, None)
              end
          end
      end
  end.

(** A file that cannot be opened leaves the node as an absent one does: the
    only caller ignores the error. *)
Definition loadState (n : Node) : Node * option error :=
  match d_state (nd_disk n) with
  | None => (n, None)
  | Some file => load_bytes file n
  end.

(** ** Construction, proposals, timers *)

(** [NewNode]: a load error is logged and ignored. *)
Definition NewNode (cfg : Config) (peers : list bytes) (applyCh : chan ApplyMsg) (d : disk)
    : error + Node :=
  match Validate cfg with
  | Some e => inl (Wrapf "raft: invalid config" e)
  | None =>
      let n := mkNd (NodeID cfg) 0 [] [mkLog 0 0 []] 0 0 Follower ∅ ∅ false 0 cfg peers applyCh d in
      inr (fst (loadState n))
  end.

Definition resetElectionTimerLocked (n : Node) : Node := set_timer true n.

(** The duration [resetElectionTimerLocked] draws, in milliseconds, [r] being
    the random number; [None] where [rand.Intn] panics. *)
Definition electionTimeoutMs (cfg : Config) (r : Z) : option Z :=
  let minMs := Z.quot (ElectionTimeoutMin cfg) Millisecond in
  let maxMs := Z.quot (ElectionTimeoutMax cfg) Millisecond in
  if maxMs - minMs + 1 <=? 0 then None else Some (minMs + Z.modulo r (maxMs - minMs + 1)).

Definition Start (n : Node) : Node := resetElectionTimerLocked n.

(** [Stop]: the context is cancelled and the timers stop. *)
Definition Stop (n : Node) : Node := set_timer false n.

(** [Propose] returns the node, the goroutine it starts and
    [(index, term, ok)]. *)
Definition Propose (n : Node) (data : bytes) : option (Node * list goroutine * (Z * Z * bool)) :=
  if decide (nd_role n = Leader) then
    lastIndex ← lastLogIndexLocked n;
    let newIndex := u64 (lastIndex + 1) in
    let newTerm := nd_currentTerm n in
    let n := persistStateLocked (set_log (nd_log n ++ [mkLog newIndex newTerm data]) n) in
    Some (n, [GoReplicateToPeers newTerm], (newIndex, newTerm, true))
  else Some (n, [], (0, 0, false)).

Definition GetState (n : Node) : Z * bool := (nd_currentTerm n, bool_decide (nd_role n = Leader)).

Definition GetRole (n : Node) : Role := nd_role n.

Definition ID (n : Node) : bytes := nd_id n.

(** [Role.String]; the three roles are all there are. *)
Definition Role_String (r : Role) : bytes :=
  match r with
  | Follower => str "Follower"
  | Candidate => str "Candidate"
  | Leader => str "Leader"
  end.

(** [checkTimers] at time [now]. *)
Definition checkTimers (n : Node) (now : Z) : Node * list goroutine :=
  if decide (nd_role n = Leader) then
    if HeartbeatInterval (nd_cfg n) <=? now - nd_lastHeartbeat n
    then (set_heartbeat now n, [GoSendHeartbeats (nd_currentTerm n)])
    else (n, [])
  else (n, []).

(** ** Specification *)

(** Values that fit the state file. *)
Definition entry_fits (e : LogEntry) : Prop :=
  0 <= le_Index e < 2 ^ 64 ∧ 0 <= le_Term e < 2 ^ 64 ∧ len (le_Data e) < 2 ^ 32.

Definition state_fits (n : Node) : Prop :=
  0 <= nd_currentTerm n < 2 ^ 64 ∧ len (nd_votedFor n) < 2 ^ 16
  ∧ 0 < len (nd_log n) < 2 ^ 32 ∧ Forall entry_fits (nd_log n).

(** The bytes of the log entries in the state file. *)
Definition encode_log (l : list LogEntry) : bytes := concat (concat (entry_chunks <$> l)).

(** The persistent fields agree. *)
Definition same_persistent (n n' : Node) : Prop :=
  nd_currentTerm n = nd_currentTerm n' ∧ nd_votedFor n = nd_votedFor n' ∧ nd_log n = nd_log n'.

(** The disk holds the node's current persistent state. *)
Definition persisted (n : Node) : Prop := d_state (nd_disk n) = Some (encode_state n).

(** * Lemmas *)

Lemma concat_opt_chunk (b : bytes) : concat (if 0 <? len b then [b] else []) = b.
Proof.
  destruct b as [|x b]; [done|].
  rewrite (proj2 (Z.ltb_lt _ _)) by (rewrite len_cons; pose proof (len_nonneg b); lia).
  cbn. by rewrite app_nil_r.
Qed.

Lemma concat_entry_chunks e :
  concat (entry_chunks e) =
    le_put 8 (u64 (le_Index e)) ++ le_put 8 (u64 (le_Term e)) ++ le_put 4 (u32 (len (le_Data e)))
    ++ le_Data e.
Proof. unfold entry_chunks. by rewrite concat_app, concat_opt_chunk; cbn; rewrite app_nil_r, <- !app_assoc. Qed.

Lemma encode_log_cons e l :
  encode_log (e :: l) =
    le_put 8 (u64 (le_Index e)) ++ le_put 8 (u64 (le_Term e)) ++ le_put 4 (u32 (len (le_Data e)))
    ++ le_Data e ++ encode_log l.
Proof.
  unfold encode_log. cbn [fmap list_fmap concat]. rewrite concat_app, concat_entry_chunks.
  by rewrite <- !app_assoc.
Qed.

Lemma encode_state_split n :
  encode_state n =
    le_put 8 (u64 (nd_currentTerm n)) ++ le_put 2 (u16 (len (nd_votedFor n))) ++ nd_votedFor n
    ++ le_put 4 (u32 (len (nd_log n))) ++ encode_log (nd_log n).
Proof.
  unfold encode_state, state_chunks, encode_log. rewrite !concat_app, concat_opt_chunk. cbn.
  by rewrite !app_nil_r, <- !app_assoc.
Qed.

(** Reading an optional chunk whose length was read before. *)
Lemma read_optional (b rest : bytes) {A} (f : bytes → bytes → A) (z : A) :
  (if 0 <? len b then match ReadFull (len b) (b ++ rest) with Some (v, r) => f v r | None => z end
   else f [] (b ++ rest)) = f b rest.
Proof.
  destruct b as [|x b]; [done|]. rewrite (proj2 (Z.ltb_lt _ _)).
  - by rewrite ReadFull_app.
  - rewrite len_cons. pose proof (len_nonneg b). lia.
Qed.

Lemma load_entries_ok l : ∀ fuel acc,
  Forall entry_fits l → (length (encode_log l) ≤ fuel)%nat →
  load_entries fuel (len l) (encode_log l) acc = (acc ++ l, None).
Proof.
  induction l as [|e l IH]; intros fuel acc Hok Hfuel.
  { destruct fuel; cbn; by rewrite app_nil_r. }
  apply Forall_cons in Hok as [(Hi & Ht & Hd) Hok]. rewrite encode_log_cons in *.
  rewrite !length_app, !length_le_put in Hfuel. destruct fuel as [|fuel]; [lia|].
  pose proof (len_nonneg (le_Data e)). pose proof (len_nonneg l).
  cbn [load_entries]. rewrite len_cons, (proj2 (Z.leb_gt _ _)) by lia.
  rewrite !ReadFull_app by (by rewrite len_le_put).
  rewrite !le_get_put_u64, le_get_put_u32, !u64_small, u32_small by lia.
  rewrite (read_optional (le_Data e) (encode_log l)
    (λ d r, load_entries fuel (1 + len l - 1) r (acc ++ [mkLog (le_Index e) (le_Term e) d]))).
  replace (1 + len l - 1) with (len l) by lia. rewrite IH by (done || lia).
  rewrite <- app_assoc. by destruct e.
Qed.

Lemma load_bytes_ok n n0 :
  state_fits n → nd_votedFor n0 = [] →
  load_bytes (encode_state n) n0 =
    (set_log (nd_log n) (set_votedFor (nd_votedFor n) (set_term (nd_currentTerm n) n0)), None).
Proof.
  intros (Ht & Hv & Hl & Hes) Hv0. pose proof (len_nonneg (nd_votedFor n)).
  assert (Hlen : (length (encode_log (nd_log n)) ≤ length (encode_state n))%nat).
  { rewrite encode_state_split, !length_app. lia. }
  unfold load_bytes. set (fuel := length (encode_state n)) in *. rewrite encode_state_split.
  rewrite !ReadFull_app by (by rewrite len_le_put).
  rewrite le_get_put_u64, le_get_put_u16, u64_small, u16_small by lia.
  set (n1 := set_term (nd_currentTerm n) n0).
  set (rest := le_put 4 _ ++ _).
  assert (E : (if 0 <? len (nd_votedFor n)
     then '(v, rest) ← ReadFull (len (nd_votedFor n)) (nd_votedFor n ++ rest); Some (set_votedFor v n1, rest)
     else Some (n1, nd_votedFor n ++ rest)) = Some (set_votedFor (nd_votedFor n) n1, rest)).
  { destruct (nd_votedFor n) as [|x v].
    - cbn. f_equal. f_equal. unfold set_votedFor. rewrite <- Hv0. by destruct n0.
    - rewrite (proj2 (Z.ltb_lt _ _)) by (rewrite len_cons; pose proof (len_nonneg v); lia).
      by rewrite ReadFull_app. }
  rewrite E. unfold rest. rewrite ReadFull_app by (by rewrite len_le_put).
  rewrite le_get_put_u32, u32_small, (proj2 (Z.ltb_lt _ _)) by lia.
  by rewrite load_entries_ok.
Qed.

Lemma write_chunks_ok path chunks : ∀ w,
  no_faults w → ∃ w', write_chunks path chunks w = (Ok tt, w') ∧ no_faults w'
    ∧ w_files w' !! path = (match chunks with [] => w_files w !! path | _ =>
        Some (default [] (w_files w !! path) ++ concat chunks) end)
    ∧ ∀ p, p ≠ path → w_files w' !! p = w_files w !! p.
Proof.
  induction chunks as [|c chunks IH]; intros w Hw; [by exists w|].
  cbn [write_chunks]. unfold mbind, io_bind, io_try. rewrite file_Write_ok by done.
  destruct (IH (set_files (<[path := default [] (w_files w !! path) ++ c]> (w_files w)) w) Hw)
    as (w' & E & Hw' & Hp & Ho).
  exists w'. split; [exact E|]. split; [done|]. split.
  - rewrite Hp. cbn. rewrite lookup_insert_eq. cbn. unfold id. destruct chunks; cbn.
    + by rewrite app_nil_r.
    + by rewrite <- app_assoc.
  - intros p Hne. rewrite Ho by done. cbn. by rewrite lookup_insert_ne.
Qed.

Lemma persistState_io_ok n w :
  no_faults w →
  ∃ w', persistState_io n w = (Ok tt, w') ∧ no_faults w'
    ∧ w_files w' !! stateFilePath n = Some (encode_state n)
    ∧ ∀ p, p ≠ stateFilePath n → p ≠ stateFilePath n ++ str ".tmp" → w_files w' !! p = w_files w !! p.
Proof.
  intros Hw. unfold persistState_io, mbind, io_bind, io_try.
  rewrite os_MkdirAll_ok, os_Create_ok by done.
  set (tmp := stateFilePath n ++ str ".tmp").
  set (w1 := set_files (<[tmp := []]> (w_files w)) w).
  destruct (write_chunks_ok tmp (state_chunks n) w1 Hw) as (w2 & -> & Hw2 & Hp & Ho).
  rewrite file_Sync_ok, file_Close_ok by done. change (w_files w1) with (<[tmp := []]> (w_files w)) in Hp, Ho.
  rewrite lookup_insert_eq in Hp.
  rewrite (os_Rename_ok w2 Hw2 _ _ (encode_state n)) by (rewrite Hp; done).
  eexists. split; [reflexivity|]. split; [done|]. cbn. split; [apply lookup_insert_eq|].
  intros p Hp1 Hp2. rewrite lookup_insert_ne, lookup_delete_ne, Ho by done.
  by rewrite lookup_insert_ne.
Qed.

(** Election timers of a valid configuration. *)
Lemma electionTimeout_bounds cfg r :
  Validate cfg = None →
  ∃ ms, electionTimeoutMs cfg r = Some ms
    ∧ ElectionTimeoutMin cfg / Millisecond <= ms <= ElectionTimeoutMax cfg / Millisecond.
Proof.
  intros (_ & _ & _ & Hh & Ht)%Validate_ok. unfold electionTimeoutMs.
  rewrite !Z.quot_div_nonneg by (unfold Millisecond; lia).
  assert (Hle : ElectionTimeoutMin cfg / Millisecond <= ElectionTimeoutMax cfg / Millisecond)
    by (apply Z.div_le_mono; unfold Millisecond; lia).
  rewrite (proj2 (Z.leb_gt _ _)) by lia.
  set (d := ElectionTimeoutMax cfg / Millisecond - ElectionTimeoutMin cfg / Millisecond + 1).
  pose proof (Z.mod_pos_bound r d ltac:(lia)). eexists. split; [done|]. lia.
Qed.

(** The node a restart makes of a disk written by [persistStateLocked]. *)
Lemma NewNode_persisted cfg peers ch n :
  Validate cfg = None → state_fits n → persisted n →
  NewNode cfg peers ch (nd_disk n) =
    inr (mkNd (NodeID cfg) (nd_currentTerm n) (nd_votedFor n) (nd_log n) 0 0 Follower ∅ ∅ false 0
           cfg peers ch (nd_disk n)).
Proof.
  intros Hv Hfit Hp. unfold NewNode. rewrite Hv. unfold loadState. cbn [nd_disk].
  unfold persisted in Hp. rewrite Hp. by rewrite load_bytes_ok.
Qed.

(** A load changes the term, the vote and the log only. *)
Lemma load_bytes_frame file n :
  ∃ t v l, fst (load_bytes file n) = set_log l (set_votedFor v (set_term t n)).
Proof.
  unfold load_bytes.
  assert (Hself : n = set_log (nd_log n) (set_votedFor (nd_votedFor n) (set_term (nd_currentTerm n) n)))
    by (by destruct n).
  destruct (ReadFull 8 file) as [[t rest]|]; [|by eexists _, _, _].
  assert (H1 : set_term (le_get t) n =
    set_log (nd_log n) (set_votedFor (nd_votedFor n) (set_term (le_get t) n))) by (by destruct n).
  destruct (ReadFull 2 rest) as [[vl rest1]|]; [|by eexists _, _, _].
  destruct (0 <? le_get vl).
  - destruct (ReadFull (le_get vl) rest1) as [[v rest2]|]; cbn [mbind option_bind]; [|by eexists _, _, _].
    assert (H2 : set_votedFor v (set_term (le_get t) n) =
      set_log (nd_log n) (set_votedFor v (set_term (le_get t) n))) by (by destruct n).
    destruct (ReadFull 4 rest2) as [[lc rest3]|]; [|by eexists _, _, _].
    destruct (0 <? le_get lc); [|by eexists _, _, _].
    destruct (load_entries _ _ _ _) as [log err]. by eexists _, _, _.
  - destruct (ReadFull 4 rest1) as [[lc rest3]|]; [|by eexists _, _, _].
    destruct (0 <? le_get lc); [|by eexists _, _, _].
    destruct (load_entries _ _ _ _) as [log err]. cbn [fst].
    exists (le_get t), (nd_votedFor n), log. by destruct n.
Qed.

Lemma NewNode_fields cfg peers ch d n :
  NewNode cfg peers ch d = inr n →
  nd_id n = NodeID cfg ∧ nd_role n = Follower ∧ nd_applyCh n = ch ∧ nd_peers n = peers ∧ nd_cfg n = cfg.
Proof.
  unfold NewNode. destruct (Validate cfg); [done|]. unfold loadState. cbn [nd_disk].
  destruct (d_state d) as [file|]; [|by intros [= <-]].
  destruct (load_bytes_frame file (mkNd (NodeID cfg) 0 [] [mkLog 0 0 []] 0 0 Follower ∅ ∅ false 0 cfg peers ch d))
    as (t & v & l & E). rewrite E. by intros [= <-].
Qed.

(** * Properties *)

(** C27: persistence round trip: writing the state file without I/O failure and
    starting a new node from it restores term, vote and log exactly, as a
    follower with nothing committed or applied yet. *)
Theorem raft_state_roundtrip n w cfg peers ch :
  no_faults w → Validate cfg = None → state_fits n →
  ∃ w' n', persistState_io n w = (Ok tt, w')
    ∧ NewNode cfg peers ch (mkDisk (w_files w' !! stateFilePath n) None) = inr n'
    ∧ same_persistent n n' ∧ nd_role n' = Follower ∧ nd_commitIndex n' = 0 ∧ nd_lastApplied n' = 0.
Proof.
  intros Hw Hv Hfit. destruct (persistState_io_ok n w Hw) as (w' & E & _ & Hf & _).
  pose proof (NewNode_persisted cfg peers ch (set_disk (mkDisk (Some (encode_state n)) None) n) Hv)
    as HN.
  eexists w', _. split; [done|]. rewrite Hf. split; [apply HN; done|done].
Qed.

Definition witness_cfg : Config :=
  mkConfig (str "n1") (str ":1") [str "n2"; str "n3"] (str "d") 0 (50 * Millisecond)
    (150 * Millisecond) (300 * Millisecond).

Definition witness_node : Node :=
  mkNd (str "n1") 5 (str "n2") [mkLog 0 0 []; mkLog 1 4 (str "x"); mkLog 2 5 []] 1 1 Follower ∅ ∅ true 0
    witness_cfg [str "n2"; str "n3"] (mkChan 256 [] []) (mkDisk None None).

Lemma witness_node_fits : state_fits witness_node.
Proof. repeat split; try (repeat constructor); vm_compute; congruence. Qed.

Lemma raft_state_roundtrip_witness :
  ∃ w' n', persistState_io witness_node (mkWorld ∅ [] [] []) = (Ok tt, w')
    ∧ NewNode witness_cfg [] (mkChan 256 [] []) (mkDisk (w_files w' !! stateFilePath witness_node) None) = inr n'
    ∧ nd_votedFor n' = str "n2" ∧ nd_log n' = nd_log witness_node.
Proof.
  destruct (raft_state_roundtrip witness_node (mkWorld ∅ [] [] []) witness_cfg [] (mkChan 256 [] []))
    as (w' & n' & E & EN & (_ & Hv & Hl) & _).
  - reflexivity.
  - vm_compute. reflexivity.
  - exact witness_node_fits.
  - exists w', n'. split_and!; [exact E|exact EN|symmetry; exact Hv|symmetry; exact Hl].
Defined.

(** Write errors are ignored and the temporary file is renamed anyway: when
    the disk fills up while the vote is written, the good state file is
    replaced by a torn one, and the node restarts in the same term with its
    vote and its log forgotten, so it can vote a second time. *)
Theorem raft_torn_state_forgets_vote :
  let n := witness_node in
  let w := mkWorld {[stateFilePath n := encode_state n]} [] []
             [None; None; None; None; Some 0%nat; Some 0%nat; Some 0%nat; Some 0%nat; Some 0%nat;
              Some 0%nat; Some 0%nat; Some 0%nat; Some 0%nat; Some 0%nat; Some 0%nat; Some 0%nat] in
  let w' := snd (persistState_io n w) in
  ∃ n', NewNode witness_cfg [] (mkChan 256 [] []) (mkDisk (w_files w' !! stateFilePath n) None) = inr n'
    ∧ nd_currentTerm n' = nd_currentTerm n
    ∧ nd_votedFor n = str "n2" ∧ nd_votedFor n' = [] ∧ nd_log n' = [mkLog 0 0 []].
Proof. eexists. split; [vm_compute; reflexivity|]. vm_compute. split_and!; reflexivity. Qed.

(** [Propose] on a leader appends exactly one entry of the current term at
    the next index, persists it before returning and starts replication; on any
    other node it changes nothing and reports failure. *)
Theorem propose_spec n data e :
  last (nd_log n) = Some e → 0 <= le_Index e < 2 ^ 64 - 1 →
  ∃ n' gs r, Propose n data = Some (n', gs, r)
    ∧ (nd_role n = Leader →
         nd_log n' = nd_log n ++ [mkLog (le_Index e + 1) (nd_currentTerm n) data]
         ∧ persisted n' ∧ gs = [GoReplicateToPeers (nd_currentTerm n)]
         ∧ r = (le_Index e + 1, nd_currentTerm n, true))
    ∧ (nd_role n ≠ Leader → n' = n ∧ gs = [] ∧ r = (0, 0, false)).
Proof.
  intros He Hi. unfold Propose. case_decide as D.
  - unfold lastLogIndexLocked, last_entry. rewrite He. cbn. rewrite u64_small by lia.
    eexists _, _, _. split; [done|]. split; [|done]. intros _. done.
  - eexists _, _, _. split; [done|]. done.
Qed.

Lemma propose_spec_witness :
  ∃ n' gs r, Propose (set_role Leader witness_node) (str "cmd") = Some (n', gs, r)
    ∧ r = (3, 5, true) ∧ nd_log n' = nd_log witness_node ++ [mkLog 3 5 (str "cmd")].
Proof.
  destruct (propose_spec (set_role Leader witness_node) (str "cmd") (mkLog 2 5 []))
    as (n' & gs & r & E & HL & _).
  - reflexivity.
  - cbn. lia.
  - destruct (HL eq_refl) as (Hl & _ & _ & Hr). exists n', gs, r.
    split; [exact E|]. split; [exact Hr|exact Hl].
Defined.
