(* ===== verification/Timers.v ===== *)
(** The event loop of a node ([runEventLoop] of [internal/raft/node.go]): when a
    leader sends its heartbeats. *)

From S2P Require Import Prelude Config RaftNode.

(** [runEventLoop] from the wake-up times of its sleeps until the context is
    cancelled: the node and the goroutines it started, with their times. *)
Fixpoint runEventLoop (nows : list Z) (n : Node) : Node * list (Z * goroutine) :=
  match nows with
  | [] => (n, [])
  | now :: nows =>
      let '(n, gs) := checkTimers n now in
      let '(n, rest) := runEventLoop nows n in
      (n, ((λ g, (now, g)) <$> gs) ++ rest)
  end.

(** ** Specification *)

(** Every time of the list follows the one before by at least [lo] and less
    than [hi]. *)
Fixpoint paced (lo hi t : Z) (ts : list Z) : Prop :=
  match ts with
  | [] => True
  | u :: ts => lo <= u - t < hi ∧ paced lo hi u ts
  end.

(** * Lemmas *)

Lemma event_loop_leader nows : ∀ n t gap,
  nd_role n = Leader → 0 <= t - nd_lastHeartbeat n < HeartbeatInterval (nd_cfg n) → paced 0 (gap + 1) t nows →
  ∃ n' hs, runEventLoop nows n = (n', hs) ∧ nd_role n' = Leader
    ∧ paced (HeartbeatInterval (nd_cfg n)) (HeartbeatInterval (nd_cfg n) + gap) (nd_lastHeartbeat n) (fst <$> hs)
    ∧ Forall (λ h, snd h = GoSendHeartbeats (nd_currentTerm n)) hs
    ∧ default t (last nows) - nd_lastHeartbeat n' < HeartbeatInterval (nd_cfg n).
Proof.
  induction nows as [|now nows IH]; intros n t gap Hr Ht Hp.
  { exists n, []. split_and!; try done. cbn. lia. }
  destruct Hp as [Hnow Hp]. cbn [runEventLoop]. unfold checkTimers. rewrite decide_True by done.
  assert (Hlast : default t (last (now :: nows)) = default now (last nows))
    by (rewrite last_cons; by destruct (last nows)).
  rewrite Hlast. destruct (Z.leb_spec (HeartbeatInterval (nd_cfg n)) (now - nd_lastHeartbeat n)) as [Hf|Hf].
  - destruct (IH (set_heartbeat now n) now gap) as (n' & hs & E & Hr' & Hpc & Hg & Hl); [done|cbn; lia|done|].
    rewrite E. eexists n', _. split; [done|]. split; [done|]. cbn in *. split_and!; try done; try lia. by constructor.
  - destruct (IH n now gap) as (n' & hs & E & Hr' & Hpc & Hg & Hl); [done|lia|done|].
    rewrite E. by exists n', hs.
Qed.

(** * Theorems *)

(** C36: a leader's heartbeats keep followers from timing out: when its event loop
    wakes up at least every two heartbeat intervals, consecutive heartbeats are
    at least one interval and less than the smallest election timeout apart,
    all of its term, and at the end of the loop less than one interval has
    passed since the last. *)
Theorem heartbeats_regular n t nows gap :
  nd_role n = Leader → Validate (nd_cfg n) = None →
  0 <= t - nd_lastHeartbeat n < HeartbeatInterval (nd_cfg n) →
  paced 0 (gap + 1) t nows → gap <= 2 * HeartbeatInterval (nd_cfg n) →
  ∃ n' hs, runEventLoop nows n = (n', hs)
    ∧ paced (HeartbeatInterval (nd_cfg n)) (ElectionTimeoutMin (nd_cfg n)) (nd_lastHeartbeat n) (fst <$> hs)
    ∧ Forall (λ h, snd h = GoSendHeartbeats (nd_currentTerm n)) hs
    ∧ default t (last nows) - nd_lastHeartbeat n' < HeartbeatInterval (nd_cfg n).
Proof.
  intros Hr Hv Ht Hp Hg. destruct (event_loop_leader nows n t gap Hr Ht Hp) as (n' & hs & E & _ & Hpc & Hgs & Hl).
  exists n', hs. split_and!; try done. apply Validate_ok in Hv as (_ & _ & _ & Hh & Het).
  clear E Hgs Hl. revert Hpc. generalize (nd_lastHeartbeat n) as u. induction (fst <$> hs) as [|v vs IH]; cbn; [done|].
  intros u [Hu Hvs]. split; [lia|]. by apply IH.
Qed.

(** Wake-ups every 20 ms for 200 ms with the default interval of 50 ms: the
    loop sends at 60, 120 and 180 ms. *)
Lemma heartbeats_regular_witness :
  let n := set_role Leader witness_node in
  let nows := (λ k, k * 20 * Millisecond) <$> [1; 2; 3; 4; 5; 6; 7; 8; 9; 10] in
  ∃ n' hs, runEventLoop nows n = (n', hs) ∧ (fst <$> hs) = [60 * Millisecond; 120 * Millisecond; 180 * Millisecond]
    ∧ paced (50 * Millisecond) (150 * Millisecond) 0 (fst <$> hs).
Proof.
  intros n nows. destruct (heartbeats_regular n 0 nows (20 * Millisecond)) as (n' & hs & E & Hp & _).
  - reflexivity.
  - vm_compute. reflexivity.
  - vm_compute. split; congruence.
  - vm_compute. repeat split; congruence.
  - vm_compute. congruence.
  - exists n', hs. split; [exact E|]. split; [|exact Hp].
    assert (E2 : fst <$> snd (runEventLoop nows n) = [60 * Millisecond; 120 * Millisecond; 180 * Millisecond])
      by (vm_compute; reflexivity).
    rewrite E in E2. exact E2.
Defined.
