(* ===== verification/Election.v ===== *)
(** Leader election of [internal/raft/election.go]: the election timeout, the
    goroutine [startElection] with its per-peer requests and its vote channel,
    and the vote handler. *)

From S2P Require Import Prelude Os Config RaftNode.

(** ** Operations *)

Definition onElectionTimeout (n : Node) : option (Node * list goroutine) :=
  if decide (nd_role n = Leader) then Some (n, []) else
  let n := set_votedFor (nd_id n) (set_term (u64 (nd_currentTerm n + 1)) (set_role Candidate n)) in
  let n := resetElectionTimerLocked (persistStateLocked n) in
  lastIndex ← lastLogIndexLocked n;
  lastTerm ← lastLogTermLocked n;
  Some (n, [GoStartElection (nd_currentTerm n) lastIndex lastTerm]).

(** The state of a running [startElection]: its term, the request it sends,
    the peers whose goroutine has not reported yet, the content of [voteCh],
    the votes counted and whether the loop has returned. *)
Record election := mkElection {
  el_term : Z;
  el_req : RequestVoteRequest;
  el_waiting : list bytes;
  el_voteCh : list bool;
  el_votes : Z;
  el_done : bool;
}.

Definition startElection (n : Node) (term lastLogIndex lastLogTerm : Z) : election :=
  mkElection term (mkVoteReq term (nd_id n) lastLogIndex lastLogTerm) (nd_peers n) [] 1 false.

(** The code after a response carries a higher term: step down. *)
Definition step_down (term : Z) (n : Node) : Node :=
  persistStateLocked (set_votedFor [] (set_role Follower (set_term term n))).

(** The goroutine of peer [pID] after its call returned; [None] is an RPC
    error. It reports on the vote channel. *)
Definition vote_reply (n : Node) (el : election) (pID : bytes) (resp : option RequestVoteResponse)
    : Node * election :=
  let report b := mkElection (el_term el) (el_req el)
    (List.filter (λ p, negb (bool_decide (p = pID))) (el_waiting el))
    (el_voteCh el ++ [b]) (el_votes el) (el_done el) in
  match resp with
  | None => (n, report false)
  | Some resp =>
      if nd_currentTerm n <? rvr_Term resp
      then (resetElectionTimerLocked (step_down (rvr_Term resp) n), report false)
      else (n, report (bool_decide (nd_role n = Candidate) && (nd_currentTerm n =? el_term el)
                       && rvr_VoteGranted resp))
  end.

(** [for _, pID := range n.peerPool.PeerIDs()]: fresh replication state. *)
Definition init_indices (n : Node) (lastIndex : Z) : Node :=
  set_indices
    (foldr (λ p m, <[p := u64 (lastIndex + 1)]> m) (nd_nextIndex n) (nd_peers n))
    (foldr (λ p m, <[p := 0]> m) (nd_matchIndex n) (nd_peers n)) n.

(** The block under the lock once a quorum of votes is counted. *)
Definition become_leader (n : Node) (term now : Z) : option (Node * list goroutine) :=
  if decide (nd_role n = Candidate ∧ nd_currentTerm n = term) then
    lastIndex ← lastLogIndexLocked n;
    let n := init_indices (set_heartbeat now (set_role Leader n)) lastIndex in
    Some (n, [GoSendHeartbeats term])
  else Some (n, []).

(** One iteration of [for range peers]: receive a vote and count it. *)
Definition count_vote (n : Node) (el : election) (now : Z)
    : option (Node * election * list goroutine) :=
  if el_done el then Some (n, el, []) else
  match el_voteCh el with
  | [] => Some (n, el, [])
  | b :: ch =>
      let votes := if b : bool then el_votes el + 1 else el_votes el in
      let el' d := mkElection (el_term el) (el_req el) (el_waiting el) ch votes d in
      if b && (Quorum (nd_cfg n) <=? votes) then
        '(n, gs) ← become_leader n (el_term el) now;
        Some (n, el' true, gs)
      else Some (n, el' false, [])
  end.

(** The comparison of logs in the vote handler. *)
Definition log_up_to_date (req : RequestVoteRequest) (lastTerm lastIndex : Z) : bool :=
  (lastTerm <? rv_LastLogTerm req)
  || ((rv_LastLogTerm req =? lastTerm) && (lastIndex <=? rv_LastLogIndex req)).

Definition HandleRequestVote (n : Node) (req : RequestVoteRequest)
    : option (Node * RequestVoteResponse) :=
  if rv_Term req <? nd_currentTerm n then Some (n, mkVoteResp (nd_currentTerm n) false) else
  let n := if nd_currentTerm n <? rv_Term req then step_down (rv_Term req) n else n in
  let canVote := bool_decide (nd_votedFor n = []) || bool_decide (nd_votedFor n = rv_CandidateId req) in
  lastTerm ← lastLogTermLocked n;
  lastIndex ← lastLogIndexLocked n;
  if canVote && log_up_to_date req lastTerm lastIndex then
    let n := resetElectionTimerLocked (persistStateLocked (set_votedFor (rv_CandidateId req) n)) in
    Some (n, mkVoteResp (nd_currentTerm n) true)
  else Some (n, mkVoteResp (nd_currentTerm n) false).

(** The election timer fires: [time.AfterFunc] runs [onElectionTimeout] and the
    timer has no further timeout pending until it is reset. *)
Definition fire_election_timer (n : Node) : option (Node * list goroutine) :=
  if nd_electionTimer n then onElectionTimeout (set_timer false n) else Some (n, []).

(** ** Specification *)

(** The candidate's log is at least as up to date as a log ending in [e]:
    lexicographic order on (last term, last index). *)
Definition up_to_date (req : RequestVoteRequest) (e : LogEntry) : Prop :=
  le_Term e < rv_LastLogTerm req
  ∨ le_Term e = rv_LastLogTerm req ∧ le_Index e <= rv_LastLogIndex req.

(** The node may vote for the candidate of the request. *)
Definition may_vote (n : Node) (req : RequestVoteRequest) : Prop :=
  nd_currentTerm n < rv_Term req
  ∨ nd_currentTerm n = rv_Term req ∧ (nd_votedFor n = [] ∨ nd_votedFor n = rv_CandidateId req).

(** * Lemmas *)

Lemma log_up_to_date_spec req e :
  log_up_to_date req (le_Term e) (le_Index e) = true ↔ up_to_date req e.
Proof.
  unfold log_up_to_date, up_to_date.
  rewrite orb_true_iff, andb_true_iff, Z.ltb_lt, Z.leb_le, Z.eqb_eq. intuition lia.
Qed.

(** The guard of the vote, after the term of the request was adopted. *)
Lemma can_vote_spec n req :
  nd_currentTerm n <= rv_Term req →
  let n1 := if nd_currentTerm n <? rv_Term req then step_down (rv_Term req) n else n in
  bool_decide (nd_votedFor n1 = []) || bool_decide (nd_votedFor n1 = rv_CandidateId req) = true
    ↔ may_vote n req.
Proof.
  intros Hle. unfold may_vote. cbn zeta. destruct (Z.ltb_spec (nd_currentTerm n) (rv_Term req)); cbn.
  - split; [auto|done].
  - rewrite orb_true_iff, !bool_decide_eq_true. split; [intros; right; split; [lia|done]|].
    intros [?|[_ ?]]; [lia|done].
Qed.

(** The node the handler continues with when the request is not stale. *)
Lemma vote_node1 n req :
  nd_currentTerm n <= rv_Term req →
  let n1 := if nd_currentTerm n <? rv_Term req then step_down (rv_Term req) n else n in
  nd_currentTerm n1 = rv_Term req ∧ nd_log n1 = nd_log n ∧ nd_commitIndex n1 = nd_commitIndex n
  ∧ (persisted n → persisted n1)
  ∧ (nd_currentTerm n = rv_Term req → n1 = n).
Proof.
  intros Hle. cbn zeta. destruct (Z.ltb_spec (nd_currentTerm n) (rv_Term req)); cbn; split_and!; try done; lia.
Qed.

(** The behaviour of the vote handler on every branch. *)
Lemma vote_handler_ok n req e :
  last (nd_log n) = Some e →
  ∃ n' resp, HandleRequestVote n req = Some (n', resp)
    ∧ (rvr_VoteGranted resp = true ↔ may_vote n req ∧ up_to_date req e)
    ∧ nd_currentTerm n' = Z.max (nd_currentTerm n) (rv_Term req) ∧ rvr_Term resp = nd_currentTerm n'
    ∧ nd_log n' = nd_log n ∧ nd_commitIndex n' = nd_commitIndex n
    ∧ (rvr_VoteGranted resp = true → nd_votedFor n' = rv_CandidateId req ∧ persisted n')
    ∧ (persisted n → persisted n')
    ∧ (nd_currentTerm n' = nd_currentTerm n → nd_votedFor n ≠ [] → nd_votedFor n' = nd_votedFor n).
Proof.
  intros He. unfold HandleRequestVote.
  destruct (Z.ltb_spec (rv_Term req) (nd_currentTerm n)) as [Hst|Hle].
  { eexists _, _. split; [done|]. cbn. unfold may_vote. split_and!; done || lia. }
  pose proof (can_vote_spec n req Hle) as Hcv. pose proof (vote_node1 n req Hle) as H1. cbn zeta in *.
  set (n1 := if nd_currentTerm n <? rv_Term req then step_down (rv_Term req) n else n) in *.
  destruct H1 as (Ht & Hl & Hc & Hp & Hsame). unfold lastLogTermLocked, lastLogIndexLocked, last_entry.
  rewrite Hl, He. cbn [fmap option_fmap option_map mbind option_bind].
  pose proof (log_up_to_date_spec req e) as Hud.
  destruct (bool_decide (nd_votedFor n1 = []) || bool_decide (nd_votedFor n1 = rv_CandidateId req)) eqn:Ecv;
    destruct (log_up_to_date req (le_Term e) (le_Index e)); cbn [andb];
    (eexists _, _; split; [done|]); cbn; rewrite ?Ht, ?Hl, ?Hc;
    (split; [clear - Hcv Hud; intuition congruence|]); split_and!; try done; try lia.
  - intros Heq Hv. rewrite Hsame in Ecv by lia. apply orb_true_iff in Ecv as [E|E];
      apply bool_decide_eq_true in E; congruence.
  - intros. by rewrite Hsame by lia.
  - intros. by rewrite Hsame by lia.
  - intros. by rewrite Hsame by lia.
Qed.

(** * Theorems *)

(** C29: the vote handler answers every request, and grants exactly when the
    request is of the current term or a newer one, the node has no other vote
    in that term and the candidate's log is at least as up to date as its own;
    the term never decreases, the log is untouched, a granted vote is on disk
    before the answer, and a vote cast in a term is never changed in that
    term. *)
Theorem vote_handler_spec n req e :
  last (nd_log n) = Some e →
  ∃ n' resp, HandleRequestVote n req = Some (n', resp)
    ∧ (rvr_VoteGranted resp = true ↔ may_vote n req ∧ up_to_date req e)
    ∧ nd_currentTerm n' = Z.max (nd_currentTerm n) (rv_Term req) ∧ rvr_Term resp = nd_currentTerm n'
    ∧ nd_log n' = nd_log n ∧ nd_commitIndex n' = nd_commitIndex n
    ∧ (rvr_VoteGranted resp = true → nd_votedFor n' = rv_CandidateId req ∧ persisted n')
    ∧ (persisted n → persisted n')
    ∧ (nd_currentTerm n' = nd_currentTerm n → nd_votedFor n ≠ [] → nd_votedFor n' = nd_votedFor n).
Proof. apply vote_handler_ok. Qed.

Lemma vote_handler_spec_witness :
  ∃ n' resp, HandleRequestVote witness_node (mkVoteReq 6 (str "n3") 2 5) = Some (n', resp)
    ∧ rvr_VoteGranted resp = true ∧ nd_votedFor n' = str "n3" ∧ persisted n'.
Proof.
  destruct (vote_handler_spec witness_node (mkVoteReq 6 (str "n3") 2 5) (mkLog 2 5 []))
    as (n' & resp & E & Hg & _ & _ & _ & _ & Hv & _ & _); [reflexivity|].
  exists n', resp. split; [exact E|].
  assert (G : rvr_VoteGranted resp = true).
  { apply Hg. split; [left; cbn; lia|right; split; [reflexivity|cbn; lia]]. }
  split; [exact G|]. exact (Hv G).
Defined.

(** A leader can lose its election timer for good: the timer armed before
    it was elected fires while it leads and does nothing, and a vote request of
    a newer term that it does not grant makes it a follower without arming the
    timer again, so no timeout is pending and neither the ticker nor another
    firing starts an election. *)
Theorem election_timer_lost n req e now :
  last (nd_log n) = Some e → nd_role n = Leader → nd_electionTimer n = true →
  nd_currentTerm n < rv_Term req → ¬ up_to_date req e →
  ∃ n1 n2 resp, fire_election_timer n = Some (n1, [])
    ∧ HandleRequestVote n1 req = Some (n2, resp) ∧ rvr_VoteGranted resp = false
    ∧ nd_role n2 = Follower ∧ nd_electionTimer n2 = false
    ∧ fire_election_timer n2 = Some (n2, []) ∧ checkTimers n2 now = (n2, []).
Proof.
  intros He Hr Ht Hlt Hud.
  assert (Efire : fire_election_timer n = Some (set_timer false n, [])).
  { unfold fire_election_timer. rewrite Ht. unfold onElectionTimeout. by rewrite decide_True. }
  eexists _, _, _. split; [exact Efire|]. unfold HandleRequestVote. cbn.
  rewrite (proj2 (Z.ltb_ge _ _)) by lia. rewrite (proj2 (Z.ltb_lt _ _)) by lia.
  unfold lastLogTermLocked, lastLogIndexLocked, last_entry. cbn. rewrite He. cbn.
  destruct (log_up_to_date req (le_Term e) (le_Index e)) eqn:E.
  { by apply log_up_to_date_spec in E. }
  done.
Qed.

Lemma election_timer_lost_witness :
  ∃ n1 n2 resp, fire_election_timer (set_role Leader (set_timer true witness_node)) = Some (n1, [])
    ∧ HandleRequestVote n1 (mkVoteReq 6 (str "n3") 1 5) = Some (n2, resp)
    ∧ nd_role n2 = Follower ∧ nd_electionTimer n2 = false.
Proof.
  destruct (election_timer_lost (set_role Leader (set_timer true witness_node))
              (mkVoteReq 6 (str "n3") 1 5) (mkLog 2 5 []) 0)
    as (n1 & n2 & resp & E1 & E2 & _ & Hr & Ht & _).
  - reflexivity.
  - reflexivity.
  - reflexivity.
  - cbn. lia.
  - unfold up_to_date. cbn. lia.
  - exists n1, n2, resp. split_and!; [exact E1|exact E2|exact Hr|exact Ht].
Defined.
