(* ===== verification/Replication.v ===== *)
(** Log replication of [internal/raft/replication.go]: building and answering
    AppendEntries, the leader's commit rule and the delivery of committed
    entries to the state machine. *)

From S2P Require Import Prelude Os Config RaftNode Election.

(** ** Delivery of committed entries *)

(** [for n.lastApplied < n.commitIndex]; [todo] is the difference. *)
Fixpoint apply_loop (todo : nat) (n : Node) : option Node :=
  match todo with
  | O => Some n
  | S todo =>
      let applied := u64 (nd_lastApplied n + 1) in
      entry ← log_at (nd_log n) applied;
      let msg := command_msg (le_Data entry) (le_Index entry) in
      apply_loop todo (set_applied applied (chan_send_or_spawn (nd_applyCh n) msg) n)
  end.

Definition applyCommittedEntriesLocked (n : Node) : option Node :=
  apply_loop (Z.to_nat (nd_commitIndex n - nd_lastApplied n)) n.

(** ** The leader's commit rule *)

Definition match_index (n : Node) (p : bytes) : Z := default 0 (nd_matchIndex n !! p).
Definition next_index (n : Node) (p : bytes) : Z := default 0 (nd_nextIndex n !! p).

(** [count]: the leader itself and the peers whose match index reaches [N]. *)
Definition match_count (n : Node) (N : Z) : Z :=
  1 + len (List.filter (λ p, N <=? match_index n p) (nd_peers n)).

(** [for N := last; N > commitIndex; N--]; [todo] is [N - commitIndex]. *)
Fixpoint advance_loop (todo : nat) (N : Z) (n : Node) : option Node :=
  match todo with
  | O => Some n
  | S todo =>
      entry ← log_at (nd_log n) N;
      if decide (le_Term entry = nd_currentTerm n) then
        if Quorum (nd_cfg n) <=? match_count n N
        then applyCommittedEntriesLocked (set_commitIndex N n)
        else advance_loop todo (N - 1) n
      else advance_loop todo (N - 1) n
  end.

Definition maybeAdvanceCommitIndexLocked (n : Node) : option Node :=
  lastIndex ← lastLogIndexLocked n;
  advance_loop (Z.to_nat (lastIndex - nd_commitIndex n)) lastIndex n.

(** ** The leader's side *)

Definition replicateToPeers (n : Node) (term : Z) : list bytes :=
  if decide (nd_role n = Leader ∧ nd_currentTerm n = term) then nd_peers n else [].

Definition sendHeartbeats (n : Node) (term : Z) : list bytes := replicateToPeers n term.

(** The first critical section of [replicateToPeer]: the request to send, or
    [Some None] when the node no longer leads the term. *)
Definition replicate_request (n : Node) (peerID : bytes) (term : Z)
    : option (option AppendEntriesRequest) :=
  if decide (nd_role n = Leader ∧ nd_currentTerm n = term) then
    let nextIdx := if decide (next_index n peerID = 0) then 1 else next_index n peerID in
    let prevLogIndex := u64 (nextIdx - 1) in
    prevLogTerm ← (if prevLogIndex <? len (nd_log n)
                   then le_Term <$> log_at (nd_log n) prevLogIndex else Some 0);
    let entries := if nextIdx <? len (nd_log n) then drop (Z.to_nat nextIdx) (nd_log n) else [] in
    Some (Some (mkAppendReq term (nd_id n) prevLogIndex prevLogTerm entries (nd_commitIndex n)))
  else Some None.

(** The second critical section: the response to [entries] sent to [peerID]. *)
Definition append_reply (n : Node) (peerID : bytes) (term : Z) (entries : list LogEntry)
    (resp : AppendEntriesResponse) : option Node :=
  if nd_currentTerm n <? aer_Term resp
  then Some (resetElectionTimerLocked (step_down (aer_Term resp) n)) else
  if decide (nd_role n = Leader ∧ nd_currentTerm n = term) then
    if aer_Success resp then
      match last entries with
      | None => Some n
      | Some e =>
          maybeAdvanceCommitIndexLocked
            (set_indices (<[peerID := u64 (le_Index e + 1)]> (nd_nextIndex n))
               (<[peerID := le_Index e]> (nd_matchIndex n)) n)
      end
    else
      Some (if 1 <? next_index n peerID
            then set_indices (<[peerID := next_index n peerID - 1]> (nd_nextIndex n)) (nd_matchIndex n) n
            else n)
  else Some n.

(** ** The follower's side *)

(** [for i, entry := range req.Entries]; [idx] is the position of the entry. *)
Fixpoint append_entries (log : list LogEntry) (idx : Z) (entries : list LogEntry)
    : option (list LogEntry) :=
  match entries with
  | [] => Some log
  | entry :: entries =>
      log ← (if idx <? len log then
               old ← log_at log idx;
               Some (if decide (le_Term old = le_Term entry) then log
                     else take (Z.to_nat idx) log ++ [entry])
             else Some (log ++ [entry]));
      append_entries log (u64 (idx + 1)) entries
  end.

Definition HandleAppendEntries (n : Node) (req : AppendEntriesRequest)
    : option (Node * AppendEntriesResponse) :=
  let term0 := nd_currentTerm n in
  if ae_Term req <? nd_currentTerm n then Some (n, mkAppendResp term0 false 0) else
  let n := if (nd_currentTerm n <? ae_Term req) || bool_decide (nd_role n = Candidate)
           then step_down (ae_Term req) n else n in
  let n := resetElectionTimerLocked n in
  if len (nd_log n) <=? ae_PrevLogIndex req then Some (n, mkAppendResp term0 false 0) else
  prev ← log_at (nd_log n) (ae_PrevLogIndex req);
  if decide (le_Term prev = ae_PrevLogTerm req) then
    log ← append_entries (nd_log n) (u64 (ae_PrevLogIndex req + 1)) (ae_Entries req);
    let n := persistStateLocked (set_log log n) in
    n ← (if nd_commitIndex n <? ae_LeaderCommit req then
           lastNewIndex ← lastLogIndexLocked n;
           applyCommittedEntriesLocked
             (set_commitIndex (if ae_LeaderCommit req <? lastNewIndex
                               then ae_LeaderCommit req else lastNewIndex) n)
         else Some n);
    lastIndex ← lastLogIndexLocked n;
    Some (n, mkAppendResp term0 true lastIndex)
  else
    let n := persistStateLocked (set_log (take (Z.to_nat (ae_PrevLogIndex req)) (nd_log n)) n) in
    Some (n, mkAppendResp term0 false 0).

(** ** Specification *)

(** The messages for the log entries at positions [from+1 .. from+count]. *)
Definition apply_msgs (log : list LogEntry) (from : Z) (count : nat) : list ApplyMsg :=
  (λ e, command_msg (le_Data e) (le_Index e)) <$> take count (drop (Z.to_nat (from + 1)) log).

(** Position [M] may be committed by the leader: an entry of the current term
    that a quorum matches. *)
Definition committable (n : Node) (M : Z) : Prop :=
  ∃ e, nd_log n !! Z.to_nat M = Some e ∧ le_Term e = nd_currentTerm n
    ∧ Quorum (nd_cfg n) <= match_count n M.

(** The number of leading entries with equal terms. *)
Fixpoint match_len (old new : list LogEntry) : nat :=
  match old, new with
  | o :: old, e :: new => if decide (le_Term o = le_Term e) then S (match_len old new) else 0
  | _, _ => 0
  end.

(** The log after a request whose entries start at position [p+1]: unchanged
    when every entry is there already, else cut at the first entry that is
    missing or differs in term, and extended from there. *)
Definition merged_log (log : list LogEntry) (p : nat) (entries : list LogEntry) : list LogEntry :=
  let k := match_len (drop (S p) log) entries in
  if decide (k = length entries) then log else take (S p + k) log ++ drop k entries.

(** * Lemmas *)

(** The delivery loop hands over exactly the entries between the old and the
    new applied index, in log order. *)
Lemma apply_loop_spec todo : ∀ n,
  0 <= nd_lastApplied n → nd_lastApplied n + Z.of_nat todo < len (nd_log n) → len (nd_log n) < 2 ^ 64 →
  apply_loop todo n =
    Some (set_applied (nd_lastApplied n + Z.of_nat todo)
            (foldl chan_send_or_spawn (nd_applyCh n) (apply_msgs (nd_log n) (nd_lastApplied n) todo)) n).
Proof.
  induction todo as [|todo IH]; intros n H0 Hlt Hlen.
  { unfold apply_msgs. cbn. rewrite Z.add_0_r. by destruct n. }
  cbn [apply_loop]. rewrite u64_small by lia. unfold log_at.
  destruct (nd_log n !! Z.to_nat (nd_lastApplied n + 1)) as [e|] eqn:E.
  2: { apply lookup_ge_None in E. unfold len in *. lia. }
  cbn [mbind option_bind]. rewrite IH by (cbn; lia). cbn. f_equal. unfold set_applied at 1. cbn.
  replace (nd_lastApplied n + 1 + Z.of_nat todo) with (nd_lastApplied n + Z.of_nat (S todo)) by lia.
  unfold set_applied. f_equal. unfold apply_msgs.
  rewrite (drop_S _ _ _ E). cbn [take fmap list_fmap foldl].
  by replace (Z.to_nat (nd_lastApplied n + 1 + 1)) with (S (Z.to_nat (nd_lastApplied n + 1))) by lia.
Qed.

Lemma applyCommitted_spec n :
  0 <= nd_lastApplied n <= nd_commitIndex n → nd_commitIndex n < len (nd_log n) →
  len (nd_log n) < 2 ^ 64 →
  applyCommittedEntriesLocked n =
    Some (set_applied (nd_commitIndex n)
            (foldl chan_send_or_spawn (nd_applyCh n)
              (apply_msgs (nd_log n) (nd_lastApplied n) (Z.to_nat (nd_commitIndex n - nd_lastApplied n)))) n).
Proof.
  intros H1 H2 H3. unfold applyCommittedEntriesLocked. rewrite apply_loop_spec by lia.
  do 2 f_equal. lia.
Qed.

(** The commit rule commits the highest committable position above the commit
    index, and nothing when there is none. *)
Lemma advance_loop_spec todo : ∀ N n,
  N = nd_commitIndex n + Z.of_nat todo → 0 <= nd_commitIndex n → N < len (nd_log n) →
  advance_loop todo N n = Some n ∧ (∀ M, nd_commitIndex n < M <= N → ¬ committable n M)
  ∨ ∃ M, nd_commitIndex n < M <= N ∧ committable n M ∧ (∀ M', M < M' <= N → ¬ committable n M')
      ∧ advance_loop todo N n = applyCommittedEntriesLocked (set_commitIndex M n).
Proof.
  induction todo as [|todo IH]; intros N n HN Hc Hlt; [left; split; [done|lia]|]. cbn [advance_loop].
  unfold log_at. destruct (nd_log n !! Z.to_nat N) as [e|] eqn:E.
  2: { apply lookup_ge_None in E. unfold len in *. lia. }
  cbn [mbind option_bind].
  assert (Hrec : ¬ committable n N →
    advance_loop todo (N - 1) n = Some n ∧ (∀ M, nd_commitIndex n < M <= N → ¬ committable n M)
    ∨ ∃ M, nd_commitIndex n < M <= N ∧ committable n M ∧ (∀ M', M < M' <= N → ¬ committable n M')
        ∧ advance_loop todo (N - 1) n = applyCommittedEntriesLocked (set_commitIndex M n)).
  { intros HnN. destruct (IH (N - 1) n) as [[? Hno]|(M & ? & ? & Hno & ?)]; [lia..|left|right].
    - split; [done|]. intros M HM. destruct (decide (M = N)) as [->|]; [done|]. apply Hno. lia.
    - exists M. split_and!; try done; try lia. intros M' HM'.
      destruct (decide (M' = N)) as [->|]; [done|]. apply Hno. lia. }
  case_decide as Ht.
  - destruct (Z.leb_spec (Quorum (nd_cfg n)) (match_count n N)).
    + right. exists N. split_and!; try done; try lia. by exists e.
    + apply Hrec. intros (e' & _ & _ & ?). lia.
  - apply Hrec. intros (e' & E' & ? & _). rewrite E in E'. injection E' as <-. done.
Qed.

(** The loop over the entries of a request computes [merged_log]. *)
Lemma append_entries_spec entries : ∀ log p,
  (p < length log)%nat → Z.of_nat p + len entries + 1 < 2 ^ 64 →
  append_entries log (Z.of_nat (S p)) entries = Some (merged_log log p entries).
Proof.
  induction entries as [|e entries IH]; intros log p Hp Hlt.
  { unfold merged_log. cbn. by destruct (drop (S p) log). }
  rewrite len_cons in Hlt. pose proof (len_nonneg entries). cbn [append_entries].
  rewrite u64_small by lia. replace (Z.of_nat (S p) + 1) with (Z.of_nat (S (S p))) by lia.
  (* appending at the end of the log *)
  assert (Hend : ∀ l, length l = S (S p) → append_entries l (Z.of_nat (S (S p))) entries = Some (l ++ entries)).
  { intros l Hl. rewrite IH by lia. unfold merged_log. rewrite (drop_ge l) by lia. cbn.
    case_decide as D.
    - destruct entries; [by rewrite app_nil_r|done].
    - by rewrite Nat.add_0_r, take_ge by lia. }
  unfold merged_log. destruct (Z.ltb_spec (Z.of_nat (S p)) (len log)) as [Hin|Hout].
  - unfold log_at. rewrite Nat2Z.id. destruct (log !! S p) as [old|] eqn:Eo.
    2: { apply lookup_ge_None in Eo. unfold len in Hin. lia. }
    cbn [mbind option_bind]. rewrite (drop_S _ _ _ Eo). cbn [match_len].
    case_decide as Ht; cbn [mbind option_bind].
    + rewrite IH by (apply lookup_lt_Some in Eo; lia). unfold merged_log. f_equal. cbn [length drop].
      repeat case_decide; try congruence; try lia. by rewrite <- plus_n_Sm.
    + rewrite decide_False by done. rewrite Hend.
      * f_equal. rewrite Nat.add_0_r. cbn. by rewrite <- app_assoc.
      * rewrite length_app, length_take. apply lookup_lt_Some in Eo. cbn [length]. lia.
  - unfold len in Hout. rewrite (drop_ge log) by lia. cbn [match_len mbind option_bind].
    rewrite decide_False by done. rewrite Hend by (rewrite length_app; cbn; lia).
    rewrite Nat.add_0_r, take_ge by lia. cbn. by rewrite <- app_assoc.
Qed.

(** While the channel has room, sends are buffered in order. *)
Lemma send_all_fits {A} (ms : list A) : ∀ ch,
  (length (ch_buf ch) + length ms ≤ ch_cap ch)%nat →
  foldl chan_send_or_spawn ch ms = mkChan (ch_cap ch) (ch_buf ch ++ ms) (ch_blocked ch).
Proof.
  induction ms as [|m ms IH]; intros [cap buf blk] H; cbn in *; [by rewrite app_nil_r|].
  replace (chan_send_or_spawn (mkChan cap buf blk) m) with (mkChan cap (buf ++ [m]) blk).
  - rewrite IH; cbn; [by rewrite <- app_assoc|]. rewrite length_app. cbn. lia.
  - unfold chan_send_or_spawn. cbn [ch_buf ch_cap ch_blocked].
    by rewrite (proj2 (Nat.ltb_lt (length buf) cap)) by lia.
Qed.

Lemma match_len_le old new : (match_len old new ≤ length new)%nat.
Proof. revert new. induction old as [|o old IH]; intros [|e new]; cbn; try lia. case_decide; [|lia]. specialize (IH new). lia. Qed.

(** A merged log extends the part of the log the request was checked against. *)
Lemma merged_log_prefix log p entries :
  (p < length log)%nat → take (S p) (merged_log log p entries) = take (S p) log.
Proof.
  intros Hp. unfold merged_log. case_decide; [done|].
  rewrite take_app_le by (rewrite length_take; lia). rewrite take_take. f_equal. lia.
Qed.

Lemma merged_log_length log p entries :
  (p < length log)%nat → (S p ≤ length (merged_log log p entries) ≤ max (length log) (S p + length entries))%nat.
Proof.
  intros Hp. unfold merged_log. pose proof (match_len_le (drop (S p) log) entries).
  case_decide; [lia|]. rewrite length_app, length_take, length_drop. lia.
Qed.

(** A node that has only changed its log and its place in a term. *)
Lemma append_node1 n req :
  let n1 := resetElectionTimerLocked
    (if (nd_currentTerm n <? ae_Term req) || bool_decide (nd_role n = Candidate)
     then step_down (ae_Term req) n else n) in
  nd_log n1 = nd_log n ∧ nd_commitIndex n1 = nd_commitIndex n ∧ nd_lastApplied n1 = nd_lastApplied n
  ∧ nd_applyCh n1 = nd_applyCh n
  ∧ (nd_currentTerm n <= ae_Term req → nd_currentTerm n1 = ae_Term req).
Proof.
  cbn zeta. destruct (Z.ltb_spec (nd_currentTerm n) (ae_Term req)); cbn; [done|].
  case_bool_decide; cbn; split_and!; try done; lia.
Qed.

(** [last] of a log whose entries carry their positions. *)
Lemma last_index (l : list LogEntry) e :
  (∀ k x, l !! k = Some x → le_Index x = Z.of_nat k) → last l = Some e → le_Index e = len l - 1.
Proof.
  intros Hi He. rewrite last_lookup in He. rewrite (Hi _ _ He).
  apply lookup_lt_Some in He. unfold len. lia.
Qed.

(** The commit index a request leaves. *)
Definition follower_commit (n : Node) (req : AppendEntriesRequest) (log : list LogEntry) : Z :=
  if nd_commitIndex n <? ae_LeaderCommit req
  then Z.min (ae_LeaderCommit req) (len log - 1) else nd_commitIndex n.

(** * Theorems *)

(** C31: the leader's commit rule never fails and commits the highest position
    above the commit index that holds an entry of the current term matched by a
    quorum, delivering the newly committed entries in log order; when there is
    no such position it changes nothing. Entries of earlier terms are never
    committed by counting. *)
Theorem commit_rule_highest n e :
  last (nd_log n) = Some e → le_Index e = len (nd_log n) - 1 → len (nd_log n) < 2 ^ 64 →
  0 <= nd_lastApplied n <= nd_commitIndex n → nd_commitIndex n < len (nd_log n) →
  maybeAdvanceCommitIndexLocked n = Some n ∧ (∀ M, nd_commitIndex n < M → ¬ committable n M)
  ∨ ∃ M, nd_commitIndex n < M ∧ committable n M ∧ (∀ M', M < M' → ¬ committable n M')
      ∧ maybeAdvanceCommitIndexLocked n =
          Some (set_applied M
                 (foldl chan_send_or_spawn (nd_applyCh n)
                    (apply_msgs (nd_log n) (nd_lastApplied n) (Z.to_nat (M - nd_lastApplied n))))
                 (set_commitIndex M n)).
Proof.
  intros He Hi Hlen Hap Hc.
  assert (Hout : ∀ M, len (nd_log n) - 1 < M → ¬ committable n M).
  { intros M HM (x & Hx & _). apply lookup_lt_Some in Hx. unfold len in HM. lia. }
  unfold maybeAdvanceCommitIndexLocked, lastLogIndexLocked, last_entry. rewrite He. cbn. rewrite Hi.
  destruct (advance_loop_spec (Z.to_nat (len (nd_log n) - 1 - nd_commitIndex n)) (len (nd_log n) - 1) n)
    as [[E Hno]|(M & HM & Hcm & Hno & E)]; [lia..|left|right].
  - split; [exact E|]. intros M HM. destruct (Z.le_gt_cases M (len (nd_log n) - 1)); [by apply Hno|].
    apply Hout. lia.
  - exists M. split; [lia|]. split; [done|]. split.
    + intros M' HM'. destruct (Z.le_gt_cases M' (len (nd_log n) - 1)); [by apply Hno|]. apply Hout. lia.
    + rewrite E. apply applyCommitted_spec; cbn; lia.
Qed.

Lemma commit_rule_highest_witness :
  let n := set_indices ∅ {[str "n3" := 2]} (set_role Leader witness_node) in
  ∃ M, maybeAdvanceCommitIndexLocked n = Some (set_applied M
         (foldl chan_send_or_spawn (nd_applyCh n) (apply_msgs (nd_log n) 1 (Z.to_nat (M - 1))))
         (set_commitIndex M n)) ∧ committable n M.
Proof.
  destruct (commit_rule_highest (set_indices ∅ {[str "n3" := 2]} (set_role Leader witness_node))
              (mkLog 2 5 [])) as [[_ Hno]|(M & _ & Hc & _ & E)].
  - reflexivity.
  - reflexivity.
  - vm_compute. reflexivity.
  - cbn. lia.
  - vm_compute. reflexivity.
  - exfalso. apply (Hno 2); [cbn; lia|]. exists (mkLog 2 5 []).
    split; [reflexivity|]. split; [reflexivity|]. vm_compute. congruence.
  - exists M. split; [exact E|exact Hc].
Defined.

(** C30: a request of the current or a newer term whose previous entry matches is
    accepted: the log becomes the merge of the old log and the entries (nothing
    is cut when all entries are there already), it is on disk before the answer,
    the commit index follows the leader's without passing the end of the log,
    and the newly committed entries are delivered in log order. *)
Theorem append_handler_accepts n req prev :
  nd_currentTerm n <= ae_Term req → 0 <= ae_PrevLogIndex req →
  nd_log n !! Z.to_nat (ae_PrevLogIndex req) = Some prev → le_Term prev = ae_PrevLogTerm req →
  let log := merged_log (nd_log n) (Z.to_nat (ae_PrevLogIndex req)) (ae_Entries req) in
  let commit := follower_commit n req log in
  ae_PrevLogIndex req + len (ae_Entries req) + 1 < 2 ^ 64 → len log < 2 ^ 64 →
  (∀ k x, log !! k = Some x → le_Index x = Z.of_nat k) →
  0 <= nd_lastApplied n → nd_lastApplied n = nd_commitIndex n → nd_commitIndex n < len log →
  ∃ n' resp, HandleAppendEntries n req = Some (n', resp)
    ∧ aer_Success resp = true ∧ aer_MatchIndex resp = len log - 1
    ∧ nd_currentTerm n' = ae_Term req ∧ nd_log n' = log ∧ persisted n'
    ∧ nd_commitIndex n' = commit ∧ nd_lastApplied n' = commit ∧ nd_commitIndex n <= commit < len log
    ∧ nd_applyCh n' = foldl chan_send_or_spawn (nd_applyCh n)
        (apply_msgs log (nd_lastApplied n) (Z.to_nat (commit - nd_lastApplied n))).
Proof.
  intros Ht Hp0 Hprev Hpt log commit Hlt Hlen Hidx Ha0 Hac Hcl. unfold HandleAppendEntries.
  rewrite (proj2 (Z.ltb_ge _ _)) by lia. pose proof (append_node1 n req) as H1. cbn zeta in *.
  set (n1 := resetElectionTimerLocked _) in *. destruct H1 as (Hl & Hc & Ha & Hch & Ht1).
  clearbody n1. rewrite Hl. pose proof (lookup_lt_Some _ _ _ Hprev) as Hplt.
  rewrite (proj2 (Z.leb_gt _ _)) by (unfold len; lia). unfold log_at. rewrite Hprev. cbn [mbind option_bind].
  rewrite decide_True by done. rewrite u64_small by (pose proof (len_nonneg (ae_Entries req)); lia).
  replace (ae_PrevLogIndex req + 1) with (Z.of_nat (S (Z.to_nat (ae_PrevLogIndex req)))) by lia.
  rewrite append_entries_spec by lia. fold log. cbn [mbind option_bind].
  destruct (last log) as [e|] eqn:He.
  2: { apply last_None in He. rewrite He in Hcl. unfold len in Hcl. cbn in Hcl. lia. }
  pose proof (last_index _ _ Hidx He) as Hei. specialize (Ht1 Ht).
  unfold lastLogIndexLocked, last_entry, commit, follower_commit. cbn. rewrite Hc.
  destruct (Z.ltb_spec (nd_commitIndex n) (ae_LeaderCommit req)) as [Hadv|Hst].
  - rewrite He. cbn. rewrite Hei, applyCommitted_spec; cbn; try lia;
      [|destruct (Z.ltb_spec (ae_LeaderCommit req) (len log - 1)); lia..].
    rewrite He. cbn. rewrite Hei, Hch, Ha.
    replace (if ae_LeaderCommit req <? len log - 1 then ae_LeaderCommit req else len log - 1)
      with (Z.min (ae_LeaderCommit req) (len log - 1)) by (destruct (Z.ltb_spec (ae_LeaderCommit req) (len log - 1)); lia).
    eexists _, _. split; [done|]. cbn. split_and!; try done; lia.
  - cbn. rewrite He. cbn. rewrite Hei. eexists _, _. split; [done|]. cbn.
    rewrite Hc, Ha, Hch, Hac, Z.sub_diag. split_and!; try done; lia.
Qed.

Lemma append_handler_accepts_witness :
  let req := mkAppendReq 6 (str "n2") 1 4 [mkLog 2 6 (str "y"); mkLog 3 6 (str "z")] 2 in
  ∃ n' resp, HandleAppendEntries witness_node req = Some (n', resp) ∧ aer_MatchIndex resp = 3
    ∧ nd_log n' = [mkLog 0 0 []; mkLog 1 4 (str "x"); mkLog 2 6 (str "y"); mkLog 3 6 (str "z")]
    ∧ nd_commitIndex n' = 2 ∧ ch_buf (nd_applyCh n') = [command_msg (str "y") 2].
Proof.
  destruct (append_handler_accepts witness_node
    (mkAppendReq 6 (str "n2") 1 4 [mkLog 2 6 (str "y"); mkLog 3 6 (str "z")] 2) (mkLog 1 4 (str "x")))
    as (n' & resp & E & _ & Hm & _ & Hl & _ & Hc & _ & _ & Hch).
  - cbn. lia.
  - cbn. lia.
  - reflexivity.
  - reflexivity.
  - vm_compute. reflexivity.
  - vm_compute. reflexivity.
  - intros [|[|[|[|k]]]] x Hx; vm_compute in Hx; (injection Hx as <- || discriminate Hx); reflexivity.
  - cbn. lia.
  - reflexivity.
  - vm_compute. reflexivity.
  - exists n', resp. split_and!; [exact E|exact Hm|exact Hl|exact Hc|rewrite Hch; reflexivity].
Defined.
