(* ===== verification/Cluster.v ===== *)
(** A cluster of Raft nodes as a step relation. Each rule is one critical
    section of the source (a handler or a part of a goroutine that runs under
    the node's mutex) applied to one node; messages stay in the network once
    sent, so they can be lost, delayed, reordered and delivered again; nodes
    restart from their disks at any time. The ghost state records what the
    safety proof refers to (votes, elections, the logs of leaders,
    acknowledgements); no rule reads it. *)

From S2P Require Import Prelude Os Config RaftNode Election Replication.

(** ** State *)

Inductive packet :=
| PVoteReq (dst : bytes) (req : RequestVoteRequest)
| PVoteResp (src : bytes) (req : RequestVoteRequest) (resp : RequestVoteResponse)
| PAppendReq (dst : bytes) (req : AppendEntriesRequest)
| PAppendResp (src : bytes) (req : AppendEntriesRequest) (resp : AppendEntriesResponse).

(** The nodes, the running [startElection] goroutines by node and term, and
    the messages sent so far. *)
Record cluster := mkCluster {
  c_nodes : gmap bytes Node;
  c_elections : gmap (bytes * Z) election;
  c_net : list packet;
}.

Definition upd_node (i : bytes) (n : Node) (c : cluster) : cluster :=
  mkCluster (<[i := n]> (c_nodes c)) (c_elections c) (c_net c).
Definition upd_election (i : bytes) (t : Z) (el : election) (c : cluster) : cluster :=
  mkCluster (c_nodes c) (<[(i, t) := el]> (c_elections c)) (c_net c).
Definition send (ps : list packet) (c : cluster) : cluster :=
  mkCluster (c_nodes c) (c_elections c) (c_net c ++ ps).

(** The goroutines of an election timeout: [startElection] runs, its request
    goes to every peer. Heartbeat and replication goroutines need no state:
    [step_send] lets a leader send at any time. *)
Definition spawn (i : bytes) (n : Node) (gs : list goroutine) (c : cluster) : cluster :=
  match gs with
  | [GoStartElection term lastIndex lastTerm] =>
      let el := startElection n term lastIndex lastTerm in
      send ((λ p, PVoteReq p (el_req el)) <$> nd_peers n) (upd_election i term el c)
  | _ => c
  end.

(** A crash ends the goroutines of the node. *)
Definition drop_elections (i : bytes) (c : cluster) : cluster :=
  mkCluster (c_nodes c) (filter (λ p, fst (fst p) ≠ i) (c_elections c)) (c_net c).

(** ** Steps *)

Inductive event :=
| EvTimeout (i : bytes)
| EvVoteReq (j : bytes) (req : RequestVoteRequest) (resp : RequestVoteResponse)
| EvVoteReply (i : bytes) (t : Z) (p : bytes)
| EvCount (i : bytes) (t : Z)
| EvSend (i p : bytes)
| EvAppend (j : bytes) (req : AppendEntriesRequest) (resp : AppendEntriesResponse)
| EvAppendReply (i p : bytes)
| EvPropose (i : bytes)
| EvTick (i : bytes)
| EvReceive (i : bytes)
| EvRestart (i : bytes).

(** Steps of the protocol itself: neither a receive by the state machine nor a
    restart. *)
Definition raft_event (ev : event) : bool :=
  match ev with EvReceive _ | EvRestart _ => false | _ => true end.

Definition is_propose (ev : event) : bool := match ev with EvPropose _ => true | _ => false end.

(** Terms and logs stay in the range of their encodings: a term below
    [2^64 - 1] before an election, fewer than [2^32 - 1] entries before a
    proposal. *)
Inductive step (c : cluster) : event → cluster → Prop :=
| step_timeout i n n' gs :
    c_nodes c !! i = Some n → nd_currentTerm n < 2 ^ 64 - 1 →
    onElectionTimeout n = Some (n', gs) →
    step c (EvTimeout i) (spawn i n' gs (upd_node i n' c))
| step_vote_req j req n n' resp :
    PVoteReq j req ∈ c_net c → c_nodes c !! j = Some n →
    HandleRequestVote n req = Some (n', resp) →
    step c (EvVoteReq j req resp) (send [PVoteResp j req resp] (upd_node j n' c))
| step_vote_reply i t p n el resp n' el' :
    c_nodes c !! i = Some n → c_elections c !! (i, t) = Some el → p ∈ el_waiting el →
    (∀ r, resp = Some r → PVoteResp p (el_req el) r ∈ c_net c) →
    vote_reply n el p resp = (n', el') →
    step c (EvVoteReply i t p) (upd_election i t el' (upd_node i n' c))
| step_count i t n el now n' el' gs :
    c_nodes c !! i = Some n → c_elections c !! (i, t) = Some el →
    count_vote n el now = Some (n', el', gs) →
    step c (EvCount i t) (upd_election i t el' (upd_node i n' c))
| step_send i p n req :
    c_nodes c !! i = Some n → p ∈ nd_peers n →
    replicate_request n p (nd_currentTerm n) = Some (Some req) →
    step c (EvSend i p) (send [PAppendReq p req] c)
| step_append j req n n' resp :
    PAppendReq j req ∈ c_net c → c_nodes c !! j = Some n →
    HandleAppendEntries n req = Some (n', resp) →
    step c (EvAppend j req resp) (send [PAppendResp j req resp] (upd_node j n' c))
| step_append_reply i p req resp n n' :
    PAppendResp p req resp ∈ c_net c → ae_LeaderId req = i → c_nodes c !! i = Some n →
    append_reply n p (ae_Term req) (ae_Entries req) resp = Some n' →
    step c (EvAppendReply i p) (upd_node i n' c)
| step_propose i data n n' gs r :
    c_nodes c !! i = Some n → len data < 2 ^ 32 → len (nd_log n) < 2 ^ 32 - 1 →
    Propose n data = Some (n', gs, r) →
    step c (EvPropose i) (upd_node i n' c)
| step_tick i now n n' gs :
    c_nodes c !! i = Some n → checkTimers n now = (n', gs) →
    step c (EvTick i) (upd_node i n' c)
| step_receive i n ch :
    c_nodes c !! i = Some n →
    step c (EvReceive i) (upd_node i (set_applied (nd_lastApplied n) ch n) c)
| step_restart i n n' ch :
    c_nodes c !! i = Some n → NewNode (nd_cfg n) (nd_peers n) ch (nd_disk n) = inr n' →
    step c (EvRestart i) (drop_elections i (upd_node i n' c)).

(** ** Configuration and initial states *)

Definition peers_of (ids : list bytes) (i : bytes) : list bytes :=
  List.filter (λ p, negb (bool_decide (p = i))) ids.

(** A consistent deployment: distinct non-empty names, and every node has a
    valid configuration that lists as many peers as there are. *)
Record deployment (ids : list bytes) (cfg_of : bytes → Config) : Prop := {
  dep_nodup : NoDup ids;
  dep_names : ∀ i, i ∈ ids → i ≠ [] ∧ len i < 2 ^ 16;
  dep_cfg : ∀ i, i ∈ ids → Validate (cfg_of i) = None ∧ NodeID (cfg_of i) = i
    ∧ ClusterSize (cfg_of i) = len ids;
}.

Definition dummy : LogEntry := mkLog 0 0 [].

Definition initial_node (ids : list bytes) (cfg_of : bytes → Config) (i : bytes) : Node :=
  mkNd i 0 [] [dummy] 0 0 Follower ∅ ∅ false 0 (cfg_of i) (peers_of ids i) (mkChan 256 [] [])
    (mkDisk None None).

Definition initial (ids : list bytes) (cfg_of : bytes → Config) : cluster :=
  mkCluster (list_to_map ((λ i, (i, initial_node ids cfg_of i)) <$> ids)) ∅ [].

Inductive reachable (ids : list bytes) (cfg_of : bytes → Config) : cluster → Prop :=
| reach_init : reachable ids cfg_of (initial ids cfg_of)
| reach_step c ev c' : reachable ids cfg_of c → step c ev c' → reachable ids cfg_of c'.

(** ** Ghost state *)

(** A won election: the leader, the nodes whose votes it counted and its log
    at that moment. *)
Record won := mkWon {
  won_leader : bytes;
  won_voters : list bytes;
  won_log : list LogEntry;
}.

Record ghost := mkGhost {
  g_votes : list (bytes * Z * bytes);         (* voter, term, candidate *)
  g_clog : gmap (bytes * Z) (list LogEntry);  (* candidate's log at its timeout *)
  g_won : gmap Z won;                         (* elections by term *)
  g_llog : gmap Z (list LogEntry);            (* the log of the leader of a term *)
  g_acks : list (bytes * Z * nat);            (* node, leader's term, log position *)
}.

Definition ghost_init : ghost := mkGhost [] ∅ ∅ {[0 := [dummy]]} [].
