(* ===== verification/ClusterInv.v ===== *)
(** The invariant behind the safety of the cluster: every log is, up to each of
    its entries, a prefix of the log of the leader of that entry's term;
    elections are won by quorums that voted for nobody else; acknowledged
    entries stay in the logs that acknowledged them unless a later leader does
    not have them; commit indices are covered by acknowledged entries. *)

From S2P Require Import Prelude Os Config RaftNode Election Replication Cluster.

(** ** Logs *)

Record wf_log (l : list LogEntry) : Prop := {
  wl_head : l !! 0%nat = Some dummy;
  wl_index : ∀ k e, l !! k = Some e → le_Index e = Z.of_nat k;
  wl_terms : ∀ k k' e e', l !! k = Some e → l !! k' = Some e' → (k ≤ k')%nat → le_Term e <= le_Term e';
  wl_fits : Forall entry_fits l;
  wl_len : len l < 2 ^ 32;
}.

(** The two logs agree up to position [k]. *)
Definition agree (k : nat) (l l' : list LogEntry) : Prop := take (S k) l = take (S k) l'.

#[global] Instance agree_dec k l l' : Decision (agree k l l').
Proof. unfold agree. apply _. Defined.

(** Terms of a log. *)
Definition below (t : Z) (l : list LogEntry) : Prop := ∀ k e, l !! k = Some e → le_Term e <= t.
Definition strictly_below (t : Z) (l : list LogEntry) : Prop := ∀ k e, l !! k = Some e → le_Term e < t.

(** Every entry comes, with all that precedes it, from the leader of its term. *)
Definition in_history (g : ghost) (l : list LogEntry) : Prop :=
  ∀ k e, l !! k = Some e → ∃ ll, g_llog g !! le_Term e = Some ll ∧ agree k l ll.

(** A leader between [t] and [T] was elected without the entries of term [t]
    up to [k]. *)
Definition overtaken (g : ghost) (t : Z) (k : nat) (T : Z) : Prop :=
  ∃ t2 w ll, t < t2 <= T ∧ g_won g !! t2 = Some w ∧ g_llog g !! t = Some ll
    ∧ (k < length ll)%nat ∧ ¬ agree k (won_log w) ll.

(** A log [l] at term [T] keeps what was acknowledged to the leader of [t] up
    to position [m], unless overtaken. *)
Definition ack_kept (g : ghost) (l : list LogEntry) (T t : Z) (m : nat) : Prop :=
  ∀ k ll e, (k ≤ m)%nat → g_llog g !! t = Some ll → ll !! k = Some e → le_Term e = t →
    agree k l ll ∨ overtaken g t k T.

(** ** The extension order on ghost states *)

Record gle (g g' : ghost) : Prop := {
  gle_votes : ∀ v, v ∈ g_votes g → v ∈ g_votes g';
  gle_clog : g_clog g ⊆ g_clog g';
  gle_won : g_won g ⊆ g_won g';
  gle_llog : ∀ T ll, g_llog g !! T = Some ll → ∃ ext, g_llog g' !! T = Some (ll ++ ext);
  gle_acks : ∀ a, a ∈ g_acks g → a ∈ g_acks g';
}.

Section Invariant.
Context (ids : list bytes) (cfg_of : bytes → Config).

Definition majority (Q : list bytes) : Prop :=
  NoDup Q ∧ (∀ j, j ∈ Q → j ∈ ids) ∧ len ids < 2 * len Q.

(** The entry of term [t] at position [k] is acknowledged by a majority. *)
Definition committed (g : ghost) (t : Z) (k : nat) : Prop :=
  ∃ ll e Q, g_llog g !! t = Some ll ∧ ll !! k = Some e ∧ le_Term e = t ∧ majority Q
    ∧ ∀ j, j ∈ Q → ∃ m, (k ≤ m)%nat ∧ (j, t, m) ∈ g_acks g.

(** A log at term [T] is committed up to index [c]. *)
Definition commit_ok (g : ghost) (l : list LogEntry) (T c : Z) : Prop :=
  0 <= c ∧ (c = 0 ∨ ∃ t k ll, committed g t k ∧ t <= T ∧ c <= Z.of_nat k
    ∧ g_llog g !! t = Some ll ∧ agree (Z.to_nat c) l ll).

(** A restart gives back term, vote and log. *)
Definition recovers (n : Node) : Prop :=
  ∀ ch, NewNode (nd_cfg n) (nd_peers n) ch (nd_disk n) =
    inr (mkNd (nd_id n) (nd_currentTerm n) (nd_votedFor n) (nd_log n) 0 0 Follower ∅ ∅ false 0
           (nd_cfg n) (nd_peers n) ch (nd_disk n)).

(** ** Nodes *)

Record node_ok (g : ghost) (i : bytes) (n : Node) : Prop := {
  no_member : i ∈ ids;
  no_id : nd_id n = i;
  no_cfg : nd_cfg n = cfg_of i;
  no_peers : nd_peers n = peers_of ids i;
  no_term : 0 <= nd_currentTerm n < 2 ^ 64;
  no_vote : nd_votedFor n = [] ∨ nd_votedFor n ∈ ids;
  no_recovers : recovers n;
  no_wf : wf_log (nd_log n);
  no_hist : in_history g (nd_log n);
  no_below : below (nd_currentTerm n) (nd_log n);
  no_votes : ∀ T c, (i, T, c) ∈ g_votes g → T <= nd_currentTerm n
    ∧ (T = nd_currentTerm n → g_won g !! T = None → nd_votedFor n = c);
  no_won : ∀ T w, g_won g !! T = Some w → i ∈ won_voters w → T <= nd_currentTerm n
    ∧ (T = nd_currentTerm n → nd_votedFor n = won_leader w ∧ nd_role n ≠ Candidate);
  no_cand : nd_role n = Candidate → nd_votedFor n = i ∧ (i, nd_currentTerm n, i) ∈ g_votes g
    ∧ g_clog g !! (i, nd_currentTerm n) = Some (nd_log n);
  no_lead : nd_role n = Leader → ∃ w, g_won g !! nd_currentTerm n = Some w ∧ won_leader w = i
    ∧ g_llog g !! nd_currentTerm n = Some (nd_log n);
  no_next : nd_role n = Leader → ∀ p, p ∈ nd_peers n → 1 <= next_index n p <= len (nd_log n);
  no_match : nd_role n = Leader → ∀ p, p ∈ nd_peers n →
    match_index n p = 0 ∨ 0 < match_index n p
      ∧ (p, nd_currentTerm n, Z.to_nat (match_index n p)) ∈ g_acks g;
  no_self : nd_role n = Leader → ∀ k e, nd_log n !! k = Some e → le_Term e = nd_currentTerm n →
    (i, nd_currentTerm n, k) ∈ g_acks g;
  no_clog : ∀ T l, g_clog g !! (i, T) = Some l → T <= nd_currentTerm n;
  no_acks : ∀ t m, (i, t, m) ∈ g_acks g → t <= nd_currentTerm n
    ∧ ack_kept g (nd_log n) (nd_currentTerm n) t m;
  no_commit : commit_ok g (nd_log n) (nd_currentTerm n) (nd_commitIndex n);
  no_applied : 0 <= nd_lastApplied n <= nd_commitIndex n;
}.

(** ** Ghost state *)

(** The log [l] of a candidate of [T] (or of its leader) against what voter [j]
    acknowledged; overtaken before [B]. *)
Definition vote_covers (g : ghost) (j : bytes) (T B : Z) (l : list LogEntry) : Prop :=
  ∀ t m k ll e, (j, t, m) ∈ g_acks g → t < T → (k ≤ m)%nat → g_llog g !! t = Some ll →
    ll !! k = Some e → le_Term e = t → agree k l ll ∨ overtaken g t k B.

Record won_ok (g : ghost) (T : Z) (w : won) : Prop := {
  wo_pos : 0 < T < 2 ^ 64;
  wo_major : majority (won_voters w);
  wo_leader : won_leader w ∈ won_voters w;
  wo_only : ∀ j c, j ∈ won_voters w → (j, T, c) ∈ g_votes g → c = won_leader w;
  wo_wf : wf_log (won_log w);
  wo_below : strictly_below T (won_log w);
  wo_ext : ∃ ext, g_llog g !! T = Some (won_log w ++ ext) ∧ Forall (λ e, le_Term e = T) ext;
  wo_past : ∀ j, j ∈ won_voters w → vote_covers g j T (T - 1) (won_log w);
  wo_self : (won_leader w, T, won_leader w) ∈ g_votes g;
}.

Record ghost_ok (g : ghost) : Prop := {
  go_zero : g_llog g !! 0 = Some [dummy];
  go_won : ∀ T w, g_won g !! T = Some w → won_ok g T w;
  go_llog : ∀ T ll, g_llog g !! T = Some ll →
    wf_log ll ∧ in_history g ll ∧ below T ll ∧ (T = 0 ∨ is_Some (g_won g !! T));
  go_unique : ∀ j T c c', g_won g !! T = None → (j, T, c) ∈ g_votes g → (j, T, c') ∈ g_votes g → c = c';
  go_votes : ∀ j T c, (j, T, c) ∈ g_votes g → j ∈ ids ∧ c ∈ ids ∧ 0 < T
    ∧ ∃ lc, g_clog g !! (c, T) = Some lc ∧ vote_covers g j T T lc;
  go_clog : ∀ c T l, g_clog g !! (c, T) = Some l →
    wf_log l ∧ in_history g l ∧ strictly_below T l ∧ c ∈ ids ∧ 0 < T < 2 ^ 64;
  go_acks : ∀ j t m, (j, t, m) ∈ g_acks g → j ∈ ids ∧ ∃ ll, g_llog g !! t = Some ll ∧ (m < length ll)%nat;
}.

(** ** Messages *)

(** An AppendEntries request of term [T] carries a piece of the leader's log,
    up to its end when it was sent. *)
Definition append_ok (g : ghost) (req : AppendEntriesRequest) : Prop :=
  0 < ae_Term req < 2 ^ 64
  ∧ ∃ w ll p e, g_won g !! ae_Term req = Some w ∧ won_leader w = ae_LeaderId req
    ∧ g_llog g !! ae_Term req = Some ll ∧ ae_PrevLogIndex req = Z.of_nat p
    ∧ ll !! p = Some e ∧ le_Term e = ae_PrevLogTerm req
    ∧ ae_Entries req `prefix_of` drop (S p) ll
    ∧ commit_ok g ll (ae_Term req) (ae_LeaderCommit req)
    ∧ ae_LeaderCommit req <= Z.of_nat p + len (ae_Entries req).

Definition packet_ok (g : ghost) (pk : packet) : Prop :=
  match pk with
  | PVoteReq dst req =>
      dst ∈ ids ∧ ∃ lc e, g_clog g !! (rv_CandidateId req, rv_Term req) = Some lc
        ∧ last lc = Some e ∧ rv_LastLogIndex req = le_Index e ∧ rv_LastLogTerm req = le_Term e
  | PVoteResp src req resp =>
      0 <= rvr_Term resp < 2 ^ 64
      ∧ (rvr_VoteGranted resp = true → (src, rv_Term req, rv_CandidateId req) ∈ g_votes g)
  | PAppendReq dst req => dst ∈ ids ∧ dst ≠ ae_LeaderId req ∧ append_ok g req
  | PAppendResp src req resp =>
      src ∈ ids ∧ src ≠ ae_LeaderId req ∧ append_ok g req ∧ 0 <= aer_Term resp < 2 ^ 64
      ∧ (aer_Success resp = true →
         (src, ae_Term req, Z.to_nat (ae_PrevLogIndex req + len (ae_Entries req))) ∈ g_acks g)
  end.

(** ** Running elections *)

Definition count_true (l : list bool) : Z := len (List.filter id l).

Definition election_ok (g : ghost) (i : bytes) (T : Z) (el : election) : Prop :=
  el_term el = T ∧ rv_Term (el_req el) = T ∧ rv_CandidateId (el_req el) = i
  ∧ ∃ granted, NoDup granted
    ∧ (∀ p, p ∈ granted → p ∈ peers_of ids i ∧ (p ∉ el_waiting el) ∧ (p, T, i) ∈ g_votes g)
    ∧ (∀ p, p ∈ el_waiting el → p ∈ peers_of ids i)
    ∧ el_votes el - 1 + count_true (el_voteCh el) <= len granted.

Record inv (c : cluster) (g : ghost) : Prop := {
  inv_dom : ∀ i, i ∈ ids → is_Some (c_nodes c !! i);
  inv_nodes : ∀ i n, c_nodes c !! i = Some n → node_ok g i n;
  inv_ghost : ghost_ok g;
  inv_net : ∀ pk, pk ∈ c_net c → packet_ok g pk;
  inv_elections : ∀ i T el, c_elections c !! (i, T) = Some el → election_ok g i T el;
}.
End Invariant.
