(* ===== verification/ClusterMono.v ===== *)
(** Lemmas on logs, on the extension of the ghost state and on majorities used
    by the preservation proofs of the cluster invariant. *)

From S2P Require Import Prelude Os Config RaftNode Election Replication Cluster ClusterInv.

(** * Agreement of logs *)

Lemma agree_refl k l : agree k l l.
Proof. done. Qed.

Lemma agree_sym k l l' : agree k l l' → agree k l' l.
Proof. unfold agree. auto. Qed.

Lemma agree_trans k l1 l2 l3 : agree k l1 l2 → agree k l2 l3 → agree k l1 l3.
Proof. unfold agree. congruence. Qed.

Lemma agree_le k k' l l' : agree k l l' → (k' ≤ k)%nat → agree k' l l'.
Proof.
  unfold agree. intros H Hk.
  replace (S k') with (S k' `min` S k)%nat by lia. by rewrite <- !take_take, H.
Qed.

Lemma agree_lookup k k' l l' : agree k l l' → (k' ≤ k)%nat → l !! k' = l' !! k'.
Proof.
  intros H Hk. rewrite <- (lookup_take_lt l (S k)), <- (lookup_take_lt l' (S k)) by lia.
  by rewrite H.
Qed.

Lemma agree_length k l l' : agree k l l' → (k < length l)%nat → (k < length l')%nat.
Proof. intros H%(f_equal length). rewrite !length_take in H. lia. Qed.

Lemma agree_app k l ext : (k < length l)%nat → agree k (l ++ ext) l.
Proof. intros H. unfold agree. rewrite take_app_le by lia. done. Qed.

Lemma agree_take k j l : (k < j)%nat → agree k (take j l) l.
Proof. intros H. unfold agree. rewrite take_take. f_equal. lia. Qed.

Lemma agree_app_r k l ll ext : agree k l ll → (k < length ll)%nat → agree k l (ll ++ ext).
Proof. intros H Hk. eapply agree_trans; [exact H|]. by apply agree_sym, agree_app. Qed.

#[export] Hint Resolve agree_refl agree_sym : granite.

(** Two logs of the same history with the same term at a position agree up to
    it. *)
Lemma history_agree g l1 l2 k e1 e2 :
  in_history g l1 → in_history g l2 → l1 !! k = Some e1 → l2 !! k = Some e2 →
  le_Term e1 = le_Term e2 → agree k l1 l2.
Proof.
  intros H1 H2 E1 E2 Ht. destruct (H1 k e1 E1) as (ll & Hl & Ha).
  destruct (H2 k e2 E2) as (ll' & Hl' & Ha'). rewrite <- Ht, Hl in Hl'. injection Hl' as <-.
  eapply agree_trans; [exact Ha|eauto with granite].
Qed.

Lemma in_history_agree g l l' :
  in_history g l' → (∀ k e, l !! k = Some e → agree k l l') → in_history g l.
Proof.
  intros H' Ha k e E. pose proof (Ha k e E) as Hk.
  destruct (H' k e) as (ll & Hl & Hll); [by rewrite <- (agree_lookup k k l l')|].
  exists ll. split; [done|]. by eapply agree_trans.
Qed.

(** * Well-formed logs *)

Lemma wf_last l : wf_log l → ∃ e, last l = Some e ∧ le_Index e = len l - 1
  ∧ l !! (length l - 1)%nat = Some e.
Proof.
  intros [H0 Hi _ _ _]. destruct (last l) as [e|] eqn:E.
  - rewrite last_lookup in E. rewrite <- Nat.sub_1_r in E. exists e. split; [done|].
    apply lookup_lt_Some in H0. split; [|done]. rewrite (Hi _ _ E). unfold len. lia.
  - apply last_None in E. by subst.
Qed.

Lemma wf_nonempty l : wf_log l → (0 < length l)%nat.
Proof. intros [H0 _ _ _ _]. by apply lookup_lt_Some in H0. Qed.

Lemma wf_take l j : wf_log l → (0 < j)%nat → wf_log (take j l).
Proof.
  intros [H0 Hi Ht Hf Hl] Hj. split.
  - by rewrite lookup_take_lt.
  - intros k e [E _]%lookup_take_Some. eauto.
  - intros k k' e e' [E _]%lookup_take_Some [E' _]%lookup_take_Some. eauto.
  - by apply Forall_take.
  - unfold len in *. rewrite length_take. lia.
Qed.

Lemma wf_dummy : wf_log [dummy].
Proof.
  assert (H : ∀ k e, [dummy] !! k = Some e → k = 0%nat ∧ e = dummy).
  { intros [|k] e E; [by injection E as <-|done]. }
  split; [done| | | |done].
  - by intros k e [-> ->]%H.
  - intros k k' e e' [-> ->]%H [-> ->]%H _. done.
  - repeat constructor; cbn; lia.
Qed.

Lemma wf_snoc l t d :
  wf_log l → below t l → 0 <= t < 2 ^ 64 → len d < 2 ^ 32 → len l < 2 ^ 32 - 1 →
  wf_log (l ++ [mkLog (len l) t d]).
Proof.
  intros [H0 Hi Ht Hf Hl] Hb Htt Hd Hll.
  assert (Hx : ∀ k e, (l ++ [mkLog (len l) t d]) !! k = Some e →
    l !! k = Some e ∨ k = length l ∧ e = mkLog (len l) t d).
  { intros k e [E|[Hk E]]%lookup_app_Some; [by left|right].
    destruct (k - length l)%nat eqn:D; [|done]. injection E as <-. split; [lia|done]. }
  split.
  - by apply lookup_app_l_Some.
  - intros k e [E|[-> ->]]%Hx; [eauto|done].
  - intros k k' e e' [E|[-> ->]]%Hx [E'|[-> ->]]%Hx Hk; cbn; eauto; try lia.
    apply lookup_lt_Some in E'. lia.
  - apply Forall_app. split; [done|]. repeat constructor; cbn; try lia.
    unfold len in *. lia.
  - rewrite len_app. change (len [mkLog (len l) t d]) with 1. lia.
Qed.

(** A well-formed log of one history whose entry at [k] has term [t] and that
    stays below [t] has term [t] from [k] on. *)
Lemma wf_term_between l t k k' e e' :
  wf_log l → below t l → l !! k = Some e → le_Term e = t → (k ≤ k')%nat → l !! k' = Some e' →
  le_Term e' = t.
Proof.
  intros Hwf Hb E Et Hk E'. pose proof (wl_terms _ Hwf _ _ _ _ E E' Hk). pose proof (Hb _ _ E'). lia.
Qed.

(** * Majorities *)

Lemma majorities_meet ids Q1 Q2 :
  majority ids Q1 → majority ids Q2 → ∃ j, j ∈ Q1 ∧ j ∈ Q2.
Proof.
  intros (Hn1 & Hs1 & Hm1) (Hn2 & Hs2 & Hm2).
  destruct (decide (Exists (λ x, x ∈ Q2) Q1)) as [He|He].
  { apply Exists_exists in He as (x & ? & ?). eauto. }
  exfalso. assert (Hnd : NoDup (Q1 ++ Q2)).
  { apply NoDup_app. split_and!; [done| |done]. intros x Hx1 Hx2. apply He, Exists_exists. eauto. }
  assert (Hle : (length (Q1 ++ Q2) ≤ length ids)%nat).
  { apply submseteq_length, NoDup_submseteq; [done|].
    intros x [?|?]%elem_of_app; auto. }
  rewrite length_app in Hle. unfold len in *. lia.
Qed.

(** * The extension order *)

Lemma gle_refl g : gle g g.
Proof. split; auto. intros T ll H. exists []. by rewrite app_nil_r. Qed.

Lemma gle_trans g1 g2 g3 : gle g1 g2 → gle g2 g3 → gle g1 g3.
Proof.
  intros [Hv Hc Hw Hl Ha] [Hv' Hc' Hw' Hl' Ha']. split; auto; try by etrans.
  intros T ll H. destruct (Hl T ll H) as [ext H1]. destruct (Hl' T _ H1) as [ext' H2].
  exists (ext ++ ext'). by rewrite app_assoc.
Qed.

Section Mono.
Context (g g' : ghost) (Hg : gle g g').

Lemma llog_mono t ll k :
  g_llog g !! t = Some ll → (k < length ll)%nat →
  ∃ ll', g_llog g' !! t = Some ll' ∧ agree k ll ll' ∧ (k < length ll')%nat.
Proof using Hg.
  intros H Hk. destruct (gle_llog _ _ Hg _ _ H) as [ext H']. exists (ll ++ ext).
  split; [done|]. split; [by apply agree_sym, agree_app|]. rewrite length_app. lia.
Qed.

Lemma in_history_mono l : in_history g l → in_history g' l.
Proof using Hg.
  intros H k e E. destruct (H k e E) as (ll & Hl & Ha).
  destruct (llog_mono _ _ k Hl) as (ll' & Hl' & Ha' & _).
  - eapply agree_length; [exact Ha|]. by apply lookup_lt_Some in E.
  - exists ll'. split; [done|]. by eapply agree_trans.
Qed.

Lemma overtaken_mono t k T T' : overtaken g t k T → T <= T' → overtaken g' t k T'.
Proof using Hg.
  intros (t2 & w & ll & Ht & Hw & Hl & Hk & Hn) HT.
  destruct (llog_mono _ _ k Hl Hk) as (ll' & Hl' & Ha & Hk').
  exists t2, w, ll'. split_and!; try done; try lia.
  - eapply lookup_weaken; [exact Hw|]. apply (gle_won _ _ Hg).
  - intros Ha'. apply Hn. eapply agree_trans; [exact Ha'|]. eauto with granite.
Qed.

(** Facts about the leader's log at positions below an acknowledged one. *)
Lemma llog_back t ll ll' k e :
  g_llog g !! t = Some ll → g_llog g' !! t = Some ll' → (k < length ll)%nat → ll' !! k = Some e →
  ll !! k = Some e ∧ agree k ll ll'.
Proof using Hg.
  intros H H' Hk E. destruct (gle_llog _ _ Hg _ _ H) as [ext H2]. rewrite H' in H2.
  injection H2 as ->. rewrite lookup_app_l in E by done. split; [done|].
  by apply agree_sym, agree_app.
Qed.

Lemma ack_kept_mono l T T' t m ll :
  g_llog g !! t = Some ll → (m < length ll)%nat → T <= T' →
  ack_kept g l T t m → ack_kept g' l T' t m.
Proof using Hg.
  intros Hll Hm HT H k ll' e Hk Hl' E Et.
  destruct (llog_back t ll ll' k e Hll Hl' ltac:(lia) E) as [E0 Ha].
  destruct (H k ll e Hk Hll E0 Et) as [Hag|Ho].
  - left. by eapply agree_trans.
  - right. by eapply overtaken_mono.
Qed.

Lemma committed_mono ids t k : committed ids g t k → committed ids g' t k.
Proof using Hg.
  intros (ll & e & Q & Hl & E & Et & Hq & Ha).
  destruct (gle_llog _ _ Hg _ _ Hl) as [ext Hl'].
  exists (ll ++ ext), e, Q. split_and!; try done.
  - by apply lookup_app_l_Some.
  - intros j Hj. destruct (Ha j Hj) as (m & ? & ?). exists m. split; [done|]. by apply (gle_acks _ _ Hg).
Qed.

Lemma commit_ok_mono ids l T T' c : commit_ok ids g l T c → T <= T' → commit_ok ids g' l T' c.
Proof using Hg.
  intros [Hc [->|(t & k & ll & Hcm & Ht & Hk & Hl & Ha)]] HT; split; auto. right.
  assert (Hlen : (Z.to_nat c < length ll)%nat).
  { destruct Hcm as (ll2 & e & Q & Hl2 & E & _). rewrite Hl in Hl2. injection Hl2 as <-.
    apply lookup_lt_Some in E. lia. }
  destruct (llog_mono _ _ _ Hl Hlen) as (ll' & Hl' & Ha' & _).
  exists t, k, ll'. split_and!; try done; try lia; [by apply committed_mono|].
  by eapply agree_trans.
Qed.
End Mono.

(** * Extending the ghost state *)

Section Extend.
Context (ids : list bytes).
Context (g g' : ghost) (Hg : gle g g') (Hok : ghost_ok ids g).

Lemma vote_covers_mono j T B B' l :
  (∀ t m, (j, t, m) ∈ g_acks g' → t < T → (j, t, m) ∈ g_acks g) → B <= B' →
  vote_covers g j T B l → vote_covers g' j T B' l.
Proof using Hg Hok.
  intros Hacks HB H t m k ll' e Ha Ht Hk Hl' E Et.
  apply Hacks in Ha; [|done]. destruct (go_acks _ _ Hok _ _ _ Ha) as (_ & ll & Hl & Hm).
  destruct (llog_back g g' Hg t ll ll' k e Hl Hl' ltac:(lia) E) as [E0 Hag].
  destruct (H t m k ll e Ha Ht Hk Hl E0 Et) as [?|?].
  - left. by eapply agree_trans.
  - right. by eapply overtaken_mono.
Qed.

(** New leader logs: an extension by entries of the term, or a new leader. *)
Definition llog_step : Prop := ∀ T ll', g_llog g' !! T = Some ll' →
  (∃ ll ext, g_llog g !! T = Some ll ∧ ll' = ll ++ ext ∧ Forall (λ e, le_Term e = T) ext ∧ wf_log ll'
    ∧ (ext ≠ [] → is_Some (g_won g !! T)))
  ∨ (g_llog g !! T = None ∧ wf_log ll' ∧ in_history g' ll' ∧ below T ll' ∧ is_Some (g_won g' !! T)).

Definition won_step : Prop := ∀ T w, g_won g' !! T = Some w →
  g_won g !! T = Some w ∨ g_won g !! T = None ∧ won_ok ids g' T w.

Definition votes_step : Prop := ∀ j T c, (j, T, c) ∈ g_votes g' →
  (j, T, c) ∈ g_votes g
  ∨ j ∈ ids ∧ c ∈ ids ∧ 0 < T ∧ (∃ lc, g_clog g' !! (c, T) = Some lc ∧ vote_covers g' j T T lc)
    ∧ (∀ w, g_won g !! T = Some w → j ∈ won_voters w → c = won_leader w)
    ∧ (g_won g' !! T = None → ∀ c', (j, T, c') ∈ g_votes g' → c' = c).

Definition clog_step : Prop := ∀ c T l, g_clog g' !! (c, T) = Some l →
  g_clog g !! (c, T) = Some l
  ∨ wf_log l ∧ in_history g' l ∧ strictly_below T l ∧ c ∈ ids ∧ 0 < T < 2 ^ 64.

Definition acks_step : Prop := ∀ j t m, (j, t, m) ∈ g_acks g' →
  (j, t, m) ∈ g_acks g
  ∨ j ∈ ids ∧ (∃ ll, g_llog g' !! t = Some ll ∧ (m < length ll)%nat)
    ∧ (∀ T c, (j, T, c) ∈ g_votes g' → T <= t)
    ∧ (∀ T w, g_won g !! T = Some w → j ∈ won_voters w → T <= t).

Lemma won_ok_mono T w :
  llog_step → votes_step → acks_step → g_won g !! T = Some w → won_ok ids g' T w.
Proof using Hg Hok.
  intros HL HV HA Hw. destruct (go_won _ _ Hok T w Hw) as [Hp Hm Hl Ho Hwf Hb (ext & He & Hext) Hpast Hs].
  split; try done.
  - intros j c Hj [Hv|(_ & _ & _ & _ & Hc & _)]%HV; [by apply Ho with j|by apply Hc].
  - destruct (gle_llog _ _ Hg _ _ He) as [ext' He']. exists (ext ++ ext').
    rewrite <- app_assoc in He'. split; [done|]. apply Forall_app. split; [done|].
    destruct (HL _ _ He') as [(ll & x & Hll & Hx & Hf & _ & _)|[Hn _]]; [|congruence].
    rewrite He in Hll. injection Hll as <-. rewrite <- app_assoc in Hx.
    by apply app_inv_head, app_inv_head in Hx as ->.
  - intros j Hj. eapply vote_covers_mono; [|reflexivity|by apply Hpast].
    intros t m [Ha|(_ & _ & _ & Hn)]%HA Ht; [done|]. specialize (Hn T w Hw Hj). lia.
  - by apply (gle_votes _ _ Hg).
Qed.

Lemma ghost_ok_step :
  llog_step → won_step → votes_step → clog_step → acks_step → ghost_ok ids g'.
Proof using Hg Hok.
  intros HL HW HV HC HA. split.
  - destruct (gle_llog _ _ Hg _ _ (go_zero _ _ Hok)) as [ext He].
    destruct (HL _ _ He) as [(ll & x & Hll & Hx & _ & _ & Hs)|[Hn _]];
      [|rewrite (go_zero _ _ Hok) in Hn; done].
    rewrite (go_zero _ _ Hok) in Hll. injection Hll as <-. apply app_inv_head in Hx as <-.
    destruct ext as [|e ext]; [done|]. exfalso.
    destruct Hs as [w Hw]; [done|]. pose proof (wo_pos _ _ _ _ (go_won _ _ Hok _ _ Hw)). lia.
  - intros T w [Hw|[_ ?]]%HW; [|done]. by apply won_ok_mono.
  - intros T ll' Hl'. destruct (HL _ _ Hl') as [(ll & ext & Hl & -> & Hf & Hwf & _)|(Hn & Hwf & Hh & Hb & Hs)];
      [|split_and!; auto].
    destruct (go_llog _ _ Hok _ _ Hl) as (_ & Hh & Hb & Hs). split_and!; [done|..].
    + intros k e E. apply lookup_app_Some in E as [E|[Hk E]].
      * destruct (in_history_mono g g' Hg ll Hh k e E) as (l2 & Hl2 & Ha).
        exists l2. split; [done|]. eapply agree_trans; [|exact Ha]. apply agree_app.
        by apply lookup_lt_Some in E.
      * rewrite Forall_forall in Hf. rewrite (Hf e); [by eexists|]. by eapply list_elem_of_lookup_2.
    + intros k e [E|[_ E]]%lookup_app_Some; [by eapply Hb|]. rewrite Forall_forall in Hf.
      rewrite (Hf e); [done|]. by eapply list_elem_of_lookup_2.
    + destruct Hs as [->|[w Hw]]; [by left|right]. exists w. eapply lookup_weaken; [exact Hw|].
      apply (gle_won _ _ Hg).
  - intros j T c c' Hn Hv Hv'.
    destruct (HV _ _ _ Hv) as [Ho|(_ & _ & _ & _ & _ & Hu)]; [|symmetry; auto].
    destruct (HV _ _ _ Hv') as [Ho'|(_ & _ & _ & _ & _ & Hu)]; [|auto].
    eapply (go_unique _ _ Hok j T); [|done..]. destruct (g_won g !! T) as [w|] eqn:Ew; [|done].
    eapply lookup_weaken in Ew; [|apply (gle_won _ _ Hg)]. congruence.
  - intros j T c [Hv|(Hj & Hc & HT & Hlc & _)]%HV; [|done].
    destruct (go_votes _ _ Hok _ _ _ Hv) as (? & ? & ? & lc & Hlc & Hcov). split_and!; try done.
    exists lc. split; [eapply lookup_weaken; [exact Hlc|apply (gle_clog _ _ Hg)]|].
    eapply vote_covers_mono; [|reflexivity|done].
    intros t m [Ha|(_ & _ & Hn & _)]%HA Ht; [done|].
    specialize (Hn T c (gle_votes _ _ Hg _ Hv)). lia.
  - intros c T l [Hl|?]%HC; [|done]. destruct (go_clog _ _ Hok _ _ _ Hl) as (? & ? & ?).
    split_and!; try tauto. by eapply in_history_mono.
  - intros j t m [Ha|(? & ? & _)]%HA; [|done].
    destruct (go_acks _ _ Hok _ _ _ Ha) as (? & ll & Hl & Hm). split; [done|].
    destruct (llog_mono g g' Hg t ll m Hl Hm) as (ll' & ? & _ & ?). eauto.
Qed.
End Extend.

(** * Committed entries *)

Lemma committed_length ids g t k ll :
  committed ids g t k → g_llog g !! t = Some ll → (k < length ll)%nat.
Proof.
  intros (ll2 & e & Q & Hl2 & E & _) Hl. rewrite Hl in Hl2. injection Hl2 as <-.
  by apply lookup_lt_Some in E.
Qed.

Lemma commit_ok_length ids g l T c : commit_ok ids g l T c → wf_log l → c < len l.
Proof.
  intros [Hc [->|(t & k & ll & Hcm & _ & Hk & Hl & Ha)]] Hwf.
  - pose proof (wf_nonempty l Hwf). unfold len. lia.
  - pose proof (committed_length _ _ _ _ _ Hcm Hl).
    assert (Z.to_nat c < length l)%nat; [|unfold len; lia].
    eapply agree_length; [by apply agree_sym|lia].
Qed.

Lemma commit_ok_log ids g l l' T c :
  commit_ok ids g l T c → agree (Z.to_nat c) l' l → commit_ok ids g l' T c.
Proof.
  intros [Hc [->|(t & k & ll & Hcm & Ht & Hk & Hl & Ha)]] Hag; split; auto. right.
  exists t, k, ll. split_and!; try done. by eapply agree_trans.
Qed.

Lemma commit_ok_le ids g l T c c' : commit_ok ids g l T c → 0 <= c' <= c → commit_ok ids g l T c'.
Proof.
  intros [Hc [->|(t & k & ll & Hcm & Ht & Hk & Hl & Ha)]] Hle.
  { split; [lia|left; lia]. }
  split; [lia|]. right. exists t, k, ll. split_and!; try done; [lia|]. eapply agree_le; [exact Ha|lia].
Qed.

(** Leader completeness: a committed entry is in the log of every later leader
    from its election on. *)
Lemma leader_completeness ids g t k : ∀ T w ll,
  ghost_ok ids g → committed ids g t k → g_won g !! T = Some w → t < T → g_llog g !! t = Some ll →
  agree k (won_log w) ll.
Proof.
  intros T. induction (Z.lt_wf t T) as [T _ IH]. intros w ll Hok Hcm Hw Ht Hl.
  pose proof Hcm as (ll2 & e & Q & Hl2 & E & Et & Hq & Hacks). rewrite Hl in Hl2. injection Hl2 as <-.
  destruct (go_won _ _ Hok T w Hw) as [_ Hm _ _ _ _ _ Hpast _].
  destruct (majorities_meet ids Q (won_voters w) Hq Hm) as (j & HjQ & Hjw).
  destruct (Hacks j HjQ) as (m & Hkm & Ha).
  destruct (Hpast j Hjw t m k ll e Ha Ht Hkm Hl E Et) as [?|(t2 & w2 & ll2 & Ht2 & Hw2 & Hl2 & _ & Hn)];
    [done|].
  rewrite Hl in Hl2. injection Hl2 as <-. exfalso. apply Hn. apply (IH t2); try done; lia.
Qed.

Lemma committed_in_llog ids g t k T ll llT :
  ghost_ok ids g → committed ids g t k → t <= T → g_llog g !! t = Some ll → g_llog g !! T = Some llT →
  agree k llT ll.
Proof.
  intros Hok Hcm Ht Hl HlT. destruct (decide (t = T)) as [->|Hne].
  { rewrite Hl in HlT. by injection HlT as ->. }
  destruct (go_llog _ _ Hok _ _ HlT) as (_ & _ & _ & [->|[w Hw]]).
  { destruct (go_llog _ _ Hok _ _ Hl) as (Hwf & _ & Hb & _).
    pose proof (wl_head _ Hwf) as H0. pose proof (Hb _ _ H0). cbn in *. lia. }
  destruct (wo_ext _ _ _ _ (go_won _ _ Hok _ _ Hw)) as (ext & He & _).
  rewrite HlT in He. injection He as ->.
  pose proof (leader_completeness ids g t k T w ll Hok Hcm Hw ltac:(lia) Hl) as Ha.
  eapply agree_trans; [|exact Ha]. apply agree_app. eapply agree_length; [by apply agree_sym|].
  by eapply committed_length.
Qed.

(** A log committed up to [c] at term [T] agrees up to [c] with the log of the
    leader of any term from [T] on. *)
Lemma commit_ok_llog ids g l T c T' llT :
  ghost_ok ids g → commit_ok ids g l T c → wf_log l → T <= T' → g_llog g !! T' = Some llT →
  agree (Z.to_nat c) llT l.
Proof.
  intros Hok [Hc Hcm] Hwf HT HlT.
  destruct (go_llog _ _ Hok _ _ HlT) as (HwfT & _).
  destruct Hcm as [->|(t & k & ll & Hcm & Ht & Hk & Hl & Ha)].
  - pose proof (wl_head _ Hwf) as H0. pose proof (wl_head _ HwfT) as H0'. cbn.
    destruct l, llT; try done. injection H0 as ->. injection H0' as ->. done.
  - eapply agree_trans; [|by apply agree_sym].
    eapply agree_le; [apply (committed_in_llog ids g t k T' ll llT); try done; lia|lia].
Qed.

(** Two logs agree as far as both are committed. *)
Lemma commit_ok_agree ids g l T c l' T' c' k :
  ghost_ok ids g → wf_log l → wf_log l' → commit_ok ids g l T c → commit_ok ids g l' T' c' →
  Z.of_nat k <= c → Z.of_nat k <= c' → agree k l l'.
Proof.
  intros Hok Hwf Hwf' [H0 Hc] [H0' Hc'] Hk Hk'.
  assert (Hzero : k = 0%nat → agree k l l').
  { intros ->. pose proof (wl_head _ Hwf) as E. pose proof (wl_head _ Hwf') as E'.
    destruct l, l'; try done. injection E as ->. injection E' as ->. done. }
  destruct Hc as [->|(t & m & ll & Hcm & Ht & Hm & Hl & Ha)]; [apply Hzero; lia|].
  destruct Hc' as [->|(t' & m' & ll' & Hcm' & Ht' & Hm' & Hl' & Ha')]; [apply Hzero; lia|].
  eapply agree_trans; [eapply agree_le; [exact Ha|lia]|].
  eapply agree_trans; [|apply agree_sym; eapply agree_le; [exact Ha'|lia]].
  destruct (Z.le_ge_cases t t') as [Hle|Hge].
  - apply agree_sym. apply agree_le with m; [|lia].
    by apply (committed_in_llog ids g t m t' ll ll').
  - apply agree_le with m'; [|lia]. by apply (committed_in_llog ids g t' m' t ll' ll).
Qed.

(** * Monotonicity of the invariant *)

Section NodeMono.
Context (ids : list bytes) (cfg_of : bytes → Config).
Context (g g' : ghost) (Hg : gle g g') (Hok : ghost_ok ids g).

(** What a step may add about node [i] in state [n]. *)
Record node_step (i : bytes) (n : Node) : Prop := {
  ns_votes : ∀ T c, (i, T, c) ∈ g_votes g' → (i, T, c) ∈ g_votes g;
  ns_won : ∀ T w, g_won g' !! T = Some w → i ∈ won_voters w → g_won g !! T = Some w
    ∨ T <= nd_currentTerm n ∧ (T = nd_currentTerm n → nd_votedFor n = won_leader w ∧ nd_role n ≠ Candidate);
  ns_clog : ∀ T l, g_clog g' !! (i, T) = Some l → is_Some (g_clog g !! (i, T));
  ns_acks : ∀ t m, (i, t, m) ∈ g_acks g' → (i, t, m) ∈ g_acks g;
  ns_llog : nd_role n = Leader → g_llog g' !! nd_currentTerm n = g_llog g !! nd_currentTerm n;
}.

Lemma node_ok_mono i n : node_step i n → node_ok ids cfg_of g i n → node_ok ids cfg_of g' i n.
Proof using Hg Hok.
  intros [Hv Hw Hc Ha Hl] []. split; try done.
  - by eapply in_history_mono.
  - intros T c Hin%Hv. destruct (no_votes T c Hin) as [? Hvf]. split; [done|].
    intros HT Hn. apply Hvf; [done|]. destruct (g_won g !! T) as [w|] eqn:Ew; [|done].
    eapply lookup_weaken in Ew; [|apply (gle_won _ _ Hg)]. congruence.
  - intros T w HT Hin. destruct (Hw T w HT Hin) as [?|?]; [|done]. by apply (no_won T w).
  - intros Hr. destruct (no_cand Hr) as (? & ? & ?). split_and!; [done|by apply (gle_votes _ _ Hg)|].
    eapply lookup_weaken; [done|apply (gle_clog _ _ Hg)].
  - intros Hr. destruct (no_lead Hr) as (w & ? & ? & ?). exists w. split_and!; [|done|].
    + eapply lookup_weaken; [done|apply (gle_won _ _ Hg)].
    + by rewrite Hl.
  - intros Hr p Hp. destruct (no_match Hr p Hp) as [?|[? ?]]; [by left|right].
    split; [done|]. by apply (gle_acks _ _ Hg).
  - intros Hr k e E Et. by eapply (gle_acks _ _ Hg), no_self.
  - intros T l [l' Hl']%Hc. by eapply no_clog.
  - intros t m Hin%Ha. destruct (no_acks t m Hin) as [? ?]. split; [done|].
    destruct (go_acks _ _ Hok _ _ _ Hin) as (_ & ll & Hll & Hm).
    eapply (ack_kept_mono g g' Hg _ _ _ _ _ ll); [done|done|reflexivity|done].
  - eapply commit_ok_mono; [done|done|reflexivity].
Qed.

Lemma append_ok_mono req : append_ok ids g req → append_ok ids g' req.
Proof using Hg Hok.
  intros (HT & w & ll & p & e & Hw & Hld & Hl & Hp & E & Et & Hpre & Hc & Hle). split; [done|].
  destruct (gle_llog _ _ Hg _ _ Hl) as [ext Hl'].
  destruct (go_llog _ _ Hok _ _ Hl) as (Hwf & _).
  exists w, (ll ++ ext), p, e. split_and!; try done.
  - eapply lookup_weaken; [done|apply (gle_won _ _ Hg)].
  - by apply lookup_app_l_Some.
  - apply lookup_lt_Some in E. rewrite drop_app_le by lia. by apply prefix_app_r.
  - pose proof (commit_ok_length _ _ _ _ _ Hc Hwf) as Hlen. unfold len in Hlen.
    eapply commit_ok_log; [eapply commit_ok_mono; [done|done|reflexivity]|]. apply agree_app.
    destruct Hc as [? _]. lia.
Qed.

Lemma packet_ok_mono pk : packet_ok ids g pk → packet_ok ids g' pk.
Proof using Hg Hok.
  destruct pk as [dst req|src req resp|dst req|src req resp]; cbn.
  - intros (Hd & lc & e & Hlc & Hrest). split; [done|]. exists lc, e. split; [|done].
    eapply lookup_weaken; [done|apply (gle_clog _ _ Hg)].
  - intros (Ht & Hgr). split; [done|]. intros H. by apply (gle_votes _ _ Hg), Hgr.
  - intros (? & ? & ?). split_and!; [done|done|]. by apply append_ok_mono.
  - intros (? & ? & ? & ? & Hs). split_and!; try done; try lia; [by apply append_ok_mono|].
    intros Hsu. by apply (gle_acks _ _ Hg), Hs.
Qed.

Lemma election_ok_mono i T el : election_ok ids g i T el → election_ok ids g' i T el.
Proof using Hg.
  intros (? & ? & ? & gr & Hnd & Hgr & ? & ?). split_and!; try done. exists gr. split_and!; try done.
  intros p Hp. destruct (Hgr p Hp) as (? & ? & ?). split_and!; try done. by apply (gle_votes _ _ Hg).
Qed.
End NodeMono.
