(* ===== verification/ClusterSteps.v ===== *)
(** Every step of the cluster preserves the invariant. *)

From S2P Require Import Prelude Os Config RaftNode Election Replication.
From S2P Require Import Cluster ClusterInv ClusterMono.

Section Steps.
Context (ids : list bytes) (cfg_of : bytes → Config) (Hdep : deployment ids cfg_of).

Abbreviation node_ok := (node_ok ids cfg_of).
Abbreviation ghost_ok := (ghost_ok ids).
Abbreviation inv := (inv ids cfg_of).

(** A follower of the leader of term [T] replaces its log by one that keeps
    what agrees with the leader's log. *)
Definition keeps (l l' ll : list LogEntry) : Prop :=
  ∀ k, (k < length l)%nat → agree k l ll → agree k l' l.

(** * One node, the ghost state unchanged *)

Lemma persisted_recovers n i :
  i ∈ ids → nd_id n = i → nd_cfg n = cfg_of i → 0 <= nd_currentTerm n < 2 ^ 64 →
  nd_votedFor n = [] ∨ nd_votedFor n ∈ ids → wf_log (nd_log n) → persisted n → recovers n.
Proof using Hdep.
  intros Hi Hid Hcfg Ht Hv Hwf Hp ch. destruct (dep_cfg _ _ Hdep i Hi) as (Hval & Hname & _).
  rewrite (NewNode_persisted (nd_cfg n) (nd_peers n) ch n).
  - by rewrite Hcfg, Hname, Hid.
  - by rewrite Hcfg.
  - split_and!; try lia.
    + destruct Hv as [->|Hv]; [done|]. by apply (dep_names _ _ Hdep).
    + pose proof (wf_nonempty _ Hwf). unfold len. lia.
    + apply Hwf.
    + apply Hwf.
  - done.
Qed.

Lemma ack_kept_later g l T T' t m : ghost_ok g → (∃ j, (j, t, m) ∈ g_acks g) → T <= T' →
  ack_kept g l T t m → ack_kept g l T' t m.
Proof.
  intros Hok [j Hj] HT. destruct (go_acks _ _ Hok _ _ _ Hj) as (_ & ll & Hl & Hm).
  by apply (ack_kept_mono g g (gle_refl g) _ _ _ _ _ ll).
Qed.

(** Moving to a higher term as a follower without a vote. *)
Lemma step_down_ok g i n t :
  ghost_ok g → node_ok g i n → nd_currentTerm n < t < 2 ^ 64 → node_ok g i (step_down t n).
Proof using Hdep.
  intros Hok Hn Ht. pose proof Hn as []. split; cbn; try done; try lia.
  - by left.
  - eapply persisted_recovers; cbn; try done; [lia|by left].
  - intros k e E. specialize (no_below k e E). lia.
  - intros T c Hv. destruct (no_votes T c Hv). split; lia.
  - intros T w Hw Hin. destruct (no_won T w Hw Hin). split; lia.
  - intros T l Hl. specialize (no_clog T l Hl). lia.
  - intros t0 m Ha. destruct (no_acks t0 m Ha) as [? Hk]. split; [lia|].
    eapply ack_kept_later; [done|by exists i| |done]. lia.
  - eapply commit_ok_mono; [apply gle_refl|done|lia].
Qed.

(** A candidate that hears from the leader of its own term. *)
Lemma yield_ok g i n :
  node_ok g i n → nd_role n = Candidate → is_Some (g_won g !! nd_currentTerm n) →
  node_ok g i (step_down (nd_currentTerm n) n).
Proof using Hdep.
  intros Hn Hr [w Hw]. pose proof Hn as []. split; cbn; try done.
  - by left.
  - eapply persisted_recovers; cbn; try done. by left.
  - intros T c Hv. destruct (no_votes T c Hv). split; [done|]. intros -> HN. congruence.
  - intros T w' Hw' Hin. destruct (no_won T w' Hw' Hin) as [? Hc]. split; [done|].
    intros HT. by destruct (Hc HT) as [_ Hc'].
Qed.

(** Timers, heartbeats and the apply channel do not matter. *)
Lemma set_timer_ok g i n b : node_ok g i n → node_ok g i (set_timer b n).
Proof. intros []. by split. Qed.

Lemma set_heartbeat_ok g i n t : node_ok g i n → node_ok g i (set_heartbeat t n).
Proof. intros []. by split. Qed.

Lemma set_channel_ok g i n ch : node_ok g i n → node_ok g i (set_applied (nd_lastApplied n) ch n).
Proof. intros []. by split. Qed.

Lemma relog_ok g i n w ll l' :
  ghost_ok g → node_ok g i n → nd_role n = Follower →
  g_won g !! nd_currentTerm n = Some w → g_llog g !! nd_currentTerm n = Some ll →
  wf_log l' → in_history g l' → below (nd_currentTerm n) l' → keeps (nd_log n) l' ll →
  node_ok g i (persistStateLocked (set_log l' n)).
Proof using Hdep.
  intros Hok Hn Hr Hw Hll Hwf Hh Hb Hk. pose proof Hn as [].
  split; cbn; try done; try (intros Hc; rewrite Hr in Hc; discriminate Hc).
  - eapply persisted_recovers; cbn; done.
  - intros t m Ha. destruct (no_acks t m Ha) as [Ht Hkept]. split; [done|].
    intros k lt e Hkm Hlt E Et. assert (Hlen : (k < length lt)%nat) by (by apply lookup_lt_Some in E).
    destruct (Hkept k lt e Hkm Hlt E Et) as [Hag|Ho]; [|by right].
    assert (Hgo : agree k ll lt → agree k l' lt).
    { intros Hl. eapply agree_trans; [|exact Hag]. apply Hk.
      - eapply agree_length; [by apply agree_sym|done].
      - eapply agree_trans; [exact Hag|eauto with granite]. }
    destruct (decide (t = nd_currentTerm n)) as [->|Hne].
    { left. apply Hgo. rewrite Hll in Hlt. by injection Hlt as ->. }
    destruct (wo_ext _ _ _ _ (go_won _ _ Hok _ _ Hw)) as (ext & Hext & _).
    rewrite Hll in Hext. injection Hext as ->.
    destruct (decide (agree k (won_log w) lt)) as [Ha2|Hn2].
    + left. apply Hgo. eapply agree_trans; [|exact Ha2]. apply agree_app.
      eapply agree_length; [by apply agree_sym|done].
    + right. exists (nd_currentTerm n), w, lt. split_and!; try done; lia.
  - eapply commit_ok_log; [exact no_commit|].
    pose proof (commit_ok_length _ _ _ _ _ no_commit no_wf) as Hlen. unfold len in Hlen.
    pose proof (proj1 no_commit). apply Hk; [lia|]. apply agree_sym.
    apply (commit_ok_llog ids g (nd_log n) (nd_currentTerm n) _ (nd_currentTerm n)); try done; lia.
Qed.

(** * One step of the cluster from the step of one node *)

Lemma inv_upd c g g' i n' els net :
  inv c g → gle g g' → ghost_ok g' → node_ok g' i n' →
  (∀ j n, j ≠ i → c_nodes c !! j = Some n → node_step g g' j n) →
  (∀ pk, pk ∈ net → pk ∈ c_net c ∨ packet_ok ids g' pk) →
  (∀ j T el, els !! (j, T) = Some el → c_elections c !! (j, T) = Some el ∨ election_ok ids g' j T el) →
  inv (mkCluster (<[i := n']> (c_nodes c)) els net) g'.
Proof.
  intros [Hd Hn Hok Hnet Hel] Hg Hok' Hi Hoth Hpk Hels. split; cbn.
  - intros j Hj. rewrite lookup_insert. case_decide; [by eexists|by apply Hd].
  - intros j n. rewrite lookup_insert. case_decide as D; [intros [= <-]; by subst|].
    intros Hj. apply (node_ok_mono ids cfg_of g g' Hg Hok); [by apply Hoth|by apply Hn].
  - done.
  - intros pk [?|?]%Hpk; [|done]. apply (packet_ok_mono ids g g' Hg Hok). by apply Hnet.
  - intros j T el [?|?]%Hels; [|done]. apply (election_ok_mono ids g g' Hg). by apply Hel.
Qed.

(** Nothing new about the other nodes when the ghost state is the same. *)
Lemma node_step_refl g j n : node_step g g j n.
Proof. split; eauto. Qed.

Lemma inv_same c g i n' els net :
  inv c g → node_ok g i n' →
  (∀ pk, pk ∈ net → pk ∈ c_net c ∨ packet_ok ids g pk) →
  (∀ j T el, els !! (j, T) = Some el → c_elections c !! (j, T) = Some el ∨ election_ok ids g j T el) →
  inv (mkCluster (<[i := n']> (c_nodes c)) els net) g.
Proof.
  intros Hinv Hn Hpk Hels. eapply inv_upd; try done; [apply gle_refl|apply Hinv|].
  intros j n _ _. apply node_step_refl.
Qed.

Lemma inv_node c g i n' : inv c g → node_ok g i n' → inv (upd_node i n' c) g.
Proof. intros Hinv Hn. apply inv_same; auto. Qed.

(** * Ticks, deliveries and restarts *)

Lemma tick_ok c g i n n' gs now :
  inv c g → c_nodes c !! i = Some n → checkTimers n now = (n', gs) → inv (upd_node i n' c) g.
Proof.
  intros Hinv Hi E. pose proof (inv_nodes _ _ _ _ Hinv i n Hi) as Hn. apply inv_node; [done|].
  unfold checkTimers in E. repeat case_decide; try (destruct (_ <=? _)); injection E as <- <-;
    auto using set_heartbeat_ok.
Qed.

Lemma restart_ok g i n n' ch :
  node_ok g i n → NewNode (nd_cfg n) (nd_peers n) ch (nd_disk n) = inr n' → node_ok g i n'.
Proof.
  intros Hn E. pose proof Hn as []. rewrite no_recovers in E. injection E as <-.
  split; cbn; try done.
  - intros T w Hw Hin. destruct (no_won T w Hw Hin) as [? Hc]. split; [done|]. by intros [? _]%Hc.
  - split; [lia|by left].
Qed.

(** * Election timeouts *)

Definition add_candidate (g : ghost) (i : bytes) (T : Z) (l : list LogEntry) : ghost :=
  mkGhost ((i, T, i) :: g_votes g) (<[(i, T) := l]> (g_clog g)) (g_won g) (g_llog g) (g_acks g).

Lemma add_candidate_gle g i T l : g_clog g !! (i, T) = None → gle g (add_candidate g i T l).
Proof.
  intros Hf. split; cbn; auto.
  - intros v Hv. by right.
  - by apply insert_subseteq.
  - intros T' ll H. exists []. by rewrite app_nil_r.
Qed.

(** The log of a node covers what the node itself acknowledged. *)
Lemma self_covers g i n T :
  ghost_ok g → node_ok g i n → nd_currentTerm n <= T → vote_covers g i (T + 1) T (nd_log n).
Proof.
  intros Hok Hn HT t m k ll e Ha _ Hk Hl E Et.
  destruct (no_acks _ _ _ _ _ Hn t m Ha) as [_ Hkept].
  destruct (Hkept k ll e Hk Hl E Et) as [?|?]; [by left|right].
  eapply overtaken_mono; [apply gle_refl|done|done].
Qed.

Lemma add_candidate_ok g i n :
  ghost_ok g → node_ok g i n → nd_currentTerm n < 2 ^ 64 - 1 →
  let T := nd_currentTerm n + 1 in
  let g' := add_candidate g i T (nd_log n) in
  g_clog g !! (i, T) = None ∧ ghost_ok g'.
Proof.
  intros Hok Hn HT T g'. pose proof Hn as [].
  assert (Hf : g_clog g !! (i, T) = None).
  { destruct (g_clog g !! (i, T)) as [l|] eqn:E; [|done]. specialize (no_clog T l E). lia. }
  split; [done|]. pose proof (add_candidate_gle g i T (nd_log n) Hf) as Hg. fold g' in Hg.
  assert (Hlb : strictly_below T (nd_log n)).
  { intros k e E. specialize (no_below k e E). lia. }
  apply (ghost_ok_step ids g g' Hg Hok).
  - intros T' ll' H. left. exists ll', []. rewrite app_nil_r.
    destruct (go_llog _ _ Hok _ _ H) as (? & _). by split_and!.
  - intros T' w H. by left.
  - intros j T' c [[= -> -> ->]|Hv]%elem_of_cons; [right|by left].
    split_and!; try done; [lia|..].
    + exists (nd_log n). split; [apply lookup_insert_eq|].
      eapply (vote_covers_mono ids g g' Hg Hok _ _ (T - 1)); [auto|lia|].
      replace (vote_covers g i T (T - 1) (nd_log n))
        with (vote_covers g i (T - 1 + 1) (T - 1) (nd_log n)) by (do 2 f_equal; lia).
      apply self_covers; [done|done|lia].
    + intros w Hw Hin. destruct (no_won T w Hw Hin). lia.
    + intros _ c' [[= ->]|Hv]%elem_of_cons; [done|]. destruct (no_votes T c' Hv). lia.
  - intros c T' l. cbn. rewrite lookup_insert. case_decide as D; [|by left].
    intros [= <-]. injection D as <- <-. right.
    split_and!; try done; lia.
  - intros j t m H. by left.
Qed.

Lemma candidate_ok g i n :
  ghost_ok g → node_ok g i n → nd_role n ≠ Leader → nd_currentTerm n < 2 ^ 64 - 1 →
  let T := nd_currentTerm n + 1 in
  node_ok (add_candidate g i T (nd_log n)) i
    (set_timer true (persistStateLocked (set_votedFor i (set_term T (set_role Candidate n))))).
Proof using Hdep.
  intros Hok Hn Hr HT T. pose proof Hn as [].
  destruct (add_candidate_ok g i n Hok Hn HT) as [Hf Hok']. fold T in Hf, Hok'.
  pose proof (add_candidate_gle g i T (nd_log n) Hf) as Hg.
  set (g' := add_candidate g i T (nd_log n)) in *.
  split; cbn; try done; try lia.
  - by right.
  - eapply (persisted_recovers _ i); cbn; try done; [lia|by right].
  - intros k e E. specialize (no_below k e E). lia.
  - intros T' c [[= -> ->]|Hv]%elem_of_cons; [done|]. destruct (no_votes T' c Hv). lia.
  - intros T' w Hw Hin. destruct (no_won T' w Hw Hin). lia.
  - intros _. split_and!; [done|left|apply lookup_insert_eq].
  - intros T' l. rewrite lookup_insert. case_decide as D; [injection D as <-; done|].
    intros Hl. specialize (no_clog T' l Hl). lia.
  - intros t m Ha. destruct (no_acks t m Ha) as [? Hk]. split; [lia|].
    destruct (go_acks _ _ Hok _ _ _ Ha) as (_ & ll & Hl & Hm).
    eapply (ack_kept_mono g g' Hg _ (nd_currentTerm n) _ _ _ ll); [done|done|lia|done].
  - eapply commit_ok_mono; [exact Hg|done|lia].
Qed.

Lemma peers_of_spec i p : p ∈ peers_of ids i ↔ p ∈ ids ∧ p ≠ i.
Proof.
  unfold peers_of. rewrite !list_elem_of_In, List.filter_In.
  destruct (bool_decide_reflect (p = i)); cbn; naive_solver.
Qed.

Lemma last_index_ok n : wf_log (nd_log n) → ∃ e, last (nd_log n) = Some e
  ∧ lastLogIndexLocked n = Some (le_Index e) ∧ lastLogTermLocked n = Some (le_Term e)
  ∧ le_Index e = len (nd_log n) - 1 ∧ nd_log n !! (length (nd_log n) - 1)%nat = Some e.
Proof.
  intros Hwf. destruct (wf_last _ Hwf) as (e & He & Hi & Hl). exists e.
  unfold lastLogIndexLocked, lastLogTermLocked, last_entry. by rewrite He.
Qed.

Lemma timeout_ok c g i n n' gs :
  inv c g → c_nodes c !! i = Some n → nd_currentTerm n < 2 ^ 64 - 1 →
  onElectionTimeout n = Some (n', gs) →
  ∃ g', gle g g' ∧ inv (spawn i n' gs (upd_node i n' c)) g'.
Proof using Hdep.
  intros Hinv Hi HT E. pose proof (inv_nodes _ _ _ _ Hinv i n Hi) as Hn.
  pose proof (inv_ghost _ _ _ _ Hinv) as Hok. unfold onElectionTimeout in E.
  case_decide as Hr. { injection E as <- <-. exists g. split; [apply gle_refl|]. by apply inv_node. }
  pose proof (no_term _ _ _ _ _ Hn) as Ht.
  rewrite (no_id _ _ _ _ _ Hn), u64_small in E by lia.
  set (T := nd_currentTerm n + 1) in *.
  set (n1 := resetElectionTimerLocked _) in E.
  destruct (last_index_ok n1 (no_wf _ _ _ _ _ Hn)) as (e & He & Hli & Hlt & _ & _).
  rewrite Hli, Hlt in E. cbn in E. injection E as <- <-. cbn [spawn].
  destruct (add_candidate_ok g i n Hok Hn HT) as [Hf Hok']. fold T in Hf, Hok'.
  exists (add_candidate g i T (nd_log n)). split; [by apply add_candidate_gle|].
  apply (inv_upd c g); try done; [by apply add_candidate_gle|by apply candidate_ok|..].
  - intros j m Hj _. split; cbn; auto.
    + intros T' c' [[= -> _ _]|?]%elem_of_cons; [done|done].
    + intros T' l. rewrite lookup_insert_ne by (intros [= -> _]; done). by eexists.
  - intros pk [Hpk|Hpk]%elem_of_app; [by left|right].
    apply list_elem_of_fmap in Hpk as (p & -> & Hp). cbn in Hp |- *.
    rewrite (no_peers _ _ _ _ _ Hn) in Hp. apply peers_of_spec in Hp as [Hp _]. split; [done|].
    exists (nd_log n), e. cbn in He. rewrite (no_id _ _ _ _ _ Hn). split; [apply lookup_insert_eq|done].
  - intros j T' el. cbn. rewrite lookup_insert. case_decide as D; [|by left].
    intros [= <-]. injection D as <- <-. right. cbn. split_and!; try done.
    { by apply (no_id _ _ _ _ _ Hn). }
    exists []. split_and!; [constructor|..|done].
    + intros p Hp. by apply not_elem_of_nil in Hp.
    + cbn. by rewrite (no_peers _ _ _ _ _ Hn).
Qed.

(** * Votes *)

Definition add_vote (g : ghost) (j : bytes) (T : Z) (c : bytes) : ghost :=
  mkGhost ((j, T, c) :: g_votes g) (g_clog g) (g_won g) (g_llog g) (g_acks g).

Lemma add_vote_gle g j T c : gle g (add_vote g j T c).
Proof.
  split; cbn; auto.
  - intros v Hv. by right.
  - intros T' ll H. exists []. by rewrite app_nil_r.
Qed.

(** A candidate whose log is as up to date as the voter's has every entry the
    voter acknowledged, unless overtaken. *)
Lemma voter_covers g j n lc el req ej :
  ghost_ok g → node_ok g j n →
  wf_log lc → in_history g lc → strictly_below (nd_currentTerm n) lc → last lc = Some el →
  rv_LastLogIndex req = le_Index el → rv_LastLogTerm req = le_Term el →
  last (nd_log n) = Some ej → log_up_to_date req (le_Term ej) (le_Index ej) = true →
  vote_covers g j (nd_currentTerm n) (nd_currentTerm n) lc.
Proof.
  intros Hok Hn Hwc Hhc Hbc Hel Hri Hrt Hej Hup t m k ll e Ha Ht Hk Hl E Et.
  destruct (no_acks _ _ _ _ _ Hn t m Ha) as [_ Hkept].
  destruct (Hkept k ll e Hk Hl E Et) as [Hag|?]; [|by right].
  pose proof (no_wf _ _ _ _ _ Hn) as Hwj.
  destruct (wf_last _ Hwc) as (el' & Hel' & Hix & Hlx). rewrite Hel in Hel'. injection Hel' as <-.
  destruct (wf_last _ Hwj) as (ej' & Hej' & Hiy & Hly). rewrite Hej in Hej'. injection Hej' as <-.
  assert (Hkj : nd_log n !! k = Some e) by (by rewrite (agree_lookup k k _ ll)).
  pose proof (lookup_lt_Some _ _ _ Hkj) as Hkl.
  pose proof (wl_terms _ Hwj _ _ _ _ Hkj Hly ltac:(lia)) as Htj.
  unfold log_up_to_date in Hup. rewrite Hri, Hrt in Hup.
  destruct (Hhc _ _ Hlx) as (llx & Hllx & Hax).
  pose proof (wf_nonempty _ Hwc) as Hne.
  destruct (Z.ltb_spec t (le_Term el)) as [Hlt|Hge].
  - pose proof (go_llog _ _ Hok _ _ Hl) as (Hwl & _ & Hbl & _).
    pose proof (Hbl _ _ (wl_head _ Hwl)) as H0. cbn in H0.
    destruct (go_llog _ _ Hok _ _ Hllx) as (_ & _ & _ & [?|[w Hw]]); [lia|].
    destruct (go_won _ _ Hok _ _ Hw) as [_ _ _ _ _ Hwb (ext & Hext & _) _ _].
    rewrite Hllx in Hext. injection Hext as ->.
    destruct (decide (agree k (won_log w) ll)) as [Haw|Hnw].
    + left. assert (Hkw : (k < length (won_log w))%nat).
      { eapply agree_length; [by apply agree_sym|]. by apply lookup_lt_Some in E. }
      assert (Hpos : (length (won_log w) ≤ length lc - 1)%nat).
      { apply Nat.nlt_ge. intros Hlt2.
        assert (Hwl2 : won_log w !! (length lc - 1)%nat = Some el).
        { rewrite <- Hlx. rewrite (agree_lookup _ _ _ _ Hax) by lia. by rewrite lookup_app_l. }
        specialize (Hwb _ _ Hwl2). lia. }
      eapply agree_trans; [eapply agree_le; [exact Hax|lia]|].
      eapply agree_trans; [by apply agree_app|done].
    + right. exists (le_Term el), w, ll. specialize (Hbc _ _ Hlx).
      split_and!; try done; try lia. by apply lookup_lt_Some in E.
  - left. assert (Hteq : le_Term el = t ∧ le_Index ej <= le_Index el) by lia.
    destruct Hteq as [Hteq Hidx]. rewrite Hteq, Hl in Hllx. injection Hllx as <-.
    eapply agree_le; [exact Hax|]. unfold len in *. lia.
Qed.

Lemma member_named i : i ∈ ids → i ≠ [].
Proof using Hdep. intros Hi. by apply (dep_names _ _ Hdep). Qed.

Lemma vote_free g j n T c c' :
  ghost_ok g → node_ok g j n → T = nd_currentTerm n → nd_votedFor n = [] ∨ nd_votedFor n = c →
  (j, T, c') ∈ g_votes g → g_won g !! T = None → c' = c.
Proof using Hdep.
  intros Hok Hn -> Hfree Hv HN. destruct (no_votes _ _ _ _ _ Hn _ _ Hv) as [_ Hvf].
  specialize (Hvf eq_refl HN). destruct (go_votes _ _ Hok _ _ _ Hv) as (_ & Hc & _).
  apply member_named in Hc. destruct Hfree; congruence.
Qed.

Lemma vote_free_won g j n c w :
  ghost_ok g → node_ok g j n → nd_votedFor n = [] ∨ nd_votedFor n = c →
  g_won g !! nd_currentTerm n = Some w → j ∈ won_voters w → c = won_leader w.
Proof using Hdep.
  intros Hok Hn Hfree Hw Hin. destruct (no_won _ _ _ _ _ Hn _ _ Hw Hin) as [_ Hvf].
  destruct (Hvf eq_refl) as [Hv _]. destruct (go_won _ _ Hok _ _ Hw) as [_ (_ & Hs & _) Hl _ _ _ _ _ _].
  pose proof (member_named _ (Hs _ Hl)). destruct Hfree; congruence.
Qed.

Lemma grant_ok g j n c lc :
  ghost_ok g → node_ok g j n → nd_votedFor n = [] ∨ nd_votedFor n = c →
  g_clog g !! (c, nd_currentTerm n) = Some lc →
  vote_covers g j (nd_currentTerm n) (nd_currentTerm n) lc →
  let g' := add_vote g j (nd_currentTerm n) c in
  ghost_ok g' ∧ node_ok g' j (set_timer true (persistStateLocked (set_votedFor c n))).
Proof using Hdep.
  intros Hok Hn Hfree Hlc Hcov g'. pose proof Hn as [].
  set (T := nd_currentTerm n) in *. pose proof (add_vote_gle g j T c) as Hg. fold g' in Hg.
  destruct (go_clog _ _ Hok _ _ _ Hlc) as (_ & _ & _ & Hc & HT).
  split.
  - apply (ghost_ok_step ids g g' Hg Hok).
    + intros T' ll' H. left. exists ll', []. rewrite app_nil_r.
      destruct (go_llog _ _ Hok _ _ H) as (? & _). by split_and!.
    + intros T' w H. by left.
    + intros j' T' c' [[= -> -> ->]|Hv]%elem_of_cons; [right|by left].
      split_and!; try done; [lia|exists lc; by split|..].
      * intros w Hw Hin. by apply (vote_free_won g j n c w).
      * intros HN c' [[= ->]|Hv]%elem_of_cons; [done|]. by apply (vote_free g j n T c c').
    + intros c' T' l H. by left.
    + intros j' t m H. by left.
  - split; cbn; try done.
    + by right.
    + eapply (persisted_recovers _ j); cbn; try done. by right.
    + intros T' c' [[= -> ->]|Hv]%elem_of_cons; [done|]. destruct (no_votes T' c' Hv) as [? _].
      split; [done|]. intros HT' HN. symmetry. by apply (vote_free g j n T' c c').
    + intros T' w Hw Hin. destruct (no_won T' w Hw Hin) as [? Hvf]. split; [done|].
      intros ->. destruct (Hvf eq_refl) as [_ ?]. split; [|done]. by apply (vote_free_won g j n c w).
    + intros Hr. destruct (no_cand Hr) as (Hvi & Hvin & ?). split_and!; [|by right|done].
      pose proof (member_named j no_member). destruct Hfree; congruence.
Qed.

Lemma vote_req_ok c g j req n n' resp :
  inv c g → PVoteReq j req ∈ c_net c → c_nodes c !! j = Some n →
  HandleRequestVote n req = Some (n', resp) →
  ∃ g', gle g g' ∧ inv (send [PVoteResp j req resp] (upd_node j n' c)) g'.
Proof using Hdep.
  intros Hinv Hpk Hj E. pose proof (inv_nodes _ _ _ _ Hinv j n Hj) as Hn.
  pose proof (inv_ghost _ _ _ _ Hinv) as Hok.
  destruct (inv_net _ _ _ _ Hinv _ Hpk) as (_ & lc & el & Hlc & Hel & Hri & Hrt).
  destruct (go_clog _ _ Hok _ _ _ Hlc) as (Hwc & Hhc & Hbc & _ & HT).
  assert (Hstay : ∀ m r, node_ok g j m → rvr_VoteGranted r = false → 0 <= rvr_Term r < 2 ^ 64 →
    ∃ g', gle g g' ∧ inv (send [PVoteResp j req r] (upd_node j m c)) g').
  { intros m r Hm Hr Hrtm. exists g. split; [apply gle_refl|]. apply (inv_same c g); [done|done| |by left].
    intros pk [?|Heq%list_elem_of_singleton]%elem_of_app; [by left|subst pk; right]. split; [done|congruence]. }
  unfold HandleRequestVote in E. destruct (Z.ltb_spec (rv_Term req) (nd_currentTerm n)) as [Hlt|Hge].
  { injection E as <- <-. apply Hstay; try done; apply Hn. }
  set (n1 := if nd_currentTerm n <? rv_Term req then step_down (rv_Term req) n else n) in E.
  assert (Hn1 : node_ok g j n1 ∧ nd_currentTerm n1 = rv_Term req).
  { unfold n1. destruct (Z.ltb_spec (nd_currentTerm n) (rv_Term req)); [|split; [done|lia]].
    split; [|done]. apply step_down_ok; try done; lia. }
  clearbody n1. destruct Hn1 as [Hn1 Hcur].
  destruct (last_index_ok n1 (no_wf _ _ _ _ _ Hn1)) as (e & He & Hli & Hlt & _ & _).
  rewrite Hli, Hlt in E. cbn in E.
  destruct (bool_decide (nd_votedFor n1 = []) || bool_decide (nd_votedFor n1 = rv_CandidateId req)) eqn:Ev;
    cbn in E; [|injection E as <- <-; apply Hstay; try done; apply Hn1].
  destruct (log_up_to_date req (le_Term e) (le_Index e)) eqn:Eup; cbn in E;
    [|injection E as <- <-; apply Hstay; try done; apply Hn1].
  injection E as <- <-. apply orb_true_iff in Ev. rewrite !bool_decide_eq_true in Ev.
  rewrite <- Hcur in Hlc, Hbc.
  pose proof (voter_covers g j n1 lc el req e Hok Hn1 Hwc Hhc Hbc Hel Hri Hrt He Eup) as Hcov.
  destruct (grant_ok g j n1 (rv_CandidateId req) lc Hok Hn1 Ev Hlc Hcov) as [Hok' Hn'].
  exists (add_vote g j (nd_currentTerm n1) (rv_CandidateId req)). split; [apply add_vote_gle|].
  apply (inv_upd c g); try done; [apply add_vote_gle|..|by left].
  - intros i m Hi _. split; cbn; eauto.
    intros T' c' [[= -> _ _]|?]%elem_of_cons; done.
  - intros pk [?|Heq%list_elem_of_singleton]%elem_of_app; [by left|subst pk; right]. split; [apply Hn1|].
    intros _. rewrite Hcur. left.
Qed.

(** * Counting votes *)

Lemma count_true_app l b : count_true (l ++ [b]) = count_true l + (if b : bool then 1 else 0).
Proof. unfold count_true. rewrite List.filter_app, len_app. by destruct b. Qed.

Lemma count_true_cons b l : count_true (b :: l) = (if b : bool then 1 else 0) + count_true l.
Proof. unfold count_true. destruct b; cbn; rewrite ?len_cons; lia. Qed.

Lemma waiting_remove (l : list bytes) p q :
  q ∈ List.filter (λ x, negb (bool_decide (x = p))) l ↔ q ∈ l ∧ q ≠ p.
Proof.
  rewrite !list_elem_of_In, List.filter_In.
  destruct (bool_decide_reflect (q = p)); cbn; naive_solver.
Qed.

(** A report for peer [p]; [true] only when [p] voted for the candidate. *)
Lemma report_ok g i T el p b :
  election_ok ids g i T el → p ∈ el_waiting el → (b = true → (p, T, i) ∈ g_votes g) →
  election_ok ids g i T (mkElection (el_term el) (el_req el)
    (List.filter (λ x, negb (bool_decide (x = p))) (el_waiting el)) (el_voteCh el ++ [b])
    (el_votes el) (el_done el)).
Proof.
  intros (H1 & H2 & H3 & gr & Hnd & Hgr & Hw & Hle) Hp Hb. split_and!; try done. cbn.
  exists (if b then p :: gr else gr). rewrite count_true_app. split_and!.
  - destruct b; [|done]. constructor; [|done]. intros Hin. by destruct (Hgr p Hin) as (_ & ? & _).
  - assert (Hold : ∀ q, q ∈ gr → q ∈ peers_of ids i
        ∧ (q ∉ List.filter (λ x, negb (bool_decide (x = p))) (el_waiting el)) ∧ (q, T, i) ∈ g_votes g).
    { intros q Hq. destruct (Hgr q Hq) as (? & Hnw & ?). split_and!; try done.
      by intros [? _]%waiting_remove. }
    destruct b; [|done]. intros q [->|Hq]%elem_of_cons; [|auto].
    split_and!; [auto| |auto]. by intros [_ ?]%waiting_remove.
  - intros q [Hq _]%waiting_remove. auto.
  - destruct b; rewrite ?len_cons; lia.
Qed.

Lemma vote_reply_ok c g i t p n el resp n' el' :
  inv c g → c_nodes c !! i = Some n → c_elections c !! (i, t) = Some el → p ∈ el_waiting el →
  (∀ r, resp = Some r → PVoteResp p (el_req el) r ∈ c_net c) →
  vote_reply n el p resp = (n', el') → inv (upd_election i t el' (upd_node i n' c)) g.
Proof using Hdep.
  intros Hinv Hi Hel Hp Hresp E. pose proof (inv_nodes _ _ _ _ Hinv i n Hi) as Hn.
  pose proof (inv_ghost _ _ _ _ Hinv) as Hok.
  pose proof (inv_elections _ _ _ _ Hinv i t el Hel) as Hels.
  assert (Hgo : ∀ m b, node_ok g i m → (b = true → (p, t, i) ∈ g_votes g) →
    inv (upd_election i t (mkElection (el_term el) (el_req el)
      (List.filter (λ x, negb (bool_decide (x = p))) (el_waiting el)) (el_voteCh el ++ [b])
      (el_votes el) (el_done el)) (upd_node i m c)) g).
  { intros m b Hm Hb. apply (inv_same c g); [done|done|by left|].
    intros j T el2. rewrite lookup_insert. case_decide as D; [|by left].
    intros [= <-]. injection D as <- <-. right. by apply report_ok. }
  unfold vote_reply in E. destruct resp as [r|]; [|injection E as <- <-; by apply Hgo].
  destruct (inv_net _ _ _ _ Hinv _ (Hresp r eq_refl)) as (Hrt & Hgr).
  destruct (Z.ltb_spec (nd_currentTerm n) (rvr_Term r)).
  - injection E as <- <-. apply Hgo; [|done]. apply set_timer_ok, step_down_ok; try done; lia.
  - injection E as <- <-. apply Hgo; [done|]. rewrite !andb_true_iff. intros [_ Hg].
    destruct Hels as (_ & H2 & H3 & _). rewrite <- H2, <- H3 at 1. auto.
Qed.

(** * Winning *)

Definition elect (g : ghost) (T : Z) (w : won) : ghost :=
  mkGhost (g_votes g) (g_clog g) (<[T := w]> (g_won g)) (<[T := won_log w]> (g_llog g)) (g_acks g).

Section Elect.
Context (g : ghost) (i : bytes) (n : Node) (granted : list bytes).
Context (Hok : ghost_ok g) (Hn : node_ok g i n) (Hr : nd_role n = Candidate).
Context (Hnd : NoDup granted).
Context (Hgr : ∀ p, p ∈ granted → p ∈ peers_of ids i ∧ (p, nd_currentTerm n, i) ∈ g_votes g).
Context (Hmaj : Quorum (nd_cfg n) <= 1 + len granted).

#[local] Definition the_win : won := mkWon i (i :: granted) (nd_log n).

Lemma win_majority : majority ids (i :: granted).
Proof using Hdep Hn Hnd Hgr Hmaj.
  split_and!.
  - constructor; [|done]. intros Hin. destruct (Hgr i Hin) as [[_ ?]%peers_of_spec _]. done.
  - intros j [->|Hj]%elem_of_cons; [apply Hn|]. destruct (Hgr j Hj) as [[? _]%peers_of_spec _]. done.
  - destruct (dep_cfg _ _ Hdep i (no_member _ _ _ _ _ Hn)) as (_ & _ & Hsize).
    rewrite (no_cfg _ _ _ _ _ Hn) in Hmaj. pose proof (Quorum_majority (cfg_of i)).
    rewrite len_cons. lia.
Qed.

Lemma win_votes j : j ∈ i :: granted → (j, nd_currentTerm n, i) ∈ g_votes g.
Proof using Hn Hr Hgr.
  intros [->|Hj]%elem_of_cons; [apply (no_cand _ _ _ _ _ Hn Hr)|by apply Hgr].
Qed.

(** No leader of this term was elected before. *)
Lemma win_fresh : g_won g !! nd_currentTerm n = None ∧ g_llog g !! nd_currentTerm n = None.
Proof using Hdep Hok Hn Hr Hnd Hgr Hmaj.
  destruct (no_cand _ _ _ _ _ Hn Hr) as (_ & _ & Hcl).
  destruct (go_clog _ _ Hok _ _ _ Hcl) as (_ & _ & _ & _ & HT).
  assert (HW : g_won g !! nd_currentTerm n = None).
  { destruct (g_won g !! nd_currentTerm n) as [w|] eqn:Ew; [|done]. exfalso.
    destruct (go_won _ _ Hok _ _ Ew) as [_ Hm Hl Ho _ _ _ _ _].
    destruct (majorities_meet ids _ _ win_majority Hm) as (j & Hj1 & Hj2).
    pose proof (Ho j i Hj2 (win_votes j Hj1)) as Hi. rewrite <- Hi in Hl.
    destruct (no_won _ _ _ _ _ Hn _ _ Ew Hl) as [_ Hc]. by destruct (Hc eq_refl). }
  split; [done|]. destruct (g_llog g !! nd_currentTerm n) as [ll|] eqn:El; [|done].
  destruct (go_llog _ _ Hok _ _ El) as (_ & _ & _ & [?|[w Hw]]); [lia|congruence].
Qed.

Lemma elect_gle : gle g (elect g (nd_currentTerm n) the_win).
Proof using Hdep Hok Hn Hr Hnd Hgr Hmaj.
  destruct win_fresh as [HW HL]. split; cbn; auto.
  - by apply insert_subseteq.
  - intros T ll H. exists []. rewrite app_nil_r, lookup_insert_ne; [done|]. intros <-. congruence.
Qed.

(** The candidate's log covers what its voters acknowledged; nothing overtook
    it in its own term. *)
Lemma win_covers j :
  j ∈ i :: granted →
  vote_covers g j (nd_currentTerm n) (nd_currentTerm n - 1) (nd_log n).
Proof using Hdep Hok Hn Hr Hnd Hgr Hmaj.
  intros Hj t m k ll e Ha Ht Hk Hl E Et.
  destruct (no_cand _ _ _ _ _ Hn Hr) as (_ & _ & Hcl). destruct win_fresh as [HW _].
  destruct (go_votes _ _ Hok _ _ _ (win_votes j Hj)) as (_ & _ & _ & lc & Hlc & Hcov).
  rewrite Hcl in Hlc. injection Hlc as <-.
  destruct (Hcov t m k ll e Ha Ht Hk Hl E Et) as [?|(t2 & w2 & ll2 & Ht2 & Hw2 & ?)]; [by left|right].
  exists t2, w2, ll2. split; [|done]. split; [lia|].
  assert (t2 ≠ nd_currentTerm n) by (intros ->; congruence). lia.
Qed.

Lemma win_ok : won_ok ids (elect g (nd_currentTerm n) the_win) (nd_currentTerm n) the_win.
Proof using Hdep Hok Hn Hr Hnd Hgr Hmaj.
  destruct (no_cand _ _ _ _ _ Hn Hr) as (_ & Hself & Hcl). destruct win_fresh as [HW _].
  destruct (go_clog _ _ Hok _ _ _ Hcl) as (Hwf & _ & Hb & _ & HT).
  split; cbn; try done.
  - apply win_majority.
  - left.
  - intros j c Hj Hv. eapply (go_unique _ _ Hok j); [exact HW|done|by apply win_votes].
  - exists []. rewrite app_nil_r, lookup_insert_eq. done.
  - intros j Hj. eapply (vote_covers_mono ids g); [apply elect_gle|done|auto|reflexivity|].
    by apply win_covers.
Qed.

Lemma elect_ok : ghost_ok (elect g (nd_currentTerm n) the_win).
Proof using Hdep Hok Hn Hr Hnd Hgr Hmaj.
  destruct win_fresh as [HW HL]. pose proof elect_gle as Hg.
  apply (ghost_ok_step ids g _ Hg Hok).
  - intros T ll'. cbn. rewrite lookup_insert. case_decide as D.
    + intros [= <-]. subst T. right. split_and!; [done|apply Hn|..|by rewrite lookup_insert_eq].
      * eapply in_history_mono; [exact Hg|apply Hn].
      * apply Hn.
    + intros H. left. exists ll', []. rewrite app_nil_r.
      destruct (go_llog _ _ Hok _ _ H) as (? & _). by split_and!.
  - intros T w. cbn. rewrite lookup_insert. case_decide as D; [|by left].
    intros [= <-]. subst T. right. split; [done|]. apply win_ok.
  - intros j T c H. by left.
  - intros c T l H. by left.
  - intros j t m H. by left.
Qed.

Lemma foldr_insert_lookup (l : list bytes) (m : gmap bytes Z) v p :
  p ∈ l → foldr (λ q m, <[q := v]> m) m l !! p = Some v.
Proof.
  induction l as [|q l IH]; intros Hp; [by apply not_elem_of_nil in Hp|]. cbn.
  rewrite lookup_insert. case_decide; [done|]. apply IH. by apply elem_of_cons in Hp as [->|?].
Qed.

Lemma new_leader_ok e now :
  last (nd_log n) = Some e →
  node_ok (elect g (nd_currentTerm n) the_win) i
    (init_indices (set_heartbeat now (set_role Leader n)) (le_Index e)).
Proof using Hdep Hok Hn Hr Hnd Hgr Hmaj.
  intros He. pose proof elect_gle as Hg. destruct win_fresh as [HW HL].
  destruct (no_cand _ _ _ _ _ Hn Hr) as (Hvi & _ & Hcl).
  destruct (go_clog _ _ Hok _ _ _ Hcl) as (_ & _ & Hb & _ & HT). pose proof Hn as [].
  destruct (wf_last _ no_wf) as (e' & He' & Hidx & _). rewrite He in He'. injection He' as <-.
  pose proof (wf_nonempty _ no_wf) as Hpos. pose proof (wl_len _ no_wf) as Hlen.
  assert (Hnxt : u64 (le_Index e + 1) = len (nd_log n)) by (rewrite u64_small; unfold len in *; lia).
  split; cbn; try done.
  - by eapply in_history_mono.
  - intros T c Hv. destruct (no_votes T c Hv) as [? _]. split; [done|]. intros -> HN.
    by rewrite lookup_insert_eq in HN.
  - intros T w. rewrite lookup_insert. case_decide as D.
    + intros [= <-] _. split; [lia|]. done.
    + intros Hw Hin. destruct (no_won T w Hw Hin) as [? Hc]. split; [done|]. by intros [? _]%Hc.
  - intros _. exists the_win. rewrite !lookup_insert_eq. done.
  - intros _ p Hp. unfold next_index. cbn. rewrite foldr_insert_lookup by done. cbn.
    unfold id. rewrite Hnxt. unfold len in *. lia.
  - intros _ p Hp. left. unfold match_index. cbn. by rewrite foldr_insert_lookup.
  - intros _ k x E Ex. specialize (Hb k x E). lia.
  - intros t m Ha. destruct (no_acks t m Ha) as [? Hk]. split; [done|].
    destruct (go_acks _ _ Hok _ _ _ Ha) as (_ & ll & Hl & Hm).
    eapply (ack_kept_mono g _ Hg _ (nd_currentTerm n) _ _ _ ll); [done|done|reflexivity|done].
  - eapply commit_ok_mono; [exact Hg|done|reflexivity].
Qed.

Lemma elect_others j m :
  j ≠ i → node_ok g j m → node_step g (elect g (nd_currentTerm n) the_win) j m.
Proof using Hdep Hok Hn Hr Hnd Hgr Hmaj.
  intros Hj Hm. destruct win_fresh as [HW HL]. split; cbn; eauto.
  - intros T w. rewrite lookup_insert. case_decide as D; [|by left]. intros [= <-] Hin. subst T.
    right. destruct (no_votes _ _ _ _ _ Hm _ _ (win_votes j Hin)) as [Hle Hvf]. split; [done|].
    intros HT. specialize (Hvf HT HW). split; [done|]. intros Hc.
    destruct (no_cand _ _ _ _ _ Hm Hc) as [Hvj _]. congruence.
  - intros Hl. rewrite lookup_insert_ne; [done|]. intros HT.
    destruct (no_lead _ _ _ _ _ Hm Hl) as (w & Hw & _). congruence.
Qed.
End Elect.

Lemma count_ok c g i t n el now n' el' gs :
  inv c g → c_nodes c !! i = Some n → c_elections c !! (i, t) = Some el →
  count_vote n el now = Some (n', el', gs) →
  ∃ g', gle g g' ∧ inv (upd_election i t el' (upd_node i n' c)) g'.
Proof using Hdep.
  intros Hinv Hi Hel E. pose proof (inv_nodes _ _ _ _ Hinv i n Hi) as Hn.
  pose proof (inv_ghost _ _ _ _ Hinv) as Hok.
  pose proof (inv_elections _ _ _ _ Hinv i t el Hel) as Hels.
  pose proof Hels as (H1 & H2 & H3 & gr & Hnd & Hgr & Hw & Hle).
  assert (Hgo : ∀ g' m el2, inv (upd_node i m c) g' → election_ok ids g' i t el2 →
    inv (upd_election i t el2 (upd_node i m c)) g').
  { intros g' m el2 Hi2 He2. destruct Hi2 as [Hd2 Hn2 Hg2 Hp2 Hl2]. split; try done. cbn.
    intros j T x. rewrite lookup_insert. case_decide as D; [|by apply Hl2].
    intros [= <-]. by injection D as <- <-. }
  unfold count_vote in E. destruct (el_done el).
  { injection E as <- <- <-. exists g. split; [apply gle_refl|]. apply Hgo; [by apply inv_node|done]. }
  destruct (el_voteCh el) as [|b ch] eqn:Ech.
  { injection E as <- <- <-. exists g. split; [apply gle_refl|]. apply Hgo; [by apply inv_node|done]. }
  rewrite count_true_cons in Hle.
  set (votes := if b then el_votes el + 1 else el_votes el) in E.
  assert (Hel' : ∀ g' d, gle g g' →
    election_ok ids g' i t (mkElection (el_term el) (el_req el) (el_waiting el) ch votes d)).
  { intros g' d Hg. apply (election_ok_mono ids g g' Hg). split_and!; try done. exists gr.
    split_and!; try done. cbn. unfold votes. destruct b; lia. }
  destruct (b && (Quorum (nd_cfg n) <=? votes)) eqn:Eb.
  2: { injection E as <- <- <-. exists g. split; [apply gle_refl|]. apply Hgo; [by apply inv_node|]. apply Hel', gle_refl. }
  apply andb_true_iff in Eb as [-> Hq%Z.leb_le]. unfold become_leader in E.
  destruct (decide (nd_role n = Candidate ∧ nd_currentTerm n = el_term el)) as [[Hr HT]|Hnc].
  2: { cbn in E. injection E as <- <- <-. exists g. split; [apply gle_refl|]. apply Hgo; [by apply inv_node|].
       apply Hel', gle_refl. }
  destruct (last_index_ok n (no_wf _ _ _ _ _ Hn)) as (e & He & Hli & _ & _ & _).
  rewrite Hli in E. cbn in E. injection E as <- <- <-.
  assert (Hgr' : ∀ p, p ∈ gr → p ∈ peers_of ids i ∧ (p, nd_currentTerm n, i) ∈ g_votes g).
  { intros p Hp. destruct (Hgr p Hp) as (? & _ & ?). rewrite HT, H1. done. }
  assert (Hmaj : Quorum (nd_cfg n) <= 1 + len gr).
  { unfold votes in Hq. assert (0 <= count_true ch) by apply len_nonneg. lia. }
  exists (elect g (nd_currentTerm n) (the_win i n gr)).
  assert (Hg : gle g (elect g (nd_currentTerm n) (the_win i n gr))) by (by apply elect_gle).
  split; [done|]. apply Hgo; [|by apply Hel'].
  apply (inv_upd c g); try done; [by apply elect_ok|by apply new_leader_ok| |by left|by left].
  intros j m Hj Hm. apply elect_others; try done. by apply (inv_nodes _ _ _ _ Hinv).
Qed.
End Steps.
