(* ===== verification/ClusterRepl.v ===== *)
(** Replication steps of the cluster preserve the invariant. *)

From S2P Require Import Prelude Os Config RaftNode Election Replication.
From S2P Require Import Cluster ClusterInv ClusterMono ClusterSteps.

Section Repl.
Context (ids : list bytes) (cfg_of : bytes → Config) (Hdep : deployment ids cfg_of).

Abbreviation node_ok := (node_ok ids cfg_of).
Abbreviation ghost_ok := (ghost_ok ids).
Abbreviation inv := (inv ids cfg_of).

(** ** Ghost updates *)

Definition add_ack (g : ghost) (j : bytes) (t : Z) (m : nat) : ghost :=
  mkGhost (g_votes g) (g_clog g) (g_won g) (g_llog g) ((j, t, m) :: g_acks g).

Definition extend (g : ghost) (i : bytes) (T : Z) (l : list LogEntry) (e : LogEntry) : ghost :=
  mkGhost (g_votes g) (g_clog g) (g_won g) (<[T := l ++ [e]]> (g_llog g))
    ((i, T, length l) :: g_acks g).

(** * Sending *)

Lemma send_ok c g i p n req :
  inv c g → c_nodes c !! i = Some n → p ∈ nd_peers n →
  replicate_request n p (nd_currentTerm n) = Some (Some req) →
  inv (send [PAppendReq p req] c) g.
Proof.
  intros Hinv Hi Hp E. pose proof (inv_nodes _ _ _ _ Hinv i n Hi) as Hn.
  pose proof (inv_ghost _ _ _ _ Hinv) as Hok. pose proof Hn as [].
  unfold replicate_request in E. case_decide as Hl; [|done]. destruct Hl as [Hr _].
  destruct (no_lead Hr) as (w & Hw & Hwl & Hll). pose proof (no_next Hr p Hp) as Hnx.
  pose proof (wl_len _ no_wf) as Hlen. rewrite decide_False in E by lia.
  set (q := next_index n p) in *. rewrite u64_small in E by lia.
  rewrite (proj2 (Z.ltb_lt (q - 1) (len (nd_log n)))) in E by lia. unfold log_at in E.
  destruct (nd_log n !! Z.to_nat (q - 1)) as [e|] eqn:Ee; [|done]. cbn in E. injection E as <-.
  assert (Hent : (if q <? len (nd_log n) then drop (Z.to_nat q) (nd_log n) else [])
    = drop (Z.to_nat q) (nd_log n)).
  { destruct (Z.ltb_spec q (len (nd_log n))); [done|]. symmetry. apply drop_ge. unfold len in *. lia. }
  rewrite Hent. destruct (go_won _ _ Hok _ _ Hw) as [HT _ _ _ _ _ _ _ _].
  rewrite no_peers in Hp. apply peers_of_spec in Hp as [Hp Hpi].
  destruct Hinv as [Hd Hnd Hg Hnet Hels]. split; try done. cbn.
  intros pk [?|Heq%list_elem_of_singleton]%elem_of_app; [by apply Hnet|subst pk].
  cbn. split_and!; [done|by rewrite no_id|]. split; [done|]. cbn.
  exists w, (nd_log n), (Z.to_nat (q - 1)), e. rewrite no_id.
  split_and!; try done; [lia| |].
  - replace (S (Z.to_nat (q - 1))) with (Z.to_nat q) by lia. done.
  - pose proof (commit_ok_length _ _ _ _ _ no_commit no_wf).
    unfold len in *. rewrite length_drop. lia.
Qed.

(** * The follower's log *)

(** The loop over the entries: the result agrees with the leader's log up to
    the last entry, keeps what agreed before, and is either the old log or a
    prefix of the leader's. *)
Lemma append_entries_ok g ll : ∀ entries p log,
  in_history g log → in_history g ll → len ll < 2 ^ 32 →
  (p < length log)%nat → agree p log ll → entries `prefix_of` drop (S p) ll →
  ∃ l', append_entries log (Z.of_nat (S p)) entries = Some l'
    ∧ agree (p + length entries) l' ll ∧ (p + length entries < length l')%nat
    ∧ keeps log l' ll ∧ (l' = log ∨ l' = take (S (p + length entries)) ll).
Proof.
  induction entries as [|e entries IH]; intros p log Hh Hhl Hlen Hp Hag Hpre.
  { exists log. rewrite Nat.add_0_r. split_and!; try done. by left. }
  destruct Hpre as [post Hpost].
  assert (He : ll !! S p = Some e).
  { replace (S p) with (S p + 0)%nat by lia. by rewrite <- lookup_drop, Hpost. }
  assert (Hpre' : entries `prefix_of` drop (S (S p)) ll).
  { exists post. rewrite (drop_S _ _ _ He) in Hpost. by injection Hpost. }
  assert (Hnext : take (S p) log ++ [e] = take (S (S p)) ll).
  { unfold agree in Hag. rewrite Hag. symmetry. by apply take_S_r. }
  assert (Hgrow : ∃ l', append_entries (take (S (S p)) ll) (Z.of_nat (S (S p))) entries = Some l'
    ∧ agree (S p + length entries) l' ll ∧ (S p + length entries < length l')%nat
    ∧ l' = take (S (S p + length entries)) ll).
  { pose proof (lookup_lt_Some _ _ _ He) as Hlt.
    assert (Hh' : in_history g (take (S (S p)) ll)).
    { eapply in_history_agree; [exact Hhl|]. intros k x [_ Hk]%lookup_take_Some. by apply agree_take. }
    destruct (IH (S p) (take (S (S p)) ll) Hh' Hhl Hlen) as (l' & E & Ha & Hl & _ & Hor); try done.
    { rewrite length_take. lia. }
    { apply agree_take. lia. }
    exists l'. split_and!; try done. destruct Hor as [->|?]; [|done].
    rewrite length_take in Hl. replace (S p + length entries)%nat with (S p) by lia. done. }
  cbn [append_entries length]. rewrite <- plus_n_Sm.
  assert (Hu : u64 (Z.of_nat (S p) + 1) = Z.of_nat (S (S p))).
  { pose proof (lookup_lt_Some _ _ _ He). rewrite u64_small; unfold len in *; lia. }
  destruct (Z.ltb_spec (Z.of_nat (S p)) (len log)) as [Hin|Hout].
  - unfold log_at. rewrite Nat2Z.id. destruct (log !! S p) as [old|] eqn:Eo.
    2: { apply lookup_ge_None in Eo. unfold len in Hin. lia. }
    cbn [mbind option_bind]. case_decide as Ht; cbn [mbind option_bind]; rewrite Hu.
    + apply (IH (S p) log); try done; [by apply lookup_lt_Some in Eo|].
      by apply (history_agree g log ll (S p) old e).
    + rewrite Hnext. destruct Hgrow as (l' & E & Ha & Hl & Heq).
      exists l'. split_and!; try done; [|by right]. intros k Hk Hkl.
      assert (k < S p)%nat.
      { apply Nat.nle_gt. intros Hle. apply Ht.
        rewrite (agree_lookup k (S p) log ll Hkl Hle), He in Eo. by injection Eo as ->. }
      eapply agree_trans; [eapply agree_le; [exact Ha|lia]|eauto with granite].
  - assert (Hfull : log = take (S p) log) by (rewrite take_ge; [done|unfold len in Hout; lia]).
    cbn [mbind option_bind]. replace (log ++ [e]) with (take (S p) log ++ [e]) by congruence.
    rewrite Hu, Hnext.
    destruct Hgrow as (l' & E & Ha & Hl & Heq). exists l'. split_and!; try done; [|by right].
    intros k Hk Hkl. eapply agree_trans; [eapply agree_le; [exact Ha|unfold len in Hout; lia]|].
    eauto with granite.
Qed.

(** * Acknowledgements and commit indices *)

Lemma add_ack_gle g j t m : gle g (add_ack g j t m).
Proof.
  split; cbn; auto.
  - intros T ll H. exists []. by rewrite app_nil_r.
  - intros a Ha. by right.
Qed.

Lemma add_ack_ok g j n ll m :
  ghost_ok g → node_ok g j n → g_llog g !! nd_currentTerm n = Some ll → (m < length ll)%nat →
  agree m (nd_log n) ll →
  let g' := add_ack g j (nd_currentTerm n) m in ghost_ok g' ∧ node_ok g' j n.
Proof.
  intros Hok Hn Hll Hm Hag g'. pose proof Hn as [].
  pose proof (add_ack_gle g j (nd_currentTerm n) m) as Hg. fold g' in Hg. split.
  - apply (ghost_ok_step ids g g' Hg Hok).
    + intros T ll' H. left. exists ll', []. rewrite app_nil_r.
      destruct (go_llog _ _ Hok _ _ H) as (? & _). by split_and!.
    + intros T w H. by left.
    + intros j' T c H. by left.
    + intros c T l H. by left.
    + intros j' t m' [[= -> -> ->]|?]%elem_of_cons; [right|by left]. split_and!; try done.
      * by exists ll.
      * intros T c Hv. by apply (no_votes T c).
      * intros T w Hw Hin. by apply (no_won T w).
  - split; cbn; try done.
    + intros Hr p Hp. destruct (no_match Hr p Hp) as [?|[? ?]]; [by left|right]. split; [done|by right].
    + intros Hr k e E Et. right. by apply no_self with e.
    + intros t m' Ha.
      assert (Hc : t = nd_currentTerm n ∧ m' = m ∨ (j, t, m') ∈ g_acks g).
      { apply elem_of_cons in Ha as [[= -> ->]|?]; auto. }
      destruct Hc as [[-> ->]|Ha'].
      * split; [done|]. intros k ll' e Hk Hl' _ _. left. cbn in Hl'. rewrite Hll in Hl'.
        injection Hl' as <-. by eapply agree_le.
      * destruct (no_acks t m' Ha') as [? Hk]. split; [done|].
        destruct (go_acks _ _ Hok _ _ _ Ha') as (_ & lt & Hl & Hlt).
        eapply (ack_kept_mono g g' Hg _ (nd_currentTerm n) _ _ _ lt); [done|done|reflexivity|done].
    + eapply commit_ok_mono; [exact Hg|done|reflexivity].
Qed.

Lemma add_ack_others g j t m i n : i ≠ j → node_step g (add_ack g j t m) i n.
Proof.
  intros Hi. split; cbn; eauto. intros t' m' [[= -> _ _]|?]%elem_of_cons; done.
Qed.

(** Raising the commit index and delivering. *)
Lemma commit_node_ok g j n c :
  node_ok g j n → commit_ok ids g (nd_log n) (nd_currentTerm n) c → nd_commitIndex n <= c →
  ∃ n', applyCommittedEntriesLocked (set_commitIndex c n) = Some n' ∧ node_ok g j n'
    ∧ nd_log n' = nd_log n ∧ nd_currentTerm n' = nd_currentTerm n ∧ nd_role n' = nd_role n.
Proof.
  intros Hn Hc Hle. pose proof Hn as []. pose proof (commit_ok_length _ _ _ _ _ Hc no_wf).
  pose proof (wl_len _ no_wf).
  rewrite applyCommitted_spec by (cbn; lia). eexists. split; [done|].
  split_and!; try done. split; cbn; try done; lia.
Qed.

(** * The follower's handler *)

Lemma prepare_ok g j n req w :
  ghost_ok g → node_ok g j n → nd_currentTerm n <= ae_Term req < 2 ^ 64 →
  g_won g !! ae_Term req = Some w → won_leader w ≠ j →
  let n1 := resetElectionTimerLocked
    (if (nd_currentTerm n <? ae_Term req) || bool_decide (nd_role n = Candidate)
     then step_down (ae_Term req) n else n) in
  node_ok g j n1 ∧ nd_currentTerm n1 = ae_Term req ∧ nd_role n1 = Follower.
Proof using Hdep.
  intros Hok Hn HT Hw Hj n1. unfold n1.
  destruct (Z.ltb_spec (nd_currentTerm n) (ae_Term req)) as [Hlt|Hge]; cbn [orb].
  { split_and!; try done. apply set_timer_ok, step_down_ok; try done; lia. }
  assert (Heq : nd_currentTerm n = ae_Term req) by lia.
  destruct (bool_decide_reflect (nd_role n = Candidate)) as [Hc|Hnc].
  - split_and!; try done. rewrite <- Heq. apply set_timer_ok, yield_ok; try done.
    rewrite Heq. by eexists.
  - split_and!; [by apply set_timer_ok|done|]. cbn. destruct (nd_role n) eqn:Hr; try done. exfalso.
    destruct (no_lead _ _ _ _ _ Hn Hr) as (w' & Hw' & Hl & _). rewrite Heq, Hw in Hw'.
    injection Hw' as <-. done.
Qed.

(** The entries up to the last one sent are in the follower's log. *)
Lemma append_success_ok g j n w ll p e req :
  ghost_ok g → node_ok g j n → nd_role n = Follower → nd_currentTerm n = ae_Term req →
  g_won g !! ae_Term req = Some w → g_llog g !! ae_Term req = Some ll →
  ll !! p = Some e → ae_Entries req `prefix_of` drop (S p) ll →
  (∃ old, nd_log n !! p = Some old ∧ le_Term old = le_Term e) →
  ∃ l', append_entries (nd_log n) (Z.of_nat (S p)) (ae_Entries req) = Some l'
    ∧ node_ok g j (persistStateLocked (set_log l' n))
    ∧ agree (p + length (ae_Entries req)) l' ll ∧ (p + length (ae_Entries req) < length l')%nat.
Proof using Hdep.
  intros Hok Hn Hr HT Hw Hll E Hpre (old & Eo & Ht). rewrite <- HT in Hw, Hll.
  destruct (go_llog _ _ Hok _ _ Hll) as (Hwfl & Hhl & Hbl & _). pose proof Hn as [].
  assert (Hag : agree p (nd_log n) ll) by (by apply (history_agree g _ _ p old e)).
  destruct (append_entries_ok g ll (ae_Entries req) p (nd_log n)) as (l' & Ea & Ha & Hl & Hk & Hor);
    try done; [by apply Hwfl|by apply lookup_lt_Some in Eo|].
  exists l'. split_and!; try done. apply (relog_ok ids cfg_of Hdep g j n w ll); try done.
  - destruct Hor as [Hor|Hor]; rewrite Hor; [done|]. apply wf_take; [done|lia].
  - destruct Hor as [Hor|Hor]; rewrite Hor; [done|]. eapply in_history_agree; [exact Hhl|].
    intros k x [_ Hkk]%lookup_take_Some. by apply agree_take.
  - destruct Hor as [Hor|Hor]; rewrite Hor; [done|]. intros k x [Ex _]%lookup_take_Some. by eapply Hbl.
Qed.

(** A request whose predecessor entry differs cuts the log there. *)
Lemma append_mismatch_ok g j n w ll p e old :
  ghost_ok g → node_ok g j n → nd_role n = Follower →
  g_won g !! nd_currentTerm n = Some w → g_llog g !! nd_currentTerm n = Some ll →
  ll !! p = Some e → nd_log n !! p = Some old → le_Term old ≠ le_Term e →
  node_ok g j (persistStateLocked (set_log (take p (nd_log n)) n)).
Proof using Hdep.
  intros Hok Hn Hr Hw Hll E Eo Hne. pose proof Hn as [].
  destruct (go_llog _ _ Hok _ _ Hll) as (Hwfl & _).
  assert (Hp : (0 < p)%nat).
  { destruct p; [|lia]. rewrite (wl_head _ Hwfl) in E. rewrite (wl_head _ no_wf) in Eo. congruence. }
  apply (relog_ok ids cfg_of Hdep g j n w ll); try done.
  - by apply wf_take.
  - eapply in_history_agree; [exact no_hist|]. intros k x [_ Hk]%lookup_take_Some. by apply agree_take.
  - intros k x [Ex _]%lookup_take_Some. by eapply no_below.
  - intros k Hk Hag. apply agree_take. apply Nat.nle_gt. intros Hle.
    rewrite (agree_lookup k p _ _ Hag Hle), E in Eo. congruence.
Qed.

(** What the handler returns, with the new ghost state. *)
Lemma append_handler_ok g j n req :
  ghost_ok g → node_ok g j n → append_ok ids g req → j ≠ ae_LeaderId req →
  ∃ n' resp g', HandleAppendEntries n req = Some (n', resp)
    ∧ (g' = g ∧ aer_Success resp = false
       ∨ g' = add_ack g j (ae_Term req) (Z.to_nat (ae_PrevLogIndex req + len (ae_Entries req))))
    ∧ ghost_ok g' ∧ node_ok g' j n' ∧ aer_Term resp = nd_currentTerm n.
Proof using Hdep.
  intros Hok Hn (HT & w & ll & p & e & Hw & Hld & Hll & Hp & E & Et & Hpre & Hc & Hle) Hj.
  unfold HandleAppendEntries. destruct (Z.ltb_spec (ae_Term req) (nd_currentTerm n)) as [Hlt|Hge].
  { exists n. eexists _, g. split; [reflexivity|]. split_and!; try done. by left. }
  assert (Hwj : won_leader w ≠ j) by congruence.
  destruct (prepare_ok g j n req w Hok Hn ltac:(lia) Hw Hwj) as (Hn1 & Hcur & Hr).
  set (n1 := resetElectionTimerLocked _) in *. clearbody n1.
  destruct (Z.leb_spec (len (nd_log n1)) (ae_PrevLogIndex req)) as [Hout|Hin].
  { exists n1. eexists _, g. split; [reflexivity|]. split_and!; try done. by left. }
  rewrite Hp in Hin |- *. unfold log_at. rewrite Nat2Z.id.
  destruct (nd_log n1 !! p) as [old|] eqn:Eo; [|apply lookup_ge_None in Eo; unfold len in Hin; lia].
  cbn [mbind option_bind]. pose proof (lookup_lt_Some _ _ _ E) as Hpl.
  destruct (go_llog _ _ Hok _ _ Hll) as (Hwfl & _). pose proof (wl_len _ Hwfl) as Hlenl.
  case_decide as Ht.
  2: { eexists _, _, g. split; [reflexivity|]. split_and!; try done; [by left|].
       rewrite <- Hcur in Hw, Hll. eapply append_mismatch_ok; try done. congruence. }
  destruct (append_success_ok g j n1 w ll p e req) as (l' & Ea & Hn2 & Hag & Hlen); try done.
  { exists old. split; [done|]. congruence. }
  rewrite u64_small by (unfold len in Hlenl; lia). replace (Z.of_nat p + 1) with (Z.of_nat (S p)) by lia.
  rewrite Ea. cbn [mbind option_bind]. set (n2 := persistStateLocked (set_log l' n1)) in *.
  assert (Hll2 : g_llog g !! nd_currentTerm n2 = Some ll) by (cbn; by rewrite Hcur).
  assert (Hml : (p + length (ae_Entries req) < length ll)%nat).
  { eapply agree_length; [exact Hag|done]. }
  destruct (add_ack_ok g j n2 ll (p + length (ae_Entries req)) Hok Hn2 Hll2 Hml Hag) as [Hok' Hn2'].
  set (g' := add_ack _ _ _ _) in Hok', Hn2'.
  assert (Hg' : g' = add_ack g j (ae_Term req) (Z.to_nat (Z.of_nat p + len (ae_Entries req)))).
  { unfold g'. cbn. rewrite Hcur. f_equal. unfold len. lia. }
  pose proof (no_wf _ _ _ _ _ Hn2) as Hwf2. change (nd_log n2) with l' in Hwf2.
  destruct (last_index_ok n2 Hwf2) as (el & _ & Hli & _ & Hidx & _). change (nd_log n2) with l' in Hidx.
  destruct (Z.ltb_spec (nd_commitIndex n2) (ae_LeaderCommit req)) as [Hcm|Hcm].
  - rewrite Hli. cbn [mbind option_bind].
    assert (Hmin : (if ae_LeaderCommit req <? le_Index el then ae_LeaderCommit req else le_Index el)
                   = ae_LeaderCommit req).
    { destruct (Z.ltb_spec (ae_LeaderCommit req) (le_Index el)); [done|]. unfold len in *. lia. }
    rewrite Hmin. destruct (commit_node_ok g' j n2 (ae_LeaderCommit req) Hn2') as (n3 & E3 & Hn3 & Hl3 & _).
    + cbn. rewrite Hcur. eapply commit_ok_log.
      * eapply commit_ok_mono; [apply add_ack_gle|exact Hc|reflexivity].
      * destruct Hc as [Hc0 _]. eapply agree_le; [exact Hag|]. unfold len in *. lia.
    + lia.
    + rewrite E3. cbn [mbind option_bind]. unfold lastLogIndexLocked in Hli |- *. rewrite Hl3, Hli.
      eexists _, _, g'. split; [reflexivity|]. split_and!; try done. by right.
  - cbn [mbind option_bind]. rewrite Hli. eexists _, _, g'. split; [reflexivity|].
    split_and!; try done. by right.
Qed.

Lemma append_step_ok c g j req n n' resp :
  inv c g → PAppendReq j req ∈ c_net c → c_nodes c !! j = Some n →
  HandleAppendEntries n req = Some (n', resp) →
  ∃ g', gle g g' ∧ inv (send [PAppendResp j req resp] (upd_node j n' c)) g'.
Proof using Hdep.
  intros Hinv Hpk Hj E. pose proof (inv_nodes _ _ _ _ Hinv j n Hj) as Hn.
  pose proof (inv_ghost _ _ _ _ Hinv) as Hok.
  destruct (inv_net _ _ _ _ Hinv _ Hpk) as (Hjid & Hjl & Hap).
  destruct (append_handler_ok g j n req Hok Hn Hap Hjl) as (n2 & resp2 & g' & E2 & Hg' & Hok' & Hn' & Hrt).
  rewrite E in E2. injection E2 as <- <-. exists g'.
  assert (Hgle : gle g g').
  { destruct Hg' as [[-> _]| ->]; [apply gle_refl|apply add_ack_gle]. }
  split; [done|]. apply (inv_upd ids cfg_of c g); try done; [..|by left].
  - intros i m Hi _. destruct Hg' as [[-> _]| ->]; [apply node_step_refl|by apply add_ack_others].
  - intros pk [?|Heq%list_elem_of_singleton]%elem_of_app; [by left|subst pk; right].
    cbn. split_and!; try done; [by apply (append_ok_mono ids g g' Hgle Hok)|..];
      try (rewrite Hrt; apply Hn).
    intros Hs. destruct Hg' as [[_ ?]| ->]; [congruence|]. left.
Qed.

(** * The leader's side *)

Lemma match_majority g i n N e :
  node_ok g i n → nd_role n = Leader → 0 < N → nd_log n !! Z.to_nat N = Some e →
  le_Term e = nd_currentTerm n → Quorum (nd_cfg n) <= match_count n N →
  committed ids g (nd_currentTerm n) (Z.to_nat N).
Proof using Hdep.
  intros Hn Hr HN E Et Hq. pose proof Hn as [].
  destruct (no_lead Hr) as (w & _ & _ & Hll).
  set (Q := List.filter (λ p, N <=? match_index n p) (nd_peers n)) in *.
  assert (HQ : ∀ p, p ∈ Q → p ∈ peers_of ids i ∧ N <= match_index n p).
  { intros p Hp. apply list_elem_of_In, List.filter_In in Hp as [Hp Hm%Z.leb_le].
    rewrite no_peers in Hp. split; [by apply list_elem_of_In|done]. }
  exists (nd_log n), e, (i :: Q). split_and!; try done.
  - split_and!.
    + constructor.
      * intros [Hp _]%HQ. by apply peers_of_spec in Hp as [_ ?].
      * unfold Q. rewrite no_peers. apply NoDup_ListNoDup, List.NoDup_filter, List.NoDup_filter.
        apply NoDup_ListNoDup, Hdep.
    + intros j [->|[Hp _]%HQ]%elem_of_cons; [done|]. by apply peers_of_spec in Hp as [? _].
    + destruct (dep_cfg _ _ Hdep i no_member) as (_ & _ & Hsize). rewrite no_cfg in Hq.
      pose proof (Quorum_majority (cfg_of i)). unfold match_count in Hq. fold Q in Hq.
      rewrite len_cons. lia.
  - intros j [->|Hj]%elem_of_cons; [by exists (Z.to_nat N); split; [|apply no_self with e]|].
    destruct (HQ j Hj) as [Hp Hm]. rewrite <- no_peers in Hp.
    destruct (no_match Hr j Hp) as [?|[? Ha]]; [lia|]. exists (Z.to_nat (match_index n j)).
    split; [lia|done].
Qed.

Lemma maybeAdvance_ok g i n :
  node_ok g i n → nd_role n = Leader →
  ∃ n', maybeAdvanceCommitIndexLocked n = Some n' ∧ node_ok g i n'.
Proof using Hdep.
  intros Hn Hr. pose proof Hn as [].
  destruct (last_index_ok n no_wf) as (e & _ & Hli & _ & Hidx & _).
  pose proof (commit_ok_length _ _ _ _ _ no_commit no_wf) as Hcl. pose proof (proj1 no_commit) as Hc0.
  unfold maybeAdvanceCommitIndexLocked. rewrite Hli. cbn [mbind option_bind].
  destruct (advance_loop_spec (Z.to_nat (le_Index e - nd_commitIndex n)) (le_Index e) n)
    as [[Ha _]|(M & HM & (x & Ex & Etx & Hq) & _ & Ha)]; [lia..|by rewrite Ha; eauto|].
  rewrite Ha. destruct (no_lead Hr) as (w & _ & _ & Hll).
  destruct (commit_node_ok g i n M Hn) as (n' & En & Hn' & _); [|lia|eauto].
  split; [lia|]. right. exists (nd_currentTerm n), (Z.to_nat M), (nd_log n).
  split_and!; try done; [|lia]. by apply (match_majority g i n M x); try lia.
Qed.

(** Replication indices a leader may hold. *)
Lemma set_indices_ok g i n p nx mt :
  node_ok g i n → nd_role n = Leader → 1 <= nx <= len (nd_log n) →
  mt = match_index n p ∨ 0 < mt ∧ (p, nd_currentTerm n, Z.to_nat mt) ∈ g_acks g →
  node_ok g i (set_indices (<[p := nx]> (nd_nextIndex n)) (<[p := mt]> (nd_matchIndex n)) n).
Proof.
  intros Hn Hr Hnx Hmt. pose proof Hn as []. split; cbn; try done.
  - intros _ q Hq. unfold next_index. cbn. rewrite lookup_insert. case_decide; cbn; [done|].
    by apply no_next.
  - intros _ q Hq. unfold match_index. cbn. rewrite lookup_insert. case_decide as D; cbn.
    + subst q. unfold id. destruct Hmt as [->|?]; [by apply no_match|by right].
    + by apply no_match.
Qed.

(** The last entry of a request in the leader's log. *)
Lemma last_sent (log entries : list LogEntry) q x :
  entries `prefix_of` drop (S q) log → last entries = Some x →
  log !! (q + length entries)%nat = Some x ∧ (0 < length entries)%nat.
Proof.
  intros [post Hpost] Ex. rewrite last_lookup in Ex. destruct entries as [|y es]; [done|].
  split; [|cbn; lia]. cbn in Ex. cbn [length].
  replace (q + S (length es))%nat with (S q + length es)%nat by lia.
  rewrite <- lookup_drop, Hpost. by apply lookup_app_l_Some.
Qed.

Lemma append_reply_node g i p req resp n :
  ghost_ok g → node_ok g i n → packet_ok ids g (PAppendResp p req resp) → ae_LeaderId req = i →
  ∃ n', append_reply n p (ae_Term req) (ae_Entries req) resp = Some n' ∧ node_ok g i n'.
Proof using Hdep.
  intros Hok Hn (Hp & Hpi & Hap & Hrt & Hack) Hli.
  destruct Hap as (HT & w & ll & q & e & Hw & Hld & Hll & Hq & Eq & Et & Hpre & Hc & Hle).
  unfold append_reply. destruct (Z.ltb_spec (nd_currentTerm n) (aer_Term resp)).
  { eexists. split; [done|]. apply set_timer_ok, step_down_ok; try done; lia. }
  case_decide as Hl; [|by eauto]. destruct Hl as [Hr Hcur].
  destruct (no_lead _ _ _ _ _ Hn Hr) as (w' & Hw' & _ & Hll'). rewrite Hcur, Hll in Hll'.
  injection Hll' as ->. pose proof (no_wf _ _ _ _ _ Hn) as Hwf. pose proof (wl_len _ Hwf) as Hlen.
  destruct (aer_Success resp) eqn:Es.
  - destruct (last (ae_Entries req)) as [x|] eqn:Ex; [|by eauto].
    destruct (last_sent (nd_log n) (ae_Entries req) q x Hpre Ex) as [Hx Hpos].
    pose proof (wl_index _ Hwf _ _ Hx) as Hidx.
    pose proof (lookup_lt_Some _ _ _ Hx) as Hlt. specialize (Hack eq_refl). rewrite Hq in Hack.
    rewrite Hidx. rewrite u64_small by (unfold len in Hlen; lia).
    apply maybeAdvance_ok; [|done]. apply set_indices_ok; try done; [unfold len; lia|].
    right. split; [lia|]. rewrite Hcur.
    replace (Z.of_nat (q + length (ae_Entries req))) with (Z.of_nat q + len (ae_Entries req))
      by (unfold len; lia). done.
  - destruct (Z.ltb_spec 1 (next_index n p)) as [H1|H1]; [|by eauto]. eexists. split; [done|].
    assert (Hpp : p ∈ nd_peers n).
    { rewrite (no_peers _ _ _ _ _ Hn). apply peers_of_spec. split; [done|congruence]. }
    pose proof (no_next _ _ _ _ _ Hn Hr p Hpp).
    pose proof (set_indices_ok g i n p (next_index n p - 1) (match_index n p) Hn Hr ltac:(lia) ltac:(by left)) as [].
    split; cbn in *; try done.
    intros Hr' q' Hq'. specialize (no_match Hr' q' Hq'). unfold match_index in *. cbn in *.
    rewrite lookup_insert in no_match. case_decide; [subst q'|done]. done.
Qed.

Lemma append_reply_ok c g i p req resp n n' :
  inv c g → PAppendResp p req resp ∈ c_net c → ae_LeaderId req = i → c_nodes c !! i = Some n →
  append_reply n p (ae_Term req) (ae_Entries req) resp = Some n' → inv (upd_node i n' c) g.
Proof using Hdep.
  intros Hinv Hpk Hli Hi E. apply inv_node; [done|].
  destruct (append_reply_node g i p req resp n) as (n2 & E2 & Hn2); try done.
  - apply Hinv.
  - by apply (inv_nodes _ _ _ _ Hinv).
  - by apply (inv_net _ _ _ _ Hinv).
  - rewrite E in E2. by injection E2 as ->.
Qed.

(** * Proposals *)

Section Propose.
Context (g : ghost) (i : bytes) (n : Node) (data : bytes).
Context (Hok : ghost_ok g) (Hn : node_ok g i n) (Hr : nd_role n = Leader).
Context (Hd : len data < 2 ^ 32) (Hl : len (nd_log n) < 2 ^ 32 - 1).

#[local] Definition new_entry : LogEntry := mkLog (len (nd_log n)) (nd_currentTerm n) data.
#[local] Definition g_new : ghost := extend g i (nd_currentTerm n) (nd_log n) new_entry.

Lemma propose_llog : g_llog g !! nd_currentTerm n = Some (nd_log n).
Proof using Hn Hr. by destruct (no_lead _ _ _ _ _ Hn Hr) as (w & _ & _ & ?). Qed.

Lemma propose_gle : gle g g_new.
Proof using Hn Hr.
  split; cbn; auto.
  - intros T ll H. rewrite lookup_insert. case_decide as D.
    + subst T. rewrite propose_llog in H. injection H as <-. by exists [new_entry].
    + exists []. by rewrite app_nil_r.
  - intros a Ha. by right.
Qed.

Lemma propose_wf : wf_log (nd_log n ++ [new_entry]).
Proof using Hn Hd Hl. apply wf_snoc; try done; apply Hn. Qed.

Lemma propose_ghost_ok : ghost_ok g_new.
Proof using Hok Hn Hr Hd Hl.
  pose proof propose_gle as Hg. destruct (no_lead _ _ _ _ _ Hn Hr) as (w & Hw & _ & Hll).
  apply (ghost_ok_step ids g _ Hg Hok).
  - intros T ll'. cbn. rewrite lookup_insert. case_decide as D.
    + intros [= <-]. subst T. left. exists (nd_log n), [new_entry].
      split_and!; try done; [by repeat constructor|apply propose_wf].
    + intros H. left. exists ll', []. rewrite app_nil_r.
      destruct (go_llog _ _ Hok _ _ H) as (? & _). by split_and!.
  - intros T w' H. by left.
  - intros j T c H. by left.
  - intros c T l H. by left.
  - intros j t m [[= -> -> ->]|?]%elem_of_cons; [right|by left]. split_and!.
    + apply Hn.
    + exists (nd_log n ++ [new_entry]). cbn. rewrite lookup_insert_eq, length_app. cbn. split; [done|lia].
    + intros T c Hv. by apply (no_votes _ _ _ _ _ Hn T c).
    + intros T w' Hw' Hin. by apply (no_won _ _ _ _ _ Hn T w').
Qed.

Lemma propose_node_ok : node_ok g_new i (persistStateLocked (set_log (nd_log n ++ [new_entry]) n)).
Proof using Hdep Hok Hn Hr Hd Hl.
  pose proof propose_gle as Hg. pose proof propose_llog as Hll. pose proof propose_wf as Hwf'.
  pose proof Hn as []. split; cbn; try done.
  - eapply (persisted_recovers ids cfg_of Hdep _ i); cbn; try done.
  - intros k e [E|[Hk E]]%lookup_app_Some.
    + destruct (in_history_mono g g_new Hg _ no_hist k e E) as (l2 & Hl2 & Ha). exists l2. split; [done|].
      eapply agree_trans; [|exact Ha]. apply agree_app. by apply lookup_lt_Some in E.
    + apply list_elem_of_lookup_2, list_elem_of_singleton in E as ->. cbn.
      exists (nd_log n ++ [new_entry]). by rewrite lookup_insert_eq.
  - intros k e [E|[Hk E]]%lookup_app_Some; [by eapply no_below|].
    by apply list_elem_of_lookup_2, list_elem_of_singleton in E as ->.
  - rewrite Hr. done.
  - intros _. destruct (no_lead Hr) as (w & Hw & Hwl & _). exists w. by rewrite lookup_insert_eq.
  - intros _ p Hp. specialize (no_next Hr p Hp). rewrite len_app.
    pose proof (len_nonneg [new_entry]). change (next_index _ p) with (next_index n p). lia.
  - intros _ p Hp. destruct (no_match Hr p Hp) as [?|[? ?]]; [by left|right]. split; [done|by right].
  - intros _ k e [E|[Hk E]]%lookup_app_Some Et; [right; by apply (no_self Hr k e)|].
    apply lookup_lt_Some in E. cbn in E. replace k with (length (nd_log n)) by lia. left.
  - intros t m Ha.
    assert (Hc : t = nd_currentTerm n ∧ m = length (nd_log n) ∨ (i, t, m) ∈ g_acks g).
    { apply elem_of_cons in Ha as [[= -> ->]|?]; auto. }
    destruct Hc as [[-> ->]|Ha'].
    + split; [done|]. intros k ll' e Hk Hl' _ _. left. cbn in Hl'. rewrite lookup_insert_eq in Hl'.
      by injection Hl' as <-.
    + destruct (no_acks t m Ha') as [? Hkept]. split; [done|].
      destruct (go_acks _ _ Hok _ _ _ Ha') as (_ & lt & Hlt & Hmt).
      eapply (ack_kept_mono g g_new Hg _ (nd_currentTerm n) _ _ _ lt); [done|done|reflexivity|].
      intros k l2 e Hk Hl2 E Et. destruct (Hkept k l2 e Hk Hl2 E Et) as [Hag|?]; [left|by right].
      eapply agree_trans; [|exact Hag]. apply agree_app.
      eapply agree_length; [by apply agree_sym|]. by apply lookup_lt_Some in E.
  - pose proof (commit_ok_length _ _ _ _ _ no_commit no_wf) as Hlen. unfold len in Hlen.
    pose proof (proj1 no_commit).
    eapply commit_ok_log; [eapply commit_ok_mono; [exact Hg|exact no_commit|reflexivity]|].
    apply agree_app. lia.
Qed.

Lemma propose_others j m : j ≠ i → node_ok g j m → node_step g g_new j m.
Proof using Hn Hr.
  intros Hj Hm. split; cbn; eauto.
  - intros t m' [[= -> _ _]|?]%elem_of_cons; done.
  - intros Hrm. rewrite lookup_insert_ne; [done|]. intros HT.
    destruct (no_lead _ _ _ _ _ Hm Hrm) as (w & Hw & Hwl & _).
    destruct (no_lead _ _ _ _ _ Hn Hr) as (w' & Hw' & Hwl' & _). rewrite HT, Hw in Hw'.
    injection Hw' as <-. congruence.
Qed.
End Propose.

Lemma propose_ok c g i data n n' gs r :
  inv c g → c_nodes c !! i = Some n → len data < 2 ^ 32 → len (nd_log n) < 2 ^ 32 - 1 →
  Propose n data = Some (n', gs, r) → ∃ g', gle g g' ∧ inv (upd_node i n' c) g'.
Proof using Hdep.
  intros Hinv Hi Hd Hl E. pose proof (inv_nodes _ _ _ _ Hinv i n Hi) as Hn.
  pose proof (inv_ghost _ _ _ _ Hinv) as Hok. unfold Propose in E. case_decide as Hr.
  2: { injection E as <- <- <-. exists g. split; [apply gle_refl|]. by apply inv_node. }
  destruct (last_index_ok n (no_wf _ _ _ _ _ Hn)) as (e & _ & Hli & _ & Hidx & _).
  rewrite Hli in E. cbn in E. pose proof (len_nonneg (nd_log n)).
  rewrite Hidx, u64_small in E by lia. replace (len (nd_log n) - 1 + 1) with (len (nd_log n)) in E by lia.
  injection E as <- <- <-. exists (g_new g i n data). split; [by apply propose_gle|].
  apply (inv_upd ids cfg_of c g); try done;
    [by apply propose_gle|by apply propose_ghost_ok|by apply propose_node_ok|..|by left|by left].
  intros j m Hj Hm. apply propose_others; try done. by apply (inv_nodes _ _ _ _ Hinv).
Qed.
End Repl.
