(* ===== verification/ClusterSafety.v ===== *)
(** Safety of the Raft cluster: the invariant holds in every reachable state,
    and from it election safety, log matching, leader completeness, state
    machine safety, durability across restarts and the absence of run-time
    panics. An executable scheduler produces concrete runs. *)

From S2P Require Import Prelude Os Config RaftNode Election Replication.
From S2P Require Import Cluster ClusterInv ClusterMono ClusterSteps ClusterRepl.

(** ** An executable scheduler *)

Inductive action :=
| ATimeout (i : bytes)
| ADeliver (k : nat)            (* the k-th message sent *)
| ACount (i : bytes) (t : Z)
| ASend (i p : bytes)
| APropose (i : bytes) (data : bytes)
| ARestart (i : bytes).

#[global] Instance RequestVoteRequest_eq_dec : EqDecision RequestVoteRequest.
Proof. solve_decision. Defined.

Definition is_restart (a : action) : bool := match a with ARestart _ => true | _ => false end.
Definition is_proposal (a : action) : bool := match a with APropose _ _ => true | _ => false end.

Definition deliver (c : cluster) (pk : packet) : option cluster :=
  match pk with
  | PVoteReq j req =>
      n ← c_nodes c !! j;
      '(n', resp) ← HandleRequestVote n req;
      Some (send [PVoteResp j req resp] (upd_node j n' c))
  | PVoteResp p req r =>
      let i := rv_CandidateId req in let t := rv_Term req in
      n ← c_nodes c !! i;
      el ← c_elections c !! (i, t);
      if decide (p ∈ el_waiting el ∧ el_req el = req) then
        let '(n', el') := vote_reply n el p (Some r) in
        Some (upd_election i t el' (upd_node i n' c))
      else None
  | PAppendReq j req =>
      n ← c_nodes c !! j;
      '(n', resp) ← HandleAppendEntries n req;
      Some (send [PAppendResp j req resp] (upd_node j n' c))
  | PAppendResp p req resp =>
      let i := ae_LeaderId req in
      n ← c_nodes c !! i;
      n' ← append_reply n p (ae_Term req) (ae_Entries req) resp;
      Some (upd_node i n' c)
  end.

Definition exec (c : cluster) (a : action) : option cluster :=
  match a with
  | ATimeout i =>
      n ← c_nodes c !! i;
      if nd_currentTerm n <? 2 ^ 64 - 1 then
        '(n', gs) ← onElectionTimeout n; Some (spawn i n' gs (upd_node i n' c))
      else None
  | ADeliver k => pk ← c_net c !! k; deliver c pk
  | ACount i t =>
      n ← c_nodes c !! i;
      el ← c_elections c !! (i, t);
      '(n', el', _) ← count_vote n el 0;
      Some (upd_election i t el' (upd_node i n' c))
  | ASend i p =>
      n ← c_nodes c !! i;
      if decide (p ∈ nd_peers n) then
        req ← replicate_request n p (nd_currentTerm n);
        req ← req;
        Some (send [PAppendReq p req] c)
      else None
  | APropose i data =>
      n ← c_nodes c !! i;
      if (len data <? 2 ^ 32) && (len (nd_log n) <? 2 ^ 32 - 1) then
        '(n', _, _) ← Propose n data; Some (upd_node i n' c)
      else None
  | ARestart i =>
      n ← c_nodes c !! i;
      match NewNode (nd_cfg n) (nd_peers n) (mkChan 256 [] []) (nd_disk n) with
      | inr n' => Some (drop_elections i (upd_node i n' c))
      | inl _ => None
      end
  end.

Fixpoint run (c : cluster) (acts : list action) : option cluster :=
  match acts with
  | [] => Some c
  | a :: acts => c ← exec c a; run c acts
  end.

(** Runs of the step relation. *)
Inductive steps : cluster → cluster → Prop :=
| steps_refl c : steps c c
| steps_step c ev c1 c2 : step c ev c1 → steps c1 c2 → steps c c2.

#[local] Arguments vote_reply : simpl never.
#[local] Arguments count_vote : simpl never.
#[local] Arguments onElectionTimeout : simpl never.
#[local] Arguments HandleRequestVote : simpl never.
#[local] Arguments HandleAppendEntries : simpl never.
#[local] Arguments append_reply : simpl never.
#[local] Arguments replicate_request : simpl never.
#[local] Arguments Propose : simpl never.
#[local] Arguments NewNode : simpl never.

(** * The scheduler follows the step relation *)

Ltac exec_inv H :=
  repeat match type of H with
  | (?o ≫= _) = Some _ => let E := fresh "E" in destruct o eqn:E; cbn in H; [|discriminate H]
  | (let '(_, _) := ?p in _) = Some _ => destruct p; cbn in H
  | (match ?p with (_, _) => _ end) = Some _ => destruct p; cbn in H
  end.

Lemma deliver_step c pk c' :
  pk ∈ c_net c → deliver c pk = Some c' → ∃ ev, step c ev c' ∧ raft_event ev = true ∧ is_propose ev = false.
Proof.
  intros Hin H. destruct pk as [j req|p req r|j req|p req resp]; cbn in H; exec_inv H.
  - injection H as <-. eexists. split; [by eapply step_vote_req|done].
  - case_decide as D; [|done]. destruct D as [Hw <-].
    destruct (vote_reply _ _ _ _) as [n' el'] eqn:Ev. injection H as <-. eexists.
    split; [eapply step_vote_reply; try done; by intros ? [= <-]|done].
  - injection H as <-. eexists. split; [by eapply step_append|done].
  - injection H as <-. eexists. split; [by eapply step_append_reply|done].
Qed.

Lemma exec_step c a c' :
  exec c a = Some c' →
  ∃ ev, step c ev c' ∧ raft_event ev = negb (is_restart a) ∧ is_propose ev = is_proposal a.
Proof.
  intros H. destruct a as [i|k|i t|i p|i data|i]; cbn in H; exec_inv H.
  - destruct (Z.ltb_spec (nd_currentTerm n) (2 ^ 64 - 1)); [|done]. exec_inv H. injection H as <-.
    eexists. split; [by eapply step_timeout|done].
  - apply (deliver_step c p c'); [by eapply list_elem_of_lookup_2|done].
  - injection H as <-. eexists. split; [by eapply step_count|done].
  - case_decide; [|done]. exec_inv H. injection H as <-. subst. eexists. split; [by eapply step_send|done].
  - destruct (Z.ltb_spec (len data) (2 ^ 32)); [|done].
    destruct (Z.ltb_spec (len (nd_log n)) (2 ^ 32 - 1)); [|done]. cbn in H. exec_inv H.
    injection H as <-. eexists. split; [by eapply step_propose|done].
  - destruct (NewNode _ _ _ _) as [|n'] eqn:En; [done|]. injection H as <-. eexists. split; [by eapply step_restart|done].
Qed.

Lemma run_steps acts : ∀ c c', run c acts = Some c' → steps c c'.
Proof.
  induction acts as [|a acts IH]; intros c c' H; cbn in H.
  - injection H as <-. constructor.
  - destruct (exec c a) as [c1|] eqn:E; [|done]. destruct (exec_step _ _ _ E) as (ev & Hs & _).
    eapply steps_step; [exact Hs|]. by apply IH.
Qed.

Lemma steps_trans c1 c2 c3 : steps c1 c2 → steps c2 c3 → steps c1 c3.
Proof. induction 1; [done|]. intros. eapply steps_step; eauto. Qed.

Lemma steps_snoc c c1 ev c2 : steps c c1 → step c1 ev c2 → steps c c2.
Proof. intros H1 H2. eapply steps_trans; [exact H1|]. eapply steps_step; [exact H2|constructor]. Qed.

Lemma steps_reachable ids cfg_of c c' :
  reachable ids cfg_of c → steps c c' → reachable ids cfg_of c'.
Proof. intros Hr Hs. induction Hs as [|c ev c1 c2 Hs _ IH]; [done|]. apply IH. by eapply reach_step. Qed.

Section Safety.
Context (ids : list bytes) (cfg_of : bytes → Config) (Hdep : deployment ids cfg_of).

(** * The invariant *)

Lemma initial_lookup i n :
  c_nodes (initial ids cfg_of) !! i = Some n → i ∈ ids ∧ n = initial_node ids cfg_of i.
Proof.
  cbn. intros H. apply elem_of_list_to_map_2, list_elem_of_fmap in H as (x & [= -> ->] & Hx). done.
Qed.

Lemma initial_history : in_history ghost_init [dummy].
Proof.
  intros [|k] e E; [|done]. injection E as <-. exists [dummy]. split; [apply lookup_singleton_eq|done].
Qed.

Lemma initial_node_ok i : i ∈ ids → node_ok ids cfg_of ghost_init i (initial_node ids cfg_of i).
Proof using Hdep.
  intros Hi. destruct (dep_cfg _ _ Hdep i Hi) as (Hv & Hname & _). split; cbn; try done.
  - by left.
  - intros ch. unfold NewNode. cbn. by rewrite Hv, Hname.
  - apply wf_dummy.
  - apply initial_history.
  - intros [|k] e E; [|done]. by injection E as <-.
  - intros T c H. by apply not_elem_of_nil in H.
  - intros t m H. by apply not_elem_of_nil in H.
  - split; [done|by left].
Qed.

Lemma initial_inv : inv ids cfg_of (initial ids cfg_of) ghost_init.
Proof using Hdep.
  split.
  - intros i Hi. exists (initial_node ids cfg_of i). apply elem_of_list_to_map_1.
    + rewrite <- list_fmap_compose. cbn. rewrite list_fmap_id. apply Hdep.
    + apply list_elem_of_fmap. eauto.
  - intros i n [Hi ->]%initial_lookup. by apply initial_node_ok.
  - split; cbn; try done.
    + intros T ll. rewrite lookup_singleton. case_decide as D; [|done]. intros [= <-]. subst T.
      split_and!; [apply wf_dummy|apply initial_history| |by left].
      intros [|k] e E; [|done]. by injection E as <-.
    + intros j T c c' _ H. by apply not_elem_of_nil in H.
    + intros j T c H. by apply not_elem_of_nil in H.
    + intros j t m H. by apply not_elem_of_nil in H.
  - intros pk H. by apply not_elem_of_nil in H.
  - done.
Qed.

Lemma step_inv c ev c' g :
  inv ids cfg_of c g → step c ev c' → ∃ g', gle g g' ∧ inv ids cfg_of c' g'.
Proof using Hdep.
  intros Hinv Hs. destruct Hs.
  - by eapply (timeout_ok ids cfg_of Hdep).
  - by eapply (vote_req_ok ids cfg_of Hdep).
  - exists g. split; [apply gle_refl|]. by eapply (vote_reply_ok ids cfg_of Hdep).
  - by eapply (count_ok ids cfg_of Hdep).
  - exists g. split; [apply gle_refl|]. by eapply send_ok.
  - by eapply (append_step_ok ids cfg_of Hdep).
  - exists g. split; [apply gle_refl|]. by eapply (append_reply_ok ids cfg_of Hdep).
  - by eapply (propose_ok ids cfg_of Hdep).
  - exists g. split; [apply gle_refl|]. by eapply tick_ok.
  - exists g. split; [apply gle_refl|]. apply inv_node; [done|].
    apply set_channel_ok. by eapply inv_nodes.
  - exists g. split; [apply gle_refl|]. apply inv_same; [done| |by left|].
    + eapply restart_ok; [by eapply inv_nodes|done].
    + intros j T el. cbn. intros [Hel _]%map_lookup_filter_Some. by left.
Qed.

Lemma steps_inv c c' : steps c c' → ∀ g,
  inv ids cfg_of c g → ∃ g', gle g g' ∧ inv ids cfg_of c' g'.
Proof using Hdep.
  induction 1 as [c|c ev c1 c2 Hs _ IH]; intros g Hinv; [by exists g; split; [apply gle_refl|]|].
  destruct (step_inv c ev c1 g Hinv Hs) as (g1 & Hg1 & Hinv1).
  destruct (IH g1 Hinv1) as (g2 & Hg2 & Hinv2). exists g2. split; [|done]. by eapply gle_trans.
Qed.

Lemma reachable_inv c : reachable ids cfg_of c → ∃ g, inv ids cfg_of c g.
Proof using Hdep.
  induction 1 as [|c ev c' _ [g Hg] Hs]; [exists ghost_init; apply initial_inv|].
  destruct (step_inv c ev c' g Hg Hs) as (g' & _ & ?). eauto.
Qed.
End Safety.

(** * Totality of the handlers on well-formed logs *)

Lemma timeout_total ids cfg_of g i n : node_ok ids cfg_of g i n → is_Some (onElectionTimeout n).
Proof.
  intros Hn. unfold onElectionTimeout. case_decide; [by eexists|].
  set (n1 := resetElectionTimerLocked _).
  destruct (last_index_ok n1 (no_wf _ _ _ _ _ Hn)) as (e & _ & -> & -> & _). by eexists.
Qed.

Lemma vote_total ids cfg_of g i n req : node_ok ids cfg_of g i n → is_Some (HandleRequestVote n req).
Proof.
  intros Hn. unfold HandleRequestVote. destruct (_ <? _); [by eexists|].
  set (n1 := if _ <? _ then _ else _).
  assert (Hwf : wf_log (nd_log n1)) by (unfold n1; destruct (_ <? _); apply Hn).
  destruct (last_index_ok n1 Hwf) as (e & _ & -> & -> & _). cbn.
  destruct (_ && _); by eexists.
Qed.

Lemma count_total ids cfg_of g i n el now : node_ok ids cfg_of g i n → is_Some (count_vote n el now).
Proof.
  intros Hn. unfold count_vote. destruct (el_done el); [by eexists|].
  destruct (el_voteCh el) as [|b ch]; [by eexists|]. destruct (b && _); [|by eexists].
  unfold become_leader. case_decide; [|by eexists].
  destruct (last_index_ok n (no_wf _ _ _ _ _ Hn)) as (e & _ & -> & _). by eexists.
Qed.

Lemma request_total ids cfg_of g i n p :
  node_ok ids cfg_of g i n → p ∈ nd_peers n → is_Some (replicate_request n p (nd_currentTerm n)).
Proof.
  intros Hn Hp. unfold replicate_request. case_decide as Hl; [|by eexists]. destruct Hl as [Hr _].
  pose proof (no_next _ _ _ _ _ Hn Hr p Hp). pose proof (wl_len _ (no_wf _ _ _ _ _ Hn)).
  rewrite decide_False by lia. rewrite u64_small by lia.
  rewrite (proj2 (Z.ltb_lt (next_index n p - 1) _)) by lia. unfold log_at.
  destruct (nd_log n !! Z.to_nat (next_index n p - 1)) as [e|] eqn:E; [by eexists|].
  apply lookup_ge_None in E. unfold len in *. lia.
Qed.

Lemma propose_total ids cfg_of g i n data : node_ok ids cfg_of g i n → is_Some (Propose n data).
Proof.
  intros Hn. unfold Propose. case_decide; [|by eexists].
  destruct (last_index_ok n (no_wf _ _ _ _ _ Hn)) as (e & _ & -> & _). by eexists.
Qed.

(** ** A concrete run of three nodes *)

Definition demo_ids : list bytes := [str "n1"; str "n2"; str "n3"].
Definition demo_cfg (i : bytes) : Config :=
  mkConfig i (str ":1") [str "a"; str "b"] (str "d") 0 (50 * Millisecond) (150 * Millisecond) (300 * Millisecond).

Lemma demo_deployment : deployment demo_ids demo_cfg.
Proof.
  split.
  - apply (bool_decide_eq_true_1 _). vm_compute. reflexivity.
  - intros i Hi. repeat (apply elem_of_cons in Hi as [->|Hi]; [split; vm_compute; congruence|]).
    by apply not_elem_of_nil in Hi.
  - intros i Hi. repeat (apply elem_of_cons in Hi as [->|Hi]; [split_and!; vm_compute; reflexivity|]).
    by apply not_elem_of_nil in Hi.
Qed.

(** Node [n1] is elected with the vote of [n2], proposes a command, replicates
    it to [n2], commits it and tells [n2]. *)
Definition demo_run : list action :=
  let n1 := str "n1" in let n2 := str "n2" in
  [ATimeout n1; ADeliver 0; ADeliver 2; ACount n1 1; APropose n1 (str "x");
   ASend n1 n2; ADeliver 3; ADeliver 4; ASend n1 n2; ADeliver 5].

Definition demo_cluster : cluster :=
  default (initial demo_ids demo_cfg) (run (initial demo_ids demo_cfg) demo_run).

(** What the theorems need of a node. *)
Definition node_view (c : cluster) (i : bytes) : option (Z * Role * Z * list LogEntry) :=
  (λ n, (nd_currentTerm n, nd_role n, nd_commitIndex n, nd_log n)) <$> c_nodes c !! i.

Lemma demo_reachable : reachable demo_ids demo_cfg demo_cluster.
Proof.
  assert (H : is_Some (run (initial demo_ids demo_cfg) demo_run)) by by_decide.
  destruct H as [c H]. unfold demo_cluster. rewrite H. cbn. unfold id.
  apply steps_reachable with (initial demo_ids demo_cfg); [constructor|]. by eapply run_steps.
Qed.

Lemma demo_view :
  node_view demo_cluster (str "n1") = Some (1, Leader, 1, [dummy; mkLog 1 1 (str "x")])
  ∧ node_view demo_cluster (str "n2") = Some (1, Follower, 1, [dummy; mkLog 1 1 (str "x")])
  ∧ node_view demo_cluster (str "n3") = Some (0, Follower, 0, [dummy]).
Proof. vm_compute. split_and!; reflexivity. Qed.

Lemma node_view_lookup c i t r k l :
  node_view c i = Some (t, r, k, l) → ∃ n, c_nodes c !! i = Some n ∧ nd_currentTerm n = t
    ∧ nd_role n = r ∧ nd_commitIndex n = k ∧ nd_log n = l.
Proof.
  unfold node_view. destruct (c_nodes c !! i) as [n|]; [|done]. cbn. intros [= <- <- <- <-]. eauto 10.
Qed.

(** ** What the properties are about *)

(** Node [i] leads term [T]. *)
Definition leads (c : cluster) (i : bytes) (T : Z) : Prop :=
  ∃ n, c_nodes c !! i = Some n ∧ nd_role n = Leader ∧ nd_currentTerm n = T.

(** The log of node [i]. *)
Definition log_of (c : cluster) (i : bytes) : option (list LogEntry) := nd_log <$> c_nodes c !! i.

(** What node [i] comes back as when it crashes now. *)
Definition restarted (c : cluster) (i : bytes) (ch : chan ApplyMsg) : option (error + Node) :=
  (λ n, NewNode (nd_cfg n) (nd_peers n) ch (nd_disk n)) <$> c_nodes c !! i.

(** Every handler of node [i] returns, on the messages sent to it where it
    takes a message of another node's making. *)
Definition handlers_return (c : cluster) (i : bytes) (n : Node) : Prop :=
  is_Some (onElectionTimeout n)
  ∧ (∀ req, is_Some (HandleRequestVote n req))
  ∧ (∀ el now, is_Some (count_vote n el now))
  ∧ (∀ p, p ∈ nd_peers n → is_Some (replicate_request n p (nd_currentTerm n)))
  ∧ (∀ req, PAppendReq i req ∈ c_net c → is_Some (HandleAppendEntries n req))
  ∧ (∀ p req resp, PAppendResp p req resp ∈ c_net c → ae_LeaderId req = i →
       is_Some (append_reply n p (ae_Term req) (ae_Entries req) resp))
  ∧ (∀ data, is_Some (Propose n data)).

(** The well-formedness of a node's state: the log starts with the dummy entry,
    indices are positions, terms do not decrease and stay below the node's term,
    and what is applied is committed and in the log. *)
Record node_wf (n : Node) : Prop := {
  nwf_term : 0 <= nd_currentTerm n < 2 ^ 64;
  nwf_log : wf_log (nd_log n);
  nwf_below : below (nd_currentTerm n) (nd_log n);
  nwf_applied : 0 <= nd_lastApplied n <= nd_commitIndex n;
  nwf_commit : nd_commitIndex n < len (nd_log n);
  nwf_next : nd_role n = Leader → ∀ p, p ∈ nd_peers n → 1 <= next_index n p <= len (nd_log n);
}.

(** * Consequences of the invariant *)

Lemma reachable_node_wf ids cfg_of c i n :
  deployment ids cfg_of → reachable ids cfg_of c → c_nodes c !! i = Some n → node_wf n.
Proof.
  intros Hdep Hr Hi. destruct (reachable_inv ids cfg_of Hdep c Hr) as [g Hinv].
  pose proof (inv_nodes _ _ _ _ Hinv i n Hi) as []. split; try done.
  by eapply commit_ok_length.
Qed.

Lemma committed_agree ids cfg_of c c' i j n m k :
  deployment ids cfg_of → reachable ids cfg_of c → steps c c' →
  c_nodes c !! i = Some n → c_nodes c' !! j = Some m →
  Z.of_nat k <= nd_commitIndex n → Z.of_nat k <= nd_commitIndex m →
  take (S k) (nd_log n) = take (S k) (nd_log m).
Proof.
  intros Hdep Hr Hs Hi Hj Hk Hk'. destruct (reachable_inv ids cfg_of Hdep c Hr) as [g Hinv].
  destruct (steps_inv ids cfg_of Hdep c c' Hs g Hinv) as (g' & Hg & Hinv').
  pose proof (inv_nodes _ _ _ _ Hinv i n Hi) as [].
  pose proof (inv_nodes _ _ _ _ Hinv' j m Hj) as Hm.
  apply (commit_ok_agree ids g' (nd_log n) (nd_currentTerm n) (nd_commitIndex n) (nd_log m)
    (nd_currentTerm m) (nd_commitIndex m)); [apply Hinv'|done|apply Hm| |apply Hm|done|done].
  eapply commit_ok_mono; [exact Hg|exact no_commit|reflexivity].
Qed.

Lemma reachable_handlers_return ids cfg_of c i n :
  deployment ids cfg_of → reachable ids cfg_of c → c_nodes c !! i = Some n → handlers_return c i n.
Proof.
  intros Hdep Hr Hi. destruct (reachable_inv ids cfg_of Hdep c Hr) as [g Hinv].
  pose proof (inv_nodes _ _ _ _ Hinv i n Hi) as Hn. pose proof (inv_ghost _ _ _ _ Hinv) as Hok.
  split_and!.
  - by eapply timeout_total.
  - intros req. by eapply vote_total.
  - intros el now. by eapply count_total.
  - intros p Hp. by apply (request_total ids cfg_of g i).
  - intros req Hpk. destruct (inv_net _ _ _ _ Hinv _ Hpk) as (_ & Hj & Hap).
    destruct (append_handler_ok ids cfg_of Hdep g i n req Hok Hn Hap Hj) as (n' & resp & g' & E & _).
    rewrite E. by eexists.
  - intros p req resp Hpk Hl.
    destruct (append_reply_node ids cfg_of Hdep g i p req resp n Hok Hn (inv_net _ _ _ _ Hinv _ Hpk) Hl)
      as (n' & E & _). rewrite E. by eexists.
  - intros data. by eapply propose_total.
Qed.

Lemma logs_match ids cfg_of c i j n m k e e' :
  deployment ids cfg_of → reachable ids cfg_of c → c_nodes c !! i = Some n → c_nodes c !! j = Some m →
  nd_log n !! k = Some e → nd_log m !! k = Some e' → le_Term e = le_Term e' →
  take (S k) (nd_log n) = take (S k) (nd_log m).
Proof.
  intros Hdep Hr Hi Hj E E' Ht. destruct (reachable_inv ids cfg_of Hdep c Hr) as [g Hinv].
  eapply (history_agree g); try done.
  - apply (inv_nodes _ _ _ _ Hinv i n Hi).
  - apply (inv_nodes _ _ _ _ Hinv j m Hj).
Qed.

(** * Properties *)

(** C2: election safety: in every reachable state two nodes that lead the same
    term are the same node, although a candidate that hears from the leader of
    its term forgets its vote in that term and may vote again. *)
Theorem raft_election_safety ids cfg_of c i j T :
  deployment ids cfg_of → reachable ids cfg_of c → leads c i T → leads c j T → i = j.
Proof.
  intros Hdep Hr (n & Hi & Hn & <-) (m & Hj & Hm & HT).
  destruct (reachable_inv ids cfg_of Hdep c Hr) as [g Hinv].
  destruct (no_lead _ _ _ _ _ (inv_nodes _ _ _ _ Hinv i n Hi) Hn) as (w & Hw & <- & _).
  destruct (no_lead _ _ _ _ _ (inv_nodes _ _ _ _ Hinv j m Hj) Hm) as (w' & Hw' & <- & _).
  rewrite <- HT, Hw' in Hw. by injection Hw as ->.
Qed.

Lemma raft_election_safety_witness :
  leads demo_cluster (str "n1") 1 ∧ ∀ j, leads demo_cluster j 1 → str "n1" = j.
Proof.
  assert (Hl : leads demo_cluster (str "n1") 1).
  { destruct (node_view_lookup _ _ _ _ _ _ (proj1 demo_view)) as (n & Hn & Ht & Hr & _). exists n. auto. }
  split; [exact Hl|]. intros j Hj.
  exact (raft_election_safety demo_ids demo_cfg demo_cluster (str "n1") j 1
           demo_deployment demo_reachable Hl Hj).
Defined.

(** C8: log matching: if two logs hold an entry of the same term at the same
    position, they agree up to and including it. *)
Theorem raft_log_matching ids cfg_of c i j l l' k e e' :
  deployment ids cfg_of → reachable ids cfg_of c → log_of c i = Some l → log_of c j = Some l' →
  l !! k = Some e → l' !! k = Some e' → le_Term e = le_Term e' → take (S k) l = take (S k) l'.
Proof.
  intros Hdep Hr (n & Hi & ->)%fmap_Some (m & Hj & ->)%fmap_Some. by apply (logs_match ids cfg_of c i j).
Qed.

Lemma raft_log_matching_witness :
  ∃ l l', log_of demo_cluster (str "n1") = Some l ∧ log_of demo_cluster (str "n2") = Some l'
    ∧ take 2 l = take 2 l'.
Proof.
  assert (H1 : log_of demo_cluster (str "n1") = Some [dummy; mkLog 1 1 (str "x")]) by (vm_compute; reflexivity).
  assert (H2 : log_of demo_cluster (str "n2") = Some [dummy; mkLog 1 1 (str "x")]) by (vm_compute; reflexivity).
  eexists _, _. split; [exact H1|]. split; [exact H2|].
  apply (raft_log_matching demo_ids demo_cfg demo_cluster (str "n1") (str "n2") _ _ 1
           (mkLog 1 1 (str "x")) (mkLog 1 1 (str "x")) demo_deployment demo_reachable H1 H2); reflexivity.
Defined.

(** C1: state machine safety: whatever node [i] has committed at one time and
    node [j] has committed at the same or any later time agree, position by
    position, across elections, message loss, reordering, duplication and
    restarts in between. *)
Theorem raft_state_machine_safety ids cfg_of c c' i j n m k :
  deployment ids cfg_of → reachable ids cfg_of c → steps c c' →
  c_nodes c !! i = Some n → c_nodes c' !! j = Some m →
  Z.of_nat k <= nd_commitIndex n → Z.of_nat k <= nd_commitIndex m →
  take (S k) (nd_log n) = take (S k) (nd_log m).
Proof. apply committed_agree. Qed.

Lemma raft_state_machine_safety_witness :
  ∃ n m, c_nodes demo_cluster !! str "n1" = Some n ∧ c_nodes demo_cluster !! str "n2" = Some m
    ∧ nd_commitIndex n = 1 ∧ nd_commitIndex m = 1 ∧ take 2 (nd_log n) = take 2 (nd_log m).
Proof.
  destruct (node_view_lookup _ _ _ _ _ _ (proj1 demo_view)) as (n & Hn & _ & _ & Hcn & _).
  destruct (node_view_lookup _ _ _ _ _ _ (proj1 (proj2 demo_view))) as (m & Hm & _ & _ & Hcm & _).
  exists n, m. split_and!; [exact Hn|exact Hm|exact Hcn|exact Hcm|].
  apply (raft_state_machine_safety demo_ids demo_cfg demo_cluster demo_cluster (str "n1") (str "n2") n m 1
           demo_deployment demo_reachable (steps_refl _) Hn Hm).
  - rewrite Hcn. cbn. lia.
  - rewrite Hcm. cbn. lia.
Defined.

(** C7: leader completeness: what a node has committed is in the log of every
    leader of the same or a higher term, then and at any later time. *)
Theorem raft_leader_completeness ids cfg_of c c' i j n m :
  deployment ids cfg_of → reachable ids cfg_of c → steps c c' →
  c_nodes c !! i = Some n → c_nodes c' !! j = Some m →
  nd_role m = Leader → nd_currentTerm n <= nd_currentTerm m →
  take (S (Z.to_nat (nd_commitIndex n))) (nd_log m) = take (S (Z.to_nat (nd_commitIndex n))) (nd_log n).
Proof.
  intros Hdep Hr Hs Hi Hj Hl HT. destruct (reachable_inv ids cfg_of Hdep c Hr) as [g Hinv].
  destruct (steps_inv ids cfg_of Hdep c c' Hs g Hinv) as (g' & Hg & Hinv').
  pose proof (inv_nodes _ _ _ _ Hinv' j m Hj) as Hm.
  destruct (no_lead _ _ _ _ _ Hm Hl) as (w & _ & _ & Hll).
  pose proof (inv_nodes _ _ _ _ Hinv i n Hi) as [].
  eapply (commit_ok_llog ids g' _ (nd_currentTerm n)); [apply Hinv'| |done|exact HT|exact Hll].
  eapply commit_ok_mono; [exact Hg|exact no_commit|reflexivity].
Qed.

Lemma raft_leader_completeness_witness :
  ∃ n m, c_nodes demo_cluster !! str "n2" = Some n ∧ c_nodes demo_cluster !! str "n1" = Some m
    ∧ take 2 (nd_log m) = take 2 (nd_log n).
Proof.
  destruct (node_view_lookup _ _ _ _ _ _ (proj1 demo_view)) as (m & Hm & Htm & Hrm & _).
  destruct (node_view_lookup _ _ _ _ _ _ (proj1 (proj2 demo_view))) as (n & Hn & Htn & _ & Hcn & _).
  exists n, m. split; [exact Hn|]. split; [exact Hm|].
  pose proof (raft_leader_completeness demo_ids demo_cfg demo_cluster demo_cluster (str "n2") (str "n1") n m
    demo_deployment demo_reachable (steps_refl _) Hn Hm Hrm) as H.
  rewrite Hcn in H. apply H. lia.
Defined.

(** C14: durability: at every moment each node's disk holds its term, vote and
    log, so a crash and restart at any point forgets none of them. *)
Theorem raft_restart_durable ids cfg_of c i n ch :
  deployment ids cfg_of → reachable ids cfg_of c → c_nodes c !! i = Some n →
  ∃ n', restarted c i ch = Some (inr n') ∧ same_persistent n n' ∧ nd_role n' = Follower.
Proof.
  intros Hdep Hr Hi. destruct (reachable_inv ids cfg_of Hdep c Hr) as [g Hinv].
  unfold restarted. rewrite Hi. cbn.
  rewrite (no_recovers _ _ _ _ _ (inv_nodes _ _ _ _ Hinv i n Hi)). by eexists.
Qed.

Lemma raft_restart_durable_witness :
  ∃ n n', c_nodes demo_cluster !! str "n1" = Some n
    ∧ restarted demo_cluster (str "n1") (mkChan 256 [] []) = Some (inr n') ∧ nd_log n' = nd_log n.
Proof.
  destruct (node_view_lookup _ _ _ _ _ _ (proj1 demo_view)) as (n & Hn & _).
  destruct (raft_restart_durable demo_ids demo_cfg demo_cluster (str "n1") n (mkChan 256 [] [])
    demo_deployment demo_reachable Hn) as (n' & E & (_ & _ & Hl) & _).
  exists n, n'. split; [exact Hn|]. split; [exact E|]. symmetry. exact Hl.
Defined.

(** C10: the state of every node is well formed in every reachable state: its
    term fits, its log starts with the dummy entry, holds consecutive indices
    and non-decreasing terms up to the node's own, nothing is applied that is
    not committed, nothing committed that is not in the log, and a leader's
    next indices lie inside its log. *)
Theorem raft_nodes_wellformed ids cfg_of c i n :
  deployment ids cfg_of → reachable ids cfg_of c → c_nodes c !! i = Some n → node_wf n.
Proof. apply reachable_node_wf. Qed.

Lemma raft_nodes_wellformed_witness :
  ∃ n, c_nodes demo_cluster !! str "n2" = Some n ∧ node_wf n ∧ nd_commitIndex n = 1.
Proof.
  destruct (node_view_lookup _ _ _ _ _ _ (proj1 (proj2 demo_view))) as (n & Hn & _ & _ & Hc & _).
  exists n. split; [exact Hn|]. split; [|exact Hc].
  exact (raft_nodes_wellformed demo_ids demo_cfg demo_cluster (str "n2") n demo_deployment demo_reachable Hn).
Defined.

(** C15: no run-time panic: in every reachable state each handler, called with
    any message that was sent to the node, returns: no log index is out of
    range, the last-entry accesses find an entry and the delivery loop ends. *)
Theorem raft_no_panic ids cfg_of c i n :
  deployment ids cfg_of → reachable ids cfg_of c → c_nodes c !! i = Some n → handlers_return c i n.
Proof. apply reachable_handlers_return. Qed.

Lemma raft_no_panic_witness :
  ∃ n, c_nodes demo_cluster !! str "n2" = Some n ∧ is_Some (onElectionTimeout n)
    ∧ is_Some (Propose n (str "y")).
Proof.
  destruct (node_view_lookup _ _ _ _ _ _ (proj1 (proj2 demo_view))) as (n & Hn & _).
  exists n. split; [exact Hn|].
  destruct (raft_no_panic demo_ids demo_cfg demo_cluster (str "n2") n demo_deployment demo_reachable Hn)
    as (H1 & _ & _ & _ & _ & _ & H2).
  split; [exact H1|exact (H2 (str "y"))].
Defined.
