(* ===== verification/Delivery.v ===== *)
(** What the Raft handlers put on the apply channel: every step of a node hands
    over exactly the entries between its old and its new applied index, in log
    order, and touches the channel in no other way. *)

From S2P Require Import Prelude Os Config RaftNode Election Replication.
From S2P Require Import Cluster ClusterInv ClusterMono ClusterSteps ClusterRepl ClusterSafety.

(** Node [n] became [n'] and delivered the entries in between. *)
Record delivers (n n' : Node) : Prop := {
  dl_le : nd_lastApplied n <= nd_lastApplied n';
  dl_ch : nd_applyCh n' = foldl chan_send_or_spawn (nd_applyCh n)
    (apply_msgs (nd_log n') (nd_lastApplied n) (Z.to_nat (nd_lastApplied n' - nd_lastApplied n)));
}.

(** ** Handlers *)

Lemma delivers_quiet n n' :
  nd_lastApplied n' = nd_lastApplied n → nd_applyCh n' = nd_applyCh n → delivers n n'.
Proof. intros Ha Hch. split; rewrite Ha; [lia|]. by rewrite Z.sub_diag. Qed.

Lemma apply_loop_keeps todo : ∀ n n',
  apply_loop todo n = Some n' → nd_commitIndex n' = nd_commitIndex n ∧ nd_log n' = nd_log n
    ∧ nd_role n' = nd_role n ∧ nd_currentTerm n' = nd_currentTerm n ∧ nd_peers n' = nd_peers n
    ∧ nd_nextIndex n' = nd_nextIndex n ∧ nd_matchIndex n' = nd_matchIndex n ∧ nd_cfg n' = nd_cfg n.
Proof.
  induction todo as [|todo IH]; intros n n' H; cbn in H; [by injection H as <-|].
  destruct (log_at _ _) as [e|]; [|done]. cbn in H. by apply IH in H.
Qed.

Lemma apply_loop_range todo : ∀ n n',
  apply_loop todo n = Some n' → 0 <= nd_lastApplied n → nd_lastApplied n + Z.of_nat todo < 2 ^ 64 →
  todo = 0%nat ∨ nd_lastApplied n + Z.of_nat todo < len (nd_log n).
Proof.
  induction todo as [|todo IH]; intros n n' H H0 Hlt; [by left|]. right. cbn [apply_loop] in H.
  rewrite u64_small in H by lia.
  destruct (log_at (nd_log n) (nd_lastApplied n + 1)) as [e|] eqn:E; [|done]. cbn in H.
  apply IH in H; [|cbn; lia..]. cbn in H. destruct H as [->|H]; [|lia].
  unfold log_at in E. apply lookup_lt_Some in E. unfold len. lia.
Qed.

(** When the delivery loop returns, it delivered. *)
Lemma applyCommitted_delivers n n' :
  applyCommittedEntriesLocked n = Some n' → 0 <= nd_lastApplied n → nd_commitIndex n' < len (nd_log n') →
  len (nd_log n') < 2 ^ 64 → delivers n n'.
Proof.
  unfold applyCommittedEntriesLocked. intros H H0 Hc Hl.
  destruct (apply_loop_keeps _ _ _ H) as (Ec & El & _). rewrite Ec, El in *.
  destruct (Z.le_gt_cases (nd_commitIndex n) (nd_lastApplied n)) as [Hle|Hgt].
  { replace (Z.to_nat _) with 0%nat in H by lia. injection H as <-. by apply delivers_quiet. }
  rewrite apply_loop_spec in H by lia. injection H as <-. split; cbn; [lia|].
  do 2 f_equal. lia.
Qed.

Lemma maybeAdvance_cases n n' :
  maybeAdvanceCommitIndexLocked n = Some n' →
  n' = n ∨ ∃ M, applyCommittedEntriesLocked (set_commitIndex M n) = Some n'.
Proof.
  unfold maybeAdvanceCommitIndexLocked. destruct (lastLogIndexLocked n) as [last|]; [|done]. cbn.
  set (todo := Z.to_nat _). clearbody todo. revert last.
  induction todo as [|todo IH]; intros N H; cbn in H; [left; congruence|].
  destruct (log_at _ _) as [e|]; [|done]. cbn in H. case_decide; [|by eapply IH].
  destruct (_ <=? _); [right; eauto|by eapply IH].
Qed.

Lemma append_reply_delivers n p t entries resp n' :
  append_reply n p t entries resp = Some n' → 0 <= nd_lastApplied n →
  nd_commitIndex n' < len (nd_log n') → len (nd_log n') < 2 ^ 64 → delivers n n'.
Proof.
  unfold append_reply. intros H H0 Hc Hl.
  destruct (_ <? _); [injection H as <-; by apply delivers_quiet|].
  case_decide; [|injection H as <-; by apply delivers_quiet].
  destruct (aer_Success resp).
  2: { injection H as <-. by destruct (1 <? _); apply delivers_quiet. }
  destruct (last entries) as [e|]; [|injection H as <-; by apply delivers_quiet].
  apply maybeAdvance_cases in H as [->|[M H]]; [by apply delivers_quiet|].
  apply applyCommitted_delivers in H; [|done..]. by destruct H; split.
Qed.

Lemma HandleAppendEntries_delivers n req n' resp :
  HandleAppendEntries n req = Some (n', resp) → 0 <= nd_lastApplied n →
  nd_commitIndex n' < len (nd_log n') → len (nd_log n') < 2 ^ 64 → delivers n n'.
Proof.
  unfold HandleAppendEntries. intros H H0 Hc Hl.
  destruct (_ <? _); [injection H as <- _; by apply delivers_quiet|].
  pose proof (append_node1 n req) as H1. cbn zeta in H1.
  set (n1 := resetElectionTimerLocked _) in *. clearbody n1. destruct H1 as (_ & _ & Ha & Hch & _).
  destruct (_ <=? _); [injection H as <- _; by apply delivers_quiet|].
  destruct (log_at _ _) as [prev|]; [|done]. cbn [mbind option_bind] in H.
  case_decide; [|injection H as <- _; by apply delivers_quiet].
  destruct (append_entries _ _ _) as [log|]; [|done]. cbn [mbind option_bind] in H.
  set (n2 := persistStateLocked (set_log log n1)) in *.
  destruct (nd_commitIndex n2 <? ae_LeaderCommit req); cbn [mbind option_bind] in H.
  - destruct (lastLogIndexLocked n2) as [ln|]; [|done]. cbn [mbind option_bind] in H.
    destruct (applyCommittedEntriesLocked _) as [n3|] eqn:E; [|done]. cbn [mbind option_bind] in H.
    destruct (lastLogIndexLocked n3); [|done]. injection H as <- _.
    apply applyCommitted_delivers in E; [|cbn; lia|done..]. destruct E as [E1 E2].
    cbn in E1, E2. rewrite Ha in E1, E2. rewrite Hch in E2. by split.
  - destruct (lastLogIndexLocked n2); [|done]. injection H as <- _. by apply delivers_quiet.
Qed.

Lemma HandleRequestVote_quiet n req n' resp :
  HandleRequestVote n req = Some (n', resp) → delivers n n'.
Proof.
  unfold HandleRequestVote. intros H. destruct (_ <? _); [injection H as <- _; by apply delivers_quiet|].
  assert (Hq : ∀ b, delivers n (if b : bool then step_down (rv_Term req) n else n))
    by (intros []; by apply delivers_quiet).
  set (n1 := if _ <? _ then _ else _) in *. assert (Hq1 : delivers n n1) by apply Hq. clearbody n1.
  destruct (lastLogTermLocked n1); [|done]. destruct (lastLogIndexLocked n1); [|done]. cbn in H.
  destruct (_ && _); injection H as <- _; destruct Hq1; by split.
Qed.

Lemma vote_reply_quiet n el p resp n' el' : vote_reply n el p resp = (n', el') → delivers n n'.
Proof.
  unfold vote_reply. destruct resp as [resp|]; [|intros [= <- _]; by apply delivers_quiet].
  destruct (_ <? _); intros [= <- _]; by apply delivers_quiet.
Qed.

Lemma count_vote_quiet n el now n' el' gs : count_vote n el now = Some (n', el', gs) → delivers n n'.
Proof.
  unfold count_vote, become_leader. intros H.
  destruct (el_done el); [injection H as <- _ _; by apply delivers_quiet|].
  destruct (el_voteCh el) as [|b ch]; [injection H as <- _ _; by apply delivers_quiet|].
  destruct (b && _); [|injection H as <- _ _; by apply delivers_quiet].
  case_decide; [|injection H as <- _ _; by apply delivers_quiet].
  destruct (lastLogIndexLocked n); [|done]. injection H as <- _ _. by apply delivers_quiet.
Qed.

Lemma timeout_quiet n n' gs : onElectionTimeout n = Some (n', gs) → delivers n n'.
Proof.
  unfold onElectionTimeout. intros H. case_decide; [injection H as <- _; by apply delivers_quiet|].
  destruct (lastLogIndexLocked _); [|done]. cbn [mbind option_bind] in H.
  destruct (lastLogTermLocked _); [|done]. injection H as <- _. by apply delivers_quiet.
Qed.

Lemma propose_quiet n data n' gs r : Propose n data = Some (n', gs, r) → delivers n n'.
Proof.
  unfold Propose. intros H. case_decide; [|injection H as <- _ _; by apply delivers_quiet].
  destruct (lastLogIndexLocked n); [|done]. injection H as <- _ _. by apply delivers_quiet.
Qed.

Lemma checkTimers_quiet n now n' gs : checkTimers n now = (n', gs) → delivers n n'.
Proof.
  unfold checkTimers. case_decide; [destruct (_ <=? _)|]; intros [= <- _]; by apply delivers_quiet.
Qed.

(** ** Steps of the cluster *)

Lemma upd_node_lookup c i n j m :
  c_nodes (upd_node i n c) !! j = Some m → (j = i ∧ m = n) ∨ (j ≠ i ∧ c_nodes c !! j = Some m).
Proof. cbn. rewrite lookup_insert. case_decide; [intros [= <-]; by left|by right]. Qed.

Lemma spawn_nodes i n gs c : c_nodes (spawn i n gs c) = c_nodes c.
Proof. by destruct gs as [|[] [|]]. Qed.

(** A protocol step lets one node deliver and leaves the others alone. *)
Lemma step_delivers ids cfg_of c ev c' j m :
  deployment ids cfg_of → reachable ids cfg_of c → step c ev c' → raft_event ev = true →
  c_nodes c' !! j = Some m → ∃ n, c_nodes c !! j = Some n ∧ delivers n m.
Proof.
  intros Hdep Hr Hs Hev Hm.
  pose proof (reachable_node_wf _ _ _ _ _ Hdep (reach_step _ _ _ _ _ Hr Hs) Hm) as [_ Hwf _ _ Hc _].
  pose proof (wl_len _ Hwf) as Hl.
  assert (Hone : ∀ i n n', c_nodes c !! i = Some n → delivers n n' →
    c_nodes (upd_node i n' c) !! j = Some m → ∃ n, c_nodes c !! j = Some n ∧ delivers n m).
  { intros i n n' Hi Hd [[-> ->]|[_ Hj]]%upd_node_lookup; [eauto|]. exists m. split; [done|].
    by apply delivers_quiet. }
  assert (H0 : ∀ i n, c_nodes c !! i = Some n → 0 <= nd_lastApplied n).
  { intros i n Hi. apply (reachable_node_wf _ _ _ _ _ Hdep Hr Hi). }
  destruct Hs; try discriminate Hev; rewrite ?spawn_nodes in Hm.
  - eapply Hone; [done| |exact Hm]. by eapply timeout_quiet.
  - eapply Hone; [done| |exact Hm]. by eapply HandleRequestVote_quiet.
  - eapply Hone; [done| |exact Hm]. by eapply vote_reply_quiet.
  - eapply Hone; [done| |exact Hm]. by eapply count_vote_quiet.
  - exists m. split; [done|]. by apply delivers_quiet.
  - apply upd_node_lookup in Hm as [[-> ->]|[_ Hj]]; [|exists m; split; [done|by apply delivers_quiet]].
    exists n. split; [done|]. eapply HandleAppendEntries_delivers; [done|by eapply H0|done|lia].
  - apply upd_node_lookup in Hm as [[-> ->]|[_ Hj]]; [|exists m; split; [done|by apply delivers_quiet]].
    exists n. split; [done|]. eapply append_reply_delivers; [done|by eapply H0|done|lia].
  - eapply Hone; [done| |exact Hm]. by eapply propose_quiet.
  - eapply Hone; [done| |exact Hm]. by eapply checkTimers_quiet.
Qed.
