(* ===== verification/Validity.v ===== *)
(** Validity of the replicated log: nothing enters a log but what a client
    proposed. Entries move between logs only by AppendEntries, so every entry of
    every log is one that some leader accepted by [Propose], with the index and
    term it was given then. *)

From S2P Require Import Prelude Os Config RaftNode Election Replication.
From S2P Require Import Cluster ClusterInv ClusterMono ClusterSteps ClusterRepl ClusterSafety Delivery.

(** ** Specification *)

(** The entry was accepted by a leader at some time up to now. *)
Definition proposed (ids : list bytes) (cfg_of : bytes → Config) (c : cluster) (e : LogEntry) : Prop :=
  ∃ c0 i n n' gs, reachable ids cfg_of c0 ∧ steps c0 c ∧ c_nodes c0 !! i = Some n ∧ nd_role n = Leader
    ∧ Propose n (le_Data e) = Some (n', gs, (le_Index e, le_Term e, true)) ∧ nd_log n' = nd_log n ++ [e].

(** The entry is in a log or in a request of the cluster. *)
Definition present (c : cluster) (e : LogEntry) : Prop :=
  (∃ i n, c_nodes c !! i = Some n ∧ e ∈ nd_log n) ∨ (∃ j req, PAppendReq j req ∈ c_net c ∧ e ∈ ae_Entries req).

(** * Lemmas *)

(** ** What handlers do to the log *)

Lemma timeout_log n n' gs : onElectionTimeout n = Some (n', gs) → nd_log n' = nd_log n.
Proof.
  unfold onElectionTimeout. intros H. case_decide; [by injection H as <- _|].
  destruct (lastLogIndexLocked _); [|done]. cbn [mbind option_bind] in H.
  destruct (lastLogTermLocked _); [|done]. by injection H as <- _.
Qed.

Lemma vote_req_log n req n' resp : HandleRequestVote n req = Some (n', resp) → nd_log n' = nd_log n.
Proof.
  unfold HandleRequestVote. intros H. destruct (_ <? _); [by injection H as <- _|].
  set (n1 := if _ <? _ then _ else _) in *. assert (nd_log n1 = nd_log n) as Hl by (unfold n1; by destruct (_ <? _)).
  clearbody n1. destruct (lastLogTermLocked n1); [|done]. destruct (lastLogIndexLocked n1); [|done]. cbn in H.
  by destruct (_ && _); injection H as <- _.
Qed.

Lemma vote_reply_log n el p resp n' el' : vote_reply n el p resp = (n', el') → nd_log n' = nd_log n.
Proof. unfold vote_reply. destruct resp as [resp|]; [|by intros [= <- _]]. by destruct (_ <? _); intros [= <- _]. Qed.

Lemma count_vote_log n el now n' el' gs : count_vote n el now = Some (n', el', gs) → nd_log n' = nd_log n.
Proof.
  unfold count_vote, become_leader. intros H. destruct (el_done el); [by injection H as <- _ _|].
  destruct (el_voteCh el) as [|b ch]; [by injection H as <- _ _|].
  destruct (b && _); [|by injection H as <- _ _]. case_decide; [|by injection H as <- _ _].
  destruct (lastLogIndexLocked n); [|done]. by injection H as <- _ _.
Qed.

Lemma append_reply_log n p t entries resp n' : append_reply n p t entries resp = Some n' → nd_log n' = nd_log n.
Proof.
  unfold append_reply. intros H. destruct (_ <? _); [by injection H as <-|]. case_decide; [|by injection H as <-].
  destruct (aer_Success resp); [|injection H as <-; by destruct (1 <? _)].
  destruct (last entries) as [e|]; [|by injection H as <-].
  apply maybeAdvance_cases in H as [->|[M H]]; [done|]. by apply apply_loop_keeps in H as (_ & -> & _).
Qed.

Lemma checkTimers_log n now n' gs : checkTimers n now = (n', gs) → nd_log n' = nd_log n.
Proof. unfold checkTimers. case_decide; [destruct (_ <=? _)|]; by intros [= <- _]. Qed.

Lemma append_entries_elem entries : ∀ log idx log' e,
  append_entries log idx entries = Some log' → e ∈ log' → e ∈ log ∨ e ∈ entries.
Proof.
  induction entries as [|x entries IH]; intros log idx log' e H He; cbn in H; [injection H as <-; by left|].
  assert (Hstep : ∃ log1, append_entries log1 (u64 (idx + 1)) entries = Some log'
    ∧ ∀ y, y ∈ log1 → y ∈ log ∨ y = x).
  { destruct (idx <? len log).
    - destruct (log_at log idx) as [old|]; [|done]. cbn in H. eexists. split; [exact H|]. intros y.
      case_decide; [by left|]. intros [Hy|Hy%list_elem_of_singleton]%elem_of_app; [left|by right].
      by eapply subseteq_take.
    - eexists. split; [exact H|]. by intros y [Hy|Hy%list_elem_of_singleton]%elem_of_app; [left|right]. }
  destruct Hstep as (log1 & H1 & Hl1). destruct (IH _ _ _ e H1 He) as [He1|He1]; [|right; by right].
  destruct (Hl1 e He1) as [?| ->]; [by left|right; left].
Qed.

Lemma append_log_elem n req n' resp e :
  HandleAppendEntries n req = Some (n', resp) → e ∈ nd_log n' → e ∈ nd_log n ∨ e ∈ ae_Entries req.
Proof.
  unfold HandleAppendEntries. intros H He. destruct (_ <? _); [injection H as <- _; by left|].
  pose proof (append_node1 n req) as H1. cbn zeta in H1.
  set (n1 := resetElectionTimerLocked _) in *. clearbody n1. destruct H1 as (Hl & _). rewrite <- Hl.
  destruct (_ <=? _); [injection H as <- _; by left|].
  destruct (log_at _ _) as [prev|]; [|done]. cbn [mbind option_bind] in H.
  case_decide; [|injection H as <- _; left; cbn in He; by apply subseteq_take in He].
  destruct (append_entries _ _ _) as [log|] eqn:Ea; [|done]. cbn [mbind option_bind] in H.
  assert (Hn' : nd_log n' = log); [|rewrite Hn' in He; by eapply append_entries_elem].
  set (n2 := persistStateLocked (set_log log n1)) in *.
  destruct (nd_commitIndex n2 <? ae_LeaderCommit req); cbn [mbind option_bind] in H.
  - destruct (lastLogIndexLocked n2) as [ln|]; [|done]. cbn [mbind option_bind] in H.
    destruct (applyCommittedEntriesLocked _) as [n3|] eqn:E; [|done]. cbn [mbind option_bind] in H.
    destruct (lastLogIndexLocked n3); [|done]. injection H as <- _. by apply apply_loop_keeps in E as (_ & -> & _).
  - destruct (lastLogIndexLocked n2); [|done]. by injection H as <- _.
Qed.

Lemma request_elem n p t req e :
  replicate_request n p t = Some (Some req) → e ∈ ae_Entries req → e ∈ nd_log n.
Proof.
  unfold replicate_request. intros H He. case_decide; [|done].
  set (nextIdx := if decide _ then _ else _) in *. clearbody nextIdx.
  apply bind_Some in H as (t' & _ & H). injection H as <-. cbn in He.
  destruct (nextIdx <? _); [by apply subseteq_drop in He|by apply not_elem_of_nil in He].
Qed.

Lemma propose_log n data n' gs r :
  Propose n data = Some (n', gs, r) → n' = n ∨ ∃ e, nd_role n = Leader ∧ le_Data e = data
    ∧ r = (le_Index e, le_Term e, true) ∧ nd_log n' = nd_log n ++ [e].
Proof.
  unfold Propose. intros H. case_decide; [right|left; by injection H].
  destruct (lastLogIndexLocked n) as [last|]; [|done]. cbn in H. injection H as <- _ <-.
  by eexists (mkLog _ _ data).
Qed.

(** ** Where entries come from *)

Section Validity.
Context (ids : list bytes) (cfg_of : bytes → Config) (Hdep : deployment ids cfg_of).

Lemma present_node c i n e : c_nodes c !! i = Some n → e ∈ nd_log n → present c e.
Proof. left. eauto. Qed.

Lemma present_upd c i n n' e :
  c_nodes c !! i = Some n → (e ∈ nd_log n' → present c e) → present (upd_node i n' c) e → present c e.
Proof.
  intros Hi Hn' [(j & m & Hm & He)|Hnet]; [|by right]. cbn in Hm.
  apply lookup_insert_Some in Hm as [[<- <-]|[_ Hm]]; [by apply Hn'|by eapply present_node].
Qed.

Lemma present_same c i n n' e :
  c_nodes c !! i = Some n → nd_log n' = nd_log n → present (upd_node i n' c) e → present c e.
Proof. intros Hi Hl. apply (present_upd c i n); [done|]. rewrite Hl. by apply present_node with i. Qed.

Lemma present_send c ps e :
  (∀ j req, PAppendReq j req ∈ ps → e ∈ ae_Entries req → present c e) → present (send ps c) e → present c e.
Proof.
  intros Hps [Hn|(j & req & [Hin|Hin]%elem_of_app & He)]; [by left|right; eauto|by eapply Hps].
Qed.

Lemma present_propose c i n data n' gs r e :
  c_nodes c !! i = Some n → Propose n data = Some (n', gs, r) → present (upd_node i n' c) e →
  present c e ∨ nd_role n = Leader ∧ le_Data e = data ∧ r = (le_Index e, le_Term e, true)
    ∧ nd_log n' = nd_log n ++ [e].
Proof.
  intros Hi Hp He. destruct (propose_log _ _ _ _ _ Hp) as [->|(e' & Hl & <- & -> & Hlog)].
  { left. eapply present_same; [exact Hi| |exact He]; done. }
  destruct (decide (e = e')) as [->|Hne]; [by right|left].
  eapply present_upd; [done| |done]. rewrite Hlog.
  intros [?|?%list_elem_of_singleton]%elem_of_app; [by eapply present_node|done].
Qed.

Lemma present_spawn c i n gs e : present (spawn i n gs c) e → present c e.
Proof.
  unfold spawn. destruct gs as [|[] [|]]; try done. intros H. apply present_send in H; [done|].
  intros j req (p & [=] & _)%list_elem_of_fmap.
Qed.

(** An entry of the next state was there before, or is being proposed. *)
Lemma step_present c ev c' e :
  reachable ids cfg_of c → step c ev c' → present c' e →
  present c e ∨ ∃ i n n' gs, ev = EvPropose i ∧ c_nodes c !! i = Some n ∧ nd_role n = Leader
    ∧ Propose n (le_Data e) = Some (n', gs, (le_Index e, le_Term e, true)) ∧ nd_log n' = nd_log n ++ [e].
Proof using Hdep.
  intros Hr Hs. destruct Hs; intros He.
  - left. apply present_spawn in He. eapply present_same; [done| |done]. by eapply timeout_log.
  - left. apply present_send in He; [|by intros ? ? [=]%list_elem_of_singleton].
    eapply present_same; [done| |done]. by eapply vote_req_log.
  - left. eapply present_same; [done| |exact He]. by eapply vote_reply_log.
  - left. eapply present_same; [done| |exact He]. by eapply count_vote_log.
  - left. eapply present_send; [|done]. intros ? ? [= -> ->]%list_elem_of_singleton ?.
    eapply present_node; [done|]. by eapply request_elem.
  - left. apply present_send in He; [|by intros ? ? [=]%list_elem_of_singleton].
    eapply present_upd; [done| |done]. intros He'.
    edestruct append_log_elem as [Hl|Hq]; [done|done|by eapply present_node|right; eauto].
  - left. eapply present_same; [done| |done]. by eapply append_reply_log.
  - destruct (present_propose _ _ _ _ _ _ _ _ H H2 He) as [?|(Hl & <- & -> & Hlog)]; [by left|].
    right. by exists i, n, n', gs.
  - left. eapply present_same; [done| |done]. by eapply checkTimers_log.
  - left. eapply present_same; [exact H| |exact He]; done.
  - left. destruct (reachable_inv _ _ Hdep c Hr) as [g Hg].
    pose proof (no_recovers _ _ _ _ _ (inv_nodes _ _ _ _ Hg i n H) ch) as Hrec. rewrite Hrec in H0.
    injection H0 as <-. eapply present_same; [exact H| |exact He]; done.
Qed.

Lemma proposed_mono c c' e : steps c c' → proposed ids cfg_of c e → proposed ids cfg_of c' e.
Proof.
  intros Hs (c0 & i & n & n' & gs & Hr & Hs0 & H). exists c0, i, n, n', gs. split; [done|].
  split; [by eapply steps_trans|done].
Qed.

Lemma present_proposed c e :
  reachable ids cfg_of c → present c e → e = dummy ∨ proposed ids cfg_of c e.
Proof using Hdep.
  induction 1 as [|c ev c' Hr IH Hs]; intros He.
  - left. destruct He as [(i & n & [_ ->]%initial_lookup & He)|(? & ? & H & _)].
    + by apply list_elem_of_singleton in He.
    + by apply not_elem_of_nil in H.
  - destruct (step_present c ev c' e Hr Hs He) as [H|(i & n & n' & gs & _ & Hi & Hl & Hp & Hlog)].
    2: { right. exists c, i, n, n', gs. split_and!; try done. eapply steps_step; [exact Hs|constructor]. }
    destruct (IH H) as [?|?]; [by left|right]. eapply proposed_mono; [|done].
    eapply steps_step; [exact Hs|constructor].
Qed.

(** * Theorems *)

End Validity.

