(* ===== verification/Progress.v ===== *)
(** Progress of replication: repeated exchanges between a leader and a peer end.
    An exchange is one AppendEntries request, its handling and its reply; each
    rejected one moves the leader's next index back by one, and position 0
    always matches, so after at most [nextIndex] exchanges the peer holds the
    leader's log; with a quorum of such peers the leader commits its whole log. *)

From S2P Require Import Prelude Os Config RaftNode Election Replication.
From S2P Require Import Cluster ClusterInv ClusterMono ClusterSteps ClusterRepl ClusterSafety Delivery.

(** One exchange between leader [i] and peer [p] with nothing lost. *)
Definition exchange (i p : bytes) (c : cluster) : option cluster :=
  n ← c_nodes c !! i;
  m ← c_nodes c !! p;
  req ← replicate_request n p (nd_currentTerm n);
  req ← req;
  '(m', resp) ← HandleAppendEntries m req;
  n' ← append_reply n p (ae_Term req) (ae_Entries req) resp;
  Some (upd_node i n' (send [PAppendResp p req resp] (upd_node p m' (send [PAppendReq p req] c)))).

(** [k] exchanges in a row. *)
Fixpoint exchanges (k : nat) (i p : bytes) (c : cluster) : option cluster :=
  match k with
  | O => Some c
  | S k => c ← exchange i p c; exchanges k i p c
  end.

(** ** Specification *)

(** [n'] still leads the term of [n] with the same log. *)
Definition still_leads (n n' : Node) : Prop :=
  nd_role n' = Leader ∧ nd_currentTerm n' = nd_currentTerm n ∧ nd_log n' = nd_log n ∧ nd_peers n' = nd_peers n.

(** The peer's log starts with the leader's log. *)
Definition synced (n m : Node) : Prop := take (length (nd_log n)) (nd_log m) = nd_log n.

(** * Lemmas *)

(** ** The peer's side *)

(** What the append handler answers to a request of its term or a newer one. *)
Lemma append_outcome m req m' resp :
  HandleAppendEntries m req = Some (m', resp) → nd_currentTerm m <= ae_Term req → 0 <= ae_PrevLogIndex req →
  ae_PrevLogIndex req + len (ae_Entries req) + 1 < 2 ^ 64 →
  nd_currentTerm m' = ae_Term req ∧ aer_Term resp = nd_currentTerm m
  ∧ ((∃ prev, nd_log m !! Z.to_nat (ae_PrevLogIndex req) = Some prev ∧ le_Term prev = ae_PrevLogTerm req
        ∧ aer_Success resp = true
        ∧ nd_log m' = merged_log (nd_log m) (Z.to_nat (ae_PrevLogIndex req)) (ae_Entries req))
     ∨ aer_Success resp = false
       ∧ (∀ prev, nd_log m !! Z.to_nat (ae_PrevLogIndex req) = Some prev → le_Term prev ≠ ae_PrevLogTerm req)).
Proof.
  intros H Ht Hp Hlt. unfold HandleAppendEntries in H. rewrite (proj2 (Z.ltb_ge _ _)) in H by lia.
  pose proof (append_node1 m req) as H1. cbn zeta in H1. set (m1 := resetElectionTimerLocked _) in *.
  destruct H1 as (Hl & _ & _ & _ & Ht1). specialize (Ht1 Ht). clearbody m1. rewrite Hl in H.
  destruct (Z.leb_spec (len (nd_log m)) (ae_PrevLogIndex req)) as [Hout|Hin].
  { injection H as <- <-. split; [done|]. split; [done|]. right. split; [done|]. intros prev E.
    apply lookup_lt_Some in E. unfold len in Hout. lia. }
  unfold log_at in H. destruct (nd_log m !! Z.to_nat (ae_PrevLogIndex req)) as [prev|] eqn:E; [|done].
  cbn [mbind option_bind] in H. case_decide as D.
  2: { injection H as <- <-. split; [done|]. split; [done|]. right. split; [done|]. by intros ? [= <-]. }
  pose proof (lookup_lt_Some _ _ _ E) as Hplt. pose proof (len_nonneg (ae_Entries req)).
  rewrite u64_small in H by lia.
  replace (ae_PrevLogIndex req + 1) with (Z.of_nat (S (Z.to_nat (ae_PrevLogIndex req)))) in H by lia.
  rewrite append_entries_spec in H by lia. cbn [mbind option_bind] in H.
  set (m2 := persistStateLocked _) in H.
  assert (Hm2 : ∀ m3, (if nd_commitIndex m2 <? ae_LeaderCommit req
      then lastNewIndex ← lastLogIndexLocked m2;
        applyCommittedEntriesLocked (set_commitIndex
          (if ae_LeaderCommit req <? lastNewIndex then ae_LeaderCommit req else lastNewIndex) m2)
      else Some m2) = Some m3 → nd_log m3 = nd_log m2 ∧ nd_currentTerm m3 = nd_currentTerm m2).
  { intros m3 Em. destruct (_ <? _); [|by injection Em as <-].
    destruct (lastLogIndexLocked m2); [|done]. cbn in Em. by apply apply_loop_keeps in Em as (_ & ? & _ & ? & _). }
  destruct (if nd_commitIndex m2 <? ae_LeaderCommit req then _ else _) as [m3|] eqn:Em; [|done].
  destruct (Hm2 m3 eq_refl) as [Hl3 Ht3]. cbn [mbind option_bind] in H.
  destruct (lastLogIndexLocked m3); [|done]. injection H as <- <-. rewrite Ht3. split; [done|]. split; [done|].
  left. exists prev. by rewrite Hl3.
Qed.

Lemma match_len_terms old new k o e :
  (k < match_len old new)%nat → old !! k = Some o → new !! k = Some e → le_Term o = le_Term e.
Proof.
  revert new k. induction old as [|o' old IH]; intros [|e' new] k Hk; cbn in Hk; try lia.
  case_decide; [|lia]. destruct k as [|k]; cbn; [by intros [= <-] [= <-]|]. apply IH. lia.
Qed.

Lemma match_len_le_old old new : (match_len old new ≤ length old)%nat.
Proof. revert new. induction old as [|o old IH]; intros [|e new]; cbn; try lia. case_decide; [|lia]. specialize (IH new). lia. Qed.

(** Merging the rest of the leader's log into a log that matches it gives the
    leader's log. *)
Lemma merge_rest (L lm : list LogEntry) p :
  (∀ k e e', L !! k = Some e → lm !! k = Some e' → le_Term e = le_Term e' → take (S k) L = take (S k) lm) →
  (p < length L)%nat → take (S p) L = take (S p) lm →
  take (length L) (merged_log lm p (drop (S p) L)) = L.
Proof.
  intros Hmatch Hp Htake. unfold merged_log. set (k := match_len (drop (S p) lm) (drop (S p) L)).
  pose proof (match_len_le (drop (S p) lm) (drop (S p) L)) as Hk1.
  pose proof (match_len_le_old (drop (S p) lm) (drop (S p) L)) as Hk2. fold k in Hk1, Hk2.
  rewrite length_drop in Hk1, Hk2.
  assert (Hag : take (S p + k) L = take (S p + k) lm).
  { destruct k as [|k'] eqn:Ek; [by rewrite Nat.add_0_r|].
    destruct (lookup_lt_is_Some_2 L (S p + k')) as [e He]; [lia|].
    destruct (lookup_lt_is_Some_2 lm (S p + k')) as [e' He']; [lia|].
    replace (S p + S k')%nat with (S (S p + k')) by lia. apply (Hmatch _ e e' He He').
    symmetry. eapply (match_len_terms (drop (S p) lm) (drop (S p) L) k'); [unfold k in Ek; lia|..];
      by rewrite lookup_drop. }
  case_decide as D.
  - rewrite length_drop in D. replace (S p + k)%nat with (length L) in Hag by lia.
    by rewrite <- Hag, take_ge by lia.
  - rewrite <- Hag, drop_drop, take_drop. by apply take_ge.
Qed.

(** ** The leader's side *)

Lemma request_shape n p :
  node_wf n → nd_role n = Leader → p ∈ nd_peers n →
  ∃ e, nd_log n !! Z.to_nat (next_index n p - 1) = Some e
    ∧ replicate_request n p (nd_currentTerm n) =
        Some (Some (mkAppendReq (nd_currentTerm n) (nd_id n) (next_index n p - 1) (le_Term e)
          (drop (Z.to_nat (next_index n p)) (nd_log n)) (nd_commitIndex n))).
Proof.
  intros [_ Hwf _ _ _ Hnx] Hr Hp. specialize (Hnx Hr p Hp). pose proof (wl_len _ Hwf).
  destruct (lookup_lt_is_Some_2 (nd_log n) (Z.to_nat (next_index n p - 1))) as [e He]; [unfold len in *; lia|].
  exists e. split; [done|]. unfold replicate_request. rewrite decide_True by done.
  rewrite decide_False by lia. rewrite u64_small by lia.
  rewrite (proj2 (Z.ltb_lt (next_index n p - 1) _)) by lia. unfold log_at. rewrite He. cbn.
  destruct (Z.ltb_spec (next_index n p) (len (nd_log n))); [done|].
  rewrite drop_ge by (unfold len in *; lia). done.
Qed.

(** The commit rule keeps everything but the commit index and what follows. *)
Lemma maybeAdvance_keeps n n' :
  maybeAdvanceCommitIndexLocked n = Some n' →
  nd_log n' = nd_log n ∧ nd_role n' = nd_role n ∧ nd_currentTerm n' = nd_currentTerm n
  ∧ nd_peers n' = nd_peers n ∧ nd_nextIndex n' = nd_nextIndex n ∧ nd_matchIndex n' = nd_matchIndex n
  ∧ nd_cfg n' = nd_cfg n.
Proof.
  intros [->|[M H]]%maybeAdvance_cases; [done|]. by apply apply_loop_keeps in H as (_ & ? & ? & ? & ? & ? & ? & ?).
Qed.

(** The commit rule reaches the end of the log when a quorum has it. *)
Lemma maybeAdvance_reaches n n' e :
  last (nd_log n) = Some e → le_Index e = len (nd_log n) - 1 → 0 <= nd_commitIndex n < len (nd_log n) →
  maybeAdvanceCommitIndexLocked n = Some n' →
  nd_commitIndex n <= nd_commitIndex n' < len (nd_log n)
  ∧ (committable n (len (nd_log n) - 1) → nd_commitIndex n' = len (nd_log n) - 1).
Proof.
  intros He Hi Hc. unfold maybeAdvanceCommitIndexLocked, lastLogIndexLocked, last_entry. rewrite He. cbn. rewrite Hi.
  destruct (advance_loop_spec (Z.to_nat (len (nd_log n) - 1 - nd_commitIndex n)) (len (nd_log n) - 1) n)
    as [[-> Hno]|(M & HM & _ & Hno & ->)]; [lia..| |].
  - intros [= <-]. split; [lia|]. intros Hcm.
    destruct (decide (nd_commitIndex n = len (nd_log n) - 1)); [done|]. destruct (Hno (len (nd_log n) - 1)); [lia|done].
  - intros (Hcx & _)%apply_loop_keeps. cbn in Hcx. rewrite Hcx. split; [lia|]. intros Hcm.
    destruct (decide (M = len (nd_log n) - 1)); [done|]. destruct (Hno (len (nd_log n) - 1)); [lia|done].
Qed.

Lemma last_drop {A} (l : list A) k : (k < length l)%nat → last (drop k l) = last l.
Proof. intros Hk. rewrite !last_lookup, lookup_drop, length_drop. f_equal. lia. Qed.

(** Indices of the other peers are left alone. *)
Definition same_others (p : bytes) (n n' : Node) : Prop :=
  ∀ q, q ≠ p → match_index n' q = match_index n q ∧ next_index n' q = next_index n q.

Lemma set_indices_others p nx mt n n' :
  nd_nextIndex n' = <[p := nx]> (nd_nextIndex n) → nd_matchIndex n' = <[p := mt]> (nd_matchIndex n) →
  same_others p n n' ∧ next_index n' p = nx ∧ match_index n' p = mt.
Proof.
  intros Hn Hm. split; [intros q Hq|]; unfold match_index, next_index; rewrite Hn, Hm.
  - by rewrite !lookup_insert_ne.
  - by rewrite !lookup_insert_eq.
Qed.

(** A successful reply to a request that carried entries. *)
Lemma reply_success n p resp n' :
  node_wf n → nd_role n = Leader → aer_Term resp <= nd_currentTerm n → aer_Success resp = true →
  1 <= next_index n p < len (nd_log n) →
  append_reply n p (nd_currentTerm n) (drop (Z.to_nat (next_index n p)) (nd_log n)) resp = Some n' →
  still_leads n n' ∧ same_others p n n' ∧ nd_commitIndex n <= nd_commitIndex n'
  ∧ match_index n' p = len (nd_log n) - 1
  ∧ (committable n' (len (nd_log n) - 1) → nd_commitIndex n' = len (nd_log n) - 1).
Proof.
  intros Hn Hr Ht Hs Hnx H. pose proof Hn as [_ Hwf _ Ha Hc _]. pose proof (wl_len _ Hwf).
  destruct (wf_last _ Hwf) as (x & Hx & Hxi & _).
  unfold append_reply in H. rewrite (proj2 (Z.ltb_ge _ _)) in H by lia. rewrite decide_True in H by done.
  rewrite Hs, last_drop, Hx, Hxi, u64_small in H by (unfold len in *; lia). set (n1 := set_indices _ _ n) in H.
  pose proof (maybeAdvance_keeps _ _ H) as (Hl & Hro & Htm & Hpe & Hni & Hmi & Hcf).
  destruct (maybeAdvance_reaches n1 n' x Hx Hxi ltac:(cbn; lia) H) as [Hcm Hfull]. cbn in *.
  destruct (set_indices_others p _ _ n n' Hni Hmi) as (Hot & _ & Hmp).
  split; [split_and!; congruence|]. split; [done|]. split; [lia|]. split; [done|].
  intros (e & He & Het & Hq). apply Hfull. exists e. rewrite Hl, Htm, Hcf in *. split; [done|]. split; [done|].
  cbn in *. unfold match_count, match_index in *. cbn. rewrite Hpe, Hmi in Hq. exact Hq.
Qed.

(** A rejection moves the next index back. *)
Lemma reply_failure n p entries resp n' :
  nd_role n = Leader → aer_Term resp <= nd_currentTerm n → aer_Success resp = false → 1 < next_index n p →
  append_reply n p (nd_currentTerm n) entries resp = Some n' →
  still_leads n n' ∧ same_others p n n' ∧ nd_commitIndex n' = nd_commitIndex n
  ∧ next_index n' p = next_index n p - 1.
Proof.
  intros Hr Ht Hs H1 H. unfold append_reply in H. rewrite (proj2 (Z.ltb_ge _ _)) in H by lia.
  rewrite decide_True, Hs, (proj2 (Z.ltb_lt _ _)) in H by (done || lia). injection H as <-.
  split; [done|]. split; [|split; [done|]].
  - intros q Hq. unfold match_index, next_index. cbn. by rewrite lookup_insert_ne.
  - unfold next_index at 1. cbn. by rewrite lookup_insert_eq.
Qed.

(** A successful reply to an empty request changes nothing. *)
Lemma reply_empty n p resp :
  nd_role n = Leader → aer_Term resp <= nd_currentTerm n → aer_Success resp = true →
  append_reply n p (nd_currentTerm n) [] resp = Some n.
Proof.
  intros Hr Ht Hs. unfold append_reply. rewrite (proj2 (Z.ltb_ge _ _)) by lia.
  by rewrite decide_True, Hs by done.
Qed.

(** ** One exchange *)

Section Exchange.
Context (ids : list bytes) (cfg_of : bytes → Config) (Hdep : deployment ids cfg_of).

Lemma leader_peer c i n p :
  reachable ids cfg_of c → c_nodes c !! i = Some n → p ∈ nd_peers n → nd_id n = i ∧ p ≠ i ∧ p ∈ ids.
Proof using Hdep.
  intros Hr Hi Hp. destruct (reachable_inv ids cfg_of Hdep c Hr) as [g Hinv].
  pose proof (inv_nodes _ _ _ _ Hinv i n Hi) as []. rewrite no_peers in Hp.
  by apply peers_of_spec in Hp as [? ?].
Qed.

(** The three steps of an exchange are steps of the cluster, and none panics. *)
Lemma exchange_steps c i p n m req :
  reachable ids cfg_of c → c_nodes c !! i = Some n → p ∈ nd_peers n → c_nodes c !! p = Some m →
  replicate_request n p (nd_currentTerm n) = Some (Some req) → ae_Term req = nd_currentTerm n →
  ae_LeaderId req = i →
  ∃ c' m' resp n', exchange i p c = Some c' ∧ steps c c'
    ∧ HandleAppendEntries m req = Some (m', resp)
    ∧ append_reply n p (nd_currentTerm n) (ae_Entries req) resp = Some n'
    ∧ c_nodes c' = <[i := n']> (<[p := m']> (c_nodes c)).
Proof using Hdep.
  intros Hr Hi Hp Hm Hreq Hte Hld. destruct (leader_peer c i n p Hr Hi Hp) as (Hid & Hne & _).
  set (c1 := send [PAppendReq p req] c).
  assert (Hs1 : step c (EvSend i p) c1) by (by eapply step_send).
  pose proof (reach_step _ _ _ _ _ Hr Hs1) as Hr1.
  assert (Hin1 : PAppendReq p req ∈ c_net c1) by (cbn; apply elem_of_app; right; by left).
  destruct (reachable_handlers_return ids cfg_of c1 p m Hdep Hr1 Hm) as (_ & _ & _ & _ & Hh & _).
  destruct (Hh req Hin1) as [[m' resp] Em].
  set (c2 := send [PAppendResp p req resp] (upd_node p m' c1)).
  assert (Hs2 : step c1 (EvAppend p req resp) c2) by (by eapply step_append).
  pose proof (reach_step _ _ _ _ _ Hr1 Hs2) as Hr2.
  assert (Hi2 : c_nodes c2 !! i = Some n) by (cbn; by rewrite lookup_insert_ne).
  assert (Hin2 : PAppendResp p req resp ∈ c_net c2) by (cbn; apply elem_of_app; right; by left).
  destruct (reachable_handlers_return ids cfg_of c2 i n Hdep Hr2 Hi2) as (_ & _ & _ & _ & _ & Hh2 & _).
  destruct (Hh2 p req resp Hin2 Hld) as [n' En].
  assert (Hs3 : step c2 (EvAppendReply i p) (upd_node i n' c2)) by (by eapply step_append_reply).
  exists (upd_node i n' c2), m', resp, n'. split; [|split; [|split; [done|split; [by rewrite <- Hte|done]]]].
  - unfold exchange. rewrite Hi, Hm. cbn [mbind option_bind]. rewrite Hreq. cbn [mbind option_bind].
    rewrite Em. cbn [mbind option_bind]. by rewrite En.
  - do 3 (eapply steps_step; [eassumption|]). constructor.
Qed.

(** The result of one exchange: the peer is synced, or the next index moved
    back. *)
Lemma exchange_ok c i p n m :
  reachable ids cfg_of c → c_nodes c !! i = Some n → nd_role n = Leader → p ∈ nd_peers n →
  c_nodes c !! p = Some m → nd_currentTerm m <= nd_currentTerm n →
  ∃ c' n' m', exchange i p c = Some c' ∧ steps c c'
    ∧ c_nodes c' = <[i := n']> (<[p := m']> (c_nodes c))
    ∧ still_leads n n' ∧ same_others p n n' ∧ nd_commitIndex n <= nd_commitIndex n'
    ∧ nd_currentTerm m' = nd_currentTerm n
    ∧ (synced n m' ∧ (next_index n p < len (nd_log n) → match_index n' p = len (nd_log n) - 1
         ∧ (committable n' (len (nd_log n) - 1) → nd_commitIndex n' = len (nd_log n) - 1))
       ∨ 1 < next_index n p ∧ next_index n' p = next_index n p - 1).
Proof using Hdep.
  intros Hr Hi Hl Hp Hm Ht. pose proof (reachable_node_wf _ _ _ _ _ Hdep Hr Hi) as Hn.
  pose proof (reachable_node_wf _ _ _ _ _ Hdep Hr Hm) as [_ Hwfm _ _ _ _].
  destruct (leader_peer c i n p Hr Hi Hp) as (Hid & Hne & _).
  destruct (request_shape n p Hn Hl Hp) as (e & He & Hreq).
  destruct (exchange_steps c i p n m _ Hr Hi Hp Hm Hreq eq_refl Hid) as (c' & m' & resp & n' & Ex & Hs & Em & En & Hc').
  cbn [ae_Entries] in En. pose proof Hn as [_ Hwf _ _ _ Hnx]. specialize (Hnx Hl p Hp). pose proof (wl_len _ Hwf).
  destruct (append_outcome _ _ _ _ Em) as (Htm & Htr & Hcase); cbn in *; [lia|lia|unfold len in *; rewrite length_drop; lia|].
  exists c', n', m'. split; [done|]. split; [done|]. split; [done|].
  destruct Hcase as [(prev & Hprev & Hpt & Hsucc & Hlog)|[Hfail Hno]].
  - assert (Hsync : synced n m').
    { unfold synced. rewrite Hlog. replace (Z.to_nat (next_index n p)) with (S (Z.to_nat (next_index n p - 1))) by lia.
      apply merge_rest; [|by eapply lookup_lt_Some|].
      - intros k x x' Hx Hx' Hxt. by apply (logs_match ids cfg_of c i p n m k x x').
      - by apply (logs_match ids cfg_of c i p n m _ e prev). }
    destruct (Z.lt_ge_cases (next_index n p) (len (nd_log n))) as [Hlt|Hge].
    + destruct (reply_success n p resp n' Hn Hl ltac:(lia) Hsucc ltac:(lia) En) as (? & ? & ? & ? & ?).
      split_and!; try done. left. by split.
    + rewrite drop_ge, reply_empty in En by (unfold len in *; done || lia). injection En as <-.
      split_and!; try done. left. split; [done|]. lia.
  - assert (1 < next_index n p) as H1.
    { destruct (decide (next_index n p = 1)) as [E1|]; [|lia]. exfalso.
      replace (Z.to_nat (next_index n p - 1)) with 0%nat in He, Hno by lia.
      rewrite (wl_head _ Hwf) in He. injection He as <-. by apply (Hno dummy (wl_head _ Hwfm)). }
    destruct (reply_failure n p _ resp n' Hl ltac:(lia) Hfail H1 En) as (? & ? & Hci & ?).
    split_and!; try done; [lia|]. by right.
Qed.
End Exchange.

(** ** Exchanges until the peer is synced *)

Section Sync.
Context (ids : list bytes) (cfg_of : bytes → Config) (Hdep : deployment ids cfg_of).

(** What bringing peer [p] up to date leaves: cluster [c'], leader [n']. *)
Record sync_result (i p : bytes) (c c' : cluster) (n n' : Node) : Prop := {
  sr_steps : steps c c';
  sr_leader : c_nodes c' !! i = Some n';
  sr_peer : ∃ m', c_nodes c' !! p = Some m' ∧ synced n m' ∧ nd_currentTerm m' = nd_currentTerm n;
  sr_nodes : ∀ j, j ≠ i → j ≠ p → c_nodes c' !! j = c_nodes c !! j;
  sr_leads : still_leads n n';
  sr_others : same_others p n n';
  sr_commit : nd_commitIndex n <= nd_commitIndex n';
  sr_match : next_index n p < len (nd_log n) → match_index n' p = len (nd_log n) - 1
    ∧ (committable n' (len (nd_log n) - 1) → nd_commitIndex n' = len (nd_log n) - 1);
}.

Lemma still_leads_trans n1 n2 n3 : still_leads n1 n2 → still_leads n2 n3 → still_leads n1 n3.
Proof. unfold still_leads. intuition congruence. Qed.

Lemma sync_peer k : ∀ c i p n m,
  reachable ids cfg_of c → c_nodes c !! i = Some n → nd_role n = Leader → p ∈ nd_peers n →
  c_nodes c !! p = Some m → nd_currentTerm m <= nd_currentTerm n → next_index n p <= Z.of_nat k →
  ∃ j c' n', (j ≤ k)%nat ∧ exchanges j i p c = Some c' ∧ sync_result i p c c' n n'.
Proof using Hdep.
  induction k as [|k IH]; intros c i p n m Hr Hi Hl Hp Hm Ht Hk.
  { destruct (reachable_node_wf _ _ _ _ _ Hdep Hr Hi) as [_ _ _ _ _ Hnx]. specialize (Hnx Hl p Hp). lia. }
  destruct (leader_peer ids cfg_of Hdep c i n p Hr Hi Hp) as (_ & Hne & _).
  destruct (exchange_ok ids cfg_of Hdep c i p n m Hr Hi Hl Hp Hm Ht)
    as (c1 & n1 & m1 & Ex & Hs & Hc1 & Hle & Hot & Hco & Htm & Hcase).
  assert (Hi1 : c_nodes c1 !! i = Some n1) by (by rewrite Hc1, lookup_insert_eq).
  assert (Hm1 : c_nodes c1 !! p = Some m1) by (by rewrite Hc1, lookup_insert_ne, lookup_insert_eq by done).
  assert (Hoth : ∀ j, j ≠ i → j ≠ p → c_nodes c1 !! j = c_nodes c !! j)
    by (intros j ? ?; by rewrite Hc1, !lookup_insert_ne by done).
  destruct Hcase as [[Hsync Hmatch]|[H1 Hback]].
  - exists 1%nat, c1, n1. split; [lia|]. split; [cbn; by rewrite Ex|]. split; try done. by exists m1.
  - destruct Hle as (Hl1 & Ht1 & Hg1 & Hp1).
    destruct (IH c1 i p n1 m1) as (j & c2 & n2 & Hj & Ex2 & [S1 S2 S3 S4 S5 S6 S7 S8]); try done; try lia.
    { by eapply steps_reachable. } { by rewrite Hp1. }
    exists (S j), c2, n2. split; [lia|]. split; [cbn; by rewrite Ex|].
    destruct S3 as (m' & Hm' & Hsy & Htm'). rewrite Hg1 in S8. unfold synced in Hsy. rewrite Hg1 in Hsy.
    split; try done.
    + by eapply steps_trans.
    + exists m'. split_and!; try done. congruence.
    + intros q ? ?. rewrite S4, Hoth; done.
    + by eapply still_leads_trans; [split_and!|].
    + intros q Hq. destruct (S6 q Hq), (Hot q Hq). split; congruence.
    + lia.
    + intros _. apply S8. destruct (reachable_node_wf _ _ _ _ _ Hdep Hr Hi) as [_ _ _ _ _ Hnx].
      specialize (Hnx Hl p Hp). lia.
Qed.

(** ** A quorum of peers *)

Lemma sync_all Q : ∀ c i n,
  reachable ids cfg_of c → c_nodes c !! i = Some n → nd_role n = Leader → NoDup Q →
  (∀ p, p ∈ Q → p ∈ nd_peers n ∧ next_index n p < len (nd_log n)
     ∧ ∃ m, c_nodes c !! p = Some m ∧ nd_currentTerm m <= nd_currentTerm n) →
  ∃ c' n', steps c c' ∧ c_nodes c' !! i = Some n' ∧ still_leads n n'
    ∧ (∀ p, p ∈ Q → match_index n' p = len (nd_log n) - 1)
    ∧ (∀ p, p ∉ Q → match_index n' p = match_index n p)
    ∧ (Q ≠ [] → committable n' (len (nd_log n) - 1) → nd_commitIndex n' = len (nd_log n) - 1).
Proof using Hdep.
  induction Q as [|p Q IH]; intros c i n Hr Hi Hl Hnd HQ.
  { exists c, n. split_and!; try done; [constructor|]. intros p Hp. by apply not_elem_of_nil in Hp. }
  apply NoDup_cons in Hnd as [HpQ Hnd]. destruct (HQ p ltac:(left)) as (Hp & Hnx & m & Hm & Ht).
  destruct (sync_peer (Z.to_nat (next_index n p)) c i p n m Hr Hi Hl Hp Hm Ht ltac:(lia))
    as (_ & c1 & n1 & _ & _ & [S1 S2 _ S4 S5 S6 _ S8]).
  pose proof S5 as (Hl1 & Ht1 & Hg1 & Hp1). destruct (S8 Hnx) as [Hmp Hcp].
  destruct (decide (Q = [])) as [->|HQne].
  { exists c1, n1. split_and!; try done.
    - by intros q [->|[]%not_elem_of_nil]%elem_of_cons.
    - intros q [Hqp _]%not_elem_of_cons. by apply S6. }
  destruct (IH c1 i n1) as (c2 & n2 & Hs2 & Hi2 & Hl2 & HQ2 & Hn2 & Hc2); try done.
  { by eapply steps_reachable. }
  { intros q Hq. destruct (HQ q ltac:(by right)) as (Hq1 & Hq2 & mq & Hmq & Htq).
    assert (q ≠ p) by congruence. destruct (leader_peer ids cfg_of Hdep c i n q Hr Hi Hq1) as (_ & Hqi & _).
    destruct (S6 q) as [_ ->]; [done|]. rewrite Hp1, Hg1, Ht1, S4 by done. eauto. }
  rewrite Hg1 in HQ2, Hc2. exists c2, n2. split; [by eapply steps_trans|]. split; [done|].
  split; [by eapply still_leads_trans|]. split; [|split].
  - intros q [->|Hq]%elem_of_cons; [|by apply HQ2]. by rewrite Hn2.
  - intros q [Hqp HqQ]%not_elem_of_cons. rewrite Hn2 by done. by apply S6.
  - intros _. by apply Hc2.
Qed.

(** Peers that have the whole log make its last position committable. *)
Lemma quorum_committable n Q e :
  last (nd_log n) = Some e → le_Term e = nd_currentTerm n → NoDup Q →
  (∀ p, p ∈ Q → p ∈ nd_peers n ∧ match_index n p = len (nd_log n) - 1) →
  Quorum (nd_cfg n) <= 1 + len Q → committable n (len (nd_log n) - 1).
Proof.
  intros He Het Hnd HQ Hq. exists e. split_and!; [|done|].
  - rewrite last_lookup in He. by replace (Z.to_nat (len (nd_log n) - 1)) with (pred (length (nd_log n))) by (unfold len; lia).
  - unfold match_count. set (F := List.filter _ _).
    assert (length Q ≤ length F)%nat; [|unfold len in *; lia].
    apply NoDup_incl_length; [by apply NoDup_ListNoDup|]. intros p Hp%list_elem_of_In. destruct (HQ p Hp) as [Hpp Hpm].
    apply List.filter_In. split; [by apply list_elem_of_In|]. rewrite Hpm. by apply Z.leb_refl.
Qed.
End Sync.

(** * Theorems *)

(** C16: replication terminates: from every reachable state, at most [nextIndex]
    loss-free exchanges between a leader and a peer whose term is not newer
    bring the peer to hold the leader's whole log, while the leader keeps its
    role, term and log. No exchange panics. *)
Theorem raft_replication_terminates ids cfg_of c i p n m :
  deployment ids cfg_of → reachable ids cfg_of c →
  c_nodes c !! i = Some n → nd_role n = Leader → p ∈ nd_peers n →
  c_nodes c !! p = Some m → nd_currentTerm m <= nd_currentTerm n →
  ∃ k c' n' m', (k ≤ Z.to_nat (next_index n p))%nat ∧ exchanges k i p c = Some c' ∧ steps c c'
    ∧ c_nodes c' !! i = Some n' ∧ c_nodes c' !! p = Some m' ∧ still_leads n n' ∧ synced n m'.
Proof.
  intros Hdep Hr Hi Hl Hp Hm Ht.
  destruct (sync_peer ids cfg_of Hdep (Z.to_nat (next_index n p)) c i p n m Hr Hi Hl Hp Hm Ht ltac:(lia))
    as (k & c' & n' & Hk & Ex & [S1 S2 (m' & Hm' & Hsy & _) _ S5 _ _ _]).
  by exists k, c', n', m'.
Qed.

(** C17: a leader can commit its log: if the last entry is of its term and it
    exchanges messages with enough peers to make a quorum (peers it has not yet
    sent that entry, with terms not newer than its own), it reaches a state in
    which its commit index is the end of its log. *)
Theorem raft_quorum_commits ids cfg_of c i n e Q :
  deployment ids cfg_of → reachable ids cfg_of c →
  c_nodes c !! i = Some n → nd_role n = Leader → last (nd_log n) = Some e → le_Term e = nd_currentTerm n →
  Q ≠ [] → NoDup Q → Quorum (nd_cfg n) <= 1 + len Q →
  (∀ p, p ∈ Q → p ∈ nd_peers n ∧ next_index n p < len (nd_log n)
     ∧ ∃ m, c_nodes c !! p = Some m ∧ nd_currentTerm m <= nd_currentTerm n) →
  ∃ c' n', steps c c' ∧ c_nodes c' !! i = Some n' ∧ still_leads n n'
    ∧ nd_commitIndex n' = len (nd_log n) - 1.
Proof.
  intros Hdep Hr Hi Hl He Het HQne Hnd Hq HQ.
  destruct (sync_all ids cfg_of Hdep Q c i n Hr Hi Hl Hnd HQ) as (c' & n' & Hs & Hi' & Hle & Hm & _ & Hc).
  exists c', n'. split; [done|]. split; [done|]. split; [done|]. apply Hc; [done|].
  destruct Hle as (_ & Ht' & Hg' & Hp').
  destruct (reachable_inv ids cfg_of Hdep c Hr) as [g Hg].
  destruct (steps_inv ids cfg_of Hdep c c' Hs g Hg) as (g' & _ & Hinv').
  rewrite <- Hg'. apply (quorum_committable n' Q e); rewrite ?Hg', ?Ht'; try done.
  - intros p Hpq. rewrite Hp'. split; [by apply HQ|by apply Hm].
  - rewrite (no_cfg _ _ _ _ _ (inv_nodes _ _ _ _ Hinv' i n' Hi')).
    by rewrite <- (no_cfg _ _ _ _ _ (inv_nodes _ _ _ _ Hg i n Hi)).
Qed.

(** The run of three nodes up to the first proposal of [n1]. *)
Definition proposed_cluster : cluster :=
  default (initial demo_ids demo_cfg) (run (initial demo_ids demo_cfg) (take 5 demo_run)).

Lemma proposed_reachable : reachable demo_ids demo_cfg proposed_cluster.
Proof.
  assert (H : is_Some (run (initial demo_ids demo_cfg) (take 5 demo_run))) by by_decide.
  destruct H as [c H]. unfold proposed_cluster. rewrite H. cbn. unfold id.
  apply steps_reachable with (initial demo_ids demo_cfg); [constructor|]. by eapply run_steps.
Qed.

(** What the witnesses need of it. *)
Lemma proposed_leader :
  ∃ n, c_nodes proposed_cluster !! str "n1" = Some n ∧ nd_role n = Leader ∧ nd_currentTerm n = 1
    ∧ nd_log n = [dummy; mkLog 1 1 (str "x")] ∧ nd_peers n = [str "n2"; str "n3"]
    ∧ next_index n (str "n2") = 1 ∧ next_index n (str "n3") = 1 ∧ Quorum (nd_cfg n) = 2.
Proof.
  assert (H : (λ n, (nd_role n, nd_currentTerm n, nd_log n, nd_peers n, next_index n (str "n2"),
                     next_index n (str "n3"), Quorum (nd_cfg n))) <$> c_nodes proposed_cluster !! str "n1"
    = Some (Leader, 1, [dummy; mkLog 1 1 (str "x")], [str "n2"; str "n3"], 1, 1, 2)) by (vm_compute; reflexivity).
  destruct (c_nodes proposed_cluster !! str "n1") as [n|]; [|discriminate H].
  exists n. cbn [fmap option_fmap option_map] in H. injection H as H1 H2 H3 H4 H5 H6 H7. auto 10.
Qed.

Lemma proposed_peer i t :
  node_view proposed_cluster i = Some t → ∃ m, c_nodes proposed_cluster !! i = Some m
    ∧ nd_currentTerm m = fst (fst (fst t)).
Proof.
  destruct t as [[[t r] k] l]. intros H. apply node_view_lookup in H as (m & ? & ? & _). by exists m.
Qed.

Lemma raft_replication_terminates_witness :
  ∃ k c' m', exchanges k (str "n1") (str "n3") proposed_cluster = Some c'
    ∧ c_nodes c' !! str "n3" = Some m' ∧ take 2 (nd_log m') = [dummy; mkLog 1 1 (str "x")].
Proof.
  destruct proposed_leader as (n & Hn & Hl & Ht & Hg & Hp & _ & Hx & _).
  destruct (proposed_peer (str "n3") (0, Follower, 0, [dummy]) ltac:(vm_compute; reflexivity)) as (m & Hm & Htm).
  destruct (raft_replication_terminates demo_ids demo_cfg proposed_cluster (str "n1") (str "n3") n m
    demo_deployment proposed_reachable Hn Hl) as (k & c' & n' & m' & _ & Ex & _ & _ & Hm' & _ & Hsy).
  - rewrite Hp. right. left.
  - exact Hm.
  - rewrite Htm, Ht. cbn. lia.
  - exists k, c', m'. split; [exact Ex|]. split; [exact Hm'|]. unfold synced in Hsy. rewrite Hg in Hsy. exact Hsy.
Defined.

Lemma raft_quorum_commits_witness :
  ∃ c' n', steps proposed_cluster c' ∧ c_nodes c' !! str "n1" = Some n' ∧ nd_commitIndex n' = 1.
Proof.
  destruct proposed_leader as (n & Hn & Hl & Ht & Hg & Hp & Hx & _ & Hq).
  destruct (proposed_peer (str "n2") (1, Follower, 0, [dummy]) ltac:(vm_compute; reflexivity)) as (m & Hm & Htm).
  destruct (raft_quorum_commits demo_ids demo_cfg proposed_cluster (str "n1") n (mkLog 1 1 (str "x")) [str "n2"]
    demo_deployment proposed_reachable Hn Hl) as (c' & n' & Hs & Hn' & _ & Hc).
  - rewrite Hg. reflexivity.
  - rewrite Ht. reflexivity.
  - discriminate.
  - apply NoDup_singleton.
  - rewrite Hq. vm_compute. congruence.
  - intros p ->%list_elem_of_singleton. rewrite Hp, Hx, Hg. split; [left|]. split; [vm_compute; reflexivity|].
    exists m. split; [exact Hm|]. rewrite Htm, Ht. cbn. lia.
  - exists c', n'. split; [exact Hs|]. split; [exact Hn'|]. rewrite Hc, Hg. reflexivity.
Defined.
