(* ===== verification/ElectionProgress.v ===== *)
(** Progress of elections: a node whose log is at least as up to date as the
    logs of enough peers, and whose term is not behind theirs, is elected when
    its timer fires and its vote requests and their answers are not lost. *)

From S2P Require Import Prelude Os Config RaftNode Election Replication.
From S2P Require Import Cluster ClusterInv ClusterMono ClusterSteps ClusterRepl ClusterSafety Delivery Progress.

(** ** Specification *)

(** Node [p] will vote for a candidate of term [T] whose log ends in [e]: its
    term is older and its log is not more up to date. *)
Definition will_vote (c : cluster) (T : Z) (e : LogEntry) (p : bytes) : Prop :=
  ∃ m x, c_nodes c !! p = Some m ∧ nd_currentTerm m < T ∧ last (nd_log m) = Some x
    ∧ (le_Term x < le_Term e ∨ le_Term x = le_Term e ∧ le_Index x <= le_Index e).

(** Node [n] at [i] is a candidate with [v] votes counted so far; its requests
    to the peers in [waiting] are sent and not answered. *)
Record campaign (c : cluster) (i : bytes) (n : Node) (v : Z) (e : LogEntry) (waiting : list bytes) : Prop := {
  ca_node : c_nodes c !! i = Some n;
  ca_role : nd_role n = Candidate;
  ca_log : last (nd_log n) = Some e;
  ca_election : ∃ w, c_elections c !! (i, nd_currentTerm n) =
      Some (mkElection (nd_currentTerm n) (mkVoteReq (nd_currentTerm n) (nd_id n) (le_Index e) (le_Term e)) w [] v false)
    ∧ (∀ p, p ∈ waiting → p ∈ w
         ∧ PVoteReq p (mkVoteReq (nd_currentTerm n) (nd_id n) (le_Index e) (le_Term e)) ∈ c_net c);
}.

(** Node [i] leads the term of candidate [n] with the log of [n]. *)
Definition elected (c : cluster) (i : bytes) (n : Node) : Prop :=
  ∃ n', c_nodes c !! i = Some n' ∧ nd_role n' = Leader ∧ nd_currentTerm n' = nd_currentTerm n
    ∧ nd_log n' = nd_log n.

(** * Lemmas *)

(** A timeout starts the campaign. *)
Lemma timeout_campaign c i n e :
  c_nodes c !! i = Some n → nd_role n ≠ Leader → 0 <= nd_currentTerm n < 2 ^ 64 - 1 → last (nd_log n) = Some e →
  ∃ c' n', step c (EvTimeout i) c' ∧ campaign c' i n' 1 e (nd_peers n)
    ∧ nd_currentTerm n' = nd_currentTerm n + 1 ∧ nd_log n' = nd_log n ∧ nd_cfg n' = nd_cfg n
    ∧ (∀ j, j ≠ i → c_nodes c' !! j = c_nodes c !! j).
Proof.
  intros Hi Hr Ht He. set (T := nd_currentTerm n + 1).
  set (n1 := resetElectionTimerLocked (persistStateLocked (set_votedFor (nd_id n) (set_term T (set_role Candidate n))))).
  assert (Eo : onElectionTimeout n = Some (n1, [GoStartElection T (le_Index e) (le_Term e)])).
  { unfold onElectionTimeout. rewrite decide_False by done. rewrite u64_small by lia. fold T. fold n1.
    unfold lastLogIndexLocked, lastLogTermLocked, last_entry. cbn. by rewrite He. }
  eexists _, n1. split; [by eapply step_timeout; [..|exact Eo]; [done|lia]|]. split_and!; try done.
  - split; try done; cbn.
    + by rewrite lookup_insert_eq.
    + exists (nd_peers n). rewrite lookup_insert_eq. split; [done|]. intros p Hp. split; [done|].
      apply elem_of_app. right. by apply (list_elem_of_fmap_2 (λ p, PVoteReq p _)).
  - intros j Hj. cbn. by rewrite lookup_insert_ne.
Qed.

(** A granted vote that reaches the candidate. *)
Lemma reply_counts n el p r :
  nd_role n = Candidate → el_term el = nd_currentTerm n → rvr_Term r = nd_currentTerm n → rvr_VoteGranted r = true →
  vote_reply n el p (Some r) = (n, mkElection (el_term el) (el_req el)
    (List.filter (λ q, negb (bool_decide (q = p))) (el_waiting el)) (el_voteCh el ++ [true]) (el_votes el) (el_done el)).
Proof.
  intros Hr Hel Ht Hg. unfold vote_reply. rewrite Ht, Z.ltb_irrefl, Hel, Z.eqb_refl, Hg.
  by rewrite bool_decide_true.
Qed.

(** Counting it elects the candidate or adds one to its votes. *)
Lemma count_true n T req w v e :
  nd_role n = Candidate → nd_currentTerm n = T → last (nd_log n) = Some e →
  (Quorum (nd_cfg n) <= v + 1 ∧ ∃ n' el' gs, count_vote n (mkElection T req w [true] v false) 0 = Some (n', el', gs)
     ∧ nd_role n' = Leader ∧ nd_currentTerm n' = T ∧ nd_log n' = nd_log n)
  ∨ (v + 1 < Quorum (nd_cfg n) ∧
     count_vote n (mkElection T req w [true] v false) 0 = Some (n, mkElection T req w [] (v + 1) false, [])).
Proof.
  intros Hr Ht He. unfold count_vote. cbn [el_done el_voteCh el_votes el_term el_req el_waiting andb].
  destruct (Z.leb_spec (Quorum (nd_cfg n)) (v + 1)) as [Hq|Hq]; [left|by right].
  split; [done|]. unfold become_leader. rewrite decide_True by done.
  unfold lastLogIndexLocked, last_entry. rewrite He. cbn. by eexists _, _, _.
Qed.

(** One voter's request, answer and count. *)
Lemma gather_vote c i n v e p W :
  campaign c i n v e (p :: W) → p ≠ i → p ∉ W → will_vote c (nd_currentTerm n) e p →
  ∃ c', steps c c' ∧ (∀ j, j ≠ i → j ≠ p → c_nodes c' !! j = c_nodes c !! j)
    ∧ (elected c' i n ∨ v + 1 < Quorum (nd_cfg n) ∧ campaign c' i n (v + 1) e W).
Proof.
  intros [Hi Hr He (w & Hel & Hw)] Hpi HpW (m & x & Hm & Ht & Hx & Hup).
  destruct (Hw p ltac:(left)) as [Hpw Hnet]. set (T := nd_currentTerm n) in *.
  set (req := mkVoteReq T (nd_id n) (le_Index e) (le_Term e)) in *.
  destruct (vote_handler_ok m req x Hx) as (m' & r & Em & Hg & Htm & Htr & _).
  assert (Hgr : rvr_VoteGranted r = true) by (apply Hg; split; [by left|exact Hup]).
  rewrite Z.max_r in Htm by (cbn; lia). rewrite Htm in Htr. cbn in Htr.
  pose proof (step_vote_req c p req m m' r Hnet Hm Em) as S1. set (c1 := send _ _) in S1.
  assert (Hi1 : c_nodes c1 !! i = Some n) by (cbn; by rewrite lookup_insert_ne).
  pose proof (reply_counts n (mkElection T req w [] v false) p r Hr eq_refl Htr Hgr) as Er.
  assert (Hr1 : ∀ r0, Some r = Some r0 → PVoteResp p req r0 ∈ c_net c1)
    by (intros ? [= <-]; apply elem_of_app; right; left).
  pose proof (step_vote_reply c1 i T p n _ (Some r) _ _ Hi1 Hel Hpw Hr1 Er) as S2.
  cbn [el_term el_req el_waiting el_voteCh el_votes el_done app] in S2. set (w' := List.filter _ w) in S2.
  set (c2 := upd_election _ _ _ _) in S2.
  assert (Hi2 : c_nodes c2 !! i = Some n) by (cbn; by rewrite lookup_insert_eq).
  assert (Hel2 : c_elections c2 !! (i, T) = Some (mkElection T req w' [true] v false)) by (cbn; by rewrite lookup_insert_eq).
  assert (Hoth : ∀ n' el' j, j ≠ i → j ≠ p →
    c_nodes (upd_election i T el' (upd_node i n' c2)) !! j = c_nodes c !! j).
  { intros n' el' j ? ?. cbn. by rewrite !lookup_insert_ne by done. }
  destruct (count_true n T req w' v e Hr eq_refl He) as [(_ & n' & el' & gs & Ec & Hl & Ht' & Hg')|[Hlt Ec]].
  - eexists. split; [do 2 (eapply steps_step; [eassumption|]); eapply steps_step;
      [by eapply step_count|constructor]|]. split; [apply Hoth|]. left.
    exists n'. cbn. by rewrite lookup_insert_eq.
  - eexists. split; [do 2 (eapply steps_step; [eassumption|]); eapply steps_step;
      [by eapply step_count|constructor]|]. split; [apply Hoth|]. right. split; [done|]. split; try done; cbn.
    + by rewrite lookup_insert_eq.
    + exists w'. rewrite lookup_insert_eq. split; [done|]. intros q Hq. destruct (Hw q ltac:(by right)) as [Hq1 Hq2]. split.
      * apply list_elem_of_In, List.filter_In. split; [by apply list_elem_of_In|].
        by rewrite bool_decide_false by congruence.
      * apply elem_of_app. by left.
Qed.

(** The votes of a quorum elect the candidate. *)
Lemma gather_votes Q : ∀ c i n v e,
  campaign c i n v e Q → NoDup Q → i ∉ Q → Q ≠ [] → (∀ p, p ∈ Q → will_vote c (nd_currentTerm n) e p) →
  Quorum (nd_cfg n) <= v + len Q → ∃ c', steps c c' ∧ elected c' i n.
Proof.
  induction Q as [|p Q IH]; intros c i n v e Hc Hnd HiQ Hne Hv Hq; [done|].
  apply NoDup_cons in Hnd as [HpQ Hnd]. apply not_elem_of_cons in HiQ as [Hip HiQ].
  destruct (gather_vote c i n v e p Q Hc ltac:(congruence) HpQ (Hv p ltac:(left))) as (c1 & Hs & Hoth & [Hel|[Hlt Hc1]]).
  { by exists c1. }
  unfold len in *. cbn in Hq. destruct (IH c1 i n (v + 1) e Hc1) as (c2 & Hs2 & Hel2); try done.
  - intros ->. cbn in Hq. lia.
  - intros q Hq'. destruct (Hv q ltac:(by right)) as (m & x & Hm & Hrest). exists m, x.
    rewrite Hoth; [done|congruence|congruence].
  - lia.
  - exists c2. split; [by eapply steps_trans|done].
Qed.

(** * Theorems *)

(** C18: a node can win an election: from every reachable state, when the
    election timer of a node that does not lead fires, and a set of peers that
    makes a quorum with it has terms not newer than its own and logs not more
    up to date, and no message between them is lost, the node reaches
    leadership of the next term with its log unchanged. *)
Theorem raft_can_elect ids cfg_of c i n e Q :
  deployment ids cfg_of → reachable ids cfg_of c →
  c_nodes c !! i = Some n → nd_role n ≠ Leader → nd_currentTerm n < 2 ^ 64 - 1 → last (nd_log n) = Some e →
  Q ≠ [] → NoDup Q → Quorum (nd_cfg n) <= 1 + len Q →
  (∀ p, p ∈ Q → p ∈ nd_peers n ∧ will_vote c (nd_currentTerm n + 1) e p) →
  ∃ c' n', steps c c' ∧ c_nodes c' !! i = Some n' ∧ nd_role n' = Leader
    ∧ nd_currentTerm n' = nd_currentTerm n + 1 ∧ nd_log n' = nd_log n.
Proof.
  intros Hdep Hr Hi Hl Ht He Hne Hnd Hq HQ.
  pose proof (reachable_node_wf _ _ _ _ _ Hdep Hr Hi) as Hwf.
  assert (HiQ : i ∉ Q).
  { intros Hin. destruct (HQ i Hin) as [Hp _]. by destruct (leader_peer ids cfg_of Hdep c i n i Hr Hi Hp) as (_ & ? & _). }
  destruct (timeout_campaign c i n e Hi Hl) as (c1 & n1 & Hs & [H1 H2 H3 (w & H4 & H5)] & Ht1 & Hg1 & Hc1 & Hoth); [|done|].
  { split; [by apply Hwf|done]. }
  destruct (gather_votes Q c1 i n1 1 e) as (c2 & Hs2 & n2 & Hn2 & Hr2 & Ht2 & Hg2); try done.
  - split; try done. exists w. split; [done|]. intros p Hp. apply H5. by apply HQ.
  - intros p Hp. destruct (HQ p Hp) as [_ (m & x & Hm & Hrest)]. exists m, x. rewrite Ht1.
    rewrite Hoth; [done|congruence].
  - by rewrite Hc1.
  - exists c2, n2. split; [by eapply steps_step|]. split_and!; try done; congruence.
Qed.

Lemma raft_can_elect_witness :
  ∃ c' n', steps (initial demo_ids demo_cfg) c' ∧ c_nodes c' !! str "n1" = Some n' ∧ nd_role n' = Leader
    ∧ nd_currentTerm n' = 1.
Proof.
  destruct (raft_can_elect demo_ids demo_cfg (initial demo_ids demo_cfg) (str "n1")
    (initial_node demo_ids demo_cfg (str "n1")) dummy [str "n2"])
    as (c' & n' & Hs & Hn & Hr & Ht & _).
  - exact demo_deployment.
  - constructor.
  - vm_compute. reflexivity.
  - discriminate.
  - vm_compute. reflexivity.
  - reflexivity.
  - discriminate.
  - apply NoDup_singleton.
  - vm_compute. congruence.
  - intros p ->%list_elem_of_singleton. split; [left|].
    exists (initial_node demo_ids demo_cfg (str "n2")), dummy. split; [vm_compute; reflexivity|].
    split; [vm_compute; reflexivity|]. split; [reflexivity|]. right. split; vm_compute; congruence.
  - exists c', n'. split; [exact Hs|]. split; [exact Hn|]. split; [exact Hr|exact Ht].
Defined.
