(* ===== verification/Snapshot.v ===== *)
(** Snapshots of [internal/raft/snapshot.go]: taking one from the local log,
    installing one sent by a leader, and the snapshot file. The program never
    calls [TakeSnapshot], [LoadSnapshotFile] or the client's [InstallSnapshot],
    so the cluster of [Cluster.v] has no snapshots; the theorems here show what
    the operations do alone and what the rest of the node does after them. *)

From S2P Require Import Prelude Os Config RaftNode Election Replication.

(** ** Messages *)

Record InstallSnapshotRequest := mkInstallReq {
  is_Term : Z;
  is_LeaderId : bytes;
  is_LastIncludedIndex : Z;
  is_LastIncludedTerm : Z;
  is_Data : bytes;
}.

Record InstallSnapshotResponse := mkInstallResp { isr_Term : Z }.

(** ** The snapshot file *)

Definition snapshotFilePath (n : Node) : bytes := path_Join (DataDir (nd_cfg n)) (str "snapshot.bin").

(** [saveSnapshotFileLocked] on the file system: a failed write or sync is
    ignored, a failed create or rename is returned. *)
Definition saveSnapshot_io (n : Node) (data : bytes) : IO unit :=
  _ ← io_try (os_MkdirAll (DataDir (nd_cfg n)));
  let tmpPath := snapshotFilePath n ++ str ".tmp" in
  _ ← os_Create tmpPath;
  _ ← io_try (file_Write tmpPath data);
  _ ← io_try file_Sync;
  _ ← io_try file_Close;
  os_Rename tmpPath (snapshotFilePath n).

(** Its effect on the node's disk: [fault] is the error of the create or the
    rename, if one fails. *)
Definition saveSnapshotFileLocked (n : Node) (data : bytes) (fault : option error)
    : Node * option error :=
  match fault with
  | Some e => (n, Some e)
  | None => (set_disk (mkDisk (d_state (nd_disk n)) (Some data)) n, None)
  end.

Definition LoadSnapshotFile (n : Node) : error + bytes :=
  match d_snapshot (nd_disk n) with
  | Some data => inr data
  | None => inl ErrNotExist
  end.

(** ** Taking a snapshot *)

(** [for i, entry := range n.log]: the first position with the index. *)
Fixpoint find_cut (log : list LogEntry) (i : Z) (index : Z) : Z :=
  match log with
  | [] => -1
  | entry :: log => if le_Index entry =? index then i else find_cut log (i + 1) index
  end.

Definition TakeSnapshot (n : Node) (lastIncludedIndex : Z) (snapshotData : bytes) (fault : option error)
    : option (Node * option error) :=
  first ← log_at (nd_log n) 0;
  if (lastIncludedIndex <=? le_Index first) || (nd_lastApplied n <? lastIncludedIndex)
  then Some (n, Some (Errorf "raft: invalid snapshot index")) else
  let cutIdx := find_cut (nd_log n) 0 lastIncludedIndex in
  if cutIdx =? -1 then Some (n, Some (Errorf "raft: snapshot index not found in log")) else
  cut ← log_at (nd_log n) cutIdx;
  rest ← subslice (nd_log n) (cutIdx + 1) (len (nd_log n));
  let newLog := mkLog lastIncludedIndex (le_Term cut) [] :: rest in
  let n := persistStateLocked (set_log newLog n) in
  Some (match saveSnapshotFileLocked n snapshotData fault with
        | (n, Some err) => (n, Some (Wrapf "raft: failed to save snapshot to disk" err))
        | (n, None) => (n, None)
        end).

(** ** Installing a snapshot *)

Definition HandleInstallSnapshot (n : Node) (req : InstallSnapshotRequest) (fault : option error)
    : Node * InstallSnapshotResponse :=
  let resp := mkInstallResp (nd_currentTerm n) in
  if is_Term req <? nd_currentTerm n then (n, resp) else
  let n := if nd_currentTerm n <? is_Term req then step_down (is_Term req) n else n in
  let n := resetElectionTimerLocked n in
  if is_LastIncludedIndex req <=? nd_commitIndex n then (n, resp) else
  let newLog := [mkLog (is_LastIncludedIndex req) (is_LastIncludedTerm req) []] in
  let n := set_commitIndex (is_LastIncludedIndex req) (set_log newLog n) in
  let n := persistStateLocked (set_applied (is_LastIncludedIndex req) (nd_applyCh n) n) in
  let n := fst (saveSnapshotFileLocked n (is_Data req) fault) in
  let msg := snapshot_msg (is_Data req) (is_LastIncludedIndex req) (is_LastIncludedTerm req) in
  (set_applied (nd_lastApplied n) (chan_send_or_spawn (nd_applyCh n) msg) n, resp).

(** ** Specification *)

(** The entries carry consecutive indices that start at [base]. *)
Definition indexed_from (base : Z) (log : list LogEntry) : Prop :=
  ∀ k e, log !! k = Some e → le_Index e = base + Z.of_nat k.

(** * Lemmas *)

Lemma indexed_from_cons base e log :
  indexed_from base (e :: log) → le_Index e = base ∧ indexed_from (base + 1) log.
Proof.
  intros H. split; [rewrite (H 0%nat e eq_refl); lia|]. intros k x Hx. rewrite (H (S k) x Hx). lia.
Qed.

(** In an indexed log the search finds the position of the index. *)
Lemma find_cut_spec log : ∀ base i index,
  indexed_from base log → base <= index < base + len log →
  find_cut log i index = i + (index - base).
Proof.
  induction log as [|e log IH]; intros base i index Hx Hr; [unfold len in Hr; cbn in Hr; lia|].
  apply indexed_from_cons in Hx as [He Hx]. rewrite len_cons in Hr. cbn.
  destruct (Z.eqb_spec (le_Index e) index); [lia|]. rewrite (IH (base + 1)) by (done || lia). lia.
Qed.

Lemma subslice_tail {A} (l : list A) i :
  0 <= i <= len l → subslice l i (len l) = Some (drop (Z.to_nat i) l).
Proof.
  intros H. unfold subslice. rewrite !(proj2 (Z.leb_le _ _)) by lia. cbn. f_equal.
  apply take_ge. rewrite length_drop. unfold len in *. lia.
Qed.

(** Without I/O failure the file holds the data afterwards. *)
Lemma saveSnapshot_io_ok n data w :
  no_faults w →
  ∃ w', saveSnapshot_io n data w = (Ok tt, w') ∧ no_faults w'
    ∧ w_files w' !! snapshotFilePath n = Some data.
Proof.
  intros Hw. unfold saveSnapshot_io. set (tmp := snapshotFilePath n ++ str ".tmp").
  unfold mbind, io_bind, io_try. rewrite os_MkdirAll_ok, os_Create_ok by done.
  rewrite file_Write_ok, file_Sync_ok, file_Close_ok by done. erewrite os_Rename_ok; [|done|].
  - eexists. split; [reflexivity|]. split; [done|]. cbn. apply lookup_insert_eq.
  - cbn. rewrite !lookup_insert_eq. done.
Qed.

Lemma indexed_last base log e :
  indexed_from base log → last log = Some e → le_Index e = base + len log - 1.
Proof.
  intros Hx He. rewrite last_lookup in He. rewrite (Hx _ _ He). apply lookup_lt_Some in He. unfold len. lia.
Qed.

(** The log a snapshot at position [k] leaves. *)
Lemma cut_log base log k e :
  indexed_from base log → log !! k = Some e →
  let log' := mkLog (base + Z.of_nat k) (le_Term e) [] :: drop (S k) log in
  indexed_from (base + Z.of_nat k) log' ∧ len log' = len log - Z.of_nat k
  ∧ le_Term <$> last log' = le_Term <$> last log.
Proof.
  intros Hx He. cbn zeta. pose proof (lookup_lt_Some _ _ _ He) as Hk. split_and!.
  - intros [|j] x Hj; [injection Hj as <-; cbn; lia|].
    change (drop (S k) log !! j = Some x) in Hj. rewrite lookup_drop in Hj. rewrite (Hx _ _ Hj). lia.
  - unfold len. cbn [length]. rewrite length_drop. lia.
  - rewrite <- (take_drop (S k) log) at 2. rewrite (take_S_r _ _ _ He).
    destruct (drop (S k) log) as [|y l]; [by rewrite app_nil_r, last_snoc|].
    destruct (last (y :: l)) as [x|] eqn:Ex; [|by apply last_None in Ex].
    by rewrite last_app, last_cons, Ex.
Qed.

(** The effect of a successful [TakeSnapshot] on an indexed log. *)
Lemma TakeSnapshot_ok n base index data :
  indexed_from base (nd_log n) → base < index <= nd_lastApplied n → index < base + len (nd_log n) →
  ∃ e, nd_log n !! Z.to_nat (index - base) = Some e
    ∧ TakeSnapshot n index data None =
        let n1 := set_log (mkLog index (le_Term e) [] :: drop (S (Z.to_nat (index - base))) (nd_log n)) n in
        Some (set_disk (mkDisk (Some (encode_state n1)) (Some data)) n1, None).
Proof.
  intros Hx Hi Hl. destruct (nd_log n) as [|e0 l] eqn:El; [unfold len in Hl; cbn in Hl; lia|].
  destruct (lookup_lt_is_Some_2 (e0 :: l) (Z.to_nat (index - base))) as [e He]; [unfold len in Hl; lia|].
  exists e. split; [done|]. unfold TakeSnapshot, log_at. rewrite El.
  change ((e0 :: l) !! Z.to_nat 0) with (Some e0). cbn [mbind option_bind].
  rewrite (proj1 (indexed_from_cons _ _ _ Hx)).
  rewrite (proj2 (Z.leb_gt _ _)), (proj2 (Z.ltb_ge _ _)) by lia. cbn [orb].
  rewrite (find_cut_spec _ base) by (done || lia).
  rewrite (proj2 (Z.eqb_neq _ _)) by lia. rewrite Z.add_0_l, He. cbn [mbind option_bind].
  rewrite subslice_tail by lia. cbn [mbind option_bind].
  by replace (Z.to_nat (index - base + 1)) with (S (Z.to_nat (index - base))) by lia.
Qed.

(** A snapshotted log is shorter than its last index. *)
Lemma snapshot_commit_panics n base index data n' :
  0 <= base → indexed_from base (nd_log n) → base < index <= nd_lastApplied n →
  index < base + len (nd_log n) → nd_commitIndex n < base + len (nd_log n) - 1 →
  TakeSnapshot n index data None = Some (n', None) → maybeAdvanceCommitIndexLocked n' = None.
Proof.
  intros Hb Hx Hi Hl Hc E. destruct (TakeSnapshot_ok n base index data Hx Hi Hl) as (e & He & E').
  rewrite E in E'. cbn zeta in E'. injection E' as ->.
  destruct (cut_log base _ _ e Hx He) as (Hx' & Hlen & _).
  replace (base + Z.of_nat (Z.to_nat (index - base))) with index in * by lia.
  unfold maybeAdvanceCommitIndexLocked, lastLogIndexLocked, last_entry.
  cbn [nd_log set_disk set_log nd_commitIndex]. set (log' := _ :: _) in *.
  destruct (last log') as [x|] eqn:Ex; [|by apply last_None in Ex].
  cbn [fmap option_fmap option_map mbind option_bind]. rewrite (indexed_last _ _ _ Hx' Ex), Hlen.
  destruct (Z.to_nat (_ - nd_commitIndex n)) eqn:Ez; [lia|]. cbn [advance_loop]. unfold log_at.
  cbn [nd_log set_disk set_log]. rewrite (lookup_ge_None_2 log'); [done|]. unfold len in *. lia.
Qed.

(** An installed snapshot leaves a log of one entry. *)
Lemma installed_log m ireq :
  nd_currentTerm m <= is_Term ireq → nd_commitIndex m < is_LastIncludedIndex ireq →
  nd_log (fst (HandleInstallSnapshot m ireq None)) =
    [mkLog (is_LastIncludedIndex ireq) (is_LastIncludedTerm ireq) []].
Proof.
  intros Ht Hc. unfold HandleInstallSnapshot. rewrite (proj2 (Z.ltb_ge _ _)) by lia.
  destruct (nd_currentTerm m <? is_Term ireq); cbn; by rewrite (proj2 (Z.leb_gt _ _)) by lia.
Qed.

Lemma installed_rejects m ireq req :
  nd_currentTerm m <= is_Term ireq → nd_commitIndex m < is_LastIncludedIndex ireq →
  0 < ae_PrevLogIndex req →
  ∃ m' resp, HandleAppendEntries (fst (HandleInstallSnapshot m ireq None)) req = Some (m', resp)
    ∧ aer_Success resp = false
    ∧ nd_log m' = [mkLog (is_LastIncludedIndex ireq) (is_LastIncludedTerm ireq) []].
Proof.
  intros Ht Hc Hp. pose proof (installed_log m ireq Ht Hc) as Hlog.
  set (m1 := fst _) in *. clearbody m1. unfold HandleAppendEntries.
  destruct (_ <? nd_currentTerm m1); [by eexists _, _|].
  destruct (append_node1 m1 req) as (Hl & _). cbn zeta in Hl. rewrite Hl, Hlog.
  rewrite (proj2 (Z.leb_le _ _)) by (unfold len; cbn; lia).
  eexists _, _. split; [done|]. split; [done|]. by rewrite Hl.
Qed.

(** * Theorems *)

(** Taking a snapshot at an applied index keeps exactly the entries after
    that index behind a head entry that carries the index and its term, leaves
    the last index and term (so the outcome of elections) unchanged, writes the
    state file, and the snapshot reads back as it was given. *)
Theorem take_snapshot_spec n base index data :
  indexed_from base (nd_log n) → base < index <= nd_lastApplied n → index < base + len (nd_log n) →
  ∃ n', TakeSnapshot n index data None = Some (n', None)
    ∧ indexed_from index (nd_log n')
    ∧ tail (nd_log n') = drop (S (Z.to_nat (index - base))) (nd_log n)
    ∧ lastLogIndexLocked n' = lastLogIndexLocked n ∧ lastLogTermLocked n' = lastLogTermLocked n
    ∧ persisted n' ∧ LoadSnapshotFile n' = inr data.
Proof.
  intros Hx Hi Hl. destruct (TakeSnapshot_ok n base index data Hx Hi Hl) as (e & He & E).
  cbn zeta in E. destruct (cut_log base _ _ e Hx He) as (Hx' & Hlen & Ht).
  replace (base + Z.of_nat (Z.to_nat (index - base))) with index in * by lia.
  eexists. split; [exact E|]. unfold lastLogIndexLocked, lastLogTermLocked, last_entry.
  cbn [nd_log set_disk set_log]. rewrite Ht. split_and!; try done.
  destruct (last (nd_log n)) as [x|] eqn:Hl1; [|by rewrite (proj1 (last_None _) Hl1) in He].
  destruct (last (_ :: drop _ (nd_log n))) as [y|] eqn:Hl2; [|by apply last_None in Hl2].
  cbn. f_equal. rewrite (indexed_last _ _ _ Hx Hl1), (indexed_last _ _ _ Hx' Hl2). lia.
Qed.

Lemma take_snapshot_spec_witness :
  ∃ n', TakeSnapshot witness_node 1 (str "snap") None = Some (n', None)
    ∧ lastLogIndexLocked n' = Some 2 ∧ LoadSnapshotFile n' = inr (str "snap").
Proof.
  destruct (take_snapshot_spec witness_node 0 1 (str "snap")) as (n' & E & _ & _ & Hi & _ & _ & Hs).
  - intros [|[|[|k]]] x Hx; vm_compute in Hx; (injection Hx as <- || discriminate Hx); reflexivity.
  - cbn. lia.
  - vm_compute. reflexivity.
  - exists n'. split_and!; [exact E|exact Hi|exact Hs].
Defined.

(** The rest of the node does not know about snapshots: it uses the absolute
    index of an entry as its position in the log. After a snapshot a leader with
    an uncommitted entry panics in the commit rule, and a follower that
    installed a snapshot rejects every later AppendEntries that is not about
    position 0, whatever the leader sends. *)
Theorem snapshot_breaks_positions n base index data n' :
  0 <= base → indexed_from base (nd_log n) → base < index <= nd_lastApplied n → index < base + len (nd_log n) →
  nd_commitIndex n < base + len (nd_log n) - 1 →
  TakeSnapshot n index data None = Some (n', None) →
  maybeAdvanceCommitIndexLocked n' = None
  ∧ ∀ m ireq req, nd_currentTerm m <= is_Term ireq → nd_commitIndex m < is_LastIncludedIndex ireq →
      0 < ae_PrevLogIndex req →
      ∃ m' resp, HandleAppendEntries (fst (HandleInstallSnapshot m ireq None)) req = Some (m', resp)
        ∧ aer_Success resp = false ∧ nd_log m' = [mkLog (is_LastIncludedIndex ireq) (is_LastIncludedTerm ireq) []].
Proof.
  intros Hb Hx Hi Hl Hc E. split; [by eapply snapshot_commit_panics|].
  intros m ireq req. apply installed_rejects.
Qed.

Lemma snapshot_breaks_positions_witness :
  ∃ n', TakeSnapshot witness_node 1 (str "snap") None = Some (n', None)
    ∧ maybeAdvanceCommitIndexLocked n' = None.
Proof.
  destruct (TakeSnapshot witness_node 1 (str "snap") None) as [[n' [e|]]|] eqn:E;
    [vm_compute in E; discriminate E| |vm_compute in E; discriminate E].
  exists n'. split; [reflexivity|].
  apply (snapshot_breaks_positions witness_node 0 1 (str "snap") n').
  - lia.
  - intros [|[|[|k]]] x Hx; vm_compute in Hx; (injection Hx as <- || discriminate Hx); reflexivity.
  - cbn. lia.
  - vm_compute. reflexivity.
  - vm_compute. reflexivity.
  - exact E.
Defined.
