(* ===== verification/StateMachine.v ===== *)
(** The replicated state machine of [internal/raft/state_machine.go]: commands
    and their encoding, the handling of apply messages, and the goroutine that
    receives them from the apply channel. The storage engine is used through
    the class [KVStore] of [Store.v]. *)

From S2P Require Import Prelude StorageTypes MemTable Os Wal Engine Store Config RaftNode Election Replication.

(** ** Commands *)

Definition EncodeCommand (op : OpType) (key value : bytes) : bytes :=
  [op] ++ le_put 2 (u16 (len key)) ++ le_put 4 (u32 (len value)) ++ key ++ value.

(** ** The channel *)

(** A receive takes the oldest buffered message; the goroutine number [pick]
    among those blocked on a send then gets the free place, none if [pick] is
    out of range (no blocked goroutine has run yet). *)
Definition chan_receive {A} (ch : chan A) (pick : nat) : option (A * chan A) :=
  match ch_buf ch with
  | [] => None
  | m :: buf =>
      Some (m, match ch_blocked ch !! pick with
               | Some b => mkChan (ch_cap ch) (buf ++ [b]) (list_delete pick (ch_blocked ch))
               | None => mkChan (ch_cap ch) buf (ch_blocked ch)
               end)
  end.

Section StateMachine.
Context {E : Type} `{KVStore E}.

Record StateMachine := mkSM {
  sm_storageEngine : E;
  sm_lastApplied : Z;
}.

Definition NewStateMachine (engine : E) : StateMachine := mkSM engine 0.

Definition LastApplied (sm : StateMachine) : Z := sm_lastApplied sm.

(** [applyCommand]: the engine afterwards and the error returned. *)
Definition applyCommand (e : E) (data : bytes) : IO (E * option error) :=
  if len data <? 7 then mret (e, Some (Errorf "command data too short")) else
  op ← io_lift (or_panic (data !! 0%nat));
  kl ← io_lift (or_panic (subslice data 1 3));
  vl ← io_lift (or_panic (subslice data 3 7));
  let keyLen := le_get kl in
  let valueLen := le_get vl in
  if len data <? 7 + keyLen + valueLen then mret (e, Some (Errorf "command data truncated")) else
  key ← io_lift (or_panic (subslice data 7 (7 + keyLen)));
  value ← io_lift (or_panic (subslice data (7 + keyLen) (7 + keyLen + valueLen)));
  if decide (op = OpPut) then kv_Put e key (Some value)
  else if decide (op = OpDelete) then kv_Delete e key
  else mret (e, Some (Errorf "unknown OpType")).

Definition handleApplyMsg (sm : StateMachine) (msg : ApplyMsg) : IO StateMachine :=
  if am_CommandValid msg then
    if am_CommandIndex msg <=? sm_lastApplied sm then mret sm else
    '(e, err) ← applyCommand (sm_storageEngine sm) (am_Command msg);
    mret (mkSM e (match err with Some _ => sm_lastApplied sm | None => am_CommandIndex msg end))
  else if am_SnapshotValid msg then
    if am_SnapshotIndex msg <=? sm_lastApplied sm then mret sm else
    mret (mkSM (sm_storageEngine sm) (am_SnapshotIndex msg))
  else mret sm.

(** [runApplier] for as many iterations as the schedule has receives; it waits
    when the channel is empty. *)
Fixpoint runApplier (picks : list nat) (ch : chan ApplyMsg) (sm : StateMachine)
    : IO (StateMachine * chan ApplyMsg) :=
  match picks with
  | [] => mret (sm, ch)
  | pick :: picks =>
      match chan_receive ch pick with
      | None => mret (sm, ch)
      | Some (msg, ch) => sm ← handleApplyMsg sm msg; runApplier picks ch sm
      end
  end.

(** The applier with its context. [ap_cancelled] is set by [Stop]; the goroutine
    that [Start] begins runs until an iteration of its [select] meets the
    cancelled context. When a message is ready too, [select] takes either. *)
Record applier := mkApplier {
  ap_sm : StateMachine;
  ap_ch : chan ApplyMsg;
  ap_cancelled : bool;
  ap_running : bool;
}.

Inductive applier_event :=
| ApStart
| ApStop
| ApSelect (prefer_done : bool) (pick : nat).

Definition sm_Start (a : applier) : applier := mkApplier (ap_sm a) (ap_ch a) (ap_cancelled a) true.
Definition sm_Stop (a : applier) : applier := mkApplier (ap_sm a) (ap_ch a) true (ap_running a).

Definition applier_step (a : applier) (ev : applier_event) : IO applier :=
  match ev with
  | ApStart => mret (sm_Start a)
  | ApStop => mret (sm_Stop a)
  | ApSelect prefer_done pick =>
      if negb (ap_running a) then mret a else
      match chan_receive (ap_ch a) pick with
      | None => mret (if ap_cancelled a then mkApplier (ap_sm a) (ap_ch a) true false else a)
      | Some (msg, ch) =>
          if ap_cancelled a && prefer_done then mret (mkApplier (ap_sm a) (ap_ch a) true false) else
          sm ← handleApplyMsg (ap_sm a) msg;
          mret (mkApplier sm ch (ap_cancelled a) true)
      end
  end.

Fixpoint applier_run (evs : list applier_event) (a : applier) : IO applier :=
  match evs with
  | [] => mret a
  | ev :: evs => a ← applier_step a ev; applier_run evs a
  end.

(** The messages handled one after the other. *)
Fixpoint handle_all (sm : StateMachine) (msgs : list ApplyMsg) : IO StateMachine :=
  match msgs with
  | [] => mret sm
  | msg :: msgs => sm ← handleApplyMsg sm msg; handle_all sm msgs
  end.
End StateMachine.

Arguments StateMachine E : clear implicits.
Arguments mkSM {E} _ _.

(** ** Specification *)

(** The operation, key and value of a well-formed command. *)
Definition decode_command (data : bytes) : option (OpType * bytes * bytes) :=
  match data with
  | op :: k0 :: k1 :: v0 :: v1 :: v2 :: v3 :: rest =>
      let keyLen := le_get [k0; k1] in
      let valueLen := le_get [v0; v1; v2; v3] in
      if len rest <? keyLen + valueLen then None else
      Some (op, take (Z.to_nat keyLen) rest, take (Z.to_nat valueLen) (drop (Z.to_nat keyLen) rest))
  | _ => None
  end.

(** The write a command stands for: none when it is malformed, names an
    unknown operation or has an empty key. *)
Definition command_write (data : bytes) : option write :=
  match decode_command data with
  | Some (op, key, value) =>
      if decide (key = []) then None
      else if decide (op = OpPut) then Some (WPut key (Some value))
      else if decide (op = OpDelete) then Some (WDelete key)
      else None
  | None => None
  end.

Definition apply_write (m : gmap bytes bytes) (wr : write) : gmap bytes bytes :=
  match wr with
  | WPut k v => <[k := slice_bytes v]> m
  | WDelete k => delete k m
  end.

Definition apply_command (m : gmap bytes bytes) (data : bytes) : gmap bytes bytes :=
  match command_write data with
  | Some wr => apply_write m wr
  | None => m
  end.

(** The map a sequence of commands leaves. *)
Definition apply_commands (m : gmap bytes bytes) (cmds : list bytes) : gmap bytes bytes :=
  foldl apply_command m cmds.

(** What the commands make of a key, if any of them writes it. *)
Fixpoint last_write (k : bytes) (cmds : list bytes) : option (option bytes) :=
  match cmds with
  | [] => None
  | c :: cmds =>
      match last_write k cmds, command_write c with
      | Some v, _ => Some v
      | None, Some wr =>
          match wr with
          | WPut k' v => if decide (k' = k) then Some (Some (slice_bytes v)) else None
          | WDelete k' => if decide (k' = k) then Some None else None
          end
      | None, None => None
      end
  end.

(** Apply messages of consecutive commands, the first with index [i]. *)
Fixpoint command_msgs (i : Z) (cmds : list bytes) : list ApplyMsg :=
  match cmds with
  | [] => []
  | c :: cmds => command_msg c i :: command_msgs (i + 1) cmds
  end.

(** * Lemmas *)

Lemma le_get_2 b0 b1 : 0 <= le_get [b0; b1] < 2 ^ 16.
Proof. apply (le_get_range [b0; b1]). Qed.
Lemma le_get_4 b0 b1 b2 b3 : 0 <= le_get [b0; b1; b2; b3] < 2 ^ 32.
Proof. apply (le_get_range [b0; b1; b2; b3]). Qed.

(** Decoding gives keys and values that fit. *)
Lemma decode_command_sizes data op key value :
  decode_command data = Some (op, key, value) → len key <= 65535 ∧ len value < 2 ^ 32.
Proof.
  unfold decode_command. destruct data as [|? [|k0 [|k1 [|v0 [|v1 [|v2 [|v3 rest]]]]]]]; try done.
  pose proof (le_get_2 k0 k1). pose proof (le_get_4 v0 v1 v2 v3).
  destruct (_ <? _); [done|]. intros [= _ <- <-]. unfold len. rewrite !length_take, ?length_drop. lia.
Qed.

Lemma decode_encode op key value :
  len key <= 65535 → len value < 2 ^ 32 →
  decode_command (EncodeCommand op key value) = Some (op, key, value).
Proof.
  intros Hk Hv. pose proof (len_nonneg key). pose proof (len_nonneg value).
  unfold EncodeCommand.
  pose proof (le_get_put_u16 (len key)) as E1. pose proof (le_get_put_u32 (len value)) as E2.
  pose proof (length_le_put 2 (u16 (len key))) as L1. pose proof (length_le_put 4 (u32 (len value))) as L2.
  rewrite u16_small in * by lia. rewrite u32_small in * by lia.
  destruct (le_put 2 _) as [|k0 [|k1 [|]]]; try discriminate L1.
  destruct (le_put 4 _) as [|v0 [|v1 [|v2 [|v3 [|]]]]]; try discriminate L2.
  cbn [app decode_command]. rewrite E1, E2, len_app, (proj2 (Z.ltb_ge _ _)) by lia.
  rewrite take_len, drop_len. do 3 f_equal. apply take_ge. unfold len. lia.
Qed.

Section Applying.
Context {E : Type} `{KVStoreLaws E}.

(** [applyCommand] by cases of the decoded command. *)
Lemma applyCommand_decode (e : E) data w :
  ∃ err, applyCommand e data w =
    match decode_command data with
    | Some (op, key, value) =>
        if decide (op = OpPut) then kv_Put e key (Some value) w
        else if decide (op = OpDelete) then kv_Delete e key w
        else (Ok (e, Some err), w)
    | None => (Ok (e, Some err), w)
    end.
Proof.
  unfold applyCommand. destruct (Z.ltb_spec (len data) 7) as [Hs|Hs].
  { exists (Errorf "command data too short").
    destruct data as [|? [|k0 [|k1 [|v0 [|v1 [|v2 [|v3 rest]]]]]]]; try done.
    rewrite !len_cons in Hs. pose proof (len_nonneg rest). lia. }
  destruct data as [|op [|k0 [|k1 [|v0 [|v1 [|v2 [|v3 rest]]]]]]]; try (unfold len in Hs; cbn in Hs; lia).
  pose proof (le_get_2 k0 k1). pose proof (le_get_4 v0 v1 v2 v3). pose proof (len_nonneg rest).
  set (data := op :: _). assert (Hd : len data = 7 + len rest) by (unfold data; rewrite !len_cons; lia).
  assert (E1 : subslice data 1 3 = Some [k0; k1])
    by (by apply (subslice_app [op] [k0; k1] (v0 :: v1 :: v2 :: v3 :: rest))).
  assert (E2 : subslice data 3 7 = Some [v0; v1; v2; v3])
    by (by apply (subslice_app [op; k0; k1] [v0; v1; v2; v3] rest)).
  assert (E0 : data !! 0%nat = Some op) by done.
  rewrite E0, E1, E2.
  unfold mbind, io_bind, io_lift. cbn [or_panic]. rewrite Hd.
  assert (ED : decode_command data =
    if len rest <? le_get [k0; k1] + le_get [v0; v1; v2; v3] then None else
    Some (op, take (Z.to_nat (le_get [k0; k1])) rest,
      take (Z.to_nat (le_get [v0; v1; v2; v3])) (drop (Z.to_nat (le_get [k0; k1])) rest))) by done.
  rewrite ED. set (kn := le_get [k0; k1]) in *. set (vn := le_get [v0; v1; v2; v3]) in *.
  destruct (Z.ltb_spec (7 + len rest) (7 + kn + vn)) as [Ht|Ht].
  { exists (Errorf "command data truncated"). by rewrite (proj2 (Z.ltb_lt _ _)) by lia. }
  rewrite (proj2 (Z.ltb_ge _ _)) by lia. exists (Errorf "unknown OpType").
  assert (Hsub : ∀ lo n, 0 <= lo → 0 <= n → lo + n <= len rest →
    subslice data (7 + lo) (7 + lo + n) = Some (take (Z.to_nat n) (drop (Z.to_nat lo) rest))).
  { intros lo n ? ? ?. unfold subslice. rewrite !(proj2 (Z.leb_le _ _)) by lia. cbn [andb].
    replace (Z.to_nat (7 + lo)) with (7 + Z.to_nat lo)%nat by lia. f_equal. f_equal. lia. }
  pose proof (Hsub 0 kn ltac:(lia) ltac:(lia) ltac:(lia)) as Ek. rewrite Z.add_0_r in Ek.
  rewrite Ek, (Hsub kn vn) by lia. cbn [or_panic]. change (drop (Z.to_nat 0) rest) with rest.
  by repeat case_decide.
Qed.

(** Applying a command to a store that holds [m]. *)
Lemma applyCommand_rep w (e : E) m data :
  kv_rep w e m → (∀ wr, command_write data = Some wr → kv_ready w e wr) →
  ∃ e' err w', applyCommand e data w = (Ok (e', err), w') ∧ kv_rep w' e' (apply_command m data)
    ∧ (err = None ↔ is_Some (command_write data)).
Proof.
  intros Hrep Hready. destruct (applyCommand_decode e data w) as [err Ea]. rewrite Ea.
  assert (Hfail : command_write data = None → ∀ err : error,
    ∃ (e' : E) (err0 : option error) w', (Ok (e, Some err), w) = (Ok (e', err0), w')
      ∧ kv_rep w' e' (apply_command m data)
      ∧ (err0 = None ↔ is_Some (command_write data))).
  { intros Hn err'. unfold apply_command. rewrite Hn. eexists _, _, _. split; [done|]. split; [done|].
    split; [done|]. by intros [? ?]. }
  unfold apply_command in *. unfold command_write in *.
  destruct (decode_command data) as [[[op key] value]|] eqn:Ed; [|by apply Hfail].
  apply decode_command_sizes in Ed as [Hk Hv].
  destruct (decide (key = [])) as [->|Hne].
  { case_decide; [|case_decide; [|by apply Hfail]].
    - destruct (kv_put_empty w e (Some value)) as [err' ->]. by apply Hfail.
    - destruct (kv_delete_empty w e) as [err' ->]. by apply Hfail. }
  case_decide; [|case_decide; [|by apply Hfail]].
  - destruct (kv_put_ok w e m key value) as (e' & w' & -> & Hr); [by auto..|]. by eexists _, _, _.
  - destruct (kv_delete_ok w e m key) as (e' & w' & -> & Hr); [by auto..|]. by eexists _, _, _.
Qed.

(** Every write of the messages is taken by the store in the state it meets. *)
Fixpoint ready_run (w : world) (sm : StateMachine E) (msgs : list ApplyMsg) : Prop :=
  match msgs with
  | [] => True
  | msg :: msgs =>
      (∀ wr, command_write (am_Command msg) = Some wr → kv_ready w (sm_storageEngine sm) wr)
      ∧ match handleApplyMsg sm msg w with
        | (Ok sm', w') => ready_run w' sm' msgs
        | _ => True
        end
  end.

Lemma ready_run_cons w sm c cmds i sm' w' :
  (∀ wr, command_write c = Some wr → kv_ready w (sm_storageEngine sm) wr) →
  handleApplyMsg sm (command_msg c i) w = (Ok sm', w') →
  ready_run w' sm' (command_msgs (i + 1) cmds) → ready_run w sm (command_msgs i (c :: cmds)).
Proof. intros Hr E1 Hn. split; [exact Hr|]. by rewrite E1. Qed.

(** One command message with an index not yet applied. *)
Lemma handle_command_rep w sm m data i :
  kv_rep w (sm_storageEngine sm) m → sm_lastApplied sm < i →
  (∀ wr, command_write data = Some wr → kv_ready w (sm_storageEngine sm) wr) →
  ∃ sm' w', handleApplyMsg sm (command_msg data i) w = (Ok sm', w')
    ∧ kv_rep w' (sm_storageEngine sm') (apply_command m data)
    ∧ sm_lastApplied sm' = if decide (is_Some (command_write data)) then i else sm_lastApplied sm.
Proof.
  intros Hrep Hi Hready. unfold handleApplyMsg. cbn [command_msg am_CommandValid am_CommandIndex am_Command].
  rewrite (proj2 (Z.leb_gt _ _)) by lia.
  destruct (applyCommand_rep w (sm_storageEngine sm) m data Hrep Hready) as (e' & err & w' & E1 & Hrep' & Herr).
  unfold mbind, io_bind. rewrite E1. eexists _, w'. split; [done|]. split; [done|]. cbn.
  case_decide as D; [by rewrite (proj2 Herr D)|]. destruct err; [done|]. destruct D. by apply Herr.
Qed.

(** Consecutive commands are applied in order; malformed ones are skipped. *)
Lemma handle_all_rep cmds : ∀ w sm m i,
  kv_rep w (sm_storageEngine sm) m → sm_lastApplied sm < i →
  ready_run w sm (command_msgs i cmds) →
  ∃ sm' w', handle_all sm (command_msgs i cmds) w = (Ok sm', w')
    ∧ kv_rep w' (sm_storageEngine sm') (apply_commands m cmds)
    ∧ sm_lastApplied sm' < i + len cmds
    ∧ (Forall (λ c, is_Some (command_write c)) cmds → cmds ≠ [] → sm_lastApplied sm' = i + len cmds - 1).
Proof.
  induction cmds as [|c cmds IH]; intros w sm m i Hrep Hi Hready.
  { eexists sm, w. unfold len. cbn. split_and!; try done. lia. }
  destruct Hready as [Hr1 Hr2]. cbn [command_msgs handle_all].
  destruct (handle_command_rep w sm m c i Hrep Hi Hr1) as (sm1 & w1 & E1 & Hrep1 & Hl1).
  rewrite E1 in Hr2. unfold mbind, io_bind. rewrite E1.
  destruct (IH w1 sm1 _ (i + 1) Hrep1) as (sm2 & w2 & E2 & Hrep2 & Hl2 & Hall); [|done|].
  { rewrite Hl1. case_decide; lia. }
  exists sm2, w2. rewrite len_cons. split_and!; [done|done|lia|].
  intros [Hc Hcs]%Forall_cons _. destruct cmds as [|c2 cmds]; [|rewrite Hall by done; lia].
  cbn in E2. injection E2 as <- <-. rewrite Hl1, decide_True by done. unfold len. cbn. lia.
Qed.

(** Receiving with nothing blocked handles the buffered messages in order. *)
Lemma runApplier_buffered cap buf : ∀ picks (sm : StateMachine E) w,
  length picks = length buf →
  runApplier picks (mkChan cap buf []) sm w =
    match handle_all sm buf w with
    | (Ok sm', w') => (Ok (sm', mkChan cap [] []), w')
    | (Err e, w') => (Err e, w')
    | (Panic, w') => (Panic, w')
    end.
Proof.
  induction buf as [|msg buf IH]; intros [|pick picks] sm w Hl; try discriminate Hl; [done|].
  cbn [runApplier handle_all]. unfold chan_receive. cbn [ch_buf ch_blocked ch_cap]. rewrite lookup_nil.
  unfold mbind, io_bind. destruct (handleApplyMsg sm msg w) as [[sm'| |] w']; try done.
  apply IH. by injection Hl.
Qed.

(** Whatever the schedule of starts, stops and iterations, the applier has done
    exactly some iterations of [runApplier]: a stop takes effect between two
    messages, never inside one. *)
Lemma applier_run_prefix evs : ∀ (a : applier (E := E)) w a' w',
  applier_run evs a w = (Ok a', w') →
  ∃ picks, (length picks ≤ length evs)%nat
    ∧ runApplier picks (ap_ch a) (ap_sm a) w = (Ok (ap_sm a', ap_ch a'), w').
Proof.
  induction evs as [|ev evs IH]; intros a w a' w' Hrun; cbn [applier_run] in Hrun.
  { injection Hrun as <- <-. by exists []. }
  unfold mbind, io_bind in Hrun. destruct (applier_step a ev w) as [[a1| |] w1] eqn:Es; [|done..].
  destruct (IH a1 w1 a' w' Hrun) as (picks & Hl & Hp).
  assert (Hsame : ap_sm a1 = ap_sm a → ap_ch a1 = ap_ch a → w1 = w → ∃ picks, (length picks ≤ length (ev :: evs))%nat
    ∧ runApplier picks (ap_ch a) (ap_sm a) w = (Ok (ap_sm a', ap_ch a'), w')).
  { intros <- <- ->. exists picks. split; [cbn; lia|done]. }
  destruct ev as [| |d pick]; cbn in Es; [injection Es as <- <-; by apply Hsame..|].
  destruct (ap_running a); cbn in Es; [|injection Es as <- <-; by apply Hsame].
  destruct (chan_receive (ap_ch a) pick) as [[msg ch]|] eqn:Ec.
  2: { destruct (ap_cancelled a); injection Es as <- <-; by apply Hsame. }
  destruct (ap_cancelled a && d); [injection Es as <- <-; by apply Hsame|].
  unfold mbind, io_bind in Es. destruct (handleApplyMsg (ap_sm a) msg w) as [[sm| |] w2] eqn:Eh; [|done..].
  injection Es as <- <-. cbn in Hp. exists (pick :: picks). split; [cbn; lia|].
  cbn [runApplier]. rewrite Ec. unfold mbind, io_bind. by rewrite Eh.
Qed.

(** A cancelled applier with nothing to receive returns at its next iteration
    and changes nothing. *)
Lemma applier_drained (late : list (bool * nat)) (a : applier (E := E)) w :
  ch_buf (ap_ch a) = [] → ap_cancelled a = true →
  ∃ a', applier_run ((λ '(prefer_done, pick), ApSelect prefer_done pick) <$> late) a w = (Ok a', w)
    ∧ ap_sm a' = ap_sm a ∧ ap_cancelled a' = true ∧ (late ≠ [] → ap_running a' = false).
Proof.
  intros Hb Hc. revert a Hb Hc. induction late as [|[prefer pick] late IH]; intros a Hb Hc; [by exists a|].
  cbn [fmap list_fmap applier_run]. unfold mbind, io_bind. cbn [applier_step].
  assert (Hstep : ∃ a1, applier_step a (ApSelect prefer pick) w = (Ok a1, w)
    ∧ ap_sm a1 = ap_sm a ∧ ap_ch a1 = ap_ch a ∧ ap_cancelled a1 = true ∧ ap_running a1 = false).
  { cbn [applier_step]. destruct (ap_running a) eqn:Er; cbn [negb]; [|by exists a].
    unfold chan_receive. rewrite Hb, Hc. by eexists. }
  destruct Hstep as (a1 & E1 & Hsm1 & Hch1 & Hc1 & Hr1). cbn [applier_step] in E1. rewrite E1.
  destruct (IH a1) as (a' & E' & Hsm & Hc' & Hr'); [by rewrite Hch1|done|].
  exists a'. split; [exact E'|]. split; [congruence|]. split; [done|]. intros _.
  destruct late as [|? late]; [|by apply Hr']. cbn in E'. by injection E' as <-.
Qed.

(** A stopped applier handles nothing more. *)
Lemma applier_stopped (a : applier (E := E)) evs w :
  ap_running a = false → ApStart ∉ evs →
  ∃ a', applier_run evs a w = (Ok a', w) ∧ ap_sm a' = ap_sm a ∧ ap_ch a' = ap_ch a ∧ ap_running a' = false.
Proof.
  revert a. induction evs as [|ev evs IH]; intros a Hr Hno; [by exists a|].
  apply not_elem_of_cons in Hno as [Hev Hno]. cbn [applier_run]. unfold mbind, io_bind.
  destruct ev as [| |d pick]; [done| |]; cbn [applier_step].
  - by apply (IH (sm_Stop a)).
  - rewrite Hr. by apply IH.
Qed.
End Applying.

(** ** Replay *)

Lemma apply_commands_lookup cmds k : ∀ m,
  apply_commands m cmds !! k = match last_write k cmds with Some v => v | None => m !! k end.
Proof.
  induction cmds as [|c cmds IH]; intros m; [done|]. cbn [apply_commands foldl last_write].
  change (foldl apply_command (apply_command m c) cmds) with (apply_commands (apply_command m c) cmds).
  rewrite IH. destruct (last_write k cmds); [done|]. unfold apply_command.
  destruct (command_write c) as [[k' v|k']|]; cbn; [| |done]; case_decide; subst;
    by simplify_map_eq.
Qed.

Lemma last_write_app k a b :
  last_write k (a ++ b) = match last_write k b with Some v => Some v | None => last_write k a end.
Proof.
  induction a as [|c a IH]; cbn; [by destruct (last_write k b)|]. rewrite IH.
  by destruct (last_write k b).
Qed.

(** Applying a prefix first changes nothing. *)
Lemma apply_commands_replay m pre suf :
  apply_commands (apply_commands m pre) (pre ++ suf) = apply_commands m (pre ++ suf).
Proof.
  apply map_eq. intros k. rewrite !apply_commands_lookup, last_write_app.
  by destruct (last_write k suf), (last_write k pre).
Qed.

(** ** From the log to the messages *)

Lemma apply_msgs_commands log from count :
  (∀ k x, log !! k = Some x → le_Index x = Z.of_nat k) → 0 <= from →
  apply_msgs log from count =
    command_msgs (from + 1) (le_Data <$> take count (drop (Z.to_nat (from + 1)) log)).
Proof.
  intros Hx. unfold apply_msgs. revert from. induction count as [|count IH]; intros from H0; [done|].
  destruct (log !! Z.to_nat (from + 1)) as [x|] eqn:E.
  - rewrite (drop_S _ _ _ E). cbn [take fmap list_fmap command_msgs]. rewrite (Hx _ _ E).
    specialize (IH (from + 1) ltac:(lia)).
    replace (Z.to_nat (from + 1 + 1)) with (S (Z.to_nat (from + 1))) in IH by lia.
    cbn [fmap list_fmap] in IH. rewrite IH. do 2 f_equal. lia.
  - rewrite drop_ge by (by apply lookup_ge_None). done.
Qed.

(** The committed commands a node has not delivered yet. *)
Definition pending_commands (n : Node) : list bytes :=
  le_Data <$> take (Z.to_nat (nd_commitIndex n - nd_lastApplied n))
    (drop (Z.to_nat (nd_lastApplied n + 1)) (nd_log n)).

Lemma length_pending n :
  0 <= nd_lastApplied n <= nd_commitIndex n → nd_commitIndex n < len (nd_log n) →
  len (pending_commands n) = nd_commitIndex n - nd_lastApplied n.
Proof.
  intros H1 H2. unfold pending_commands, len in *. rewrite length_fmap, length_take, length_drop. lia.
Qed.

(** * Theorems *)

(** Committed commands reach the store: when the channel has room, the
    entries committed but not yet delivered are sent in log order, the state
    machine receives every one of them, and the store then holds the map the
    commands make of what it held before; malformed commands are skipped
    without stopping those behind them. *)
Theorem committed_commands_applied `{KVStoreLaws E} n w (sm : StateMachine E) m picks :
  (∀ k x, nd_log n !! k = Some x → le_Index x = Z.of_nat k) →
  0 <= nd_lastApplied n <= nd_commitIndex n → nd_commitIndex n < len (nd_log n) → len (nd_log n) < 2 ^ 64 →
  nd_applyCh n = mkChan (ch_cap (nd_applyCh n)) [] [] →
  nd_commitIndex n - nd_lastApplied n <= Z.of_nat (ch_cap (nd_applyCh n)) →
  kv_rep w (sm_storageEngine sm) m → sm_lastApplied sm <= nd_lastApplied n →
  ready_run w sm (command_msgs (nd_lastApplied n + 1) (pending_commands n)) →
  len picks = nd_commitIndex n - nd_lastApplied n →
  ∃ n' sm' w', applyCommittedEntriesLocked n = Some n' ∧ nd_lastApplied n' = nd_commitIndex n
    ∧ runApplier picks (nd_applyCh n') sm w = (Ok (sm', mkChan (ch_cap (nd_applyCh n)) [] []), w')
    ∧ kv_rep w' (sm_storageEngine sm') (apply_commands m (pending_commands n)).
Proof.
  intros Hx Ha Hc Hlen Hch Hcap Hrep Hsm Hready Hp.
  rewrite applyCommitted_spec by done. eexists _.
  rewrite apply_msgs_commands by (done || lia). fold (pending_commands n).
  pose proof (length_pending n Ha Hc) as Hpl.
  destruct (handle_all_rep (pending_commands n) w sm m (nd_lastApplied n + 1) Hrep) as (sm' & w' & E1 & Hrep' & _);
    [lia|done|].
  exists sm', w'. split; [done|]. split; [done|]. split; [|done]. cbn [nd_applyCh set_applied].
  assert (Hml : ∀ cs i, length (command_msgs i cs) = length cs)
    by (induction cs as [|c cs IH]; intros i; cbn; [done|by rewrite IH]).
  rewrite send_all_fits; rewrite Hch; cbn [ch_buf ch_cap ch_blocked length app].
  - rewrite runApplier_buffered by (rewrite Hml; unfold len in *; lia). by rewrite E1.
  - rewrite Hml. unfold len in *. lia.
Qed.

(** A node with two committed commands to deliver, and an empty store. *)
Definition witness_commands : list bytes :=
  [EncodeCommand OpPut (str "k") (str "v"); EncodeCommand OpDelete (str "k") [];
   EncodeCommand OpPut (str "j") (str "u")].
Definition witness_sm_log : list LogEntry :=
  mkLog 0 0 [] :: imap (λ i c, mkLog (Z.of_nat (S i)) 1 c) witness_commands.
Definition witness_follower : Node :=
  set_commitIndex 3 (set_applied 0 (mkChan 256 [] []) (set_log witness_sm_log witness_node)).
Definition witness_sm_world : world := mkWorld {[wal_file (str "d") := []]} [] [] [].

Lemma witness_sm_log_indexed k x : witness_sm_log !! k = Some x → le_Index x = Z.of_nat k.
Proof. destruct k as [|[|[|[|k]]]]; intros Hx; vm_compute in Hx; (injection Hx as <- || discriminate Hx); reflexivity. Qed.

Lemma witness_ready :
  ready_run witness_sm_world (NewStateMachine (fresh_engine (str "d"))) (command_msgs 1 witness_commands).
Proof.
  unfold witness_commands. do 3 (eapply ready_run_cons;
    [intros wr Hwr; vm_compute in Hwr; injection Hwr as <-; apply engine_small_ready; vm_compute; reflexivity
    |vm_compute; reflexivity|]).
  exact I.
Qed.

Lemma committed_commands_applied_witness :
  ∃ n' sm' w', applyCommittedEntriesLocked witness_follower = Some n'
    ∧ runApplier [0; 0; 0]%nat (nd_applyCh n') (NewStateMachine (fresh_engine (str "d"))) witness_sm_world
        = (Ok (sm', mkChan 256 [] []), w')
    ∧ kv_rep w' (sm_storageEngine sm') {[str "j" := str "u"]}.
Proof.
  destruct (committed_commands_applied witness_follower witness_sm_world
    (NewStateMachine (fresh_engine (str "d"))) ∅ [0; 0; 0]%nat) as (n' & sm' & w' & E1 & _ & E2 & Hr).
  - exact witness_sm_log_indexed.
  - cbn. lia.
  - vm_compute. reflexivity.
  - vm_compute. reflexivity.
  - reflexivity.
  - cbn. lia.
  - apply fresh_engine_rep.
  - cbn. lia.
  - exact witness_ready.
  - reflexivity.
  - exists n', sm', w'. split; [exact E1|]. split; [exact E2|].
    replace {[str "j" := str "u"]} with (apply_commands ∅ (pending_commands witness_follower))
      by by_decide.
    exact Hr.
Defined.

(** Replay after a restart converges: a node restarts with nothing applied
    and delivers its whole log again to a store that already holds the effect
    of a prefix of it; the store ends with the map of the whole log, as if each
    command had been applied once. *)
Theorem restart_replay_converges `{KVStoreLaws E} w (e : E) m pre suf :
  kv_rep w e (apply_commands m pre) →
  ready_run w (NewStateMachine e) (command_msgs 1 (pre ++ suf)) →
  ∃ sm' w', handle_all (NewStateMachine e) (command_msgs 1 (pre ++ suf)) w = (Ok sm', w')
    ∧ kv_rep w' (sm_storageEngine sm') (apply_commands m (pre ++ suf)).
Proof.
  intros Hrep Hready.
  destruct (handle_all_rep (pre ++ suf) w (NewStateMachine e) _ 1 Hrep) as (sm' & w' & E1 & Hr & _); [cbn; lia|done|].
  exists sm', w'. split; [done|]. by rewrite <- apply_commands_replay.
Qed.

Lemma restart_replay_converges_witness :
  ∃ sm' w', handle_all (NewStateMachine (fresh_engine (str "d"))) (command_msgs 1 witness_commands)
      witness_sm_world = (Ok sm', w')
    ∧ kv_rep w' (sm_storageEngine sm') (apply_commands ∅ witness_commands).
Proof.
  apply (restart_replay_converges witness_sm_world (fresh_engine (str "d")) ∅ [] witness_commands).
  - apply fresh_engine_rep.
  - exact witness_ready.
Defined.

(** When the apply channel is full, messages are sent by goroutines that the
    channel does not order, and the state machine drops any index below the
    last one applied: of 258 committed entries delivered through a channel of
    256, the two that did not fit arrive in the other order and the write of
    entry 257 is lost on this node. *)
Theorem reordered_delivery_loses_write :
  let filler := EncodeCommand OpPut (str "a") (str "x") in
  let cmds := replicate 256 filler ++ [EncodeCommand OpPut (str "k") (str "v"); filler] in
  let log := mkLog 0 0 [] :: imap (λ i c, mkLog (Z.of_nat (S i)) 1 c) cmds in
  let n := set_commitIndex 258 (set_applied 0 (mkChan 256 [] []) (set_log log witness_node)) in
  ∃ n' sm' ch' w', applyCommittedEntriesLocked n = Some n'
    ∧ runApplier (1%nat :: replicate 257 0%nat) (nd_applyCh n') (NewStateMachine (fresh_engine (str "d")))
        witness_sm_world = (Ok (sm', ch'), w')
    ∧ ch_buf ch' = [] ∧ ch_blocked ch' = [] ∧ sm_lastApplied sm' = 258
    ∧ apply_commands ∅ cmds !! str "k" = Some (str "v")
    ∧ fst (kv_Get (sm_storageEngine sm') (str "k") w') = Err ErrNotFound.
Proof.
  intros filler cmds log n. eexists _, _, _, _.
  split; [vm_compute; reflexivity|]. split; [vm_compute; reflexivity|].
  split_and!; vm_compute; reflexivity.
Qed.
