(* ===== verification/System.v ===== *)
(** The whole system: a cluster of Raft nodes, each with its state machine and
    its store, put together the way [cmd/server/main.go] does. A step is a step
    of the Raft protocol, the handling of one apply message by a state machine,
    or the crash and restart of a process, which opens the store again and
    replays the log into it. The theorems compose the safety of Raft, the
    delivery of committed entries, the state machine and the store: replicas
    that have applied the same number of entries hold the same map, the one the
    committed commands make of the empty map.

    A run is one in which the apply channels do not overflow (without that the
    statement is false, [reordered_delivery_loses_write]), the store takes every
    write a state machine hands it ([kv_ready]) and a process crashes when what
    it holds is durable ([kv_durable]). The engine's background compaction is
    not part of these runs: [Background.v] and [Compacting.v] have it. *)

From S2P Require Import Prelude StorageTypes MemTable Os Wal Engine Store Config RaftNode Election Replication.
From S2P Require Import Cluster ClusterInv ClusterMono ClusterSafety Delivery StateMachine.

(** The commands at positions [1 .. k] of a log. *)
Definition commands_upto (k : Z) (log : list LogEntry) : list bytes :=
  le_Data <$> take (Z.to_nat k) (drop 1 log).

(** No message waits in a goroutine. *)
Definition no_overflow (c : cluster) : Prop :=
  ∀ i n, c_nodes c !! i = Some n → ch_blocked (nd_applyCh n) = [].

(** The channel [main] makes. *)
Definition new_applyCh : chan ApplyMsg := mkChan 256 [] [].

Section System.
Context {E : Type} `{KVStoreLaws E}.

(** The process of a node besides Raft: its state machine and its machine. *)
Record replica := mkReplica {
  re_sm : StateMachine E;
  re_world : world;
}.

Record system := mkSystem {
  s_cluster : cluster;
  s_replicas : gmap bytes replica;
}.

(** The steps of a run. Each rule has a guard: after a protocol step no apply
    message waits in a goroutine of its own, the store takes the write of an
    applied command, and what the store of a restarted process holds is durable. *)
Inductive sys_step : system → system → Prop :=
| sys_raft c ev c' R :
    step c ev c' → raft_event ev = true → no_overflow c' →
    sys_step (mkSystem c R) (mkSystem c' R)
| sys_apply c R i n r pick msg ch sm' w' :
    c_nodes c !! i = Some n → R !! i = Some r →
    chan_receive (nd_applyCh n) pick = Some (msg, ch) →
    (∀ wr, command_write (am_Command msg) = Some wr → kv_ready (re_world r) (sm_storageEngine (re_sm r)) wr) →
    handleApplyMsg (re_sm r) msg (re_world r) = (Ok sm', w') →
    sys_step (mkSystem c R)
      (mkSystem (upd_node i (set_applied (nd_lastApplied n) ch n) c) (<[i := mkReplica sm' w']> R))
| sys_restart c R i n r n' e' w' :
    c_nodes c !! i = Some n → R !! i = Some r →
    NewNode (nd_cfg n) (nd_peers n) new_applyCh (nd_disk n) = inr n' →
    (∀ m, kv_rep (re_world r) (sm_storageEngine (re_sm r)) m →
          kv_durable (re_world r) (sm_storageEngine (re_sm r)) m) →
    kv_Reopen (sm_storageEngine (re_sm r)) (re_world r) = (Ok e', w') →
    sys_step (mkSystem c R)
      (mkSystem (drop_elections i (upd_node i n' c)) (<[i := mkReplica (NewStateMachine e') w']> R)).

(** Every node starts with an empty store. *)
Definition sys_initial (ids : list bytes) (cfg_of : bytes → Config) (s : system) : Prop :=
  s_cluster s = initial ids cfg_of
  ∧ ∀ i r, s_replicas s !! i = Some r →
      sm_lastApplied (re_sm r) = 0 ∧ kv_rep (re_world r) (sm_storageEngine (re_sm r)) ∅.

Inductive sys_reachable (ids : list bytes) (cfg_of : bytes → Config) : system → Prop :=
| sys_reach_init s : sys_initial ids cfg_of s → sys_reachable ids cfg_of s
| sys_reach_step s s' : sys_reachable ids cfg_of s → sys_step s s' → sys_reachable ids cfg_of s'.
End System.

Arguments replica E : clear implicits.
Arguments system E : clear implicits.
Arguments mkReplica {E} _ _.
Arguments mkSystem {E} _ _.

(** ** Specification *)

Section Spec.
Context (ids : list bytes) (cfg_of : bytes → Config).

(** [l] are commands that node [i] had committed at some time up to now. *)
Definition historic (c : cluster) (i : bytes) (l : list bytes) : Prop :=
  ∃ c0 n0 h, reachable ids cfg_of c0 ∧ steps c0 c ∧ c_nodes c0 !! i = Some n0
    ∧ 0 <= h <= nd_commitIndex n0 ∧ l = commands_upto h (nd_log n0).

(** Every key of [X] was written by commands node [i] had committed. *)
Definition covered (c : cluster) (i : bytes) (X : gmap bytes bytes) : Prop :=
  ∀ key, is_Some (X !! key) → ∃ l, historic c i l ∧ is_Some (last_write key l).

(** Node [i] has applied everything it ever had committed, also before it
    restarted, and nothing waits in its channel. *)
Definition caught_up (c : cluster) (i : bytes) (n : Node) : Prop :=
  ch_buf (nd_applyCh n) = [] ∧ ∀ l, historic c i l → len l <= nd_lastApplied n.
End Spec.

(** Replica [r] of node [n] at [i]: [k] entries were handled since the last
    restart, the channel holds the rest in order, and the store is what the
    [k] commands make of a map [X] left by committed commands. *)
Definition replica_ok {E} `{KVStoreLaws E} ids cfg_of (c : cluster) (i : bytes) (n : Node) (r : replica E) : Prop :=
  ∃ k X, 0 <= k <= nd_lastApplied n ∧ sm_lastApplied (re_sm r) <= k
    ∧ ch_blocked (nd_applyCh n) = []
    ∧ ch_buf (nd_applyCh n) = apply_msgs (nd_log n) k (Z.to_nat (nd_lastApplied n - k))
    ∧ kv_rep (re_world r) (sm_storageEngine (re_sm r)) (apply_commands X (commands_upto k (nd_log n)))
    ∧ covered ids cfg_of c i X.

(** * Lemmas *)

(** ** Logs and messages *)

Lemma commands_upto_agree k log log' :
  take (S (Z.to_nat k)) log = take (S (Z.to_nat k)) log' → commands_upto k log = commands_upto k log'.
Proof.
  intros Ht. unfold commands_upto. f_equal. rewrite !take_drop_commute.
  by replace (1 + Z.to_nat k)%nat with (S (Z.to_nat k)) by lia; rewrite Ht.
Qed.

Lemma len_commands_upto k log : 0 <= k < len log → len (commands_upto k log) = k.
Proof. intros Hk. unfold commands_upto, len in *. rewrite length_fmap, length_take, length_drop. lia. Qed.

Lemma commands_upto_app k k' log : 0 <= k <= k' →
  ∃ suf, commands_upto k' log = commands_upto k log ++ suf.
Proof.
  intros Hk. unfold commands_upto. exists (le_Data <$> take (Z.to_nat (k' - k)) (drop (Z.to_nat k) (drop 1 log))).
  rewrite <- fmap_app, take_take_drop. do 2 f_equal. lia.
Qed.

Lemma commands_upto_succ k log e :
  0 <= k → log !! Z.to_nat (k + 1) = Some e → commands_upto (k + 1) log = commands_upto k log ++ [le_Data e].
Proof.
  intros Hk He. unfold commands_upto. replace (Z.to_nat (k + 1)) with (S (Z.to_nat k)) in * by lia.
  rewrite (take_S_r _ _ e) by (by rewrite lookup_drop). by rewrite fmap_app.
Qed.

Lemma apply_msgs_app log k a b :
  0 <= k → apply_msgs log k (a + b) = apply_msgs log k a ++ apply_msgs log (k + Z.of_nat a) b.
Proof.
  intros Hk. unfold apply_msgs. rewrite <- take_take_drop, fmap_app, drop_drop. do 4 f_equal. lia.
Qed.

Lemma apply_msgs_agree log log' k a :
  0 <= k → take (S (Z.to_nat k + a)) log = take (S (Z.to_nat k + a)) log' →
  apply_msgs log k a = apply_msgs log' k a.
Proof.
  intros Hk Ht. unfold apply_msgs. f_equal. rewrite !take_drop_commute.
  replace (Z.to_nat (k + 1) + a)%nat with (S (Z.to_nat k + a)) by lia. by rewrite Ht.
Qed.

(** Sends that leave nothing blocked were all buffered. *)
Lemma sends_buffered {A} (ms : list A) : ∀ ch,
  ch_blocked (foldl chan_send_or_spawn ch ms) = [] →
  foldl chan_send_or_spawn ch ms = mkChan (ch_cap ch) (ch_buf ch ++ ms) [].
Proof.
  assert (Hgrow : ∀ ms (ch : chan A), ch_blocked (foldl chan_send_or_spawn ch ms) = [] → ch_blocked ch = []).
  { intros l. induction l as [|m l IH]; intros ch Hb; [done|]. cbn in Hb. apply IH in Hb.
    unfold chan_send_or_spawn in Hb. destruct (_ <? _)%nat; cbn in Hb; [done|].
    by destruct (ch_blocked ch). }
  induction ms as [|m ms IH]; intros ch Hb.
  { cbn in *. rewrite app_nil_r, <- Hb. by destruct ch. }
  cbn in Hb |- *. pose proof (Hgrow ms _ Hb) as Hb1. rewrite IH by done.
  unfold chan_send_or_spawn in *. destruct (_ <? _)%nat; cbn in *; [by rewrite <- app_assoc|].
  by destruct (ch_blocked ch).
Qed.

(** ** What was committed *)

Section Invariant.
Context (ids : list bytes) (cfg_of : bytes → Config) (Hdep : deployment ids cfg_of).

Lemma historic_step c ev c' i l : step c ev c' → historic ids cfg_of c i l → historic ids cfg_of c' i l.
Proof. intros Hs (c0 & n0 & h & ? & Hst & ?). exists c0, n0, h. split; [done|]. split; [by eapply steps_snoc|done]. Qed.

Lemma covered_step c ev c' i X : step c ev c' → covered ids cfg_of c i X → covered ids cfg_of c' i X.
Proof. intros Hs Hc key Hk. destruct (Hc key Hk) as (l & Hl & ?). exists l. split; [by eapply historic_step|done]. Qed.

(** What a node has committed now is historic. *)
Lemma historic_now c i n k :
  reachable ids cfg_of c → c_nodes c !! i = Some n → 0 <= k <= nd_commitIndex n →
  historic ids cfg_of c i (commands_upto k (nd_log n)).
Proof. intros Hr Hi Hk. exists c, n, k. split; [done|]. split; [constructor|done]. Qed.

(** The commands applied so far cover what they wrote. *)
Lemma covered_apply c i n k X :
  reachable ids cfg_of c → c_nodes c !! i = Some n → 0 <= k <= nd_commitIndex n →
  covered ids cfg_of c i X → covered ids cfg_of c i (apply_commands X (commands_upto k (nd_log n))).
Proof.
  intros Hr Hi Hk Hc key. rewrite apply_commands_lookup.
  destruct (last_write key (commands_upto k (nd_log n))) as [v|] eqn:El; [|by apply Hc].
  intros _. exists (commands_upto k (nd_log n)). split; [by apply historic_now|by rewrite El].
Qed.

(** Nothing covered survives when everything is applied again. *)
Lemma covered_replay c i n X :
  reachable ids cfg_of c → c_nodes c !! i = Some n → covered ids cfg_of c i X →
  (∀ l, historic ids cfg_of c i l → len l <= nd_lastApplied n) →
  apply_commands X (commands_upto (nd_lastApplied n) (nd_log n)) =
    apply_commands ∅ (commands_upto (nd_lastApplied n) (nd_log n)).
Proof using Hdep.
  intros Hr Hi Hc Hup. apply map_eq. intros key. rewrite !apply_commands_lookup.
  destruct (last_write key _) as [v|] eqn:El; [done|]. rewrite lookup_empty.
  destruct (X !! key) as [x|] eqn:EX; [|done]. exfalso.
  destruct (Hc key) as (l & Hl & Ht); [by rewrite EX|]. pose proof (Hup l Hl) as Hlen.
  destruct Hl as (c0 & n0 & h & Hr0 & Hs & Hi0 & Hh & ->).
  destruct (reachable_node_wf _ _ _ _ _ Hdep Hr0 Hi0) as [_ _ _ _ Hc0 _].
  destruct (reachable_node_wf _ _ _ _ _ Hdep Hr Hi) as [_ _ _ Ha Hcn _].
  rewrite len_commands_upto in Hlen by lia.
  pose proof (committed_agree ids cfg_of c0 c i i n0 n (Z.to_nat h) Hdep Hr0 Hs Hi0 Hi
    ltac:(lia) ltac:(lia)) as Hag.
  rewrite (commands_upto_agree _ _ _ Hag) in Ht.
  destruct (commands_upto_app h (nd_lastApplied n) (nd_log n)) as [suf Hsuf]; [lia|].
  rewrite Hsuf, last_write_app in El. destruct (last_write key suf); [done|]. rewrite El in Ht.
  by destruct Ht.
Qed.
End Invariant.

(** ** The invariant of the system *)

Section SystemInvariant.
Context {E : Type} `{KVStoreLaws E}.
Context (ids : list bytes) (cfg_of : bytes → Config) (Hdep : deployment ids cfg_of).

Definition sys_inv (s : system E) : Prop :=
  reachable ids cfg_of (s_cluster s)
  ∧ ∀ i n r, c_nodes (s_cluster s) !! i = Some n → s_replicas s !! i = Some r →
      replica_ok ids cfg_of (s_cluster s) i n r.

Lemma sys_inv_initial s : sys_initial ids cfg_of s → sys_inv s.
Proof.
  intros [Hc HR]. split; [rewrite Hc; constructor|]. rewrite Hc.
  intros i n r [_ ->]%initial_lookup Hr. destruct (HR i r Hr) as [Hsm Hrep].
  exists 0, ∅. rewrite Hsm. split_and!; cbn; try done. intros key. rewrite lookup_empty. by intros [? ?].
Qed.

(** A step of the protocol extends the channel. *)
Lemma replica_ok_raft c ev c' i n' r :
  reachable ids cfg_of c → step c ev c' → raft_event ev = true → no_overflow c' →
  c_nodes c' !! i = Some n' → (∀ n, c_nodes c !! i = Some n → replica_ok ids cfg_of c i n r) →
  replica_ok ids cfg_of c' i n' r.
Proof using Hdep.
  intros Hr Hs Hev Hno Hi' Hok.
  destruct (step_delivers _ _ _ _ _ _ _ Hdep Hr Hs Hev Hi') as (n & Hi & [Hle Hch]).
  destruct (Hok n Hi) as (k & X & Hk & Hsm & Hblk & Hbuf & Hrep & Hcov).
  destruct (reachable_node_wf _ _ _ _ _ Hdep Hr Hi) as [_ _ _ Ha _ _].
  destruct (reachable_node_wf _ _ _ _ _ Hdep (reach_step _ _ _ _ _ Hr Hs) Hi') as [_ _ _ Ha' _ _].
  assert (Hag : take (S (Z.to_nat (nd_lastApplied n))) (nd_log n) = take (S (Z.to_nat (nd_lastApplied n))) (nd_log n')).
  { eapply (committed_agree ids cfg_of c c' i i); try done; [|lia..].
    eapply steps_step; [exact Hs|constructor]. }
  pose proof (Hno i n' Hi') as Hblk'. rewrite Hch in Hblk'. pose proof (sends_buffered _ _ Hblk') as Hsent.
  exists k, X. split; [lia|]. split; [done|]. split; [by apply (Hno i n')|]. split; [|split].
  - rewrite Hch, Hsent. cbn. rewrite Hbuf, (apply_msgs_agree _ (nd_log n')).
    + replace (Z.to_nat (nd_lastApplied n' - k)) with
        (Z.to_nat (nd_lastApplied n - k) + Z.to_nat (nd_lastApplied n' - nd_lastApplied n))%nat by lia.
      rewrite apply_msgs_app by lia. do 2 f_equal. lia.
    + lia.
    + by replace (S (Z.to_nat k + Z.to_nat (nd_lastApplied n - k))) with (S (Z.to_nat (nd_lastApplied n))) by lia.
  - rewrite <- (commands_upto_agree k (nd_log n)); [done|].
    apply (f_equal (take (S (Z.to_nat k)))) in Hag. rewrite !take_take in Hag.
    by replace (S (Z.to_nat k) `min` S (Z.to_nat (nd_lastApplied n)))%nat with (S (Z.to_nat k)) in Hag by lia.
  - by eapply covered_step.
Qed.

(** Handling the oldest message applies the next command. *)
Lemma replica_ok_apply c c' i n r pick msg ch sm' w' :
  reachable ids cfg_of c → c_nodes c !! i = Some n → replica_ok ids cfg_of c i n r →
  (∀ X, covered ids cfg_of c i X → covered ids cfg_of c' i X) →
  chan_receive (nd_applyCh n) pick = Some (msg, ch) →
  (∀ wr, command_write (am_Command msg) = Some wr → kv_ready (re_world r) (sm_storageEngine (re_sm r)) wr) →
  handleApplyMsg (re_sm r) msg (re_world r) = (Ok sm', w') →
  replica_ok ids cfg_of c' i (set_applied (nd_lastApplied n) ch n) (mkReplica sm' w').
Proof using Hdep.
  intros Hr Hi (k & X & Hk & Hsm & Hblk & Hbuf & Hrep & Hcov) Hmono Hrecv Hready Hh.
  destruct (reachable_node_wf _ _ _ _ _ Hdep Hr Hi) as [_ Hwf _ Ha Hc _].
  unfold chan_receive in Hrecv. rewrite Hbuf, Hblk, lookup_nil in Hrecv.
  destruct (decide (k = nd_lastApplied n)) as [->|Hne].
  { by rewrite Z.sub_diag in Hrecv. }
  destruct (lookup_lt_is_Some_2 (nd_log n) (Z.to_nat (k + 1))) as [x Hx]; [unfold len in Hc; lia|].
  assert (Hsplit : apply_msgs (nd_log n) k (Z.to_nat (nd_lastApplied n - k)) =
    command_msg (le_Data x) (k + 1) :: apply_msgs (nd_log n) (k + 1) (Z.to_nat (nd_lastApplied n - (k + 1)))).
  { replace (Z.to_nat (nd_lastApplied n - k)) with (1 + Z.to_nat (nd_lastApplied n - (k + 1)))%nat by lia.
    rewrite apply_msgs_app by lia. unfold apply_msgs at 1. rewrite (drop_S _ _ _ Hx). cbn.
    rewrite (wl_index _ Hwf _ _ Hx). f_equal. f_equal. lia. }
  rewrite Hsplit in Hrecv. injection Hrecv as <- <-.
  destruct (handle_command_rep (re_world r) (re_sm r) _ (le_Data x) (k + 1) Hrep) as (sm1 & w1 & E1 & Hrep1 & Hl1);
    [lia|exact Hready|].
  rewrite Hh in E1. injection E1 as <- <-. exists (k + 1), X. cbn. split; [lia|]. split.
  { rewrite Hl1. case_decide; lia. }
  split; [done|]. split; [done|]. split; [|by apply Hmono].
  rewrite (commands_upto_succ k _ x) by (done || lia). unfold apply_commands. by rewrite foldl_app.
Qed.

(** A restart keeps the store and starts the replay. *)
Lemma replica_ok_restart c c' i n n' r e' w' :
  reachable ids cfg_of c → c_nodes c !! i = Some n → replica_ok ids cfg_of c i n r →
  (∀ X, covered ids cfg_of c i X → covered ids cfg_of c' i X) →
  nd_lastApplied n' = 0 → nd_applyCh n' = new_applyCh →
  (∀ m, kv_rep (re_world r) (sm_storageEngine (re_sm r)) m →
        kv_durable (re_world r) (sm_storageEngine (re_sm r)) m) →
  kv_Reopen (sm_storageEngine (re_sm r)) (re_world r) = (Ok e', w') →
  replica_ok ids cfg_of c' i n' (mkReplica (NewStateMachine e') w').
Proof using Hdep.
  intros Hr Hi (k & X & Hk & Hsm & Hblk & Hbuf & Hrep & Hcov) Hmono Ha' Hch' Hdur Hre.
  destruct (reachable_node_wf _ _ _ _ _ Hdep Hr Hi) as [_ _ _ Ha _ _].
  destruct (kv_reopen_ok _ _ _ Hrep (Hdur _ Hrep)) as (e1 & w1 & E1 & Hrep1).
  rewrite Hre in E1. injection E1 as <- <-.
  exists 0, (apply_commands X (commands_upto k (nd_log n))). rewrite Ha', Hch'. cbn.
  split_and!; try done. apply Hmono, covered_apply; [done..|lia|done].
Qed.

Lemma sys_inv_step s s' : sys_inv s → sys_step s s' → sys_inv s'.
Proof using Hdep.
  intros [Hr Hok] Hs. destruct Hs as [c ev c' R Hs Hev Hno|c R i n r pick msg ch sm' w' Hi HR Hrecv Hready Hh
    |c R i n r n' e' w' Hi HR Hn Hdur Hre]; cbn in Hr, Hok.
  - split; [by eapply reach_step|]. intros j m r Hj HR. cbn in *.
    eapply replica_ok_raft; try done. intros n Hn. by apply Hok.
  - assert (Hs : step c (EvReceive i) (upd_node i (set_applied (nd_lastApplied n) ch n) c)) by by constructor.
    split; [by eapply reach_step|]. intros j m r' Hj HR'. cbn in HR'.
    apply upd_node_lookup in Hj as [[-> ->]|[Hne Hj]].
    + rewrite lookup_insert_eq in HR'. injection HR' as <-.
      eapply replica_ok_apply; try done; [by apply Hok|]. intros X. by eapply covered_step.
    + rewrite lookup_insert_ne in HR' by done. destruct (Hok j m r' Hj HR') as (k & X & ? & ? & ? & ? & ? & ?).
      exists k, X. split_and!; try done; try lia. by eapply covered_step.
  - assert (Hs : step c (EvRestart i) (drop_elections i (upd_node i n' c))) by (by eapply step_restart).
    split; [by eapply reach_step|]. intros j m r' Hj HR'. cbn in HR'.
    apply upd_node_lookup in Hj as [[-> ->]|[Hne Hj]].
    + rewrite lookup_insert_eq in HR'. injection HR' as <-. destruct (reachable_inv ids cfg_of Hdep c Hr) as [g Hg].
      pose proof (no_recovers _ _ _ _ _ (inv_nodes _ _ _ _ Hg i n Hi) new_applyCh) as Hrec.
      rewrite Hn in Hrec. injection Hrec as ->.
      eapply replica_ok_restart; try done; [by apply Hok|]. intros X. by eapply covered_step.
    + rewrite lookup_insert_ne in HR' by done. destruct (Hok j m r' Hj HR') as (k & X & ? & ? & ? & ? & ? & ?).
      exists k, X. split_and!; try done; try lia. by eapply covered_step.
Qed.

Lemma sys_reachable_inv s : sys_reachable ids cfg_of s → sys_inv s.
Proof using Hdep. induction 1; [by apply sys_inv_initial|]. by eapply sys_inv_step. Qed.

(** The store of a replica that has caught up. *)
Lemma caught_up_store s i n r :
  sys_reachable ids cfg_of s → c_nodes (s_cluster s) !! i = Some n → s_replicas s !! i = Some r →
  caught_up ids cfg_of (s_cluster s) i n →
  kv_rep (re_world r) (sm_storageEngine (re_sm r))
    (apply_commands ∅ (commands_upto (nd_lastApplied n) (nd_log n))).
Proof using Hdep.
  intros Hs Hi HR [Hdr Hup]. destruct (sys_reachable_inv s Hs) as [Hr Hok].
  destruct (Hok i n r Hi HR) as (k & X & Hk & _ & _ & Hbuf & Hrep & Hcov).
  destruct (reachable_node_wf _ _ _ _ _ Hdep Hr Hi) as [_ _ _ Ha Hc _].
  assert (k = nd_lastApplied n) as ->.
  { rewrite Hdr in Hbuf. apply (f_equal length) in Hbuf. unfold apply_msgs in Hbuf.
    rewrite length_fmap, length_take, length_drop in Hbuf. cbn in Hbuf. unfold len in Hc. lia. }
  by rewrite <- (covered_replay ids cfg_of Hdep (s_cluster s) i n X).
Qed.
End SystemInvariant.

(** ** The leader of the highest term has everything *)

Section Leader.
Context (ids : list bytes) (cfg_of : bytes → Config) (Hdep : deployment ids cfg_of).

(** A term in which something is committed is at most the highest term. *)
Lemma committed_term c g t k T :
  inv ids cfg_of c g → committed ids g t k → (∀ i n, c_nodes c !! i = Some n → nd_currentTerm n <= T) → t <= T.
Proof.
  intros Hinv (ll & x & Q & _ & _ & _ & (_ & Hids & Hlen) & Hacks) HT.
  destruct Q as [|j Q]; [pose proof (len_nonneg ids); unfold len in *; cbn in *; lia|].
  destruct (Hacks j ltac:(left)) as (m & _ & Ha).
  destruct (inv_dom _ _ _ _ Hinv j (Hids j ltac:(left))) as [n Hn].
  pose proof (HT j n Hn). destruct (no_acks _ _ _ _ _ (inv_nodes _ _ _ _ Hinv j n Hn) t m Ha). lia.
Qed.

Lemma historic_leader c i l j n :
  reachable ids cfg_of c → c_nodes c !! j = Some n → nd_role n = Leader →
  (∀ i m, c_nodes c !! i = Some m → nd_currentTerm m <= nd_currentTerm n) →
  historic ids cfg_of c i l → len l <= len (nd_log n) - 1.
Proof using Hdep.
  intros Hr Hj Hl HT (c0 & n0 & h & Hr0 & Hs & Hi0 & Hh & ->).
  destruct (reachable_node_wf _ _ _ _ _ Hdep Hr0 Hi0) as [_ _ _ _ Hc0 _].
  destruct (reachable_node_wf _ _ _ _ _ Hdep Hr Hj) as [_ _ _ Ha Hc _].
  rewrite len_commands_upto by lia.
  destruct (reachable_inv ids cfg_of Hdep c0 Hr0) as [g0 Hg0].
  destruct (steps_inv ids cfg_of Hdep c0 c Hs g0 Hg0) as (g & Hle & Hinv).
  pose proof (no_commit _ _ _ _ _ (inv_nodes _ _ _ _ Hg0 i n0 Hi0)) as [_ Hcm].
  destruct Hcm as [Hz|(t & k & ll & Hcm & _ & Hk & _ & _)]; [lia|].
  apply (committed_mono g0 g Hle) in Hcm.
  destruct (no_lead _ _ _ _ _ (inv_nodes _ _ _ _ Hinv j n Hj) Hl) as (w & _ & _ & Hll).
  pose proof (committed_term c g t k _ Hinv Hcm HT) as Ht.
  pose proof Hcm as (llt & x & Q & Hllt & Ex & _).
  pose proof (committed_in_llog ids g t k _ llt (nd_log n) (inv_ghost _ _ _ _ Hinv) Hcm Ht Hllt Hll) as Hag.
  apply lookup_lt_Some in Ex. pose proof (agree_length _ _ _ (agree_sym _ _ _ Hag) Ex). unfold len. lia.
Qed.
End Leader.

(** ** A concrete run *)

Definition no_overflow_b (c : cluster) : bool :=
  forallb (λ p, bool_decide (ch_blocked (nd_applyCh (snd p)) = [])) (map_to_list (c_nodes c)).

Lemma no_overflow_b_ok c : no_overflow_b c = true → no_overflow c.
Proof.
  unfold no_overflow_b. rewrite forallb_forall. intros Hall i n Hi.
  specialize (Hall (i, n)). rewrite <- list_elem_of_In, elem_of_map_to_list in Hall.
  by apply (bool_decide_eq_true_1 _), (Hall Hi).
Qed.

(** Protocol actions of the scheduler that keep the channels from overflowing. *)
Fixpoint run_checked (c : cluster) (acts : list action) : option cluster :=
  match acts with
  | [] => Some c
  | a :: acts =>
      c ← exec c a;
      if no_overflow_b c && negb (is_restart a) then run_checked c acts else None
  end.

Lemma run_checked_reachable `{KVStoreLaws E} (ids : list bytes) (cfg_of : bytes → Config) (R : gmap bytes (replica E)) acts : ∀ c c',
  sys_reachable ids cfg_of (mkSystem c R) → run_checked c acts = Some c' →
  sys_reachable ids cfg_of (mkSystem c' R).
Proof.
  induction acts as [|a acts IH]; intros c c' Hr Hrun; cbn in Hrun; [by injection Hrun as <-|].
  destruct (exec c a) as [c1|] eqn:Ee; [|done]. cbn in Hrun.
  destruct (no_overflow_b c1) eqn:Eo; [|done]. destruct (negb (is_restart a)) eqn:Er; [|done].
  destruct (exec_step _ _ _ Ee) as (ev & Hs & Hev & _). apply (IH c1); [|done].
  eapply sys_reach_step; [exact Hr|]. apply (sys_raft c ev c1 R); [exact Hs|by rewrite Hev|by apply no_overflow_b_ok].
Qed.

(** The oldest message of node [i], handled by its replica on the engine. *)
Definition apply_one (s : system Engine.Engine) (i : bytes) : option (system Engine.Engine) :=
  n ← c_nodes (s_cluster s) !! i;
  r ← s_replicas s !! i;
  '(msg, ch) ← chan_receive (nd_applyCh n) 0;
  if Size (en_mem (sm_storageEngine (re_sm r))) + len (am_Command msg) + 64 <? memTableMaxSize then
    match handleApplyMsg (re_sm r) msg (re_world r) with
    | (Ok sm', w') => Some (mkSystem (upd_node i (set_applied (nd_lastApplied n) ch n) (s_cluster s))
                              (<[i := mkReplica sm' w']> (s_replicas s)))
    | _ => None
    end
  else None.

(** The key and value of a command are no longer than the command. *)
Lemma command_write_size data wr :
  command_write data = Some wr → entry_size (write_entry wr) <= len data.
Proof.
  unfold command_write, decode_command.
  destruct data as [|op [|k0 [|k1 [|v0 [|v1 [|v2 [|v3 rest]]]]]]]; try done.
  pose proof (le_get_2 k0 k1). pose proof (le_get_4 v0 v1 v2 v3).
  destruct (Z.ltb_spec (len rest) (le_get [k0; k1] + le_get [v0; v1; v2; v3])) as [|Hlt]; [done|].
  rewrite !len_cons. unfold entry_size, slice_bytes, len in *.
  case_decide; [done|]. case_decide; [|case_decide; [|done]]; intros [= <-]; cbn;
    rewrite ?length_take, ?length_drop; lia.
Qed.

Lemma apply_one_step s i s' :
  apply_one s i = Some s' → sys_step s s' ∧ step (s_cluster s) (EvReceive i) (s_cluster s').
Proof.
  intros Ha. unfold apply_one in Ha.
  destruct (c_nodes (s_cluster s) !! i) as [n|] eqn:En; [|done].
  destruct (s_replicas s !! i) as [r|] eqn:ER; [|done]. cbn [mbind option_bind] in Ha.
  destruct (chan_receive (nd_applyCh n) 0) as [[msg ch]|] eqn:Ec; [|done]. cbn [mbind option_bind] in Ha.
  destruct (Z.ltb_spec (Size (en_mem (sm_storageEngine (re_sm r))) + len (am_Command msg) + 64) memTableMaxSize)
    as [Hsz|]; [|done].
  destruct (handleApplyMsg (re_sm r) msg (re_world r)) as [[sm'| |] w'] eqn:Eh; [|done..]. injection Ha as <-.
  destruct s as [c R]. cbn in *. split; [|by apply step_receive].
  eapply (sys_apply c R i n r 0 msg ch); try done.
  intros wr Hwr. apply engine_small_ready. pose proof (command_write_size _ _ Hwr). lia.
Qed.

Lemma apply_one_reachable ids cfg_of s i s' :
  sys_reachable ids cfg_of s → apply_one s i = Some s' → sys_reachable ids cfg_of s'.
Proof. intros Hr Ha. eapply sys_reach_step; [exact Hr|]. by eapply apply_one_step. Qed.

(** Three processes with empty data directories; [n1] is elected and commits a
    write with [n2], and both apply it. *)
Definition demo_replica (i : bytes) : replica Engine.Engine :=
  mkReplica (NewStateMachine (fresh_engine i)) (mkWorld {[wal_file i := []]} [] [] []).
Definition demo_system : system Engine.Engine :=
  mkSystem (initial demo_ids demo_cfg) (list_to_map ((λ i, (i, demo_replica i)) <$> demo_ids)).
Definition demo_command : bytes := EncodeCommand OpPut (str "k") (str "v").
Definition demo_sys_run : list action :=
  let n1 := str "n1" in let n2 := str "n2" in
  [ATimeout n1; ADeliver 0; ADeliver 2; ACount n1 1; APropose n1 demo_command;
   ASend n1 n2; ADeliver 3; ADeliver 4; ASend n1 n2; ADeliver 5].
Definition demo_final : option (system Engine.Engine) :=
  c ← run_checked (s_cluster demo_system) demo_sys_run;
  s ← apply_one (mkSystem c (s_replicas demo_system)) (str "n1");
  apply_one s (str "n2").

Lemma demo_system_initial : sys_initial demo_ids demo_cfg demo_system.
Proof.
  split; [done|]. cbn [s_replicas demo_system]. intros i r Hr.
  apply elem_of_list_to_map_2, list_elem_of_fmap in Hr as (x & [= -> ->] & _).
  split; [done|]. apply fresh_engine_rep.
Qed.

(** What the witnesses need of the final state. *)
Definition demo_state (s : system Engine.Engine) (i : bytes) : option (Z * list ApplyMsg * Role * list LogEntry) :=
  n ← c_nodes (s_cluster s) !! i; _ ← s_replicas s !! i;
  Some (nd_lastApplied n, ch_buf (nd_applyCh n), nd_role n, nd_log n).
Definition demo_terms (s : system Engine.Engine) : bool :=
  forallb (λ p, nd_currentTerm (snd p) =? 1) (map_to_list (delete (str "n3") (c_nodes (s_cluster s))))
  && bool_decide (nd_currentTerm <$> c_nodes (s_cluster s) !! str "n3" = Some 0).

Lemma demo_final_reachable :
  ∃ s, demo_final = Some s ∧ sys_reachable demo_ids demo_cfg s ∧ demo_terms s = true
    ∧ demo_state s (str "n1") = Some (1, [], Leader, [dummy; mkLog 1 1 demo_command])
    ∧ demo_state s (str "n2") = Some (1, [], Follower, [dummy; mkLog 1 1 demo_command]).
Proof.
  assert (Hc : (s ← demo_final; Some (demo_terms s, demo_state s (str "n1"), demo_state s (str "n2"))) =
    Some (true, Some (1, [], Leader, [dummy; mkLog 1 1 demo_command]),
          Some (1, [], Follower, [dummy; mkLog 1 1 demo_command])))
    by (vm_compute; reflexivity).
  destruct demo_final as [s|] eqn:Ef; cbn [mbind option_bind] in Hc; [|discriminate Hc].
  injection Hc as H0 H1 H2. exists s. split; [reflexivity|]. split; [|split; [exact H0|split; [exact H1|exact H2]]].
  unfold demo_final in Ef. destruct (run_checked _ _) as [c|] eqn:Er; [|discriminate Ef].
  cbn [mbind option_bind] in Ef. destruct (apply_one (mkSystem c _) _) as [s1|] eqn:E1; [|discriminate Ef].
  cbn [mbind option_bind] in Ef.
  eapply apply_one_reachable; [|exact Ef]. eapply apply_one_reachable; [|exact E1].
  eapply run_checked_reachable; [|exact Er]. apply (sys_reach_init _ _ demo_system), demo_system_initial.
Qed.

Lemma demo_state_lookup s i a b r l :
  demo_state s i = Some (a, b, r, l) → ∃ n re, c_nodes (s_cluster s) !! i = Some n ∧ s_replicas s !! i = Some re
    ∧ nd_lastApplied n = a ∧ ch_buf (nd_applyCh n) = b ∧ nd_role n = r ∧ nd_log n = l.
Proof.
  unfold demo_state. destruct (c_nodes (s_cluster s) !! i) as [n|]; [|discriminate].
  destruct (s_replicas s !! i) as [re|]; [|discriminate]. cbn [mbind option_bind].
  intros [= <- <- <- <-]. by exists n, re.
Qed.

Lemma demo_terms_le s i n :
  demo_terms s = true → c_nodes (s_cluster s) !! i = Some n →
  nd_currentTerm n <= 1 ∧ (i ≠ str "n3" → nd_currentTerm n = 1).
Proof.
  unfold demo_terms. intros [Hall H3]%andb_true_iff Hi. apply bool_decide_eq_true in H3.
  rewrite forallb_forall in Hall. destruct (decide (i = str "n3")) as [->|Hne].
  - rewrite Hi in H3. cbn in H3. injection H3 as H3. split; [lia|done].
  - specialize (Hall (i, n)). rewrite <- list_elem_of_In, elem_of_map_to_list, lookup_delete_ne in Hall by done.
    specialize (Hall Hi). cbn in Hall. lia.
Qed.

(** In such a state both nodes have caught up. *)
Lemma demo_state_caught_up s :
  sys_reachable demo_ids demo_cfg s → demo_terms s = true →
  demo_state s (str "n1") = Some (1, [], Leader, [dummy; mkLog 1 1 demo_command]) →
  demo_state s (str "n2") = Some (1, [], Follower, [dummy; mkLog 1 1 demo_command]) →
  ∃ n m r1 r2, c_nodes (s_cluster s) !! str "n1" = Some n ∧ s_replicas s !! str "n1" = Some r1
    ∧ caught_up demo_ids demo_cfg (s_cluster s) (str "n1") n
    ∧ c_nodes (s_cluster s) !! str "n2" = Some m ∧ s_replicas s !! str "n2" = Some r2
    ∧ caught_up demo_ids demo_cfg (s_cluster s) (str "n2") m
    ∧ nd_lastApplied n = 1 ∧ nd_lastApplied m = 1 ∧ nd_log n = [dummy; mkLog 1 1 demo_command]
    ∧ nd_log m = [dummy; mkLog 1 1 demo_command].
Proof.
  intros Hr Ht H1 H2.
  apply demo_state_lookup in H1 as (n & r1 & Hn & Hr1 & Ha1 & Hb1 & Hl1 & Hg1).
  apply demo_state_lookup in H2 as (m & r2 & Hm & Hr2 & Ha2 & Hb2 & Hl2 & Hg2).
  destruct (sys_reachable_inv _ _ demo_deployment s Hr) as [Hreach _].
  assert (Hup : ∀ i l, historic demo_ids demo_cfg (s_cluster s) i l → len l <= 1).
  { intros i l Hh. destruct (demo_terms_le s _ _ Ht Hn) as [_ Htn]. specialize (Htn ltac:(discriminate)).
    pose proof (historic_leader _ _ demo_deployment (s_cluster s) i l _ n Hreach Hn Hl1) as Hle.
    rewrite Hg1, Htn in Hle. change (len [dummy; mkLog 1 1 demo_command] - 1) with 1 in Hle.
    apply Hle; [|exact Hh]. intros j x Hj. by apply (demo_terms_le s j x Ht). }
  exists n, m, r1, r2. split_and!; try done.
  - split; [exact Hb1|]. intros l Hh. rewrite Ha1. by eapply Hup.
  - split; [exact Hb2|]. intros l Hh. rewrite Ha2. by eapply Hup.
Qed.

Lemma demo_caught_up :
  ∃ s n m r1 r2, demo_final = Some s ∧ sys_reachable demo_ids demo_cfg s
    ∧ c_nodes (s_cluster s) !! str "n1" = Some n ∧ s_replicas s !! str "n1" = Some r1
    ∧ caught_up demo_ids demo_cfg (s_cluster s) (str "n1") n
    ∧ c_nodes (s_cluster s) !! str "n2" = Some m ∧ s_replicas s !! str "n2" = Some r2
    ∧ caught_up demo_ids demo_cfg (s_cluster s) (str "n2") m
    ∧ nd_lastApplied n = 1 ∧ nd_lastApplied m = 1 ∧ nd_log n = [dummy; mkLog 1 1 demo_command].
Proof.
  destruct demo_final_reachable as (s & Hf & Hr & Ht & H1 & H2).
  destruct (demo_state_caught_up s Hr Ht H1 H2) as (n & m & r1 & r2 & ? & ? & ? & ? & ? & ? & ? & ? & ? & _).
  exists s, n, m, r1, r2. split; [exact Hf|]. clear Hf. done.
Qed.

(** *** The run goes on with a crash of [n2] *)

(** The process of node [i] is killed and started again. *)
Definition restart_one (s : system Engine.Engine) (i : bytes) : option (system Engine.Engine) :=
  n ← c_nodes (s_cluster s) !! i;
  r ← s_replicas s !! i;
  match NewNode (nd_cfg n) (nd_peers n) new_applyCh (nd_disk n),
        kv_Reopen (sm_storageEngine (re_sm r)) (re_world r) with
  | inr n', (Ok e', w') => Some (mkSystem (drop_elections i (upd_node i n' (s_cluster s)))
                                   (<[i := mkReplica (NewStateMachine e') w']> (s_replicas s)))
  | _, _ => None
  end.

(** [n2] restarts and is brought up to date by the leader: it applies the entry
    again. *)
Definition demo_restarted : option (system Engine.Engine) :=
  s ← demo_final;
  s ← restart_one s (str "n2");
  c ← run_checked (s_cluster s) [ASend (str "n1") (str "n2"); ADeliver 7];
  apply_one (mkSystem c (s_replicas s)) (str "n2").

Definition demo_disk (s : system Engine.Engine) (i : bytes) : option (bytes * option bytes * list bytes) :=
  r ← s_replicas s !! i;
  let d := en_dataDir (sm_storageEngine (re_sm r)) in
  Some (d, w_files (re_world r) !! wal_file d, sst_paths (w_files (re_world r)) d).

(** What [n2] holds when it crashes is on its disk. *)
Lemma demo_durable s r m :
  sys_reachable demo_ids demo_cfg s → demo_terms s = true →
  demo_state s (str "n1") = Some (1, [], Leader, [dummy; mkLog 1 1 demo_command]) →
  demo_state s (str "n2") = Some (1, [], Follower, [dummy; mkLog 1 1 demo_command]) →
  demo_disk s (str "n2") = Some (str "n2", Some (encode_records [put_record (str "k") (str "v")]), []) →
  s_replicas s !! str "n2" = Some r → kv_rep (re_world r) (sm_storageEngine (re_sm r)) m →
  kv_durable (re_world r) (sm_storageEngine (re_sm r)) m.
Proof.
  intros Hr Ht H1 H2 Hdisk HR Hm.
  destruct (demo_state_caught_up s Hr Ht H1 H2) as (n & n2 & r1 & r2 & _ & _ & _ & Hn2 & Hr2 & Hu2 & _ & Ha2 & _ & Hg2).
  rewrite HR in Hr2. injection Hr2 as <-.
  pose proof (caught_up_store _ _ demo_deployment s (str "n2") n2 r Hr Hn2 HR Hu2) as Hrep. rewrite Ha2, Hg2 in Hrep.
  rewrite (engine_kv_rep_unique _ _ _ _ Hm Hrep).
  unfold demo_disk in Hdisk. rewrite HR in Hdisk. cbn [mbind option_bind] in Hdisk. injection Hdisk as Hd Hf Hs.
  exists [put_record (str "k") (str "v")], []. split; [exact Hf|]. split; [by_decide|]. split.
  - apply List.Forall_cons; [|apply List.Forall_nil]. split; [split; vm_compute; congruence|].
    right. split; [reflexivity|vm_compute; discriminate].
  - rewrite Hs. apply List.Forall2_nil.
Qed.

Lemma restart_one_step s i s' :
  restart_one s i = Some s' →
  (∀ r m, s_replicas s !! i = Some r → kv_rep (re_world r) (sm_storageEngine (re_sm r)) m →
     kv_durable (re_world r) (sm_storageEngine (re_sm r)) m) →
  sys_step s s'.
Proof.
  intros Ha Hd. unfold restart_one in Ha.
  destruct (c_nodes (s_cluster s) !! i) as [n|] eqn:En; [|done].
  destruct (s_replicas s !! i) as [r|] eqn:ER; [|done]. cbn [mbind option_bind] in Ha.
  destruct (NewNode _ _ _ _) as [err|n'] eqn:Enew; [done|].
  destruct (kv_Reopen _ _) as [[e'| |] w'] eqn:Eo; [|done..]. injection Ha as <-. destruct s as [c R]. cbn in *.
  eapply sys_restart; try done. intros m. by apply Hd.
Qed.

Lemma demo_restarted_reachable :
  ∃ s0 s1 s, demo_final = Some s0 ∧ restart_one s0 (str "n2") = Some s1 ∧ sys_step s0 s1
    ∧ sys_reachable demo_ids demo_cfg s ∧ demo_terms s = true
    ∧ demo_state s (str "n1") = Some (1, [], Leader, [dummy; mkLog 1 1 demo_command])
    ∧ demo_state s (str "n2") = Some (1, [], Follower, [dummy; mkLog 1 1 demo_command]).
Proof.
  destruct demo_final_reachable as (s0 & Hf & Hr0 & Ht0 & H01 & H02).
  assert (Hdisk : (s ← demo_final; demo_disk s (str "n2")) =
    Some (str "n2", Some (encode_records [put_record (str "k") (str "v")]), [])) by (vm_compute; reflexivity).
  rewrite Hf in Hdisk. cbn [mbind option_bind] in Hdisk.
  assert (Hc : (s ← demo_restarted; Some (demo_terms s, demo_state s (str "n1"), demo_state s (str "n2"))) =
    Some (true, Some (1, [], Leader, [dummy; mkLog 1 1 demo_command]),
          Some (1, [], Follower, [dummy; mkLog 1 1 demo_command]))) by (vm_compute; reflexivity).
  unfold demo_restarted in Hc. rewrite Hf in Hc. cbn [mbind option_bind] in Hc.
  destruct (restart_one s0 (str "n2")) as [s1|] eqn:E1; [|discriminate Hc]. cbn [mbind option_bind] in Hc.
  destruct (run_checked (s_cluster s1) _) as [c|] eqn:Er; [|discriminate Hc]. cbn [mbind option_bind] in Hc.
  destruct (apply_one (mkSystem c _) _) as [s|] eqn:Ea; [|discriminate Hc]. cbn [mbind option_bind] in Hc.
  injection Hc as Hc0 Hc1 Hc2.
  assert (Hs : sys_step s0 s1).
  { eapply restart_one_step; [exact E1|]. intros r m HR Hm. by eapply (demo_durable s0). }
  exists s0, s1, s. split; [exact Hf|]. clear Hf. split; [exact E1|]. split; [exact Hs|]. split; [|done].
  eapply apply_one_reachable; [|exact Ea]. eapply run_checked_reachable; [|exact Er]. destruct s1 as [c1 R1].
  eapply sys_reach_step; [exact Hr0|exact Hs].
Qed.

(** * Theorems *)

(** C3: end to end, committed writes are kept, in the runs of [sys_step]: no
    apply channel ever holds more than its 256 messages, the store takes every
    write it is handed (for the engine: no I/O failure, and the MemTable has
    room or its flush makes a table that reads back), it is not compacted in the
    background, and a process crashes only when what its store holds is durable
    (for the engine: every logged put has a non-empty value and a key the log
    reader decodes, and the tables are sound). If any node had committed the
    commands [l] at any earlier time, then the store of every replica that has
    caught up and applied at least that many entries holds the map made of the
    empty map by [l] and then by the commands committed after it, whatever
    messages were lost, elections held and processes killed, restarted and
    replayed in between. *)
Theorem system_committed_writes_kept `{KVStoreLaws E} ids cfg_of (s : system E) i l j m r :
  deployment ids cfg_of → sys_reachable ids cfg_of s → historic ids cfg_of (s_cluster s) i l →
  c_nodes (s_cluster s) !! j = Some m → s_replicas s !! j = Some r →
  caught_up ids cfg_of (s_cluster s) j m → len l <= nd_lastApplied m →
  ∃ later, commands_upto (nd_lastApplied m) (nd_log m) = l ++ later
    ∧ kv_rep (re_world r) (sm_storageEngine (re_sm r)) (apply_commands (apply_commands ∅ l) later).
Proof.
  intros Hdep Hs (c0 & n0 & h & Hr0 & Hst & Hi0 & Hh & ->) Hj HR Hcu Hlen.
  pose proof (caught_up_store ids cfg_of Hdep s j m r Hs Hj HR Hcu) as Hrep.
  destruct (sys_reachable_inv ids cfg_of Hdep s Hs) as [Hr _].
  destruct (reachable_node_wf _ _ _ _ _ Hdep Hr0 Hi0) as [_ _ _ _ Hc0 _].
  destruct (reachable_node_wf _ _ _ _ _ Hdep Hr Hj) as [_ _ _ Ha Hc _].
  rewrite len_commands_upto in Hlen by lia.
  pose proof (committed_agree ids cfg_of c0 (s_cluster s) i j n0 m (Z.to_nat h) Hdep Hr0 Hst Hi0 Hj
    ltac:(lia) ltac:(lia)) as Hag.
  rewrite (commands_upto_agree _ _ _ Hag).
  destruct (commands_upto_app h (nd_lastApplied m) (nd_log m)) as [later Hl]; [lia|].
  exists later. split; [exact Hl|]. rewrite Hl in Hrep. unfold apply_commands in *. by rewrite <- foldl_app.
Qed.

(** [n2] crashed after it had applied the write, and has applied it again. *)
Lemma system_committed_writes_kept_witness :
  ∃ s0 s1 s m r later, demo_final = Some s0 ∧ restart_one s0 (str "n2") = Some s1 ∧ sys_reachable demo_ids demo_cfg s
    ∧ c_nodes (s_cluster s) !! str "n2" = Some m ∧ s_replicas s !! str "n2" = Some r
    ∧ commands_upto (nd_lastApplied m) (nd_log m) = [demo_command] ++ later
    ∧ kv_rep (re_world r) (sm_storageEngine (re_sm r)) (apply_commands {[str "k" := str "v"]} later).
Proof.
  destruct demo_restarted_reachable as (s0 & s1 & s & Hf & E1 & _ & Hr & Ht & H1 & H2).
  destruct (demo_state_caught_up s Hr Ht H1 H2) as (n & m & r1 & r2 & Hn & Hr1 & Hu1 & Hm & Hr2 & Hu2 & Ha1 & Ha2 & Hlog & _).
  destruct (sys_reachable_inv _ _ demo_deployment s Hr) as [Hreach _].
  assert (Hh : historic demo_ids demo_cfg (s_cluster s) (str "n1") [demo_command]).
  { replace [demo_command] with (commands_upto 1 (nd_log n)) by (rewrite Hlog; reflexivity).
    apply historic_now; [exact Hreach|exact Hn|].
    destruct (reachable_node_wf _ _ _ _ _ demo_deployment Hreach Hn) as [_ _ _ Hap _ _]. lia. }
  destruct (system_committed_writes_kept demo_ids demo_cfg s (str "n1") [demo_command] (str "n2") m r2
    demo_deployment Hr Hh Hm Hr2 Hu2) as (later & Hl & Hrep).
  - rewrite Ha2. unfold len. cbn. lia.
  - exists s0, s1, s, m, r2, later. split; [exact Hf|]. split; [exact E1|]. split; [exact Hr|]. split; [exact Hm|].
    split; [exact Hr2|]. split; [exact Hl|].
    replace {[str "k" := str "v"]} with (apply_commands ∅ [demo_command]) by by_decide.
    exact Hrep.
Defined.

(** Replicas agree: two replicas that have caught up and applied the same
    number of entries give the same answer to every read. *)
Theorem system_replicas_agree `{KVStoreLaws E} ids cfg_of (s : system E) i j n m ri rj key :
  deployment ids cfg_of → sys_reachable ids cfg_of s →
  c_nodes (s_cluster s) !! i = Some n → s_replicas s !! i = Some ri → caught_up ids cfg_of (s_cluster s) i n →
  c_nodes (s_cluster s) !! j = Some m → s_replicas s !! j = Some rj → caught_up ids cfg_of (s_cluster s) j m →
  nd_lastApplied n = nd_lastApplied m → key ≠ [] →
  fst (kv_Get (sm_storageEngine (re_sm ri)) key (re_world ri)) =
    fst (kv_Get (sm_storageEngine (re_sm rj)) key (re_world rj)).
Proof.
  intros Hdep Hs Hi HRi Hui Hj HRj Huj Heq Hkey.
  pose proof (caught_up_store ids cfg_of Hdep s i n ri Hs Hi HRi Hui) as Hrep1.
  pose proof (caught_up_store ids cfg_of Hdep s j m rj Hs Hj HRj Huj) as Hrep2.
  destruct (sys_reachable_inv ids cfg_of Hdep s Hs) as [Hr _].
  destruct (reachable_node_wf _ _ _ _ _ Hdep Hr Hi) as [_ _ _ Ha _ _].
  destruct (reachable_node_wf _ _ _ _ _ Hdep Hr Hj) as [_ _ _ Ha' _ _].
  rewrite (kv_get_ok _ _ _ key Hrep1 Hkey), (kv_get_ok _ _ _ key Hrep2 Hkey). cbn [fst].
  pose proof (committed_agree ids cfg_of _ _ i j n m (Z.to_nat (nd_lastApplied n)) Hdep Hr (steps_refl _) Hi Hj
    ltac:(lia) ltac:(lia)) as Hag.
  by rewrite (commands_upto_agree _ _ _ Hag), Heq.
Qed.

Lemma system_replicas_agree_witness :
  ∃ s r1 r2, sys_reachable demo_ids demo_cfg s ∧ s_replicas s !! str "n1" = Some r1 ∧ s_replicas s !! str "n2" = Some r2
    ∧ fst (kv_Get (sm_storageEngine (re_sm r1)) (str "k") (re_world r1)) =
        fst (kv_Get (sm_storageEngine (re_sm r2)) (str "k") (re_world r2)).
Proof.
  destruct demo_caught_up as (s & n & m & r1 & r2 & _ & Hr & Hn & Hr1 & Hu1 & Hm & Hr2 & Hu2 & Ha1 & Ha2 & _).
  exists s, r1, r2. split; [exact Hr|]. split; [exact Hr1|]. split; [exact Hr2|].
  apply (system_replicas_agree demo_ids demo_cfg s (str "n1") (str "n2") n m r1 r2 (str "k")
    demo_deployment Hr Hn Hr1 Hu1 Hm Hr2 Hu2).
  - rewrite Ha1, Ha2. reflexivity.
  - discriminate.
Defined.
