(* ===== verification/Rpc.v ===== *)
(** The gRPC layer of [internal/rpc]: the server's handlers over the interface
    [RaftProposer] and the storage engine, and the pool of connections to the
    peers. The gRPC transport is not part of the repository's code: dialling
    and remote calls are parameters of the definitions that use them. *)

From S2P Require Import Prelude StorageTypes MemTable Os Wal Engine Store Config RaftNode Election Replication.
From S2P Require Import Snapshot StateMachine.

(** ** The interface of the Raft node *)

(** [type RaftProposer interface]; methods that change the node return it, and
    [None] where the node panics. *)
Class RaftProposer (R : Type) := {
  rp_GetState : R → Z * bool;
  rp_Propose : R → bytes → option (R * list goroutine * (Z * Z * bool));
  rp_HandleRequestVote : R → RequestVoteRequest → option (R * RequestVoteResponse);
  rp_HandleAppendEntries : R → AppendEntriesRequest → option (R * AppendEntriesResponse);
  rp_HandleInstallSnapshot : R → InstallSnapshotRequest → option error → R * InstallSnapshotResponse;
}.

#[global] Instance node_proposer : RaftProposer Node := {
  rp_GetState := GetState;
  rp_Propose := Propose;
  rp_HandleRequestVote := HandleRequestVote;
  rp_HandleAppendEntries := HandleAppendEntries;
  rp_HandleInstallSnapshot := HandleInstallSnapshot;
}.

(** ** Messages of the client API

    An [Error] string is kept as the error it prints, [None] for the empty
    string. *)

Record PutRequest := mkPutReq { pq_Key : bytes; pq_Value : slice }.
Record PutResponse := mkPutResp { pr_Success : bool; pr_Error : option error; pr_LeaderHint : bytes }.
Record GetRequest := mkGetReq { gq_Key : bytes }.
Record GetResponse := mkGetResp {
  gr_Value : bytes; gr_Found : bool; gr_Error : option error; gr_LeaderHint : bytes }.
Record DeleteRequest := mkDelReq { dq_Key : bytes }.
Record DeleteResponse := mkDelResp { dr_Success : bool; dr_Error : option error; dr_LeaderHint : bytes }.
Record PingRequest := mkPingReq { pg_SenderId : bytes }.
Record PingResponse := mkPingResp { pgr_ResponderId : bytes; pgr_Message : bytes }.

(** [encodeCommand] byte by byte, [byte(x >> s)] keeping the low eight bits. *)
Definition encodeCommand (op : OpType) (key : bytes) (value : slice) : bytes :=
  [op; byte_of_Z (len key); byte_of_Z (Z.shiftr (len key) 8);
   byte_of_Z (len (slice_bytes value)); byte_of_Z (Z.shiftr (len (slice_bytes value)) 8);
   byte_of_Z (Z.shiftr (len (slice_bytes value)) 16); byte_of_Z (Z.shiftr (len (slice_bytes value)) 24)]
  ++ key ++ slice_bytes value.

(** ** The server *)

Section Server.
Context {R E : Type} `{RaftProposer R} `{KVStore E}.

Record GRPCServer := mkServer {
  gs_nodeID : bytes;
  gs_raftNode : option R;
  gs_storageEng : option E;
}.

Definition NewGRPCServer (nodeID : bytes) (raftNode : option R) (storageEng : option E) : GRPCServer :=
  mkServer nodeID raftNode storageEng.

Definition set_raft (r : R) (s : GRPCServer) : GRPCServer := mkServer (gs_nodeID s) (Some r) (gs_storageEng s).
Definition set_engine (e : E) (s : GRPCServer) : GRPCServer := mkServer (gs_nodeID s) (gs_raftNode s) (Some e).

(** [quote] is the formatting verb [%q]. *)
Definition Ping (quote : bytes → bytes) (s : GRPCServer) (req : PingRequest) : PingResponse :=
  mkPingResp (gs_nodeID s) (str "node " ++ quote (gs_nodeID s) ++ str " is alive and ready").

Definition RequestVote (s : GRPCServer) (req : RequestVoteRequest) : option (GRPCServer * RequestVoteResponse) :=
  match gs_raftNode s with
  | None => Some (s, mkVoteResp (rv_Term req) false)
  | Some r => '(r, resp) ← rp_HandleRequestVote r req; Some (set_raft r s, resp)
  end.

Definition AppendEntries (s : GRPCServer) (req : AppendEntriesRequest)
    : option (GRPCServer * AppendEntriesResponse) :=
  match gs_raftNode s with
  | None => Some (s, mkAppendResp (ae_Term req) false 0)
  | Some r => '(r, resp) ← rp_HandleAppendEntries r req; Some (set_raft r s, resp)
  end.

Definition InstallSnapshot (s : GRPCServer) (req : InstallSnapshotRequest) (fault : option error)
    : GRPCServer * InstallSnapshotResponse :=
  match gs_raftNode s with
  | None => (s, mkInstallResp (is_Term req))
  | Some r => let '(r, resp) := rp_HandleInstallSnapshot r req fault in (set_raft r s, resp)
  end.

(** The loop of [Put] for two seconds: [polls] are the stores it meets, one per
    iteration, changed meanwhile by other goroutines. The boolean is whether
    the value was seen. *)
Fixpoint poll_value (polls : list (E * world)) (key value : bytes) : outcome bool :=
  match polls with
  | [] => Ok false
  | (e, w) :: polls =>
      match fst (kv_Get e key w) with
      | Panic => Panic
      | Ok val => if decide (val = value) then Ok true else poll_value polls key value
      | Err _ => poll_value polls key value
      end
  end.

(** [Put]: the server, the goroutines started and the response. A nil engine
    under a Raft node is dereferenced by the polling loop. *)
Definition Put (s : GRPCServer) (polls : list (E * world)) (req : PutRequest)
    : IO (GRPCServer * list goroutine * PutResponse) :=
  match gs_raftNode s with
  | None =>
      match gs_storageEng s with
      | Some e =>
          '(e, err) ← kv_Put e (pq_Key req) (pq_Value req);
          mret (set_engine e s, [],
                match err with
                | Some err => mkPutResp false (Some err) []
                | None => mkPutResp true None []
                end)
      | None => mret (s, [], mkPutResp false (Some (Errorf "node not ready")) [])
      end
  | Some r =>
      let '(_, isLeader) := rp_GetState r in
      if negb isLeader then mret (s, [], mkPutResp false (Some (Errorf "not leader")) []) else
      let cmd := encodeCommand OpPut (pq_Key req) (pq_Value req) in
      '(r, gs, (idx, _, ok)) ← io_lift (or_panic (rp_Propose r cmd));
      let s := set_raft r s in
      if negb ok || (idx =? 0) then mret (s, gs, mkPutResp false (Some (Errorf "failed to propose to Raft")) []) else
      _ ← io_lift (match gs_storageEng s with
                   | None => Panic
                   | Some _ => poll_value polls (pq_Key req) (slice_bytes (pq_Value req))
                   end);
      (* both exits of the loop answer success *)
      mret (s, gs, mkPutResp true None [])
  end.

Definition Get (s : GRPCServer) (req : GetRequest) : IO GetResponse :=
  match gs_storageEng s with
  | None => mret (mkGetResp [] false (Some (Errorf "storage engine not ready")) [])
  | Some e =>
      r ← io_try (kv_Get e (gq_Key req));
      mret (match r with
            | inl _ => mkGetResp [] false None []
            | inr val => mkGetResp val true None []
            end)
  end.

Definition Delete (s : GRPCServer) (req : DeleteRequest)
    : IO (GRPCServer * list goroutine * DeleteResponse) :=
  match gs_raftNode s with
  | None =>
      match gs_storageEng s with
      | Some e =>
          '(e, err) ← kv_Delete e (dq_Key req);
          mret (set_engine e s, [],
                match err with
                | Some err => mkDelResp false (Some err) []
                | None => mkDelResp true None []
                end)
      | None => mret (s, [], mkDelResp false (Some (Errorf "node not ready")) [])
      end
  | Some r =>
      let '(_, isLeader) := rp_GetState r in
      if negb isLeader then mret (s, [], mkDelResp false (Some (Errorf "not leader")) []) else
      let cmd := encodeCommand OpDelete (dq_Key req) None in
      '(r, gs, (idx, _, ok)) ← io_lift (or_panic (rp_Propose r cmd));
      let s := set_raft r s in
      if negb ok || (idx =? 0)
      then mret (s, gs, mkDelResp false (Some (Errorf "failed to propose delete to Raft")) [])
      else mret (s, gs, mkDelResp true None [])
  end.
End Server.

Arguments GRPCServer R E : clear implicits.
Arguments mkServer {R E} _ _ _.

(** ** The pool of peers *)

Definition defaultRPCTimeout : Z := 200 * Millisecond.

(** A connection: the peer and the address it was dialled at. *)
Record peerConn := mkPeer { pc_peerID : bytes; pc_conn : bytes }.

Record PeerPool := mkPool {
  pp_selfID : bytes;
  pp_peers : gmap bytes peerConn;
}.

Definition NewPeerPool (selfID : bytes) : PeerPool := mkPool selfID ∅.

(** [dial addr] is the error of [grpc.NewClient], if any. *)
Definition Connect (dial : bytes → option error) (p : PeerPool) (peerID addr : bytes)
    : PeerPool * option error :=
  match pp_peers p !! peerID with
  | Some _ => (p, None)
  | None =>
      match dial addr with
      | Some err => (p, Some (Wrapf "peer pool: failed to dial" err))
      | None => (mkPool (pp_selfID p) (<[peerID := mkPeer peerID addr]> (pp_peers p)), None)
      end
  end.

Definition pool_Close (p : PeerPool) : PeerPool := mkPool (pp_selfID p) ∅.

(** Map iteration order is unspecified; this is one order. *)
Definition PeerIDs (p : PeerPool) : list bytes := fst <$> map_to_list (pp_peers p).

Definition getPeer (p : PeerPool) (peerID : bytes) : error + peerConn :=
  match pp_peers p !! peerID with
  | Some peer => inr peer
  | None => inl (Errorf "peer pool: unknown peer")
  end.

Definition GetClientStub (p : PeerPool) (peerID : bytes) : error + peerConn := getPeer p peerID.

(** The client's calls: look the peer up, then call it with a time limit.
    [call timeout peer req] is the remote call. *)
Definition pool_call {Req Resp} (timeout : Z) (call : Z → peerConn → Req → error + Resp)
    (p : PeerPool) (peerID : bytes) (req : Req) : error + Resp :=
  match getPeer p peerID with
  | inl err => inl err
  | inr peer => call timeout peer req
  end.

Definition pool_Ping := @pool_call PingRequest PingResponse defaultRPCTimeout.
Definition pool_Put := @pool_call PutRequest PutResponse (2 * 1000 * Millisecond).
Definition pool_Get := @pool_call GetRequest GetResponse defaultRPCTimeout.
Definition pool_Delete := @pool_call DeleteRequest DeleteResponse (2 * 1000 * Millisecond).
Definition pool_RequestVote := @pool_call RequestVoteRequest RequestVoteResponse defaultRPCTimeout.
Definition pool_AppendEntries := @pool_call AppendEntriesRequest AppendEntriesResponse defaultRPCTimeout.
Definition pool_InstallSnapshot :=
  @pool_call InstallSnapshotRequest InstallSnapshotResponse (10 * 1000 * Millisecond).

(** [BroadcastPing]: the results as they arrive on the channel, in the order
    [arrival] of the peers. *)
Definition BroadcastPing (call : Z → peerConn → PingRequest → error + PingResponse) (p : PeerPool)
    (arrival : list bytes) (req : PingRequest) : gmap bytes (error + PingResponse) :=
  foldl (λ results id, <[id := pool_Ping call p id req]> results) ∅ arrival.

(** ** Specification *)

(** The response a client of a store that holds [m] expects from [Get]. *)
Definition get_response (v : option bytes) : GetResponse :=
  match v with Some v => mkGetResp v true None [] | None => mkGetResp [] false None [] end.

(** A poll never panics. *)
Definition poll_safe {E} `{KVStore E} (polls : list (E * world)) (key : bytes) : Prop :=
  ∀ e w, (e, w) ∈ polls → fst (kv_Get e key w) ≠ Panic.

(** * Lemmas *)

(** Both encoders of the repository agree. *)
Lemma encodeCommand_EncodeCommand op key value :
  encodeCommand op key value = EncodeCommand op key (slice_bytes value).
Proof.
  unfold encodeCommand, EncodeCommand. unfold le_put, u16, u32.
  set (a := len key). set (b := len (slice_bytes value)).
  assert (Hm : ∀ z n s, 0 <= s → s + 8 <= n → byte_of_Z (Z.shiftr (z mod 2 ^ n) s) = byte_of_Z (Z.shiftr z s)).
  { intros z n s Hs Hn. unfold byte_of_Z. do 3 f_equal. rewrite !Z.shiftr_div_pow2 by lia.
    apply Z.bits_inj'. intros i Hi.
    destruct (Z.ltb_spec i 8); [|by rewrite !Z.mod_pow2_bits_high by lia].
    rewrite !Z.mod_pow2_bits_low, !Z.div_pow2_bits, Z.mod_pow2_bits_low by lia. done. }
  rewrite !Z.shiftr_shiftr by lia. pose proof (Hm a 16 0 ltac:(lia) ltac:(lia)) as H0.
  pose proof (Hm b 32 0 ltac:(lia) ltac:(lia)) as H1. rewrite !Z.shiftr_0_r in H0, H1.
  rewrite H0, H1, !Hm by lia. done.
Qed.

Lemma poll_value_total `{KVStore E} (polls : list (E * world)) key value :
  poll_safe polls key → ∃ b, poll_value polls key value = Ok b.
Proof.
  induction polls as [|[e w] polls IH]; intros Hs; [by eexists|]. cbn.
  pose proof (Hs e w ltac:(left)) as Hp. assert (IH' := IH ltac:(intros ? ? ?; apply Hs; by right)).
  destruct (fst (kv_Get e key w)); [case_decide; [by eexists|done]|done|done].
Qed.

(** A key of 65536 or more bytes: the command carries the length modulo 65536. *)
Lemma decode_long_key op k1 rest value :
  len k1 <= 65535 → len rest = 65536 → len value < 2 ^ 32 →
  decode_command (EncodeCommand op (k1 ++ rest) value) = Some (op, k1, take (length value) (rest ++ value)).
Proof.
  intros Hk Hr Hv. pose proof (len_nonneg k1). pose proof (len_nonneg value).
  unfold EncodeCommand.
  pose proof (le_get_put_u16 (len (k1 ++ rest))) as E1. pose proof (le_get_put_u32 (len value)) as E2.
  pose proof (length_le_put 2 (u16 (len (k1 ++ rest)))) as L1.
  pose proof (length_le_put 4 (u32 (len value))) as L2.
  assert (Hu : u16 (len (k1 ++ rest)) = len k1).
  { rewrite len_app, Hr. unfold u16. change 65536 with (1 * 2 ^ 16).
    rewrite Z.mod_add by lia. apply Z.mod_small. lia. }
  rewrite Hu in *. rewrite u32_small in * by lia.
  destruct (le_put 2 _) as [|k0 [|k2 [|]]]; try discriminate L1.
  destruct (le_put 4 _) as [|v0 [|v1 [|v2 [|v3 [|]]]]]; try discriminate L2.
  cbn [app decode_command]. rewrite E1, E2, !len_app, (proj2 (Z.ltb_ge _ _)) by lia.
  rewrite <- app_assoc, take_len, drop_len. unfold len. by rewrite Nat2Z.id.
Qed.

(** A read is answered from the store of the node that is asked, leader or not. *)
Lemma Get_response `{KVStoreLaws E} {R} (s : GRPCServer R E) e m w req :
  gs_storageEng s = Some e → kv_rep w e m → gq_Key req ≠ [] →
  Get s req w = (Ok (get_response (m !! gq_Key req)), w).
Proof.
  intros Hs Hr Hk. unfold Get. rewrite Hs. unfold mbind, io_bind, io_try. rewrite (kv_get_ok w e m) by done.
  by destruct (m !! gq_Key req).
Qed.

(** What the connected pool answers. *)
Lemma Connect_lookup dial p id addr :
  dial addr = None →
  pp_peers (fst (Connect dial p id addr)) =
    match pp_peers p !! id with Some _ => pp_peers p | None => <[id := mkPeer id addr]> (pp_peers p) end.
Proof. intros Hd. unfold Connect. destruct (pp_peers p !! id); [done|]. by rewrite Hd. Qed.

Lemma PeerIDs_elem p id : id ∈ PeerIDs p ↔ is_Some (pp_peers p !! id).
Proof.
  unfold PeerIDs. rewrite list_elem_of_fmap. split.
  - intros ([k v] & -> & Hk%elem_of_map_to_list). by eexists.
  - intros [v Hv]. exists (id, v). split; [done|]. by apply elem_of_map_to_list.
Qed.

Lemma PeerIDs_NoDup p : NoDup (PeerIDs p).
Proof. apply NoDup_fst_map_to_list. Qed.

Lemma len_PeerIDs p : len (PeerIDs p) = Z.of_nat (size (pp_peers p)).
Proof. unfold PeerIDs, len. by rewrite length_fmap, length_map_to_list. Qed.

(** A broadcast has one result per peer, whatever order they arrive in. *)
Lemma BroadcastPing_lookup call p arrival req id :
  arrival ≡ₚ PeerIDs p →
  BroadcastPing call p arrival req !! id =
    if decide (is_Some (pp_peers p !! id)) then Some (pool_Ping call p id req) else None.
Proof.
  intros Hp. unfold BroadcastPing.
  assert (Hgen : ∀ l (m : gmap bytes (error + PingResponse)),
    foldl (λ results id, <[id := pool_Ping call p id req]> results) m l !! id =
      if decide (id ∈ l) then Some (pool_Ping call p id req) else m !! id).
  { induction l as [|x l IH]; intros m; [by rewrite decide_False by apply not_elem_of_nil|].
    cbn. rewrite IH. destruct (decide (x = id)) as [->|Hne].
    - rewrite lookup_insert_eq, (decide_True (P := id ∈ id :: l)) by left. by case_decide.
    - rewrite lookup_insert_ne by done. do 2 case_decide; set_solver. }
  assert (Hiff : id ∈ arrival ↔ is_Some (pp_peers p !! id)) by (rewrite Hp; apply PeerIDs_elem).
  rewrite Hgen, lookup_empty. by rewrite (decide_ext _ _ _ _ Hiff).
Qed.

(** * Theorems *)

(** The commands the server proposes round trip through the log: for keys
    and values that fit, applying the encoded command runs exactly the engine's
    write of that key and value, and the server's encoder agrees with the state
    machine's. *)
Theorem rpc_command_roundtrip `{KVStoreLaws E} (e : E) key value w :
  len key <= 65535 → len (slice_bytes value) < 2 ^ 32 →
  encodeCommand OpPut key value = EncodeCommand OpPut key (slice_bytes value)
  ∧ applyCommand e (encodeCommand OpPut key value) w = kv_Put e key (Some (slice_bytes value)) w
  ∧ applyCommand e (encodeCommand OpDelete key None) w = kv_Delete e key w.
Proof.
  intros Hk Hv. split; [apply encodeCommand_EncodeCommand|]. rewrite !encodeCommand_EncodeCommand.
  split.
  - destruct (applyCommand_decode e (EncodeCommand OpPut key (slice_bytes value)) w) as [err ->].
    by rewrite decode_encode.
  - destruct (applyCommand_decode e (EncodeCommand OpDelete key (slice_bytes None)) w) as [err ->].
    by rewrite decode_encode.
Qed.

Lemma rpc_command_roundtrip_witness :
  applyCommand (fresh_engine (str "d")) (encodeCommand OpPut (str "k") (Some (str "v"))) witness_sm_world
    = kv_Put (fresh_engine (str "d")) (str "k") (Some (slice_bytes (Some (str "v")))) witness_sm_world.
Proof.
  assert (Hk : len (str "k") <= 65535) by (vm_compute; congruence).
  assert (Hv : len (slice_bytes (Some (str "v"))) < 2 ^ 32) by (vm_compute; reflexivity).
  destruct (rpc_command_roundtrip (fresh_engine (str "d")) (str "k") (Some (str "v")) witness_sm_world Hk Hv)
    as (_ & Hp & _).
  exact Hp.
Defined.

(** The server does not check the length of a key: a key of 65536 bytes or
    more is proposed with its length modulo 65536, so the command that is
    committed writes another key (the first bytes of the key) with a value
    made of the rest. *)
Theorem rpc_long_key_truncated k1 rest value :
  k1 ≠ [] → len k1 <= 65535 → len rest = 65536 → len (slice_bytes value) < 2 ^ 32 →
  command_write (encodeCommand OpPut (k1 ++ rest) value) =
    Some (WPut k1 (Some (take (length (slice_bytes value)) (rest ++ slice_bytes value)))).
Proof.
  intros Hne Hk Hr Hv. unfold command_write.
  rewrite encodeCommand_EncodeCommand, decode_long_key by done.
  by rewrite decide_False, decide_True by done.
Qed.

Lemma rpc_long_key_truncated_witness :
  command_write (encodeCommand OpPut (str "k" ++ replicate (Z.to_nat 65536) x61) (Some (str "v")))
    = Some (WPut (str "k") (Some (str "a"))).
Proof.
  assert (Hr : len (replicate (Z.to_nat 65536) x61) = 65536)
    by (unfold len; rewrite length_replicate; lia).
  rewrite (rpc_long_key_truncated (str "k") (replicate (Z.to_nat 65536) x61) (Some (str "v"))).
  - vm_compute. reflexivity.
  - discriminate.
  - vm_compute. congruence.
  - exact Hr.
  - vm_compute. reflexivity.
Defined.

(** [Put] on a leader appends the command to the leader's log, persists it
    and then answers success whether or not the entry is committed or applied
    in the two seconds it waits: success says no more than that the leader has
    the entry. On a node that is not the leader it changes nothing and answers
    an error. *)
Theorem rpc_put_acknowledges_proposal `{KVStore E} (n : Node) (eng : E) id polls req w x :
  last (nd_log n) = Some x → 0 <= le_Index x < 2 ^ 64 - 1 → poll_safe polls (pq_Key req) →
  ∃ s gs resp, Put (mkServer id (Some n) (Some eng)) polls req w = (Ok (s, gs, resp), w)
    ∧ (nd_role n = Leader →
         pr_Success resp = true ∧ gs = [GoReplicateToPeers (nd_currentTerm n)]
         ∧ ∃ n', gs_raftNode s = Some n' ∧ persisted n' ∧ nd_commitIndex n' = nd_commitIndex n
           ∧ nd_log n' = nd_log n ++ [mkLog (le_Index x + 1) (nd_currentTerm n)
                            (encodeCommand OpPut (pq_Key req) (pq_Value req))])
    ∧ (nd_role n ≠ Leader → pr_Success resp = false ∧ gs = [] ∧ gs_raftNode s = Some n).
Proof.
  intros Hx Hi Hs. unfold Put. cbn [gs_raftNode gs_storageEng rp_GetState rp_Propose node_proposer].
  unfold GetState. cbn [fst snd]. case_bool_decide as Hl; cbn [negb].
  2: { eexists _, _, _. split; [done|]. by split. }
  unfold Propose. rewrite decide_True by done. unfold lastLogIndexLocked, last_entry. rewrite Hx.
  cbn [fmap option_fmap option_map mbind option_bind]. rewrite u64_small by lia.
  destruct (poll_value_total polls (pq_Key req) (slice_bytes (pq_Value req)) Hs) as [b Hb].
  unfold mbind, io_bind, io_lift, or_panic. cbn [negb orb]. rewrite (proj2 (Z.eqb_neq _ _)) by lia.
  cbn [gs_storageEng set_raft]. rewrite Hb. eexists _, _, _. split; [done|]. split; [|done].
  intros _. split; [done|]. split; [done|]. by eexists.
Qed.

(** A leader that is alone answers success after polls that found nothing. *)
Lemma rpc_put_acknowledges_proposal_witness :
  ∃ s gs resp,
    Put (mkServer (str "n1") (Some (set_role Leader witness_node)) (Some (fresh_engine (str "d"))))
      [(fresh_engine (str "d"), witness_sm_world)] (mkPutReq (str "k") (Some (str "v"))) witness_sm_world
      = (Ok (s, gs, resp), witness_sm_world)
    ∧ pr_Success resp = true.
Proof.
  destruct (rpc_put_acknowledges_proposal (set_role Leader witness_node) (fresh_engine (str "d")) (str "n1")
    [(fresh_engine (str "d"), witness_sm_world)] (mkPutReq (str "k") (Some (str "v"))) witness_sm_world
    (mkLog 2 5 [])) as (s & gs & resp & E1 & Hl & _).
  - reflexivity.
  - cbn. lia.
  - intros e w [= -> ->]%list_elem_of_singleton. vm_compute. discriminate.
  - exists s, gs, resp. split; [exact E1|]. exact (proj1 (Hl eq_refl)).
Defined.
