(* ===== verification/Client.v ===== *)
(** Clients of the cluster: requests go through the gRPC handlers [Put],
    [Delete] and [Get] of [internal/rpc/server.go] at the node a client talks
    to, and every command in the system comes from such a request. The theorems
    compose the handlers, Raft, the state machine and the store, and state what
    a client sees: the cluster is a sequential map driven by the accepted
    requests that are committed, in the order of the log. *)

From S2P Require Import Prelude StorageTypes MemTable Os Wal Engine Store Config RaftNode Election Replication.
From S2P Require Import Cluster ClusterInv ClusterMono ClusterSafety Delivery Validity StateMachine System Snapshot Rpc.

(** ** Requests *)

Inductive client_op :=
| CPut (key : bytes) (value : slice)
| CDelete (key : bytes).

(** The command the handlers of the server propose. *)
Definition encode_op (op : client_op) : bytes :=
  match op with
  | CPut key value => encodeCommand OpPut key value
  | CDelete key => encodeCommand OpDelete key None
  end.

(** The lengths fit the fields of the command. *)
Definition op_fits (op : client_op) : Prop :=
  match op with
  | CPut key value => len key <= 65535 ∧ len (slice_bytes value) < 2 ^ 32
  | CDelete key => len key <= 65535
  end.

(** The handler for a request, and whether it answers success. *)
Definition serve_op {E} `{KVStore E} (s : GRPCServer Node E) (polls : list (E * world)) (op : client_op)
    : IO (GRPCServer Node E * bool) :=
  match op with
  | CPut key value => '(s, _, resp) ← Put s polls (mkPutReq key value); mret (s, pr_Success resp)
  | CDelete key => '(s, _, resp) ← Delete s (mkDelReq key); mret (s, dr_Success resp)
  end.

(** The server of a process: it shares the Raft node and the engine. *)
Definition server_of {E} (i : bytes) (n : Node) (r : replica E) : GRPCServer Node E :=
  NewGRPCServer i (Some n) (Some (sm_storageEngine (re_sm r))).

(** ** Runs with clients

    The state has the list of requests answered with success. A request is
    handled by any node at any time; the rest of the system makes any step that
    proposes nothing. The polls of [Put] meet the store at later times and only
    decide when the answer is sent. *)

Section Serving.
Context {E : Type} `{KVStoreLaws E}.

Inductive served_step : system E * list client_op → system E * list client_op → Prop :=
| served_other s ev s' reqs :
    sys_step s s' → step (s_cluster s) ev (s_cluster s') → is_propose ev = false →
    served_step (s, reqs) (s', reqs)
| served_request c R i n r polls op srv ok w' n' reqs :
    c_nodes c !! i = Some n → R !! i = Some r →
    len (encode_op op) < 2 ^ 32 → len (nd_log n) < 2 ^ 32 - 1 →
    serve_op (server_of i n r) polls op (re_world r) = (Ok (srv, ok), w') →
    gs_raftNode srv = Some n' → no_overflow (upd_node i n' c) →
    served_step (mkSystem c R, reqs)
      (mkSystem (upd_node i n' c) R, if ok then reqs ++ [op] else reqs).

Inductive served (ids : list bytes) (cfg_of : bytes → Config) : system E → list client_op → Prop :=
| served_init s : sys_initial ids cfg_of s → served ids cfg_of s []
| served_next s reqs s' reqs' : served ids cfg_of s reqs → served_step (s, reqs) (s', reqs') → served ids cfg_of s' reqs'.
End Serving.

(** ** Specification: a sequential map *)

(** [ops] are accepted requests, each taken from a position of its own. *)
Definition accepted (reqs ops : list client_op) : Prop :=
  ∃ pos, NoDup pos ∧ Forall2 (λ p op, reqs !! p = Some op) pos ops.

(** Requests with an empty key are accepted and then do nothing. *)
Definition spec_op (m : gmap bytes bytes) (op : client_op) : gmap bytes bytes :=
  match op with
  | CPut key value => if decide (key = []) then m else <[key := slice_bytes value]> m
  | CDelete key => if decide (key = []) then m else delete key m
  end.

Definition spec_ops (ops : list client_op) : gmap bytes bytes := foldl spec_op ∅ ops.

(** * Lemmas *)

(** ** Commands of requests *)

Lemma apply_command_op m op : op_fits op → apply_command m (encode_op op) = spec_op m op.
Proof.
  unfold apply_command, command_write. destruct op as [key value|key]; cbn [encode_op op_fits spec_op].
  - intros [Hk Hv]. rewrite encodeCommand_EncodeCommand, decode_encode by done. by case_decide.
  - intros Hk. rewrite encodeCommand_EncodeCommand, decode_encode by done. by case_decide.
Qed.

Lemma apply_commands_ops ops : Forall op_fits ops → ∀ m, apply_commands m (encode_op <$> ops) = foldl spec_op m ops.
Proof.
  induction 1 as [|op ops Hop _ IH]; intros m; [done|]. cbn. rewrite apply_command_op by done. apply IH.
Qed.

(** ** The handlers *)

(** Both handlers propose the command of the request when the node leads;
    success means that it was proposed. *)
Definition proposes (n n' : Node) (cmd : bytes) (ok : bool) : Prop :=
  ∃ gs res, Propose n cmd = Some (n', gs, res) ∧ (nd_role n = Leader ↔ ok = true).

Lemma Propose_leader n cmd x :
  nd_role n = Leader → last (nd_log n) = Some x → 0 <= le_Index x < 2 ^ 64 - 1 →
  ∃ n' gs, Propose n cmd = Some (n', gs, (le_Index x + 1, nd_currentTerm n, true)).
Proof.
  intros Hl Hx Hi. unfold Propose, lastLogIndexLocked, last_entry. rewrite decide_True, Hx by done. cbn.
  rewrite u64_small by lia. by eexists _, _.
Qed.

Lemma Propose_other n cmd : nd_role n ≠ Leader → Propose n cmd = Some (n, [], (0, 0, false)).
Proof. intros Hl. unfold Propose. by rewrite decide_False. Qed.

Section Handlers.
Context {E : Type} `{KVStore E} (n : Node) (x : LogEntry) (id : bytes) (eng : E) (w w' : world).
Context (Hx : last (nd_log n) = Some x) (Hi : 0 <= le_Index x < 2 ^ 64 - 1).

Lemma Put_proposes polls req s gs resp :
  Put (mkServer id (Some n) (Some eng)) polls req w = (Ok (s, gs, resp), w') →
  ∃ n', gs_raftNode s = Some n' ∧ proposes n n' (encodeCommand OpPut (pq_Key req) (pq_Value req)) (pr_Success resp).
Proof using Hx Hi.
  unfold Put. cbn [gs_raftNode gs_storageEng rp_GetState rp_Propose node_proposer]. unfold GetState.
  case_bool_decide as Hl; cbn [negb]; unfold mbind, io_bind, io_lift.
  - destruct (Propose_leader n (encodeCommand OpPut (pq_Key req) (pq_Value req)) x) as (n' & gs' & Hp); [done..|].
    rewrite Hp. cbn [or_panic negb orb]. rewrite (proj2 (Z.eqb_neq _ _)) by lia. cbn [set_raft gs_storageEng].
    destruct (poll_value _ _ _); intros [= <- <- <- _]. exists n'. split; [done|]. by eexists _, _.
  - intros [= <- <- <- _]. exists n. split; [done|]. eexists _, _. split; [by apply Propose_other|]. by split.
Qed.

Lemma Delete_proposes req s gs resp :
  Delete (mkServer id (Some n) (Some eng)) req w = (Ok (s, gs, resp), w') →
  ∃ n', gs_raftNode s = Some n' ∧ proposes n n' (encodeCommand OpDelete (dq_Key req) None) (dr_Success resp).
Proof using Hx Hi.
  unfold Delete. cbn [gs_raftNode gs_storageEng rp_GetState rp_Propose node_proposer]. unfold GetState.
  case_bool_decide as Hl; cbn [negb]; unfold mbind, io_bind, io_lift.
  - destruct (Propose_leader n (encodeCommand OpDelete (dq_Key req) None) x) as (n' & gs' & Hp); [done..|].
    rewrite Hp. cbn [or_panic negb orb]. rewrite (proj2 (Z.eqb_neq _ _)) by lia.
    intros [= <- <- <- _]. exists n'. split; [done|]. by eexists _, _.
  - intros [= <- <- <- _]. exists n. split; [done|]. eexists _, _. split; [by apply Propose_other|]. by split.
Qed.
End Handlers.

Lemma serve_op_proposes `{KVStore E} n x i (r : replica E) polls op w srv ok w' n' :
  last (nd_log n) = Some x → 0 <= le_Index x < 2 ^ 64 - 1 →
  serve_op (server_of i n r) polls op w = (Ok (srv, ok), w') → gs_raftNode srv = Some n' →
  proposes n n' (encode_op op) ok.
Proof.
  intros Hx Hi. unfold server_of, NewGRPCServer. destruct op as [key value|key]; cbn [serve_op encode_op];
    unfold mbind, io_bind.
  - destruct (Put _ _ _ _) as [[[[s gs] resp]| |] w1] eqn:Ep; intros [= <- <- _].
    destruct (Put_proposes _ _ _ _ _ _ Hx Hi _ _ _ _ _ Ep) as (n1 & -> & Hp). by intros [= <-].
  - destruct (Delete _ _ _) as [[[[s gs] resp]| |] w1] eqn:Ep; intros [= <- <- _].
    destruct (Delete_proposes _ _ _ _ _ _ Hx Hi _ _ _ _ Ep) as (n1 & -> & Hp). by intros [= <-].
Qed.

(** ** Every command comes from a request *)

Section Invariant.
Context {E : Type} `{!KVStore E, !KVStoreLaws E}.
Context (ids : list bytes) (cfg_of : bytes → Config) (Hdep : deployment ids cfg_of).

Lemma node_last c i n : reachable ids cfg_of c → c_nodes c !! i = Some n →
  ∃ x, last (nd_log n) = Some x ∧ 0 <= le_Index x < 2 ^ 32.
Proof using Hdep.
  intros Hr Hi. destruct (reachable_inv _ _ Hdep c Hr) as [g Hg].
  pose proof (no_wf _ _ _ _ _ (inv_nodes _ _ _ _ Hg i n Hi)) as Hwf.
  destruct (last (nd_log n)) as [x|] eqn:Hx.
  - exists x. split; [done|]. rewrite last_lookup in Hx. rewrite (wl_index _ Hwf _ _ Hx).
    apply lookup_lt_Some in Hx. pose proof (wl_len _ Hwf). unfold len in *. lia.
  - apply last_None in Hx. pose proof (wl_head _ Hwf) as Hh. by rewrite Hx in Hh.
Qed.

(** Entries with different indices stand for requests at different positions. *)
Lemma pick_requests (reqs : list client_op) (tags : list (Z * Z)) l :
  NoDup (le_Index <$> l) →
  (∀ e, e ∈ l → ∃ p op, reqs !! p = Some op ∧ tags !! p = Some (le_Index e, le_Term e) ∧ le_Data e = encode_op op) →
  ∃ ops pos, le_Data <$> l = encode_op <$> ops ∧ NoDup pos ∧ Forall2 (λ p op, reqs !! p = Some op) pos ops
    ∧ ∀ p, p ∈ pos → ∃ t, tags !! p = Some t ∧ fst t ∈ le_Index <$> l.
Proof.
  induction l as [|e l IH]; intros Hnd Hall; [by exists [], []; split_and!; [..|constructor|constructor|intros ? ?%not_elem_of_nil]|].
  cbn in Hnd. apply NoDup_cons in Hnd as [Hnew Hnd]. destruct (Hall e ltac:(left)) as (p & op & Hp & Ht & He).
  destruct IH as (ops & pos & Hd & Hpos & Hops & Htags); [done|intros e' ?; apply Hall; by right|].
  exists (op :: ops), (p :: pos). split; [cbn; by rewrite He, Hd|]. split_and!.
  - constructor; [|done]. intros Hin. destruct (Htags p Hin) as (t & Ht' & Hin'). rewrite Ht in Ht'. injection Ht' as <-. done.
  - by constructor.
  - intros q [->|Hq]%elem_of_cons; [exists (le_Index e, le_Term e); split; [done|left]|].
    destruct (Htags q Hq) as (t & ? & ?). exists t. split; [done|]. by right.
Qed.

Lemma accepted_elem reqs ops op : accepted reqs ops → op ∈ ops → op ∈ reqs.
Proof.
  intros (pos & _ & H) Hin. apply list_elem_of_lookup in Hin as [j Hj].
  destruct (Forall2_lookup_r _ _ _ _ _ H Hj) as (p & _ & Hp). by eapply list_elem_of_lookup_2.
Qed.

(** A request is a step of the system. *)
Lemma served_request_step c R i n (r : replica E) polls op srv ok w' n' :
  reachable ids cfg_of c → c_nodes c !! i = Some n →
  len (encode_op op) < 2 ^ 32 → len (nd_log n) < 2 ^ 32 - 1 →
  serve_op (server_of i n r) polls op (re_world r) = (Ok (srv, ok), w') → gs_raftNode srv = Some n' →
  no_overflow (upd_node i n' c) →
  proposes n n' (encode_op op) ok ∧ sys_step (mkSystem c R) (mkSystem (upd_node i n' c) R).
Proof using Hdep.
  intros Hr Hi Hop Hlog Hs Hn' Hno. destruct (node_last c i n Hr Hi) as (x & Hx & Hix).
  pose proof (serve_op_proposes n x i r polls op _ srv ok w' n' Hx ltac:(lia) Hs Hn') as Hp.
  split; [done|]. destruct Hp as (gs & res & Hp & _).
  apply (sys_raft c (EvPropose i)); [by eapply step_propose|done|done].
Qed.

(** The entry is the dummy or the command of the accepted request at a position
    of [reqs]; [tags] has for each request the index and the term it was
    proposed at, so that different entries of a log have different positions. *)
Definition requested (reqs : list client_op) (tags : list (Z * Z)) (e : LogEntry) : Prop :=
  e = dummy ∨ ∃ p op, reqs !! p = Some op ∧ tags !! p = Some (le_Index e, le_Term e) ∧ le_Data e = encode_op op.

Lemma requested_app reqs tags op t e : requested reqs tags e → requested (reqs ++ [op]) (tags ++ [t]) e.
Proof.
  intros [?|(p & op' & H1 & H2 & ?)]; [by left|right]. exists p, op'. by split_and!; [apply lookup_app_l_Some..|].
Qed.

Lemma served_inv s reqs :
  served ids cfg_of s reqs → sys_reachable ids cfg_of s
    ∧ ∃ tags, length tags = length reqs ∧ ∀ e, present (s_cluster s) e → requested reqs tags e.
Proof using Hdep.
  induction 1 as [s [Hc HR]|s reqs s' reqs' _ (Hs & tags & Hlen & IH) Hstep].
  { split; [by apply sys_reach_init; split|]. exists []. split; [done|]. rewrite Hc. intros e He. left.
    destruct He as [(i & n & [_ ->]%initial_lookup & He)|(? & ? & Hn & _)].
    - by apply list_elem_of_singleton in He.
    - by apply not_elem_of_nil in Hn. }
  destruct (sys_reachable_inv ids cfg_of Hdep s Hs) as [Hr _].
  inversion Hstep as [s1 ev s2 H1 Hsys Hst Hev|c R i n r polls op srv ok w' n' H1 Hi HR Hop Hlog Hsv Hn' Hno]; subst.
  - split; [by eapply sys_reach_step|]. exists tags. split; [done|]. intros e He. apply IH.
    destruct (step_present ids cfg_of Hdep _ _ _ e Hr Hst He) as [?|(i & n & n' & gs & -> & _)]; done.
  - destruct (served_request_step c R i n r polls op srv ok w' n') as [(gs & res & Hp & Hok) Hsys]; try done.
    split; [by eapply sys_reach_step|]. exists (if ok then tags ++ [fst res] else tags).
    split; [destruct ok; rewrite ?length_app; cbn; lia|]. intros e He.
    destruct (present_propose c i n _ n' gs res e Hi Hp He) as [Hpr|(Hl & Hd & -> & _)].
    + destruct ok; [by apply requested_app, IH|by apply IH].
    + rewrite (proj1 Hok Hl). right. exists (length reqs), op.
      split; [by apply list_lookup_middle|]. split; [by apply list_lookup_middle|done].
Qed.

(** The committed commands of a node are different accepted requests. *)
Lemma commands_requested s reqs i n k :
  served ids cfg_of s reqs → c_nodes (s_cluster s) !! i = Some n → 0 <= k <= nd_commitIndex n →
  ∃ ops, commands_upto k (nd_log n) = encode_op <$> ops ∧ accepted reqs ops.
Proof using Hdep.
  intros Hsv Hi Hk. destruct (served_inv s reqs Hsv) as (Hs & tags & _ & Hreq).
  destruct (sys_reachable_inv ids cfg_of Hdep s Hs) as [Hr _].
  destruct (reachable_node_wf _ _ _ _ _ Hdep Hr Hi) as [_ Hwf _ _ Hc _].
  set (l := take (Z.to_nat k) (drop 1 (nd_log n))).
  assert (Hidx : ∀ j e, l !! j = Some e → le_Index e = Z.of_nat (S j)).
  { intros j e He. apply lookup_take_Some in He as [He _]. rewrite lookup_drop in He. by apply (wl_index _ Hwf) in He. }
  assert (Hall : ∀ e, e ∈ l → ∃ p op, reqs !! p = Some op ∧ tags !! p = Some (le_Index e, le_Term e) ∧ le_Data e = encode_op op).
  { intros e He. destruct (Hreq e) as [->|?]; [|exfalso|done].
    - eapply present_node; [done|]. by apply subseteq_take, subseteq_drop in He.
    - apply list_elem_of_lookup_1 in He as [j Hj]. apply Hidx in Hj. cbn in Hj. lia. }
  change (commands_upto k (nd_log n)) with (le_Data <$> l).
  assert (Hnd : NoDup (le_Index <$> l)).
  { apply NoDup_alt. intros i1 i2 x H1 H2. rewrite list_lookup_fmap in H1, H2.
    destruct (l !! i1) as [e1|] eqn:E1; [|done]. destruct (l !! i2) as [e2|] eqn:E2; [|done].
    apply Hidx in E1, E2. cbn in H1, H2. simplify_eq. lia. }
  destruct (pick_requests reqs tags l Hnd Hall) as (ops & pos & Hd & Hpos & Hops & _). exists ops. split; [done|]. by exists pos.
Qed.
End Invariant.

(** The map of a sequence of requests holds only what was put. *)
Lemma spec_ops_put ops key v :
  spec_ops ops !! key = Some v → ∃ value, CPut key value ∈ ops ∧ slice_bytes value = v.
Proof.
  unfold spec_ops. assert (Hg : ∀ m, foldl spec_op m ops !! key = Some v →
    m !! key = Some v ∨ ∃ value, CPut key value ∈ ops ∧ slice_bytes value = v).
  { induction ops as [|op ops IH]; intros m Hm; [by left|]. cbn in Hm.
    destruct (IH _ Hm) as [Hm'|(value & Hin & ?)]; [|right; exists value; split; [by right|done]].
    destruct op as [k value|k]; cbn in Hm'; case_decide; try by left.
    - apply lookup_insert_Some in Hm' as [[-> <-]|[_ ?]]; [|by left]. right. exists value. split; [left|done].
    - apply lookup_delete_Some in Hm' as [_ ?]. by left. }
  intros Hl. destruct (Hg ∅ Hl) as [Hm|?]; [by rewrite lookup_empty in Hm|done].
Qed.

(** ** Answers of a replica *)

Section Answers.
Context {E : Type} `{!KVStore E, !KVStoreLaws E}.
Context (ids : list bytes) (cfg_of : bytes → Config) (Hdep : deployment ids cfg_of).

(** A caught-up replica answers from the map of the requests it has applied. *)
Lemma served_get s reqs ops i n r key :
  served ids cfg_of s reqs → c_nodes (s_cluster s) !! i = Some n → s_replicas s !! i = Some r →
  caught_up ids cfg_of (s_cluster s) i n → Forall op_fits ops →
  commands_upto (nd_lastApplied n) (nd_log n) = encode_op <$> ops → key ≠ [] →
  Get (server_of i n r) (mkGetReq key) (re_world r) = (Ok (get_response (spec_ops ops !! key)), re_world r).
Proof using Hdep.
  intros Hsv Hi HR Hcu Hfit Hcmd Hk. destruct (served_inv ids cfg_of Hdep s reqs Hsv) as [Hs _].
  pose proof (caught_up_store ids cfg_of Hdep s i n r Hs Hi HR Hcu) as Hrep.
  rewrite Hcmd, apply_commands_ops in Hrep by done. 
  by apply (Get_response (server_of i n r) _ _ _ (mkGetReq key) eq_refl Hrep).
Qed.
End Answers.

(** ** A concrete run with a client *)

Section Runs.
Context {E : Type} `{!KVStore E, !KVStoreLaws E}.
Context (ids : list bytes) (cfg_of : bytes → Config) (Hdep : deployment ids cfg_of).

(** A proposal of a request's command is what the handler does. *)
Lemma serve_op_total n x i (r : replica E) op w n' gs res :
  last (nd_log n) = Some x → 0 <= le_Index x < 2 ^ 64 - 1 →
  Propose n (encode_op op) = Some (n', gs, res) →
  ∃ srv ok, serve_op (server_of i n r) [] op w = (Ok (srv, ok), w) ∧ gs_raftNode srv = Some n'.
Proof.
  intros Hx Hi Hp. unfold server_of, NewGRPCServer.
  destruct op as [key value|key]; cbn [serve_op encode_op] in *; unfold mbind, io_bind, Put, Delete;
    cbn [gs_raftNode gs_storageEng rp_GetState rp_Propose node_proposer]; unfold GetState;
    case_bool_decide as Hl; cbn [negb].
  all: try (rewrite Propose_other in Hp by done; injection Hp as <- <- _; by eexists _, _).
  all: edestruct Propose_leader as (n1 & gs1 & Hp1); [exact Hl|exact Hx|exact Hi|].
  all: rewrite Hp in Hp1; injection Hp1 as <- <- ->; unfold mbind, io_bind, io_lift; cbn [pq_Key pq_Value dq_Key].
  all: rewrite Hp; cbn [or_panic negb orb]; rewrite (proj2 (Z.eqb_neq _ _)) by lia; by eexists _, _.
Qed.

(** A proposal of the scheduler as a request to the node. *)
Lemma served_proposal c R i (r : replica E) op c' reqs :
  served ids cfg_of (mkSystem c R) reqs → R !! i = Some r →
  exec c (APropose i (encode_op op)) = Some c' → no_overflow c' →
  ∃ ok : bool, served ids cfg_of (mkSystem c' R) (if ok then reqs ++ [op] else reqs).
Proof using Hdep.
  intros Hsv HR He Hno. cbn [exec] in He. exec_inv He.
  destruct (Z.ltb_spec (len (encode_op op)) (2 ^ 32)); [|done].
  destruct (Z.ltb_spec (len (nd_log n)) (2 ^ 32 - 1)); [|done]. cbn [andb] in He.
  destruct (Propose n (encode_op op)) as [[[n' gs] res]|] eqn:Hp; [|done]. cbn in He. injection He as <-.
  destruct (served_inv ids cfg_of Hdep _ _ Hsv) as [Hs _].
  destruct (sys_reachable_inv ids cfg_of Hdep _ Hs) as [Hr _].
  destruct (node_last ids cfg_of Hdep c i n Hr) as (x & Hx & Hix); [done|].
  destruct (serve_op_total n x i r op (re_world r) n' gs res) as (srv & ok & Hop & Hn'); [done|lia|done|].
  exists ok. eapply served_next; [exact Hsv|]. by eapply served_request.
Qed.

Lemma run_checked_served (P : client_op → Prop) (R : gmap bytes (replica E)) acts : ∀ c c' reqs,
  served ids cfg_of (mkSystem c R) reqs → Forall P reqs →
  (∀ i data, APropose i data ∈ acts → is_Some (R !! i) ∧ ∃ op, data = encode_op op ∧ P op) →
  run_checked c acts = Some c' → ∃ reqs', served ids cfg_of (mkSystem c' R) reqs' ∧ Forall P reqs'.
Proof using Hdep.
  induction acts as [|a acts IH]; intros c c' reqs Hsv HP Hops Hrun; cbn in Hrun; [injection Hrun as <-; eauto|].
  destruct (exec c a) as [c1|] eqn:Ee; [|done]. cbn in Hrun.
  destruct (no_overflow_b c1) eqn:Eo; [|done]. destruct (negb (is_restart a)) eqn:Er; [|done].
  apply no_overflow_b_ok in Eo.
  assert (∃ reqs1, served ids cfg_of (mkSystem c1 R) reqs1 ∧ Forall P reqs1) as (reqs1 & Hsv1 & HP1).
  { destruct (is_proposal a) eqn:Ea.
    - destruct a as [| | | |i data|]; try done.
      destruct (Hops i data ltac:(left)) as ([r HR] & op & -> & Hop).
      destruct (served_proposal c R i r op c1 reqs Hsv HR Ee Eo) as [[] Hsv1]; [|by eauto].
      exists (reqs ++ [op]). split; [done|]. apply Forall_app. by auto.
    - destruct (exec_step _ _ _ Ee) as (ev & Hs & Hev & Hpr). exists reqs. split; [|done].
      eapply served_next; [exact Hsv|]. apply (served_other _ ev); [|done|by rewrite Hpr].
      by apply (sys_raft c ev); [|rewrite Hev|]. }
  apply (IH c1 c' reqs1 Hsv1 HP1); [|done]. intros i data Hin. apply Hops. by right.
Qed.
End Runs.

Lemma apply_one_served ids cfg_of s reqs i s' :
  served ids cfg_of s reqs → apply_one s i = Some s' → served ids cfg_of s' reqs.
Proof.
  intros Hsv [Hs Hst]%apply_one_step. eapply served_next; [exact Hsv|]. by apply (served_other _ (EvReceive i)).
Qed.

Lemma demo_proposals i data : APropose i data ∈ demo_sys_run → i = str "n1" ∧ data = demo_command.
Proof.
  unfold demo_sys_run. cbv zeta. intros Hin.
  repeat (apply elem_of_cons in Hin as [Hin|Hin];
    [first [discriminate Hin|injection Hin as E1 E2; split; [exact E1|exact E2]]|]).
  destruct (not_elem_of_nil _ Hin).
Qed.

(** The run of [System.v] is one of a client that puts a value. *)
Lemma demo_served s :
  demo_final = Some s → ∃ reqs, served demo_ids demo_cfg s reqs ∧ Forall op_fits reqs.
Proof.
  intros Hf. unfold demo_final in Hf. destruct (run_checked _ _) as [c|] eqn:Er; [|discriminate Hf].
  cbn [mbind option_bind] in Hf. destruct (apply_one (mkSystem c _) _) as [s1|] eqn:E1; [|discriminate Hf].
  cbn [mbind option_bind] in Hf.
  destruct (run_checked_served demo_ids demo_cfg demo_deployment op_fits (s_replicas demo_system) demo_sys_run
    (initial demo_ids demo_cfg) c []) as (reqs & Hsv & Hfit); [|constructor| |exact Er|].
  - apply (served_init _ _ demo_system), demo_system_initial.
  - clear. intros i data Hin.
    apply demo_proposals in Hin as [-> ->].
    split; [by_decide|]. exists (CPut (str "k") (Some (str "v"))). split; [vm_compute; reflexivity|].
    split; vm_compute; congruence.
  - exists reqs. split; [|exact Hfit]. eapply apply_one_served; [|exact Hf]. eapply apply_one_served; [exact Hsv|exact E1].
Qed.

(** * Theorems *)




