(* ===== verification/Service.v ===== *)
(** The gRPC service end to end: the generated client stubs and service
    description of [proto/raft_grpc.pb.go], the logging interceptor and the
    start and stop of the server in [internal/rpc/server.go], and the
    replication goroutine of [internal/raft/replication.go], which calls a peer
    through the pool. The protobuf codec and the gRPC library are parameters:
    what the codec accepts it gives back, except that an empty bytes field is
    read as nil; a call of a full method name runs the handler registered under
    it at most once, and may fail before or after. *)

From S2P Require Import Prelude StorageTypes MemTable Os Wal Engine Store Config RaftNode Election Replication.
From S2P Require Import Cluster ClusterInv ClusterMono ClusterSafety Progress Snapshot StateMachine Rpc.

(** ** Methods *)

Inductive method := MRequestVote | MAppendEntries | MInstallSnapshot | MPut | MGet | MDelete | MPing.

#[global] Instance method_eq_dec : EqDecision method.
Proof. solve_decision. Defined.

Definition request_of (m : method) : Type :=
  match m with
  | MRequestVote => RequestVoteRequest
  | MAppendEntries => AppendEntriesRequest
  | MInstallSnapshot => InstallSnapshotRequest
  | MPut => PutRequest
  | MGet => GetRequest
  | MDelete => DeleteRequest
  | MPing => PingRequest
  end.

Definition response_of (m : method) : Type :=
  match m with
  | MRequestVote => RequestVoteResponse
  | MAppendEntries => AppendEntriesResponse
  | MInstallSnapshot => InstallSnapshotResponse
  | MPut => PutResponse
  | MGet => GetResponse
  | MDelete => DeleteResponse
  | MPing => PingResponse
  end.

(** The constants [RaftService_*_FullMethodName]. *)
Definition FullMethodName (m : method) : bytes :=
  match m with
  | MRequestVote => str "/raft.RaftService/RequestVote"
  | MAppendEntries => str "/raft.RaftService/AppendEntries"
  | MInstallSnapshot => str "/raft.RaftService/InstallSnapshot"
  | MPut => str "/raft.RaftService/Put"
  | MGet => str "/raft.RaftService/Get"
  | MDelete => str "/raft.RaftService/Delete"
  | MPing => str "/raft.RaftService/Ping"
  end.

(** [RaftService_ServiceDesc]: the service's name and its methods by name. *)
Definition ServiceName : bytes := str "raft.RaftService".
Definition ServiceMethods : list (bytes * method) :=
  [(str "RequestVote", MRequestVote); (str "AppendEntries", MAppendEntries);
   (str "InstallSnapshot", MInstallSnapshot); (str "Put", MPut); (str "Get", MGet);
   (str "Delete", MDelete); (str "Ping", MPing)].

(** ** The codec *)

(** Encoded messages [P]; a message may be refused, as a string that is not
    UTF-8 is. *)
Class Codec (P : Type) := {
  marshal_request (m : method) : request_of m → error + P;
  unmarshal_request (m : method) : P → error + request_of m;
  marshal_response (m : method) : response_of m → error + P;
  unmarshal_response (m : method) : P → error + response_of m;
}.

(** Empty bytes fields are not encoded and are read back as nil. *)
Definition wire_slice (v : slice) : slice := match v with Some [] => None | v => v end.
Definition wire_request (m : method) : request_of m → request_of m :=
  match m with
  | MPut => λ req, mkPutReq (pq_Key req) (wire_slice (pq_Value req))
  | _ => λ req, req
  end.

Class CodecLaws (P : Type) `{Codec P} := {
  unmarshal_marshal_request m req p : marshal_request m req = inr p → unmarshal_request m p = inr (wire_request m req);
  unmarshal_marshal_response m resp p : marshal_response m resp = inr p → unmarshal_response m p = inr resp;
}.

(** ** The server *)

Inductive log_line :=
| LogDebug (node fullMethod : bytes)
| LogError (node fullMethod : bytes) (err : error).

(** [loggingInterceptor] around a handler: its result and what is logged. *)
Definition loggingInterceptor {A} (nodeID fullMethod : bytes) (handler : IO (error + A))
    : IO ((error + A) * list log_line) :=
  r ← handler;
  mret (r, LogDebug nodeID fullMethod :: match r with inl err => [LogError nodeID fullMethod err] | inr _ => [] end).

Section Service.
Context {R E P : Type} `{RaftProposer R} `{KVStore E} `{Codec P}.

(** What a handler meets besides the request: the stores [Put] polls, the I/O
    failure of a snapshot, the formatting verb [%q]. *)
Record call_env := mkEnv {
  ce_polls : list (E * world);
  ce_fault : option error;
  ce_quote : bytes → bytes;
}.

(** [srv.(RaftServiceServer).M(ctx, req)] for the server of [Rpc.v]; its
    handlers return a response and no error. *)
Definition serve (env : call_env) (s : GRPCServer R E) (m : method)
    : request_of m → IO (GRPCServer R E * list goroutine * response_of m) :=
  match m with
  | MRequestVote => λ req, '(s, resp) ← io_lift (or_panic (RequestVote s req)); mret (s, [], resp)
  | MAppendEntries => λ req, '(s, resp) ← io_lift (or_panic (AppendEntries s req)); mret (s, [], resp)
  | MInstallSnapshot => λ req, let '(s, resp) := InstallSnapshot s req (ce_fault env) in mret (s, [], resp)
  | MPut => λ req, Put s (ce_polls env) req
  | MGet => λ req, resp ← Get s req; mret (s, [], resp)
  | MDelete => λ req, Delete s req
  | MPing => λ req, mret (s, [], Ping (ce_quote env) s req)
  end.

(** [_RaftService_M_Handler]: decode, then the handler inside the interceptor,
    if there is one; the library encodes the response. The result is the server,
    the goroutines it starts, the encoded response or an error, and what is
    logged. *)
Definition method_handler (interceptor : option bytes) (env : call_env) (s : GRPCServer R E) (m : method) (p : P)
    : IO (GRPCServer R E * list goroutine * (error + P) * list log_line) :=
  match unmarshal_request m p with
  | inl err => mret (s, [], inl err, [])
  | inr req =>
      let handler := '(s, gs, resp) ← serve env s m req;
                     mret (@inr error _ (s, gs, resp)) in
      '(r, log) ← match interceptor with
                  | None => r ← handler; mret (r, [])
                  | Some nodeID => loggingInterceptor nodeID (FullMethodName m) handler
                  end;
      mret (match r with
            | inl err => (s, [], inl err, log)
            | inr (s, gs, resp) => (s, gs, marshal_response m resp, log)
            end)
  end.

(** The generated client's method: [c.cc.Invoke] encodes the request, makes the
    call and decodes the response. [s] is the server's side when nothing is
    sent. *)
Definition stub_call {S} (s : S) (invoke : bytes → P → IO (S * (error + P))) (m : method) (req : request_of m)
    : IO (S * (error + response_of m)) :=
  match marshal_request m req with
  | inl err => mret (s, inl err)
  | inr p =>
      '(s, r) ← invoke (FullMethodName m) p;
      mret (s, match r with inl err => inl err | inr p => unmarshal_response m p end)
  end.
End Service.

Arguments call_env E : clear implicits.
Arguments mkEnv {E} _ _ _.

(** ** Starting and stopping *)

(** The operations of the gRPC and network libraries: [G] is the type of
    servers, [L] that of listeners. *)
Class GrpcLib (G L : Type) := {
  net_Listen : bytes → IO L;
  grpc_NewServer : bytes → G;                   (* with the interceptor of the node *)
  RegisterService : bytes → list (bytes * method) → G → G;
  reflection_Register : G → G;
  Serve : G → L → IO unit;
  GracefulStop : G → IO unit;
}.

Section Running.
Context {R E G L : Type} `{GrpcLib G L}.

(** The server with its field [server], nil before [Start]. *)
Record RunningServer := mkRunning {
  rn_base : GRPCServer R E;
  rn_server : option G;
}.

(** [Start]: the state once [Serve] is called, and what [Start] returns. *)
Definition server_Start (s : RunningServer) (addr : bytes) : IO (RunningServer * option error) :=
  l ← io_try (net_Listen addr);
  match l with
  | inl err => mret (s, Some (Wrapf "grpc server: failed to listen" err))
  | inr lis =>
      let srv := reflection_Register (RegisterService ServiceName ServiceMethods
                   (grpc_NewServer (gs_nodeID (rn_base s)))) in
      let s := mkRunning (rn_base s) (Some srv) in
      r ← io_try (Serve srv lis);
      mret (s, match r with inl err => Some (Wrapf "grpc server: serve error" err) | inr _ => None end)
  end.

Definition server_Stop (s : RunningServer) : IO unit :=
  match rn_server s with
  | Some srv => GracefulStop srv
  | None => mret tt
  end.
End Running.

Arguments RunningServer R E G : clear implicits.
Arguments mkRunning {R E G} _ _.

(** ** The replication goroutine *)

(** [replicateToPeer] with its call through the pool; [later] is what other
    goroutines do to the node between the two critical sections. The call ends
    with the earlier of the two deadlines. *)
Definition replicateToPeer (call : Z → peerConn → AppendEntriesRequest → error + AppendEntriesResponse)
    (pool : PeerPool) (later : Node → Node) (n : Node) (peerID : bytes) (term : Z) : option Node :=
  req ← replicate_request n peerID term;
  match req with
  | None => Some (later n)
  | Some req =>
      match pool_AppendEntries (λ t, call (Z.min (HeartbeatInterval (nd_cfg n)) t)) pool peerID req with
      | inl _ => Some (later n)
      | inr resp => append_reply (later n) peerID term (ae_Entries req) resp
      end
  end.

(** ** Specification *)

(** What the gRPC library promises of a call that returns, of the full name of a
    method of a registered service: either it fails without having reached the
    server, or the server has run the method's handler once inside its
    interceptor, and the caller gets its outcome or an error (a deadline, a lost
    connection). Nothing is promised when the handler panics. *)
Definition delivers {R E P} `{RaftProposer R} `{KVStore E} `{Codec P}
    (invoke : bytes → P → IO (GRPCServer R E * list goroutine * list log_line * (error + P)))
    (env : call_env E) (s : GRPCServer R E) : Prop :=
  ∀ name m p w out w', (name, m) ∈ ServiceMethods →
    invoke (str "/" ++ ServiceName ++ str "/" ++ name) p w = (Ok out, w') →
    (∃ err, out = (s, [], [], inl err))
    ∨ ∃ s' gs r log, method_handler (Some (gs_nodeID s)) env s m p w = (Ok (s', gs, r, log), w')
        ∧ (out = (s', gs, log, r) ∨ ∃ err, out = (s', gs, log, inl err)).

(** What the method of each name is meant to do on the server: its handler in
    [server.go] takes [s] to [s'], starts the goroutines [gs] and gives the
    response. *)
Definition handled {R E} `{RaftProposer R} `{KVStore E} (env : call_env E) (s : GRPCServer R E) (w : world)
    (s' : GRPCServer R E) (gs : list goroutine) (w' : world) (m : method) : request_of m → response_of m → Prop :=
  match m with
  | MRequestVote => λ req resp, RequestVote s req = Some (s', resp) ∧ gs = [] ∧ w' = w
  | MAppendEntries => λ req resp, AppendEntries s req = Some (s', resp) ∧ gs = [] ∧ w' = w
  | MInstallSnapshot => λ req resp, InstallSnapshot s req (ce_fault env) = (s', resp) ∧ gs = [] ∧ w' = w
  | MPut => λ req resp, Put s (ce_polls env) req w = (Ok (s', gs, resp), w')
  | MGet => λ req resp, Get s req w = (Ok resp, w') ∧ s' = s ∧ gs = []
  | MDelete => λ req resp, Delete s req w = (Ok (s', gs, resp), w')
  | MPing => λ req resp, resp = Ping (ce_quote env) s req ∧ s' = s ∧ gs = [] ∧ w' = w
  end.

(** * Lemmas *)

(** The stubs call names under which the service registers the same method. *)
Lemma FullMethodName_registered m :
  ∃ name, (name, m) ∈ ServiceMethods ∧ FullMethodName m = str "/" ++ ServiceName ++ str "/" ++ name.
Proof.
  destruct m; [exists (str "RequestVote")|exists (str "AppendEntries")|exists (str "InstallSnapshot")|exists (str "Put")
    |exists (str "Get")|exists (str "Delete")|exists (str "Ping")]; (split; [by_decide|vm_compute; reflexivity]).
Qed.

(** Names are registered once. *)
Lemma ServiceMethods_NoDup : NoDup ServiceMethods.*1.
Proof. by_decide. Qed.

(** [Start] and [Stop] in every case: when the address cannot be bound nothing
    is stored and [Stop] does nothing; otherwise the service is registered
    before [Serve] is called and [Stop] stops this server. *)
Lemma server_start_stop {R E G L} `{GrpcLib G L} (s : RunningServer R E G) addr w :
  match net_Listen addr w with
  | (Err err, w1) =>
      server_Start s addr w = (Ok (s, Some (Wrapf "grpc server: failed to listen" err)), w1)
      ∧ (rn_server s = None → ∀ w2, server_Stop s w2 = (Ok tt, w2))
  | (Ok lis, w1) =>
      let srv := reflection_Register (RegisterService ServiceName ServiceMethods (grpc_NewServer (gs_nodeID (rn_base s)))) in
      ∀ s' err w2, server_Start s addr w = (Ok (s', err), w2) →
        rn_base s' = rn_base s ∧ (∀ w3, server_Stop s' w3 = GracefulStop srv w3)
        ∧ (err = None ↔ Serve srv lis w1 = (Ok tt, w2))
  | (Panic, w1) => server_Start s addr w = (Panic, w1)
  end.
Proof.
  unfold server_Start, mbind, io_bind, io_try. destruct (net_Listen addr w) as [[lis|err|] w1]; [|split; [done|]|done].
  - cbn zeta. set (srv := reflection_Register _). intros s' err w2.
    destruct (Serve srv lis w1) as [[[]|err'|] w3]; intros [= <- <- <-]; (split; [done|]); by split.
  - intros Hs w2. unfold server_Stop. by rewrite Hs.
Qed.

(** ** A codec and a transport *)

(** Messages tagged with their method, in memory. *)
Inductive message := ReqMsg (m : method) (req : request_of m) | RespMsg (m : method) (resp : response_of m).

#[global] Instance message_codec : Codec message := {
  marshal_request := λ m req, inr (ReqMsg m req);
  unmarshal_request := λ m p,
    match p with
    | ReqMsg m' req => match decide (m' = m) with
                       | left Heq => inr (wire_request m (eq_rect m' request_of req m Heq))
                       | right _ => inl (Errorf "message type")
                       end
    | RespMsg _ _ => inl (Errorf "message type")
    end;
  marshal_response := λ m resp, inr (RespMsg m resp);
  unmarshal_response := λ m p,
    match p with
    | RespMsg m' resp => match decide (m' = m) with
                         | left Heq => inr (eq_rect m' response_of resp m Heq)
                         | right _ => inl (Errorf "message type")
                         end
    | ReqMsg _ _ => inl (Errorf "message type")
    end;
}.

#[global] Instance message_codec_laws : CodecLaws message.
Proof. split; intros [] ? p [= <-]; done. Qed.

(** A server in the same process. *)
Definition local_invoke {R E} `{RaftProposer R} `{KVStore E} (env : call_env E) (s : GRPCServer R E) (full : bytes) (p : message)
    : IO (GRPCServer R E * list goroutine * list log_line * (error + message)) :=
  match List.find (λ e, bool_decide (full = str "/" ++ ServiceName ++ str "/" ++ fst e)) ServiceMethods with
  | Some (_, m) => '(s', gs, r, log) ← method_handler (Some (gs_nodeID s)) env s m p; mret (s', gs, log, r)
  | None => mret (s, [], [], inl (Errorf "unknown method"))
  end.

Lemma local_invoke_delivers {R E} `{RaftProposer R} `{KVStore E} (env : call_env E) (s : GRPCServer R E) :
  delivers (local_invoke env s) env s.
Proof.
  intros name m p w out w' Hin. unfold local_invoke.
  assert (Hf : List.find (λ e, bool_decide (str "/" ++ ServiceName ++ str "/" ++ name = str "/" ++ ServiceName ++ str "/" ++ fst e))
    ServiceMethods = Some (name, m)).
  { unfold ServiceMethods in Hin. repeat (apply elem_of_cons in Hin as [[= -> ->]|Hin]; [vm_compute; reflexivity|]).
    by apply not_elem_of_nil in Hin. }
  rewrite Hf. unfold mbind, io_bind. destruct (method_handler _ _ _ _ _ w) as [[[[[s' gs] r] log]| |] w1]; [|done..].
  intros [= <- <-]. right. exists s', gs, r, log. split; [done|by left].
Qed.

(** The handlers behind the names. *)
Lemma serve_handled {R E} `{RaftProposer R} `{KVStore E} (env : call_env E) (s s' : GRPCServer R E) m req gs resp w w' :
  serve env s m req w = (Ok (s', gs, resp), w') → handled env s w s' gs w' m req resp.
Proof.
  destruct m; cbn [serve handled]; unfold mbind, io_bind, io_lift; try done.
  - destruct (RequestVote s req) as [[s1 r1]|]; [|done]. by intros [= <- <- <- <-].
  - destruct (AppendEntries s req) as [[s1 r1]|]; [|done]. by intros [= <- <- <- <-].
  - destruct (InstallSnapshot s req (ce_fault env)) as [s1 r1]. by intros [= <- <- <- <-].
  - destruct (Get s req w) as [[r1| |] w1]; [|done..]. by intros [= <- <- <- <-].
  - by intros [= <- <- <- <-].
Qed.

(** A handler that returns on an encoded request has run once. *)
Lemma method_handler_runs {R E P} `{RaftProposer R} `{KVStore E} `{CodecLaws P} env (s : GRPCServer R E) m req p w s' gs r log w' :
  marshal_request m req = inr p → method_handler (Some (gs_nodeID s)) env s m p w = (Ok (s', gs, r, log), w') →
  ∃ resp, handled env s w s' gs w' m (wire_request m req) resp ∧ r = marshal_response m resp
    ∧ log = [LogDebug (gs_nodeID s) (FullMethodName m)].
Proof.
  intros Hp. unfold method_handler. rewrite (unmarshal_marshal_request m req p Hp). unfold loggingInterceptor, mbind, io_bind.
  destruct (serve env s m (wire_request m req) w) as [[[[s1 gs1] resp]|err|] w1] eqn:Es; [|done..].
  intros [= <- <- <- <- <-]. exists resp. split; [by apply serve_handled|done].
Qed.

(** * Theorems *)

(** C35: a remote call runs the handler that its name stands for, at most once,
    and never returns a made-up response. Given a gRPC library that delivers a
    call to the handler registered under its full name or fails, before or after
    that, and a codec that gives back what it accepts: when the generated stub
    of a method returns a response, the handler of that method in server.go has
    run on the caller's request (with an empty value read as nil), has changed
    the server as it says, and has given exactly this response, and one debug
    line was logged. When the stub returns an error, the server is unchanged or
    the handler has run once. *)
Theorem remote_call_sound {R E P} `{RaftProposer R} `{KVStore E} `{CodecLaws P} invoke env (s : GRPCServer R E) m req w
    s' gs log r w' :
  delivers invoke env s → stub_call (s, [], []) invoke m req w = (Ok (s', gs, log, r), w') →
  match r with
  | inr resp => handled env s w s' gs w' m (wire_request m req) resp ∧ log = [LogDebug (gs_nodeID s) (FullMethodName m)]
  | inl _ => s' = s ∧ gs = [] ∨ ∃ resp, handled env s w s' gs w' m (wire_request m req) resp
  end.
Proof.
  intros Hd. destruct (FullMethodName_registered m) as (name & Hin & Hname).
  unfold stub_call, mbind, io_bind. destruct (marshal_request m req) as [err|p] eqn:Ep; [intros [= <- <- <- <- _]; by left|].
  rewrite Hname. destruct (invoke _ p w) as [[[out r1]| |] w1] eqn:Ei; [|done..]. intros [= -> <- <-].
  destruct (Hd name m p w _ _ Hin Ei) as [(err & [= -> -> -> ->])|(s1 & gs1 & r2 & log1 & Eh & Hout)]; [by left|].
  destruct (method_handler_runs env s m req p w s1 gs1 r2 log1 w1 Ep Eh) as (resp & Hh & -> & ->).
  destruct Hout as [[= -> -> -> ->]|(err & [= -> -> -> ->])]; [|right; by exists resp].
  destruct (marshal_response m resp) as [err|q] eqn:Eq; [right; by exists resp|].
  rewrite (unmarshal_marshal_response m resp q Eq). by rewrite Hname.
Qed.

(** A local call of [Delete]. *)
Lemma remote_call_sound_witness :
  let s := mkServer (str "n1") (Some witness_node) (Some (fresh_engine (str "d"))) in
  let env := mkEnv [] None (λ x, x) in
  ∃ s' gs log resp w', stub_call (s, [], []) (local_invoke env s) MDelete (mkDelReq (str "k")) witness_sm_world
      = (Ok (s', gs, log, inr resp), w')
    ∧ Delete s (mkDelReq (str "k")) witness_sm_world = (Ok (s', gs, resp), w').
Proof.
  intros s env.
  assert (Hok : match fst (stub_call (s, [], []) (local_invoke env s) MDelete (mkDelReq (str "k")) witness_sm_world) with
                | Ok (_, inr _) => true | _ => false end = true) by (vm_compute; reflexivity).
  destruct (stub_call (s, [], []) (local_invoke env s) MDelete (mkDelReq (str "k")) witness_sm_world)
    as [[[[[s' gs] log] [err|resp]]| |] w'] eqn:E; try discriminate Hok.
  exists s', gs, log, resp, w'. split; [reflexivity|].
  exact (proj1 (remote_call_sound (local_invoke env s) env s MDelete (mkDelReq (str "k")) witness_sm_world
    s' gs log (inr resp) w' (local_invoke_delivers env s) E)).
Defined.

(** C34: the replication goroutine follows the protocol. [replicateToPeer] of a
    leader, calling a peer of its pool whose server answers with its
    [AppendEntries] handler, has exactly the effect of three steps of the
    cluster, send, handle and reply; when the peer is not connected or the call
    fails the node does not change. *)
Theorem replicate_goroutine_refines_steps {E} `{KVStore E} ids cfg_of c i p n m (eng : option E) pool call :
  deployment ids cfg_of → reachable ids cfg_of c → c_nodes c !! i = Some n → nd_role n = Leader →
  p ∈ nd_peers n → c_nodes c !! p = Some m →
  (∀ t conn req srv resp, AppendEntries (mkServer p (Some m) eng) req = Some (srv, resp) → call t conn req = inr resp) →
  (is_Some (pp_peers pool !! p) → ∃ c' n' req srv resp,
     replicateToPeer call pool id n p (nd_currentTerm n) = Some n' ∧ exchange i p c = Some c' ∧ steps c c'
     ∧ AppendEntries (mkServer p (Some m) eng) req = Some (srv, resp)
     ∧ c_nodes c' !! i = Some n' ∧ c_nodes c' !! p = gs_raftNode srv)
  ∧ (pp_peers pool !! p = None → replicateToPeer call pool id n p (nd_currentTerm n) = Some n)
  ∧ (∀ fail err, (∀ t conn req, fail t conn req = inl err) →
       replicateToPeer fail pool id n p (nd_currentTerm n) = Some n).
Proof.
  intros Hdep Hr Hi Hl Hp Hm Hcall. pose proof (reachable_node_wf _ _ _ _ _ Hdep Hr Hi) as Hn.
  destruct (leader_peer ids cfg_of Hdep c i n p Hr Hi Hp) as (Hid & Hne & _).
  destruct (request_shape n p Hn Hl Hp) as (e & He & Hreq). unfold replicateToPeer.
  rewrite Hreq. cbn [mbind option_bind]. split; [|split].
  - intros [conn Hconn].
    destruct (exchange_steps ids cfg_of Hdep c i p n m _ Hr Hi Hp Hm Hreq eq_refl Hid)
      as (c' & m' & resp & n' & Ex & Hs & Em & En & Hc').
    set (req := mkAppendReq _ _ _ _ _ _) in *.
    assert (Ha : AppendEntries (mkServer p (Some m) eng) req = Some (mkServer p (Some m') eng, resp)).
    { unfold AppendEntries. cbn [gs_raftNode rp_HandleAppendEntries node_proposer]. by rewrite Em. }
    exists c', n', req, (mkServer p (Some m') eng), resp. split.
    { unfold pool_AppendEntries, pool_call, getPeer. rewrite Hconn. by rewrite (Hcall _ _ _ _ _ Ha). }
    split; [done|]. split; [done|]. split; [done|]. rewrite Hc'.
    split; [by rewrite lookup_insert_eq|]. by rewrite lookup_insert_ne, lookup_insert_eq.
  - intros Hconn. unfold pool_AppendEntries, pool_call, getPeer. by rewrite Hconn.
  - intros fail err Hfail. unfold pool_AppendEntries, pool_call, getPeer.
    destruct (pp_peers pool !! p); [by rewrite Hfail|done].
Qed.

Lemma replicate_goroutine_refines_steps_witness :
  ∃ c' n n', c_nodes proposed_cluster !! str "n1" = Some n
    ∧ exchange (str "n1") (str "n2") proposed_cluster = Some c' ∧ c_nodes c' !! str "n1" = Some n'
    ∧ ∃ call, replicateToPeer call (mkPool (str "n1") {[str "n2" := mkPeer (str "n2") (str "a")]}) id n (str "n2")
        (nd_currentTerm n) = Some n'.
Proof.
  destruct proposed_leader as (n & Hn & Hl & Ht & Hg & Hp & _).
  destruct (proposed_peer (str "n2") (1, Follower, 0, [dummy]) ltac:(vm_compute; reflexivity)) as (m & Hm & _).
  set (call := λ (t : Z) (conn : peerConn) req,
    match AppendEntries (mkServer (str "n2") (Some m) (@None Engine.Engine)) req with
    | Some (_, resp) => inr resp
    | None => inl (Errorf "panic")
    end).
  destruct (replicate_goroutine_refines_steps demo_ids demo_cfg proposed_cluster (str "n1") (str "n2") n m
    (@None Engine.Engine) (mkPool (str "n1") {[str "n2" := mkPeer (str "n2") (str "a")]}) call
    demo_deployment proposed_reachable Hn Hl) as (Hok & _).
  - rewrite Hp. left.
  - exact Hm.
  - intros t conn req srv resp Ha. unfold call. rewrite Ha. reflexivity.
  - destruct Hok as (c' & n' & _ & _ & _ & Hrep & Hex & _ & _ & Hn' & _); [by_decide|].
    exists c', n, n'. split; [exact Hn|]. split; [exact Hex|]. split; [exact Hn'|]. exists call. exact Hrep.
Defined.
