(* ===== verification/Main.v ===== *)
(** The start and the shutdown of a cluster node in [cmd/server/main.go]: the
    [-peers] flag, the configuration, how engine, peer pool, Raft node, state
    machine and gRPC server are put together, and in which order they stop. *)

From S2P Require Import Prelude StorageTypes MemTable Os Wal SSTable Engine Lifecycle Validation Store Config RaftNode Election Replication.
From S2P Require Import Snapshot StateMachine Rpc Service Flags.

(** ** The [-peers] flag *)

(** [strings.Split(s, sep)] for a separator of one byte. *)
Fixpoint strings_Split (sep : byte) (s : bytes) : list bytes :=
  match s with
  | [] => [[]]
  | c :: s =>
      if decide (c = sep) then [] :: strings_Split sep s
      else match strings_Split sep s with
           | [] => [[c]]
           | part :: parts => (c :: part) :: parts
           end
  end.

(** [strings.SplitN(s, sep, 2)] for a separator of one byte, when it has two
    parts. *)
Fixpoint strings_SplitN2 (sep : byte) (s : bytes) : option (bytes * bytes) :=
  match s with
  | [] => None
  | c :: s =>
      if decide (c = sep) then Some ([], s)
      else match strings_SplitN2 sep s with
           | Some (a, b) => Some (c :: a, b)
           | None => None
           end
  end.

(** White space of ASCII text. *)
Definition is_space (c : byte) : bool :=
  bool_decide (c ∈ [x09; x0a; x0b; x0c; x0d; x20]).

Fixpoint trim_left (s : bytes) : bytes :=
  match s with
  | c :: s' => if is_space c then trim_left s' else s
  | [] => []
  end.

(** [strings.TrimSpace] of ASCII text. *)
Definition strings_TrimSpace (s : bytes) : bytes := rev (trim_left (rev (trim_left s))).

(** One iteration of the loop over the specs. *)
Definition add_spec (acc : gmap bytes bytes * list bytes) (spec : bytes) : gmap bytes bytes * list bytes :=
  match strings_SplitN2 x3d (strings_TrimSpace spec) with
  | Some (id, addr) => (<[id := addr]> (fst acc), snd acc ++ [addr])
  | None => acc
  end.

(** [peerMap] and [peerAddrs]. *)
Definition parse_peers (flag : bytes) : gmap bytes bytes * list bytes :=
  if decide (flag = []) then (∅, []) else foldl add_spec (∅, []) (strings_Split x2c flag).

(** ** Putting the node together *)

Definition main_config (nodeID addr dataDir : bytes) (peerAddrs : list bytes) : Config :=
  mkConfig nodeID addr peerAddrs dataDir (MemTableMaxBytes DefaultConfig)
    (HeartbeatInterval DefaultConfig) (ElectionTimeoutMin DefaultConfig) (ElectionTimeoutMax DefaultConfig).

(** [for peerID, peerAddr := range peerMap]; a failed dial is logged. *)
Definition connect_peers (dial : bytes → option error) (p : PeerPool) (peers : list (bytes * bytes)) : PeerPool :=
  foldl (λ p '(peerID, peerAddr), fst (Connect dial p peerID peerAddr)) p peers.

(** The node's files in its data directory. *)
Definition node_disk (cfg : Config) (w : world) : disk :=
  mkDisk (w_files w !! path_Join (DataDir cfg) (str "raft_state.bin"))
         (w_files w !! path_Join (DataDir cfg) (str "snapshot.bin")).

(** [raft.NewNode] on the files of the world. *)
Definition new_node (cfg : Config) (peers : list bytes) (applyCh : chan ApplyMsg) : IO Node := λ w,
  match NewNode cfg peers applyCh (node_disk cfg w) with
  | inl err => (Err err, w)
  | inr n => (Ok n, w)
  end.

Section Process.
Context {G L : Type} `{GrpcLib G L}.

(** What [main] holds while it waits for a signal. The engine is shared by the
    state machine, which writes it, and the server, which reads it. *)
Record process := mkProcess {
  pr_node : Node;
  pr_applier : @applier Engine.Engine;
  pr_server : RunningServer Node Engine.Engine G;
  pr_pool : PeerPool;
}.

Definition pr_engine (p : process) : Engine.Engine := sm_storageEngine (ap_sm (pr_applier p)).

(** [main] in cluster mode up to the wait for a signal. The server's field
    [server] is nil until the goroutine that calls [grpcServer.Start] gets
    there. An error is an exit with status 1. *)
Definition start_node (dial : bytes → option error) (nodeID addr peersFlag dataDir : bytes) : IO process :=
  let '(peerMap, peerAddrs) := parse_peers peersFlag in
  let cfg := main_config nodeID addr dataDir peerAddrs in
  engine ← Engine.Open (DataDir cfg);
  let applyCh := mkChan 256 [] [] in
  let pool := connect_peers dial (NewPeerPool (NodeID cfg)) (map_to_list peerMap) in
  raftNode ← new_node cfg (PeerIDs pool) applyCh;
  let sm := sm_Start (mkApplier (NewStateMachine engine) applyCh false false) in
  let raftNode := Start raftNode in
  let grpcServer := mkRunning (NewGRPCServer (NodeID cfg) (Some raftNode) (Some engine)) None in
  mret (mkProcess raftNode sm grpcServer pool).

(** The goroutine that serves: the process once [Serve] is called, and the
    error that is logged when it ends. *)
Definition serve_goroutine (p : process) : IO (process * option error) :=
  '(srv, err) ← server_Start (pr_server p) (ListenAddr (nd_cfg (pr_node p)));
  mret (mkProcess (pr_node p) (pr_applier p) srv (pr_pool p), err).

(** [main] after the signal: the node's timers, the server, the applier's
    context, the connections and last the engine, whose error is only logged.
    [sm.Stop] cancels and does not wait: [late] are the iterations of the
    applier's [select] before the engine is closed, in each of which it may
    return or still apply a message. *)
Definition shutdown (late : list (bool * nat)) (p : process) : IO process :=
  let raftNode := Stop (pr_node p) in
  _ ← server_Stop (pr_server p);
  let sm := sm_Stop (pr_applier p) in
  let pool := pool_Close (pr_pool p) in
  sm ← applier_run ((λ '(prefer_done, pick), ApSelect prefer_done pick) <$> late) sm;
  _ ← io_try (Engine.Close (sm_storageEngine (ap_sm sm)));
  mret (mkProcess raftNode sm (pr_server p) pool).

(** How [main] goes on after the command line: it exits with a status, has run
    the storage check, or runs a node until a signal arrives. *)
Inductive main_result :=
| MainExit (status : Z)
| MainReport (r : report)
| MainNode (p : process).

Definition main (dial : bytes → option error) (args : list bytes) : IO main_result :=
  match server_Parse args with
  | inl status => mret (MainExit status)
  | inr f =>
      if validation_mode (sf_nodeID f) (sf_phase1 f) (sf_verifyOnly f) then
        r ← runStorageTest (sf_dataDir f) (sf_verifyOnly f) (sf_numKeys f);
        mret (match r with None => MainExit 1 | Some r => MainReport r end)
      else
        r ← io_try (start_node dial (sf_nodeID f) (sf_addr f) (sf_peers f) (sf_dataDir f));
        mret (match r with inl _ => MainExit 1 | inr p => MainNode p end)
  end.

(** What the shutdown relies on: stopping the gRPC server returns, and neither
    touches the files nor makes their use fail. *)
Definition graceful (p : process) : Prop :=
  ∀ w, no_faults w → ∃ w', server_Stop (pr_server p) w = (Ok tt, w') ∧ w_files w' = w_files w ∧ no_faults w'.

End Process.

Arguments process G : clear implicits.
Arguments main_result G : clear implicits.

(** ** Specification *)

(** The pairs of a flag value, in order. *)
Definition peer_specs (flag : bytes) : list (bytes * bytes) :=
  if decide (flag = []) then []
  else omap (λ spec, strings_SplitN2 x3d (strings_TrimSpace spec)) (strings_Split x2c flag).

(** The flag value for a list of peers, as the usage text writes it. *)
Fixpoint print_peers (specs : list (bytes * bytes)) : bytes :=
  match specs with
  | [] => []
  | [(id, addr)] => id ++ [x3d] ++ addr
  | (id, addr) :: specs => id ++ [x3d] ++ addr ++ [x2c] ++ print_peers specs
  end.

(** Names and addresses that survive printing: no separators, no white space. *)
Definition clean_spec (spec : bytes * bytes) : Prop :=
  Forall (λ c, c ≠ x2c ∧ c ≠ x3d ∧ is_space c = false) (fst spec)
  ∧ Forall (λ c, c ≠ x2c ∧ is_space c = false) (snd spec).

(** * Lemmas *)

Lemma add_specs parts : ∀ m addrs,
  let specs := omap (λ spec, strings_SplitN2 x3d (strings_TrimSpace spec)) parts in
  let r := foldl add_spec (m, addrs) parts in
  (∀ id, is_Some (fst r !! id) ↔ is_Some (m !! id) ∨ id ∈ fst <$> specs)
  ∧ snd r = addrs ++ (snd <$> specs).
Proof.
  induction parts as [|p parts IH]; intros m addrs; cbn.
  { split; [|by rewrite app_nil_r]. intros id. split; [by left|]. intros [?|?%not_elem_of_nil]; done. }
  unfold add_spec at 2 4. destruct (strings_SplitN2 x3d (strings_TrimSpace p)) as [[id0 addr]|]; cbn.
  - destruct (IH (<[id0 := addr]> m) (addrs ++ [addr])) as [H1 H2]. split.
    + intros id. rewrite H1, elem_of_cons. cbn. rewrite lookup_insert_is_Some. destruct (decide (id0 = id)); naive_solver.
    + rewrite H2, <- app_assoc. done.
  - apply IH.
Qed.

(** The map has the names of the specs, the list their addresses. *)
Lemma parse_peers_specs flag :
  (∀ id, is_Some (fst (parse_peers flag) !! id) ↔ id ∈ fst <$> peer_specs flag)
  ∧ snd (parse_peers flag) = snd <$> peer_specs flag.
Proof.
  unfold parse_peers, peer_specs. case_decide.
  { split; [|done]. intros id. cbn. rewrite lookup_empty. split; [by intros [? ?]|by intros ?%not_elem_of_nil]. }
  destruct (add_specs (strings_Split x2c flag) ∅ []) as [H1 H2]. split; [|done].
  intros id. rewrite H1, lookup_empty. split; [intros [[? ?]|?]; done|by right].
Qed.

Lemma connect_peers_lookup dial peers : ∀ p id,
  (∀ addr, dial addr = None) →
  is_Some (pp_peers (connect_peers dial p peers) !! id) ↔ is_Some (pp_peers p !! id) ∨ id ∈ fst <$> peers.
Proof.
  induction peers as [|[k a] peers IH]; intros p id Hd.
  { cbn. split; [by left|]. intros [?|?%not_elem_of_nil]; done. }
  change (connect_peers dial p ((k, a) :: peers)) with (connect_peers dial (fst (Connect dial p k a)) peers).
  cbn [fmap list_fmap fst]. rewrite IH, Connect_lookup, elem_of_cons by done.
  destruct (pp_peers p !! k) eqn:E; [|rewrite lookup_insert_is_Some];
    destruct (decide (k = id)) as [->|]; naive_solver.
Qed.

(** The peers a node is started with. *)
Lemma started_peers dial nodeID flag id :
  (∀ addr, dial addr = None) →
  id ∈ PeerIDs (connect_peers dial (NewPeerPool nodeID) (map_to_list (fst (parse_peers flag))))
    ↔ id ∈ fst <$> peer_specs flag.
Proof.
  intros Hd. rewrite PeerIDs_elem, connect_peers_lookup by done. cbn. rewrite lookup_empty.
  rewrite <- (proj1 (parse_peers_specs flag)), list_elem_of_fmap. split.
  - intros [[? ?]|([k v] & -> & Hk%elem_of_map_to_list)]; [done|]. by eexists.
  - intros [v Hv]. right. exists (id, v). split; [done|]. by apply elem_of_map_to_list.
Qed.

(** Two lists with the same elements, one without duplicates. *)
Lemma same_elements_length {A} `{EqDecision A} (l k : list A) :
  NoDup l → (∀ x, x ∈ l ↔ x ∈ k) →
  (NoDup k → len l = len k) ∧ (¬ NoDup k → len l < len k).
Proof.
  intros Hl Hx.
  assert (Hp : l ≡ₚ remove_dups k).
  { apply NoDup_Permutation; [done|apply NoDup_remove_dups|]. intros x. rewrite Hx. by rewrite elem_of_remove_dups. }
  apply Permutation_length in Hp. unfold len. clear Hl Hx. revert l Hp.
  induction k as [|y k IH]; intros l Hp; cbn in Hp |- *; [split; [lia|by intros []; constructor]|].
  assert (Hle : (length (remove_dups k) ≤ length k)%nat).
  { clear. induction k as [|z k IH]; cbn; [done|]. case_decide; cbn; lia. }
  destruct (IH (remove_dups k) eq_refl) as [IH1 IH2]. case_decide as D; cbn in Hp.
  - split; [intros [? ?]%NoDup_cons; done|lia].
  - rewrite NoDup_cons. destruct (decide (NoDup k)) as [Hk|Hk]; [split; [intros _; specialize (IH1 Hk); lia|]|].
    + intros Hn. destruct Hn. done.
    + split; [by intros [_ ?]|]. intros _. specialize (IH2 Hk). lia.
Qed.

(** ** Parsing what was printed *)

Lemma strings_Split_app part rest :
  Forall (λ c, c ≠ x2c) part → strings_Split x2c (part ++ [x2c] ++ rest) = part :: strings_Split x2c rest.
Proof.
  induction 1 as [|c part Hc _ IH]; [done|]. cbn [app strings_Split].
  rewrite decide_False by done. cbn [app] in IH. by rewrite IH.
Qed.

Lemma strings_Split_last part :
  Forall (λ c, c ≠ x2c) part → strings_Split x2c part = [part].
Proof. induction 1 as [|c part Hc _ IH]; [done|]. cbn. by rewrite decide_False, IH by done. Qed.

Lemma strings_SplitN2_app id addr :
  Forall (λ c, c ≠ x3d) id → strings_SplitN2 x3d (id ++ [x3d] ++ addr) = Some (id, addr).
Proof. induction 1 as [|c id Hc _ IH]; [done|]. cbn in *. by rewrite decide_False, IH by done. Qed.

Lemma trim_left_clean s : Forall (λ c, is_space c = false) s → trim_left s = s.
Proof. intros [|c s' Hc _]; [done|]. cbn. by rewrite Hc. Qed.

Lemma TrimSpace_clean s : Forall (λ c, is_space c = false) s → strings_TrimSpace s = s.
Proof.
  intros Hs. unfold strings_TrimSpace. rewrite (trim_left_clean s Hs).
  rewrite trim_left_clean by (by apply Forall_rev). by rewrite rev_involutive.
Qed.

Lemma clean_spec_parts id addr :
  clean_spec (id, addr) →
  Forall (λ c, c ≠ x2c) (id ++ [x3d] ++ addr)
  ∧ strings_SplitN2 x3d (strings_TrimSpace (id ++ [x3d] ++ addr)) = Some (id, addr).
Proof.
  intros [Hid Haddr]. cbn in Hid, Haddr. split.
  - rewrite !Forall_app, Forall_singleton. split_and!; [|done|]; eapply Forall_impl; try done; cbn; tauto.
  - rewrite TrimSpace_clean; [apply strings_SplitN2_app; eapply Forall_impl; [done|]; cbn; tauto|].
    rewrite !Forall_app, Forall_singleton. split_and!; [|done|]; eapply Forall_impl; try done; cbn; tauto.
Qed.

Lemma print_peers_specs specs :
  specs ≠ [] → Forall clean_spec specs →
  omap (λ spec, strings_SplitN2 x3d (strings_TrimSpace spec)) (strings_Split x2c (print_peers specs)) = specs.
Proof.
  intros Hne Hall. induction Hall as [|[id addr] specs Hs Hall IH]; [done|].
  destruct (clean_spec_parts id addr Hs) as [H1 H2]. destruct specs as [|s2 specs].
  - cbn [print_peers]. rewrite strings_Split_last by done. cbn [omap list_omap]. by rewrite H2.
  - change (print_peers ((id, addr) :: s2 :: specs))
      with (id ++ [x3d] ++ addr ++ [x2c] ++ print_peers (s2 :: specs)).
    rewrite (app_assoc [x3d]), (app_assoc id), strings_Split_app by done.
    cbn [omap list_omap]. rewrite H2. f_equal. by apply IH.
Qed.

(** ** Processes *)

(** The serving goroutine changes nothing of the process but the server's
    field. *)
Lemma serve_goroutine_ok {G L} `{GrpcLib G L} (p p' : process G) err w w' :
  serve_goroutine p w = (Ok (p', err), w') →
  pr_node p' = pr_node p ∧ pr_applier p' = pr_applier p ∧ pr_pool p' = pr_pool p
  ∧ rn_base (pr_server p') = rn_base (pr_server p).
Proof.
  unfold serve_goroutine, mbind, io_bind. intros E.
  pose proof (server_start_stop (pr_server p) (ListenAddr (nd_cfg (pr_node p))) w) as Hs.
  destruct (net_Listen _ w) as [[lis|e|] w1] eqn:El.
  - destruct (server_Start _ _ w) as [[[srv er]| |] w2] eqn:Es; [|discriminate E..].
    injection E as <- <- <-. destruct (Hs srv er w2 eq_refl) as [Hb _]. done.
  - destruct Hs as [Hs _]. rewrite Hs in E. by injection E as <- <- <-.
  - by rewrite Hs in E.
Qed.

(** A start over a directory that holds a logged history and a state file. *)
Lemma start_node_ok {G} dial nodeID addr flag dataDir w n rs :
  no_faults w → Validate (main_config nodeID addr dataDir (snd (parse_peers flag))) = None →
  w_files w !! wal_file dataDir = Some (encode_records rs) → Forall replayable rs →
  tables_logged (w_files w) rs dataDir → state_fits n →
  w_files w !! path_Join dataDir (str "raft_state.bin") = Some (encode_state n) →
  ∃ (p : process G) w' es tables, start_node dial nodeID addr flag dataDir w = (Ok p, w')
    ∧ same_persistent n (pr_node p) ∧ nd_role (pr_node p) = Follower ∧ no_faults w'
    ∧ ap_running (pr_applier p) = true ∧ ap_cancelled (pr_applier p) = false
    ∧ engine_rep w' (pr_engine p) rs es tables.
Proof.
  intros Hw Hv Hf Hrs Hl Hfit Hst.
  destruct (Open_logged w dataDir rs Hw Hf Hrs Hl) as (e & w' & es & ts & Eo & Hw' & He & Hf').
  unfold start_node. destruct (parse_peers flag) as [peerMap peerAddrs]. cbn [snd] in Hv.
  cbn [NodeID DataDir main_config]. unfold mbind, io_bind. rewrite Eo. unfold new_node, node_disk.
  cbn [DataDir main_config]. rewrite Hf', Hst.
  set (d := mkDisk _ _). set (cfg := main_config _ _ _ _) in *.
  pose proof (NewNode_persisted cfg (PeerIDs (connect_peers dial (NewPeerPool nodeID) (map_to_list peerMap)))
    (mkChan 256 [] []) (set_disk d n) Hv Hfit eq_refl) as En.
  cbn [nd_disk set_disk nd_currentTerm nd_votedFor nd_log] in En. rewrite En.
  by eexists _, w', es, ts.
Qed.

(** With no arguments [main] runs the storage check on the default directory
    with the default number of keys. *)
Lemma main_no_args {G} dial w :
  main (G := G) dial [] w = (r ← runStorageTest (str "./data") false 10000;
                    mret (match r with None => MainExit 1 | Some r => MainReport r end)) w.
Proof. reflexivity. Qed.

(** ** A library for the witnesses *)

(** Listening succeeds, and serving returns when the server is stopped. *)
Definition test_grpc : GrpcLib unit unit := {|
  net_Listen := λ _, mret tt;
  grpc_NewServer := λ _, tt;
  RegisterService := λ _ _ _, tt;
  reflection_Register := λ _, tt;
  Serve := λ _ _, mret tt;
  GracefulStop := λ _, mret tt;
|}.

#[local] Existing Instance test_grpc.

Definition witness_process (e : Engine.Engine) : process unit :=
  mkProcess witness_node (mkApplier (NewStateMachine e) (mkChan 256 [] []) false true)
    (mkRunning (NewGRPCServer (str "n1") (Some witness_node) (Some e)) (Some tt)) (NewPeerPool (str "n1")).

(** * Theorems *)

(** C28: a clean restart of a node keeps its state: [shutdown], with any
    iterations of the applier before the engine is closed, and then a start with
    the same flags in the same directory give a process whose Raft node is a
    follower with the term, vote and log that were on disk, and whose applier
    runs over an engine that represents the same history of writes. The shutdown
    leaves no timer and no connection, and the applier has returned if it ran at
    all after the cancellation. Assumed are no I/O failure, a valid
    configuration, a server that stops without touching the files, an apply
    channel with nothing left in it, a state file that holds the node's state,
    and of the history that every logged put has a non-empty value and a key of
    at most 65528 bytes (others do not survive a restart), that the MemTable
    makes a table that reads back, and that the tables on disk do and hold only
    logged keys. *)
Theorem node_restart_keeps_state {G L} `{GrpcLib G L} dial nodeID addr flag dataDir late w (p : process G) rs es tables :
  no_faults w → ch_buf (ap_ch (pr_applier p)) = [] → Validate (main_config nodeID addr dataDir (snd (parse_peers flag))) = None → graceful p →
  state_fits (pr_node p) → w_files w !! path_Join dataDir (str "raft_state.bin") = Some (encode_state (pr_node p)) →
  engine_rep w (pr_engine p) rs es tables → en_dataDir (pr_engine p) = dataDir → Forall replayable rs →
  close_ready rs es → tables_logged (w_files w) rs dataDir →
  ∃ p1 w1 (p2 : process G) w2 es' tables', shutdown late p w = (Ok p1, w1)
    ∧ nd_electionTimer (pr_node p1) = false ∧ pp_peers (pr_pool p1) = ∅ ∧ ap_cancelled (pr_applier p1) = true
    ∧ (late ≠ [] → ap_running (pr_applier p1) = false)
    ∧ start_node dial nodeID addr flag dataDir w1 = (Ok p2, w2)
    ∧ same_persistent (pr_node p) (pr_node p2) ∧ nd_role (pr_node p2) = Follower
    ∧ ap_running (pr_applier p2) = true ∧ engine_rep w2 (pr_engine p2) rs es' tables'.
Proof.
  intros Hw Hempty Hv Hg Hfit Hst He <- Hrs Hcr Hl. destruct (Hg w Hw) as (w0 & Eg & Hf0 & Hw0).
  rewrite <- Hf0 in Hst, Hl.
  destruct (Close_ok w0 (pr_engine p) rs es tables Hw0 (engine_rep_files w w0 _ _ _ _ Hf0 He) Hcr Hl)
    as (w1 & Ec & Hw1 & Hf1 & Hl1 & Hfr).
  unfold str, list_byte_of_string in Hst. cbn in Hst. rewrite <- Hfr in Hst by done.
  destruct (start_node_ok (G := G) dial nodeID addr flag _ w1 (pr_node p) rs Hw1 Hv Hf1 Hrs Hl1 Hfit Hst)
    as (p2 & w2 & es' & ts' & Es & Hsp & Hr & _ & Hrun2 & _ & He2).
  destruct (applier_drained late (sm_Stop (pr_applier p)) w0 Hempty eq_refl) as (a & Ea & Hsm & Hca & Hrun).
  exists (mkProcess (Stop (pr_node p)) a (pr_server p) (pool_Close (pr_pool p))).
  exists w1, p2, w2, es', ts'. split; [|done].
  unfold shutdown, mbind, io_bind, io_try. rewrite Eg, Ea, Hsm. cbn [ap_sm sm_Stop]. unfold pr_engine in Ec. by rewrite Ec.
Qed.

(** A node with a log of two commands and an engine with one write, whose server
    is up. *)
Lemma node_restart_keeps_state_witness :
  let d := str "d" in
  let r := put_record (str "k") (str "v") in
  let w := mkWorld (<[wal_file d := encode_records [r]]> {[path_Join d (str "raft_state.bin") := encode_state witness_node]})
             [7] [] [] in
  ∃ e0 w0 p1 w1 (p2 : process unit) w2, Open d w = (Ok e0, w0) ∧ shutdown [(false, 0%nat)] (witness_process e0) w0 = (Ok p1, w1)
    ∧ ap_running (pr_applier p1) = false
    ∧ start_node (λ _, None) (str "n1") (str ":1") (str "n2=a:2,n3=b:3") d w1 = (Ok p2, w2)
    ∧ same_persistent witness_node (pr_node p2).
Proof.
  intros d r w.
  assert (Hrs : Forall replayable [r]).
  { apply List.Forall_cons; [|apply List.Forall_nil]. split; [split; vm_compute; congruence|].
    right. split; [reflexivity|vm_compute; discriminate]. }
  assert (Hnil : sst_paths (w_files w) d = []) by (vm_compute; reflexivity).
  destruct (Open_files w d [r] [] []) as (e0 & w0 & es & Eo & Hw0 & He0 & Hf0 & Hd0).
  - reflexivity.
  - rewrite app_nil_r. apply lookup_insert_eq.
  - exact Hrs.
  - reflexivity.
  - rewrite Hnil. apply List.Forall2_nil.
  - assert (Hes : es = [mkEntry (str "k") (Some (str "v")) OpPut]).
    { pose proof He0 as [_ _ [k Hm] _ _ _ _]. apply mem_rep_entries in Hm.
      assert (E1 : fst (Open d w) = Ok e0) by (rewrite Eo; reflexivity).
      assert (E2 : match fst (Open d w) with Ok e => Entries (en_mem e) | _ => None end
                   = Some [mkEntry (str "k") (Some (str "v")) OpPut]) by (vm_compute; reflexivity).
      rewrite E1 in E2. congruence. }
    rewrite insert_id in Hf0 by apply lookup_insert_eq.
    destruct (node_restart_keeps_state (λ _, None) (str "n1") (str ":1") (str "n2=a:2,n3=b:3") d [(false, 0%nat)] w0
      (witness_process e0) [r] es [])
      as (p1 & w1 & p2 & w2 & es' & ts' & E1 & _ & _ & _ & Hrun & E2 & Hsp & _).
    + exact Hw0.
    + reflexivity.
    + vm_compute. reflexivity.
    + intros w3 Hw3. exists w3. split; [reflexivity|]. split; [reflexivity|exact Hw3].
    + exact witness_node_fits.
    + rewrite Hf0. vm_compute. reflexivity.
    + exact He0.
    + exact Hd0.
    + exact Hrs.
    + right. rewrite Hes. split; [vm_compute; reflexivity|]. split; [vm_compute; reflexivity|].
      intros x ->%list_elem_of_singleton. left.
    + intros p. rewrite Hf0, Hnil. intros H. destruct (not_elem_of_nil _ H).
    + exists e0, w0, p1, w1, p2, w2.
      split; [exact Eo|]. split; [exact E1|]. split; [apply Hrun; discriminate|]. split; [exact E2|exact Hsp].
Defined.

(** A node started with any [-peers] flag has as peers exactly the names
    the flag lists, and starts as a follower; the cluster size its quorum is
    computed from counts the listed addresses, so it equals the number of peers
    and the node itself when the names are distinct, and is larger when a name
    is repeated. *)
Theorem main_cluster_size {G} dial nodeID addr flag dataDir w (p : process G) w' :
  (∀ a, dial a = None) →
  start_node dial nodeID addr flag dataDir w = (Ok p, w') →
  let n := pr_node p in
  nd_id n = nodeID ∧ nd_role n = Follower ∧ nd_electionTimer n = true ∧ ch_cap (nd_applyCh n) = 256%nat
  ∧ (∀ id, id ∈ nd_peers n ↔ id ∈ fst <$> peer_specs flag)
  ∧ (NoDup (fst <$> peer_specs flag) → ClusterSize (nd_cfg n) = 1 + len (nd_peers n))
  ∧ (¬ NoDup (fst <$> peer_specs flag) → 1 + len (nd_peers n) < ClusterSize (nd_cfg n)).
Proof.
  intros Hd E0. unfold start_node in E0. destruct (parse_peers_specs flag) as [_ Ha].
  pose proof (λ id, started_peers dial nodeID flag id Hd) as Hp.
  destruct (parse_peers flag) as [peerMap peerAddrs]. cbn [fst snd] in Ha, Hp.
  cbn [NodeID DataDir main_config] in E0. set (pool := connect_peers _ _ _) in *.
  unfold mbind, io_bind in E0. destruct (Open dataDir w) as [[eng| |] w1]; try discriminate E0.
  unfold new_node in E0.
  destruct (NewNode _ _ _ _) as [err|n1] eqn:En; [discriminate E0|]. injection E0 as <- <-.
  destruct (NewNode_fields _ _ _ _ _ En) as (H1 & H2 & H3 & H4 & H5). cbn. rewrite H1, H2, H3, H4, H5.
  destruct (same_elements_length (PeerIDs pool) (fst <$> peer_specs flag) (PeerIDs_NoDup pool) Hp) as [L1 L2].
  unfold ClusterSize. cbn [Peers main_config]. rewrite Ha. unfold len in *. rewrite !length_fmap in *.
  split_and!; try done; intros Hn; [rewrite L1 by done; lia|]. specialize (L2 Hn). lia.
Qed.

(** A node of three, and the same flag with a name repeated. *)
Lemma main_cluster_size_witness :
  ∃ (p : process unit) w', start_node (λ _, None) (str "n1") (str ":1") (str "n2=a:2, n3=b:3") (str "d")
      (mkWorld ∅ [] [] []) = (Ok p, w')
    ∧ ClusterSize (nd_cfg (pr_node p)) = 1 + len (nd_peers (pr_node p)).
Proof.
  destruct (start_node (λ _, None) (str "n1") (str ":1") (str "n2=a:2, n3=b:3") (str "d") (mkWorld ∅ [] [] []))
    as [[p| |] w'] eqn:E0; [|vm_compute in E0; discriminate E0|vm_compute in E0; discriminate E0].
  exists p, w'. split; [reflexivity|].
  apply (main_cluster_size (λ _, None) (str "n1") (str ":1") (str "n2=a:2, n3=b:3") (str "d")
    (mkWorld ∅ [] [] []) p w').
  - reflexivity.
  - exact E0.
  - apply (bool_decide_unpack _). vm_compute. exact I.
Defined.

(** The [-peers] flag round trips: a list of names and addresses without
    separators or white space, printed as the usage text says, is parsed back
    to the same pairs. *)
Theorem peers_flag_roundtrip specs :
  specs ≠ [] → Forall clean_spec specs → peer_specs (print_peers specs) = specs.
Proof.
  intros Hne Hs. unfold peer_specs. rewrite decide_False; [by apply print_peers_specs|].
  destruct specs as [|[id addr] [|? ?]]; [done|..]; cbn; by destruct id.
Qed.

Lemma peers_flag_roundtrip_witness :
  peer_specs (print_peers [(str "n2", str "a:2"); (str "n3", str "b:3")])
    = [(str "n2", str "a:2"); (str "n3", str "b:3")].
Proof.
  apply peers_flag_roundtrip.
  - discriminate.
  - repeat constructor; discriminate.
Defined.
